(* ===== verification/_CoqProject ===== *)
-Q . S2P
Prelude.v
Types.v
Keypath.v
TreeTypes.v
GoValue.v
GoPaths.v
Assemble.v
NodeCodec.v
MemoryNode.v
MemoryProps.v
MemoryIter.v
BadgerTxn.v
DBNode.v
DBProps.v
DBClaims.v
DBVersions.v
DBCopy.v
Tx.v
PatchParser.v
Scan.v
Mempool.v
Channels.v
Contexts.v
TxStore.v
TxGraph.v
Behaviors.v
Nelson.v
Frames.v
FrameProps.v
Permissions.v
Controller.v
ControllerProps.v
EndToEnd.v
Hub.v
Indices.v
RefStore.v
RefTransfer.v
PeerStore.v
KeyStore.v
HttpTx.v
RemoteStore.v
Sets.v
HttpSession.v
Host.v
Libp2pMsg.v
Libp2pNet.v
PeerPool.v
Subscriptions.v
HostPeers.v
HttpRpc.v
HttpStream.v
HttpServe.v
GitHelper.v
GitProps.v
StateQuery.v
StateServed.v
