(* ===== verification/Prelude.v ===== *)
(** * Redwood: a Rocq model of the state trees, the transaction core and the peers

    Redwood (Go, under [src/]) is a database of state trees shared between peers.  Peers send
    each other signed transactions, lists of patches to a state tree identified by a state
    URI.  This development models the part that decides what a state is and the part that
    exchanges transactions and blobs with other peers, and proves the theorems that make
    them correct.

    ** The parts and how they interact

    A transaction enters through the hub ([controller-hub.go]), which owns one controller per
    state URI.  The controller ([controller.go]) stores it as waiting ([txstore.badger.go])
    and delivers it to its mempool ([mempool.go], [utils/mailbox.go]).  The mempool's
    goroutine calls the controller back for every waiting transaction until a pass applies
    none.  Applying a transaction checks parents and signature, hands its patches to the
    validators and then to the resolvers registered in the behaviour tree
    ([controller-behaviors.go]), commits the state tree ([tree/tree.badger.go]) and records
    the transaction as a valid leaf.  Behaviours are configured inside the state itself;
    their configurations are read into memory trees ([tree/tree.memory.go]) and may contain
    NelSON links ([nelson/]).

    The host ([host.go]) connects the hub with other peers.  It signs what the user sends with
    the key store ([identity/]), broadcasts transactions and states to subscribers
    ([host.subscriptions.go]), to providers of the state URI and to the recipients of private
    transactions, remembers who has seen what, proves identities to peers and records theirs
    in the peer store ([peer-store.go]), and fetches blobs into the blob store
    ([refstore.go]).  The transports ([transport.http.go], [transport.libp2p.go]) write
    transactions to the wire, sealed when they are private ([crypto/box.go]).

    ** Which file models which part

    - [Prelude]: bytes and their order, Go slices and 64-bit integers, the outcome monad
      ([Ret], [Err], [Panic], [Running]), shared lemmas and tactics.
    - [Types]: IDs, addresses, hashes, signatures, blob references ([types/types.go]).
    - [Keypath], [TreeTypes]: [tree/keypath.go]; ranges, diffs and node types
      ([tree/types.go]).
    - [GoValue], [GoPaths], [Assemble]: the values stored in a tree and the helpers of
      [tree/util.go]; positions in a value; building a value from its positions.
    - [NodeCodec]: the stored bytes of a node ([encodeNode] to [decodeGoValue]).
    - [MemoryNode], [MemoryProps], [MemoryIter]: the memory tree, its invariant and
      theorems, its iterators and copies.
    - [BadgerTxn]: the key-value store as an interface with laws.  [DBNode], [DBProps],
      [DBClaims], [DBVersions], [DBCopy]: the database tree with its iterators
      ([tree/badger.iterators.go]), its invariant, the theorems, versions and splices, and
      copies to memory.
    - [Tx], [PatchParser]: [tx.go], [patch-parser.go].
    - [Mempool]: mailbox, set of transactions, processing loop.  [Channels]: wait groups,
      periodic tasks, combined contexts ([utils/channels.go]) and the job queue
      ([job-queue.go]).  [Contexts]: the tree of contexts and its shutdown
      ([ctx/context.go]), a step relation over goroutines.  [Sets]: [utils/set.string.go], [utils/set.address.go],
      [utils/state-uri.go].
    - [TxStore], [TxGraph]: the transaction store; the traversal of its graph.
    - [Behaviors]: the behaviour tree and the dispatch of patches to behaviours.
    - [Nelson]: links and [Seek] ([nelson/nelson.go], [nelson/util.go]).  [Frames],
      [FrameProps]: frames, [Resolve] and the recursive reading of a resolved tree; frames
      live in a heap, because a tree holds references to them.
    - [Permissions]: [validator.permissions.go] and [getValue] of [util.go].
    - [Controller], [ControllerProps]: the controller and its theorems.  [EndToEnd]: the
      composition with the database tree.  [Hub]: [controller-hub.go].  [Indices]:
      [QueryIndex], the keypath indexer ([indexer.field.go]) and [Unwrap].
    - [RefStore], [RefTransfer]: the blob store with its specification; fetching and serving
      blobs ([FetchRef], [HandleFetchRefReceived] of [host.go]).
    - [PeerStore], [PeerPool]: [peer-store.go], [peer-pool.go].
    - [KeyStore]: [identity/keystore.badger.go] and [crypto/box.go].
    - [HttpTx]: transactions on the wire ([http_utils.go], [Put] of the transports,
      [servePostTx], [servePostPrivateTx]).  [HttpSession]: requests to the HTTP server, their
      sessions and challenges, the exchange of peers in headers.  [Libp2pMsg]: the messages of
      libp2p peers, their frames and the handler of incoming streams.
      [HttpStream]: subscriptions over event streams and web sockets, and the requests of HTTP
      peers.  [HttpServe]: the other handlers of the HTTP server and its client
      ([client.http.go]).  [StateQuery], [StateServed]: [serveGetState] as a whole, from the
      request through [Seek], [Resolve] and the index to the bytes and headers, and blobs
      served through it.
    - [Libp2pNet]: addresses, peers, the search for providers and the announcements of
      [transport.libp2p.go].  [RemoteStore]: the server and client of [remotestore/].
    - [GitHelper], [GitProps]: the git remote helper ([git-remote-helper/main.go]), its command
      loop, fetching and pushing.
    - [Host]: transactions, subscribers, gossip and identities in [host.go].  [HostPeers]: the
      search for providers, the rounds over the known peers, subscribing and closing.
      [Subscriptions]: the goroutines of [host.subscriptions.go].
    - [HttpRpc]: the RPC server with its whitelist and the RPC client ([rpc.http.server.go],
      [rpc.http.client.go]).

    Definitions carry the names of the code; where two methods share a name the model
    prefixes it ([db_Set] of the database tree and [Set_] of the memory tree, [store_AddTx]
    of the store and [AddTx] of the controller).

    ** How the code is translated

    A pure function is a function; one that can fail returns an [outcome], with [Panic] for a
    run-time panic (index out of range, nil dereference) and [Running] for a loop that has
    used up its fuel.  A method with a receiver takes and returns it.  In the controller,
    where a call can fail after it has changed something, operations are actions of a monad
    that keeps the changes made before the error.  Keypaths, IDs and strings are lists of
    bytes, integers are [Z] with [u64] and [i64] written out.  A Go map is a [gmap], or a list
    of entries where its enumeration order matters: the order is then arbitrary, and so is
    the function [set_slice] that enumerates a set.

    ** What the theorems show

    - Applying transactions: [tx_applied], [tx_refused_without_trace] (all or nothing),
      [valid_parents_invariant] (by induction over the steps of a controller),
      [patch_reaches_state] (down to what [Value] reads), [hub_routes].
    - Behaviours: [behavior_nearest_is_longest], [patches_go_to_nearest],
      [permissions_decide], [removed_behaviors_stay].
    - Peers: a transaction is completed and signed ([send_tx_signed]), put to each peer once
      ([gossip_once]), survives the wire ([http_put_roundtrip], [private_tx_opens]) and leaves
      the host sealed when it is private ([private_tx_sealed]), and is handled by the host
      that reads it from the stream ([libp2p_frames], [libp2p_put_delivers]); subscribers are written to in
      order ([writer_in_order]); identities are proved and recorded ([identity_handshake],
      [peerstore_views_agree], [peer_codec_roundtrip], [peer_ready]) and survive a restart
      ([keystore_restart], [identity_by_address]); the pool is a step relation whose requests
      are conserved ([pool_supply_bounded]); clients log in over HTTP ([http_login]) and are
      believed only what they proved ([session_authenticates]); hosts learn each other's peers
      ([peer_exchange]).  The RPC server lets in exactly those who proved a permitted address
      ([whitelist_sound], [whitelist_complete]).
    - Finding peers and subscribing: the search for providers ([providers_found]), the rounds
      over the peers ([process_peers]), subscriptions of the host ([subscribe_unsubscribe],
      [new_private_state], [host_close]); the goroutines that write to and read from
      subscribers, over all interleavings ([writable_subscription], [in_process_subscription],
      [multi_reader_bounded]); over HTTP, from the request to the message that is read
      ([http_subscribes], [sse_delivers]).
    - Requests: what the client reads is what the tree and the store have ([raw_state_read],
      [fetch_tx_roundtrip]), acknowledgements count ([ack_recorded]).
    - Channels and sets: [wait_group_safe], [wait_group_fan_out], [periodic_task_serves],
      [combined_context], [job_queue_batches], [string_set_laws].
    - Blobs: the blob store refines a set of contents with a set of needed references
      ([refstore_refines]), returns only what was asked for ([refstore_integrity],
      [refstore_store]), and blobs replicate between hosts ([ref_replicates]).
    - State trees: setting and reading back, for both trees ([memory_set_get],
      [db_set_get]); what else a change touches ([memory_set_frame], [db_set_frame],
      [memory_delete_exact], [db_delete_exact]); invariants over reachable trees
      ([memory_reachable_wf], [db_reachable_wf]); iterators and copies
      ([memory_iterators_complete], [memory_copy_is_subtree]); versions
      ([db_versions_isolated], [db_copy_version]); splices ([db_splice_bytes]);
      a copy in memory reads as the tree did ([db_copy_reads_same]).
    - Frames and state queries: what [Resolve] makes of trees without frames, of frames and of
      links ([resolve_frameless], [resolve_root_frame], [resolve_blob_link]); a blob linked
      from a state is what the HTTP server answers with ([linked_blob_served]).
    - Contexts: a context is stopped once ([ctx_stop_once]), after its children
      ([ctx_leaf_first]), and every stop returns under every schedule ([ctx_stop_returns]).
    - Remote store and git: what is added to a remote store is what it returns
      ([remote_session]); fetching writes parents before children ([fetch_parents_first]);
      pushing stores every ancestor that was missing ([push_complete]); the command loop ends
      ([speak_ends]).
    - Store and mempool: [txstore_add_fetch], [txstore_leaves], [txstore_missing_parent],
      [txstore_traversal], [mempool_process_complete]; the mailbox refines a bounded queue
      ([mailbox_fifo]) and loses no wake-up ([mailbox_no_lost_wakeup]).
    - Encodings: nodes, slice indices, transactions, patches, hexadecimal text, keypaths and
      state links round-trip; ranges stay within bounds.
    - Some theorems pin down behaviour that differs from what callers expect
      ([keypath_FirstNParts], [memory_delete_leaves_subtree], [db_delete_string_range_noop],
      [db_insert_loses_element], [db_range_read_below_root], [patch_parser_stuck],
      [tx_hash_ambiguous], [leaves_of_longer_uri], [seek_cycle],
      [state_directories_collide], [refstore_mark_race], [fetch_truncated],
      [serve_missing_panics], [public_identities_positions], [http_public_put_panics],
      [libp2p_wrong_sender_key], [history_served], [private_state_to_anyone],
      [broadcast_state_shared], [same_peer_twice], [cookie_name_not_signed],
      [cookie_without_signature_panics], [unexpected_message_panics],
      [subscribe_payload_panics], [sorted_set_behaviour], [sse_losses],
      [ws_private_in_clear], [ws_close_outcome], [bracket_panics],
      [client_never_authorized], [client_subscribe_refused], [cookie_secret_not_restored],
      [resolve_inner_node], [resolve_cycle_runs], [content_type_lost], [blob_type_guessed],
      [in_flight_child_outlives_parent], [malformed_token_panics], [announcing_never_ends],
      [push_errors_lost], [empty_file_not_pushed], [shared_blob_race], [last_push_dropped]).

    ** Bounds and fuel

    Loops over the items of a store have the number of items plus two as fuel, the graph
    traversal one more than the number of edges plus one, the mempool one pass more than
    there are transactions, the climb through ancestors the length of the keypath; the
    theorems about them show that the fuel is enough (they conclude [Ret]).  [ParsePatch],
    [Seek], [Resolve] and the loops of the git helper take their fuel as an argument, because the code need not terminate; the theorems
    say how much is enough and for which inputs no amount is.  Trees nested in trees are
    followed 64 levels deep ([nesting]).  Serving a blob has one turn per byte and two more, the
    writer of a subscription one per waiting message and one more.  Slice indices are below 10^8, as the code demands.

    ** Interfaces and parameters

    Badger ([BadgerTxn], [BadgerLaws]), JSON ([JsonCodec]), protobuf ([ProtoCodec]), the
    elliptic curve ([Secp256k1]), keccak256, regular expressions, the script interpreters and
    [nelson.Resolve] ([Configs]), the hashes and the JSON of the blob store ([Hashes],
    [RefsJson]), the derivation of keys ([Derivation]), the encrypted form of a user
    ([UserCodec]), NaCl boxes ([Box]), the JSON of transactions ([TxJson]), of messages
    ([MsgJson]) and of events ([StreamJson]), JSON web tokens ([JwtLib]), the parser of URLs
    the gRPC metadata and tokens of the remote store ([RemoteLibs]), the git library ([Git]), the
    client that the git helper uses ([HelperClient]), the text of times and floats ([TimeText],
    [Floats]), and the network are parameters; that a key signs what its address answers for is
    [SigningLaws], that its public half verifies the signature is [SignVerifyLaws].  Each law is met by an
    instance of this development, which the witnesses use.

    ** Not modelled

    Goroutines and locks, except where a file says that it is a step relation (the mailbox with
    its reader, the peer pool, subscriptions, the search for providers, wait groups, the job
    queue and contexts): elsewhere an operation is atomic, and the broadcasts of one
    transaction follow each other.  Badger's asynchronous commit: [Save] is a commit that
    succeeds.  Two handles on one tree at a time, and a second iterator inside a writing
    transaction.  Values reached through reflection.  The start-up of the transports, listening
    and dialling.  The resolvers and the indexer that run JavaScript and Lua, whose
    interpreters are third-party code; [resolver.git.go] and the other files that are commented
    out; loggers, the command line programs, the terminal interface, the demos and the cloud
    provisioning, which are input and output over what is modelled; generated protobuf code. *)

From stdpp Require Export base gmap list strings sorting.
From Stdlib Require Export Strings.Byte ZArith Lia.

(** ** Bytes *)

(** Go [byte]s are the 256 constants of [byte]; [bytes.Compare] orders them by value. *)
Abbreviation bytes := (list byte).

#[export] Instance byte_eq_decision : EqDecision byte := Byte.byte_eq_dec.
#[global] Arguments byte_eq_decision : simpl never.

#[export] Program Instance byte_countable : Countable byte :=
  {| encode b := encode (Byte.to_N b);
     decode p := n ← decode p; Byte.of_N n |}.
Next Obligation. intros b. cbn -[Byte.of_N Byte.to_N encode decode]. rewrite decode_encode. apply Byte.of_to_N. Qed.

(** Evaluate a decidable proposition. *)
Ltac vm_decide :=
  lazymatch goal with |- ?P => refine (bool_decide_eq_true_1 P _); vm_compute; reflexivity end.

Declare Scope go_scope.
Delimit Scope go_scope with go.

(** The bytes of a Go string literal. *)
Definition str (s : string) : bytes := String.list_byte_of_string s.

(** A byte from its numeric value (the callers pass values below 256). *)
Definition byte_of_Z (z : Z) : byte := default x00 (Byte.of_N (Z.to_N (z `mod` 256))).
Definition byte_to_Z (b : byte) : Z := Z.of_N (Byte.to_N b).

(** ** Errors and outcomes *)

(** The error values the code compares with [errors.Cause]; every other error
    carries its message only. *)
Inductive error :=
  | Err403 | Err404 | ErrUnimplemented | ErrConnection
  | ErrWrongType | ErrNodeEncoding | ErrInvalidRange | ErrRangeOverNonSlice
  | ErrBadPatch
  | ErrNoParentYet | ErrPendingParent | ErrInvalidParent | ErrInvalidSignature
  | ErrInvalidTx | ErrTxMissingParents | ErrMissingCriticalRefs
  | ErrNoController | ErrInvalidPrivateRootKey
  | ErrKeyNotFound
  | ErrOther (msg : string).

#[export] Instance error_eq_decision : EqDecision error.
Proof. solve_decision. Defined.

(** What a Go call does: return a value, return an error, panic, or (for the
    loops that need not terminate) still be running when the fuel is used up. *)
Inductive outcome (A : Type) :=
  | Ret (a : A)
  | Err (e : error)
  | Panic
  | Running.
Arguments Ret {A} _.
Arguments Err {A} _.
Arguments Panic {A}.
Arguments Running {A}.

Definition obind {A B} (m : outcome A) (k : A → outcome B) : outcome B :=
  match m with
  | Ret a => k a
  | Err e => Err e
  | Panic => Panic
  | Running => Running
  end.

Notation "'let!' x := m 'in' k" := (obind m (λ x, k))
  (at level 200, x pattern, m at level 100, k at level 200, right associativity) : go_scope.
Notation "m ;;! k" := (obind m (λ _, k)) (at level 100, right associativity) : go_scope.
Open Scope go_scope.

Definition of_option {A} (e : error) (o : option A) : outcome A :=
  match o with Some a => Ret a | None => Err e end.

(** A loop over a list whose body may return early. *)
Fixpoint fold_outcome {A S} (f : S → A → outcome S) (s : S) (l : list A) : outcome S :=
  match l with
  | [] => Ret s
  | a :: l => let! s' := f s a in fold_outcome f s' l
  end.

Lemma fold_outcome_app {A S} (f : S → A → outcome S) s l1 l2 :
  fold_outcome f s (l1 ++ l2) = let! s' := fold_outcome f s l1 in fold_outcome f s' l2.
Proof. revert s. induction l1 as [|a l1 IH]; intros s; simpl; [done|]. destruct (f s a); simpl; auto. Qed.

Fixpoint map_outcome {A B} (f : A → outcome B) (l : list A) : outcome (list B) :=
  match l with
  | [] => Ret []
  | a :: l => let! b := f a in let! bs := map_outcome f l in Ret (b :: bs)
  end.

(** ** Machine integers *)

Definition two63 : Z := 9223372036854775808.
Definition two64 : Z := 18446744073709551616.

(** Conversion to [uint64] and [int64]: the low 64 bits, read unsigned and signed. *)
Definition u64 (z : Z) : Z := z `mod` two64.
Definition i64 (z : Z) : Z := (z + two63) `mod` two64 - two63.

Definition is_u64 (z : Z) : Prop := (0 ≤ z < two64)%Z.
Definition is_i64 (z : Z) : Prop := (- two63 ≤ z < two63)%Z.

Lemma u64_id z : is_u64 z → u64 z = z.
Proof. apply Z.mod_small. Qed.
Lemma i64_id z : is_i64 z → i64 z = z.
Proof. unfold is_i64, i64, two63, two64. intros. rewrite Z.mod_small; lia. Qed.
Lemma u64_range z : is_u64 (u64 z).
Proof. apply Z.mod_pos_bound. done. Qed.
Lemma i64_range z : is_i64 (i64 z).
Proof.
  unfold is_i64, i64. pose proof (Z.mod_pos_bound (z + two63) two64 ltac:(done)).
  unfold two63, two64 in *. lia.
Qed.
Lemma i64_u64 z : i64 (u64 z) = i64 z.
Proof. unfold i64, u64. by rewrite Zplus_mod_idemp_l. Qed.
Lemma u64_i64 z : u64 (i64 z) = u64 z.
Proof.
  unfold i64, u64.
  rewrite Zminus_mod_idemp_l. f_equal. lia.
Qed.

(** ** Go slices of bytes *)

(** [k[i:j]], which panics unless [0 <= i <= j <= len(k)]. *)
Definition slice {A} (k : list A) (i j : Z) : outcome (list A) :=
  if decide (0 ≤ i ∧ i ≤ j ∧ j ≤ Z.of_nat (length k))%Z
  then Ret (take (Z.to_nat (j - i)) (drop (Z.to_nat i) k))
  else Panic.

(** [k[i]], which panics out of range. *)
Definition index {A} (k : list A) (i : Z) : outcome A :=
  if decide (0 ≤ i)%Z
  then match k !! Z.to_nat i with Some x => Ret x | None => Panic end
  else Panic.

(** [bytes.IndexByte], as an [option] and as the Go [int] that is [-1] when absent. *)
Fixpoint index_byte (b : byte) (k : bytes) : option nat :=
  match k with
  | [] => None
  | c :: k => if decide (c = b) then Some 0 else S <$> index_byte b k
  end.
Definition IndexByte (k : bytes) (b : byte) : Z :=
  match index_byte b k with Some i => Z.of_nat i | None => -1 end%Z.

(** [bytes.LastIndexByte]. *)
Fixpoint last_index_byte (b : byte) (k : bytes) : option nat :=
  match k with
  | [] => None
  | c :: k =>
      match last_index_byte b k with
      | Some i => Some (S i)
      | None => if decide (c = b) then Some 0 else None
      end
  end.
Definition LastIndexByte (k : bytes) (b : byte) : Z :=
  match last_index_byte b k with Some i => Z.of_nat i | None => -1 end%Z.

(** [bytes.Count] of a one-byte separator. *)
Definition count_byte (b : byte) (k : bytes) : nat := length (filter (λ c, c = b) k).

(** [bytes.HasPrefix]. *)
Fixpoint has_prefix (k p : bytes) : bool :=
  match p, k with
  | [], _ => true
  | _ :: _, [] => false
  | b :: p, c :: k => bool_decide (c = b) && has_prefix k p
  end.

(** [bytes.Index]: the first position at which [part] occurs. *)
Fixpoint index_sub (k part : bytes) : option nat :=
  if has_prefix k part then Some 0
  else match k with [] => None | _ :: k => S <$> index_sub k part end.

(** [bytes.Compare]. *)
Fixpoint bytes_compare (a b : bytes) : comparison :=
  match a, b with
  | [], [] => Eq
  | [], _ :: _ => Lt
  | _ :: _, [] => Gt
  | x :: a, y :: b =>
      match (Byte.to_N x ?= Byte.to_N y)%N with Eq => bytes_compare a b | c => c end
  end.

Definition bytes_lt (a b : bytes) : Prop := bytes_compare a b = Lt.
Definition bytes_le (a b : bytes) : Prop := bytes_compare a b ≠ Gt.
#[export] Instance bytes_lt_dec : RelDecision bytes_lt.
Proof. intros a b. unfold bytes_lt. apply _. Defined.
#[export] Instance bytes_le_dec : RelDecision bytes_le.
Proof. intros a b. unfold bytes_le. apply _. Defined.

(** Go's [copy(dst, src)] into a buffer: the first [min] bytes are overwritten. *)
Definition go_copy {A} (dst src : list A) : list A :=
  take (length dst) src ++ drop (length src) dst.

(** ** [sort.Slice] *)

(** Go's insertion sort, the routine [sort.Slice] runs on short slices: it calls
    [less(j, j-1)] and [swap(j, j-1)] on positions of the slice it is given,
    here [s[start:]].  The caller's [less] reads the positions it is handed in the
    whole slice [s], so the two agree exactly when [start] is 0; then the result
    is the sorted permutation of [s], which every sorting algorithm produces. *)
Section SortSlice.
Context {A : Type} (less : A → A → bool).

Definition swap (s : list A) (i j : nat) : list A :=
  match s !! i, s !! j with
  | Some x, Some y => <[i := y]> (<[j := x]> s)
  | _, _ => s
  end.

Fixpoint sift (start : nat) (s : list A) (j : nat) : list A :=
  match j with
  | O => s
  | S j' =>
      match s !! j, s !! j' with
      | Some x, Some y =>
          if less x y then sift start (swap s (start + j) (start + j')) j' else s
      | _, _ => s
      end
  end.

Fixpoint insertion_sort (start : nat) (s : list A) (i todo : nat) : list A :=
  match todo with
  | O => s
  | S todo => insertion_sort start (sift start s i) (S i) todo
  end.

Definition sort_Slice (start : nat) (s : list A) : list A :=
  insertion_sort start s 1 (length s - start - 1).

Lemma swap_adjacent p x y q :
  swap (p ++ y :: x :: q) (S (length p)) (length p) = p ++ x :: y :: q.
Proof.
  unfold swap.
  rewrite lookup_app_r by lia. replace (S (length p) - length p) with 1 by lia. simpl.
  rewrite list_lookup_middle by done.
  rewrite (insert_app_r_alt _ _ (length p)) by lia. rewrite Nat.sub_diag. simpl.
  rewrite (insert_app_r_alt _ _ (S (length p))) by lia.
  by replace (S (length p) - length p) with 1 by lia.
Qed.

Lemma swap_perm s i : swap s (S i) i ≡ₚ s.
Proof.
  destruct (s !! S i) as [x|] eqn:Hx; [|by unfold swap; rewrite Hx].
  destruct (s !! i) as [y|] eqn:Hy; [|by unfold swap; rewrite Hx, Hy].
  assert (∃ p q, s = p ++ y :: x :: q ∧ length p = i) as (p & q & -> & <-).
  { exists (take i s), (drop (S (S i)) s). split.
    - rewrite <- (drop_S _ _ _ Hx), <- (drop_S _ _ _ Hy). by rewrite take_drop.
    - apply length_take_le. apply lookup_lt_Some in Hy. lia. }
  rewrite swap_adjacent. by rewrite (Permutation_swap x y).
Qed.

Lemma sift_perm start s j : sift start s j ≡ₚ s.
Proof.
  revert s. induction j as [|j IH]; intros s; [done|]. cbn [sift].
  destruct (s !! S j), (s !! j); try done. destruct (less _ _); [|done].
  rewrite IH, Nat.add_succ_r. apply swap_perm.
Qed.

Lemma insertion_sort_perm start s i n : insertion_sort start s i n ≡ₚ s.
Proof.
  revert s i. induction n as [|n IH]; intros s i; [done|]. simpl. by rewrite IH, sift_perm.
Qed.

Lemma sort_Slice_perm start s : sort_Slice start s ≡ₚ s.
Proof. apply insertion_sort_perm. Qed.

(** Sorting from position 0 with a strict total order. *)
Context (R : relation A) `{!Transitive R}.
Context (less_spec : ∀ x y, less x y = false → R y x)
        (less_le : ∀ x y, less x y = true → R x y).

Lemma sift_spec p x q :
  StronglySorted R p →
  ∃ p', sift 0 (p ++ x :: q) (length p) = p' ++ q ∧ StronglySorted R p' ∧ p' ≡ₚ x :: p.
Proof.
  revert q. induction p as [|y p IH] using rev_ind; intros q Hp.
  { exists [x]. simpl. repeat constructor. }
  rewrite length_app. simpl. rewrite Nat.add_1_r. cbn [sift].
  rewrite <- (assoc_L (++)). simpl.
  rewrite lookup_app_r by lia. replace (S (length p) - length p) with 1 by lia. simpl.
  rewrite list_lookup_middle by done.
  apply StronglySorted_app in Hp as (Hpy & Hp & _).
  destruct (less x y) eqn:Hxy.
  - rewrite swap_adjacent.
    destruct (IH (y :: q) Hp) as (p' & -> & Hs & Hperm).
    exists (p' ++ [y]). split_and!.
    + by rewrite <- (assoc_L (++)).
    + apply StronglySorted_app_2; [|done|repeat constructor].
      intros a b Ha Hb. apply list_elem_of_singleton in Hb as ->.
      rewrite Hperm in Ha. apply elem_of_cons in Ha as [->|Ha]; [by apply less_le|].
      apply Hpy; set_solver.
    + rewrite Hperm. simpl. by rewrite <- Permutation_cons_append.
  - exists (p ++ [y; x]). split_and!.
    + by rewrite <- (assoc_L (++)).
    + apply StronglySorted_app_2; [|done|repeat constructor; auto].
      intros a b Ha Hb. assert (R a y) by (apply Hpy; set_solver).
      apply elem_of_cons in Hb as [->|Hb]; [done|].
      apply list_elem_of_singleton in Hb as ->. etrans; eauto.
    + rewrite (Permutation_cons_append (p ++ [y])), <- (assoc_L (++)). done.
Qed.

Lemma insertion_sort_sorted p q :
  StronglySorted R p → StronglySorted R (insertion_sort 0 (p ++ q) (length p) (length q)).
Proof.
  revert p. induction q as [|x q IH]; intros p Hp; simpl; [by rewrite app_nil_r|].
  destruct (sift_spec p x q Hp) as (p' & -> & Hs & Hperm).
  replace (S (length p)) with (length p') by (by rewrite Hperm). by apply IH.
Qed.

Lemma sort_Slice_sorted s : StronglySorted R (sort_Slice 0 s).
Proof.
  unfold sort_Slice. rewrite Nat.sub_0_r. destruct s as [|x s]; simpl; [constructor|].
  rewrite Nat.sub_0_r. apply (insertion_sort_sorted [x] s). repeat constructor.
Qed.
End SortSlice.

(** ** The order of byte strings *)

Lemma bytes_compare_refl a : bytes_compare a a = Eq.
Proof. induction a; simpl; [done|]. by rewrite N.compare_refl. Qed.

Lemma byte_to_N_inj x y : Byte.to_N x = Byte.to_N y → x = y.
Proof. intros H. apply (f_equal Byte.of_N) in H. rewrite !Byte.of_to_N in H. by simplify_eq. Qed.

Lemma bytes_compare_eq a b : bytes_compare a b = Eq ↔ a = b.
Proof.
  split; [|intros ->; apply bytes_compare_refl].
  revert b. induction a as [|x a IH]; intros [|y b]; simpl; try done.
  destruct (_ ?= _)%N eqn:Hc; try done. apply N.compare_eq in Hc.
  apply byte_to_N_inj in Hc as ->. intros ?. f_equal. by apply IH.
Qed.

Lemma bytes_compare_antisym a b : bytes_compare b a = CompOpp (bytes_compare a b).
Proof.
  revert b. induction a as [|x a IH]; intros [|y b]; simpl; try done.
  rewrite N.compare_antisym. destruct (_ ?= _)%N; simpl; auto.
Qed.

#[export] Instance bytes_lt_trans : Transitive bytes_lt.
Proof.
  unfold bytes_lt. intros a. induction a as [|x a IH]; intros [|y b] [|z c]; simpl; try done.
  destruct (Byte.to_N x ?= Byte.to_N y)%N eqn:Hxy; [|intros _|done].
  - apply N.compare_eq in Hxy as ->. destruct (_ ?= _)%N; eauto.
  - destruct (Byte.to_N y ?= Byte.to_N z)%N eqn:Hyz; intros; try done.
    + apply N.compare_eq in Hyz as <-. by rewrite Hxy.
    + rewrite N.compare_lt_iff in *. by rewrite (proj2 (N.compare_lt_iff _ _)) by lia.
Qed.

Lemma bytes_le_lt_eq a b : bytes_le a b ↔ bytes_lt a b ∨ a = b.
Proof.
  unfold bytes_le, bytes_lt. rewrite <- bytes_compare_eq. destruct (bytes_compare a b); naive_solver.
Qed.

#[export] Instance bytes_le_trans : Transitive bytes_le.
Proof.
  intros a b c [?| ->]%bytes_le_lt_eq [?| ->]%bytes_le_lt_eq; apply bytes_le_lt_eq; auto.
  left. by etrans.
Qed.
#[export] Instance bytes_le_antisymm : AntiSymm (=) bytes_le.
Proof.
  intros a b. unfold bytes_le. rewrite (bytes_compare_antisym a b).
  destruct (bytes_compare a b) eqn:H; try done. by intros; apply bytes_compare_eq.
Qed.
#[export] Instance bytes_le_refl : Reflexive bytes_le.
Proof. intros a. unfold bytes_le. by rewrite bytes_compare_refl. Qed.
#[export] Instance bytes_le_total : Total bytes_le.
Proof.
  intros a b. unfold bytes_le. rewrite (bytes_compare_antisym a b).
  destruct (bytes_compare a b); naive_solver.
Qed.
Lemma bytes_lt_irrefl a : ¬ bytes_lt a a.
Proof. unfold bytes_lt. by rewrite bytes_compare_refl. Qed.
Lemma bytes_lt_le a b : bytes_lt a b → bytes_le a b.
Proof. rewrite bytes_le_lt_eq. auto. Qed.
Lemma bytes_not_lt_le a b : ¬ bytes_lt a b → bytes_le b a.
Proof. unfold bytes_lt, bytes_le. rewrite (bytes_compare_antisym a b). by destruct (bytes_compare a b). Qed.
Lemma bytes_nil_le a : bytes_le [] a.
Proof. by destruct a. Qed.

Lemma bytes_compare_app p a b : bytes_compare (p ++ a) (p ++ b) = bytes_compare a b.
Proof. induction p; simpl; [done|]. by rewrite N.compare_refl. Qed.

Lemma bytes_between_prefix p a b c :
  bytes_le (p ++ a) b → bytes_le b (p ++ c) → ∃ b', b = p ++ b'.
Proof.
  revert b. induction p as [|x p IH]; intros b; [by exists b|].
  unfold bytes_le. destruct b as [|y b]; [done|]. simpl. rewrite N.compare_antisym.
  destruct (Byte.to_N y ?= Byte.to_N x)%N eqn:E; simpl; try done.
  apply N.compare_eq, byte_to_N_inj in E. subst. intros H1 H2.
  destruct (IH b H1 H2) as [b' ->]. by exists b'.
Qed.

(** The sort the code runs on slices of byte strings,
    [sort.Slice(s[start:], ... bytes.Compare(s[i], s[j]) < 0)]. *)
Definition sort_bytes (start : nat) (s : list bytes) : list bytes :=
  sort_Slice (λ a b, bool_decide (bytes_lt a b)) start s.

Lemma sort_bytes_perm start s : sort_bytes start s ≡ₚ s.
Proof. apply sort_Slice_perm. Qed.

Lemma sort_bytes_sorted s : StronglySorted bytes_le (sort_bytes 0 s).
Proof.
  apply sort_Slice_sorted; [apply _|..]; intros x y; case_bool_decide; try done; intros _.
  - by apply bytes_not_lt_le.
  - by apply bytes_lt_le.
Qed.

Lemma sort_bytes_id s : StronglySorted bytes_le s → sort_bytes 0 s = s.
Proof.
  intros Hs. apply (StronglySorted_unique bytes_le);
    [apply sort_bytes_sorted|done|apply sort_bytes_perm].
Qed.

(** ** Runs of a sorted list *)

Lemma sorted_run {A} (R : relation A) (P : A → Prop) `{∀ x, Decision (P x)} (l : list A) :
  StronglySorted R l →
  (∀ a b c, b ∈ l → c ∈ l → R a b → R b c → P a → P c → P b) →
  ∃ l1 l2 l3, l = l1 ++ l2 ++ l3 ∧ Forall (λ x, ¬ P x) l1 ∧ Forall P l2 ∧ Forall (λ x, ¬ P x) l3.
Proof.
  intros Hs Hconv. induction Hs as [|x l Hs IH Hx]; [by exists [], [], []|].
  destruct IH as (l1 & l2 & l3 & -> & H1 & H2 & H3); [intros a b c ? ?; apply Hconv; set_solver|].
  destruct (decide (P x)) as [Hp|Hp].
  - destruct l2 as [|y l2].
    { exists [], [x], (l1 ++ l3). split_and!; [done..|repeat constructor; done|by apply Forall_app]. }
    destruct l1 as [|z l1]; [exists [], (x :: y :: l2), l3; split_and!; [done|done|by constructor|done]|].
    exfalso. apply Forall_cons in H1 as [Hz _]. apply Hz.
    apply (Hconv x z y); [set_solver|set_solver| | |done|by apply Forall_cons in H2 as [? _]].
    + rewrite Forall_forall in Hx. apply Hx. set_solver.
    + simpl in Hs. apply StronglySorted_inv in Hs as [_ Hs]. rewrite Forall_forall in Hs.
      apply Hs. set_solver.
  - exists (x :: l1), l2, l3. split_and!; [done|by constructor|done|done].
Qed.

Lemma filter_true {A} (P : A → Prop) `{∀ x, Decision (P x)} l : Forall P l → filter P l = l.
Proof. induction 1; [done|]. rewrite filter_cons_True by done. congruence. Qed.
Lemma filter_false {A} (P : A → Prop) `{∀ x, Decision (P x)} l : Forall (λ x, ¬ P x) l → filter P l = [].
Proof. induction 1; [done|]. by rewrite filter_cons_False. Qed.

Lemma Forall_filter {A} (P Q : A → Prop) `{∀ x, Decision (P x)} l : Forall Q l → Forall Q (filter P l).
Proof. rewrite !Forall_forall. intros HQ x [_ Hx]%list_elem_of_filter. auto. Qed.

Lemma StronglySorted_filter {A} (R : relation A) (P : A → Prop) `{∀ x, Decision (P x)} l :
  StronglySorted R l → StronglySorted R (filter P l).
Proof.
  induction 1 as [|x l Hs IH Hx]; [constructor|]. rewrite filter_cons. case_decide; [|done].
  constructor; [done|]. by apply Forall_filter.
Qed.

Lemma filter_ext_in {A} (P Q : A → Prop) `{∀ x, Decision (P x)} `{∀ x, Decision (Q x)} (l : list A) :
  (∀ x, x ∈ l → P x ↔ Q x) → filter P l = filter Q l.
Proof.
  induction l as [|x l IH]; intros HPQ; [done|]. rewrite !filter_cons.
  assert (P x ↔ Q x) by (apply HPQ; set_solver). rewrite IH by (intros; apply HPQ; set_solver).
  repeat case_decide; tauto.
Qed.

Lemma filter_run {A} (P : A → Prop) `{∀ x, Decision (P x)} l1 l2 l3 :
  Forall (λ x, ¬ P x) l1 → Forall P l2 → Forall (λ x, ¬ P x) l3 →
  filter P (l1 ++ l2 ++ l3) = l2 ∧ filter (λ x, ¬ P x) (l1 ++ l2 ++ l3) = l1 ++ l3.
Proof.
  intros H1 H2 H3. rewrite !filter_app. split.
  - by rewrite (filter_false P l1), (filter_false P l3), (filter_true P l2), app_nil_r.
  - rewrite (filter_true _ l1), (filter_true _ l3), (filter_false _ l2); [done| |done|done].
    eapply Forall_impl; [done|]. auto.
Qed.

Lemma sorted_lt_NoDup l : StronglySorted bytes_lt l → NoDup l.
Proof.
  induction 1 as [|x l Hs IH Hx]; constructor; [|done]. intros Hin.
  rewrite Forall_forall in Hx. by apply Hx, bytes_lt_irrefl in Hin.
Qed.

Lemma StronglySorted_le_lt l : NoDup l → StronglySorted bytes_le l → StronglySorted bytes_lt l.
Proof.
  intros Hnd Hs. induction Hs as [|x l Hs IH Hx]; [constructor|]. apply NoDup_cons in Hnd as [Hin Hnd].
  constructor; [by apply IH|]. rewrite Forall_forall in *. intros y Hy.
  pose proof (Hx y Hy) as [?|Heq]%bytes_le_lt_eq; [done|]. subst. by destruct Hin.
Qed.

(** ** Searching bytes *)

Create HintDb bytes_db.

Lemma index_byte_None b k : index_byte b k = None ↔ b ∉ k.
Proof.
  induction k as [|c k IH]; simpl; [set_solver|].
  case_decide as Hc; [set_solver|]. rewrite fmap_None, IH. set_solver.
Qed.

Lemma index_byte_app b p q : b ∉ p → index_byte b (p ++ b :: q) = Some (length p).
Proof.
  induction p as [|c p IH]; simpl; intros Hp; [by rewrite decide_True|].
  rewrite decide_False by set_solver. rewrite IH by set_solver. done.
Qed.

Lemma index_byte_Some b k i :
  index_byte b k = Some i → ∃ p q, k = p ++ b :: q ∧ length p = i ∧ b ∉ p.
Proof.
  revert i. induction k as [|c k IH]; simpl; intros i; [done|].
  case_decide as Hc.
  - intros [= <-]. subst. exists [], k. set_solver.
  - intros (j & Hj & ->)%fmap_Some. destruct (IH j Hj) as (p & q & -> & <- & Hp).
    exists (c :: p), q. set_solver.
Qed.

Lemma last_index_byte_None b k : last_index_byte b k = None ↔ b ∉ k.
Proof.
  induction k as [|c k IH]; simpl; [set_solver|].
  destruct (last_index_byte b k) eqn:E; [split; [done|set_solver]|].
  case_decide; set_solver.
Qed.

Lemma last_index_byte_app b p q : b ∉ q → last_index_byte b (p ++ b :: q) = Some (length p).
Proof.
  intros Hq. induction p as [|c p IH]; simpl.
  - rewrite (proj2 (last_index_byte_None b q) Hq). by rewrite decide_True.
  - by rewrite IH.
Qed.

Lemma last_index_byte_Some b k i :
  last_index_byte b k = Some i → ∃ p q, k = p ++ b :: q ∧ length p = i ∧ b ∉ q.
Proof.
  revert i. induction k as [|c k IH]; simpl; intros i; [done|].
  destruct (last_index_byte b k) as [j|] eqn:E.
  - intros [= <-]. destruct (IH j eq_refl) as (p & q & -> & <- & Hq).
    exists (c :: p), q. set_solver.
  - case_decide as Hc; [|done]. intros [= <-]. subst.
    apply last_index_byte_None in E. exists [], k. set_solver.
Qed.

Lemma has_prefix_spec k p : has_prefix k p = true ↔ ∃ q, k = p ++ q.
Proof.
  revert k. induction p as [|b p IH]; intros k; simpl.
  { split; [by exists k|by destruct k]. }
  destruct k as [|c k]; simpl; [naive_solver|].
  rewrite andb_true_iff, bool_decide_eq_true, IH. naive_solver.
Qed.

Lemma has_prefix_app p q : has_prefix (p ++ q) p = true.
Proof. apply has_prefix_spec. by exists q. Qed.

Lemma slice_app {A} (p q r : list A) i j :
  i = Z.of_nat (length p) → j = Z.of_nat (length p + length q) →
  slice (p ++ q ++ r) i j = Ret q.
Proof.
  intros -> ->. unfold slice. rewrite decide_True by (rewrite !length_app; lia).
  rewrite Nat2Z.id, drop_app_length, Z2Nat.inj_sub, !Nat2Z.id by lia.
  by rewrite Nat.add_comm, Nat.add_sub, take_app_length.
Qed.

Lemma slice_tail {A} (p q : list A) i j :
  i = Z.of_nat (length p) → j = Z.of_nat (length p + length q) → slice (p ++ q) i j = Ret q.
Proof. intros. rewrite <- (app_nil_r q) at 1. by apply slice_app. Qed.

Lemma slice_head {A} (p q : list A) j :
  j = Z.of_nat (length p) → slice (p ++ q) 0 j = Ret p.
Proof. intros ->. by apply (slice_app []). Qed.

Lemma slice_all {A} (p : list A) j :
  j = Z.of_nat (length p) → slice p 0 j = Ret p.
Proof. intros. rewrite <- (app_nil_r p) at 1. by apply slice_head. Qed.

Lemma go_copy_full {A} (x : A) (k : list A) : go_copy (replicate (length k) x) k = k.
Proof.
  unfold go_copy. rewrite length_replicate, firstn_all.
  rewrite drop_ge by (by rewrite length_replicate). apply app_nil_r.
Qed.
