(* ===== verification/Types.v ===== *)
(** * Identifiers ([types/types.go])

    IDs, addresses and hashes are byte arrays of a fixed length, here byte lists that the
    constructors pad or cut to that length; a text form is their hexadecimal encoding.  A
    [RefID] names a blob by a SHA1 or SHA3 hash.  [UnmarshalText] writes into its receiver,
    which is an argument of the model. *)

From S2P Require Import Prelude.

Definition ID := bytes.
Definition Address := bytes.
Definition Hash := bytes.
Definition Signature := bytes.

Definition id_length : nat := 32.
Definition address_length : nat := 20.
Definition hash_length : nat := 32.

(** [var a [n]byte; copy(a[:], bs)] *)
Definition array_from (n : nat) (bs : bytes) : bytes := go_copy (replicate n x00) bs.

Definition IDFromBytes (bs : bytes) : ID := array_from id_length bs.
Definition IDFromString (s : string) : ID := array_from id_length (str s).
Definition AddressFromBytes (bs : bytes) : Address := array_from address_length bs.
Definition EmptyID : ID := array_from id_length [].
Definition EmptyHash : Hash := array_from hash_length [].

(** [crypto.Keccak256] is the Ethereum library's hash function, a parameter. *)
Definition HashBytes (keccak256 : bytes → bytes) (bs : bytes) : Hash := array_from hash_length (keccak256 bs).

Definition IsZero (a : Address) : bool := bool_decide (a = array_from address_length []).

(** ** Hexadecimal text ([encoding/hex]) *)

Definition hex_digit (z : Z) : byte := byte_of_Z (if decide (z < 10)%Z then 48 + z else 87 + z).

Definition unhex (b : byte) : option Z :=
  let z := byte_to_Z b in
  if decide (48 ≤ z ≤ 57)%Z then Some (z - 48)%Z
  else if decide (97 ≤ z ≤ 102)%Z then Some (z - 87)%Z
  else if decide (65 ≤ z ≤ 70)%Z then Some (z - 55)%Z
  else None.

Fixpoint EncodeToString (bs : bytes) : bytes :=
  match bs with
  | [] => []
  | b :: bs => hex_digit (byte_to_Z b `div` 16) :: hex_digit (byte_to_Z b `mod` 16) :: EncodeToString bs
  end.

Definition ErrHex : error := ErrOther "encoding/hex".

Fixpoint DecodeString (s : bytes) : outcome bytes :=
  match s with
  | [] => Ret []
  | [_] => Err ErrHex
  | c1 :: c2 :: s =>
      match unhex c1, unhex c2 with
      | Some h, Some l => let! bs := DecodeString s in Ret (byte_of_Z (16 * h + l) :: bs)
      | _, _ => Err ErrHex
      end
  end.

Definition ID_Hex (id : ID) : bytes := EncodeToString id.
Definition Address_Hex (a : Address) : bytes := EncodeToString a.
Definition Hash_Hex (h : Hash) : bytes := EncodeToString h.
Definition Pretty (x : bytes) : bytes := take 6 (EncodeToString x).

Definition IDFromHex (h : bytes) : outcome ID := let! bs := DecodeString h in Ret (array_from id_length bs).
Definition AddressFromHex (h : bytes) : outcome Address := let! bs := DecodeString h in Ret (array_from address_length bs).

(** [UnmarshalText] of an ID, an address or a hash overwrites the front of its receiver. *)
Definition array_UnmarshalText (receiver text : bytes) : outcome bytes :=
  let! bs := DecodeString text in Ret (go_copy receiver bs).
Definition HashFromHex (h : bytes) : outcome Hash := array_UnmarshalText EmptyHash h.

Definition SignatureFromHex (h : bytes) : outcome Signature := DecodeString h.

(** The quotes are cut off without looking at them. *)
Definition quote : bytes := [x22].
Definition Signature_MarshalJSON (sig : Signature) : bytes := quote ++ EncodeToString sig ++ quote.
Definition Signature_UnmarshalJSON (bs : bytes) : outcome Signature :=
  let! inner := slice bs 1 (Z.of_nat (length bs) - 1) in DecodeString inner.

Definition OverlappingAddresses (one two : list Address) : list Address :=
  a ← one; b ← two; if decide (a = b) then [a] else [].

(** ** Blob references *)

Inductive HashAlg := HashAlgUnknown | SHA1 | SHA3.
#[export] Instance HashAlg_eq_dec : EqDecision HashAlg.
Proof. solve_decision. Defined.

Definition HashAlg_String (a : HashAlg) : bytes :=
  match a with HashAlgUnknown => str "unknown" | SHA1 => str "sha1" | SHA3 => str "sha3" end.

Record RefID := mkRefID { ref_HashAlg : HashAlg; ref_Hash : Hash }.

Definition RefID_String (r : RefID) : outcome bytes :=
  let hashStr := Hash_Hex (ref_Hash r) in
  let! hashStr := if decide (ref_HashAlg r = SHA1) then slice hashStr 0 40 else Ret hashStr in
  Ret (HashAlg_String (ref_HashAlg r) ++ str ":" ++ hashStr).

Definition ErrBadRef : error := ErrOther "bad ref ID".

Definition RefID_UnmarshalText (receiver : RefID) (bs : bytes) : outcome RefID :=
  if has_prefix bs (str "sha1:") && bool_decide (45 ≤ length bs) then
    let! hash := HashFromHex (drop 5 bs) in
    Ret (mkRefID SHA1 (go_copy (ref_Hash receiver) (take 20 hash)))
  else if has_prefix bs (str "sha3:") && bool_decide (length bs = 69) then
    let! hash := HashFromHex (drop 5 bs) in
    Ret (mkRefID SHA3 (go_copy (ref_Hash receiver) hash))
  else Err ErrBadRef.

(** ** Lemmas *)

Lemma length_array_from n bs : length (array_from n bs) = n.
Proof. unfold array_from, go_copy. rewrite length_app, length_take, length_drop, !length_replicate. lia. Qed.

Lemma array_from_id n bs : length bs = n → array_from n bs = bs.
Proof. intros <-. apply go_copy_full. Qed.

Lemma go_copy_same {A} (dst src : list A) : length dst = length src → go_copy dst src = src.
Proof. intros Hl. unfold go_copy. rewrite Hl, firstn_all, drop_ge by lia. apply app_nil_r. Qed.

Lemma length_EncodeToString bs : length (EncodeToString bs) = 2 * length bs.
Proof. induction bs as [|b bs IH]; simpl; lia. Qed.

Lemma EncodeToString_app a b : EncodeToString (a ++ b) = EncodeToString a ++ EncodeToString b.
Proof. induction a as [|x a IH]; simpl; [done|]. by rewrite IH. Qed.

Lemma unhex_all b : (let z := byte_to_Z b in
  unhex (hex_digit (z `div` 16)) = Some (z `div` 16)%Z ∧ unhex (hex_digit (z `mod` 16)) = Some (z `mod` 16)%Z ∧
  byte_of_Z (16 * (z `div` 16) + z `mod` 16) = b).
Proof. destruct b; vm_compute; done. Qed.

Lemma decode_encode_hex bs : DecodeString (EncodeToString bs) = Ret bs.
Proof.
  induction bs as [|b bs IH]; cbn [EncodeToString DecodeString]; [done|].
  destruct (unhex_all b) as (-> & -> & Hb). rewrite IH. cbn [obind]. by rewrite Hb.
Qed.

Lemma array_from_hex n x : length x = n → (let! bs := DecodeString (EncodeToString x) in Ret (array_from n bs)) = Ret x.
Proof. intros Hl. rewrite decode_encode_hex. cbn [obind]. by rewrite array_from_id. Qed.

Lemma DecodeString_cases s : (∃ bs, DecodeString s = Ret bs ∧ length s = 2 * length bs) ∨ DecodeString s = Err ErrHex.
Proof.
  revert s. fix IH 1. intros [|c1 [|c2 s]]; [left; by exists []|by right|]. cbn [DecodeString].
  destruct (unhex c1), (unhex c2); try (by right). destruct (IH s) as [(bs & -> & Hl)| ->]; [|by right].
  left. eexists. split; [done|]. simpl. lia.
Qed.

(** ** Theorems *)

(** The text form of an identifier is read back: the hexadecimal form of an ID, an address
    or a hash of its proper length decodes to it, and so does a signature in JSON. *)
Theorem hex_roundtrip (id : ID) (a : Address) (h : Hash) (sig : Signature) :
  length id = id_length → length a = address_length → length h = hash_length →
  IDFromHex (ID_Hex id) = Ret id ∧ AddressFromHex (Address_Hex a) = Ret a ∧ HashFromHex (Hash_Hex h) = Ret h ∧
  Signature_UnmarshalJSON (Signature_MarshalJSON sig) = Ret sig.
Proof.
  intros Hid Ha Hh. split_and!.
  - by apply array_from_hex.
  - by apply array_from_hex.
  - unfold HashFromHex, array_UnmarshalText. rewrite decode_encode_hex. cbn [obind]. f_equal.
    apply go_copy_same. by rewrite Hh.
  - unfold Signature_UnmarshalJSON, Signature_MarshalJSON.
    rewrite (slice_app quote (EncodeToString sig) quote).
    + apply decode_encode_hex.
    + done.
    + rewrite !length_app. simpl. lia.
Qed.

Definition id_of (n : nat) : ID := array_from id_length [byte_of_Z (Z.of_nat n)].

Lemma hex_roundtrip_witness :
  IDFromHex (ID_Hex (id_of 171)) = Ret (id_of 171) ∧ AddressFromHex (Address_Hex (take 20 (id_of 7))) = Ret (take 20 (id_of 7)).
Proof.
  destruct (hex_roundtrip (id_of 171) (take 20 (id_of 7)) (id_of 1) (str "sig")) as (H1 & H2 & _); [reflexivity..|].
  split; [exact H1|exact H2].
Defined.

(** What a blob reference denotes: a SHA1 reference its first 20 bytes. *)
Definition ref_canonical (r : RefID) : RefID :=
  match ref_HashAlg r with
  | SHA1 => mkRefID SHA1 (array_from hash_length (take 20 (ref_Hash r)))
  | _ => r
  end.

Definition EmptyRef : RefID := mkRefID HashAlgUnknown EmptyHash.

Lemma RefID_String_eq r :
  length (ref_Hash r) = hash_length →
  RefID_String r = Ret (HashAlg_String (ref_HashAlg r) ++ str ":" ++
    EncodeToString (match ref_HashAlg r with SHA1 => take 20 (ref_Hash r) | _ => ref_Hash r end)).
Proof.
  intros Hl. unfold RefID_String, Hash_Hex. destruct (ref_HashAlg r); simpl; try done.
  rewrite <- (take_drop 20 (ref_Hash r)) at 1. rewrite EncodeToString_app, slice_head; [done|].
  rewrite length_EncodeToString, length_take, Hl. done.
Qed.

(** The text form of a blob reference: a reference with a known algorithm is printed and
    read back as the reference it denotes, a reference without one is printed as a text
    that is refused, and no text makes the reader panic. *)
Theorem refid_text_roundtrip r t :
  length (ref_Hash r) = hash_length →
  (∃ s, RefID_String r = Ret s ∧
        RefID_UnmarshalText EmptyRef s =
          match ref_HashAlg r with HashAlgUnknown => Err ErrBadRef | _ => Ret (ref_canonical r) end) ∧
  ((∃ r', RefID_UnmarshalText EmptyRef t = Ret r') ∨ ∃ e, RefID_UnmarshalText EmptyRef t = Err e).
Proof.
  intros Hl. split.
  - rewrite RefID_String_eq by done. eexists. split; [done|].
    assert (∀ h, length h ≤ hash_length → HashFromHex (EncodeToString h) = Ret (array_from hash_length h)) as Hh.
    { intros h Hh. unfold HashFromHex, array_UnmarshalText. by rewrite decode_encode_hex. }
    unfold RefID_UnmarshalText, ref_canonical. destruct (ref_HashAlg r) eqn:Halg; simpl.
    + done.
    + assert (∀ k, has_prefix k [] = true) as -> by (by intros []).
      rewrite bool_decide_eq_true_2 by (rewrite length_EncodeToString, length_take, Hl; unfold hash_length; lia).
      cbn [andb]. rewrite ?drop_0, Hh by (rewrite length_take; unfold hash_length; lia). cbn [obind].
      do 2 f_equal.
      assert (length (take 20 (ref_Hash r)) = 20) as Ht by (by rewrite length_take, Hl).
      change (array_from hash_length (take 20 (array_from hash_length (take 20 (ref_Hash r)))) =
              array_from hash_length (take 20 (ref_Hash r))). f_equal.
      unfold array_from, go_copy. rewrite length_replicate, (take_ge _ hash_length) by (rewrite Ht; unfold hash_length; lia).
      rewrite <- Ht at 1. by rewrite take_app_length.
    + assert (∀ k, has_prefix k [] = true) as -> by (by intros []).
      rewrite bool_decide_eq_true_2 by (rewrite length_EncodeToString, Hl; done).
      cbn [andb]. rewrite ?drop_0, Hh by lia. cbn [obind]. rewrite array_from_id by done.
      rewrite go_copy_same by done. rewrite <- Halg. by destruct r.
  - unfold RefID_UnmarshalText, HashFromHex, array_UnmarshalText.
    destruct (DecodeString_cases (drop 5 t)) as [(bs & -> & _)| ->]; cbn [obind]; repeat case_match; eauto.
Qed.

Lemma refid_text_roundtrip_witness :
  ∃ s, RefID_String (mkRefID SHA3 (id_of 9)) = Ret s ∧ RefID_UnmarshalText EmptyRef s = Ret (mkRefID SHA3 (id_of 9)).
Proof.
  destruct (refid_text_roundtrip (mkRefID SHA3 (id_of 9)) [] eq_refl) as [(s & Hs & Hr) _].
  exists s. split; [exact Hs|exact Hr].
Defined.
