(* ===== verification/Keypath.v ===== *)
(** * Keypaths ([tree/keypath.go])

    A [Keypath] is a byte string whose parts are separated by slashes.  The
    operations below are those of the Go type, one definition per method.  Where
    the Go code tells a nil slice from an empty one (the rest returned by [Shift]
    and [Pop], the results of [LastNParts] and [Part]) the model returns an
    [option], with [None] for nil; everywhere else both are the empty list.  A
    method that can panic returns an [outcome].

    [split_sep] is the reference semantics: a keypath is the list of its parts.
    The theorems relate every byte-level operation to that list. *)

From S2P Require Import Prelude.

Abbreviation Keypath := bytes.

Definition pathSepChar : byte := "/"%byte.
#[global] Arguments pathSepChar : simpl never.
Abbreviation sep := pathSepChar.
Definition KeypathSeparator : Keypath := [sep].

Definition Equals (k other : Keypath) : bool := bool_decide (k = other).

Definition Copy (k : Keypath) : Keypath := go_copy (replicate (length k) x00) k.

Definition LengthAsParent (k : Keypath) : nat :=
  if decide (length k ≠ 0) then length k + 1 else length k.

Definition ContainsByte (k : Keypath) (b : byte) : bool := bool_decide (IndexByte k b > -1)%Z.

Definition ContainsSeparator (k : Keypath) : bool := ContainsByte k sep.

Definition ContainsPart (k part : Keypath) : outcome bool :=
  match index_sub k part with
  | None => Ret false
  | Some 0 =>
      if decide (length k = length part) then Ret true
      else let! c := index k (Z.of_nat (length part)) in Ret (bool_decide (c = sep))
  | Some idx =>
      if decide (Z.of_nat idx = Z.of_nat (length k) - Z.of_nat (length part))%Z then
        let! c := index k (Z.of_nat idx - 1) in Ret (bool_decide (c = sep))
      else
        let! c := index k (Z.of_nat idx - 1) in
        if bool_decide (c = sep)
        then let! d := index k (Z.of_nat idx + Z.of_nat (length part)) in
             Ret (bool_decide (d = sep))
        else Ret false
  end.

Definition RelativeTo (k root : Keypath) : outcome Keypath :=
  let! x := slice k (Z.of_nat (length root)) (Z.of_nat (length k)) in
  match x with
  | c :: x' => if decide (c = sep) then Ret x' else Ret x
  | [] => Ret x
  end.

(** The loop of [FirstNParts]: [todo] iterations remain, [i] were made. *)
Fixpoint FirstNParts_loop (todo i : nat) (current : Keypath) (endIdx : Z) : Z :=
  match todo with
  | O => endIdx
  | S todo =>
      let idx := IndexByte current sep in
      let current := drop (Z.to_nat (idx + 1)) current in
      let endIdx := (endIdx + idx)%Z in
      let endIdx := if decide (i ≠ 0) then (endIdx + 1)%Z else endIdx in
      FirstNParts_loop todo (S i) current endIdx
  end.

Definition FirstNParts (k : Keypath) (n : Z) : outcome Keypath :=
  if decide (n = 0)%Z then Ret []
  else slice k 0 (FirstNParts_loop (Z.to_nat n) 0 k 0).

(** Length without the trailing separators. *)
Fixpoint trim_len (k : Keypath) (klen : nat) : nat :=
  match klen with
  | O => O
  | S i => if decide (k !! i = Some sep) then trim_len k i else klen
  end.

(** The second loop of [LastNParts], from index [m - 1] down to 0.  [inl r] is an
    early return, [inr n] the counter when the loop ends. *)
Fixpoint LastNParts_loop (k : Keypath) (klen m : nat) (n : Z) : Keypath + Z :=
  match m with
  | O => inr n
  | S idx =>
      if decide (k !! idx = Some sep) then
        let n := (n - 1)%Z in
        if decide (n = 0)%Z then inl (take (klen - (idx + 1)) (drop (idx + 1) k))
        else LastNParts_loop k klen idx n
      else LastNParts_loop k klen idx n
  end.

Definition LastNParts (k : Keypath) (n : Z) : option Keypath :=
  if decide (n ≤ 0)%Z then None
  else
    let klen := trim_len k (length k) in
    match LastNParts_loop k klen klen n with
    | inl r => Some r
    | inr n => if decide (n = 1)%Z then Some (take klen k) else None
    end.

Definition StartsWith (k prefixParts : Keypath) : bool :=
  if decide (length prefixParts = 0) then true
  else if decide (length k = length prefixParts) then bool_decide (k = prefixParts)
  else if decide (length k < length prefixParts) then false
  else has_prefix k prefixParts && bool_decide (k !! length prefixParts = Some sep).

Definition Unshift (k part : Keypath) : Keypath :=
  if decide (length k = 0) then part else part ++ sep :: k.

(** [Shift() (top, rest)]; a nil rest is [None]. *)
Definition Shift (k : Keypath) : Keypath * option Keypath :=
  match index_byte sep k with
  | None => (k, None)
  | Some i => (take i k, Some (drop (i + 1) k))
  end.

Definition Push (k part : Keypath) : Keypath :=
  if decide (length k = 0) then part
  else if decide (length part = 0) then k
  else k ++ sep :: part.

(** [Pop() (rest, top)]; a nil rest is [None]. *)
Definition Pop (k : Keypath) : option Keypath * Keypath :=
  match last_index_byte sep k with
  | None => (None, k)
  | Some i => (Some (take i k), drop (i + 1) k)
  end.

(** A nil slice used where only its bytes matter. *)
Definition nilable (k : option Keypath) : Keypath := default [] k.

Definition NumParts (k : Keypath) : nat :=
  if decide (length k = 0) then 0 else count_byte sep k + 1.

(** [Part] for a negative index: [todo] iterations remain, counting the current one. *)
Fixpoint Part_back (k : Keypath) (todo : nat) (byteIdx prevByteIdx : Z) : outcome (option Keypath) :=
  match todo with
  | O => let! r := slice k (byteIdx + 1) prevByteIdx in Ret (Some r)
  | S todo =>
      let! before := slice k 0 byteIdx in
      let newByteIdx := LastIndexByte before sep in
      let prevByteIdx := byteIdx in
      let byteIdx := newByteIdx in
      if decide (newByteIdx = -1)%Z then
        if decide (todo = 0) then let! r := slice k (byteIdx + 1) prevByteIdx in Ret (Some r)
        else Ret None
      else Part_back k todo byteIdx prevByteIdx
  end.

(** [Part] for an index that is not negative. *)
Fixpoint Part_fwd (k : Keypath) (todo : nat) (byteIdx prevByteIdx : Z) : outcome (option Keypath) :=
  match todo with
  | O => let! r := slice k prevByteIdx byteIdx in Ret (Some r)
  | S todo =>
      let prevByteIdx := (byteIdx + 1)%Z in
      let! after := slice k (byteIdx + 1) (Z.of_nat (length k)) in
      let newByteIdx := IndexByte after sep in
      if decide (newByteIdx = -1)%Z then
        if decide (todo = 0)
        then let! r := slice k prevByteIdx (Z.of_nat (length k)) in Ret (Some r)
        else Ret None
      else Part_fwd k todo (newByteIdx + prevByteIdx) prevByteIdx
  end.

Definition Part (k : Keypath) (partIdx : Z) : outcome (option Keypath) :=
  if decide (partIdx < 0)%Z
  then Part_back k (Z.to_nat (- partIdx)) (Z.of_nat (length k)) (Z.of_nat (length k))
  else Part_fwd k (Z.to_nat (partIdx + 1)) (-1) 0.

(** The loop of [Parts], filling the slots of the array one after another. *)
Fixpoint Parts_loop (slots : nat) (k : Keypath) : list Keypath :=
  match slots with
  | O => []
  | S slots =>
      match index_byte sep k with
      | None => [k]
      | Some m => take m k :: Parts_loop slots (drop (m + 1) k)
      end
  end.

Definition Parts (k : Keypath) : list Keypath :=
  if decide (length k = 0) then []
  else
    let n := NumParts k in
    if decide (n = 1) then [k] else Parts_loop n k.

(** [CommonAncestor]: walk [short] while it agrees with [long]. *)
Fixpoint CommonAncestor_loop (short rest_short rest_long : Keypath) (i lastSeparatorIdx : nat) : Keypath :=
  match rest_short, rest_long with
  | s :: rest_short, l :: rest_long =>
      if decide (s ≠ l) then take lastSeparatorIdx short
      else if decide (s = sep) then CommonAncestor_loop short rest_short rest_long (S i) i
      else CommonAncestor_loop short rest_short rest_long (S i) lastSeparatorIdx
  | _, _ => short
  end.

Definition CommonAncestor (k other : Keypath) : Keypath :=
  let '(long, short) := if decide (length k < length other) then (other, k) else (k, other) in
  CommonAncestor_loop short short long 0 0.

Definition JoinKeypaths (s : list Keypath) (sp : bytes) : Keypath :=
  match s with
  | [] => []
  | k :: s => foldl (λ b v, b ++ sp ++ v) k s
  end.

(** ** Reference semantics *)

(** The parts of a byte string, cut at every separator. *)
Fixpoint split_sep (k : Keypath) : list Keypath :=
  match k with
  | [] => [[]]
  | c :: k =>
      if decide (c = sep) then [] :: split_sep k
      else match split_sep k with
           | [] => [[c]]
           | p :: ps => (c :: p) :: ps
           end
  end.

(** The inverse: parts separated by slashes. *)
Fixpoint join_sep (ps : list Keypath) : Keypath :=
  match ps with
  | [] => []
  | [p] => p
  | p :: ps => p ++ sep :: join_sep ps
  end.

(** A part holds no separator. *)
Definition no_sep (p : bytes) : Prop := sep ∉ p.
#[export] Instance no_sep_dec p : Decision (no_sep p).
Proof. unfold no_sep. apply _. Defined.

(** ** Lemmas about parts *)

Lemma no_sep_snoc p c : no_sep p → c ≠ sep → no_sep (p ++ [c]).
Proof. intros Hp Hc [H|H%list_elem_of_singleton]%elem_of_app; [by apply Hp|by apply Hc]. Qed.

Lemma split_sep_nonempty k : split_sep k ≠ [].
Proof. destruct k; simpl; [done|]. case_decide; [done|]. by destruct (split_sep k). Qed.

Lemma split_sep_no_sep p : no_sep p → split_sep p = [p].
Proof.
  unfold no_sep. induction p as [|c p IH]; [done|]. simpl. intros H.
  rewrite decide_False by set_solver. rewrite IH by set_solver. done.
Qed.

Lemma split_sep_app p q : split_sep (p ++ sep :: q) = split_sep p ++ split_sep q.
Proof.
  induction p as [|c p IH]; simpl; [done|].
  rewrite IH. case_decide; [done|].
  destruct (split_sep p) as [|x l] eqn:E; [by apply split_sep_nonempty in E|done].
Qed.

Lemma split_sep_Forall k : Forall no_sep (split_sep k).
Proof.
  unfold no_sep. induction k as [|c k IH]; simpl; [repeat constructor; set_solver|].
  case_decide; [constructor; [set_solver|done]|].
  destruct (split_sep k); inversion IH; subst; repeat constructor; set_solver.
Qed.

Lemma join_sep_cons p ps : ps ≠ [] → join_sep (p :: ps) = p ++ sep :: join_sep ps.
Proof. by destruct ps. Qed.

Lemma join_sep_app ps qs :
  ps ≠ [] → qs ≠ [] → join_sep (ps ++ qs) = join_sep ps ++ sep :: join_sep qs.
Proof.
  intros Hp Hq. induction ps as [|p ps IH]; [done|].
  destruct ps as [|p' ps]; [by apply join_sep_cons|].
  change ((p :: p' :: ps) ++ qs) with (p :: ((p' :: ps) ++ qs)).
  rewrite !join_sep_cons by done. rewrite IH by done. by rewrite <- (assoc_L (++)).
Qed.

Lemma join_split k : join_sep (split_sep k) = k.
Proof.
  induction k as [|c k IH]; simpl; [done|].
  pose proof (split_sep_nonempty k) as Hne. case_decide as Hc.
  - rewrite join_sep_cons by done. subst. by rewrite IH.
  - destruct (split_sep k) as [|p ps]; [done|].
    destruct ps; simpl in *; by rewrite IH.
Qed.

Lemma split_join ps : ps ≠ [] → Forall no_sep ps → split_sep (join_sep ps) = ps.
Proof.
  intros Hne Hf. induction Hf as [|p ps Hp Hf IH]; [done|].
  destruct ps as [|p' ps]; [by apply split_sep_no_sep|].
  rewrite join_sep_cons by done. rewrite split_sep_app, IH by done.
  by rewrite split_sep_no_sep.
Qed.

Lemma split_sep_inj k1 k2 : split_sep k1 = split_sep k2 → k1 = k2.
Proof. intros H. rewrite <- (join_split k1), <- (join_split k2). by rewrite H. Qed.

Lemma length_split_sep k : length (split_sep k) = count_byte sep k + 1.
Proof.
  unfold count_byte. induction k as [|c k IH]; simpl; [done|].
  pose proof (split_sep_nonempty k) as Hne. case_decide as Hc.
  - rewrite filter_cons_True by done. simpl. by rewrite IH.
  - rewrite filter_cons_False by done. destruct (split_sep k); [done|]. simpl in *. lia.
Qed.

Lemma Copy_id k : Copy k = k.
Proof. apply go_copy_full. Qed.

Lemma NumParts_length k : k ≠ [] → NumParts k = length (split_sep k).
Proof. intros H. unfold NumParts. rewrite decide_False by (by destruct k). by rewrite length_split_sep. Qed.

Lemma Parts_loop_spec n k : length (split_sep k) ≤ n → Parts_loop n k = split_sep k.
Proof.
  revert k. induction n as [|n IH]; intros k Hn.
  { pose proof (split_sep_nonempty k). destruct (split_sep k); [done|simpl in Hn; lia]. }
  simpl. destruct (index_byte sep k) as [m|] eqn:E.
  - destruct (index_byte_Some _ _ _ E) as (p & q & -> & <- & Hp).
    rewrite split_sep_app, (split_sep_no_sep p Hp) in *. simpl in *.
    rewrite take_app_length. f_equal.
    rewrite Nat.add_1_r. replace (S (length p)) with (length (p ++ [sep])) by (rewrite length_app; simpl; lia).
    change (sep :: q) with ([sep] ++ q). rewrite (assoc_L (++)), drop_app_length.
    apply IH. lia.
  - apply index_byte_None in E. by rewrite split_sep_no_sep.
Qed.

Lemma drop_app_S {A} (p : list A) x q : drop (length p + 1) (p ++ x :: q) = q.
Proof.
  replace (length p + 1) with (length (p ++ [x])) by (rewrite length_app; simpl; lia).
  change (x :: q) with ([x] ++ q). by rewrite (assoc_L (++)), drop_app_length.
Qed.

Lemma foldl_join p ps :
  foldl (λ b v, b ++ KeypathSeparator ++ v) p ps = join_sep (p :: ps).
Proof.
  revert p. induction ps as [|q ps IH]; intros p; simpl; [done|].
  rewrite IH. change (p ++ sep :: q) with (join_sep [p; q]).
  destruct ps as [|r ps]; [done|].
  rewrite !join_sep_cons by done. simpl. by rewrite <- (assoc_L (++)).
Qed.

Lemma JoinKeypaths_join ps : JoinKeypaths ps KeypathSeparator = join_sep ps.
Proof. destruct ps as [|p ps]; [done|]. apply foldl_join. Qed.

Lemma Parts_split k : k ≠ [] → Parts k = split_sep k.
Proof.
  intros Hk. unfold Parts. rewrite decide_False by (by destruct k).
  rewrite NumParts_length by done. case_decide as H1.
  - rewrite <- (join_split k) at 1. destruct (split_sep k) as [|p [|? ?]]; done.
  - by apply Parts_loop_spec.
Qed.

Lemma split_sep_Push k p :
  k ≠ [] → p ≠ [] → split_sep (Push k p) = split_sep k ++ split_sep p.
Proof.
  intros Hk Hp. unfold Push. rewrite !decide_False by (by destruct k, p). apply split_sep_app.
Qed.

Lemma Push_nil_l p : Push [] p = p.
Proof. done. Qed.
Lemma Push_nil_r k : Push k [] = k.
Proof. unfold Push. by case_decide; [destruct k|]. Qed.

Lemma Push_assoc a b c : b ≠ [] → Push (Push a b) c = Push a (Push b c).
Proof.
  intros Hb. destruct a as [|x a]; [done|]. destruct b as [|y b]; [done|].
  destruct c as [|z c]; [by rewrite !Push_nil_r|].
  unfold Push. simpl. rewrite <- (assoc_L (++)). done.
Qed.

Lemma Push_assoc_all a b c : Push (Push a b) c = Push a (Push b c).
Proof. destruct b as [|x b]; [by rewrite Push_nil_r, Push_nil_l|]. by apply Push_assoc. Qed.

(** ** Prefixes *)

Lemma StartsWith_bytes k p :
  StartsWith k p = true ↔ p = [] ∨ k = p ∨ ∃ q, k = p ++ sep :: q.
Proof.
  unfold StartsWith. case_decide as H0.
  { apply nil_length_inv in H0. naive_solver. }
  assert (p ≠ []) by (by intros ->).
  case_decide as H1.
  { rewrite bool_decide_eq_true. split; [naive_solver|].
    intros [?|[?|[q ->]]]; [done..|]. rewrite length_app in H1. simpl in H1. lia. }
  case_decide as H2.
  { split; [done|]. intros [?|[->|[q ->]]]; [done|lia|]. rewrite length_app in H2. lia. }
  rewrite andb_true_iff, has_prefix_spec, bool_decide_eq_true. split.
  - intros [[q ->] Hq]. rewrite lookup_app_r, Nat.sub_diag in Hq by lia.
    destruct q as [|c q]; simplify_eq/=. eauto.
  - intros [?|[->|[q ->]]]; [done..|]. split; [eauto|]. by rewrite list_lookup_middle.
Qed.

(** The bytewise test is the componentwise one. *)
Lemma StartsWith_parts k p :
  StartsWith k p = true ↔ p = [] ∨ ∃ rest, split_sep k = split_sep p ++ rest.
Proof.
  rewrite StartsWith_bytes. split.
  - intros [?|[->|[q ->]]]; [by left|right..].
    + exists []. by rewrite app_nil_r.
    + exists (split_sep q). apply split_sep_app.
  - intros [?|[rest Hr]]; [by left|]. right. destruct rest as [|r rest].
    + left. apply split_sep_inj. by rewrite Hr, app_nil_r.
    + right. exists (join_sep (r :: rest)).
      rewrite <- (join_split k), Hr, join_sep_app; [|apply split_sep_nonempty|done].
      by rewrite join_split.
Qed.

Lemma StartsWith_refl k : StartsWith k k = true.
Proof. apply StartsWith_bytes. auto. Qed.

Lemma StartsWith_nil k : StartsWith k [] = true.
Proof. apply StartsWith_bytes. auto. Qed.

Lemma StartsWith_trans a b c :
  StartsWith a b = true → StartsWith b c = true → StartsWith a c = true.
Proof.
  rewrite !StartsWith_parts. intros [->|[r1 H1]] [->|[r2 H2]]; auto.
  - change (split_sep []) with [[] : Keypath] in H2. left.
    destruct (split_sep c) as [|x [|? ?]] eqn:E; simplify_eq/=.
    + by apply split_sep_nonempty in E.
    + apply (split_sep_inj c []). done.
  - right. exists (r2 ++ r1). by rewrite H1, H2, (assoc_L (++)).
Qed.

Lemma StartsWith_Push k p : StartsWith (Push k p) k = true.
Proof.
  unfold Push. apply StartsWith_bytes. repeat case_decide; eauto.
  left. by destruct k.
Qed.

Lemma StartsWith_le k p : StartsWith k p = true → bytes_le p k.
Proof.
  rewrite StartsWith_bytes. intros [->|[->|[q ->]]]; [apply bytes_nil_le|done|].
  rewrite <- (app_nil_r p) at 1. unfold bytes_le. by rewrite bytes_compare_app.
Qed.

(** ** [RelativeTo] *)

Lemma RelativeTo_app p q : p ≠ [] → RelativeTo (p ++ sep :: q) p = Ret q.
Proof.
  intros Hp. unfold RelativeTo. rewrite slice_tail by (rewrite ?length_app; done).
  done.
Qed.

Lemma RelativeTo_self k : RelativeTo k k = Ret [].
Proof.
  unfold RelativeTo. rewrite <- (app_nil_r k) at 1. rewrite slice_tail; [done|done|simpl; lia].
Qed.

Lemma RelativeTo_nil k : RelativeTo k [] = Ret (match k with c :: k' => if decide (c = sep) then k' else k | [] => [] end).
Proof.
  unfold RelativeTo. rewrite (slice_all k) by done. simpl. destruct k; [done|]. by case_decide.
Qed.

(** [RelativeTo] undoes [Push]. *)
Lemma RelativeTo_Push k p : head p ≠ Some sep → RelativeTo (Push k p) k = Ret p.
Proof.
  intros Hp. destruct k as [|c k].
  - rewrite Push_nil_l, RelativeTo_nil. destruct p as [|d p]; [done|].
    rewrite decide_False; [done|]. intros ->. by apply Hp.
  - destruct p as [|d p]; [rewrite Push_nil_r; apply RelativeTo_self|].
    apply (RelativeTo_app (c :: k)). done.
Qed.

Lemma RelativeTo_StartsWith k p :
  StartsWith k p = true → p ≠ [] → k ≠ p →
  ∃ r, RelativeTo k p = Ret r ∧ split_sep k = split_sep p ++ split_sep r.
Proof.
  rewrite StartsWith_bytes. intros [?|[?|[q ->]]] Hp Hk; [done..|].
  exists q. rewrite RelativeTo_app by done. split; [done|apply split_sep_app].
Qed.

(** ** [Part] *)

Lemma Part_fwd_S k todo byteIdx prevByteIdx :
  Part_fwd k (S todo) byteIdx prevByteIdx =
    let! after := slice k (byteIdx + 1) (Z.of_nat (length k)) in
    if decide (IndexByte after sep = -1)%Z then
      if decide (todo = 0) then let! r := slice k (byteIdx + 1) (Z.of_nat (length k)) in Ret (Some r)
      else Ret None
    else Part_fwd k todo (IndexByte after sep + (byteIdx + 1)) (byteIdx + 1).
Proof. done. Qed.

Lemma Part_back_S k todo byteIdx prevByteIdx :
  Part_back k (S todo) byteIdx prevByteIdx =
    let! before := slice k 0 byteIdx in
    if decide (LastIndexByte before sep = -1)%Z then
      if decide (todo = 0) then
        let! r := slice k (LastIndexByte before sep + 1) byteIdx in Ret (Some r)
      else Ret None
    else Part_back k todo (LastIndexByte before sep) byteIdx.
Proof. done. Qed.

Lemma Part_fwd_spec k pre rest n prev :
  k = pre ++ rest →
  Part_fwd k (S n) (Z.of_nat (length pre) - 1) prev = Ret (split_sep rest !! n).
Proof.
  revert pre rest prev. induction n as [|n IH]; intros pre rest prev ->;
    rewrite Part_fwd_S, Z.sub_add, slice_tail by (rewrite ?length_app; lia); cbn [obind];
    unfold IndexByte; destruct (index_byte sep rest) as [i|] eqn:E.
  - rewrite decide_False by lia.
    destruct (index_byte_Some _ _ _ E) as (p & q & -> & <- & Hp).
    cbn [Part_fwd]. rewrite slice_app by lia. simpl. by rewrite split_sep_app, split_sep_no_sep.
  - rewrite (decide_True (P := (-1 = -1)%Z)), (decide_True (P := 0 = 0)) by done.
    apply index_byte_None in E. by rewrite split_sep_no_sep.
  - rewrite decide_False by lia.
    destruct (index_byte_Some _ _ _ E) as (p & q & -> & <- & Hp).
    rewrite split_sep_app, (split_sep_no_sep p Hp). 
    change ((([p] ++ split_sep q) : list Keypath) !! S n) with (split_sep q !! n).
    rewrite <- (IH (pre ++ p ++ [sep]) q (Z.of_nat (length pre)))
      by (by rewrite <- !(assoc_L (++))).
    f_equal. rewrite !length_app. simpl. lia.
  - rewrite decide_True, decide_False by done.
    apply index_byte_None in E. by rewrite split_sep_no_sep.
Qed.

Lemma Part_back_spec k rest post n prev :
  k = rest ++ post →
  Part_back k (S n) (Z.of_nat (length rest)) prev = Ret (reverse (split_sep rest) !! n).
Proof.
  revert rest post prev. induction n as [|n IH]; intros rest post prev ->;
    rewrite Part_back_S, slice_head by done; cbn [obind];
    unfold LastIndexByte; destruct (last_index_byte sep rest) as [i|] eqn:E.
  - rewrite decide_False by lia.
    destruct (last_index_byte_Some _ _ _ E) as (p & q & -> & <- & Hp).
    rewrite split_sep_app, (split_sep_no_sep q Hp), reverse_app. simpl.
    cbn [Part_back]. replace ((p ++ sep :: q) ++ post) with ((p ++ [sep]) ++ q ++ post) by (by rewrite <- !(assoc_L (++))).
    rewrite slice_app by (rewrite ?length_app; simpl; lia). done.
  - rewrite (decide_True (P := (-1 = -1)%Z)), (decide_True (P := 0 = 0)) by done. rewrite slice_head by done. simpl.
    apply last_index_byte_None in E. by rewrite split_sep_no_sep.
  - rewrite decide_False by lia.
    destruct (last_index_byte_Some _ _ _ E) as (p & q & -> & <- & Hp).
    rewrite split_sep_app, (split_sep_no_sep q Hp), reverse_app. simpl.
    rewrite <- (IH p (sep :: q ++ post) (Z.of_nat (length (p ++ sep :: q))))
      by (by rewrite <- !(assoc_L (++))).
    by rewrite <- (assoc_L (++)).
  - rewrite decide_True, decide_False by done.
    apply last_index_byte_None in E. by rewrite split_sep_no_sep.
Qed.

(** ** [FirstNParts] *)

Lemma FirstNParts_loop_spec m k i ps e :
  split_sep k = ps → m < length ps →
  FirstNParts_loop m i k e =
    (if decide (m = 0%nat) then e
     else e + Z.of_nat (length (join_sep (take m ps))) + (if decide (i = 0%nat) then 0 else 1))%Z.
Proof.
  revert k i ps e. induction m as [|m IH]; intros k i ps e <- Hm; [done|].
  cbn [FirstNParts_loop]. unfold IndexByte. destruct (index_byte sep k) as [j|] eqn:E.
  2: { apply index_byte_None in E. rewrite split_sep_no_sep in Hm by done. simpl in Hm. lia. }
  destruct (index_byte_Some _ _ _ E) as (p & q & -> & <- & Hp).
  rewrite split_sep_app, (split_sep_no_sep p Hp) in *. simpl in Hm.
  rewrite Z2Nat.inj_add, Nat2Z.id by lia. change (Z.to_nat 1) with 1. rewrite drop_app_S.
  rewrite (IH _ _ _ _ eq_refl) by lia.
  rewrite (decide_False (P := S m = 0)) by done. rewrite (decide_False (P := S i = 0)) by done.
  cbn [app take]. destruct (decide (m = 0)) as [->|Hm0].
  - cbn [take join_sep]. repeat case_decide; simpl; lia.
  - rewrite join_sep_cons.
    2: { pose proof (split_sep_nonempty q). destruct (split_sep q), m; done. }
    rewrite length_app. cbn [length].
    repeat case_decide; simpl; lia.
Qed.

(** ** Trailing separators and [LastNParts] *)

Lemma trim_len_app k t : last k ≠ Some sep → trim_len (k ++ t) (length k) = length k.
Proof.
  intros Hk. destruct k as [|c k] using rev_ind; [done|].
  rewrite last_snoc in Hk. rewrite last_length. cbn [trim_len].
  rewrite <- (assoc_L (++)). cbn [app]. rewrite list_lookup_middle by done.
  rewrite decide_False; [done|congruence].
Qed.

Lemma trim_len_spec k j :
  last k ≠ Some sep → trim_len (k ++ replicate j sep) (length (k ++ replicate j sep)) = length k.
Proof.
  intros Hk. rewrite length_app, length_replicate.
  assert (∀ m, m ≤ j → trim_len (k ++ replicate j sep) (length k + m) = length k) as H; [|by apply H].
  induction m as [|m IH]; intros Hm; [rewrite Nat.add_0_r; by apply trim_len_app|].
  rewrite Nat.add_succ_r. cbn [trim_len].
  rewrite lookup_app_r, Nat.add_comm, Nat.add_sub by lia.
  rewrite lookup_replicate_2 by lia. rewrite decide_True by done.
  rewrite Nat.add_comm. apply IH. lia.
Qed.

Lemma LastNParts_loop_app k t m n :
  m ≤ length k → LastNParts_loop (k ++ t) (length k) m n = LastNParts_loop k (length k) m n.
Proof.
  revert n. induction m as [|m IH]; intros n Hm; [done|]. cbn [LastNParts_loop].
  rewrite lookup_app_l by lia. rewrite !IH by lia.
  repeat case_decide; try done. f_equal.
  rewrite drop_app_le by lia. rewrite take_app_le by (rewrite length_drop; lia). done.
Qed.

Lemma split_sep_snoc a c :
  c ≠ sep → ∃ l p, split_sep a = l ++ [p] ∧ split_sep (a ++ [c]) = l ++ [p ++ [c]].
Proof.
  intros Hc. destruct (last_index_byte sep a) as [i|] eqn:E.
  - destruct (last_index_byte_Some _ _ _ E) as (a1 & a2 & -> & <- & Ha).
    exists (split_sep a1), a2. rewrite <- (assoc_L (++)). cbn [app].
    rewrite !split_sep_app. rewrite (split_sep_no_sep a2 Ha), (split_sep_no_sep (a2 ++ [c])) by (by apply no_sep_snoc). done.
  - apply last_index_byte_None in E. exists [], a.
    rewrite (split_sep_no_sep a E), (split_sep_no_sep (a ++ [c])) by (by apply no_sep_snoc). done.
Qed.

(** The loop on a prefix [a] of [k]: it stops at the [n]-th separator from the right. *)
Lemma LastNParts_loop_spec k a b n :
  k = a ++ b → (0 < n)%Z →
  LastNParts_loop k (length k) (length a) n =
    if decide (Z.to_nat n < length (split_sep a))
    then inl (join_sep (reverse (take (Z.to_nat n) (reverse (split_sep a)))) ++ b)
    else inr (n - Z.of_nat (length (split_sep a)) + 1)%Z.
Proof.
  revert b n. induction a as [|c a IH] using rev_ind; intros b n Hk Hn.
  { simpl. rewrite decide_False by lia. f_equal. lia. }
  rewrite last_length. cbn [LastNParts_loop].
  rewrite <- (assoc_L (++)) in Hk. cbn [app] in Hk.
  assert (k !! length a = Some c) as -> by (rewrite Hk; by apply list_lookup_middle).
  destruct (decide (Some c = Some sep)) as [Hc|Hc].
  - injection Hc as ->. rewrite split_sep_app, reverse_app, length_app.
    change (split_sep []) with [[] : Keypath]. change (reverse [[] : Keypath]) with [[] : Keypath].
    destruct (decide (n - 1 = 0)%Z) as [Hn1|Hn1].
    + assert (n = 1%Z) as -> by lia. change (Z.to_nat 1) with 1.
      rewrite decide_True.
      2: { pose proof (split_sep_nonempty a). destruct (split_sep a); simpl; [done|lia]. }
      rewrite Hk, length_app, drop_app_S. cbn [length].
      replace (length a + S (length b) - (length a + 1)) with (length b) by lia.
      by rewrite firstn_all.
    + rewrite (IH (sep :: b)) by (done || lia). cbn [length].
      replace (Z.to_nat n) with (S (Z.to_nat (n - 1))) by lia.
      case_decide; [rewrite decide_True by lia|rewrite decide_False by lia; f_equal; lia].
      f_equal. cbn [take app]. rewrite reverse_cons.
      set (l := reverse (take _ _)). assert (l ≠ []) as Hl.
      { unfold l. intros E%(f_equal length). rewrite length_reverse, length_take, length_reverse in E.
        simpl in E. pose proof (split_sep_nonempty a). destruct (split_sep a); simpl in *; [done|lia]. }
      rewrite (join_sep_app l [[]]) by done. simpl. by rewrite <- (assoc_L (++)).
  - rewrite (IH (c :: b)) by done. assert (c ≠ sep) by congruence.
    destruct (split_sep_snoc a c) as (l & p & -> & ->); [done|].
    rewrite !reverse_app, !length_app. simpl.
    case_decide; [|done]. f_equal.
    destruct (Z.to_nat n) as [|m] eqn:Em; [lia|]. simpl. rewrite !reverse_cons.
    destruct (reverse (take m (reverse l))) as [|y q']; [simpl; by rewrite <- (assoc_L (++))|].
    rewrite !join_sep_app by done.
    change (join_sep [p]) with p. change (join_sep [p ++ [c]]) with (p ++ [c]).
    rewrite <- !(assoc_L (++)). cbn [app]. by rewrite <- (assoc_L (++)).
Qed.

Lemma FirstNParts_loop_all k m i e :
  m = length (split_sep k) →
  FirstNParts_loop m i k e =
    (e + Z.of_nat (length (join_sep (take (m - 1) (split_sep k))))
       + (if decide (m = 1%nat) then -1 else 0)
       + (if decide (i = 0%nat) then 0 else 1))%Z.
Proof.
  revert k i e. induction m as [|m IH]; intros k i e Hm.
  { pose proof (split_sep_nonempty k). by destruct (split_sep k). }
  cbn [FirstNParts_loop]. unfold IndexByte. destruct (index_byte sep k) as [j|] eqn:E.
  - destruct (index_byte_Some _ _ _ E) as (p & q & -> & <- & Hp).
    rewrite split_sep_app, (split_sep_no_sep p Hp) in *. simpl in Hm. injection Hm as Hm.
    rewrite Z2Nat.inj_add, Nat2Z.id by lia. change (Z.to_nat 1) with 1. rewrite drop_app_S.
    rewrite IH by done. rewrite (decide_False (P := S i = 0%nat)) by done.
    pose proof (split_sep_nonempty q) as Hq.
    destruct m as [|[|m]]; [by destruct (split_sep q)|..].
    + cbn. repeat case_decide; try done; simpl; lia.
    + replace (S (S (S m)) - 1) with (S (S m)) by lia. replace (S (S m) - 1) with (S m) by lia.
      cbn [app take]. rewrite (join_sep_cons p) by (destruct (split_sep q); done).
      rewrite length_app. cbn [length]. repeat case_decide; try done; lia.
  - apply index_byte_None in E. rewrite split_sep_no_sep in * by done.
    destruct m; [|done]. cbn. repeat case_decide; try done; lia.
Qed.

(** ** Main theorems *)

(** [Parts] and [JoinKeypaths] are inverse to each other: joining the parts of any
    keypath gives the keypath back, and cutting a joined list of separator-free parts
    (other than the empty keypath) gives the list back. *)
Theorem keypath_parts_roundtrip :
  (∀ k, JoinKeypaths (Parts k) KeypathSeparator = k) ∧
  (∀ ps, Forall no_sep ps → ps ≠ [] → ps ≠ [[]] →
     Parts (JoinKeypaths ps KeypathSeparator) = ps) ∧
  (∀ k, NumParts k = length (Parts k)).
Proof.
  split_and!.
  - intros k. rewrite JoinKeypaths_join. destruct k as [|c k]; [done|].
    rewrite Parts_split by done. apply join_split.
  - intros ps Hps Hne Hne'. rewrite JoinKeypaths_join, Parts_split; [by apply split_join|].
    intros E. apply Hne'. by rewrite <- (split_join ps), E.
  - intros k. destruct k as [|c k]; [done|].
    by rewrite Parts_split, NumParts_length.
Qed.

(** the bytewise test of [StartsWith] decides whether the prefix is empty or its
    parts are the first parts of the keypath; in particular a byte prefix that ends
    inside a part is not accepted. *)
Theorem keypath_StartsWith_componentwise k p :
  StartsWith k p = true ↔ p = [] ∨ ∃ rest, split_sep k = split_sep p ++ rest.
Proof. apply StartsWith_parts. Qed.

(** [Push] appends components and [RelativeTo], [Pop] and [Shift] take them off again:
    for a nonempty keypath and a part without separators each of them undoes the [Push]
    (or [Unshift]). *)
Theorem keypath_push_pop_roundtrip k p :
  k ≠ [] → p ≠ [] → no_sep p →
  Pop (Push k p) = (Some k, p) ∧ Shift (Unshift k p) = (p, Some k) ∧
  RelativeTo (Push k p) k = Ret p ∧ NumParts (Push k p) = NumParts k + 1.
Proof.
  intros Hk Hp Hs. split_and!.
  - unfold Push, Pop. rewrite !decide_False by (by destruct k, p).
    by rewrite last_index_byte_app, take_app_length, drop_app_S.
  - unfold Unshift, Shift. rewrite decide_False by (by destruct k).
    by rewrite index_byte_app, take_app_length, drop_app_S.
  - apply RelativeTo_Push. destruct p as [|c p]; [done|]. intros [= ->].
    apply Hs. by constructor.
  - assert (Push k p ≠ []).
    { intros E%(f_equal split_sep). rewrite split_sep_Push in E by done.
      apply (f_equal length) in E. rewrite length_app, (split_sep_no_sep p) in E by done.
      simpl in E. pose proof (split_sep_nonempty k). destruct (split_sep k); simpl in *; [done|lia]. }
    rewrite !NumParts_length by done. rewrite split_sep_Push by done.
    by rewrite length_app, (split_sep_no_sep p).
Qed.

Lemma keypath_push_pop_roundtrip_witness :
  let k := str "foo/bar" in let p := str "baz" in
  k ≠ [] ∧ p ≠ [] ∧ no_sep p ∧ Pop (Push k p) = (Some k, p).
Proof.
  assert (str "foo/bar" ≠ []) by done. assert (str "baz" ≠ []) by done.
  assert (no_sep (str "baz")) by (apply (bool_decide_unpack _); vm_compute; exact I).
  split_and!; [done..|].
  apply (keypath_push_pop_roundtrip (str "foo/bar") (str "baz")); done.
Defined.

(** [Part] never panics and returns the part at the index, counted from the left for
    an index that is not negative and from the right for a negative one, and nil out of
    range. *)
Theorem keypath_Part_nth k i :
  Part k i = Ret (if decide (i < 0)%Z then reverse (split_sep k) !! Z.to_nat (- i - 1)
                  else split_sep k !! Z.to_nat i).
Proof.
  unfold Part. case_decide.
  - replace (Z.to_nat (- i)) with (S (Z.to_nat (- i - 1))) by lia.
    apply (Part_back_spec k k []). by rewrite app_nil_r.
  - replace (Z.to_nat (i + 1)) with (S (Z.to_nat i)) by lia.
    by apply (Part_fwd_spec k [] k).
Qed.

Lemma slice_first_parts k m :
  m < length (split_sep k) →
  slice k 0 (Z.of_nat (length (join_sep (take m (split_sep k))))) = Ret (join_sep (take m (split_sep k))).
Proof.
  intros Hm. destruct (take m (split_sep k)) as [|q qs] eqn:E; [by rewrite (slice_head [] k)|].
  rewrite <- (join_split k) at 1. rewrite <- (take_drop m (split_sep k)), E.
  rewrite join_sep_app; [by rewrite slice_head|done|].
  intros D%(f_equal length). rewrite length_drop in D. simpl in D. lia.
Qed.

Lemma FirstNParts_lt k n :
  (0 ≤ n < Z.of_nat (length (split_sep k)))%Z →
  FirstNParts k n = Ret (join_sep (take (Z.to_nat n) (split_sep k))).
Proof.
  intros Hn. unfold FirstNParts. destruct (decide (n = 0)%Z) as [->|Hn0]; [done|].
  rewrite (FirstNParts_loop_spec _ _ _ _ _ eq_refl) by lia.
  rewrite decide_False by lia. rewrite decide_True by done. rewrite Z.add_0_l, Z.add_0_r.
  apply slice_first_parts. lia.
Qed.

(** [FirstNParts] returns the first [n] parts as long as [n] is smaller than the
    number of parts, the range [setNoRange] uses.  Asked for all the parts it drops the
    last one, and for a keypath of one part it panics. *)
Theorem keypath_FirstNParts k n :
  (0 ≤ n ≤ Z.of_nat (length (split_sep k)))%Z →
  FirstNParts k n =
    if decide (n < Z.of_nat (length (split_sep k)))%Z
    then Ret (join_sep (take (Z.to_nat n) (split_sep k)))
    else if decide (n = 1)%Z then Panic
    else Ret (join_sep (take (Z.to_nat n - 1) (split_sep k))).
Proof.
  intros Hn. destruct (decide (n < _)%Z) as [Hlt|Hlt]; [apply FirstNParts_lt; lia|].
  assert (length (split_sep k) ≠ 0) by (rewrite length_split_sep; lia).
  unfold FirstNParts. rewrite decide_False by lia.
  rewrite FirstNParts_loop_all by lia. rewrite (decide_True (P := 0 = 0)) by done.
  rewrite Z.add_0_l, Z.add_0_r. destruct (decide (n = 1)%Z) as [->|].
  + done.
  + rewrite decide_False by lia. rewrite Z.add_0_r. apply slice_first_parts. lia.
Qed.

Lemma keypath_FirstNParts_witness :
  (0 ≤ 2 ≤ Z.of_nat (length (split_sep (str "1/22/333"))))%Z ∧
  FirstNParts (str "1/22/333") 2 = Ret (str "1/22") ∧
  FirstNParts (str "1/22/333") 3 = Ret (str "1/22").
Proof.
  assert (∀ n, (0 ≤ n ≤ 3)%Z → (0 ≤ n ≤ Z.of_nat (length (split_sep (str "1/22/333"))))%Z) as H
    by (intros n ?; exact H).
  split; [apply H; lia|].
  split; rewrite (keypath_FirstNParts (str "1/22/333")) by (apply H; lia); vm_compute; reflexivity.
Defined.

(** [LastNParts] ignores trailing separators and returns the last [n] parts, and nil
    when there are fewer than [n]; it never panics. *)
Theorem keypath_LastNParts k j n :
  last k ≠ Some sep → (0 < n)%Z →
  LastNParts (k ++ replicate j sep) n =
    if decide (n ≤ Z.of_nat (length (split_sep k)))%Z
    then Some (join_sep (reverse (take (Z.to_nat n) (reverse (split_sep k)))))
    else None.
Proof.
  intros Hk Hn. unfold LastNParts. rewrite decide_False by lia.
  rewrite trim_len_spec, LastNParts_loop_app, take_app_length by done.
  rewrite (LastNParts_loop_spec k k []) by (by rewrite ?app_nil_r).
  case_decide as H1.
  { rewrite decide_True by lia. by rewrite app_nil_r. }
  case_decide as H2.
  - rewrite decide_True by lia. rewrite (take_ge (reverse _)) by (rewrite length_reverse; lia).
    by rewrite reverse_involutive, join_split.
  - rewrite decide_False by lia. done.
Qed.

Lemma keypath_LastNParts_witness :
  last (str "1/22/333") ≠ Some sep ∧
  LastNParts (str "1/22/333/") 2 = Some (str "22/333") ∧
  LastNParts (str "1/22/333/") 4 = None.
Proof.
  assert (last (str "1/22/333") ≠ Some sep) as H by (apply (bool_decide_unpack _); vm_compute; exact I).
  change (str "1/22/333/") with (str "1/22/333" ++ replicate 1 sep).
  split; [done|]. split; rewrite keypath_LastNParts by (done || lia); vm_compute; reflexivity.
Defined.

(** ** Concrete runs *)

(** [ContainsPart] looks at the first occurrence only, and [CommonAncestor] accepts a
    shorter keypath that ends inside a part of the longer one. *)
Example ContainsPart_second : ContainsPart (str "ab/a") (str "a") = Ret false.
Proof. vm_compute. reflexivity. Qed.
Example CommonAncestor_inside : CommonAncestor (str "a/b") (str "a/bc") = str "a/b".
Proof. vm_compute. reflexivity. Qed.
Example CommonAncestor_ok : CommonAncestor (str "foo/bar") (str "foo/baz/x") = str "foo".
Proof. vm_compute. reflexivity. Qed.
