(* ===== verification/TreeTypes.v ===== *)
(** * Node kinds, ranges and diffs ([tree/types.go])

    [Range] keeps the machine widths of the Go struct: its bounds are [int64], the
    lengths it is compared with are [uint64], and the conversions wrap.  [Diff] is
    the record of added and removed keypaths; a nil diff is [None]. *)

From S2P Require Import Prelude Keypath.

Inductive NodeType :=
  | NodeTypeInvalid | NodeTypeValue | NodeTypeMap | NodeTypeSlice | NodeTypeNode.
#[export] Instance NodeType_eq_dec : EqDecision NodeType.
Proof. solve_decision. Defined.

Inductive ValueType :=
  | ValueTypeInvalid | ValueTypeString | ValueTypeBytes | ValueTypeUint | ValueTypeInt
  | ValueTypeFloat | ValueTypeBool | ValueTypeNil.
#[export] Instance ValueType_eq_dec : EqDecision ValueType.
Proof. solve_decision. Defined.

(** ** Ranges *)

Record Range := mkRange { Start : Z; End_ : Z }.
#[export] Instance Range_eq_dec : EqDecision Range.
Proof. solve_decision. Defined.

(** The bounds are [int64] values. *)
Definition range_wf (rng : Range) : Prop := is_i64 (Start rng) ∧ is_i64 (End_ rng).

Definition Range_Copy (rng : option Range) : option Range :=
  match rng with None => None | Some r => Some (mkRange (Start r) (End_ r)) end.

Definition Range_Valid (rng : Range) : bool :=
  if decide (End_ rng < Start rng)%Z then false
  else if decide (Start rng < 0 ∧ End_ rng > 0)%Z then false
  else true.

Definition Range_Size (rng : Range) : Z :=
  if decide (Start rng < 0)%Z then u64 (i64 (- i64 (Start rng - End_ rng)))
  else u64 (i64 (End_ rng - Start rng)).

Definition ValidForLength (rng : Range) (length : Z) : bool :=
  if decide (Start rng < 0)%Z then bool_decide (u64 (i64 (- Start rng)) ≤ length)%Z
  else bool_decide (u64 (End_ rng) ≤ length)%Z.

Definition IndicesForLength (rng : Range) (length : Z) : Z * Z :=
  if decide (Start rng < 0)%Z
  then (u64 (i64 (i64 length + Start rng)), u64 (i64 (i64 length + End_ rng)))
  else (u64 (Start rng), u64 (End_ rng)).

(** ** Diffs *)

Record Diff := mkDiff {
  Added : gset Keypath;
  AddedList : list Keypath;
  Removed : gset Keypath;
  RemovedList : list Keypath;
  enabled : bool
}.

Definition NewDiff : Diff := mkDiff ∅ [] ∅ [] true.

Definition SetEnabled (d : Diff) (e : bool) : Diff :=
  mkDiff (Added d) (AddedList d) (Removed d) (RemovedList d) e.

Definition Diff_Add (od : option Diff) (keypath : Keypath) : option Diff :=
  match od with
  | None => None
  | Some d =>
      if negb (enabled d) then Some d
      else if decide (keypath ∈ Added d) then Some d
      else Some (mkDiff ({[keypath]} ∪ Added d) (AddedList d ++ [keypath])
                        (Removed d) (RemovedList d) (enabled d))
  end.

Definition Diff_AddMany (od : option Diff) (keypaths : list Keypath) : option Diff :=
  match od with
  | None => None
  | Some d => if negb (enabled d) then Some d else foldl Diff_Add (Some d) keypaths
  end.

Definition Diff_Remove (od : option Diff) (keypath : Keypath) : option Diff :=
  match od with
  | None => None
  | Some d =>
      if negb (enabled d) then Some d
      else if decide (keypath ∈ Removed d) then Some d
      else Some (mkDiff (Added d) (AddedList d)
                        ({[keypath]} ∪ Removed d) (RemovedList d ++ [keypath]) (enabled d))
  end.

Definition Diff_RemoveMany (od : option Diff) (keypaths : list Keypath) : option Diff :=
  match od with
  | None => None
  | Some d => if negb (enabled d) then Some d else foldl Diff_Remove (Some d) keypaths
  end.

(** [Copy] builds a struct literal that leaves the field [enabled] at its zero value. *)
Definition Diff_Copy (od : option Diff) : Diff :=
  match od with
  | None => NewDiff
  | Some d => mkDiff (Added d) (Copy <$> AddedList d) (Removed d) (Copy <$> RemovedList d) false
  end.

(** ** Ranges: theorems *)

Lemma Range_Valid_spec rng :
  Range_Valid rng = true ↔ (Start rng ≤ End_ rng)%Z ∧ (Start rng < 0 → End_ rng ≤ 0)%Z.
Proof. unfold Range_Valid. repeat case_decide; split; intros; (done || lia). Qed.

Lemma range_bounds rng len :
  range_wf rng → Range_Valid rng = true → (0 ≤ len < two63)%Z → ValidForLength rng len = true →
  let '(s, e) := IndicesForLength rng len in
  (0 ≤ s ≤ e)%Z ∧ (e ≤ len)%Z ∧ Range_Size rng = (e - s)%Z ∧ (Range_Size rng ≤ len)%Z.
Proof.
  unfold range_wf, is_i64. intros [HS HE] HV%Range_Valid_spec Hlen.
  unfold ValidForLength, IndicesForLength, Range_Size. case_decide as Hneg; rewrite bool_decide_eq_true.
  - destruct (decide (Start rng = - two63)%Z) as [Hmin|Hmin].
    { rewrite Hmin. change (u64 (i64 (- - two63))) with two63. lia. }
    rewrite (i64_id (- Start rng)), u64_id by (unfold is_i64, is_u64, two63, two64 in *; lia).
    intros Hle. rewrite (i64_id len) by (unfold is_i64, two63 in *; lia).
    rewrite !(i64_id (len + _)), !(u64_id (len + _)) by (unfold is_i64, is_u64, two63, two64 in *; lia).
    rewrite (i64_id (Start rng - End_ rng)) by (unfold is_i64, two63 in *; lia).
    rewrite i64_id, u64_id by (unfold is_i64, is_u64, two63, two64 in *; lia). lia.
  - rewrite (u64_id (End_ rng)), (u64_id (Start rng)) by (unfold is_u64, two63, two64 in *; lia).
    rewrite i64_id, u64_id by (unfold is_i64, is_u64, two63, two64 in *; lia). lia.
Qed.

(** for a valid range of [int64] bounds and any length below 2^63, a range accepted by
    [ValidForLength] denotes indices inside the data, in order, and their distance is the
    range's [Size]; no intermediate [int64] or [uint64] conversion wraps to another value,
    even for the smallest [int64]. *)
Theorem range_indices_in_bounds rng len :
  range_wf rng → Range_Valid rng = true → (0 ≤ len < two63)%Z → ValidForLength rng len = true →
  let '(s, e) := IndicesForLength rng len in
  (0 ≤ s ≤ e)%Z ∧ (e ≤ len)%Z ∧ Range_Size rng = (e - s)%Z ∧ (Range_Size rng ≤ len)%Z.
Proof. apply range_bounds. Qed.

Lemma range_indices_in_bounds_witness :
  IndicesForLength (mkRange (-3) (-1)) 5 = (2, 4)%Z ∧
  (let '(s, e) := IndicesForLength (mkRange (-3) (-1)) 5 in
   (0 ≤ s ≤ e)%Z ∧ (e ≤ 5)%Z ∧ Range_Size (mkRange (-3) (-1)) = (e - s)%Z ∧ (Range_Size (mkRange (-3) (-1)) ≤ 5)%Z).
Proof.
  split; [vm_compute; reflexivity|].
  apply (range_indices_in_bounds (mkRange (-3) (-1)) 5);
    [split; unfold is_i64, two63; simpl; lia|vm_compute; reflexivity|unfold two63; lia|vm_compute; reflexivity].
Defined.

(** ** Diffs: theorems *)

(** The lists hold each keypath of the sets once. *)
Definition diff_wf (d : Diff) : Prop :=
  NoDup (AddedList d) ∧ list_to_set (AddedList d) = Added d ∧
  NoDup (RemovedList d) ∧ list_to_set (RemovedList d) = Removed d.

Lemma NewDiff_wf : diff_wf NewDiff.
Proof. split_and!; simpl; (constructor || set_solver). Qed.

Lemma Diff_Add_wf d k : diff_wf d → ∃ d', Diff_Add (Some d) k = Some d' ∧ diff_wf d' ∧ enabled d' = enabled d.
Proof.
  intros (H1 & H2 & H3 & H4). unfold Diff_Add. destruct (enabled d) eqn:He; simpl; [|by eexists].
  case_decide as Hk; [by eexists|]. eexists. split_and!; [done| |done].
  split_and!; simpl; [|set_solver|done..].
  apply NoDup_app. split_and!; [done|set_solver|apply NoDup_singleton].
Qed.

Lemma Diff_Remove_wf d k : diff_wf d → ∃ d', Diff_Remove (Some d) k = Some d' ∧ diff_wf d' ∧ enabled d' = enabled d.
Proof.
  intros (H1 & H2 & H3 & H4). unfold Diff_Remove. destruct (enabled d) eqn:He; simpl; [|by eexists].
  case_decide as Hk; [by eexists|]. eexists. split_and!; [done| |done].
  split_and!; simpl; [done..| |set_solver].
  apply NoDup_app. split_and!; [done|set_solver|apply NoDup_singleton].
Qed.

Lemma foldl_diff_wf (f : option Diff → Keypath → option Diff) d ks :
  (∀ d k, diff_wf d → ∃ d', f (Some d) k = Some d' ∧ diff_wf d' ∧ enabled d' = enabled d) →
  diff_wf d → ∃ d', foldl f (Some d) ks = Some d' ∧ diff_wf d' ∧ enabled d' = enabled d.
Proof.
  intros Hf. revert d. induction ks as [|k ks IH]; intros d Hd; simpl; [eauto|].
  destruct (Hf d k Hd) as (d1 & -> & Hd1 & He1).
  destruct (IH d1 Hd1) as (d2 & -> & Hd2 & He2). eexists. split_and!; [done..|congruence].
Qed.

Lemma foldl_Diff_Add_Added d ks d' :
  enabled d = true → foldl Diff_Add (Some d) ks = Some d' →
  Added d' = Added d ∪ list_to_set ks ∧ Removed d' = Removed d ∧ RemovedList d' = RemovedList d.
Proof.
  revert d. induction ks as [|k ks IH]; intros d He; simpl.
  - intros [= ->]. split_and!; [set_solver|done..].
  - rewrite He. simpl. case_decide.
    + intros (-> & -> & ->)%IH; [|done]. split_and!; [set_solver|done..].
    + intros (-> & -> & ->)%IH; [|done]. simpl. split_and!; [set_solver|done..].
Qed.

Lemma foldl_Diff_Remove_Removed d ks d' :
  enabled d = true → foldl Diff_Remove (Some d) ks = Some d' →
  Removed d' = Removed d ∪ list_to_set ks ∧ Added d' = Added d ∧ AddedList d' = AddedList d.
Proof.
  revert d. induction ks as [|k ks IH]; intros d He; simpl.
  - intros [= ->]. split_and!; [set_solver|done..].
  - rewrite He. simpl. case_decide.
    + intros (-> & -> & ->)%IH; [|done]. split_and!; [set_solver|done..].
    + intros (-> & -> & ->)%IH; [|done]. simpl. split_and!; [set_solver|done..].
Qed.

(** an enabled diff records exactly the keypaths it is given, each once: after
    [AddMany] (and, for the removals, [RemoveMany]) the set grows by the arguments, the
    list enumerates the set without duplicates, and the other half is untouched. *)
Theorem diff_records_each_keypath_once d ks :
  diff_wf d → enabled d = true →
  (∃ d', Diff_AddMany (Some d) ks = Some d' ∧ diff_wf d' ∧ enabled d' = true ∧
         Added d' = Added d ∪ list_to_set ks ∧ Removed d' = Removed d) ∧
  (∃ d', Diff_RemoveMany (Some d) ks = Some d' ∧ diff_wf d' ∧ enabled d' = true ∧
         Removed d' = Removed d ∪ list_to_set ks ∧ Added d' = Added d).
Proof.
  intros Hd He. unfold Diff_AddMany, Diff_RemoveMany. rewrite He. simpl. split.
  - destruct (foldl_diff_wf Diff_Add d ks Diff_Add_wf Hd) as (d' & Hf & Hd' & He').
    destruct (foldl_Diff_Add_Added _ _ _ He Hf) as (? & ? & ?).
    exists d'. split_and!; congruence.
  - destruct (foldl_diff_wf Diff_Remove d ks Diff_Remove_wf Hd) as (d' & Hf & Hd' & He').
    destruct (foldl_Diff_Remove_Removed _ _ _ He Hf) as (? & ? & ?).
    exists d'. split_and!; congruence.
Qed.

Lemma diff_records_each_keypath_once_witness :
  diff_wf NewDiff ∧
  ∃ d', Diff_AddMany (Some NewDiff) [str "a"; str "b"; str "a"] = Some d' ∧
        diff_wf d' ∧ enabled d' = true ∧
        Added d' = Added NewDiff ∪ list_to_set [str "a"; str "b"; str "a"] ∧ Removed d' = Removed NewDiff.
Proof.
  split; [apply NewDiff_wf|].
  exact (proj1 (diff_records_each_keypath_once NewDiff [str "a"; str "b"; str "a"] NewDiff_wf eq_refl)).
Defined.

(** copying a diff keeps what it recorded but switches it off: whatever is added to or
    removed from the copy afterwards leaves it unchanged. *)
Theorem diff_copy_is_disabled d k :
  let c := Diff_Copy (Some d) in
  Added c = Added d ∧ AddedList c = AddedList d ∧
  Removed c = Removed d ∧ RemovedList c = RemovedList d ∧
  Diff_Add (Some c) k = Some c ∧ Diff_Remove (Some c) k = Some c.
Proof.
  assert (∀ l : list Keypath, Copy <$> l = l) as H.
  { intros l. rewrite <- (list_fmap_id l) at 2. apply list_fmap_ext. intros. apply Copy_id. }
  simpl. by rewrite !H.
Qed.
