(* ===== verification/GoValue.v ===== *)
(** * Go values stored in the tree, and the helpers of [tree/util.go]

    [interface{}] values are modelled by [goval]: the scalars the tree stores, string
    keyed maps, slices, and the nodes of other trees ([N] is their type; [plain]
    values contain none).  A Go map is a list of entries: its order stands for the
    iteration order the runtime happens to choose, so a theorem about all lists is a
    theorem about every iteration order.  Structs, typed maps and arrays, which the code
    reaches through reflection, and [Valuer]s are not part of [goval].

    [DecodeSliceIndex] is [strconv.ParseUint] in base 10 and [EncodeSliceIndex] is
    [strconv.FormatUint] padded with zeros to eight digits. *)

From S2P Require Import Prelude Keypath TreeTypes.

(** The integer types: the 64-bit one and those that [encodeNode] widens. *)
Inductive ikind := K64 | K32 | K16 | K8 | KInt.
#[export] Instance ikind_eq_dec : EqDecision ikind.
Proof. solve_decision. Defined.

Inductive scalar :=
  | SNil
  | SBool (b : bool)
  | SUint (k : ikind) (z : Z)
  | SInt (k : ikind) (z : Z)
  | SFloat (bits : Z)          (* the 64 bits of a float64 *)
  | SString (s : bytes)
  | SBytes (b : bytes).
#[export] Instance scalar_eq_dec : EqDecision scalar.
Proof. solve_decision. Defined.

Inductive goval (N : Type) :=
  | GScalar (s : scalar)
  | GMap (entries : list (bytes * goval N))
  | GSlice (elems : list (goval N))
  | GNode (n : N).
Arguments GScalar {N} _.
Arguments GMap {N} _.
Arguments GSlice {N} _.
Arguments GNode {N} _.

(** Values that contain no node of another tree. *)
Abbreviation plain := (goval Empty_set).

(** ** Slice indices as keypath parts *)

(** Decimal digits of a number, most significant first ([strconv.FormatUint(x, 10)]);
    the fuel is the number of digits at most, 20 for a [uint64]. *)
Definition digit (d : Z) : byte := byte_of_Z (48 + d).

Fixpoint format_digits (fuel : nat) (x : Z) (acc : bytes) : bytes :=
  match fuel with
  | O => acc
  | S fuel =>
      let acc := digit (x `mod` 10) :: acc in
      if decide (x < 10)%Z then acc else format_digits fuel (x `div` 10) acc
  end.

Definition FormatUint (x : Z) : bytes := format_digits 20 x [].

(** [strconv.ParseUint(s, 10, 64)]: [None] for an empty string, a byte that is not a
    digit, or a value of 2^64 or more. *)
Definition digit_val (b : byte) : option Z :=
  let z := byte_to_Z b in
  if decide (48 ≤ z ≤ 57)%Z then Some (z - 48)%Z else None.

Fixpoint parse_digits (acc : Z) (s : bytes) : option Z :=
  match s with
  | [] => Some acc
  | b :: s =>
      d ← digit_val b;
      let acc := (acc * 10 + d)%Z in
      if decide (acc < two64)%Z then parse_digits acc s else None
  end.

Definition ParseUint (s : bytes) : option Z :=
  match s with [] => None | _ => parse_digits 0 s end.

(** [bytes.Repeat] panics when the count is negative. *)
Definition EncodeSliceIndex (x : Z) : outcome Keypath :=
  let enc := FormatUint x in
  if decide (length enc ≤ 8) then Ret (replicate (8 - length enc) "0"%byte ++ enc) else Panic.

Definition DecodeSliceIndex (k : Keypath) : outcome Z :=
  match ParseUint k with Some x => Ret x | None => Panic end.

Definition PushIndex (k : Keypath) (idx : Z) : outcome Keypath :=
  let! e := EncodeSliceIndex idx in Ret (Push k e).

Definition Pushs (k : Keypath) (part : bytes) : Keypath := Push k part.

(** ** Lengths as eight little-endian bytes *)

Fixpoint le_bytes (n : nat) (x : Z) : bytes :=
  match n with O => [] | S n => byte_of_Z x :: le_bytes n (x `div` 256) end.

Fixpoint le_value (bs : bytes) : Z :=
  match bs with [] => 0 | b :: bs => byte_to_Z b + 256 * le_value bs end%Z.

Definition EncodeSliceLen (x : Z) : bytes := le_bytes 8 x.

(** [binary.LittleEndian.Uint64] panics on fewer than eight bytes. *)
Definition DecodeSliceLen (k : bytes) : outcome Z :=
  if decide (8 ≤ length k) then Ret (le_value (take 8 k)) else Panic.

(** ** [walkGoValue] *)

Section Walk.
Context {N S : Type} (fn : S → Keypath → goval N → outcome S).

(** The children of a value with their keypaths, in the order they are queued. *)
Fixpoint slice_children (kp : Keypath) (i : nat) (l : list (goval N)) :
    outcome (list (Keypath * goval N)) :=
  match l with
  | [] => Ret []
  | v :: l =>
      let! e := EncodeSliceIndex (Z.of_nat i) in
      let! r := slice_children kp (i + 1) l in
      Ret ((Push kp e, v) :: r)
  end.

Definition children (kp : Keypath) (v : goval N) : outcome (list (Keypath * goval N)) :=
  match v with
  | GMap m => Ret ((λ '(k, v), (Push kp k, v)) <$> m)
  | GSlice l => slice_children kp 0 l
  | GScalar _ | GNode _ => Ret []
  end.

(** The queue loop: visit the first item, queue its children behind the rest. *)
Fixpoint walk_loop (fuel : nat) (stack : list (Keypath * goval N)) (s : S) : outcome S :=
  match stack with
  | [] => Ret s
  | (kp, v) :: stack =>
      match fuel with
      | O => Running
      | Datatypes.S fuel =>
          let! s := fn s kp v in
          let! ch := children kp v in
          walk_loop fuel (stack ++ ch) s
      end
  end.
End Walk.

Fixpoint goval_size {N} (v : goval N) : nat :=
  match v with
  | GScalar _ | GNode _ => 1
  | GMap m => 1 + foldr (λ '(_, v) n, goval_size v + n) 0 m
  | GSlice l => 1 + foldr (λ v n, goval_size v + n) 0 l
  end.

Definition walkGoValue {N S} (tree : goval N) (fn : S → Keypath → goval N → outcome S) (s : S) : outcome S :=
  walk_loop fn (goval_size tree) [([], tree)] s.

(** ** [setValueAtKeypath] *)

Fixpoint assoc_set {V} (k : bytes) (v : V) (m : list (bytes * V)) : list (bytes * V) :=
  match m with
  | [] => [(k, v)]
  | (k', v') :: m => if decide (k = k') then (k, v) :: m else (k', v') :: assoc_set k v m
  end.

Fixpoint assoc_get {V} (k : bytes) (m : list (bytes * V)) : option V :=
  match m with
  | [] => None
  | (k', v) :: m => if decide (k = k') then Some v else assoc_get k m
  end.

(** The loop walks down one key at a time ([fuel] bounds the number of keys) and the
    value is rebuilt on the way up, which is what the in-place updates of the Go maps and
    slices amount to.  A missing map key yields nil, and stepping into nil panics; so does
    stepping into a leaf [GNode], which here is no node of a tree (a reader of a blob). *)
Fixpoint set_path {N} (fuel : nat) (cur : goval N) (keypath : Keypath) (val : goval N) (clobber : bool) :
    outcome (goval N) :=
  match fuel with
  | O => Running
  | S fuel =>
      let '(key, rest) := Shift keypath in
      match rest with
      | None =>
          match cur with
          | GMap m => Ret (GMap (assoc_set key val m))
          | GSlice l =>
              let! i := DecodeSliceIndex key in
              if decide (i < Z.of_nat (length l))%Z
              then Ret (GSlice (<[Z.to_nat i := val]> l)) else Panic
          | GScalar _ | GNode _ => Panic
          end
      | Some rest =>
          match cur with
          | GMap m =>
              match assoc_get key m with
              | Some next =>
                  let next := if clobber then GMap [] else next in
                  let! next' := set_path fuel next rest val clobber in
                  Ret (GMap (assoc_set key next' m))
              | None => Panic
              end
          | GSlice l =>
              let! i := DecodeSliceIndex key in
              match l !! Z.to_nat i with
              | Some next =>
                  let! next' := set_path fuel next rest val clobber in
                  Ret (GSlice (<[Z.to_nat i := next']> l))
              | None => Panic
              end
          | GScalar _ | GNode _ => Panic
          end
      end
  end.

Definition setValueAtKeypath {N} (x : goval N) (keypath : Keypath) (val : goval N) (clobber : bool) : outcome (goval N) :=
  if decide (length keypath = 0) then Ret val
  else set_path (NumParts keypath) x keypath val clobber.

(** ** Slice indices: lemmas *)

Lemma byte_to_Z_range b : (0 ≤ byte_to_Z b < 256)%Z.
Proof.
  unfold byte_to_Z. split; [lia|].
  pose proof (Byte.to_of_N_option_map (Byte.to_N b)) as H. rewrite Byte.of_to_N in H.
  destruct (N.leb_spec (Byte.to_N b) 255); simpl in H; [lia|done].
Qed.

Lemma byte_to_of_Z z : byte_to_Z (byte_of_Z z) = (z `mod` 256)%Z.
Proof.
  unfold byte_to_Z, byte_of_Z. pose proof (Z.mod_pos_bound z 256 ltac:(lia)) as Hm.
  pose proof (Byte.to_of_N_option_map (Z.to_N (z `mod` 256))) as H.
  destruct (Byte.of_N (Z.to_N (z `mod` 256))) as [b|] eqn:E; simpl in *.
  - apply Byte.to_of_N in E. rewrite E. lia.
  - destruct (N.leb_spec (Z.to_N (z `mod` 256)) 255); [done|lia].
Qed.

Lemma byte_of_to_Z b : byte_of_Z (byte_to_Z b) = b.
Proof.
  apply byte_to_N_inj. apply (inj Z.of_N).
  change (byte_to_Z (byte_of_Z (byte_to_Z b)) = byte_to_Z b).
  rewrite byte_to_of_Z. apply Z.mod_small, byte_to_Z_range.
Qed.

Lemma digit_val_digit d : (0 ≤ d < 10)%Z → digit_val (digit d) = Some d.
Proof.
  intros Hd. unfold digit_val, digit. rewrite byte_to_of_Z, Z.mod_small by lia.
  rewrite decide_True by lia. f_equal. lia.
Qed.

Lemma digit_val_byte b d : digit_val b = Some d → byte_to_Z b = (48 + d)%Z ∧ (0 ≤ d < 10)%Z.
Proof. unfold digit_val. case_decide; [|done]. intros [= <-]. lia. Qed.

Lemma format_digits_acc f x acc : format_digits f x acc = format_digits f x [] ++ acc.
Proof.
  revert x acc. induction f as [|f IH]; intros x acc; [done|]. cbn [format_digits].
  case_decide; [done|]. rewrite IH, (IH _ [_]). by rewrite <- (assoc_L (++)).
Qed.

Lemma format_digits_S f x :
  format_digits (S f) x [] =
    if decide (x < 10)%Z then [digit (x `mod` 10)]
    else format_digits f (x `div` 10) [] ++ [digit (x `mod` 10)].
Proof. cbn [format_digits]. case_decide; [done|]. apply format_digits_acc. Qed.

Lemma parse_digits_app acc s t : parse_digits acc (s ++ t) = a ← parse_digits acc s; parse_digits a t.
Proof.
  revert acc. induction s as [|b s IH]; intros acc; simpl; [done|].
  destruct (digit_val b) as [d|]; simpl; [|done]. case_decide; [apply IH|done].
Qed.

Lemma div10 x : (10 ≤ x)%Z → (0 < x `div` 10 < x)%Z ∧ (x = x `div` 10 * 10 + x `mod` 10)%Z ∧ (0 ≤ x `mod` 10 < 10)%Z.
Proof.
  intros. pose proof (Z.div_mod x 10 ltac:(lia)). pose proof (Z.mod_pos_bound x 10 ltac:(lia)). lia.
Qed.

Lemma parse_format f x :
  (0 ≤ x < two64)%Z → (x < 10 ^ Z.of_nat f)%Z → parse_digits 0 (format_digits f x []) = Some x.
Proof.
  revert x. induction f as [|f IH]; intros x Hx Hf.
  { simpl in Hf. simpl. f_equal. lia. }
  rewrite format_digits_S. case_decide as Hlt.
  - simpl. rewrite digit_val_digit by (rewrite Z.mod_small; lia). simpl.
    rewrite Z.mod_small by lia. by rewrite decide_True by lia.
  - destruct (div10 x) as (H1 & H2 & H3); [lia|].
    rewrite parse_digits_app, IH; [simpl|lia|].
    + rewrite digit_val_digit by done. simpl. rewrite decide_True by lia. f_equal. lia.
    + rewrite Nat2Z.inj_succ, Z.pow_succ_r in Hf by lia. lia.
Qed.

Lemma parse_zeros n s : parse_digits 0 (replicate n "0"%byte ++ s) = parse_digits 0 s.
Proof. induction n as [|n IH]; [done|]. simpl. exact IH. Qed.

Lemma format_length f x n :
  (0 ≤ x)%Z → (x < 10 ^ Z.of_nat n)%Z → 0 < n → length (format_digits f x []) ≤ n.
Proof.
  revert x n. induction f as [|f IH]; intros x n Hx Hn H0; [simpl; lia|].
  rewrite format_digits_S. case_decide; [simpl; lia|].
  destruct (div10 x) as (H1 & H2 & H3); [lia|]. rewrite length_app. simpl.
  destruct n as [|[|n]]; [lia|simpl in Hn; lia|].
  rewrite Nat2Z.inj_succ, Z.pow_succ_r in Hn by lia.
  pose proof (IH (x `div` 10)%Z (S n)). lia.
Qed.

Lemma format_length_ge f x n :
  n < f → (10 ^ Z.of_nat n ≤ x)%Z → n < length (format_digits f x []).
Proof.
  revert x n. induction f as [|f IH]; intros x n Hf Hx; [lia|].
  rewrite format_digits_S. destruct n as [|n].
  { case_decide; rewrite ?length_app; simpl; lia. }
  rewrite Nat2Z.inj_succ, Z.pow_succ_r in Hx by lia.
  pose proof (Z.pow_pos_nonneg 10 (Z.of_nat n) ltac:(lia) ltac:(lia)).
  rewrite decide_False by lia. destruct (div10 x) as (H1 & H2 & H3); [lia|].
  rewrite length_app. simpl. pose proof (IH (x `div` 10)%Z n). lia.
Qed.

Lemma format_nonempty f x : f ≠ 0 → format_digits f x [] ≠ [].
Proof. destruct f; [done|]. intros _. rewrite format_digits_S. case_decide; [done|]. by destruct (format_digits _ _ _). Qed.

(** Digit strings of the same length compare like the numbers they denote. *)
Lemma digits_compare p q a b m n :
  length a = length b → parse_digits p a = Some m → parse_digits q b = Some n →
  match (p ?= q)%Z with
  | Eq => bytes_compare a b = (m ?= n)%Z
  | Lt => (m < n)%Z
  | Gt => (m > n)%Z
  end.
Proof.
  revert p q b. induction a as [|x a IH]; intros p q [|y b] Hl Ha Hb; simplify_eq/=.
  { destruct (_ ?= _)%Z eqn:E; [done|by rewrite Z.compare_lt_iff in E|by rewrite Z.compare_gt_iff in E; lia]. }
  destruct (digit_val x) as [d|] eqn:Hd; simplify_eq/=. case_decide; simplify_eq/=.
  destruct (digit_val y) as [e|] eqn:He; simplify_eq/=. case_decide; simplify_eq/=.
  specialize (IH _ _ b ltac:(done) Ha Hb).
  apply digit_val_byte in Hd as [Hx ?]. apply digit_val_byte in He as [Hy ?].
  assert ((Byte.to_N x ?= Byte.to_N y)%N = (d ?= e)%Z) as ->.
  { unfold byte_to_Z in *. rewrite <- N2Z.inj_compare, Hx, Hy.
    destruct (Z.compare_spec (48 + d) (48 + e)), (Z.compare_spec d e); (done || lia). }
  destruct (Z.compare_spec p q) as [->|Hpq|Hpq].
  - destruct (Z.compare_spec d e) as [->|Hde|Hde].
    + by rewrite Z.compare_refl in IH.
    + rewrite (proj2 (Z.compare_lt_iff _ _)) in IH by lia. symmetry. by apply Z.compare_lt_iff.
    + rewrite (proj2 (Z.compare_gt_iff _ _)) in IH by lia. symmetry. apply Z.compare_gt_iff. lia.
  - rewrite (proj2 (Z.compare_lt_iff _ _)) in IH by lia. done.
  - rewrite (proj2 (Z.compare_gt_iff _ _)) in IH by lia. done.
Qed.

Definition max_index : Z := 100000000.

Lemma EncodeSliceIndex_ok x :
  (0 ≤ x < max_index)%Z →
  ∃ e, EncodeSliceIndex x = Ret e ∧ length e = 8 ∧ parse_digits 0 e = Some x ∧ Forall (λ b, is_Some (digit_val b)) e.
Proof.
  unfold max_index. intros Hx. unfold EncodeSliceIndex, FormatUint.
  pose proof (format_length 20 x 8 ltac:(lia) ltac:(simpl; lia) ltac:(lia)) as Hl.
  rewrite decide_True by done. eexists. split; [done|]. split_and!.
  - rewrite length_app, length_replicate. lia.
  - rewrite parse_zeros. apply parse_format; unfold two64; simpl; lia.
  - apply Forall_app. split; [apply Forall_replicate; vm_compute; eauto|].
    clear Hl. revert x Hx. generalize 20. intros f. induction f as [|f IH]; intros x Hx; [constructor|].
    pose proof (Z.mod_pos_bound x 10 ltac:(lia)).
    rewrite format_digits_S. case_decide; [repeat constructor; rewrite digit_val_digit by done; eauto|].
    destruct (div10 x) as (? & ? & ?); [lia|].
    apply Forall_app. split; [apply IH; lia|repeat constructor; rewrite digit_val_digit by done; eauto].
Qed.

(** ** Slice indices: theorems *)

(** an index below 10^8 is encoded as eight digits from which [DecodeSliceIndex]
    recovers it; an index of 10^8 or more (up to the largest [uint64]) makes
    [EncodeSliceIndex] panic instead of producing a longer key. *)
Theorem slice_index_roundtrip x :
  (0 ≤ x < two64)%Z →
  match EncodeSliceIndex x with
  | Ret e => (x < max_index)%Z ∧ length e = 8 ∧ DecodeSliceIndex e = Ret x
  | Panic => (max_index ≤ x)%Z
  | _ => False
  end.
Proof.
  intros Hx. destruct (decide (x < max_index)%Z) as [Hm|Hm].
  - destruct (EncodeSliceIndex_ok x) as (e & -> & Hl & Hp & _); [lia|].
    split_and!; [done..|]. unfold DecodeSliceIndex, ParseUint.
    destruct e; [done|]. by rewrite Hp.
  - unfold EncodeSliceIndex, FormatUint. pose proof (format_length_ge 20 x 8 ltac:(lia)) as H.
    unfold max_index in *. rewrite decide_False; [lia|]. simpl Z.of_nat in H. change (10 ^ 8)%Z with 100000000%Z in H. lia.
Qed.

Lemma slice_index_roundtrip_witness :
  (0 ≤ 1234 < two64)%Z ∧
  match EncodeSliceIndex 1234 with
  | Ret e => (1234 < max_index)%Z ∧ length e = 8 ∧ DecodeSliceIndex e = Ret 1234%Z
  | Panic => (max_index ≤ 1234)%Z
  | _ => False
  end.
Proof. assert (0 ≤ 1234 < two64)%Z by (unfold two64; lia). split; [done|]. by apply (slice_index_roundtrip 1234). Defined.

(** the encoding keeps the order: byte order on encoded indices, which is the order
    in which keypaths are sorted and iterated, is the numeric order of the indices. *)
Theorem slice_index_order x y ex ey :
  (0 ≤ x < max_index)%Z → (0 ≤ y < max_index)%Z →
  EncodeSliceIndex x = Ret ex → EncodeSliceIndex y = Ret ey →
  bytes_compare ex ey = (x ?= y)%Z.
Proof.
  intros Hx Hy Ex Ey.
  destruct (EncodeSliceIndex_ok x Hx) as (e1 & E1 & L1 & P1 & _).
  destruct (EncodeSliceIndex_ok y Hy) as (e2 & E2 & L2 & P2 & _).
  simplify_eq. apply (digits_compare 0 0 ex ey x y); congruence.
Qed.

Lemma slice_index_order_witness : bytes_compare (str "00000009") (str "00000010") = Lt.
Proof.
  apply (slice_index_order 9 10 (str "00000009") (str "00000010"));
    [unfold max_index; lia|unfold max_index; lia|vm_compute; reflexivity|vm_compute; reflexivity].
Defined.

(** ** Little-endian lengths *)

Lemma length_le_bytes n x : length (le_bytes n x) = n.
Proof. revert x. induction n; intros; simpl; auto. Qed.

Lemma le_value_bytes n x : le_value (le_bytes n x) = (x `mod` 256 ^ Z.of_nat n)%Z.
Proof.
  revert x. induction n as [|n IH]; intros x; [simpl; by rewrite Z.mod_1_r|].
  cbn [le_bytes le_value]. rewrite IH, byte_to_of_Z, Nat2Z.inj_succ, Z.pow_succ_r by lia.
  rewrite Z.rem_mul_r by (try apply Z.pow_nonzero; lia). lia.
Qed.

Lemma le_value_range bs : (0 ≤ le_value bs < 256 ^ Z.of_nat (length bs))%Z.
Proof.
  induction bs as [|b bs IH]; [simpl; lia|]. cbn [le_value length].
  rewrite Nat2Z.inj_succ, Z.pow_succ_r by lia. pose proof (byte_to_Z_range b). lia.
Qed.

Lemma le_bytes_value bs : le_bytes (length bs) (le_value bs) = bs.
Proof.
  induction bs as [|b bs IH]; [done|]. cbn [le_value length le_bytes].
  pose proof (byte_to_Z_range b). f_equal.
  - rewrite <- (byte_of_to_Z b) at 2. unfold byte_of_Z. do 3 f_equal.
    by rewrite (Z.mul_comm 256), Z.mod_add by lia.
  - rewrite Z.mul_comm, Z.div_add by lia. rewrite Z.div_small by lia. done.
Qed.

Lemma DecodeEncodeSliceLen x : is_u64 x → DecodeSliceLen (EncodeSliceLen x) = Ret x.
Proof.
  intros Hx. unfold DecodeSliceLen, EncodeSliceLen. rewrite length_le_bytes, decide_True by lia.
  rewrite take_ge by (rewrite length_le_bytes; lia). rewrite le_value_bytes. f_equal.
  apply Z.mod_small. exact Hx.
Qed.

(** ** [walkGoValue]: what is visited *)

(** [at_path kp v kp' w]: walking down [v] from keypath [kp], [w] sits at [kp']. *)
Inductive at_path {N} : Keypath → goval N → Keypath → goval N → Prop :=
  | at_here kp v : at_path kp v kp v
  | at_map kp m k v kp' w :
      (k, v) ∈ m → at_path (Push kp k) v kp' w → at_path kp (GMap m) kp' w
  | at_slice kp l i v e kp' w :
      l !! i = Some v → EncodeSliceIndex (Z.of_nat i) = Ret e →
      at_path (Push kp e) v kp' w → at_path kp (GSlice l) kp' w.

(** Every slice is short enough for its indices to be encoded. *)
Fixpoint indexable {N} (v : goval N) : Prop :=
  match v with
  | GScalar _ | GNode _ => True
  | GMap m => foldr (λ '(_, v) P, indexable v ∧ P) True m
  | GSlice l => (Z.of_nat (length l) ≤ max_index)%Z ∧ foldr (λ v P, indexable v ∧ P) True l
  end.

Lemma indexable_map {N} (m : list (bytes * goval N)) :
  indexable (GMap m) ↔ Forall (λ kv, indexable kv.2) m.
Proof. simpl. induction m as [|[k v] m IH]; simpl; [by rewrite Forall_nil|]. by rewrite Forall_cons, IH. Qed.

Lemma indexable_slice {N} (l : list (goval N)) :
  indexable (GSlice l) ↔ (Z.of_nat (length l) ≤ max_index)%Z ∧ Forall indexable l.
Proof.
  simpl. assert (foldr (λ v P, indexable v ∧ P) True l ↔ Forall indexable l) as ->; [|done].
  induction l as [|v l IH]; simpl; [by rewrite Forall_nil|]. by rewrite Forall_cons, IH.
Qed.

Definition queue_size {N} (q : list (Keypath * goval N)) : nat :=
  foldr (λ '(_, v) n, goval_size v + n) 0 q.

Lemma queue_size_app {N} (q r : list (Keypath * goval N)) :
  queue_size (q ++ r) = queue_size q + queue_size r.
Proof. induction q as [|[k v] q IH]; simpl; [done|]. rewrite IH. lia. Qed.

Lemma goval_size_pos {N} (v : goval N) : 0 < goval_size v.
Proof. destruct v; simpl; lia. Qed.

Lemma slice_children_spec {N} kp i (l : list (goval N)) :
  (Z.of_nat (i + length l) ≤ max_index)%Z →
  ∃ ch, slice_children kp i l = Ret ch ∧
    queue_size ch = foldr (λ v n, goval_size v + n) 0 l ∧
    (Forall indexable l → Forall (λ kv, indexable kv.2) ch) ∧
    (∀ k v, (k, v) ∈ ch ↔
      ∃ j e, l !! j = Some v ∧ EncodeSliceIndex (Z.of_nat (i + j)) = Ret e ∧ k = Push kp e).
Proof.
  revert i. induction l as [|v l IH]; intros i Hi; simpl.
  { exists []. split_and!; [done..|]. split; [set_solver|]. intros (j & e & ? & _). done. }
  simpl in Hi.
  destruct (EncodeSliceIndex_ok (Z.of_nat i)) as (e & He & _); [unfold max_index in *; lia|].
  destruct (IH (i + 1)) as (ch & -> & Hs & Hix & Hch); [lia|]. rewrite He. simpl.
  eexists. split; [done|]. split_and!.
  - simpl. by rewrite Hs.
  - intros [Hv Hl]%Forall_cons. constructor; [done|by apply Hix].
  - intros k w. rewrite elem_of_cons, Hch. split.
    + intros [[= -> ->]|(j & e' & ? & ? & ->)].
      * exists 0, e. by rewrite Nat.add_0_r.
      * exists (S j), e'. split_and!; [done| |done]. by replace (i + S j) with (i + 1 + j) by lia.
    + intros ([|j] & e' & Hj & He' & ->); simplify_eq/=.
      * left. rewrite Nat.add_0_r in He'. congruence.
      * right. exists j, e'. split_and!; [done| |done]. by replace (i + 1 + j) with (i + S j) by lia.
Qed.

(** The children of a value: they exist, they are smaller, and they are the next step of
    [at_path]. *)
Lemma children_spec {N} kp (v : goval N) :
  indexable v →
  ∃ ch, children kp v = Ret ch ∧ S (queue_size ch) = goval_size v ∧
    Forall (λ kv, indexable kv.2) ch ∧
    (∀ kp' w, at_path kp v kp' w ↔
       (kp', w) = (kp, v) ∨ ∃ k x, (k, x) ∈ ch ∧ at_path k x kp' w).
Proof.
  intros Hv. destruct v as [s|m|l|n]; simpl.
  - exists []. split_and!; [done..|]. intros kp' w. split; [inversion 1; subst; auto|].
    intros [[= -> ->]|(? & ? & H & _)]; [constructor|set_solver].
  - eexists. split; [done|]. split_and!.
    + f_equal. induction m as [|[k v] m IH]; simpl; [done|].
      f_equal. apply IH. apply indexable_map in Hv. inversion Hv. by apply indexable_map.
    + apply Forall_fmap. apply indexable_map in Hv. eapply Forall_impl; [done|]. by intros [].
    + intros kp' w. split.
      * inversion 1; subst; [by left|right]. eexists _, _. split; [|done].
        apply list_elem_of_fmap. by eexists (_, _).
      * intros [[= -> ->]|(k & x & ((k' & y) & [= -> ->] & Hm)%list_elem_of_fmap & Hp)]; [constructor|].
        by eapply at_map.
  - apply indexable_slice in Hv as [Hlen Hl].
    destruct (slice_children_spec kp 0 l) as (ch & Hch & Hs & Hix & Hin); [done|].
    exists ch. split; [done|]. split_and!; [by rewrite Hs|by apply Hix|].
    intros kp' w. split.
    + inversion 1; subst; [by left|right]. eexists _, _. split; [|done].
      apply Hin. by eexists _, _.
    + intros [[= -> ->]|(k & x & (j & e & Hj & He & ->)%Hin & Hp)]; [constructor|].
      by eapply at_slice.
  - exists []. split_and!; [done..|]. intros kp' w. split; [inversion 1; subst; auto|].
    intros [[= -> ->]|(? & ? & H & _)]; [constructor|set_solver].
Qed.

(** The queue loop calls [fn] on a list of items, one for every position reachable from
    the queue. *)
Lemma walk_loop_spec {N} fuel (q : list (Keypath * goval N)) :
  queue_size q ≤ fuel → Forall (λ kv, indexable kv.2) q →
  ∃ vs, length vs = queue_size q ∧
    (∀ kp w, (kp, w) ∈ vs ↔ ∃ k x, (k, x) ∈ q ∧ at_path k x kp w) ∧
    ∀ S (fn : S → Keypath → goval N → outcome S) s,
      walk_loop fn fuel q s = fold_outcome (λ s kv, fn s kv.1 kv.2) s vs.
Proof.
  revert q. induction fuel as [|fuel IH]; intros q Hf Hq; destruct q as [|[k v] q];
    try (exists []; split_and!; [done| |done]; set_solver).
  { simpl in Hf. pose proof (goval_size_pos v). lia. }
  simpl in Hf. apply Forall_cons in Hq as [Hv Hq]. simpl in Hv.
  destruct (children_spec k v Hv) as (ch & Hch & Hs & Hix & Hat).
  destruct (IH (q ++ ch)) as (vs & Hlen & Hvs & Hw).
  { rewrite queue_size_app. lia. }
  { by apply Forall_app. }
  exists ((k, v) :: vs). split_and!.
  - simpl. rewrite Hlen, queue_size_app. lia.
  - intros kp w. rewrite elem_of_cons, Hvs. setoid_rewrite elem_of_cons. setoid_rewrite elem_of_app. split.
    + intros [[= -> ->]|(k' & x & [H|H] & Hp)].
      * exists k, v. split; [auto|constructor].
      * eauto.
      * exists k, v. split; [auto|]. apply Hat. eauto.
    + intros (k' & x & [[= -> ->]|H] & Hp); [|eauto 10].
      apply Hat in Hp as [?|(k2 & x2 & ? & ?)]; [auto|eauto 10].
  - intros S fn s. simpl. rewrite Hch. destruct (fn s k v); simpl; auto.
Qed.

(** [walkGoValue] terminates on every value whose slices have indexable length, and
    calls its callback exactly once for every position of the value (the root, and below
    every map key and slice index), in one fixed sequence, stopping at the callback's first
    error. *)
Theorem walkGoValue_visits_every_position {N} (v : goval N) :
  indexable v →
  ∃ vs, length vs = goval_size v ∧
    (∀ kp w, (kp, w) ∈ vs ↔ at_path [] v kp w) ∧
    ∀ S (fn : S → Keypath → goval N → outcome S) s,
      walkGoValue v fn s = fold_outcome (λ s kv, fn s kv.1 kv.2) s vs.
Proof.
  intros Hv.
  destruct (walk_loop_spec (goval_size v) [([], v)]) as (vs & Hlen & Hvs & Hw);
    [simpl; lia|by repeat constructor|].
  exists vs. split_and!; [rewrite Hlen; simpl; lia| |exact Hw].
  intros kp w. rewrite Hvs. setoid_rewrite list_elem_of_singleton. split; [|by eauto].
  by intros (? & ? & [= -> ->] & ?).
Qed.

(** Keys that can be told apart in a keypath: nonempty, without separator, and distinct
    within a map. *)
Fixpoint keys_ok {N} (v : goval N) : Prop :=
  match v with
  | GScalar _ | GNode _ => True
  | GMap m =>
      NoDup (fst <$> m) ∧ foldr (λ '(k, v) P, (k ≠ [] ∧ no_sep k ∧ keys_ok v) ∧ P) True m
  | GSlice l => foldr (λ v P, keys_ok v ∧ P) True l
  end.

Definition example_value : goval Empty_set :=
  GMap [(str "name", GScalar (SString (str "x"))); (str "list", GSlice [GScalar (SBool true); GScalar SNil])].

Lemma walkGoValue_visits_every_position_witness :
  indexable example_value ∧
  ∃ vs, length vs = goval_size example_value ∧
    (∀ kp w, (kp, w) ∈ vs ↔ at_path [] example_value kp w) ∧
    ∀ S (fn : S → Keypath → goval Empty_set → outcome S) s,
      walkGoValue example_value fn s = fold_outcome (λ s kv, fn s kv.1 kv.2) s vs.
Proof.
  assert (indexable example_value) as H by (simpl; unfold max_index; split_and!; (exact I || lia)).
  split; [exact H|]. apply (walkGoValue_visits_every_position example_value H).
Defined.
