(* ===== verification/GoPaths.v ===== *)
(** * Positions inside Go values

    [lookup_path v kp] is the part of a value that sits at a keypath: the reference
    semantics for [walkGoValue], which visits every such part, and for
    [setValueAtKeypath], which replaces one.  Two values are equivalent ([goval_equiv])
    when the same kind of thing sits at every position; for Go maps this is equality of
    the maps, whatever order their entries are listed in. *)

From S2P Require Import Prelude Keypath TreeTypes GoValue.

(** The index an encoded key denotes; keys that no index is encoded as have none. *)
Definition index_of (p : bytes) : option nat :=
  match ParseUint p with
  | Some i =>
      match EncodeSliceIndex i with
      | Ret e => if decide (e = p) then Some (Z.to_nat i) else None
      | _ => None
      end
  | None => None
  end.

Definition child {N} (v : goval N) (p : bytes) : option (goval N) :=
  match v with
  | GMap m => assoc_get p m
  | GSlice l => i ← index_of p; l !! i
  | GScalar _ | GNode _ => None
  end.

Fixpoint lookup_parts {N} (v : goval N) (ps : list bytes) : option (goval N) :=
  match ps with
  | [] => Some v
  | p :: ps => w ← child v p; lookup_parts w ps
  end.

Definition path_parts (kp : Keypath) : list bytes :=
  if decide (kp = []) then [] else split_sep kp.

Definition lookup_path {N} (v : goval N) (kp : Keypath) : option (goval N) :=
  lookup_parts v (path_parts kp).

(** What a value is at its top. *)
Inductive shape (N : Type) := ShScalar (s : scalar) | ShMap | ShSlice (len : nat) | ShNode (n : N).
Arguments ShScalar {N} _.
Arguments ShMap {N}.
Arguments ShSlice {N} _.
Arguments ShNode {N} _.

Definition shape_of {N} (v : goval N) : shape N :=
  match v with
  | GScalar s => ShScalar s
  | GMap _ => ShMap
  | GSlice l => ShSlice (length l)
  | GNode n => ShNode n
  end.

Definition shape_at {N} (v : goval N) (ps : list bytes) : option (shape N) :=
  shape_of <$> lookup_parts v ps.

Definition goval_equiv {N} (v w : goval N) : Prop := ∀ ps, shape_at v ps = shape_at w ps.

#[export] Instance goval_equivalence {N} : Equivalence (@goval_equiv N).
Proof. split; [by intros ? ?|by intros ?? H ?|intros ??? H1 H2 ?; etrans; [apply H1|apply H2]]. Qed.

(** A key that is a whole part of a keypath. *)
Definition good_key (p : bytes) : Prop := p ≠ [] ∧ no_sep p.

(** ** Keypaths and their parts *)

Lemma path_parts_nil : path_parts [] = [].
Proof. done. Qed.

Lemma path_parts_cons kp : kp ≠ [] → path_parts kp = split_sep kp.
Proof. intros. unfold path_parts. by rewrite decide_False. Qed.

Lemma join_nonempty ps : ps ≠ [] → Forall good_key ps → join_sep ps ≠ [].
Proof.
  destruct ps as [|p ps]; [done|]. intros _ [[Hp _] _]%Forall_cons.
  destruct ps; simpl; [done|]. by destruct p.
Qed.

Lemma path_parts_join ps : Forall good_key ps → path_parts (join_sep ps) = ps.
Proof.
  intros Hps. destruct ps as [|p ps]; [done|].
  rewrite path_parts_cons by (by apply join_nonempty).
  apply split_join; [done|]. eapply Forall_impl; [done|]. by intros ? [].
Qed.

Lemma join_path_parts kp : join_sep (path_parts kp) = kp.
Proof. unfold path_parts. case_decide; [by subst|apply join_split]. Qed.

Lemma path_parts_inj k1 k2 : path_parts k1 = path_parts k2 → k1 = k2.
Proof. intros H. by rewrite <- (join_path_parts k1), H, join_path_parts. Qed.

Lemma path_parts_Push k p : path_parts (Push k p) = path_parts k ++ path_parts p.
Proof.
  destruct (decide (k = [])) as [->|Hk]; [done|].
  destruct (decide (p = [])) as [->|Hp]; [by rewrite Push_nil_r, path_parts_nil, app_nil_r|].
  rewrite !path_parts_cons by (done || unfold Push; rewrite !decide_False by (by destruct k, p); by destruct k).
  by apply split_sep_Push.
Qed.

Lemma Push_inj k p q : Push k p = Push k q → p = q.
Proof.
  intros H. apply (f_equal path_parts) in H. rewrite !path_parts_Push in H.
  by apply (inj _), path_parts_inj in H.
Qed.

Lemma path_parts_good p : good_key p → path_parts p = [p].
Proof. intros [??]. rewrite path_parts_cons by done. by apply split_sep_no_sep. Qed.

Lemma Push_good k p q : good_key p → Push (Push k p) q = Push k (Push p q).
Proof. intros [? _]. by apply Push_assoc. Qed.

Lemma StartsWith_prefix k p : StartsWith k p = true ↔ path_parts p `prefix_of` path_parts k.
Proof.
  rewrite StartsWith_parts. destruct (decide (p = [])) as [->|Hp].
  { split; [intros _; apply prefix_nil|by left]. }
  rewrite (path_parts_cons p) by done. unfold path_parts. case_decide as Hk.
  - subst. split.
    + intros [?|[rest Hr]]; [done|]. destruct (split_sep p) as [|x [|]] eqn:E; simplify_eq/=.
      * by apply split_sep_nonempty in E.
      * by apply (split_sep_inj p []) in E.
    + intros Hr%prefix_nil_inv. by apply split_sep_nonempty in Hr.
  - split; [intros [?|[rest ->]]; [done|by apply prefix_app_r]|intros [rest Hr]; eauto].
Qed.

(** Keypaths without empty parts. *)
Definition good_path (k : Keypath) : Prop := Forall good_key (path_parts k).

Lemma good_path_Push k p : good_path (Push k p) ↔ good_path k ∧ good_path p.
Proof. unfold good_path. by rewrite path_parts_Push, Forall_app. Qed.

Lemma good_path_join ps : Forall good_key ps → good_path (join_sep ps).
Proof. intros H. unfold good_path. by rewrite path_parts_join. Qed.

Lemma good_path_head p : good_path p → head p ≠ Some sep.
Proof.
  unfold good_path, path_parts. case_decide as Hp; [by subst|].
  destruct p as [|c p]; [done|]. intros H [= ->].
  change (sep :: p) with ([] ++ sep :: p) in H. rewrite split_sep_app in H.
  apply Forall_cons in H as [[H _] _]. done.
Qed.

(** The keypaths below a keypath are those pushed onto it. *)
Lemma StartsWith_Push_iff k p :
  good_path k → StartsWith k p = true → ∃ r, good_path r ∧ k = Push p r.
Proof.
  intros Hk [rest Hr]%StartsWith_prefix. unfold good_path in Hk. rewrite Hr in Hk.
  apply Forall_app in Hk as [_ Hk]. exists (join_sep rest). split; [by apply good_path_join|].
  apply path_parts_inj. by rewrite path_parts_Push, path_parts_join.
Qed.

(** ** Lookups *)

Lemma lookup_parts_app {N} (v : goval N) ps qs :
  lookup_parts v (ps ++ qs) = w ← lookup_parts v ps; lookup_parts w qs.
Proof. revert v. induction ps as [|p ps IH]; intros v; simpl; [done|]. destruct (child v p); simpl; auto. Qed.

Lemma assoc_get_elem {V} k (v : V) m : NoDup m.*1 → assoc_get k m = Some v ↔ (k, v) ∈ m.
Proof.
  induction m as [|[k' v'] m IH]; simpl; [split; [done|set_solver]|].
  intros [Hk Hm]%NoDup_cons. rewrite elem_of_cons. case_decide as Hkk.
  - subst. split; [intros [= ->]; auto|]. intros [[= ->]|Hin]; [done|].
    destruct Hk. by apply (list_elem_of_fmap_2 fst) in Hin.
  - rewrite IH by done. split; [auto|]. intros [[= -> ->]|?]; done.
Qed.

Lemma index_of_encode i e :
  (Z.of_nat i < max_index)%Z → EncodeSliceIndex (Z.of_nat i) = Ret e → index_of e = Some i ∧ good_key e.
Proof.
  intros Hi He. destruct (EncodeSliceIndex_ok (Z.of_nat i)) as (e' & He' & Hl & Hp & Hd); [lia|].
  assert (e' = e) as -> by congruence. unfold index_of, ParseUint. split.
  - destruct e as [|b e]; [by simpl in Hl|]. rewrite Hp, He, decide_True by done. by rewrite Nat2Z.id.
  - split; [by intros ->|]. intros Hin. rewrite Forall_forall in Hd. destruct (Hd _ Hin) as [d Hsep].
    vm_compute in Hsep. done.
Qed.

Lemma index_of_decode p i :
  index_of p = Some i →
  DecodeSliceIndex p = Ret (Z.of_nat i) ∧ EncodeSliceIndex (Z.of_nat i) = Ret p.
Proof.
  unfold index_of, DecodeSliceIndex. destruct (ParseUint p) as [z|] eqn:Hz; [|done].
  destruct (EncodeSliceIndex z) eqn:He; try done. case_decide; [|done]. intros [= <-]. subst.
  assert (0 ≤ z)%Z.
  { unfold ParseUint in Hz. destruct p as [|b p]; [done|]. revert Hz. generalize (b :: p). intros q.
    assert (0 ≤ 0)%Z as H0 by lia. revert H0. generalize 0%Z at 2 3. induction q as [|c q IH]; simpl; intros acc ?.
    { naive_solver. }
    destruct (digit_val c) eqn:Hd; [|done]. simpl. case_decide; [|done]. apply IH.
    apply digit_val_byte in Hd. lia. }
  rewrite Z2Nat.id by done. done.
Qed.

Lemma index_of_inj p q i : index_of p = Some i → index_of q = Some i → p = q.
Proof. intros [_ H1]%index_of_decode [_ H2]%index_of_decode. congruence. Qed.

Lemma keys_ok_map {N} (m : list (bytes * goval N)) :
  keys_ok (GMap m) ↔ NoDup m.*1 ∧ Forall (λ kv, good_key kv.1 ∧ keys_ok kv.2) m.
Proof.
  simpl. assert (foldr (λ '(k, v) P, (k ≠ [] ∧ no_sep k ∧ keys_ok v) ∧ P) True m ↔
                 Forall (λ kv, good_key kv.1 ∧ keys_ok kv.2) m) as ->; [|done].
  unfold good_key. induction m as [|[k v] m IH]; simpl; [by rewrite Forall_nil|].
  rewrite Forall_cons, IH. simpl. tauto.
Qed.

Lemma keys_ok_slice {N} (l : list (goval N)) : keys_ok (GSlice l) ↔ Forall keys_ok l.
Proof. simpl. induction l as [|v l IH]; simpl; [by rewrite Forall_nil|]. by rewrite Forall_cons, IH. Qed.

(** A value whose positions can all be named by keypaths. *)
Definition addressable {N} (v : goval N) : Prop := keys_ok v ∧ indexable v.

Lemma addressable_child {N} (v w : goval N) p :
  addressable v → child v p = Some w → addressable w ∧ good_key p.
Proof.
  intros [Hk Hi]. destruct v as [s|m|l|n]; simpl; try done.
  - apply keys_ok_map in Hk as [Hnd Hk]. apply indexable_map in Hi. intros Hin%assoc_get_elem; [|done].
    rewrite Forall_forall in Hk, Hi. destruct (Hk _ Hin). specialize (Hi _ Hin). split; [split|]; naive_solver.
  - apply keys_ok_slice in Hk. apply indexable_slice in Hi as [Hlen Hi].
    destruct (index_of p) as [i|] eqn:Hp; [|done]. simpl. intros Hw.
    assert (Z.of_nat i < max_index)%Z by (apply lookup_lt_Some in Hw; lia).
    split; [split; eapply Forall_lookup_1; eauto|].
    apply index_of_decode in Hp as [_ He]. by apply (index_of_encode i).
Qed.

Lemma lookup_parts_good {N} (v w : goval N) ps :
  addressable v → lookup_parts v ps = Some w → Forall good_key ps ∧ addressable w.
Proof.
  revert v. induction ps as [|p ps IH]; intros v Hv; simpl; [intros [= <-]; auto|].
  destruct (child v p) as [c|] eqn:Hc; [|done]. simpl. intros Hw.
  destruct (addressable_child v c p Hv Hc) as [Hc' Hp].
  destruct (IH c Hc' Hw). auto.
Qed.

(** The inductive [at_path], which [walkGoValue] enumerates, and [lookup_path] agree. *)
Lemma at_path_lookup_parts {N} k (v : goval N) kp w :
  addressable v → at_path k v kp w → ∃ ps, kp = foldl Push k ps ∧ lookup_parts v ps = Some w.
Proof.
  intros Hv Hp. induction Hp as [| kp m k v kp' w Hin Hp IH | kp l i v e kp' w Hi He Hp IH].
  - by exists [].
  - destruct Hv as [Hk Hi]. pose proof Hk as Hk'. apply keys_ok_map in Hk' as [Hnd _].
    assert (child (GMap m) k = Some v) as Hc by (by apply assoc_get_elem).
    destruct (addressable_child _ _ _ (conj Hk Hi) Hc) as [Hv _].
    destruct (IH Hv) as (ps & -> & Hps). exists (k :: ps). split; [done|].
    cbn [lookup_parts]. by rewrite Hc.
  - pose proof (proj2 Hv) as Hix. apply indexable_slice in Hix as [Hlen _].
    assert (Z.of_nat i < max_index)%Z by (apply lookup_lt_Some in Hi; lia).
    assert (child (GSlice l) e = Some v) as Hc.
    { simpl. by rewrite (proj1 (index_of_encode i e ltac:(done) He)). }
    destruct (addressable_child _ _ _ Hv Hc) as [Hv' _].
    destruct (IH Hv') as (ps & -> & Hps). exists (e :: ps). split; [done|].
    cbn [lookup_parts]. by rewrite Hc.
Qed.

Lemma lookup_parts_at_path {N} k (v : goval N) ps w :
  addressable v → lookup_parts v ps = Some w → at_path k v (foldl Push k ps) w.
Proof.
  revert k v. induction ps as [|p ps IH]; intros k v Hv; simpl; [intros [= ->]; constructor|].
  destruct (child v p) as [c|] eqn:Hc; [|done]. simpl. intros Hw.
  destruct (addressable_child v c p Hv Hc) as [Hc' _]. specialize (IH (Push k p) c Hc' Hw).
  destruct v as [s|m|l|n]; simpl in Hc; try done.
  - apply assoc_get_elem in Hc; [by eapply at_map|]. by destruct Hv as [[? _]%keys_ok_map _].
  - destruct (index_of p) as [i|] eqn:Hp; [|done]. apply index_of_decode in Hp as [_ He].
    by eapply at_slice.
Qed.

Lemma path_parts_pushes k ps : Forall good_key ps → path_parts (foldl Push k ps) = path_parts k ++ ps.
Proof.
  revert k. induction ps as [|p ps IH]; intros k Hps; simpl; [by rewrite app_nil_r|].
  apply Forall_cons in Hps as [Hp Hps]. rewrite IH by done.
  by rewrite path_parts_Push, (path_parts_good p), <- (assoc_L (++)).
Qed.

Lemma at_path_lookup {N} (v : goval N) kp w :
  addressable v → at_path [] v kp w ↔ lookup_path v kp = Some w.
Proof.
  intros Hv. unfold lookup_path. split.
  - intros (ps & -> & Hw)%at_path_lookup_parts; [|done].
    destruct (lookup_parts_good v w ps Hv Hw) as [Hps _]. by rewrite path_parts_pushes.
  - intros Hw. destruct (lookup_parts_good _ _ _ Hv Hw) as [Hps _].
    apply (lookup_parts_at_path []) in Hw; [|done].
    replace kp with (foldl Push [] (path_parts kp)); [done|].
    apply path_parts_inj. by rewrite path_parts_pushes.
Qed.

(** ** [setValueAtKeypath] replaces one position *)

Lemma Shift_join p ps :
  good_key p → Shift (join_sep (p :: ps)) = (p, if decide (ps = []) then None else Some (join_sep ps)).
Proof.
  intros [_ Hp]. unfold Shift. case_decide as Hps.
  - subst. simpl. by rewrite (proj2 (index_byte_None _ _)).
  - rewrite join_sep_cons by done. rewrite index_byte_app by done. rewrite take_app_length.
    by rewrite drop_app_S.
Qed.

(** The container at hand can take a value under the key. *)
Definition fits {N} (c : goval N) (p : bytes) : Prop :=
  match c with
  | GMap _ => True
  | GSlice l => ∃ i, index_of p = Some i ∧ i < length l
  | _ => False
  end.

Lemma assoc_get_set {V} k k' (v : V) m :
  assoc_get k (assoc_set k' v m) = if decide (k = k') then Some v else assoc_get k m.
Proof.
  induction m as [|[x w] m IH]; simpl; [done|].
  destruct (decide (k' = x)) as [->|Hx]; simpl; [by repeat case_decide|].
  rewrite IH. destruct (decide (k = x)) as [->|]; [|done]. by rewrite decide_False.
Qed.

(** Replacing one child of a container. *)
Definition replace_child {N} (c : goval N) (p : bytes) (v : goval N) : goval N :=
  match c with
  | GMap m => GMap (assoc_set p v m)
  | GSlice l => match index_of p with Some i => GSlice (<[i := v]> l) | None => c end
  | c => c
  end.

Lemma child_replace {N} (c v : goval N) p q :
  fits c p → child (replace_child c p v) q = if decide (q = p) then Some v else child c q.
Proof.
  destruct c as [s|m|l|n]; simpl; try done.
  - intros _. apply assoc_get_set.
  - intros (i & Hi & Hl). rewrite Hi. simpl. case_decide as Hq.
    + subst. rewrite Hi. simpl. by apply list_lookup_insert_eq.
    + destruct (index_of q) as [j|] eqn:Hj; [|done]. simpl. apply list_lookup_insert_ne.
      intros <-. by eapply Hq, index_of_inj.
Qed.

Lemma shape_replace {N} (c v : goval N) p : shape_of (replace_child c p v) = shape_of c.
Proof. destruct c; simpl; try done. destruct (index_of p); [|done]. simpl. by rewrite length_insert. Qed.

Lemma child_fits {N} (c w : goval N) p : child c p = Some w → fits c p.
Proof.
  destruct c as [s|m|l|n]; simpl; try done. destruct (index_of p) as [i|] eqn:Hi; [|done].
  simpl. intros H%lookup_lt_Some. eauto.
Qed.

(** One turn of the loop, on a keypath given by its parts. *)
Lemma set_path_last {N} fuel (c val : goval N) p :
  good_key p → fits c p → set_path (S fuel) c (join_sep [p]) val false = Ret (replace_child c p val).
Proof.
  intros Hp Hf. cbn [set_path]. rewrite Shift_join by done. simpl.
  destruct c as [s|m|l|nd]; try done. destruct Hf as (i & Hi & Hl). simpl. rewrite Hi.
  rewrite (proj1 (index_of_decode _ _ Hi)). simpl. rewrite decide_True by lia. by rewrite Nat2Z.id.
Qed.

Lemma set_path_step {N} fuel (c w val w' : goval N) p ps :
  good_key p → ps ≠ [] → child c p = Some w → set_path fuel w (join_sep ps) val false = Ret w' →
  set_path (S fuel) c (join_sep (p :: ps)) val false = Ret (replace_child c p w').
Proof.
  intros Hp Hps Hc Hw. cbn [set_path]. rewrite Shift_join, decide_False by done.
  destruct c as [s|m|l|nd]; simpl in Hc; try done.
  - rewrite Hc, Hw. done.
  - destruct (index_of p) as [i|] eqn:Hi; [|done]. simpl in Hc.
    rewrite (proj1 (index_of_decode _ _ Hi)). simpl. rewrite Nat2Z.id, Hc, Hw. simpl. by rewrite Hi.
Qed.

(** [setValueAtKeypath] puts the value at the keypath and leaves every other position as it
    was; the container that receives it must exist. *)
Lemma set_path_spec {N} fuel (cur c val : goval N) ps p :
  Forall good_key ps → good_key p → length ps < fuel →
  lookup_parts cur ps = Some c → fits c p →
  ∃ cur', set_path fuel cur (join_sep (ps ++ [p])) val false = Ret cur' ∧
    ∀ qs, shape_at cur' qs =
      if decide (ps ++ [p] `prefix_of` qs) then shape_at val (drop (S (length ps)) qs)
      else shape_at cur qs.
Proof.
  revert fuel cur. induction ps as [|q ps IH]; intros fuel cur Hps Hp Hf Hc Hfit.
  - destruct fuel as [|fuel]; [simpl in Hf; lia|]. simplify_eq/=.
    exists (replace_child c p val). split; [by apply (set_path_last fuel)|].
    intros [|x qs]; unfold shape_at; simpl.
    + by rewrite shape_replace.
    + rewrite child_replace by done. case_decide as Hx.
      * subst. rewrite decide_True by (by apply prefix_cons, prefix_nil). by rewrite drop_0.
      * rewrite decide_False; [done|]. intros ?%prefix_cons_inv_1. done.
  - destruct fuel as [|fuel]; [simpl in Hf; lia|]. apply Forall_cons in Hps as [Hq Hps].
    cbn [lookup_parts] in Hc. destruct (child cur q) as [w|] eqn:Hw; [|done]. simpl in Hc.
    destruct (IH fuel w) as (w' & Hset & Hsh); [done..|simpl in Hf; lia|done|done|].
    exists (replace_child cur q w'). split.
    { simpl app. eapply set_path_step; eauto. by destruct ps. }
    pose proof (child_fits _ _ _ Hw) as Hfq.
    intros [|x qs]; unfold shape_at; simpl.
    + by rewrite shape_replace.
    + rewrite child_replace by done. case_decide as Hx.
      * subst. simpl. fold (shape_at w' qs). rewrite Hsh. rewrite Hw. simpl.
        destruct (decide (ps ++ [p] `prefix_of` qs)) as [Hpre|Hpre].
        -- rewrite decide_True by (by apply prefix_cons). done.
        -- rewrite decide_False; [done|]. by intros ?%prefix_cons_inv_2.
      * rewrite decide_False; [done|]. by intros ?%prefix_cons_inv_1.
Qed.

Lemma setValueAtKeypath_spec {N} (cur c val : goval N) ps p :
  Forall good_key ps → good_key p → lookup_parts cur ps = Some c → fits c p →
  ∃ cur', setValueAtKeypath cur (join_sep (ps ++ [p])) val false = Ret cur' ∧
    ∀ qs, shape_at cur' qs =
      if decide (ps ++ [p] `prefix_of` qs) then shape_at val (drop (S (length ps)) qs)
      else shape_at cur qs.
Proof.
  intros Hps Hp Hc Hfit. unfold setValueAtKeypath.
  assert (Forall good_key (ps ++ [p])) as Hall by (apply Forall_app; auto).
  assert (join_sep (ps ++ [p]) ≠ []) as Hne by (apply join_nonempty; [by destruct ps|done]).
  rewrite decide_False by (by destruct (join_sep _)).
  eapply set_path_spec; eauto. rewrite NumParts_length by done.
  rewrite <- (path_parts_cons _ Hne), path_parts_join by done. rewrite length_app. simpl. lia.
Qed.

(** ** [walkGoValue] visits each position once *)

Lemma at_path_below {N} k (v : goval N) kp w :
  at_path k v kp w → StartsWith kp k = true.
Proof.
  induction 1; [apply StartsWith_refl|..];
    (eapply StartsWith_trans; [eassumption|apply StartsWith_Push]).
Qed.

(** Keypaths none of which lies below another. *)
Definition incomparable (ks : list Keypath) : Prop :=
  NoDup ks ∧ ∀ k k', k ∈ ks → k' ∈ ks → k ≠ k' → StartsWith k' k = false.

Lemma slice_children_keys {N} k i (l : list (goval N)) ch :
  (Z.of_nat (i + length l) ≤ max_index)%Z → slice_children k i l = Ret ch →
  ∃ ps, ch.*1 = Push k <$> ps ∧ ch.*2 = l ∧ NoDup ps ∧ Forall good_key ps ∧
    ∀ p, p ∈ ps → ∃ j, i ≤ j ∧ index_of p = Some j.
Proof.
  revert i ch. induction l as [|v l IH]; intros i ch Hi; simpl.
  { intros [= <-]. exists []. split_and!; [done|done|constructor|constructor|set_solver]. }
  destruct (EncodeSliceIndex (Z.of_nat i)) as [e| | |] eqn:He; try done. simpl.
  destruct (slice_children k (i + 1) l) as [r| | |] eqn:Hr; try done. simpl. intros [= <-].
  simpl in Hi. destruct (IH (i + 1) r) as (ps & Hk & Hl & Hnd & Hg & Hps); [lia|done|].
  destruct (index_of_encode i e) as [Hie Hge]; [lia|done|].
  exists (e :: ps). rewrite !fmap_cons, Hk, Hl. split_and!; [done|done| |by constructor|].
  - constructor; [|done]. intros (j & ? & ?)%Hps. assert (i = j) by congruence. lia.
  - intros p [->|Hp]%elem_of_cons; [by exists i|].
    destruct (Hps p Hp) as (j & ? & ?). exists j. split; [lia|done].
Qed.

Lemma children_keys {N} k (v : goval N) ch :
  addressable v → children k v = Ret ch →
  ∃ ps, ch.*1 = Push k <$> ps ∧ NoDup ps ∧ Forall good_key ps ∧ Forall (λ kv, addressable kv.2) ch.
Proof.
  intros Hv. destruct v as [s|m|l|n]; simpl; try (intros [= <-]; exists []; split_and!; by constructor).
  - intros [= <-]. exists m.*1. destruct Hv as [[Hnd Hk]%keys_ok_map Hi%indexable_map]. split_and!; [|done|..].
    + rewrite <- !list_fmap_compose. apply list_fmap_ext. by intros ? [].
    + apply Forall_fmap. eapply Forall_impl; [exact Hk|]. intros [??] H. apply H.
    + apply Forall_fmap. rewrite Forall_forall in *. intros [p w] Hin.
      specialize (Hk _ Hin). specialize (Hi _ Hin). split; simpl in *; tauto.
  - intros Hch. destruct Hv as [Hk%keys_ok_slice [Hlen Hi]%indexable_slice].
    destruct (slice_children_keys k 0 l ch Hlen Hch) as (ps & Hps & Hl & Hnd & Hg & _).
    exists ps. split_and!; [done..|].
    apply Forall_forall. intros kv Hin. apply (list_elem_of_fmap_2 snd) in Hin. rewrite Hl in Hin.
    rewrite Forall_forall in Hk, Hi. split; auto.
Qed.

(** Replacing a keypath by its children keeps a list incomparable. *)
Lemma incomparable_children k q ps :
  incomparable (k :: q) → NoDup ps → Forall good_key ps → incomparable (q ++ (Push k <$> ps)).
Proof.
  intros [[Hk Hnd]%NoDup_cons Hinc] Hps Hg. rewrite Forall_forall in Hg.
  assert (∀ p, p ∈ ps → path_parts (Push k p) = path_parts k ++ [p]) as Hpp.
  { intros p Hp. by rewrite path_parts_Push, (path_parts_good p) by auto. }
  assert (∀ x, x ∈ q → StartsWith k x = false ∧ StartsWith x k = false) as Hq.
  { intros x Hx. split; apply Hinc; set_solver. }
  assert (∀ x p, x ∈ q → p ∈ ps → StartsWith (Push k p) x = false ∧ StartsWith x (Push k p) = false) as Hcross.
  { intros x p Hx Hp. destruct (Hq x Hx) as [Hq1 Hq2].
    rewrite <- !not_true_iff_false, !StartsWith_prefix, !Hpp in * by done. split.
    - intros H. destruct (prefix_weak_total _ (path_parts k) _ H ltac:(by apply prefix_app_r)); auto.
    - intros H. apply Hq2. by eapply prefix_app_l. }
  assert (∀ p p', p ∈ ps → p' ∈ ps → p ≠ p' → StartsWith (Push k p') (Push k p) = false) as Hch.
  { intros p p' Hp Hp' Hne. rewrite <- not_true_iff_false, StartsWith_prefix, !Hpp by done.
    intros H%prefix_app_inv%prefix_cons_inv_1. done. }
  split.
  - apply NoDup_app. split_and!; [done| |].
    + intros x Hx (p & -> & Hp)%list_elem_of_fmap. destruct (Hcross _ _ Hx Hp) as [H _].
      by rewrite StartsWith_refl in H.
    + apply NoDup_fmap_2; [|done]. intros p p'. apply Push_inj.
  - intros x y [Hx|(p & -> & Hp)%list_elem_of_fmap]%elem_of_app [Hy|(p' & -> & Hp')%list_elem_of_fmap]%elem_of_app Hne.
    + apply Hinc; set_solver.
    + by apply Hcross.
    + by apply Hcross.
    + apply Hch; [done|done|]. by intros ->.
Qed.

Lemma walk_loop_positions {N} fuel (q : list (Keypath * goval N)) :
  queue_size q ≤ fuel → Forall (λ kv, addressable kv.2) q → incomparable q.*1 →
  ∃ vs, NoDup vs.*1 ∧
    (∀ kp w, (kp, w) ∈ vs ↔ ∃ k x, (k, x) ∈ q ∧ at_path k x kp w) ∧
    ∀ S (fn : S → Keypath → goval N → outcome S) s,
      walk_loop fn fuel q s = fold_outcome (λ s kv, fn s kv.1 kv.2) s vs.
Proof.
  revert q. induction fuel as [|fuel IH]; intros q Hf Hq Hinc; destruct q as [|[k v] q];
    try (exists []; split_and!; [constructor| |done]; set_solver).
  { simpl in Hf. pose proof (goval_size_pos v). lia. }
  simpl in Hf. apply Forall_cons in Hq as [Hv Hq]. simpl in Hv.
  destruct (children_spec k v (proj2 Hv)) as (ch & Hch & Hs & _ & Hat).
  destruct (children_keys k v ch Hv Hch) as (ps & Hps & Hnd & Hg & Hca).
  rewrite fmap_cons in Hinc. simpl in Hinc.
  destruct (IH (q ++ ch)) as (vs & Hvnd & Hvs & Hw).
  { rewrite queue_size_app. lia. }
  { by apply Forall_app. }
  { rewrite fmap_app, Hps. by apply incomparable_children. }
  exists ((k, v) :: vs). split_and!.
  - rewrite fmap_cons. constructor; [|done].
    intros ([kp w] & Hkp & Hin)%list_elem_of_fmap. simpl in Hkp. subst kp.
    apply Hvs in Hin as (k' & x & Hin & Hb%at_path_below).
    pose proof (incomparable_children k q.*1 ps Hinc Hnd Hg) as [_ Hi'].
    apply elem_of_app in Hin as [Hin|Hin]; apply (list_elem_of_fmap_2 fst) in Hin; simpl in Hin.
    + destruct Hinc as [[Hk _]%NoDup_cons Hi]. assert (k' ≠ k) by (by intros ->).
      rewrite Hi in Hb; [done|set_solver..].
    + rewrite Hps in Hin. apply list_elem_of_fmap in Hin as (p & -> & Hp).
      rewrite Forall_forall in Hg. specialize (Hg p Hp).
      rewrite StartsWith_prefix, path_parts_Push, (path_parts_good p Hg) in Hb.
      by apply prefix_snoc_not in Hb.
  - intros kp w. rewrite elem_of_cons, Hvs. setoid_rewrite elem_of_cons. setoid_rewrite elem_of_app. split.
    + intros [[= -> ->]|(k' & x & [H|H] & Hp)].
      * exists k, v. split; [auto|constructor].
      * eauto.
      * exists k, v. split; [auto|]. apply Hat. eauto.
    + intros (k' & x & [[= -> ->]|H] & Hp); [|eauto 10].
      apply Hat in Hp as [?|(k2 & x2 & ? & ?)]; [auto|eauto 10].
  - intros S fn s. simpl. rewrite Hch. destruct (fn s k v); simpl; auto.
Qed.

(** [walkGoValue] folds its callback over the positions of the value, each once. *)
Lemma walkGoValue_positions {N} (v : goval N) :
  addressable v →
  ∃ vs, NoDup vs.*1 ∧ (∀ kp w, (kp, w) ∈ vs ↔ lookup_path v kp = Some w) ∧
    ∀ S (fn : S → Keypath → goval N → outcome S) s,
      walkGoValue v fn s = fold_outcome (λ s kv, fn s kv.1 kv.2) s vs.
Proof.
  intros Hv. destruct (walk_loop_positions (goval_size v) [([], v)]) as (vs & Hnd & Hvs & Hw).
  - simpl. lia.
  - constructor; [done|constructor].
  - split; [simpl; apply NoDup_singleton|]. set_solver.
  - exists vs. split_and!; [done| |exact Hw]. intros kp w. rewrite Hvs, <- at_path_lookup by done.
    setoid_rewrite list_elem_of_singleton. split; [by intros (? & ? & [= -> ->] & ?)|eauto].
Qed.
