(* ===== verification/Assemble.v ===== *)
(** * Rebuilding a value from its positions

    Both trees read a value by starting from an empty container and inserting, in the byte
    order of their keypaths, the values of the positions below it, containers as empty
    ones.  Ancestors come before their descendants in that order, so every insertion finds
    its container, and the result has the same shape at every position as the value that
    was stored. *)

From S2P Require Import Prelude Keypath TreeTypes GoValue GoPaths.

(** A value with its children left out: what a scan starts from. *)
Definition hollow {N} (w : goval N) : goval N :=
  match w with
  | GMap _ => GMap []
  | GSlice l => GSlice (replicate (length l) (GScalar SNil))
  | w => w
  end.

Lemma hollow_shape {N} (w : goval N) : shape_of (hollow w) = shape_of w.
Proof. destruct w; simpl; [done..|by rewrite length_replicate|done]. Qed.

Lemma hollow_below {N} (w : goval N) ps :
  ps ≠ [] → shape_at (hollow w) ps = None ∨
    (shape_at (hollow w) ps = Some (ShScalar SNil) ∧ is_Some (lookup_parts w ps)).
Proof.
  destruct ps as [|p ps]; [done|]. intros _. unfold shape_at. destruct w as [s|m|l|nd]; simpl; [by left|by left| |by left].
  destruct (index_of p) as [i|]; simpl; [|by left].
  destruct (decide (i < length l)) as [Hi|Hi].
  - rewrite lookup_replicate_2 by done. simpl. destruct ps as [|q ps]; simpl; [|by left].
    destruct (lookup_lt_is_Some_2 l i Hi) as [x ->]. right. split; [done|]. by eexists.
  - rewrite lookup_ge_None_2 by (rewrite length_replicate; lia). by left.
Qed.

Section Assemble.
Context {N : Type} (p : Keypath) (v : goval N) (run : list Keypath).
Context (Hsorted : StronglySorted bytes_lt run).
Context (Hrun : ∀ k, k ∈ run ↔ ∃ ps, Forall good_key ps ∧ k = Push p (join_sep ps) ∧ is_Some (lookup_parts v ps)).
Context (Hv : ∀ ps w, lookup_parts v ps = Some w → Forall good_key ps).

Lemma join_inj ps qs :
  Forall good_key ps → Forall good_key qs → Push p (join_sep ps) = Push p (join_sep qs) → ps = qs.
Proof.
  intros Hp Hq Heq%Push_inj%(f_equal path_parts). by rewrite !path_parts_join in Heq.
Qed.

Lemma run_elem ps :
  Forall good_key ps → Push p (join_sep ps) ∈ run ↔ is_Some (lookup_parts v ps).
Proof using Hrun.
  intros Hg. rewrite Hrun. split.
  - intros (qs & Hq & Heq & Hs). apply join_inj in Heq; [|done..]. by subst.
  - intros Hs. eauto.
Qed.

(** What has been filled in when the keypaths of [dn] have been scanned. *)
Definition filled (dn : list Keypath) (m : goval N) : Prop :=
  ∀ ps, if decide (ps = [] ∨ Forall good_key ps ∧ Push p (join_sep ps) ∈ dn)
        then shape_at m ps = shape_at v ps
        else shape_at m ps = None ∨
             (shape_at m ps = Some (ShScalar SNil) ∧ is_Some (lookup_parts v ps)).

Lemma filled_start : filled [] (hollow v).
Proof.
  intros ps. case_decide as Hd.
  - destruct Hd as [->|[_ Hin]]; [|by apply elem_of_nil in Hin]. unfold shape_at. simpl. by rewrite hollow_shape.
  - apply hollow_below. tauto.
Qed.

Lemma filled_end m : filled run m → goval_equiv m v.
Proof using Hrun Hv.
  intros Hf ps. specialize (Hf ps). case_decide as Hd; [done|].
  destruct (lookup_parts v ps) as [w|] eqn:Hw.
  - destruct Hd. right. pose proof (Hv ps w Hw) as Hg. split; [done|].
    apply run_elem; [done|]. by rewrite Hw.
  - unfold shape_at at 2. rewrite Hw. simpl. destruct Hf as [?|[_ [? ?]]]; done.
Qed.

Lemma prefix_le ps qs :
  Forall good_key qs → ps `prefix_of` qs → bytes_le (Push p (join_sep ps)) (Push p (join_sep qs)).
Proof.
  intros Hg [rest ->]. apply StartsWith_le. apply Forall_app in Hg as [Hg1 Hg2]. rewrite StartsWith_prefix.
  rewrite !path_parts_Push, !path_parts_join by (by try apply Forall_app). apply prefix_app, prefix_app_r. done.
Qed.

(** A container with a child can take the child. *)
Lemma shape_fits (c d : goval N) q w : shape_of c = shape_of d → child d q = Some w → fits c q.
Proof.
  destruct c as [|m|l|nd], d as [|m'|l'|nd']; simpl; try done. intros [= Hl].
  destruct (index_of q) as [i|]; simpl; [|done]. intros Hi%lookup_lt_Some. exists i. split; [done|lia].
Qed.

(** A keypath is scanned after its ancestors and before everything below it. *)
Lemma run_order dn ps todo qs :
  run = dn ++ Push p (join_sep ps) :: todo → Forall good_key ps → Forall good_key qs →
  (qs `prefix_of` ps → qs ≠ ps → Push p (join_sep qs) ∉ todo) ∧
  (ps `prefix_of` qs → Push p (join_sep qs) ∉ dn).
Proof using Hsorted Hrun Hv.
  intros Heqrun Hps Hqs. pose proof Hsorted as Hs. rewrite Heqrun in Hs.
  apply StronglySorted_app in Hs as (Hdn & _ & Hs). apply StronglySorted_inv in Hs as [_ Htodo].
  rewrite Forall_forall in Htodo. split.
  - intros Hpre Hne Hin%Htodo. pose proof (prefix_le qs ps Hps Hpre) as [Hlt|Heq]%bytes_le_lt_eq.
    + eapply bytes_lt_irrefl. by etrans.
    + rewrite Heq in Hin. by apply bytes_lt_irrefl in Hin.
  - intros Hpre Hin. assert (bytes_lt (Push p (join_sep qs)) (Push p (join_sep ps))) as Hlt by (apply Hdn; set_solver).
    pose proof (prefix_le ps qs Hqs Hpre) as [Hlt2|Heq]%bytes_le_lt_eq.
    + eapply bytes_lt_irrefl. by etrans.
    + rewrite Heq in Hlt. by apply bytes_lt_irrefl in Hlt.
Qed.

(** The container that receives a value has been filled in. *)
Lemma parent_filled dn qs q todo m d w :
  run = dn ++ Push p (join_sep (qs ++ [q])) :: todo → filled dn m → Forall good_key (qs ++ [q]) →
  lookup_parts v qs = Some d → child d q = Some w →
  ∃ c, lookup_parts m qs = Some c ∧ fits c q.
Proof using Hsorted Hrun Hv.
  intros Heqrun Hf Hg Hd Hdq. assert (Hg' := Hg). apply Forall_app in Hg' as [Hgq _].
  specialize (Hf qs). rewrite decide_True in Hf.
  - unfold shape_at in Hf. rewrite Hd in Hf. destruct (lookup_parts m qs) as [c|]; [|done].
    exists c. split; [done|]. injection Hf as Hf. by eapply shape_fits.
  - right. split; [done|]. assert (Push p (join_sep qs) ∈ run) as Hin by (apply run_elem; [done|by rewrite Hd]).
    rewrite Heqrun in Hin. apply elem_of_app in Hin as [?|[Heq|Hin]%elem_of_cons]; [done|..]; exfalso.
    + apply join_inj in Heq; [|done..]. apply (f_equal length) in Heq. rewrite length_app in Heq. simpl in Heq. lia.
    + destruct (run_order dn (qs ++ [q]) todo qs Heqrun Hg Hgq) as [Ho _]. apply Ho in Hin; [done|by apply prefix_app_r|].
      intros Heq. apply (f_equal length) in Heq. rewrite length_app in Heq. simpl in Heq. lia.
Qed.

Lemma filled_root dn m : filled dn m → filled (dn ++ [p]) m.
Proof using Type.
  clear Hsorted Hrun Hv.
  intros Hf qs. specialize (Hf qs). revert Hf.
  destruct (decide (qs = [] ∨ Forall good_key qs ∧ Push p (join_sep qs) ∈ dn)) as [Hd|Hd].
  - rewrite decide_True by set_solver. done.
  - rewrite decide_False; [done|]. rewrite elem_of_app, list_elem_of_singleton.
    intros [?|[Hq [?|Heq]]]; [tauto..|]. apply Hd. left.
    apply (join_inj qs []); [done|constructor|]. simpl. by rewrite Push_nil_r.
Qed.

(** One insertion. *)
Lemma filled_step dn ps todo m w :
  run = dn ++ Push p (join_sep ps) :: todo → filled dn m →
  Forall good_key ps → ps ≠ [] → lookup_parts v ps = Some w →
  ∃ m', setValueAtKeypath m (join_sep ps) (hollow w) false = Ret m' ∧ filled (dn ++ [Push p (join_sep ps)]) m'.
Proof using Hsorted Hrun Hv.
  intros Heqrun Hf Hg Hne Hw.
  destruct (exists_last Hne) as (qs & q & ->). clear Hne.
  assert (Hw' := Hw). rewrite lookup_parts_app in Hw'.
  destruct (lookup_parts v qs) as [d|] eqn:Hd; [|done]. simpl in Hw'.
  destruct (child d q) as [x|] eqn:Hdq; [|done]. simpl in Hw'. injection Hw' as ->.
  destruct (parent_filled dn qs q todo m d w) as (c & Hc & Hfit); [done..|].
  assert (Hg' := Hg). apply Forall_app in Hg' as [Hgq [Hq _]%Forall_cons].
  destruct (setValueAtKeypath_spec m c (hollow w) qs q Hgq Hq Hc Hfit) as (m' & -> & Hm').
  exists m'. split; [done|]. intros rs. rewrite Hm'. specialize (Hf rs).
  destruct (decide (qs ++ [q] `prefix_of` rs)) as [[rest ->]|Hnp].
  - replace (drop (S (length qs)) ((qs ++ [q]) ++ rest)) with rest
      by (replace (S (length qs)) with (length (qs ++ [q])) by (rewrite length_app; simpl; lia); by rewrite drop_app_length).
    destruct (decide (rest = [])) as [->|Hr].
    + rewrite app_nil_r, decide_True by (right; split; [done|set_solver]).
      unfold shape_at. rewrite Hw. simpl. by rewrite hollow_shape.
    + rewrite decide_False; [unfold shape_at at 1 2; rewrite lookup_parts_app, Hw; by apply hollow_below|].
      intros [[_ ?]%app_nil|[Hgr Hin]]; [done|].
      apply elem_of_app in Hin as [Hin|Heq%list_elem_of_singleton].
      * destruct (run_order dn (qs ++ [q]) todo _ Heqrun Hg Hgr) as [_ Ho]. apply Ho in Hin; [done|by apply prefix_app_r].
      * apply join_inj in Heq; [|done..]. rewrite <- (app_nil_r (qs ++ [q])) in Heq at 2. by apply (inj _) in Heq.
  - destruct (decide (rs = [] ∨ Forall good_key rs ∧ Push p (join_sep rs) ∈ dn)) as [Hdn|Hdn].
    + rewrite decide_True by set_solver. done.
    + rewrite decide_False; [done|]. rewrite elem_of_app, list_elem_of_singleton.
      intros [?|[Hgr [?|Heq]]]; [tauto..|]. apply Hnp. apply join_inj in Heq; [|done..]. by subst.
Qed.

(** The whole run, for any scanning step that inserts what is stored at a position. *)
Context {S : Type} (step : S → Keypath → outcome S) (built : S → goval N).
Context (Hroot : ∀ s, ∃ s', step s p = Ret s' ∧ built s' = built s).
Context (Hstep : ∀ s ps w m, Forall good_key ps → ps ≠ [] → lookup_parts v ps = Some w →
  setValueAtKeypath (built s) (join_sep ps) (hollow w) false = Ret m →
  ∃ s', step s (Push p (join_sep ps)) = Ret s' ∧ built s' = m).

Lemma assemble_run dn todo s :
  run = dn ++ todo → filled dn (built s) →
  ∃ s', fold_outcome step s todo = Ret s' ∧ goval_equiv (built s') v.
Proof using Hsorted Hrun Hv Hroot Hstep.
  revert dn s. induction todo as [|k todo IH]; intros dn s Heqrun Hf.
  { rewrite app_nil_r in Heqrun. exists s. split; [done|]. apply filled_end. by rewrite Heqrun. }
  assert (k ∈ run) as (ps & Hg & -> & [w Hw])%Hrun by (rewrite Heqrun; set_solver).
  assert (∃ s', step s (Push p (join_sep ps)) = Ret s' ∧ filled (dn ++ [Push p (join_sep ps)]) (built s')) as (s1 & Hs1 & Hf1).
  { destruct (decide (ps = [])) as [->|Hne].
    - simpl. rewrite Push_nil_r. destruct (Hroot s) as (s' & Hs' & Hb). exists s'. split; [done|].
      rewrite Hb. by apply filled_root.
    - destruct (filled_step dn ps todo (built s) w) as (m & Hm & Hfm); [done..|].
      destruct (Hstep s ps w m Hg Hne Hw Hm) as (s' & Hs' & <-). eauto. }
  cbn [fold_outcome]. rewrite Hs1. cbn [obind]. apply (IH (dn ++ [Push p (join_sep ps)])); [|done].
  by rewrite <- (assoc_L (++)).
Qed.
End Assemble.
