(* ===== verification/NodeCodec.v ===== *)
(** * The stored form of a node ([encodeNode], [decodeNode] and friends of
      [tree/tree.badger.go])

    A node of a database tree is stored as a tag byte followed by its payload: [m] or [s]
    and the eight-byte length of a map or slice, or [v], a type letter and the value.
    Decoding a stored node and then its value gives the value back; the maps and slices
    come back as empty containers of the stored length, to be filled by the caller.

    [StructFields] stands for the field count that reflection reports for a node of another
    tree passed to [encodeGoValue]; plain values have no such nodes. *)

From S2P Require Import Prelude Keypath TreeTypes GoValue.

Class StructFields (N : Type) := num_fields : N → Z.
#[export] Instance StructFields_Empty : StructFields Empty_set := λ n, match n with end.

Definition toInt64 (val : scalar) : outcome Z :=
  match val with
  | SInt K32 v | SInt K16 v | SInt K8 v | SInt KInt v => Ret v
  | _ => Panic
  end.

Definition toUint64 (val : scalar) : outcome Z :=
  match val with
  | SUint K32 v | SUint K16 v | SUint K8 v | SUint KInt v => Ret v
  | _ => Panic
  end.

(** A stored node of the given kind; [value] is nil for maps and slices. *)
Definition encodeNode (nodeType : NodeType) (valueType : ValueType) (length : Z) (value : scalar) :
    outcome bytes :=
  match nodeType with
  | NodeTypeMap => Ret (str "m" ++ EncodeSliceLen length)
  | NodeTypeSlice => Ret (str "s" ++ EncodeSliceLen length)
  | NodeTypeValue =>
      match valueType with
      | ValueTypeBool =>
          if decide (value = SBool true) then Ret (str "vb" ++ [byte_of_Z 1])
          else Ret (str "vb" ++ [byte_of_Z 0])
      | ValueTypeUint =>
          let! v := match value with SUint K64 v => Ret v | _ => toUint64 value end in
          Ret (str "vu" ++ le_bytes 8 v)
      | ValueTypeInt =>
          let! v := match value with SInt K64 v => Ret v | _ => toInt64 value end in
          Ret (str "vi" ++ le_bytes 8 (u64 v))
      | ValueTypeFloat =>
          match value with
          | SFloat bits => Ret (str "vf" ++ le_bytes 8 bits)
          | _ => Panic
          end
      | ValueTypeString =>
          match value with SString v => Ret (str "vs" ++ v) | _ => Panic end
      | ValueTypeBytes =>
          match value with SBytes v => Ret (str "vz" ++ v) | _ => Panic end
      | ValueTypeNil => Ret (str "v0")
      | ValueTypeInvalid => Err ErrNodeEncoding
      end
  | NodeTypeInvalid | NodeTypeNode => Err ErrNodeEncoding
  end.

Definition encodeGoValue {N} `{StructFields N} (nodeValue : goval N) : outcome bytes :=
  match nodeValue with
  | GMap nv => encodeNode NodeTypeMap ValueTypeInvalid (Z.of_nat (length nv)) SNil
  | GSlice nv => encodeNode NodeTypeSlice ValueTypeInvalid (Z.of_nat (length nv)) SNil
  | GScalar (SBool b) => encodeNode NodeTypeValue ValueTypeBool 0 (SBool b)
  | GScalar (SUint k v) => encodeNode NodeTypeValue ValueTypeUint 0 (SUint k v)
  | GScalar (SInt k v) => encodeNode NodeTypeValue ValueTypeInt 0 (SInt k v)
  | GScalar (SFloat v) => encodeNode NodeTypeValue ValueTypeFloat 0 (SFloat v)
  | GScalar (SString v) => encodeNode NodeTypeValue ValueTypeString 0 (SString v)
  | GScalar (SBytes v) => encodeNode NodeTypeValue ValueTypeBytes 0 (SBytes v)
  | GScalar SNil => encodeNode NodeTypeValue ValueTypeNil 0 SNil
  | GNode n => encodeNode NodeTypeMap ValueTypeInvalid (num_fields n) SNil
  end.

(** What [decodeNode] returns. *)
Record decoded := mkDecoded {
  dn_nodeType : NodeType;
  dn_valueType : ValueType;
  dn_length : Z;
  dn_data : bytes
}.

Definition decodeNode (val : bytes) : outcome decoded :=
  match val with
  | [] => Err ErrNodeEncoding
  | c :: rest =>
      if decide (c = "m"%byte) then
        let! len := DecodeSliceLen rest in Ret (mkDecoded NodeTypeMap ValueTypeInvalid len [])
      else if decide (c = "s"%byte) then
        let! len := DecodeSliceLen rest in Ret (mkDecoded NodeTypeSlice ValueTypeInvalid len [])
      else if decide (c = "v"%byte) then
        match rest with
        | [] => Panic
        | t :: data =>
            if decide (t = "b"%byte) then Ret (mkDecoded NodeTypeValue ValueTypeBool 0 data)
            else if decide (t = "u"%byte) then Ret (mkDecoded NodeTypeValue ValueTypeUint 0 data)
            else if decide (t = "i"%byte) then Ret (mkDecoded NodeTypeValue ValueTypeInt 0 data)
            else if decide (t = "f"%byte) then Ret (mkDecoded NodeTypeValue ValueTypeFloat 0 data)
            else if decide (t = "s"%byte) then
              Ret (mkDecoded NodeTypeValue ValueTypeString (Z.of_nat (length data)) data)
            else if decide (t = "z"%byte) then
              Ret (mkDecoded NodeTypeValue ValueTypeBytes (Z.of_nat (length data)) data)
            else if decide (t = "0"%byte) then Ret (mkDecoded NodeTypeValue ValueTypeNil 0 [])
            else Err ErrNodeEncoding
        end
      else Err ErrNodeEncoding
  end.

(** [binary.Read] of eight bytes: an error, not a panic, when they are missing. *)
Definition read8 (data : bytes) : outcome Z :=
  if decide (8 ≤ length data) then Ret (le_value (take 8 data)) else Err (ErrOther "EOF").

(** The length a range leaves, [None] when the range does not fit. *)
Definition ranged_length (length : Z) (rng : option Range) : outcome Z :=
  match rng with
  | None => Ret length
  | Some r => if negb (ValidForLength r length) then Err ErrInvalidRange else Ret (Range_Size r)
  end.

Definition no_range {A} (rng : option Range) (k : outcome A) : outcome A :=
  match rng with Some _ => Err ErrRangeOverNonSlice | None => k end.

(** The part of the data a range selects. *)
Definition ranged_data (length : Z) (rng : option Range) (data : bytes) : outcome bytes :=
  match rng with
  | None => Ret data
  | Some r =>
      if negb (ValidForLength r length) then Err ErrInvalidRange
      else let '(startIdx, endIdx) := IndicesForLength r length in slice data startIdx endIdx
  end.

Definition decodeGoValue (nodeType : NodeType) (valueType : ValueType) (length : Z)
    (rng : option Range) (data : bytes) : outcome plain :=
  match nodeType with
  | NodeTypeMap => let! _ := ranged_length length rng in Ret (GMap [])
  | NodeTypeSlice =>
      let! len := ranged_length length rng in
      Ret (GSlice (replicate (Z.to_nat len) (GScalar SNil)))
  | NodeTypeValue =>
      match valueType with
      | ValueTypeBool =>
          no_range rng
            (match data with
             | [] => Panic
             | d :: _ => Ret (GScalar (SBool (bool_decide (d = byte_of_Z 1))))
             end)
      | ValueTypeUint =>
          no_range rng (let! v := DecodeSliceLen data in Ret (GScalar (SUint K64 v)))
      | ValueTypeInt =>
          no_range rng (let! v := read8 data in Ret (GScalar (SInt K64 (i64 v))))
      | ValueTypeFloat =>
          no_range rng (let! v := read8 data in Ret (GScalar (SFloat v)))
      | ValueTypeString => let! d := ranged_data length rng data in Ret (GScalar (SString d))
      | ValueTypeBytes => let! d := ranged_data length rng data in Ret (GScalar (SBytes d))
      | ValueTypeNil => Ret (GScalar SNil)
      | ValueTypeInvalid => Err ErrNodeEncoding
      end
  | NodeTypeInvalid | NodeTypeNode => Err ErrNodeEncoding
  end.

(** Decode a stored node and its value in one go, as the callers do. *)
Definition decodeStored (val : bytes) (rng : option Range) : outcome plain :=
  let! d := decodeNode val in
  decodeGoValue (dn_nodeType d) (dn_valueType d) (dn_length d) rng (dn_data d).

(** ** Theorems *)

(** The machine values a scalar can hold. *)
Definition scalar_wf (s : scalar) : Prop :=
  match s with
  | SUint _ z => is_u64 z
  | SInt _ z => is_i64 z
  | SFloat b => is_u64 b
  | _ => True
  end.

(** What a scalar becomes after a round trip: integers come back as 64-bit ones. *)
Definition widen (s : scalar) : scalar :=
  match s with SUint _ z => SUint K64 z | SInt _ z => SInt K64 z | s => s end.

(** The container or value a stored node denotes before its children are filled in. *)
Definition shallow {N} (v : goval N) : plain :=
  match v with
  | GScalar s => GScalar (widen s)
  | GMap _ => GMap []
  | GSlice l => GSlice (replicate (length l) (GScalar SNil))
  | GNode _ => GMap []
  end.

Lemma take_le_bytes x : take 8 (le_bytes 8 x) = le_bytes 8 x.
Proof. apply take_ge. by rewrite length_le_bytes. Qed.

Lemma decode_le8 x : is_u64 x → DecodeSliceLen (le_bytes 8 x) = Ret x.
Proof. apply DecodeEncodeSliceLen. Qed.

Lemma read8_le8 x : is_u64 x → read8 (le_bytes 8 x) = Ret x.
Proof.
  intros Hx. pose proof (decode_le8 x Hx) as H. unfold DecodeSliceLen, read8 in *.
  by destruct (decide _).
Qed.

Lemma is_u64_length {A} (l : list A) : (Z.of_nat (length l) < two64)%Z → is_u64 (Z.of_nat (length l)).
Proof. unfold is_u64. lia. Qed.

(** Decoding by tag, for any payload. *)
Lemma decodeStored_uint d :
  decodeStored (str "vu" ++ d) None = let! v := DecodeSliceLen d in Ret (GScalar (SUint K64 v)).
Proof. done. Qed.
Lemma decodeStored_int d :
  decodeStored (str "vi" ++ d) None = let! v := read8 d in Ret (GScalar (SInt K64 (i64 v))).
Proof. done. Qed.
Lemma decodeStored_float d :
  decodeStored (str "vf" ++ d) None = let! v := read8 d in Ret (GScalar (SFloat v)).
Proof. done. Qed.
Lemma decodeStored_map d len :
  DecodeSliceLen d = Ret len → decodeStored (str "m" ++ d) None = Ret (GMap []).
Proof. intros H. unfold decodeStored. simpl. by rewrite H. Qed.
Lemma decodeStored_slice d len :
  DecodeSliceLen d = Ret len →
  decodeStored (str "s" ++ d) None = Ret (GSlice (replicate (Z.to_nat len) (GScalar SNil))).
Proof. intros H. unfold decodeStored. simpl. by rewrite H. Qed.

Lemma decodeStored_string d rng :
  decodeStored (str "vs" ++ d) rng =
  let! p := ranged_data (Z.of_nat (length d)) rng d in Ret (GScalar (SString p)).
Proof. done. Qed.
Lemma decodeStored_bytes d rng :
  decodeStored (str "vz" ++ d) rng =
  let! p := ranged_data (Z.of_nat (length d)) rng d in Ret (GScalar (SBytes p)).
Proof. done. Qed.

(** A value that fits the machine types, looking at its top only. *)
Definition machine_fits {N} (v : goval N) : Prop :=
  match v with
  | GScalar s => scalar_wf s
  | GMap m => (Z.of_nat (length m) < two64)%Z
  | GSlice l => (Z.of_nat (length l) < two64)%Z
  | GNode _ => True
  end.

Lemma encode_decode (v : plain) :
  machine_fits v → ∃ b, encodeGoValue v = Ret b ∧ decodeStored b None = Ret (shallow v).
Proof.
  destruct v as [[| b | k z | k z | z | s | s]|m|l|[]]; intros Hwf; simpl in *; simpl.
  - eexists. split; [done|]. done.
  - destruct b; (eexists; split; [done|]); done.
  - exists (str "vu" ++ le_bytes 8 z). split; [by destruct k|].
    by rewrite decodeStored_uint, decode_le8.
  - exists (str "vi" ++ le_bytes 8 (u64 z)). split; [by destruct k|].
    rewrite decodeStored_int, read8_le8 by apply u64_range. cbn [obind].
    by rewrite i64_u64, i64_id.
  - exists (str "vf" ++ le_bytes 8 z). split; [done|]. by rewrite decodeStored_float, read8_le8.
  - eexists. split; [done|]. done.
  - eexists. split; [done|]. done.
  - exists (str "m" ++ EncodeSliceLen (Z.of_nat (length m))). split; [done|].
    eapply decodeStored_map, DecodeEncodeSliceLen. by apply is_u64_length.
  - exists (str "s" ++ EncodeSliceLen (Z.of_nat (length l))). split; [done|].
    erewrite decodeStored_slice by (apply DecodeEncodeSliceLen; by apply is_u64_length).
    by rewrite Nat2Z.id.
Qed.

(** every value that fits the machine types survives storage: [encodeGoValue] succeeds
    and decoding its result yields the value itself for a scalar (integers widened to 64
    bits), and an empty container of the right length for a map or a slice. *)
Theorem node_codec_roundtrip (v : plain) :
  match v with
  | GScalar s => scalar_wf s
  | GMap m => (Z.of_nat (length m) < two64)%Z
  | GSlice l => (Z.of_nat (length l) < two64)%Z
  | GNode _ => True
  end →
  ∃ b, encodeGoValue v = Ret b ∧ decodeStored b None = Ret (shallow v).
Proof. apply encode_decode. Qed.

Lemma node_codec_roundtrip_witness :
  is_i64 (-5) ∧ ∃ b, encodeGoValue (GScalar (SInt K32 (-5)) : plain) = Ret b ∧
                     decodeStored b None = Ret (GScalar (SInt K64 (-5))).
Proof.
  assert (is_i64 (-5)) as H by (unfold is_i64, two63; lia). split; [exact H|].
  exact (node_codec_roundtrip (GScalar (SInt K32 (-5))) H).
Defined.

(** a range read of a stored string or byte value returns exactly the bytes between
    the range's indices, for every valid range that fits the value. *)
Theorem node_codec_range_read s rng (v : scalar) :
  v = SString s ∨ v = SBytes s →
  range_wf rng → Range_Valid rng = true → (Z.of_nat (length s) < two63)%Z →
  ∃ b, encodeGoValue (GScalar v : plain) = Ret b ∧
    decodeStored b (Some rng) =
      if ValidForLength rng (Z.of_nat (length s))
      then let '(i, j) := IndicesForLength rng (Z.of_nat (length s)) in
           let part := take (Z.to_nat (j - i)) (drop (Z.to_nat i) s) in
           Ret (GScalar (match v with SString _ => SString part | _ => SBytes part end))
      else Err ErrInvalidRange.
Proof.
  intros Hv Hwf Hval Hlen.
  assert (ranged_data (Z.of_nat (length s)) (Some rng) s =
    if ValidForLength rng (Z.of_nat (length s))
    then let '(i, j) := IndicesForLength rng (Z.of_nat (length s)) in
         Ret (take (Z.to_nat (j - i)) (drop (Z.to_nat i) s))
    else Err ErrInvalidRange) as Hr.
  { simpl. destruct (ValidForLength rng _) eqn:Hvl; [|done]. simpl.
    pose proof (range_bounds rng (Z.of_nat (length s)) Hwf Hval ltac:(lia) Hvl) as Hb.
    destruct (IndicesForLength rng _) as [i j]. unfold slice. by rewrite decide_True by lia. }
  exists (match v with SString _ => str "vs" ++ s | _ => str "vz" ++ s end).
  destruct Hv as [->| ->]; (split; [done|]);
    rewrite ?decodeStored_string, ?decodeStored_bytes, Hr; destruct (ValidForLength rng _); (done || by destruct (IndicesForLength rng _)).
Qed.

Lemma node_codec_range_read_witness :
  decodeStored (str "vshello") (Some (mkRange 1 3)) = Ret (GScalar (SString (str "el"))).
Proof.
  destruct (node_codec_range_read (str "hello") (mkRange 1 3) (SString (str "hello"))) as (b & Hb & Hd).
  - by left.
  - split; unfold is_i64, two63; simpl; lia.
  - vm_compute; reflexivity.
  - unfold two63; simpl; lia.
  - assert (Ret b = Ret (str "vshello")) as [= ->] by (rewrite <- Hb; reflexivity).
    rewrite Hd. vm_compute. reflexivity.
Defined.

(** decoding never invents a value: [decodeNode] fails or panics on every byte string
    whose tag it does not know or whose length field is cut short, and when it succeeds the
    tag determines the node type. *)
Theorem node_decode_tags val d :
  decodeNode val = Ret d →
  (dn_nodeType d = NodeTypeMap ∧ head val = Some "m"%byte ∧ 9 ≤ length val) ∨
  (dn_nodeType d = NodeTypeSlice ∧ head val = Some "s"%byte ∧ 9 ≤ length val) ∨
  (dn_nodeType d = NodeTypeValue ∧ ∃ t, take 2 val = ["v"%byte; t] ∧
     dn_valueType d ≠ ValueTypeInvalid ∧
     (dn_data d = drop 2 val ∨ t = "0"%byte)).
Proof.
  destruct val as [|c rest]; [done|]. cbn [decodeNode].
  case_decide as Hm; [|case_decide as Hs; [|case_decide as Hv; [|done]]].
  - unfold DecodeSliceLen. case_decide; [|done]. intros [= <-]. left. subst. simpl. auto with lia.
  - unfold DecodeSliceLen. case_decide; [|done]. intros [= <-]. right; left. subst. simpl. auto with lia.
  - destruct rest as [|t data]; [done|]. intros H. right; right. subst.
    repeat (case_decide; [injection H as <-; simpl; split; [done|]; eexists; split_and!; [done|done|auto] |]).
    done.
Qed.

Lemma node_decode_tags_witness :
  ∃ d, decodeNode (str "vs" ++ str "x") = Ret d ∧
  ((dn_nodeType d = NodeTypeMap ∧ head (str "vs" ++ str "x") = Some "m"%byte ∧ 9 ≤ length (str "vs" ++ str "x")) ∨
   (dn_nodeType d = NodeTypeSlice ∧ head (str "vs" ++ str "x") = Some "s"%byte ∧ 9 ≤ length (str "vs" ++ str "x")) ∨
   (dn_nodeType d = NodeTypeValue ∧ ∃ t, take 2 (str "vs" ++ str "x") = ["v"%byte; t] ∧
     dn_valueType d ≠ ValueTypeInvalid ∧
     (dn_data d = drop 2 (str "vs" ++ str "x") ∨ t = "0"%byte))).
Proof.
  exists (mkDecoded NodeTypeValue ValueTypeString 1 (str "x")).
  assert (decodeNode (str "vs" ++ str "x") = Ret (mkDecoded NodeTypeValue ValueTypeString 1 (str "x"))) as H
    by (vm_compute; reflexivity).
  split; [exact H|]. exact (node_decode_tags _ _ H).
Defined.
