(* ===== verification/MemoryNode.v ===== *)
(** * The in-memory state tree ([tree/tree.memory.go])

    A [MemoryNode] keeps a sorted list of keypaths and three maps keyed by keypath: the
    values, the node types and the content lengths.  The model has one definition per
    method.  A method that changes its receiver returns the new record.

    A tree can contain the nodes of another tree (values of the [tree.Node] interface).
    They are references of a type [N] into a store of type [H], and [NodeIface] lists the
    methods of the interface that a memory tree calls on them; [ParentNodeFor] returns
    [None] when it returns its receiver.  A map read of a missing key yields the zero value
    of Go ([node_type], [content_length], [value_at]).

    The record stands for one handle of a tree: two handles returned by [NodeAt] share
    their maps in Go, and the model says what happens through one of them. *)

From S2P Require Import Prelude Keypath TreeTypes GoValue.

(** ** Nodes of other trees *)

Class NodeIface (N H : Type) := {
  node_NodeAt : H → N → Keypath → option Range → N;
  node_ParentNodeFor : H → N → Keypath → N * Keypath;
  node_NodeInfo : H → N → Keypath → outcome (NodeType * ValueType * Z);
  node_Exists : H → N → Keypath → outcome bool;
  node_UintValue : H → N → Keypath → outcome (option Z);
  node_IntValue : H → N → Keypath → outcome (option Z);
  node_FloatValue : H → N → Keypath → outcome (option Z);
  node_BoolValue : H → N → Keypath → outcome (option bool);
  node_StringValue : H → N → Keypath → outcome (option bytes);
  node_BytesValue : H → N → Keypath → outcome (option bytes);
  node_Value : H → N → Keypath → option Range → outcome (option plain);
  node_Set : H → N → Keypath → option Range → goval N → outcome H;
  node_Delete : H → N → Keypath → option Range → outcome H
}.

(** A tree of plain values contains no other node. *)
#[export] Instance NodeIface_none : NodeIface Empty_set unit := {
  node_NodeAt _ n := match n with end;
  node_ParentNodeFor _ n := match n with end;
  node_NodeInfo _ n := match n with end;
  node_Exists _ n := match n with end;
  node_UintValue _ n := match n with end;
  node_IntValue _ n := match n with end;
  node_FloatValue _ n := match n with end;
  node_BoolValue _ n := match n with end;
  node_StringValue _ n := match n with end;
  node_BytesValue _ n := match n with end;
  node_Value _ n := match n with end;
  node_Set _ n := match n with end;
  node_Delete _ n := match n with end
}.

(** ** The state *)

(** What the map [values] holds: a scalar or a node. *)
Inductive mval (N : Type) := MV (s : scalar) | MN (n : N).
Arguments MV {N} _.
Arguments MN {N} _.

Record MemoryNode (N : Type) := mkMemoryNode {
  keypath : Keypath;
  rng : option Range;
  keypaths : list Keypath;
  values : gmap Keypath (mval N);
  nodeTypes : gmap Keypath NodeType;
  contentLengths : gmap Keypath Z;
  copied : bool;
  diff : option Diff
}.
Arguments mkMemoryNode {N} _ _ _ _ _ _ _ _.
Arguments keypath {N} _.
Arguments rng {N} _.
Arguments keypaths {N} _.
Arguments values {N} _.
Arguments nodeTypes {N} _.
Arguments contentLengths {N} _.
Arguments copied {N} _.
Arguments diff {N} _.

Definition NewMemoryNode {N} : MemoryNode N :=
  mkMemoryNode [] None [] ∅ ∅ ∅ false (Some NewDiff).

Definition node_type {N} (n : MemoryNode N) (k : Keypath) : NodeType :=
  default NodeTypeInvalid (nodeTypes n !! k).
Definition content_length {N} (n : MemoryNode N) (k : Keypath) : Z :=
  default 0%Z (contentLengths n !! k).
Definition value_at {N} (n : MemoryNode N) (k : Keypath) : mval N :=
  default (MV SNil) (values n !! k).

(** The same node with other contents. *)
Definition with_tables {N} (n : MemoryNode N) ks vs nts cls : MemoryNode N :=
  mkMemoryNode (keypath n) (rng n) ks vs nts cls (copied n) (diff n).
Definition with_diff {N} (n : MemoryNode N) (d : option Diff) : MemoryNode N :=
  mkMemoryNode (keypath n) (rng n) (keypaths n) (values n) (nodeTypes n) (contentLengths n)
    (copied n) d.

(** ** Searching the keypath list *)

(** The first position from [i] on whose keypath passes the test. *)
Fixpoint find_from (test : Keypath → bool) (ks : list Keypath) (i : nat) : option nat :=
  match ks with
  | [] => None
  | k :: ks => if test k then Some i else find_from test ks (S i)
  end.

(** [None] is the -1 of the code. *)
Definition findPrefixStart (ks : list Keypath) (n : nat) (prefix : Keypath) : option nat :=
  if decide (length ks ≤ n) then None
  else if decide (length prefix = 0) then Some 0
  else if decide (length ks = 0) then None
  else find_from (λ k, StartsWith k prefix) (drop n ks) n.

Definition findPrefixEnd (ks : list Keypath) (n : nat) (prefix : Keypath) : option nat :=
  if decide (length ks ≤ n) then None
  else find_from (λ k, negb (StartsWith k prefix)) (drop n ks) n.

Fixpoint findPrefixRange_loop (prefix : Keypath) (ks : list Keypath) (i : nat) (start : option nat) :
    option (nat * nat) :=
  match ks with
  | [] => match start with None => None | Some s => Some (s, i) end
  | k :: ks =>
      if StartsWith k prefix
      then findPrefixRange_loop prefix ks (S i) (Some (default i start))
      else match start with
           | Some s => Some (s, i)
           | None => findPrefixRange_loop prefix ks (S i) None
           end
  end.

(** [None] is the pair (-1, -1). *)
Definition findPrefixRange (ks : list Keypath) (prefix : Keypath) : option (nat * nat) :=
  if decide (length prefix = 0) then Some (0, length ks)
  else findPrefixRange_loop prefix ks 0 None.

(** The second sort is given [s.keypaths[start:]] but compares positions of [s.keypaths]. *)
Definition addKeypaths (ks : list Keypath) (new : list Keypath) : list Keypath :=
  match sort_bytes 0 new with
  | [] => ks
  | first :: rest =>
      let start := default 0 (findPrefixStart ks 0 first) in
      sort_bytes start (ks ++ first :: rest)
  end.

(** A scan calls [fn] on a run of positions; an error of [fn] ends the scan, keeping the
    state reached, and is what the scan returns. *)
Section Scan.
Context {S : Type} (fn : S → Keypath → nat → outcome S).

Fixpoint scan_positions (ks : list Keypath) (i : nat) (s : S) : outcome (S * option error) :=
  match ks with
  | [] => Ret (s, None)
  | k :: ks =>
      match fn s k i with
      | Ret s' => scan_positions ks (Datatypes.S i) s'
      | Err e => Ret (s, Some e)
      | Panic => Panic
      | Running => Running
      end
  end.

Fixpoint scan_prefix (prefix : Keypath) (ks : list Keypath) (i : nat) (foundRange : bool) (s : S) :
    outcome (S * option error) :=
  match ks with
  | [] => Ret (s, None)
  | k :: ks =>
      if StartsWith k prefix then
        match fn s k i with
        | Ret s' => scan_prefix prefix ks (Datatypes.S i) true s'
        | Err e => Ret (s, Some e)
        | Panic => Panic
        | Running => Running
        end
      else if foundRange then Ret (s, None)
      else scan_prefix prefix ks (Datatypes.S i) false s
  end.

Definition scanKeypathsWithPrefix {N} (n : MemoryNode N) (prefix : Keypath) (r : option Range) (s : S) :
    outcome (S * option error) :=
  match r with
  | Some r =>
      if decide (node_type n prefix = NodeTypeSlice) then
        let '(startIdx, endIdx) := IndicesForLength r (content_length n prefix) in
        let! startPrefix := PushIndex prefix startIdx in
        match findPrefixStart (keypaths n) 0 startPrefix with
        | None => Ret (s, None)
        | Some startKeypathIdx =>
            let! endPrefix := PushIndex prefix endIdx in
            match findPrefixEnd (keypaths n) (startKeypathIdx + 1) endPrefix with
            | None => Panic
            | Some endKeypathIdx =>
                scan_positions
                  (take (endKeypathIdx - startKeypathIdx) (drop startKeypathIdx (keypaths n)))
                  startKeypathIdx s
            end
        end
      else Ret (s, Some ErrRangeOverNonSlice)
  | None => scan_prefix prefix (keypaths n) 0 false s
  end.
End Scan.

(** ** Copies *)

Definition copy_step {N} (t : MemoryNode N)
    (st : gmap Keypath (mval N) * gmap Keypath NodeType * gmap Keypath Z) (kp : Keypath) :=
  let '(vs, nts, cls) := st in
  let vs := <[kp := value_at t kp]> vs in
  let nts := <[kp := node_type t kp]> nts in
  let cls :=
    if decide (node_type t kp = NodeTypeSlice ∨ node_type t kp = NodeTypeMap)
    then <[kp := content_length t kp]> cls else cls in
  (vs, nts, cls).

Definition makeCopy {N} (t : MemoryNode N) : MemoryNode N :=
  let '(start, end_) :=
    if decide (0 < length (keypath t))
    then default (0, 0) (findPrefixRange (keypaths t) (keypath t))
    else (0, length (keypaths t)) in
  let ks := take (end_ - start) (drop start (keypaths t)) in
  let '(vs, nts, cls) := foldl (copy_step t) (∅, ∅, ∅) ks in
  mkMemoryNode (keypath t) (rng t) ks vs nts cls false (Some (Diff_Copy (diff t))).

Definition checkCopied {N} (t : MemoryNode N) : MemoryNode N :=
  if copied t then makeCopy t else t.

(** The range an operation works with: the caller's or the node's, never both. *)
Definition merge_range (own r : option Range) : outcome (option Range) :=
  let! r' := match r, own with
             | None, _ => Ret own
             | Some _, Some _ => Panic
             | Some r, None => Ret (Some r)
             end in
  match r' with
  | Some x => if negb (Range_Valid x) then Err ErrInvalidRange else Ret r'
  | None => Ret None
  end.

Definition CopyToMemory {N} (t : MemoryNode N) (kp : Keypath) (r : option Range) :
    outcome (MemoryNode N) :=
  let! r := merge_range (rng t) r in
  Ret (makeCopy (mkMemoryNode (Push (keypath t) kp) r (keypaths t) (values t) (nodeTypes t)
                              (contentLengths t) false (diff t))).

(** The direct descendants' keys, each once, in the order of the list. *)
Definition Subkeys {N} (n : MemoryNode N) : outcome (list Keypath) :=
  let! res :=
    scanKeypathsWithPrefix
      (λ (st : list Keypath * gset Keypath) kp _,
         let! rel := RelativeTo kp (keypath n) in
         let! p := Part rel 0 in
         let subkey := nilable p in
         if decide (subkey ∉ st.2 ∧ 0 < length subkey)
         then Ret (st.1 ++ [subkey], {[subkey]} ∪ st.2) else Ret st)
      n (keypath n) None ([], ∅) in
  Ret res.1.1.

Section Ops.
Context {N H : Type} `{NodeIface N H}.

Fixpoint ParentNodeFor_loop (h : H) (n : MemoryNode N) (absKeypath currentKeypath : Keypath)
    (parts : list Keypath) : outcome (option (N * Keypath)) :=
  match parts with
  | [] => Ret None
  | part :: parts =>
      let currentKeypath := Push currentKeypath part in
      match node_type n currentKeypath with
      | NodeTypeNode =>
          match value_at n currentKeypath with
          | MN innerNode =>
              let! rel := RelativeTo absKeypath currentKeypath in
              Ret (Some (node_ParentNodeFor h innerNode rel))
          | MV _ => Panic
          end
      | NodeTypeValue | NodeTypeInvalid => Ret None
      | _ => ParentNodeFor_loop h n absKeypath currentKeypath parts
      end
  end.

Definition ParentNodeFor (h : H) (n : MemoryNode N) (relKeypath : Keypath) :
    outcome (option (N * Keypath)) :=
  if decide (length relKeypath = 0) then Ret None
  else ParentNodeFor_loop h n (Push (keypath n) relKeypath) (Copy (keypath n)) ([] :: Parts relKeypath).

(** [if node, rel := n.ParentNodeFor(kp); n != node { return node.M(rel) }] and then the rest. *)
Definition delegate {A} (h : H) (n : MemoryNode N) (kp : Keypath) (inner : N → Keypath → outcome A)
    (rest : outcome A) : outcome A :=
  let! p := ParentNodeFor h n kp in
  match p with Some (node, rel) => inner node rel | None => rest end.

Definition NodeAt (h : H) (n : MemoryNode N) (relKeypath : Keypath) (r : option Range) :
    outcome (MemoryNode N + N) :=
  let absKeypath := Push (keypath n) relKeypath in
  delegate h n relKeypath (λ node rel, Ret (inr (node_NodeAt h node rel r)))
    (if decide (node_type n absKeypath = NodeTypeNode) then
       match value_at n absKeypath with MN x => Ret (inr x) | MV _ => Panic end
     else Ret (inl (mkMemoryNode absKeypath r (keypaths n) (values n) (nodeTypes n)
                                 (contentLengths n) false (diff n)))).

Definition NodeInfo (h : H) (n : MemoryNode N) (relKeypath : Keypath) :
    outcome (NodeType * ValueType * Z) :=
  delegate h n relKeypath (node_NodeInfo h)
    (let absKeypath := Push (keypath n) relKeypath in
     match node_type n absKeypath with
     | NodeTypeInvalid => Err Err404
     | NodeTypeMap => Ret (NodeTypeMap, ValueTypeInvalid, content_length n absKeypath)
     | NodeTypeSlice => Ret (NodeTypeSlice, ValueTypeInvalid, content_length n absKeypath)
     | NodeTypeValue =>
         match values n !! absKeypath with
         | None => Err Err404
         | Some (MV (SString v)) => Ret (NodeTypeValue, ValueTypeString, Z.of_nat (length v))
         | Some (MV (SBytes v)) => Ret (NodeTypeValue, ValueTypeBytes, Z.of_nat (length v))
         | Some (MV (SFloat _)) => Ret (NodeTypeValue, ValueTypeFloat, 0%Z)
         | Some (MV (SUint K64 _)) => Ret (NodeTypeValue, ValueTypeUint, 0%Z)
         | Some (MV (SInt K64 _)) => Ret (NodeTypeValue, ValueTypeInt, 0%Z)
         | Some (MV (SBool _)) => Ret (NodeTypeValue, ValueTypeBool, 0%Z)
         | Some (MV SNil) => Ret (NodeTypeValue, ValueTypeNil, 0%Z)
         | Some _ => Ret (NodeTypeValue, ValueTypeInvalid, 0%Z)
         end
     | NodeTypeNode =>
         match value_at n absKeypath with MN node => node_NodeInfo h node [] | MV _ => Panic end
     end).

Definition Exists (h : H) (n : MemoryNode N) (kp : Keypath) : outcome bool :=
  delegate h n kp (node_Exists h)
    (Ret (bool_decide (is_Some (nodeTypes n !! Push (keypath n) kp)))).

Definition innerNode (n : MemoryNode N) (relKeypath : Keypath) : outcome (option N) :=
  let absKeypath := Push (keypath n) relKeypath in
  if decide (node_type n absKeypath = NodeTypeNode) then
    match value_at n absKeypath with MN x => Ret (Some x) | MV _ => Panic end
  else Ret None.

Definition UintValue (h : H) (n : MemoryNode N) (kp : Keypath) : outcome (option Z) :=
  delegate h n kp (node_UintValue h)
    (match values n !! Push (keypath n) kp with Some (MV (SUint K64 v)) => Ret (Some v) | _ => Ret None end).
Definition IntValue (h : H) (n : MemoryNode N) (kp : Keypath) : outcome (option Z) :=
  delegate h n kp (node_IntValue h)
    (match values n !! Push (keypath n) kp with Some (MV (SInt K64 v)) => Ret (Some v) | _ => Ret None end).
Definition FloatValue (h : H) (n : MemoryNode N) (kp : Keypath) : outcome (option Z) :=
  delegate h n kp (node_FloatValue h)
    (match values n !! Push (keypath n) kp with Some (MV (SFloat v)) => Ret (Some v) | _ => Ret None end).
Definition BoolValue (h : H) (n : MemoryNode N) (kp : Keypath) : outcome (option bool) :=
  delegate h n kp (node_BoolValue h)
    (match values n !! Push (keypath n) kp with Some (MV (SBool v)) => Ret (Some v) | _ => Ret None end).
Definition StringValue (h : H) (n : MemoryNode N) (kp : Keypath) : outcome (option bytes) :=
  delegate h n kp (node_StringValue h)
    (match values n !! Push (keypath n) kp with Some (MV (SString v)) => Ret (Some v) | _ => Ret None end).
Definition BytesValue (h : H) (n : MemoryNode N) (kp : Keypath) : outcome (option bytes) :=
  delegate h n kp (node_BytesValue h)
    (match values n !! Push (keypath n) kp with Some (MV (SBytes v)) => Ret (Some v) | _ => Ret None end).

(** The value a keypath below the requested one contributes. *)
Definition fill_step (h : H) (n : MemoryNode N) (absKeypath : Keypath) (m : plain) (kp : Keypath) (_ : nat) :
    outcome plain :=
  let! relKp := RelativeTo kp absKeypath in
  if decide (length relKp = 0) then Ret m
  else match node_type n kp with
       | NodeTypeSlice =>
           setValueAtKeypath m relKp
             (GSlice (replicate (Z.to_nat (content_length n kp)) (GScalar SNil))) false
       | NodeTypeMap => setValueAtKeypath m relKp (GMap []) false
       | NodeTypeNode =>
           match value_at n kp with
           | MV _ => Panic
           | MN node =>
               let! v := node_Value h node [] None in
               match v with None => Panic | Some v => setValueAtKeypath m relKp v false end
           end
       | NodeTypeValue =>
           match value_at n kp with
           | MV s => setValueAtKeypath m relKp (GScalar s) false
           | MN _ => Panic
           end
       | NodeTypeInvalid => Ret m
       end.

(** [Value] returns the value, or [None] for (nil, false).  The error of a scan is dropped. *)
Definition Value (h : H) (n : MemoryNode N) (kp : Keypath) (r : option Range) : outcome (option plain) :=
  delegate h n kp (λ node rel, node_Value h node rel r)
    (let absKeypath := Push (keypath n) kp in
     let! r := merge_range (rng n) r in
     match node_type n absKeypath with
     | NodeTypeInvalid => Ret None
     | NodeTypeNode =>
         match value_at n absKeypath with MN node => node_Value h node kp r | MV _ => Panic end
     | NodeTypeValue =>
         match values n !! absKeypath with
         | None => Ret None
         | Some v =>
             match r with
             | Some _ => Err ErrRangeOverNonSlice
             | None => match v with MV s => Ret (Some (GScalar s)) | MN _ => Panic end
             end
         end
     | NodeTypeMap =>
         match r with
         | Some _ => Err ErrRangeOverNonSlice
         | None =>
             let! res := scanKeypathsWithPrefix (fill_step h n absKeypath) n absKeypath None (GMap []) in
             Ret (Some res.1)
         end
     | NodeTypeSlice =>
         let! res :=
           scanKeypathsWithPrefix (fill_step h n absKeypath) n absKeypath r
             (GSlice (replicate (Z.to_nat (content_length n absKeypath)) (GScalar SNil))) in
         Ret (Some res.1)
     end).

Definition Length (n : MemoryNode N) : Z :=
  match node_type n (keypath n) with
  | NodeTypeMap | NodeTypeSlice => content_length n (keypath n)
  | NodeTypeValue => match value_at n (keypath n) with MV (SString v) => Z.of_nat (length v) | _ => 0%Z end
  | _ => 0%Z
  end.

(** ** Updates *)

(** What the scan of [Delete] accumulates: the positions it saw first and last, and the
    three maps. *)
Record deletion := mkDeletion {
  del_span : option (nat * nat);
  del_values : gmap Keypath (mval N);
  del_types : gmap Keypath NodeType;
  del_lengths : gmap Keypath Z
}.

Definition delete_step (st : deletion) (kp : Keypath) (i : nat) : outcome deletion :=
  Ret (mkDeletion (Some (match del_span st with None => (i, i) | Some (s, _) => (s, i) end))
         (delete kp (del_values st)) (delete kp (del_types st)) (delete kp (del_lengths st))).

(** The tail of [Delete]: scan, drop the span from the list, record the diff. *)
Definition delete_scan (n : MemoryNode N) (absKeypath : Keypath) (r : option Range) :
    outcome (MemoryNode N) :=
  let! res := scanKeypathsWithPrefix delete_step n absKeypath r
                (mkDeletion None (values n) (nodeTypes n) (contentLengths n)) in
  let st := res.1 in
  let '(deletedKeypaths, ks) :=
    match del_span st with
    | None => ([], keypaths n)
    | Some (startIdx, stopIdx) =>
        (take (stopIdx + 1 - startIdx) (drop startIdx (keypaths n)),
         take startIdx (keypaths n) ++ drop (stopIdx + 1) (keypaths n))
    end in
  let n := with_tables n ks (del_values st) (del_types st) (del_lengths st) in
  Ret (with_diff n (Diff_RemoveMany (diff n) deletedKeypaths)).

Definition with_values (n : MemoryNode N) vs := with_tables n (keypaths n) vs (nodeTypes n) (contentLengths n).
Definition with_lengths (n : MemoryNode N) cls := with_tables n (keypaths n) (values n) (nodeTypes n) cls.

Definition Delete (h : H) (n : MemoryNode N) (kp : Keypath) (r : option Range) :
    outcome (H * MemoryNode N) :=
  delegate h n kp (λ node rel, let! h' := node_Delete h node rel r in Ret (h', n))
    (let! r := merge_range (rng n) r in
     let n := checkCopied n in
     let absKeypath := Push (keypath n) kp in
     match r with
     | None =>
         let n := with_lengths n (delete absKeypath (contentLengths n)) in
         let! n := delete_scan n absKeypath None in Ret (h, n)
     | Some x =>
         match node_type n absKeypath with
         | NodeTypeMap | NodeTypeSlice =>
             let n := with_lengths n
                        (<[absKeypath := u64 (content_length n absKeypath - Range_Size x)]> (contentLengths n)) in
             let! n := delete_scan n absKeypath (Some x) in Ret (h, n)
         | NodeTypeValue =>
             match value_at n absKeypath with
             | MV (SString s) =>
                 if negb (ValidForLength x (Z.of_nat (length s))) then Err ErrInvalidRange
                 else
                   let '(startIdx, endIdx) := IndicesForLength x (Z.of_nat (length s)) in
                   let! a := slice s 0 startIdx in
                   let! b := slice s endIdx (Z.of_nat (length s)) in
                   Ret (h, with_values n (<[absKeypath := MV (SString (a ++ b))]> (values n)))
             | MV (SBytes b) =>
                 (* the length tested is that of the empty string [s] *)
                 if negb (ValidForLength x 0) then Err ErrInvalidRange
                 else
                   let '(startIdx, endIdx) := IndicesForLength x 0 in
                   let! a := slice b 0 startIdx in
                   let! c := slice b endIdx (Z.of_nat (length b)) in
                   Ret (h, with_values n (<[absKeypath := MV (SBytes (a ++ c))]> (values n)))
             | _ => Err ErrRangeOverNonSlice
             end
         | _ => Err ErrRangeOverNonSlice
         end
     end).

(** The ancestors of the keypath that is set: missing ones become maps. *)
Fixpoint intermediate_loop (absKeypath : Keypath) (parts : list Keypath) (i byteIdx : nat)
    (st : gmap Keypath NodeType * list Keypath) : gmap Keypath NodeType * list Keypath :=
  match parts with
  | [] => st
  | key :: parts =>
      let byteIdx := byteIdx + length key in
      let partialKeypath := take byteIdx absKeypath in
      let st :=
        if decide (default NodeTypeInvalid (st.1 !! partialKeypath) = NodeTypeInvalid)
        then (<[partialKeypath := NodeTypeMap]> st.1, st.2 ++ [partialKeypath])
        else st in
      intermediate_loop absKeypath parts (S i) (if decide (i = 0) then byteIdx else byteIdx + 1) st
  end.

(** What the callback of [Set] updates: the three maps and the list of new keypaths. *)
Record setting := mkSetting {
  set_new : list Keypath;
  set_values : gmap Keypath (mval N);
  set_types : gmap Keypath NodeType;
  set_lengths : gmap Keypath Z
}.

Definition set_step (absKeypath : Keypath) (st : setting) (nodeKeypath : Keypath) (nodeValue : goval N) :
    outcome setting :=
  let absNodeKeypath := Push absKeypath nodeKeypath in
  let new := set_new st ++ [absNodeKeypath] in
  Ret match nodeValue with
      | GMap nv =>
          mkSetting new (set_values st) (<[absNodeKeypath := NodeTypeMap]> (set_types st))
            (<[absNodeKeypath := Z.of_nat (length nv)]> (set_lengths st))
      | GSlice nv =>
          mkSetting new (set_values st) (<[absNodeKeypath := NodeTypeSlice]> (set_types st))
            (<[absNodeKeypath := Z.of_nat (length nv)]> (set_lengths st))
      | GNode node =>
          mkSetting new (<[absNodeKeypath := MN node]> (set_values st))
            (<[absNodeKeypath := NodeTypeNode]> (set_types st)) (set_lengths st)
      | GScalar s =>
          mkSetting new (<[absNodeKeypath := MV s]> (set_values st))
            (<[absNodeKeypath := NodeTypeValue]> (set_types st)) (set_lengths st)
      end.

(** The part of [Set] after the deletion. *)
Definition set_walk (t : MemoryNode N) (absKeypath : Keypath) (value : goval N) : outcome (MemoryNode N) :=
  let parts := [] :: Parts absKeypath in
  let '(nts, new) := intermediate_loop absKeypath (take (length parts - 1) parts) 0 0 (nodeTypes t, []) in
  let! st := walkGoValue value (set_step absKeypath)
               (mkSetting new (values t) nts (contentLengths t)) in
  let d := Diff_AddMany (diff t) (set_new st) in
  Ret (with_diff (with_tables t (addKeypaths (keypaths t) (set_new st)) (set_values st) (set_types st)
                    (set_lengths st)) d).

Definition Set_ (h : H) (t : MemoryNode N) (kp : Keypath) (r : option Range) (value : goval N) :
    outcome (H * MemoryNode N) :=
  delegate h t kp (λ node rel, let! h' := node_Set h node rel r value in Ret (h', t))
    (match r with
     | Some _ => Panic
     | None =>
         let! ht := Delete h (checkCopied t) kp None in
         let '(h, t) := ht in
         let! t := set_walk t (Push (keypath t) kp) value in
         Ret (h, t)
     end).

Definition ResetDiff (n : MemoryNode N) : MemoryNode N := with_diff n (Some NewDiff).
End Ops.
Arguments deletion N : clear implicits.
Arguments setting N : clear implicits.
