(* ===== verification/MemoryProps.v ===== *)
(** * What the operations of the in-memory tree do

    The invariant [mem_wf] ties the sorted keypath list to the maps.  It assumes that no
    key contains a byte below the separator ([sep_min]), except for the keys of a NelSON
    frame, beside which no key is [Content]: only then do the keypaths of a subtree form one
    run of the sorted list, which the scanning code relies on
    ([memory_delete_leaves_subtree] shows what happens otherwise).

    The abstract view of a tree is the set of keypaths with the shape stored at each
    ([node_shape]); [represents] says that the subtree at a keypath is a given Go value. *)

From S2P Require Import Prelude Keypath TreeTypes GoValue GoPaths Assemble MemoryNode.

(** ** Keypaths in byte order *)

(** No byte of the key sorts before the separator, or it is a key of a frame. *)
Definition part_min (p : bytes) : Prop :=
  (Forall (λ b, (Byte.to_N sep ≤ Byte.to_N b)%N) p ∧ p ≠ str "Content") ∨ p = str "Content-Type" ∨ p = str "Content-Length".
#[export] Instance part_min_dec p : Decision (part_min p).
Proof. unfold part_min. apply _. Defined.

Definition sep_min (k : Keypath) : Prop := Forall part_min (path_parts k).

#[export] Instance sep_min_dec k : Decision (sep_min k).
Proof. unfold sep_min. apply _. Defined.

Lemma sep_min_split k : sep_min k ↔ Forall part_min (split_sep k).
Proof.
  unfold sep_min. destruct k as [|x k]; [|by rewrite path_parts_cons]. rewrite path_parts_nil. split; [|constructor].
  intros _. constructor; [left; split; [constructor|done]|constructor].
Qed.

Lemma sep_min_sep k l : sep_min (k ++ sep :: l) ↔ sep_min k ∧ sep_min l.
Proof. by rewrite !sep_min_split, split_sep_app, Forall_app. Qed.

(** A key and a longer one that goes on with a byte before the separator. *)
Lemma part_min_extends t x s : part_min t → part_min (t ++ x :: s) → (Byte.to_N sep ≤ Byte.to_N x)%N.
Proof.
  intros Ht [[Hf _]|Hc]; [by apply Forall_app in Hf as [_ [Hx _]%Forall_cons]|].
  assert (∀ c, c = str "Content-Type" ∨ c = str "Content-Length" → t ++ x :: s = c → t ≠ str "Content" → (Byte.to_N sep ≤ Byte.to_N x)%N) as Hall.
  { intros c [->| ->] Heq Hne.
    all: repeat (destruct t as [|? t]; simpl in Heq;
      [first [discriminate Heq|injection Heq as -> _; first [by vm_compute|by destruct Hne]]|first [discriminate Heq|injection Heq as -> Heq]]). }
  apply (Hall (t ++ x :: s)); [done|done|]. intros ->. by destruct Ht as [[_ ?]|[?|?]].
Qed.

Lemma split_sep_glue p b : ∃ l t r, split_sep p = l ++ [t] ∧ split_sep b = r ∧ split_sep (p ++ b) = l ++ match r with [] => [t] | u :: r => (t ++ u) :: r end.
Proof.
  induction p as [|x p (l & t & r & Hp & Hb & Hpb)]; cbn [split_sep app].
  - exists [], [], (split_sep b). split_and!; [done..|]. pose proof (split_sep_nonempty b). by destruct (split_sep b).
  - case_decide.
    + exists ([] :: l), t, r. rewrite Hp, Hpb. done.
    + rewrite Hp, Hpb, Hb. destruct l as [|y l]; cbn [app].
      * exists [], (x :: t), r. split_and!; [done..|]. by destruct r.
      * exists ((x :: y) :: l), t, r. done.
Qed.

(** A subtree is convex in the byte order of such keypaths. *)
Lemma subtree_convex p a b c :
  sep_min b → sep_min c → bytes_lt a b → bytes_lt b c →
  StartsWith a p = true → StartsWith c p = true → StartsWith b p = true.
Proof.
  intros Hb Hmc Hab Hbc Ha Hc. destruct (decide (p = [])) as [->|Hne]; [apply StartsWith_nil|].
  assert (∀ k, StartsWith k p = true → ∃ q, k = p ++ q) as Hpre.
  { intros k. rewrite StartsWith_bytes. intros [->|[->|[q ->]]]; [by exists k| |by eexists].
    exists []. by rewrite app_nil_r. }
  destruct (Hpre a Ha) as [a' ->].
  apply StartsWith_bytes in Hc as [->|[->|[q ->]]]; [done|..].
  - exfalso. rewrite <- (app_nil_r p) in Hbc. destruct (bytes_between_prefix p a' b [] (bytes_lt_le _ _ Hab) (bytes_lt_le _ _ Hbc)) as [b' ->].
    unfold bytes_lt in Hbc. rewrite bytes_compare_app in Hbc. by destruct b'.
  - destruct (bytes_between_prefix p a' b (sep :: q) (bytes_lt_le _ _ Hab) (bytes_lt_le _ _ Hbc)) as [b' ->].
    unfold bytes_lt in Hbc. rewrite bytes_compare_app in Hbc.
    apply StartsWith_bytes. right. destruct b' as [|x b']; [left; by rewrite app_nil_r|right].
    exists b'. do 2 f_equal. cbn [bytes_compare] in Hbc.
    destruct (Byte.to_N x ?= Byte.to_N sep)%N eqn:E; [by apply byte_to_N_inj, N.compare_eq| |done].
    exfalso. rewrite N.compare_lt_iff in E.
    apply sep_min_split in Hb. apply sep_min_sep in Hmc as [Hmp%sep_min_split _].
    destruct (split_sep_glue p (x :: b')) as (l & t & r & Hp & Hr & Hpb). rewrite Hpb in Hb. rewrite Hp in Hmp.
    apply Forall_app in Hmp as [_ [Ht _]%Forall_cons]. apply Forall_app in Hb as [_ Hb].
    assert (∃ u r', r = (x :: u) :: r') as (u & r' & ->).
    { rewrite <- Hr. cbn [split_sep]. rewrite decide_False by (intros ->; lia). pose proof (split_sep_nonempty b'). destruct (split_sep b') as [|u r']; [done|]. by exists u, r'. }
    apply Forall_cons in Hb as [Hb _]. pose proof (part_min_extends t x u Ht Hb). lia.
Qed.

Definition below (p k : Keypath) : Prop := StartsWith k p = true.
#[export] Instance below_dec p k : Decision (below p k).
Proof. unfold below. apply _. Defined.

Lemma subtree_run p ks :
  StronglySorted bytes_lt ks → Forall sep_min ks →
  ∃ l1 l2 l3, ks = l1 ++ l2 ++ l3 ∧ Forall (λ k, ¬ below p k) l1 ∧ Forall (below p) l2 ∧
    Forall (λ k, ¬ below p k) l3.
Proof.
  intros Hs Hm. apply (sorted_run bytes_lt (below p)); [done|]. intros a b c Hb.
  intros Hc. rewrite Forall_forall in Hm. apply subtree_convex; by apply Hm.
Qed.

(** ** Scans *)

Lemma not_below_false p k : ¬ below p k → StartsWith k p = false.
Proof. unfold below. by destruct (StartsWith k p). Qed.

Section ScanFacts.
Context {S : Type} (fn : S → Keypath → nat → outcome S).

Lemma scan_prefix_skip p l1 ks i s :
  Forall (λ k, ¬ below p k) l1 →
  scan_prefix fn p (l1 ++ ks) i false s = scan_prefix fn p ks (i + length l1) false s.
Proof.
  intros H1. revert i. induction H1 as [|k l1 Hk _ IH]; intros i; simpl; [by rewrite Nat.add_0_r|].
  rewrite (not_below_false p k Hk), IH. f_equal. lia.
Qed.

Lemma scan_prefix_stop p l3 i s :
  Forall (λ k, ¬ below p k) l3 → scan_prefix fn p l3 i true s = Ret (s, None).
Proof. intros H3. destruct H3 as [|k l3 Hk _]; simpl; [done|]. by rewrite (not_below_false p k Hk). Qed.

Lemma scan_prefix_stop_any p l3 i s b :
  Forall (λ k, ¬ below p k) l3 → scan_prefix fn p l3 i b s = Ret (s, None).
Proof.
  intros H3. revert i. induction H3 as [|k l3 Hk _ IH]; intros i; simpl; [done|].
  rewrite (not_below_false p k Hk). by destruct b.
Qed.

(** A scan without range calls the callback on the run of the subtree. *)
Lemma scan_prefix_run p l1 l2 l3 s :
  Forall (λ k, ¬ below p k) l1 → Forall (below p) l2 → Forall (λ k, ¬ below p k) l3 →
  scan_prefix fn p (l1 ++ l2 ++ l3) 0 false s = scan_positions fn l2 (length l1) s.
Proof.
  intros H1 H2 H3. rewrite scan_prefix_skip by done. simpl. generalize (length l1). intros i.
  generalize false. revert i s. induction H2 as [|k l2 Hk _ IH]; intros i s b; simpl.
  - by apply scan_prefix_stop_any.
  - unfold below in Hk. rewrite Hk. destruct (fn s k i); auto.
Qed.
End ScanFacts.

Lemma findPrefixRange_run p l1 l2 l3 :
  p ≠ [] → Forall (λ k, ¬ below p k) l1 → Forall (below p) l2 → Forall (λ k, ¬ below p k) l3 →
  findPrefixRange (l1 ++ l2 ++ l3) p =
    if decide (l2 = []) then None else Some (length l1, length l1 + length l2).
Proof.
  intros Hp H1 H2 H3. unfold findPrefixRange. rewrite decide_False by (by destruct p).
  assert (∀ ks i, findPrefixRange_loop p (l1 ++ ks) i None = findPrefixRange_loop p ks (i + length l1) None) as ->.
  { induction H1 as [|k l1 Hk _ IH]; intros ks i; simpl; [by rewrite Nat.add_0_r|].
    rewrite (not_below_false p k Hk), IH. f_equal. lia. }
  simpl. generalize (length l1). intros i.
  assert (∀ j s, findPrefixRange_loop p (l2 ++ l3) j (Some s) = Some (s, j + length l2)) as Hrun.
  { induction H2 as [|k l2 Hk _ IH]; intros j s; simpl.
    - rewrite Nat.add_0_r. destruct H3 as [|k l3 Hk _]; simpl; [done|]. by rewrite (not_below_false p k Hk).
    - unfold below in Hk. rewrite Hk. simpl. rewrite IH. f_equal. f_equal. lia. }
  destruct H2 as [|k l2 Hk H2]; simpl.
  - clear Hrun. revert i. induction H3 as [|k l3 Hk _ IH]; intros i; simpl; [done|].
    by rewrite (not_below_false p k Hk).
  - unfold below in Hk. rewrite Hk. specialize (Hrun i i). simpl in Hrun. rewrite Hk in Hrun.
    simpl in *. done.
Qed.

(** ** The invariant *)

Record mem_wf {N} (n : MemoryNode N) : Prop := {
  wf_sorted : StronglySorted bytes_lt (keypaths n);
  wf_types : ∀ k, k ∈ keypaths n ↔ is_Some (nodeTypes n !! k);
  wf_valid : ∀ k, nodeTypes n !! k ≠ Some NodeTypeInvalid;
  wf_min : Forall sep_min (keypaths n);
  wf_good : Forall good_path (keypaths n);
  wf_parents : ∀ k p, k ∈ keypaths n → good_path p → below p k → p ∈ keypaths n;
  wf_values : ∀ k, is_Some (values n !! k) → k ∈ keypaths n;
  wf_lengths : ∀ k, is_Some (contentLengths n !! k) → k ∈ keypaths n;
  wf_scalar : ∀ k, nodeTypes n !! k = Some NodeTypeValue → ∃ s, values n !! k = Some (MV s);
  wf_node : ∀ k, nodeTypes n !! k = Some NodeTypeNode → ∃ x, values n !! k = Some (MN x)
}.

Lemma NewMemoryNode_wf {N} : mem_wf (@NewMemoryNode N).
Proof.
  split; simpl; try (intros; set_solver); try constructor.
  - by intros ?%elem_of_nil.
  - intros [? ?]. done.
  - by intros k [? ?].
  - by intros k [? ?].
Qed.

(** A tree as its tables, kept together with what does not change. *)
Definition same_frame {N} (n n' : MemoryNode N) : Prop :=
  keypath n' = keypath n ∧ rng n' = rng n ∧ copied n' = copied n.

(** The tables of [n'] are those of [n] without the subtree at [p]. *)
Record pruned {N} (p : Keypath) (n n' : MemoryNode N) : Prop := {
  pr_frame : same_frame n n';
  pr_keypaths : keypaths n' = filter (λ k, ¬ below p k) (keypaths n);
  pr_types : ∀ k, nodeTypes n' !! k = if decide (below p k) then None else nodeTypes n !! k;
  pr_values : ∀ k, values n' !! k = if decide (below p k) then None else values n !! k;
  pr_lengths : ∀ k, contentLengths n' !! k = if decide (below p k) then None else contentLengths n !! k
}.

Lemma pruned_elem {N} p (n n' : MemoryNode N) k :
  pruned p n n' → k ∈ keypaths n' ↔ k ∈ keypaths n ∧ ¬ below p k.
Proof. intros H. rewrite (pr_keypaths _ _ _ H), list_elem_of_filter. tauto. Qed.

Lemma pruned_wf {N} p (n n' : MemoryNode N) : pruned p n n' → mem_wf n → mem_wf n'.
Proof.
  intros Hp Hwf. pose proof (pruned_elem p n n') as Hel.
  split.
  - rewrite (pr_keypaths _ _ _ Hp). apply StronglySorted_filter, Hwf.
  - intros k. rewrite Hel, (pr_types _ _ _ Hp), (wf_types n Hwf) by done.
    case_decide; [split; [tauto|by intros [? ?]]|tauto].
  - intros k. rewrite (pr_types _ _ _ Hp). case_decide; [done|apply Hwf].
  - rewrite (pr_keypaths _ _ _ Hp). apply Forall_filter, Hwf.
  - rewrite (pr_keypaths _ _ _ Hp). apply Forall_filter, Hwf.
  - intros k q. rewrite !Hel by done. intros [Hk Hn] Hq Hb. split; [by eapply wf_parents|].
    intros Hqp. apply Hn. unfold below in *. by eapply StartsWith_trans.
  - intros k. rewrite Hel, (pr_values _ _ _ Hp) by done. case_decide; [by intros [? ?]|].
    intros Hk. split; [by apply (wf_values n Hwf)|done].
  - intros k. rewrite Hel, (pr_lengths _ _ _ Hp) by done. case_decide; [by intros [? ?]|].
    intros Hk. split; [by apply (wf_lengths n Hwf)|done].
  - intros k. rewrite (pr_types _ _ _ Hp), (pr_values _ _ _ Hp). case_decide; [done|apply Hwf].
  - intros k. rewrite (pr_types _ _ _ Hp), (pr_values _ _ _ Hp). case_decide; [done|apply Hwf].
Qed.

(** ** [Delete] *)

Lemma foldl_delete_lookup {V} (l : list Keypath) (m : gmap Keypath V) k :
  foldl (λ m k, delete k m) m l !! k = if decide (k ∈ l) then None else m !! k.
Proof.
  revert m. induction l as [|x l IH]; intros m; simpl; [done|]. rewrite IH.
  destruct (decide (k ∈ l)) as [Hk|Hk]; [by rewrite decide_True by set_solver|].
  destruct (decide (k = x)) as [->|Hx].
  - rewrite decide_True by set_solver. apply lookup_delete_eq.
  - rewrite decide_False by set_solver. by apply lookup_delete_ne.
Qed.

Lemma delete_positions {N} (l : list Keypath) i (st : deletion N) :
  scan_positions delete_step l i st =
    Ret (mkDeletion
           (match l with
            | [] => del_span st
            | _ => Some (match del_span st with None => i | Some (s, _) => s end, i + length l - 1)
            end)
           (foldl (λ m k, delete k m) (del_values st) l) (foldl (λ m k, delete k m) (del_types st) l)
           (foldl (λ m k, delete k m) (del_lengths st) l), None).
Proof.
  revert i st. induction l as [|k l IH]; intros i st; simpl; [by destruct st|].
  rewrite IH. simpl. do 3 f_equal. destruct (del_span st) as [[s e]|]; destruct l; simpl; f_equal; f_equal; lia.
Qed.

Lemma lookup_not_below {N V} (n : MemoryNode N) (p : Keypath) (l2 : list Keypath) (m : gmap Keypath V) (k : Keypath) :
  (∀ k, k ∈ l2 ↔ k ∈ keypaths n ∧ below p k) → (is_Some (m !! k) → k ∈ keypaths n) →
  foldl (λ m k, delete k m) m l2 !! k = if decide (below p k) then None else m !! k.
Proof.
  intros Hl2 Hm. rewrite foldl_delete_lookup. destruct (decide (below p k)) as [Hb|Hb].
  - case_decide as Hk; [done|]. destruct (m !! k) eqn:E; [|done]. destruct Hk. apply Hl2. eauto.
  - rewrite decide_False; [done|]. intros ?%Hl2. tauto.
Qed.

Lemma delete_scan_pruned {N} (n : MemoryNode N) p :
  mem_wf n →
  ∃ n', delete_scan n p None = Ret n' ∧ pruned p n n' ∧
    diff n' = Diff_RemoveMany (diff n) (filter (below p) (keypaths n)).
Proof.
  intros Hwf. destruct (subtree_run p (keypaths n)) as (l1 & l2 & l3 & Hks & H1 & H2 & H3);
    [apply Hwf..|].
  destruct (filter_run (below p) l1 l2 l3 H1 H2 H3) as [Hf Hnf].
  unfold delete_scan, scanKeypathsWithPrefix. rewrite Hks, (scan_prefix_run _ p l1 l2 l3) by done.
  rewrite delete_positions. simpl.
  assert (match l2 with [] => None | _ => Some (length l1, length l1 + length l2 - 1) end =
          if decide (l2 = []) then None else Some (length l1, length l1 + length l2 - 1)) as Hsp
    by (by destruct l2). 
  assert (∀ k, k ∈ l2 ↔ k ∈ keypaths n ∧ below p k) as Hl2.
  { intros k. rewrite <- Hf, list_elem_of_filter, <- Hks. tauto. }
  assert ((let '(deleted, ks) :=
     match match l2 with [] => None | _ => Some (length l1, length l1 + length l2 - 1) end with
     | None => ([], l1 ++ l2 ++ l3)
     | Some (startIdx, stopIdx) =>
        (take (stopIdx + 1 - startIdx) (drop startIdx (l1 ++ l2 ++ l3)),
         take startIdx (l1 ++ l2 ++ l3) ++ drop (stopIdx + 1) (l1 ++ l2 ++ l3))
     end in (deleted, ks)) = (l2, l1 ++ l3)) as Hspan.
  { rewrite Hsp. case_decide as Hn; [by subst|].
    assert (0 < length l2) by (destruct l2; simpl; [done|lia]).
    f_equal.
    - rewrite drop_app_length. rewrite take_app_le by lia. apply take_ge. lia.
    - rewrite take_app_length. f_equal. replace (length l1 + length l2 - 1 + 1) with (length l1 + length l2) by lia.
      rewrite <- drop_drop, drop_app_length. apply drop_app_length. }
  destruct (match match l2 with [] => None | _ => _ end with None => _ | Some _ => _ end) as [deleted ks].
  simplify_eq/=. eexists. split; [done|]. split; [|by rewrite Hf].
  split; simpl; [done|by rewrite Hks, Hnf| | |].
  - intros k. apply (lookup_not_below n); [done|]. apply Hwf.
  - intros k. apply (lookup_not_below n); [done|]. apply Hwf.
  - intros k. apply (lookup_not_below n); [done|]. apply Hwf.
Qed.

Section Delete.
Context {N H : Type} `{NodeIface N H}.

(** The operation concerns this tree and not one nested in it. *)
Definition local (h : H) (n : MemoryNode N) (kp : Keypath) : Prop := ParentNodeFor h n kp = Ret None.

(** A plain handle: no range of its own and no pending copy. *)
Definition plain_handle (n : MemoryNode N) : Prop := rng n = None ∧ copied n = false.

Lemma delegate_local {A} (h : H) (n : MemoryNode N) kp (inner : N → Keypath → outcome A) rest :
  local h n kp → delegate h n kp inner rest = rest.
Proof. unfold local, delegate. by intros ->. Qed.

Lemma merge_range_None : merge_range None None = Ret None.
Proof. done. Qed.

Lemma with_lengths_wf (n : MemoryNode N) k : mem_wf n → mem_wf (with_lengths n (delete k (contentLengths n))).
Proof.
  intros Hwf. split; try apply Hwf. simpl. intros k' Hk'. apply (wf_lengths n Hwf).
  destruct (decide (k = k')) as [->|Hne]; [rewrite lookup_delete_eq in Hk'; by destruct Hk'|].
  by rewrite lookup_delete_ne in Hk'.
Qed.

Lemma Delete_pruned (h : H) (n : MemoryNode N) kp :
  mem_wf n → plain_handle n → local h n kp →
  ∃ n', Delete h n kp None = Ret (h, n') ∧ pruned (Push (keypath n) kp) n n' ∧
    diff n' = Diff_RemoveMany (diff n) (filter (below (Push (keypath n) kp)) (keypaths n)).
Proof.
  intros Hwf [Hr Hc] Hl. unfold Delete. rewrite delegate_local by done.
  rewrite Hr, merge_range_None. simpl. unfold checkCopied. rewrite Hc.
  set (p := Push (keypath n) kp). set (n1 := with_lengths n (delete p (contentLengths n))).
  destruct (delete_scan_pruned n1 p) as (n' & -> & Hp & Hd); [by apply with_lengths_wf|].
  exists n'. split; [done|]. split; [|done]. destruct Hp as [Hf Hk Ht Hv Hcl]. split; [done..|].
  intros k. rewrite Hcl. case_decide as Hb; [done|]. simpl. apply lookup_delete_ne.
  intros <-. apply Hb. apply StartsWith_refl.
Qed.
End Delete.

(** Without inner nodes every operation is local. *)
Definition no_nodes {N} (n : MemoryNode N) : Prop := ∀ k, nodeTypes n !! k ≠ Some NodeTypeNode.

Lemma no_nodes_local {N H} `{NodeIface N H} (h : H) (n : MemoryNode N) kp : no_nodes n → local h n kp.
Proof.
  intros Hn. unfold local, ParentNodeFor. case_decide; [done|].
  generalize ([] :: Parts kp) (Copy (keypath n)) (Push (keypath n) kp). intros ps.
  induction ps as [|p ps IH]; intros cur abs; simpl; [done|].
  unfold node_type. destruct (nodeTypes n !! Push cur p) as [[]|] eqn:E; simpl; auto.
  by apply Hn in E.
Qed.

(** ** [Set] *)

(** The proper ancestors of a keypath, from the root down. *)
Definition ancestors (k : Keypath) : list Keypath :=
  (λ i, join_sep (take i (path_parts k))) <$> seq 0 (length (path_parts k)).

Lemma elem_of_ancestors k p :
  good_path k → p ∈ ancestors k ↔ good_path p ∧ below p k ∧ p ≠ k.
Proof.
  intros Hk. unfold ancestors, below. rewrite list_elem_of_fmap. split.
  - intros (i & -> & Hi%elem_of_seq).
    assert (Forall good_key (take i (path_parts k))) as Hg by (by apply Forall_take).
    split_and!; [by apply good_path_join| |].
    + apply StartsWith_prefix. rewrite path_parts_join by done. apply prefix_take.
    + intros Heq. apply (f_equal path_parts) in Heq. rewrite path_parts_join in Heq by done.
      apply (f_equal length) in Heq. rewrite length_take in Heq. lia.
  - rewrite StartsWith_prefix. intros (Hg & [rest Hr] & Hne). exists (length (path_parts p)).
    split; [by rewrite Hr, take_app_length, join_path_parts|].
    apply elem_of_seq. rewrite Hr, length_app. split; [lia|]. destruct rest; [|simpl; lia].
    exfalso. apply Hne, path_parts_inj. by rewrite Hr, app_nil_r.
Qed.

Lemma NoDup_ancestors k : good_path k → NoDup (ancestors k).
Proof.
  intros Hk. unfold ancestors. apply NoDup_fmap_2_strong; [|apply NoDup_seq].
  intros i j Hi%elem_of_seq Hj%elem_of_seq Heq.
  apply (f_equal path_parts) in Heq. rewrite !path_parts_join in Heq by (by apply Forall_take).
  apply (f_equal length) in Heq. rewrite !length_take in Heq. lia.
Qed.

(** One ancestor in the loop of [Set]. *)
Definition mark (st : gmap Keypath NodeType * list Keypath) (p : Keypath) :=
  if decide (default NodeTypeInvalid (st.1 !! p) = NodeTypeInvalid)
  then (<[p := NodeTypeMap]> st.1, st.2 ++ [p]) else st.

Lemma join_take_bytes ps q rest :
  take (length (join_sep (ps ++ [q]))) (join_sep (ps ++ q :: rest)) = join_sep (ps ++ [q]).
Proof.
  destruct rest as [|r rest]; [by rewrite take_ge by done|].
  change (q :: r :: rest) with ([q] ++ r :: rest). rewrite (assoc_L (++)).
  rewrite (join_sep_app (ps ++ [q])) by (done || by destruct ps). by rewrite take_app_length.
Qed.

Lemma intermediate_loop_rest k ps rest i st :
  path_parts k = ps ++ rest → rest ≠ [] → i ≠ 0 →
  intermediate_loop k (take (length rest - 1) rest) i
    (match ps with [] => 0 | _ => length (join_sep ps) + 1 end) st =
  foldl mark st ((λ j, join_sep (take j (path_parts k))) <$> seq (S (length ps)) (length rest - 1)).
Proof.
  revert ps i st. induction rest as [|q rest IH]; intros ps i st Hk Hne Hi; [done|].
  destruct rest as [|r rest]; [done|]. simpl length. rewrite !Nat.sub_succ, !Nat.sub_0_r.
  simpl take. cbn [intermediate_loop seq fmap list_fmap foldl].
  assert (match ps with [] => 0 | _ => length (join_sep ps) + 1 end + length q = length (join_sep (ps ++ [q]))) as ->.
  { destruct ps as [|p ps]; [done|]. rewrite join_sep_app by done. simpl. rewrite length_app. simpl. lia. }
  rewrite decide_False by done.
  assert (take (length (join_sep (ps ++ [q]))) k = join_sep (take (S (length ps)) (path_parts k))) as ->.
  { rewrite <- (join_path_parts k) at 1. rewrite Hk, join_take_bytes.
    replace (S (length ps)) with (length (ps ++ [q])) by (rewrite length_app; simpl; lia).
    change (q :: r :: rest) with ([q] ++ r :: rest). by rewrite (assoc_L (++)), take_app_length. }
  specialize (IH (ps ++ [q]) (S i) (mark st (join_sep (take (S (length ps)) (path_parts k))))).
  rewrite <- (assoc_L (++)) in IH. specialize (IH Hk ltac:(done) ltac:(done)).
  simpl length in IH. rewrite !Nat.sub_succ, !Nat.sub_0_r in IH.
  rewrite length_app in IH. simpl in IH. replace (length ps + 1) with (S (length ps)) in IH by lia.
  unfold mark in *. destruct (ps ++ [q]) eqn:E; [by destruct ps|]. exact IH.
Qed.

Lemma intermediate_loop_ancestors k st :
  intermediate_loop k (take (length ([] :: Parts k) - 1) ([] :: Parts k)) 0 0 st = foldl mark st (ancestors k).
Proof.
  destruct (decide (k = [])) as [->|Hk]; [done|].
  rewrite Parts_split by done. rewrite <- path_parts_cons by done. unfold ancestors.
  pose proof (split_sep_nonempty k) as Hne. rewrite <- path_parts_cons in Hne by done.
  destruct (path_parts k) as [|q rest] eqn:E; [done|]. simpl length. rewrite !Nat.sub_succ, !Nat.sub_0_r.
  cbn [take intermediate_loop seq fmap list_fmap foldl]. simpl take. 
  pose proof (intermediate_loop_rest k [] (q :: rest) 1 (mark st []) E) as Hr.
  simpl length in Hr. rewrite !Nat.sub_succ, !Nat.sub_0_r in Hr. rewrite E in Hr.
  unfold mark in *. apply Hr; done.
Qed.

Lemma foldl_mark L nts new :
  NoDup L → (∀ k, nts !! k ≠ Some NodeTypeInvalid) →
  ∃ nts', foldl mark (nts, new) L = (nts', new ++ filter (λ p, nts !! p = None) L) ∧
    ∀ k, nts' !! k = match nts !! k with
                     | Some t => Some t
                     | None => if decide (k ∈ L) then Some NodeTypeMap else None
                     end.
Proof.
  revert nts new. induction L as [|p L IH]; intros nts new Hnd Hv.
  { exists nts. simpl. rewrite app_nil_r. split; [done|]. intros k. by destruct (nts !! k). }
  apply NoDup_cons in Hnd as [Hp Hnd]. simpl foldl. unfold mark at 2. simpl fst. simpl snd.
  destruct (nts !! p) as [t|] eqn:Ht.
  - simpl default. rewrite decide_False by (intros ->; by apply Hv in Ht).
    destruct (IH nts new Hnd Hv) as (nts' & Heq & Hk). exists nts'. rewrite Heq.
    rewrite filter_cons_False by congruence. split; [done|]. intros k. rewrite Hk.
    destruct (nts !! k) eqn:E; [done|]. assert (k ≠ p) by congruence.
    by destruct (decide (k ∈ L)); [rewrite decide_True by set_solver|rewrite decide_False by set_solver].
  - simpl default. rewrite decide_True by done.
    destruct (IH (<[p := NodeTypeMap]> nts) (new ++ [p]) Hnd) as (nts' & Heq & Hk).
    { intros k. destruct (decide (k = p)) as [->|]; [by rewrite lookup_insert_eq|by rewrite lookup_insert_ne]. }
    exists nts'. rewrite Heq. rewrite filter_cons_True by done. split.
    + rewrite <- (assoc_L (++)). simpl. do 3 f_equal. apply filter_ext_in.
      intros x Hx. rewrite lookup_insert_ne; [done|]. by intros ->.
    + intros k. rewrite Hk. destruct (decide (k = p)) as [->|Hne].
      * rewrite lookup_insert_eq, Ht. by rewrite decide_True by set_solver.
      * rewrite lookup_insert_ne by done. destruct (nts !! k); [done|].
        by destruct (decide (k ∈ L)); [rewrite decide_True by set_solver|rewrite decide_False by set_solver].
Qed.

(** What the tables hold for a value at a keypath. *)
Definition stored {N} (st : setting N) (k : Keypath) (w : goval N) : Prop :=
  match w with
  | GMap _ => set_types st !! k = Some NodeTypeMap
  | GSlice l => set_types st !! k = Some NodeTypeSlice ∧ set_lengths st !! k = Some (Z.of_nat (length l))
  | GScalar s => set_types st !! k = Some NodeTypeValue ∧ set_values st !! k = Some (MV s)
  | GNode x => set_types st !! k = Some NodeTypeNode ∧ set_values st !! k = Some (MN x)
  end.

Definition same_at {N} (st st' : setting N) (k : Keypath) : Prop :=
  set_types st' !! k = set_types st !! k ∧ set_values st' !! k = set_values st !! k ∧
  set_lengths st' !! k = set_lengths st !! k.

Lemma same_at_stored {N} (st st' : setting N) k w : same_at st st' k → stored st k w → stored st' k w.
Proof. intros (H1 & H2 & H3). destruct w; simpl; congruence. Qed.

Lemma set_step_spec {N} p (st : setting N) kp w :
  ∃ st', set_step p st kp w = Ret st' ∧ set_new st' = set_new st ++ [Push p kp] ∧
    stored st' (Push p kp) w ∧ ∀ k, k ≠ Push p kp → same_at st st' k.
Proof.
  destruct w; (eexists; split; [done|]); simpl; rewrite ?lookup_insert_eq;
    (split; [done|]); (split; [done|]); intros k Hk; split_and!; simpl; rewrite ?lookup_insert_ne by done; done.
Qed.

Lemma fold_set_step {N} p (vs : list (Keypath * goval N)) st :
  NoDup vs.*1 →
  ∃ st', fold_outcome (λ s kv, set_step p s kv.1 kv.2) st vs = Ret st' ∧
    set_new st' = set_new st ++ (Push p <$> vs.*1) ∧
    (∀ kp w, (kp, w) ∈ vs → stored st' (Push p kp) w) ∧
    (∀ k, k ∉ Push p <$> vs.*1 → same_at st st' k).
Proof.
  revert st. induction vs as [|[kp w] vs IH]; intros st.
  { intros _. exists st. simpl. rewrite app_nil_r. split_and!; [done..|set_solver|]. by intros. }
  rewrite fmap_cons. intros [Hkp Hnd]%NoDup_cons. cbn [fold_outcome fst snd] in *.
  destruct (set_step_spec p st kp w) as (st1 & -> & Hn1 & Hs1 & Hf1). cbn [obind].
  destruct (IH st1 Hnd) as (st' & -> & Hn & Hs & Hf).
  assert (Push p kp ∉ Push p <$> vs.*1) as Hout.
  { intros (x & Heq%Push_inj & Hx)%list_elem_of_fmap. by subst. }
  exists st'. split_and!; [done| | |].
  - rewrite Hn, Hn1, <- (assoc_L (++)). done.
  - intros k x [[= -> ->]|Hin]%elem_of_cons; [|by apply Hs]. eapply same_at_stored; [by apply Hf|done].
  - intros k [Hk1 Hk2]%not_elem_of_cons. destruct (Hf k Hk2) as (? & ? & ?). destruct (Hf1 k Hk1) as (? & ? & ?).
    split_and!; congruence.
Qed.

Lemma find_from_None test ks i : (∀ k, k ∈ ks → test k = false) → find_from test ks i = None.
Proof.
  revert i. induction ks as [|k ks IH]; intros i Hks; simpl; [done|].
  rewrite Hks by set_solver. apply IH. set_solver.
Qed.

(** New keypaths that are not above existing ones are merged in order. *)
Lemma addKeypaths_sorted ks new :
  NoDup (ks ++ new) → StronglySorted bytes_lt ks →
  (∀ p k, p ∈ new → p ≠ [] → k ∈ ks → ¬ below p k) →
  StronglySorted bytes_lt (addKeypaths ks new) ∧ addKeypaths ks new ≡ₚ ks ++ new.
Proof.
  intros Hnd Hs Hnb. unfold addKeypaths. pose proof (sort_bytes_perm 0 new) as Hperm.
  destruct (sort_bytes 0 new) as [|p rest].
  { apply Permutation_nil_l in Hperm. subst. rewrite app_nil_r. done. }
  assert (default 0 (findPrefixStart ks 0 p) = 0) as ->.
  { unfold findPrefixStart. repeat case_decide; try done. rewrite drop_0, find_from_None; [done|].
    intros k Hk. apply not_below_false, Hnb; [|by intros ->|done]. rewrite <- Hperm. set_solver. }
  assert (sort_bytes 0 (ks ++ p :: rest) ≡ₚ ks ++ new) as Hall by (by rewrite sort_bytes_perm, Hperm).
  split; [|done]. apply StronglySorted_le_lt; [by rewrite Hall|apply sort_bytes_sorted].
Qed.

(** ** The abstract view *)

(** The shape stored at a keypath. *)
Definition node_shape {N} (n : MemoryNode N) (k : Keypath) : option (shape N) :=
  match nodeTypes n !! k with
  | Some NodeTypeMap => Some ShMap
  | Some NodeTypeSlice => Some (ShSlice (Z.to_nat (content_length n k)))
  | Some NodeTypeValue => match values n !! k with Some (MV s) => Some (ShScalar s) | _ => None end
  | Some NodeTypeNode => match values n !! k with Some (MN x) => Some (ShNode x) | _ => None end
  | _ => None
  end.

(** The subtree at [p] is the value [v]. *)
Definition represents {N} (n : MemoryNode N) (p : Keypath) (v : goval N) : Prop :=
  ∀ r, node_shape n (Push p r) = shape_at v (path_parts r).

Lemma node_shape_Some {N} (n : MemoryNode N) k :
  mem_wf n → is_Some (node_shape n k) ↔ k ∈ keypaths n.
Proof.
  intros Hwf. rewrite (wf_types n Hwf). unfold node_shape. destruct (nodeTypes n !! k) as [t|] eqn:E; [|done].
  destruct t; try (split; intros _; by eexists).
  - by apply (wf_valid n Hwf) in E.
  - destruct (wf_scalar n Hwf k E) as [s ->]. split; intros _; by eexists.
  - destruct (wf_node n Hwf k E) as [s ->]. split; intros _; by eexists.
Qed.

Lemma node_shape_None {N} (n : MemoryNode N) k :
  mem_wf n → node_shape n k = None ↔ nodeTypes n !! k = None.
Proof.
  intros Hwf. rewrite !eq_None_not_Some, node_shape_Some, (wf_types n Hwf) by done. done.
Qed.

(** Nothing at or below [p] is left in a pruned tree. *)
Lemma pruned_below {N} p (n n' : MemoryNode N) k :
  pruned p n n' → below p k →
  nodeTypes n' !! k = None ∧ values n' !! k = None ∧ contentLengths n' !! k = None.
Proof.
  intros Hp Hk. rewrite (pr_types _ _ _ Hp), (pr_values _ _ _ Hp), (pr_lengths _ _ _ Hp).
  by rewrite !decide_True by done.
Qed.

Lemma pruned_shape {N} p (n n' : MemoryNode N) k :
  pruned p n n' → ¬ below p k → node_shape n' k = node_shape n k.
Proof.
  intros Hp Hk. unfold node_shape, content_length.
  rewrite (pr_types _ _ _ Hp), (pr_values _ _ _ Hp), (pr_lengths _ _ _ Hp). by rewrite !decide_False by done.
Qed.

(** The keys of the value sort after the separator. *)
Definition keys_min {N} (v : goval N) : Prop :=
  ∀ ps w, lookup_parts v ps = Some w → Forall sep_min ps.

Lemma sep_min_join ps : Forall sep_min ps → sep_min (join_sep ps).
Proof.
  induction 1 as [|p ps Hp _ IH]; [constructor|]. destruct ps as [|q ps]; [done|].
  rewrite join_sep_cons by done. by apply sep_min_sep.
Qed.

Lemma sep_min_Push k p : sep_min k → sep_min p → sep_min (Push k p).
Proof.
  unfold Push. intros Hk Hp. repeat case_decide; [done..|].
  by apply sep_min_sep.
Qed.

(** The tables [Set] ends with: [n1] is the tree after the deletion, [ks] lists the keypaths
    of the value, and [missing] the ancestors that did not exist. *)
Definition missing {N} (n1 : MemoryNode N) (p : Keypath) : list Keypath :=
  filter (λ k, nodeTypes n1 !! k = None) (ancestors p).

Record set_result {N} (n1 : MemoryNode N) (p : Keypath) (v : goval N) (n' : MemoryNode N)
    (ks : list Keypath) : Prop := {
  sr_frame : same_frame n1 n';
  sr_nodup : NoDup ks;
  sr_elem : ∀ k, k ∈ ks ↔ ∃ r w, k = Push p r ∧ lookup_path v r = Some w;
  sr_keypaths : keypaths n' = addKeypaths (keypaths n1) (missing n1 p ++ ks);
  sr_diff : diff n' = Diff_AddMany (diff n1) (missing n1 p ++ ks);
  sr_stored : ∀ r w, lookup_path v r = Some w →
    stored (mkSetting [] (values n') (nodeTypes n') (contentLengths n')) (Push p r) w;
  sr_types : ∀ k, k ∉ ks → nodeTypes n' !! k =
    match nodeTypes n1 !! k with
    | Some t => Some t
    | None => if decide (k ∈ ancestors p) then Some NodeTypeMap else None
    end;
  sr_values : ∀ k, k ∉ ks → values n' !! k = values n1 !! k;
  sr_lengths : ∀ k, k ∉ ks → contentLengths n' !! k = contentLengths n1 !! k
}.

Lemma set_walk_tables {N} (n1 : MemoryNode N) p v :
  mem_wf n1 → good_path p → addressable v →
  ∃ n' ks, set_walk n1 p v = Ret n' ∧ set_result n1 p v n' ks.
Proof.
  intros Hwf Hp Hv. destruct (walkGoValue_positions v Hv) as (vs & Hnd & Hvs & Hwalk).
  unfold set_walk. rewrite intermediate_loop_ancestors.
  destruct (foldl_mark (ancestors p) (nodeTypes n1) []) as (nts & -> & Hnts);
    [by apply NoDup_ancestors|apply Hwf|]. simpl app. rewrite Hwalk.
  destruct (fold_set_step p vs (mkSetting (missing n1 p) (values n1) nts (contentLengths n1)) Hnd)
    as (st & Heq & Hnew & Hst & Hfr).
  unfold missing in Heq. rewrite Heq. simpl. eexists _, (Push p <$> vs.*1). split; [done|].
  split; simpl; rewrite ?Hnew; try done.
  - apply NoDup_fmap_2; [|done]. intros ??. apply Push_inj.
  - intros k. rewrite list_elem_of_fmap. split.
    + intros (r & -> & ([r' w] & -> & Hw)%list_elem_of_fmap). exists r', w. split; [done|]. by apply Hvs.
    + intros (r & w & -> & Hw%Hvs). exists r. split; [done|]. by apply (list_elem_of_fmap_2 fst) in Hw.
  - intros kp w Hw%Hvs. by apply Hst in Hw.
  - intros k Hk. destruct (Hfr k Hk) as (H1 & H2 & H3). simpl in *. by rewrite H1, Hnts.
  - intros k Hk. by destruct (Hfr k Hk) as (H1 & H2 & H3).
  - intros k Hk. by destruct (Hfr k Hk) as (H1 & H2 & H3).
Qed.

Section SetFacts.
Context {N : Type} (n1 n' : MemoryNode N) (p : Keypath) (v : goval N) (ks : list Keypath).
Context (Hwf : mem_wf n1) (Hp : good_path p) (Hmin : sep_min p).
Context (Hv : addressable v) (Hkm : keys_min v).
Context (Hnone : ∀ k, below p k → nodeTypes n1 !! k = None).
Context (Hsr : set_result n1 p v n' ks).

Lemma set_ks_below k : k ∈ ks → below p k.
Proof using Hsr. intros (r & w & -> & _)%(sr_elem _ _ _ _ _ Hsr). apply StartsWith_Push. Qed.

Lemma set_ks_good k : k ∈ ks → good_path k ∧ sep_min k.
Proof using Hsr Hp Hmin Hv Hkm.
  intros (r & w & -> & Hw)%(sr_elem _ _ _ _ _ Hsr). unfold lookup_path in Hw.
  split; [apply good_path_Push; split; [done|]|apply sep_min_Push; [done|]].
  - by apply (lookup_parts_good v w).
  - rewrite <- (join_path_parts r). by eapply sep_min_join, Hkm.
Qed.

Lemma not_keypath k : below p k → k ∉ keypaths n1.
Proof using Hwf Hnone. intros Hb [t Ht]%(wf_types n1 Hwf). rewrite Hnone in Ht by done. done. Qed.

Lemma missing_elem k : k ∈ missing n1 p ↔ k ∈ ancestors p ∧ k ∉ keypaths n1.
Proof using Hwf.
  unfold missing. rewrite list_elem_of_filter, (wf_types n1 Hwf), eq_None_not_Some. tauto.
Qed.

Lemma ancestor_not_below k : k ∈ ancestors p → ¬ below p k.
Proof using Hp.
  intros (_ & Hb & Hne)%elem_of_ancestors; [|done]. unfold below in *. rewrite StartsWith_prefix in *.
  intros Hb'. apply Hne, path_parts_inj. by apply (anti_symm prefix).
Qed.

Lemma set_keypaths_perm :
  StronglySorted bytes_lt (keypaths n') ∧ keypaths n' ≡ₚ keypaths n1 ++ missing n1 p ++ ks.
Proof using Hsr Hwf Hp Hnone.
  rewrite (sr_keypaths _ _ _ _ _ Hsr). apply addKeypaths_sorted; [|apply Hwf|].
  - apply NoDup_app. split_and!.
    + apply sorted_lt_NoDup, Hwf.
    + intros k Hk [[_ Hn]%missing_elem|Hk']%elem_of_app; [done|]. by apply set_ks_below, not_keypath in Hk'.
    + apply NoDup_app. split_and!; [by apply NoDup_filter, NoDup_ancestors| |apply Hsr].
      intros k [Ha _]%missing_elem Hk%set_ks_below. by eapply ancestor_not_below.
  - intros q k [[Ha Hq]%missing_elem|Hq%set_ks_below]%elem_of_app _ Hk Hb.
    + apply elem_of_ancestors in Ha as [Ha _]; [|done]. by eapply Hq, wf_parents.
    + apply (not_keypath k); [|done]. unfold below in *. by eapply StartsWith_trans.
Qed.

Lemma set_elem k : k ∈ keypaths n' ↔ k ∈ keypaths n1 ∨ k ∈ ancestors p ∨ k ∈ ks.
Proof using Hsr Hwf Hp Hnone.
  rewrite (proj2 set_keypaths_perm), !elem_of_app, missing_elem.
  destruct (decide (k ∈ keypaths n1)); tauto.
Qed.

Lemma set_stored k :
  k ∈ ks → ∃ r w, k = Push p r ∧ lookup_path v r = Some w ∧
    stored (mkSetting [] (values n') (nodeTypes n') (contentLengths n')) k w.
Proof using Hsr.
  intros (r & w & -> & Hw)%(sr_elem _ _ _ _ _ Hsr). exists r, w. split; [done|].
  split; [done|]. by apply (sr_stored _ _ _ _ _ Hsr).
Qed.

Lemma set_wf : mem_wf n'.
Proof using Hsr Hwf Hp Hmin Hv Hkm Hnone.
  destruct set_keypaths_perm as [Hs _].
  assert (∀ k, k ∈ keypaths n' → good_path k ∧ sep_min k) as Hgm.
  { intros k [Hk|[Ha|Hk]]%set_elem; [| |by apply set_ks_good].
    - pose proof (wf_good n1 Hwf) as Hg. pose proof (wf_min n1 Hwf) as Hm. rewrite Forall_forall in Hg, Hm. auto.
    - apply elem_of_ancestors in Ha as (Hg & Hb & _); [|done]. split; [done|].
      apply StartsWith_Push_iff in Hb as (r & _ & Hpr); [|done]. unfold Push in Hpr.
      repeat case_decide; subst; [destruct k; [constructor|done]|done|]. by apply sep_min_sep in Hmin as [? _]. }
  split; [done| | | | | | | | |].
  - intros k. rewrite set_elem. destruct (decide (k ∈ ks)) as [Hk|Hk].
    + destruct (set_stored k Hk) as (r & w & -> & _ & Hst).
      split; [intros _|auto]. destruct w; simpl in Hst; destruct_and?; by eexists.
    + rewrite (sr_types _ _ _ _ _ Hsr k Hk), (wf_types n1 Hwf).
      destruct (nodeTypes n1 !! k); [split; eauto|].
      case_decide; split; intros; eauto; naive_solver.
  - intros k. destruct (decide (k ∈ ks)) as [Hk|Hk].
    + destruct (set_stored k Hk) as (r & w & -> & _ & Hst). destruct w; simpl in Hst; destruct_and?; congruence.
    + rewrite (sr_types _ _ _ _ _ Hsr k Hk). destruct (nodeTypes n1 !! k) eqn:E; [rewrite <- E; apply Hwf|].
      by case_decide.
  - apply Forall_forall. intros k Hk. by apply Hgm.
  - apply Forall_forall. intros k Hk. by apply Hgm.
  - intros k q Hk Hq Hb. rewrite set_elem in *. destruct (decide (below p q)) as [Hqp|Hqp].
    + assert (below p k) as Hkp by (unfold below in *; by eapply StartsWith_trans).
      destruct Hk as [Hk|[Ha|Hk]];
        [by apply not_keypath in Hkp|by apply ancestor_not_below in Ha|].
      apply (sr_elem _ _ _ _ _ Hsr) in Hk as (r & w & -> & Hw).
      apply StartsWith_Push_iff in Hqp as (r' & Hr' & ->); [|done]. right; right.
      apply (sr_elem _ _ _ _ _ Hsr). exists r'.
      unfold below in Hb. rewrite StartsWith_prefix, !path_parts_Push in Hb. apply prefix_app_inv in Hb as [rest Hr].
      unfold lookup_path in *. rewrite Hr, lookup_parts_app in Hw.
      destruct (lookup_parts v (path_parts r')) as [w'|]; [by exists w'|done].
    + destruct Hk as [Hk|Hk]; [left; by eapply wf_parents|]. right; left.
      apply elem_of_ancestors; [done|].
      assert (q = p ∨ q ≠ p) as [->|Hne] by (destruct (decide (q = p)); auto);
        [by destruct Hqp; apply StartsWith_refl|].
      split_and!; [done| |done]. destruct Hk as [Ha|Hk].
      * apply elem_of_ancestors in Ha as (_ & Ha & _); [|done]. unfold below in *. by eapply StartsWith_trans.
      * apply set_ks_below in Hk. unfold below in *. rewrite StartsWith_prefix in *.
        by destruct (prefix_weak_total _ _ _ Hb Hk).
  - intros k Hk. rewrite set_elem. destruct (decide (k ∈ ks)) as [|Hn]; [auto|].
    rewrite (sr_values _ _ _ _ _ Hsr k Hn) in Hk. left. by apply (wf_values n1 Hwf).
  - intros k Hk. rewrite set_elem. destruct (decide (k ∈ ks)) as [|Hn]; [auto|].
    rewrite (sr_lengths _ _ _ _ _ Hsr k Hn) in Hk. left. by apply (wf_lengths n1 Hwf).
  - intros k. destruct (decide (k ∈ ks)) as [Hk|Hk].
    + destruct (set_stored k Hk) as (r & w & -> & _ & Hst). destruct w; simpl in Hst; destruct_and?; naive_solver.
    + rewrite (sr_types _ _ _ _ _ Hsr k Hk), (sr_values _ _ _ _ _ Hsr k Hk).
      destruct (nodeTypes n1 !! k) eqn:E; [rewrite <- E; apply (wf_scalar n1 Hwf)|]. by case_decide.
  - intros k. destruct (decide (k ∈ ks)) as [Hk|Hk].
    + destruct (set_stored k Hk) as (r & w & -> & _ & Hst). destruct w; simpl in Hst; destruct_and?; naive_solver.
    + rewrite (sr_types _ _ _ _ _ Hsr k Hk), (sr_values _ _ _ _ _ Hsr k Hk).
      destruct (nodeTypes n1 !! k) eqn:E; [rewrite <- E; apply (wf_node n1 Hwf)|]. by case_decide.
Qed.

Lemma set_represents : represents n' p v.
Proof using Hsr Hwf Hp Hmin Hv Hkm Hnone.
  intros r. unfold shape_at. destruct (lookup_parts v (path_parts r)) as [w|] eqn:Hw; simpl.
  - pose proof (sr_stored _ _ _ _ _ Hsr r w Hw) as Hst. unfold node_shape, content_length.
    destruct w; simpl in *; destruct_and?; repeat match goal with H : _ !! _ = Some _ |- _ => rewrite H; clear H end; simpl; [done..|by rewrite Nat2Z.id|done].
  - apply node_shape_None; [apply set_wf|]. apply eq_None_not_Some.
    rewrite <- (wf_types n' set_wf), set_elem. assert (below p (Push p r)) as Hb by apply StartsWith_Push.
    intros [Hk|[Ha|Hk]]; [by apply not_keypath in Hb|by apply ancestor_not_below in Ha|].
    apply (sr_elem _ _ _ _ _ Hsr) in Hk as (r' & w & ->%Push_inj & Hw'). unfold lookup_path in Hw'. congruence.
Qed.

Lemma set_other k :
  ¬ below p k →
  node_shape n' k = match node_shape n1 k with
                    | Some s => Some s
                    | None => if decide (k ∈ ancestors p) then Some ShMap else None
                    end.
Proof using Hsr Hwf.
  intros Hk. assert (k ∉ ks) as Hks by (by intros ?%set_ks_below).
  pose proof (node_shape_None n1 k Hwf) as Hn. unfold node_shape at 1, content_length.
  rewrite (sr_types _ _ _ _ _ Hsr k Hks), (sr_values _ _ _ _ _ Hsr k Hks), (sr_lengths _ _ _ _ _ Hsr k Hks).
  destruct (nodeTypes n1 !! k) as [t|] eqn:E.
  - destruct (node_shape n1 k) eqn:E2; [|by discriminate (proj1 Hn eq_refl)]. rewrite <- E2.
    unfold node_shape, content_length. by rewrite E.
  - rewrite (proj2 Hn) by done. by case_decide.
Qed.
End SetFacts.

(** What [Set] does, on every tree that satisfies the invariant. *)
Lemma Set_spec {N H} `{NodeIface N H} (h : H) (n : MemoryNode N) kp v :
  mem_wf n → plain_handle n → local h n kp →
  good_path (Push (keypath n) kp) → sep_min (Push (keypath n) kp) → addressable v → keys_min v →
  ∃ n', Set_ h n kp None v = Ret (h, n') ∧ mem_wf n' ∧ same_frame n n' ∧
    represents n' (Push (keypath n) kp) v ∧
    ∀ k, ¬ below (Push (keypath n) kp) k →
      node_shape n' k = match node_shape n k with
                        | Some s => Some s
                        | None => if decide (k ∈ ancestors (Push (keypath n) kp)) then Some ShMap else None
                        end.
Proof.
  intros Hwf Hph Hl Hg Hm Hv Hkm. unfold Set_. rewrite delegate_local by done.
  unfold checkCopied. rewrite (proj2 Hph).
  destruct (Delete_pruned h n kp Hwf Hph Hl) as (n1 & -> & Hpr & _). simpl.
  pose proof (pruned_wf _ _ _ Hpr Hwf) as Hwf1. destruct (pr_frame _ _ _ Hpr) as (Hk & Hr & Hc).
  rewrite Hk. set (p := Push (keypath n) kp) in *.
  destruct (set_walk_tables n1 p v) as (n' & ks & -> & Hsr); [done..|]. simpl.
  assert (∀ k, below p k → nodeTypes n1 !! k = None) as Hnone by (intros k Hb; by eapply pruned_below).
  exists n'. split; [done|]. split; [by eapply set_wf|]. split.
  { destruct (sr_frame _ _ _ _ _ Hsr) as (? & ? & ?). split_and!; congruence. }
  split; [by eapply set_represents|]. intros k Hkb. rewrite (set_other n1 n' p v ks) by done.
  by rewrite (pruned_shape p n n1).
Qed.

(** ** [Value] *)

(** A callback that never fails turns a scan into a fold. *)
Lemma scan_positions_fold {S} (fn : S → Keypath → nat → outcome S) (step : S → Keypath → outcome S) l i s s' :
  (∀ s k i, fn s k i = step s k) → fold_outcome step s l = Ret s' → scan_positions fn l i s = Ret (s', None).
Proof.
  intros Hfn. revert i s. induction l as [|k l IH]; intros i s; simpl; [by intros [= ->]|].
  rewrite Hfn. destruct (step s k); simpl; [apply IH|done..].
Qed.

Section ValueFacts.
Context {H : Type} `{NodeIface Empty_set H}.
Context (h : H) (n : MemoryNode Empty_set) (p : Keypath) (v : plain).
Context (Hwf : mem_wf n) (Hrep : represents n p v) (Hv : addressable v).

(** The keypaths at and below [p] are the positions of the value. *)
Lemma run_positions k :
  k ∈ filter (below p) (keypaths n) ↔
  ∃ ps, Forall good_key ps ∧ k = Push p (join_sep ps) ∧ is_Some (lookup_parts v ps).
Proof using Hwf Hrep.
  rewrite list_elem_of_filter. split.
  - intros [Hb Hin]. pose proof (wf_good n Hwf) as Hg. rewrite Forall_forall in Hg. specialize (Hg k Hin).
    apply StartsWith_Push_iff in Hb as (r & Hr & ->); [|done].
    exists (path_parts r). rewrite join_path_parts. split; [done|]. split; [done|].
    apply (node_shape_Some n) in Hin; [|done]. rewrite Hrep in Hin. unfold shape_at in Hin.
    by rewrite fmap_is_Some in Hin.
  - intros (ps & Hg & -> & Hs). split; [apply StartsWith_Push|]. apply (node_shape_Some n); [done|].
    rewrite Hrep, path_parts_join by done. unfold shape_at. by rewrite fmap_is_Some.
Qed.

(** The stored entry of a position yields its value with the children left out. *)
Lemma fill_step_value m ps w i :
  Forall good_key ps → ps ≠ [] → lookup_parts v ps = Some w →
  fill_step h n p m (Push p (join_sep ps)) i = setValueAtKeypath m (join_sep ps) (hollow w) false.
Proof using Hwf Hrep.
  intros Hg Hne Hw. unfold fill_step.
  rewrite RelativeTo_Push by (by apply good_path_head, good_path_join). cbn [obind].
  pose proof (join_nonempty ps Hne Hg) as Hj. rewrite decide_False by (by destruct (join_sep ps)).
  pose proof (Hrep (join_sep ps)) as Hs. rewrite path_parts_join in Hs by done.
  unfold shape_at in Hs. rewrite Hw in Hs. simpl in Hs. unfold node_shape in Hs. unfold node_type, value_at.
  destruct (nodeTypes n !! Push p (join_sep ps)) as [[]|]; simpl; try done.
  - destruct (values n !! _) as [[s|[]]|]; simpl; try done. destruct w; simplify_eq/=. done.
  - destruct w; simplify_eq/=. done.
  - destruct w as [| |l|]; simplify_eq/=. by rewrite Hs.
  - by destruct (values n !! _) as [[|[]]|].
Qed.


Lemma fill_scan : ∃ m, scanKeypathsWithPrefix (fill_step h n p) n p None (hollow v) = Ret (m, None) ∧ goval_equiv m v.
Proof using Hwf Hrep Hv.
  destruct (subtree_run p (keypaths n)) as (l1 & l2 & l3 & Hks & H1 & H2 & H3); [apply Hwf..|].
  unfold scanKeypathsWithPrefix. rewrite Hks, scan_prefix_run by done.
  assert (l2 = filter (below p) (keypaths n)) as -> by (rewrite Hks; symmetry; by apply filter_run).
  destruct (assemble_run p v (filter (below p) (keypaths n))) with (step := λ m k, fill_step h n p m k 0)
    (built := λ m : plain, m) (dn := @nil Keypath) (todo := filter (below p) (keypaths n)) (s := hollow v)
    as (m & Hm & Heq); [apply StronglySorted_filter, Hwf|apply run_positions|
       intros ps w Hw; by apply (lookup_parts_good v w)| | |done|apply filled_start|].
  - intros m. exists m. unfold fill_step. by rewrite RelativeTo_self.
  - intros m ps w m' Hg Hne Hw Hm. exists m'. by rewrite (fill_step_value m ps w 0).
  - exists m. split; [|done]. by eapply scan_positions_fold; [|exact Hm].
Qed.
End ValueFacts.

Lemma Value_spec {H} `{NodeIface Empty_set H} (h : H) (n : MemoryNode Empty_set) kp v :
  mem_wf n → plain_handle n → represents n (Push (keypath n) kp) v → addressable v →
  ∃ w, Value h n kp None = Ret (Some w) ∧ goval_equiv w v.
Proof.
  intros Hwf [Hr _] Hrep Hv. unfold Value. rewrite delegate_local.
  2: { apply no_nodes_local. intros k Hk. by destruct (wf_node n Hwf k Hk) as [[]]. }
  rewrite Hr. simpl. set (p := Push (keypath n) kp) in *.
  pose proof (Hrep []) as Hs. rewrite Push_nil_r in Hs. unfold shape_at, node_shape in Hs. simpl in Hs.
  destruct (fill_scan h n p v Hwf Hrep Hv) as (m & Hm & Heq).
  unfold node_type. destruct (nodeTypes n !! p) as [[]|] eqn:Ht; simpl; try done.
  - destruct (values n !! p) as [[s|[]]|]; try done. destruct v; simplify_eq/=. by eexists.
  - destruct v; simplify_eq/=. simpl hollow in Hm. rewrite Hm. simpl. by eexists.
  - destruct v as [| |l|]; simplify_eq/=. rewrite Hs. simpl hollow in Hm. rewrite Hm. simpl. by eexists.
  - by destruct (values n !! p) as [[|[]]|].
Qed.

(** ** Checking the conditions on a value *)

Lemma keys_min_scalar {N} s : keys_min (GScalar s : goval N).
Proof. intros [|p ps] w; simpl; [constructor|done]. Qed.

Lemma keys_min_map {N} (m : list (bytes * goval N)) :
  Forall (λ kv, sep_min kv.1 ∧ keys_min kv.2) m → keys_min (GMap m).
Proof.
  intros Hm [|p ps] w; simpl; [constructor|]. intros Hw.
  destruct (assoc_get p m) as [c|] eqn:Hc; [|done]. simpl in Hw.
  assert ((p, c) ∈ m) as Hin.
  { clear Hm Hw. induction m as [|[k x] m IH]; simpl in Hc; [done|].
    case_decide; [simplify_eq; set_solver|]. apply elem_of_cons. auto. }
  rewrite Forall_forall in Hm. destruct (Hm _ Hin) as [Hp Hc']. constructor; [done|]. by eapply Hc'.
Qed.

Lemma keys_min_slice {N} (l : list (goval N)) :
  (Z.of_nat (length l) ≤ max_index)%Z → Forall keys_min l → keys_min (GSlice l).
Proof.
  intros Hlen Hl [|p ps] w; simpl; [constructor|]. destruct (index_of p) as [i|] eqn:Hi; [|done]. simpl.
  destruct (l !! i) as [c|] eqn:Hc; [|done]. simpl. intros Hw.
  constructor; [|eapply (Forall_lookup_1 _ _ _ _ Hl Hc); done].
  apply lookup_lt_Some in Hc. apply index_of_decode in Hi as [_ He].
  destruct (EncodeSliceIndex_ok (Z.of_nat i)) as (e & He' & _ & _ & Hd); [lia|].
  assert (e = p) as -> by congruence.
  assert (Forall (λ b, (47 ≤ Byte.to_N b < 58)%N) p) as Hdig.
  { eapply Forall_impl; [exact Hd|]. intros b [d Hb%digit_val_byte]. unfold byte_to_Z in Hb. lia. }
  apply sep_min_split. rewrite split_sep_no_sep.
  - apply Forall_singleton. left. split; [eapply Forall_impl; [exact Hdig|]; intros b [Hb _]; exact Hb|].
    intros ->. by apply Forall_cons in Hdig as [[_ ?] _].
  - intros Hin. rewrite Forall_forall in Hd. apply Hd in Hin as [d [Hb Hr]%digit_val_byte]. change (byte_to_Z sep) with 47%Z in Hb. lia.
Qed.

Lemma example_value_ok : addressable example_value ∧ keys_min example_value.
Proof.
  split; [split|].
  - simpl. split_and!; try done; try (by intros ?%elem_of_list_In).
    + repeat (constructor; [set_solver|]). constructor.
    + unfold no_sep. vm_compute. set_solver.
    + unfold no_sep. vm_compute. set_solver.
  - simpl. unfold max_index. split_and!; (exact I || lia).
  - apply keys_min_map. constructor; [split; [by vm_decide|apply keys_min_scalar]|].
    constructor; [split; [by vm_decide|]|constructor].
    apply keys_min_slice; [unfold max_index; simpl; lia|].
    repeat constructor; apply keys_min_scalar.
Qed.

(** ** Theorems *)

(** Updates of one tree: [Set] and [Delete] of keypaths and values the tree can name. *)
Inductive mem_step {N H} `{NodeIface N H} : H * MemoryNode N → H * MemoryNode N → Prop :=
  | mem_set h n kp v h' n' :
      local h n kp → good_path (Push (keypath n) kp) → sep_min (Push (keypath n) kp) →
      addressable v → keys_min v →
      Set_ h n kp None v = Ret (h', n') → mem_step (h, n) (h', n')
  | mem_delete h n kp h' n' :
      local h n kp → Delete h n kp None = Ret (h', n') → mem_step (h, n) (h', n').


Definition tree_a : MemoryNode Empty_set :=
  match Set_ tt NewMemoryNode (str "a") None example_value with Ret (_, n) => n | _ => NewMemoryNode end.

Lemma tree_a_wf : mem_wf tree_a ∧ plain_handle tree_a.
Proof.
  destruct (Set_spec tt NewMemoryNode (str "a") example_value) as (n' & Hs & Hwf & (_ & Hr & Hc) & _).
  - apply NewMemoryNode_wf.
  - done.
  - done.
  - repeat constructor; [discriminate|]. unfold no_sep. vm_compute. set_solver.
  - vm_decide.
  - apply example_value_ok.
  - apply example_value_ok.
  - unfold tree_a. rewrite Hs. split; [done|]. by split.
Qed.


(** C7: Setting a value and reading it back gives the value: for every tree that satisfies the
    invariant, every keypath and every plain value whose keys the tree can name, [Set]
    succeeds and [Value] on the result returns a value with the same scalars, maps and
    slices at the same positions. *)
Theorem memory_set_get {H} `{NodeIface Empty_set H} (h : H) (n : MemoryNode Empty_set) kp v :
  mem_wf n → plain_handle n →
  good_path (Push (keypath n) kp) → sep_min (Push (keypath n) kp) → addressable v → keys_min v →
  ∃ n' w, Set_ h n kp None v = Ret (h, n') ∧ Value h n' kp None = Ret (Some w) ∧ goval_equiv w v.
Proof.
  intros Hwf Hph Hg Hm Hv Hk.
  assert (local h n kp) as Hl.
  { apply no_nodes_local. intros k Ht. by destruct (wf_node n Hwf k Ht) as [[]]. }
  destruct (Set_spec h n kp v) as (n' & Hset & Hwf' & (Hkp & Hr & Hc) & Hrep & _); [done..|].
  destruct (Value_spec h n' kp v Hwf') as (w & Hw & Heq).
  - destruct Hph. split; congruence.
  - by rewrite Hkp.
  - done.
  - by exists n', w.
Qed.

Lemma memory_set_get_witness :
  ∃ n' w, Set_ tt (@NewMemoryNode Empty_set) (str "a") None example_value = Ret (tt, n') ∧
    Value tt n' (str "a") None = Ret (Some w) ∧ goval_equiv w example_value.
Proof.
  apply (memory_set_get tt NewMemoryNode (str "a") example_value).
  - apply NewMemoryNode_wf.
  - split; reflexivity.
  - repeat constructor; [discriminate|]. unfold no_sep. vm_compute. set_solver.
  - vm_decide.
  - apply example_value_ok.
  - apply example_value_ok.
Defined.

(** [Set] changes the subtree at the keypath and nothing else: afterwards the subtree is
    exactly the value, ancestors that were missing are maps, and every other keypath has
    the node it had. *)
Theorem memory_set_frame {N H} `{NodeIface N H} (h : H) (n : MemoryNode N) kp v :
  mem_wf n → plain_handle n → local h n kp →
  good_path (Push (keypath n) kp) → sep_min (Push (keypath n) kp) → addressable v → keys_min v →
  ∃ n', Set_ h n kp None v = Ret (h, n') ∧
    (∀ r, node_shape n' (Push (Push (keypath n) kp) r) = shape_at v (path_parts r)) ∧
    (∀ k, good_path k → StartsWith k (Push (keypath n) kp) = false →
       node_shape n' k =
         match node_shape n k with
         | Some s => Some s
         | None => if StartsWith (Push (keypath n) kp) k then Some ShMap else None
         end).
Proof.
  intros Hwf Hph Hl Hg Hm Hv Hk.
  destruct (Set_spec h n kp v) as (n' & Hset & _ & _ & Hrep & Hoth); [done..|].
  exists n'. split; [done|]. split; [exact Hrep|]. intros k Hgk Hb.
  rewrite Hoth by (unfold below; by rewrite Hb). destruct (node_shape n k); [done|].
  assert (k ≠ Push (keypath n) kp) by (intros ->; by rewrite StartsWith_refl in Hb).
  destruct (StartsWith (Push (keypath n) kp) k) eqn:Ha.
  - rewrite decide_True; [done|]. by apply elem_of_ancestors.
  - rewrite decide_False; [done|]. intros (_ & Hb' & _)%elem_of_ancestors; [|done].
    unfold below in Hb'. congruence.
Qed.

Lemma memory_set_frame_witness :
  ∃ n', Set_ tt (@NewMemoryNode Empty_set) (str "x/y") None (GScalar (SBool true)) = Ret (tt, n') ∧
    (∀ r, node_shape n' (Push (str "x/y") r) = shape_at (GScalar (SBool true)) (path_parts r)) ∧
    (∀ k, good_path k → StartsWith k (str "x/y") = false →
       node_shape n' k =
         match node_shape (@NewMemoryNode Empty_set) k with
         | Some s => Some s
         | None => if StartsWith (str "x/y") k then Some ShMap else None
         end).
Proof.
  apply (memory_set_frame tt NewMemoryNode (str "x/y") (GScalar (SBool true))).
  - apply NewMemoryNode_wf.
  - split; reflexivity.
  - reflexivity.
  - repeat constructor; try discriminate; unfold no_sep; vm_compute; set_solver.
  - vm_decide.
  - repeat constructor.
  - apply keys_min_scalar.
Defined.

(** [Delete] without a range removes exactly the subtree at the keypath: the keypath itself
    and everything below it go, in the keypath list and in all three maps, everything else
    stays, and the diff records the removed keypaths. *)
Theorem memory_delete_exact {N H} `{NodeIface N H} (h : H) (n : MemoryNode N) kp :
  mem_wf n → plain_handle n → local h n kp →
  ∃ n', Delete h n kp None = Ret (h, n') ∧
    keypaths n' = filter (λ k, StartsWith k (Push (keypath n) kp) = false) (keypaths n) ∧
    (∀ k, nodeTypes n' !! k = if StartsWith k (Push (keypath n) kp) then None else nodeTypes n !! k) ∧
    (∀ k, values n' !! k = if StartsWith k (Push (keypath n) kp) then None else values n !! k) ∧
    (∀ k, contentLengths n' !! k = if StartsWith k (Push (keypath n) kp) then None else contentLengths n !! k) ∧
    diff n' = Diff_RemoveMany (diff n) (filter (λ k, StartsWith k (Push (keypath n) kp) = true) (keypaths n)).
Proof.
  intros Hwf Hph Hl. destruct (Delete_pruned h n kp Hwf Hph Hl) as (n' & Hd & [_ Hk Ht Hv Hc] & Hdiff).
  exists n'. split; [done|].
  assert (∀ {B} k (x y : B), (if decide (below (Push (keypath n) kp) k) then x else y) =
                            if StartsWith k (Push (keypath n) kp) then x else y) as Hif.
  { intros B k x y. case_decide as Hb; [by rewrite Hb|by rewrite (not_below_false _ _ Hb)]. }
  split_and!.
  - rewrite Hk. apply filter_ext_in. intros k _. unfold below. by rewrite not_true_iff_false.
  - intros k. by rewrite Ht, Hif.
  - intros k. by rewrite Hv, Hif.
  - intros k. by rewrite Hc, Hif.
  - by rewrite Hdiff.
Qed.

Lemma memory_delete_exact_witness :
  ∃ n', Delete tt tree_a (str "a/list") None = Ret (tt, n') ∧
    keypaths n' = [[]; str "a"; str "a/name"] ∧ nodeTypes n' !! str "a/list/00000000" = None.
Proof.
  destruct (memory_delete_exact tt tree_a (str "a/list") (proj1 tree_a_wf) (proj2 tree_a_wf))
    as (n' & Hd & Hk & Ht & _); [reflexivity|].
  exists n'. split; [exact Hd|]. rewrite Hk, Ht. split; reflexivity.
Defined.

(** With a sibling that sorts between a keypath and its children, [Delete] stops early and
    leaves the children behind. *)
Example memory_delete_leaves_subtree :
  let sets := fold_outcome (λ s kp, Set_ s.1 s.2 kp None (GScalar SNil)) (tt, @NewMemoryNode Empty_set) in
  ∃ n n', sets [str "foo/x"; str "foo-bar"] = Ret (tt, n) ∧ Delete tt n (str "foo") None = Ret (tt, n') ∧
    Exists tt n' (str "foo") = Ret false ∧ keypaths n' = [[]; str "foo-bar"; str "foo/x"].
Proof. eexists _, _. split; [vm_compute; reflexivity|]. split; [vm_compute; reflexivity|]. split; vm_compute; reflexivity. Qed.
