(* ===== verification/MemoryIter.v ===== *)
(** * Iterators and copies of the in-memory tree ([tree/tree.memory.go])

    [TreeIterator] is the [Iterator] interface of [tree/types.go]; [collect] is the loop in
    which every caller uses it.  The three iterators of a memory tree are its instances, and
    the theorems say which keypaths the loop sees, and that it ends. *)

From S2P Require Import Prelude Keypath TreeTypes GoValue GoPaths MemoryNode MemoryProps.

Class TreeIterator (I : Type) := {
  iter_Rewind : I → outcome I;
  iter_SeekTo : I → Keypath → outcome I;
  iter_Valid : I → bool * I;          (* [Valid] may set the done flag *)
  iter_Node : I → option Keypath;     (* the keypath of the current node, [None] for nil *)
  iter_Next : I → outcome I
}.

(** [for iter.Rewind(); iter.Valid(); iter.Next() { ... iter.Node() ... }] *)
Fixpoint collect_loop {I} `{TreeIterator I} (fuel : nat) (it : I) : outcome (list Keypath) :=
  match fuel with
  | O => Running
  | S fuel =>
      let '(valid, it) := iter_Valid it in
      if valid then
        match iter_Node it with
        | None => Panic
        | Some k =>
            let! it := iter_Next it in
            let! ks := collect_loop fuel it in
            Ret (k :: ks)
        end
      else Ret []
  end.

Definition collect {I} `{TreeIterator I} (fuel : nat) (it : I) : outcome (list Keypath) :=
  let! it := iter_Rewind it in collect_loop fuel it.

(** ** The flat iterator *)

(** [mi_range] is the pair (start, end), [None] when both are -1; [mi_keypaths] and
    [mi_keypath] are the list and the current keypath of the iterator's node. *)
Record memoryIterator := mkMemoryIterator {
  mi_i : Z;
  mi_range : option (Z * Z);
  mi_done : bool;
  mi_root : Keypath;
  mi_keypaths : list Keypath;
  mi_keypath : Keypath
}.

Definition new_iterator {N} (n : MemoryNode N) (kp : Keypath) : memoryIterator :=
  let root := Push (keypath n) kp in
  mkMemoryIterator 0
    ((λ '(s, e), (Z.of_nat s, Z.of_nat e)) <$> findPrefixRange (keypaths n) root) false root (keypaths n) [].

Definition set_done (it : memoryIterator) (d : bool) : memoryIterator :=
  mkMemoryIterator (mi_i it) (mi_range it) d (mi_root it) (mi_keypaths it) (mi_keypath it).

(** Move to position [i] and read the keypath there. *)
Definition move_to (it : memoryIterator) (i : Z) (d : bool) : outcome memoryIterator :=
  let! k := index (mi_keypaths it) i in
  Ret (mkMemoryIterator i (mi_range it) d (mi_root it) (mi_keypaths it) k).

Definition mi_Rewind (it : memoryIterator) : outcome memoryIterator :=
  match mi_range it with
  | None => Ret (set_done it true)
  | Some (start, _) => move_to it start false
  end.

Definition mi_Valid (it : memoryIterator) : bool * memoryIterator :=
  match mi_range it with
  | None => (false, set_done it true)
  | Some _ => (negb (mi_done it), it)
  end.

(** Linear search for a keypath that equals the argument. *)
Definition mi_SeekTo (it : memoryIterator) (kp : Keypath) : outcome memoryIterator :=
  match mi_range it with
  | None => Ret (set_done it true)
  | Some _ =>
      match find_from (λ k, Equals k kp) (mi_keypaths it) 0 with
      | Some i => move_to it (Z.of_nat i) false
      | None => Ret (set_done it true)
      end
  end.

Definition mi_Node (it : memoryIterator) : option Keypath :=
  if decide (mi_done it = true ∨ mi_range it = None) then None else Some (mi_keypath it).

Definition mi_Next (it : memoryIterator) : outcome memoryIterator :=
  match mi_range it with
  | None => Ret it
  | Some (_, end_) =>
      if mi_done it then Ret it
      else if decide (mi_i it = end_ - 1)%Z then Ret (set_done it true)
      else move_to it (mi_i it + 1) false
  end.

#[export] Instance memoryIterator_iface : TreeIterator memoryIterator := {
  iter_Rewind := mi_Rewind; iter_SeekTo := mi_SeekTo; iter_Valid := mi_Valid;
  iter_Node := mi_Node; iter_Next := mi_Next
}.

(** ** The iterator over direct children *)

Record memoryChildIterator := mkMemoryChildIterator { mci_iter : memoryIterator }.

(** [for ; it.Valid(); it.Next()] until a direct child of the root is found. *)
Fixpoint mci_loop (fuel : nat) (it : memoryIterator) : outcome memoryIterator :=
  match fuel with
  | O => Running
  | S fuel =>
      let '(valid, it) := mi_Valid it in
      if valid then
        match mi_Node it with
        | None => Panic
        | Some k =>
            if decide (NumParts k = NumParts (mi_root it) + 1) then Ret it
            else let! it := mi_Next it in mci_loop fuel it
        end
      else Ret it
  end.

Definition mci_Next (it : memoryChildIterator) : outcome memoryChildIterator :=
  let! i := mi_Next (mci_iter it) in
  let! i := mci_loop (S (length (mi_keypaths i))) i in
  Ret (mkMemoryChildIterator i).

Definition mci_Rewind (it : memoryChildIterator) : outcome memoryChildIterator :=
  let! i := mi_Rewind (mci_iter it) in mci_Next (mkMemoryChildIterator i).

#[export] Instance memoryChildIterator_iface : TreeIterator memoryChildIterator := {
  iter_Rewind := mci_Rewind;
  iter_SeekTo it kp := let! i := mi_SeekTo (mci_iter it) kp in Ret (mkMemoryChildIterator i);
  iter_Valid it := let '(b, i) := mi_Valid (mci_iter it) in (b, mkMemoryChildIterator i);
  iter_Node it := mi_Node (mci_iter it);
  iter_Next := mci_Next
}.

(** ** The depth-first iterator: the same run backwards *)

(** [mdi_range] is (start, end), where start is the upper end of the run. *)
Record memoryDepthFirstIterator := mkMemoryDepthFirstIterator { mdi_iter : memoryIterator }.

Definition mdi_Rewind (it : memoryIterator) : outcome memoryIterator :=
  match mi_range it with
  | None => Ret (set_done it true)
  | Some (start, _) => move_to it (start - 1) false
  end.

Definition mdi_Next (it : memoryIterator) : outcome memoryIterator :=
  match mi_range it with
  | None => Ret it
  | Some (_, end_) =>
      if mi_done it then Ret it
      else if decide (mi_i it = end_)%Z then Ret (set_done it true)
      else move_to it (mi_i it - 1) false
  end.

(** The last position whose keypath passes the test. *)
Definition find_last (test : Keypath → bool) (ks : list Keypath) : option nat :=
  (λ i, length ks - 1 - i) <$> find_from test (reverse ks) 0.

Definition mdi_SeekTo (it : memoryIterator) (kp : Keypath) : outcome memoryIterator :=
  match mi_range it with
  | None => Ret (set_done it true)
  | Some _ =>
      match find_last (λ k, Equals k kp) (mi_keypaths it) with
      | Some i => move_to it (Z.of_nat i) false
      | None => Ret (set_done it true)
      end
  end.

Definition map_dfs (m : outcome memoryIterator) : outcome memoryDepthFirstIterator :=
  let! i := m in Ret (mkMemoryDepthFirstIterator i).

#[export] Instance memoryDepthFirstIterator_iface : TreeIterator memoryDepthFirstIterator := {
  iter_Rewind it := map_dfs (mdi_Rewind (mdi_iter it));
  iter_SeekTo it kp := map_dfs (mdi_SeekTo (mdi_iter it) kp);
  iter_Valid it := let '(b, i) := mi_Valid (mdi_iter it) in (b, mkMemoryDepthFirstIterator i);
  iter_Node it := mi_Node (mdi_iter it);
  iter_Next it := map_dfs (mdi_Next (mdi_iter it))
}.

(** [end, start := n.findPrefixRange(...)] *)
Definition new_depth_first {N} (n : MemoryNode N) (kp : Keypath) : memoryDepthFirstIterator :=
  let it := new_iterator n kp in
  mkMemoryDepthFirstIterator
    (mkMemoryIterator 0 ((λ '(s, e), (e, s)) <$> mi_range it) false (mi_root it) (mi_keypaths it) []).

(** The constructors delegate to an inner node like every other method: [None] stands for
    the iterator that the inner node returns. *)
Section Constructors.
Context {N H : Type} `{NodeIface N H}.

Definition Iterator (h : H) (n : MemoryNode N) (kp : Keypath) : outcome (option memoryIterator) :=
  delegate h n kp (λ _ _, Ret None) (Ret (Some (new_iterator n kp))).

Definition ChildIterator (h : H) (n : MemoryNode N) (kp : Keypath) : outcome (option memoryChildIterator) :=
  delegate h n kp (λ _ _, Ret None)
    (let! it := Iterator h n kp in
     match it with Some it => Ret (Some (mkMemoryChildIterator it)) | None => Panic end).

Definition DepthFirstIterator (h : H) (n : MemoryNode N) (kp : Keypath) :
    outcome (option memoryDepthFirstIterator) :=
  delegate h n kp (λ _ _, Ret None) (Ret (Some (new_depth_first n kp))).
End Constructors.

(** ** What the loops see *)

(** An iterator over the run [l2] of the list [l1 ++ l2 ++ l3], at the element after [dn]. *)
Definition at_run (it : memoryIterator) l1 dn x todo l3 : Prop :=
  mi_keypaths it = l1 ++ (dn ++ x :: todo) ++ l3 ∧
  mi_range it = Some (Z.of_nat (length l1), Z.of_nat (length l1 + length (dn ++ x :: todo))) ∧
  mi_i it = Z.of_nat (length l1 + length dn) ∧ mi_done it = false ∧ mi_keypath it = x.

Lemma index_app {A} (p q : list A) x : index (p ++ x :: q) (Z.of_nat (length p)) = Ret x.
Proof. unfold index. rewrite decide_True by lia. rewrite Nat2Z.id. by rewrite list_lookup_middle. Qed.

Lemma move_to_run it l1 dn x todo l3 i :
  mi_keypaths it = l1 ++ (dn ++ x :: todo) ++ l3 →
  mi_range it = Some (Z.of_nat (length l1), Z.of_nat (length l1 + length (dn ++ x :: todo))) →
  i = Z.of_nat (length l1 + length dn) →
  ∃ it', move_to it i false = Ret it' ∧ at_run it' l1 dn x todo l3 ∧ mi_root it' = mi_root it.
Proof.
  intros Hk Hr ->. unfold move_to. rewrite Hk.
  replace (l1 ++ (dn ++ x :: todo) ++ l3) with ((l1 ++ dn) ++ x :: (todo ++ l3))
    by (by rewrite <- !(assoc_L (++))).
  rewrite <- length_app, index_app. simpl. eexists. split; [done|]. split; [|done].
  unfold at_run. simpl. rewrite ?Hk, ?Hr, !length_app, <- ?(assoc_L (++)).
  done.
Qed.

Lemma mi_Next_run it l1 dn x todo l3 :
  at_run it l1 dn x todo l3 →
  ∃ it', mi_Next it = Ret it' ∧ mi_root it' = mi_root it ∧
    match todo with
    | [] => mi_done it' = true ∧ mi_range it' ≠ None
    | y :: todo' => at_run it' l1 (dn ++ [x]) y todo' l3
    end.
Proof.
  intros (Hk & Hr & Hi & Hd & Hx). unfold mi_Next. rewrite Hr, Hd, Hi.
  destruct todo as [|y todo].
  - rewrite decide_True by (rewrite length_app; simpl; lia). eexists. split; [done|].
    split; [done|]. simpl. by rewrite Hr.
  - rewrite decide_False by (rewrite length_app; simpl; lia).
    destruct (move_to_run it l1 (dn ++ [x]) y todo l3 (Z.of_nat (length l1 + length dn) + 1)) as (it' & -> & Hat & Hroot).
    + by rewrite Hk, <- (assoc_L (++) dn [x]).
    + by rewrite Hr, <- (assoc_L (++) dn [x]).
    + rewrite length_app. simpl. lia.
    + eauto.
Qed.

Lemma at_run_valid it l1 dn x todo l3 : at_run it l1 dn x todo l3 → mi_Valid it = (true, it).
Proof. intros (Hk & Hr & Hi & Hd & Hx). unfold mi_Valid. by rewrite Hr, Hd. Qed.

Lemma at_run_node it l1 dn x todo l3 : at_run it l1 dn x todo l3 → mi_Node it = Some x.
Proof.
  intros (Hk & Hr & Hi & Hd & Hx). unfold mi_Node. rewrite decide_False; [by rewrite Hx|].
  rewrite Hd, Hr. by intros [?|?].
Qed.

Lemma done_valid it : mi_done it = true → fst (mi_Valid it) = false.
Proof. intros Hd. unfold mi_Valid. destruct (mi_range it); simpl; [by rewrite Hd|done]. Qed.

Lemma collect_done {I} `{TreeIterator I} fuel (it : I) :
  0 < fuel → fst (iter_Valid it) = false → collect_loop fuel it = Ret [].
Proof.
  destruct fuel; [lia|]. simpl. intros _. destruct (iter_Valid it). simpl. by intros ->.
Qed.

Lemma mi_collect_run fuel (it : memoryIterator) l1 dn x todo l3 :
  at_run it l1 dn x todo l3 → length todo + 1 < fuel → collect_loop fuel it = Ret (x :: todo).
Proof.
  revert it dn x fuel. induction todo as [|y todo IH]; intros it dn x fuel Hat Hf;
    destruct (mi_Next_run it _ _ _ _ _ Hat) as (it' & Hn & _ & Hn');
    (destruct fuel as [|fuel]; [lia|]); simpl;
    rewrite (at_run_valid _ _ _ _ _ _ Hat), (at_run_node _ _ _ _ _ _ Hat), Hn; cbn [obind].
  - rewrite collect_done; [done|simpl in Hf; lia|]. apply done_valid, Hn'.
  - by rewrite (IH it' _ _ _ Hn') by (simpl in Hf; lia).
Qed.

(** The range of an iterator over a subtree. *)
Lemma find_run {N} (n : MemoryNode N) p :
  mem_wf n → (p ≠ [] ∨ keypaths n ≠ []) →
  ∃ l1 l2 l3, keypaths n = l1 ++ l2 ++ l3 ∧ filter (below p) (keypaths n) = l2 ∧
    findPrefixRange (keypaths n) p =
      if decide (l2 = []) then None else Some (length l1, length l1 + length l2).
Proof.
  intros Hwf Hne. destruct (subtree_run p (keypaths n)) as (l1 & l2 & l3 & Hks & H1 & H2 & H3); [apply Hwf..|].
  exists l1, l2, l3. split; [done|]. split; [rewrite Hks; by apply filter_run|].
  destruct (decide (p = [])) as [->|Hp]; [|rewrite Hks; by apply findPrefixRange_run].
  assert (∀ l, Forall (λ k, ¬ below [] k) l → l = []) as Hnil.
  { intros [|k l]; [done|]. intros [Hk _]%Forall_cons. by destruct Hk. }
  apply Hnil in H1, H3. subst. rewrite app_nil_r in Hks. simpl in Hks.
  unfold findPrefixRange. rewrite decide_True by done. rewrite Hks.
  rewrite decide_False; [done|]. intros ->. by destruct Hne.
Qed.

(** [Iterator] over a subtree sees its keypaths in sorted order. *)
Lemma collect_iterator {N} (n : MemoryNode N) kp fuel :
  mem_wf n → (Push (keypath n) kp ≠ [] ∨ keypaths n ≠ []) → length (keypaths n) + 1 < fuel →
  collect fuel (new_iterator n kp) = Ret (filter (below (Push (keypath n) kp)) (keypaths n)).
Proof.
  intros Hwf Hne Hf. unfold collect, new_iterator. set (p := Push (keypath n) kp) in *.
  destruct (find_run n p Hwf Hne) as (l1 & l2 & l3 & Hks & -> & ->). case_decide as Hl.
  { subst. cbn -[collect_loop]. rewrite collect_done; [done|lia|done]. }
  destruct l2 as [|x l2]; [done|]. cbn [iter_Rewind memoryIterator_iface]. unfold mi_Rewind. simpl.
  match goal with |- context [move_to ?it ?i false] =>
    destruct (move_to_run it l1 [] x l2 l3 i) as (it' & -> & Hat & _) end;
    [exact Hks|reflexivity|simpl; by rewrite Nat.add_0_r|].
  simpl. eapply mi_collect_run; [exact Hat|]. rewrite Hks, !length_app in Hf. simpl in Hf. lia.
Qed.

(** ** Depth first *)

Lemma mdi_collect_run fuel (it : memoryIterator) l1 x dn todo l3 :
  mi_keypaths it = l1 ++ (dn ++ x :: todo) ++ l3 →
  mi_range it = Some (Z.of_nat (length l1 + length (dn ++ x :: todo)), Z.of_nat (length l1)) →
  mi_i it = Z.of_nat (length l1 + length dn) → mi_done it = false → mi_keypath it = x →
  length dn + 1 < fuel →
  collect_loop fuel (mkMemoryDepthFirstIterator it) = Ret (x :: reverse dn).
Proof.
  revert it x todo fuel. induction dn as [|y dn IH] using rev_ind; intros it x todo fuel Hk Hr Hi Hd Hx Hf;
    (destruct fuel as [|fuel]; [lia|]); simpl;
    unfold mi_Valid; rewrite Hr, Hd; simpl; unfold mi_Node, mdi_Next;
    (rewrite decide_False by (rewrite Hd, Hr; by intros [?|?])); rewrite Hr, Hd, Hi.
  - rewrite decide_True by (simpl; lia). simpl.
    rewrite collect_done; [by rewrite Hx|simpl in Hf; lia|]. simpl. unfold mi_Valid. simpl. by rewrite Hr.
  - rewrite length_app in *. simpl in *. rewrite decide_False by lia. unfold move_to.
    replace (mi_keypaths it) with ((l1 ++ dn) ++ y :: (x :: todo ++ l3))
      by (rewrite Hk, <- !(assoc_L (++)); done).
    replace (Z.of_nat (length l1 + (length dn + 1)) - 1)%Z with (Z.of_nat (length (l1 ++ dn)))
      by (rewrite length_app; lia).
    rewrite index_app. simpl.
    rewrite (IH _ y (x :: todo)); simpl; try done.
    + by rewrite Hx, reverse_app.
    + rewrite <- !(assoc_L (++)). done.
    + rewrite Hr. do 3 f_equal. rewrite !length_app. simpl. lia.
    + rewrite length_app. lia.
    + lia.
Qed.

Lemma collect_depth_first {N} (n : MemoryNode N) kp fuel :
  mem_wf n → (Push (keypath n) kp ≠ [] ∨ keypaths n ≠ []) → length (keypaths n) + 1 < fuel →
  collect fuel (new_depth_first n kp) = Ret (reverse (filter (below (Push (keypath n) kp)) (keypaths n))).
Proof.
  intros Hwf Hne Hf. unfold collect, new_depth_first, new_iterator. set (p := Push (keypath n) kp) in *.
  destruct (find_run n p Hwf Hne) as (l1 & l2 & l3 & Hks & -> & Hfind). simpl. rewrite Hfind. case_decide as Hl.
  { subst. simpl. rewrite collect_done; [done|lia|done]. }
  destruct (exists_last Hl) as (dn & x & ->). unfold mdi_Rewind, map_dfs, move_to. simpl.
  rewrite Hks. replace (l1 ++ (dn ++ [x]) ++ l3) with ((l1 ++ dn) ++ x :: l3) by (by rewrite <- !(assoc_L (++))).
  replace (Z.of_nat (length l1 + length (dn ++ [x])) - 1)%Z with (Z.of_nat (length (l1 ++ dn)))
    by (rewrite !length_app; simpl; lia).
  rewrite index_app. simpl. rewrite reverse_snoc. eapply (mdi_collect_run _ _ l1 x dn []); simpl; try done.
  - by rewrite <- !(assoc_L (++)).
  - by rewrite length_app.
  - rewrite Hks, !length_app in Hf. simpl in Hf. lia.
Qed.

(** ** Direct children *)

Definition child_of (p k : Keypath) : Prop := NumParts k = NumParts p + 1.
#[export] Instance child_of_dec p k : Decision (child_of p k).
Proof. unfold child_of. apply _. Defined.

Definition exhausted (it : memoryIterator) : Prop := fst (mi_Valid it) = false.

(** The skipping loop stops at the next direct child, or exhausts the run. *)
Lemma mci_loop_run fuel it l1 dn x todo l3 :
  at_run it l1 dn x todo l3 → length todo + 1 < fuel →
  ∃ it', mci_loop fuel it = Ret it' ∧ mi_root it' = mi_root it ∧
    match filter (child_of (mi_root it)) (x :: todo) with
    | [] => exhausted it'
    | y :: ys => ∃ dn' todo', at_run it' l1 dn' y todo' l3 ∧ filter (child_of (mi_root it)) todo' = ys ∧
                              length (dn' ++ y :: todo') = length (dn ++ x :: todo)
    end.
Proof.
  revert it dn x fuel. induction todo as [|z todo IH]; intros it dn x fuel Hat Hf;
    (destruct fuel as [|fuel]; [lia|]); simpl;
    rewrite (at_run_valid _ _ _ _ _ _ Hat), (at_run_node _ _ _ _ _ _ Hat);
    destruct (decide (NumParts x = NumParts (mi_root it) + 1)) as [Hc|Hc].
  - exists it. split; [done|]. split; [done|]. rewrite filter_cons_True by done.
    exists dn, []. by split_and!.
  - rewrite filter_cons_False by done. destruct (mi_Next_run it _ _ _ _ _ Hat) as (it' & -> & Hroot & Hd & _).
    simpl. destruct fuel as [|fuel]; [simpl in Hf; lia|]. simpl. pose proof (done_valid it' Hd) as Hv.
    unfold mi_Valid in *. destruct (mi_range it') eqn:E; simpl in *; rewrite ?Hv; (eexists; split; [done|]).
    + split; [done|]. unfold exhausted, mi_Valid. by rewrite E.
    + split; [done|]. unfold exhausted, mi_Valid. simpl. by rewrite E.
  - exists it. split; [done|]. split; [done|]. rewrite filter_cons_True by done.
    exists dn, (z :: todo). by split_and!.
  - rewrite (filter_cons_False _ x) by done. destruct (mi_Next_run it _ _ _ _ _ Hat) as (it' & -> & Hroot & Hn).
    simpl obind. destruct (IH it' (dn ++ [x]) z fuel Hn) as (it2 & -> & Hr2 & Hm); [simpl in Hf; lia|].
    exists it2. split; [done|]. split; [congruence|]. rewrite Hroot in Hm.
    destruct (filter _ (z :: todo)); [done|].
    destruct Hm as (dn' & todo' & ? & ? & Hlen). exists dn', todo'. split_and!; [done..|].
    rewrite Hlen, !length_app. simpl. lia.
Qed.

Lemma mci_Next_run it l1 dn x todo l3 :
  at_run it l1 dn x todo l3 →
  ∃ it', mci_Next (mkMemoryChildIterator it) = Ret (mkMemoryChildIterator it') ∧ mi_root it' = mi_root it ∧
    match filter (child_of (mi_root it)) todo with
    | [] => exhausted it'
    | y :: ys => ∃ dn' todo', at_run it' l1 dn' y todo' l3 ∧ filter (child_of (mi_root it)) todo' = ys ∧
                              length (dn' ++ y :: todo') = length (dn ++ x :: todo)
    end.
Proof.
  intros Hat. unfold mci_Next. simpl. destruct (mi_Next_run it _ _ _ _ _ Hat) as (it1 & -> & Hr1 & Hn). simpl.
  destruct todo as [|z todo].
  - destruct Hn as [Hd Hrg]. rewrite filter_nil. unfold mi_Valid. destruct (mi_range it1) as [r|] eqn:E; [|done].
    rewrite Hd. simpl. exists it1. split; [done|]. split; [done|]. unfold exhausted, mi_Valid. by rewrite E, Hd.
  - destruct (mci_loop_run (S (length (mi_keypaths it1))) it1 _ _ _ _ _ Hn) as (it2 & Heq & Hr2 & Hm).
    { destruct Hn as (-> & _). rewrite !length_app. simpl. lia. }
    cbn [mci_loop] in Heq. rewrite Heq. simpl. exists it2. split; [done|]. split; [congruence|].
    rewrite Hr1 in Hm. destruct (filter _ (z :: todo)); [done|].
    destruct Hm as (dn' & todo' & ? & ? & Hlen). exists dn', todo'. split_and!; [done..|].
    rewrite Hlen, !length_app. simpl. lia.
Qed.

Lemma mci_collect_run fuel it l1 dn x todo l3 :
  at_run it l1 dn x todo l3 → length (filter (child_of (mi_root it)) todo) + 1 < fuel →
  collect_loop fuel (mkMemoryChildIterator it) = Ret (x :: filter (child_of (mi_root it)) todo).
Proof.
  revert it dn x todo. induction fuel as [|fuel IH]; intros it dn x todo Hat Hf; [lia|].
  destruct (mci_Next_run it _ _ _ _ _ Hat) as (it' & Hn & Hr & Hm).
  simpl. rewrite (at_run_valid _ _ _ _ _ _ Hat). simpl. rewrite (at_run_node _ _ _ _ _ _ Hat).
  rewrite Hn. simpl. destruct (filter (child_of (mi_root it)) todo) as [|y ys] eqn:Hfil.
  - rewrite collect_done; [done|simpl in Hf; lia|]. simpl. unfold exhausted in Hm. by destruct (mi_Valid it').
  - destruct Hm as (dn' & todo' & Hat' & <- & _). rewrite <- Hr in *.
    rewrite (IH it' dn' y todo' Hat') by (simpl in Hf; lia). done.
Qed.

Lemma run_head {N} (n : MemoryNode N) p x l :
  mem_wf n → filter (below p) (keypaths n) = x :: l → x = p.
Proof.
  intros Hwf Hf.
  assert (x ∈ filter (below p) (keypaths n)) as [Hb Hx]%list_elem_of_filter by (rewrite Hf; set_solver).
  assert (good_path p) as Hg.
  { pose proof (wf_good n Hwf) as Hg. rewrite Forall_forall in Hg. specialize (Hg x Hx). unfold good_path in *.
    apply StartsWith_prefix in Hb as [r Hr]. rewrite Hr in Hg. by apply Forall_app in Hg as [? _]. }
  assert (p ∈ x :: l) as Hp.
  { rewrite <- Hf. apply list_elem_of_filter. split; [apply StartsWith_refl|]. by eapply wf_parents. }
  apply elem_of_cons in Hp as [?|Hp]; [done|].
  pose proof (StronglySorted_filter bytes_lt (below p) (keypaths n) (wf_sorted n Hwf)) as Hs. rewrite Hf in Hs.
  apply StronglySorted_inv in Hs as [_ Hs]. rewrite Forall_forall in Hs. specialize (Hs p Hp).
  apply StartsWith_le, bytes_le_lt_eq in Hb as [Hlt|?]; [|done]. exfalso. eapply bytes_lt_irrefl. by etrans.
Qed.

Lemma collect_children {N} (n : MemoryNode N) kp fuel :
  mem_wf n → (Push (keypath n) kp ≠ [] ∨ keypaths n ≠ []) → length (keypaths n) + 1 < fuel →
  collect fuel (mkMemoryChildIterator (new_iterator n kp)) =
    Ret (filter (child_of (Push (keypath n) kp)) (filter (below (Push (keypath n) kp)) (keypaths n))).
Proof.
  intros Hwf Hne Hf. unfold collect, new_iterator. set (p := Push (keypath n) kp) in *.
  destruct (find_run n p Hwf Hne) as (l1 & l2 & l3 & Hks & Hl2 & ->). rewrite Hl2. case_decide as Hl.
  { subst l2. rewrite Hl. simpl. rewrite collect_done; [done|lia|done]. }
  destruct l2 as [|x l2]; [done|]. cbn [iter_Rewind memoryChildIterator_iface]. unfold mci_Rewind, mi_Rewind. simpl.
  match goal with |- context [move_to ?x0 ?i false] =>
    destruct (move_to_run x0 l1 [] x l2 l3 i) as (it & -> & Hat & Hroot) end;
    [exact Hks|reflexivity|simpl; by rewrite Nat.add_0_r|].
  simpl in Hroot. simpl obind. destruct (mci_Next_run it _ _ _ _ _ Hat) as (it' & Hn & Hr & Hm).
  rewrite Hn. simpl obind. rewrite Hroot in *.
  pose proof (run_head n p x l2 Hwf Hl2) as ->. rewrite filter_cons_False by (unfold child_of; lia).
  destruct (filter (child_of p) l2) as [|y ys] eqn:Hfil.
  - rewrite collect_done; [done|lia|]. simpl. unfold exhausted in Hm. by destruct (mi_Valid it').
  - destruct Hm as (dn' & todo' & Hat' & <- & Hlen). rewrite <- Hr in *.
    apply (mci_collect_run fuel it' _ _ _ _ _ Hat').
    pose proof (length_filter (child_of (mi_root it')) todo'). rewrite Hks, !length_app in Hf. simpl in Hf.
    rewrite length_app in Hlen. simpl in Hlen. lia.
Qed.

(** ** Copies *)

Lemma foldl_copy_step {N} (t : MemoryNode N) ks vs nts cls :
  let '(vs', nts', cls') := foldl (copy_step t) (vs, nts, cls) ks in
  ∀ k, vs' !! k = (if decide (k ∈ ks) then Some (value_at t k) else vs !! k) ∧
       nts' !! k = (if decide (k ∈ ks) then Some (node_type t k) else nts !! k) ∧
       cls' !! k = (if decide (k ∈ ks ∧ (node_type t k = NodeTypeSlice ∨ node_type t k = NodeTypeMap))
                    then Some (content_length t k) else cls !! k).
Proof.
  revert vs nts cls. induction ks as [|x ks IH]; intros vs nts cls; cbn [foldl].
  { intros k. rewrite !decide_False by set_solver. done. }
  unfold copy_step at 2. set (cls1 := if decide _ then _ else cls).
  specialize (IH (<[x := value_at t x]> vs) (<[x := node_type t x]> nts) cls1).
  destruct (foldl (copy_step t) _ ks) as [[vs' nts'] cls']. intros k. destruct (IH k) as (-> & -> & ->).
  destruct (decide (k ∈ ks)) as [Hk|Hk].
  - rewrite !decide_True by set_solver. split; [done|]. split; [done|].
    destruct (decide (node_type t k = NodeTypeSlice ∨ node_type t k = NodeTypeMap)).
    + rewrite !decide_True by set_solver. done.
    + rewrite !decide_False by tauto. subst cls1. case_decide; [|done].
      rewrite lookup_insert_ne; [done|]. by intros ->.
  - rewrite (decide_False _ _ : ¬ (k ∈ ks ∧ _) → _) by tauto. destruct (decide (k = x)) as [->|Hne].
    + rewrite !lookup_insert_eq, !decide_True by set_solver. split; [done|]. split; [done|].
      subst cls1. case_decide; [rewrite lookup_insert_eq, decide_True by set_solver; done|].
      rewrite decide_False by tauto. done.
    + rewrite !lookup_insert_ne by done. rewrite !(decide_False (P := k ∈ x :: ks)) by set_solver.
      rewrite decide_False by set_solver. split; [done|]. split; [done|].
      subst cls1. case_decide; [by rewrite lookup_insert_ne|done].
Qed.

Lemma makeCopy_keypaths {N} (t : MemoryNode N) :
  mem_wf t → keypaths (makeCopy t) = filter (below (keypath t)) (keypaths t).
Proof.
  intros Hwf. unfold makeCopy.
  assert ((let '(start, end_) := if decide (0 < length (keypath t))
            then default (0, 0) (findPrefixRange (keypaths t) (keypath t))
            else (0, length (keypaths t)) in take (end_ - start) (drop start (keypaths t))) =
          filter (below (keypath t)) (keypaths t)) as Heq.
  { case_decide as Hl.
    - destruct (find_run t (keypath t) Hwf) as (l1 & l2 & l3 & -> & -> & ->); [left; intros Hk; rewrite Hk in Hl; simpl in Hl; lia|].
      case_decide as H2; simpl; [by subst|]. rewrite drop_app_length.
      replace (length l1 + length l2 - length l1) with (length l2) by lia. apply take_app_length.
    - assert (keypath t = []) as -> by (destruct (keypath t); simpl in *; [done|lia]).
      rewrite drop_0, Nat.sub_0_r, firstn_all. symmetry. apply filter_true, Forall_forall.
      intros k _. apply StartsWith_nil. }
  destruct (if decide _ then _ else _) as [start end_]. rewrite Heq.
  by destruct (foldl (copy_step t) _ _) as [[? ?] ?].
Qed.

Lemma makeCopy_tables {N} (t : MemoryNode N) k :
  let ks := keypaths (makeCopy t) in
  values (makeCopy t) !! k = (if decide (k ∈ ks) then Some (value_at t k) else None) ∧
  nodeTypes (makeCopy t) !! k = (if decide (k ∈ ks) then Some (node_type t k) else None) ∧
  contentLengths (makeCopy t) !! k =
    (if decide (k ∈ ks ∧ (node_type t k = NodeTypeSlice ∨ node_type t k = NodeTypeMap))
     then Some (content_length t k) else None).
Proof.
  unfold makeCopy. destruct (if decide _ then _ else _) as [start end_].
  pose proof (foldl_copy_step t (take (end_ - start) (drop start (keypaths t))) ∅ ∅ ∅) as Hf.
  destruct (foldl (copy_step t) _ _) as [[vs nts] cls]. simpl. specialize (Hf k).
  by rewrite !lookup_empty in Hf.
Qed.

Lemma makeCopy_shape {N} (t : MemoryNode N) k :
  mem_wf t → node_shape (makeCopy t) k = if decide (below (keypath t) k) then node_shape t k else None.
Proof.
  intros Hwf. destruct (makeCopy_tables t k) as (Hv & Ht & Hc). rewrite makeCopy_keypaths in * by done.
  unfold node_shape at 1, content_length. rewrite Hv, Ht, Hc. clear Hv Ht Hc.
  destruct (decide (k ∈ filter (below (keypath t)) (keypaths t))) as [Hk|Hk].
  - pose proof Hk as [Hb Hin]%list_elem_of_filter. rewrite (decide_True (P := below _ _)) by done.
    apply (wf_types t Hwf) in Hin as [ty Hty]. unfold node_shape, node_type, value_at. rewrite Hty. simpl.
    destruct ty; try done.
    + by destruct (wf_scalar t Hwf k Hty) as [s ->].
    + rewrite decide_True by tauto. done.
    + by destruct (wf_node t Hwf k Hty) as [x ->].
  - case_decide as Hb; [|done]. symmetry. apply node_shape_None; [done|]. apply eq_None_not_Some.
    rewrite <- (wf_types t Hwf). intros Hin. apply Hk. by apply list_elem_of_filter.
Qed.

(** ** Theorems *)

(** The iteration loops over a well-formed tree end, and see exactly the keypaths at and
    below the root keypath: [Iterator] in sorted order, [DepthFirstIterator] in the reverse
    order, children before their parents, and [ChildIterator] only the direct children. *)
Theorem memory_iterators_complete {N H} `{NodeIface N H} (h : H) (n : MemoryNode N) kp fuel :
  mem_wf n → local h n kp → keypaths n ≠ [] → length (keypaths n) + 1 < fuel →
  let p := Push (keypath n) kp in
  let subtree := filter (λ k, StartsWith k p = true) (keypaths n) in
  (∃ it, Iterator h n kp = Ret (Some it) ∧ collect fuel it = Ret subtree) ∧
  (∃ it, DepthFirstIterator h n kp = Ret (Some it) ∧ collect fuel it = Ret (reverse subtree)) ∧
  (∃ it, ChildIterator h n kp = Ret (Some it) ∧
         collect fuel it = Ret (filter (λ k, NumParts k = NumParts p + 1) subtree)).
Proof.
  intros Hwf Hl Hne Hf p subtree.
  unfold ChildIterator, Iterator, DepthFirstIterator. rewrite !delegate_local by done. split_and!.
  - eexists. split; [done|]. by apply collect_iterator; auto.
  - eexists. split; [done|]. by apply collect_depth_first; auto.
  - eexists. split; [done|]. by apply collect_children; auto.
Qed.

Lemma memory_iterators_complete_witness :
  ∃ it, ChildIterator tt tree_a [] = Ret (Some it) ∧ collect 10 it = Ret [str "a"].
Proof.
  destruct (memory_iterators_complete tt tree_a [] 10 (proj1 tree_a_wf)) as (_ & _ & Hc).
  - reflexivity.
  - vm_compute. discriminate.
  - vm_compute. lia.
  - destruct Hc as (it & Hit & Hc). exists it. split; [exact Hit|]. rewrite Hc. vm_compute. reflexivity.
Defined.

(** The keypaths at and below [p], in the order of the list. *)
Definition subtree_keypaths {N} (n : MemoryNode N) (p : Keypath) : list Keypath :=
  filter (λ k, StartsWith k p = true) (keypaths n).

(** [CopyToMemory] of a well-formed tree returns a separate node whose contents are exactly
    the subtree at the keypath: the same node at every keypath in it, and nothing outside. *)
Theorem memory_copy_is_subtree {N} (n : MemoryNode N) kp :
  mem_wf n → rng n = None →
  ∃ c, CopyToMemory n kp None = Ret c ∧ keypath c = Push (keypath n) kp ∧
    keypaths c = subtree_keypaths n (Push (keypath n) kp) ∧
    ∀ k, node_shape c k = if StartsWith k (Push (keypath n) kp) then node_shape n k else None.
Proof.
  intros Hwf Hr. unfold CopyToMemory. rewrite Hr. simpl. eexists. split; [done|].
  set (t := mkMemoryNode _ _ _ _ _ _ _ _).
  assert (mem_wf t) as Hwt by (destruct Hwf; by split).
  split; [|split].
  - unfold makeCopy. destruct (if decide _ then _ else _). by destruct (foldl _ _ _) as [[? ?] ?].
  - exact (makeCopy_keypaths t Hwt).
  - intros k. rewrite (makeCopy_shape t k Hwt). change (keypath t) with (Push (keypath n) kp).
    case_decide as Hb; [by rewrite Hb|by rewrite (not_below_false _ _ Hb)].
Qed.

Lemma memory_copy_is_subtree_witness :
  ∃ c, CopyToMemory tree_a (str "a/list") None = Ret c ∧
    keypaths c = [str "a/list"; str "a/list/00000000"; str "a/list/00000001"].
Proof.
  destruct (memory_copy_is_subtree tree_a (str "a/list") (proj1 tree_a_wf) (proj1 (proj2 tree_a_wf)))
    as (c & Hc & _ & Hk & _).
  exists c. split; [exact Hc|]. rewrite Hk. vm_compute. reflexivity.
Defined.
