(* ===== verification/BadgerTxn.v ===== *)
(** * The key-value store under the database tree

    The tree is stored in Badger, which is not part of this repository.  [BadgerTxn] lists
    the operations of a transaction that the tree uses, and [BadgerLaws] what the tree
    relies on: a transaction reads its own writes, and an iterator walks, in the order of
    the keys, through the items that the transaction held when the iterator was opened
    (writes made during an iteration do not show up in it).  [gmap_txn] is an instance, so
    the laws can be met.

    [BadgerIter] is an open iterator: [Seek], [Next] and [ValidForPrefix] of a forward or a
    reverse iterator over such a snapshot. *)

From S2P Require Import Prelude.

(** [txn_get] is [None] for [ErrKeyNotFound]. *)
Class BadgerTxn (T : Type) := {
  txn_get : T → bytes → option bytes;
  txn_set : T → bytes → bytes → outcome T;
  txn_delete : T → bytes → outcome T;
  txn_items : T → list (bytes * bytes)
}.

Class BadgerLaws (T : Type) `{BadgerTxn T} : Prop := {
  law_set t k v : k ≠ [] →
    ∃ t', txn_set t k v = Ret t' ∧ ∀ k', txn_get t' k' = if decide (k' = k) then Some v else txn_get t k';
  law_delete t k : k ≠ [] →
    ∃ t', txn_delete t k = Ret t' ∧ ∀ k', txn_get t' k' = if decide (k' = k) then None else txn_get t k';
  law_sorted t : StronglySorted bytes_lt (txn_items t).*1;
  law_items t k v : (k, v) ∈ txn_items t ↔ txn_get t k = Some v
}.

(** ** A transaction as a finite map *)

Definition item_le (a b : bytes * bytes) : Prop := bytes_le a.1 b.1.
#[export] Instance item_le_dec : RelDecision item_le.
Proof. intros a b. unfold item_le. apply _. Defined.
#[export] Instance item_le_trans : Transitive item_le.
Proof. intros a b c. unfold item_le. apply bytes_le_trans. Qed.
#[export] Instance item_le_total : Total item_le.
Proof. intros a b. unfold item_le. apply bytes_le_total. Qed.

#[export] Instance gmap_txn : BadgerTxn (gmap bytes bytes) := {
  txn_get t k := t !! k;
  txn_set t k v := if decide (k = []) then Err (ErrOther "Key cannot be empty") else Ret (<[k := v]> t);
  txn_delete t k := if decide (k = []) then Err (ErrOther "Key cannot be empty") else Ret (delete k t);
  txn_items t := merge_sort item_le (map_to_list t)
}.

#[export] Instance gmap_laws : BadgerLaws (gmap bytes bytes).
Proof.
  split.
  - intros t k v Hk. simpl. rewrite decide_False by done. eexists. split; [done|]. intros k'.
    case_decide; [subst; by rewrite lookup_insert_eq|by rewrite lookup_insert_ne].
  - intros t k Hk. simpl. rewrite decide_False by done. eexists. split; [done|]. intros k'.
    case_decide; [subst; by rewrite lookup_delete_eq|by rewrite lookup_delete_ne].
  - intros t. apply StronglySorted_le_lt.
    + simpl. rewrite merge_sort_Permutation. apply NoDup_fst_map_to_list.
    + pose proof (StronglySorted_merge_sort item_le (map_to_list t)) as Hs. simpl.
      induction Hs as [|x l Hs IH Hx]; [constructor|]. rewrite fmap_cons. constructor; [done|].
      by apply Forall_fmap.
  - intros t k v. simpl. rewrite merge_sort_Permutation. apply elem_of_map_to_list.
Qed.

Lemma filter_items_sorted (P : bytes * bytes → Prop) `{∀ kv, Decision (P kv)} (l : list (bytes * bytes)) :
  StronglySorted bytes_lt l.*1 → StronglySorted bytes_lt (filter P l).*1.
Proof.
  induction l as [|kv l IH]; [constructor|]. rewrite fmap_cons. intros [Hs Hk]%StronglySorted_inv.
  rewrite filter_cons. case_decide; [|by apply IH]. rewrite fmap_cons. constructor; [by apply IH|].
  rewrite Forall_fmap in *. by apply Forall_filter.
Qed.

(** ** Iterators *)

Record BadgerIter := mkBadgerIter {
  bi_reverse : bool;
  bi_snapshot : list (bytes * bytes);   (* in the direction of the iteration *)
  bi_rest : list (bytes * bytes)        (* from the current item on *)
}.

Definition NewIterator {T} `{BadgerTxn T} (t : T) (reverse : bool) : BadgerIter :=
  let snap := if reverse then List.rev (txn_items t) else txn_items t in
  mkBadgerIter reverse snap [].

Fixpoint drop_until (stop : bytes → bool) (l : list (bytes * bytes)) : list (bytes * bytes) :=
  match l with
  | [] => []
  | kv :: l' => if stop kv.1 then l else drop_until stop l'
  end.

(** The smallest key at or above the argument; in reverse, the largest at or below it. *)
Definition Seek (it : BadgerIter) (k : bytes) : BadgerIter :=
  mkBadgerIter (bi_reverse it) (bi_snapshot it)
    (drop_until (λ x, if bi_reverse it then bool_decide (bytes_le x k) else bool_decide (bytes_le k x))
       (bi_snapshot it)).

Definition bi_Next (it : BadgerIter) : BadgerIter :=
  mkBadgerIter (bi_reverse it) (bi_snapshot it) (tail (bi_rest it)).

Definition Item (it : BadgerIter) : option (bytes * bytes) := head (bi_rest it).

Definition ValidForPrefix (it : BadgerIter) (p : bytes) : bool :=
  match bi_rest it with [] => false | (k, _) :: _ => has_prefix k p end.

Definition bi_Valid (it : BadgerIter) : bool :=
  match bi_rest it with [] => false | _ => true end.

Section Laws.
Context {T : Type} `{BadgerLaws T}.

Lemma items_NoDup t : NoDup (txn_items t).*1.
Proof. apply sorted_lt_NoDup, law_sorted. Qed.

Lemma txn_set_get (t t' : T) k v k' :
  k ≠ [] → txn_set t k v = Ret t' → txn_get t' k' = if decide (k' = k) then Some v else txn_get t k'.
Proof. intros Hk Ht. destruct (law_set t k v Hk) as (t2 & Ht2 & Hg). rewrite Ht2 in Ht. by simplify_eq. Qed.

Lemma txn_delete_get (t t' : T) k k' :
  k ≠ [] → txn_delete t k = Ret t' → txn_get t' k' = if decide (k' = k) then None else txn_get t k'.
Proof. intros Hk Ht. destruct (law_delete t k Hk) as (t2 & Ht2 & Hg). rewrite Ht2 in Ht. by simplify_eq. Qed.
End Laws.

(** ** Seeking in a sorted snapshot *)

Lemma drop_until_forward P (l : list (bytes * bytes)) :
  StronglySorted bytes_lt l.*1 →
  drop_until (λ x, bool_decide (bytes_le P x)) l = filter (λ kv, bytes_le P kv.1) l.
Proof.
  induction l as [|[k v] l IH]; [done|]. rewrite fmap_cons. intros [Hs Hk]%StronglySorted_inv.
  cbn [drop_until fst]. case_bool_decide as Hb.
  - rewrite filter_cons_True by done. f_equal. symmetry. apply filter_true.
    rewrite Forall_fmap in Hk. eapply Forall_impl; [exact Hk|]. intros [k' v'] Hlt. simpl in *.
    etrans; [done|]. by apply bytes_lt_le.
  - rewrite filter_cons_False by done. by apply IH.
Qed.

Lemma has_prefix_le k P : has_prefix k P = true → bytes_le P k.
Proof.
  intros [q ->]%has_prefix_spec. rewrite <- (app_nil_r P) at 1. unfold bytes_le.
  rewrite bytes_compare_app. by destruct q.
Qed.

(** Seeking a prefix stops at the items that have it. *)
Lemma seek_prefix P (l : list (bytes * bytes)) :
  StronglySorted bytes_lt l.*1 →
  ∃ l3, drop_until (λ x, bool_decide (bytes_le P x)) l = filter (λ kv, has_prefix kv.1 P = true) l ++ l3 ∧
    Forall (λ kv, has_prefix kv.1 P = false) l3.
Proof.
  intros Hs. rewrite drop_until_forward by done. induction l as [|[k v] l IH]; [by exists []|].
  rewrite fmap_cons in Hs. apply StronglySorted_inv in Hs as [Hs Hk]. specialize (IH Hs) as (l3 & Heq & Hl3).
  rewrite !filter_cons. simpl. destruct (has_prefix k P) eqn:Hp.
  - rewrite decide_True by (by apply has_prefix_le). rewrite decide_True by done.
    exists l3. by rewrite Heq.
  - rewrite (decide_False (P := false = true)) by done. case_decide as Hle.
    + rewrite Heq. assert (filter (λ kv : bytes * bytes, has_prefix kv.1 P = true) l = []) as ->.
      { apply filter_false. rewrite Forall_fmap in Hk. eapply Forall_impl; [exact Hk|]. intros [k' v'] Hlt Hpre. simpl in *.
        apply has_prefix_spec in Hpre as [q ->].
        destruct (bytes_between_prefix P [] k q) as [k2 ->];
          [by rewrite app_nil_r|by apply bytes_lt_le|]. by rewrite has_prefix_app in Hp. }
      exists ((k, v) :: l3). split; [done|]. by constructor.
    + exists l3. by rewrite Heq.
Qed.
