(* ===== verification/DBNode.v ===== *)
(** * The database state tree ([tree/tree.badger.go], [tree/badger.iterators.go])

    A [DBNode] is a window on a Badger transaction: every node of the tree is an item whose
    key is the node's keypath behind [keyPrefix] and whose value is the stored form of
    [NodeCodec].  A method that changes the transaction returns the node with the new one.

    The iterators of a node are over a snapshot ([BadgerTxn]).  Badger allows one iterator
    per writing transaction, so a second [Iterator] call while one is open reuses it; the
    model covers operations started while no iterator is open, which is every call made
    outside of an iteration loop over the same transaction.

    [NodeSource] lists what [setNode] asks of a node of another tree that is stored into
    this one. *)

From S2P Require Import Prelude Types Keypath TreeTypes GoValue GoPaths NodeCodec MemoryNode MemoryIter BadgerTxn.

(** ** The state *)

Record DBNode (T : Type) := mkDBNode {
  db_tx : T;
  db_diff : option Diff;
  keyPrefix : bytes;
  rootKeypath : Keypath;
  db_rng : option Range;
  mutable : bool
}.
Arguments mkDBNode {T} _ _ _ _ _ _.
Arguments db_tx {T} _.
Arguments db_diff {T} _.
Arguments keyPrefix {T} _.
Arguments rootKeypath {T} _.
Arguments db_rng {T} _.
Arguments mutable {T} _.

Definition with_tx {T} (n : DBNode T) (t : T) : DBNode T :=
  mkDBNode t (db_diff n) (keyPrefix n) (rootKeypath n) (db_rng n) (mutable n).
Definition with_db_diff {T} (n : DBNode T) (d : option Diff) : DBNode T :=
  mkDBNode (db_tx n) d (keyPrefix n) (rootKeypath n) (db_rng n) (mutable n).

(** A version of the tree: its keys start with the version's 32 bytes and a colon. *)
Definition stateKeyPrefixLen : nat := id_length + 1.

Definition makeStateKeyPrefix (version : ID) : bytes :=
  let keyPrefix := go_copy (replicate stateKeyPrefixLen x00) version in
  <[length keyPrefix - 1 := ":"%byte]> keyPrefix.

Definition makeIndexKeyPrefix (version : ID) (kp indexName : Keypath) : bytes :=
  str "i" ++ str ":" ++ version ++ str ":" ++ kp ++ str ":" ++ indexName ++ str ":".

(** [CurrentVersion] is a fixed ID the caller passes for a nil version. *)
Definition StateAtVersion {T} (newTransaction : bool → T) (version : ID) (mut : bool) : DBNode T :=
  mkDBNode (newTransaction mut) (if mut then Some NewDiff else None) (makeStateKeyPrefix version) [] None mut.

Definition IndexAtVersion {T} (newTransaction : bool → T) (version : ID) (kp indexName : Keypath) (mut : bool) :
    DBNode T :=
  mkDBNode (newTransaction mut) None (makeIndexKeyPrefix version kp indexName) [] None mut.

Definition State {T} (newTransaction : bool → T) (mut : bool) : DBNode T :=
  mkDBNode (newTransaction mut) (if mut then Some NewDiff else None) KeypathSeparator [] None mut.

Definition addKeyPrefix {T} (n : DBNode T) (kp : Keypath) : bytes := keyPrefix n ++ kp.

Definition rmKeyPrefix {T} (n : DBNode T) (k : bytes) : outcome Keypath :=
  slice k (Z.of_nat (length (keyPrefix n))) (Z.of_nat (length k)).

(** The range argument is not used. *)
Definition db_NodeAt {T} (n : DBNode T) (kp : Keypath) (_ : option Range) : DBNode T :=
  mkDBNode (db_tx n) (db_diff n) (keyPrefix n) (Push (rootKeypath n) kp) (db_rng n) (mutable n).

Section Read.
Context {T : Type} `{BadgerTxn T}.

Definition db_NodeInfo (n : DBNode T) (kp : Keypath) : outcome (NodeType * ValueType * Z) :=
  match txn_get (db_tx n) (addKeyPrefix n (Push (rootKeypath n) kp)) with
  | None => Err Err404
  | Some bs => let! d := decodeNode bs in Ret (dn_nodeType d, dn_valueType d, dn_length d)
  end.

Definition db_Exists (n : DBNode T) (kp : Keypath) : outcome bool :=
  Ret (bool_decide (is_Some (txn_get (db_tx n) (addKeyPrefix n (Push (rootKeypath n) kp))))).

Definition db_Length (n : DBNode T) : outcome Z :=
  match txn_get (db_tx n) (addKeyPrefix n (rootKeypath n)) with
  | None => Ret 0%Z
  | Some val =>
      let! d := decodeNode val in
      let! len :=
        match db_rng n with
        | Some r =>
            if negb (ValidForLength r (dn_length d)) then Err ErrInvalidRange
            else let '(s, e) := IndicesForLength r (dn_length d) in Ret (u64 (e - s))
        | None => Ret (dn_length d)
        end in
      match dn_nodeType d with
      | NodeTypeMap | NodeTypeSlice => Ret len
      | NodeTypeValue =>
          match dn_valueType d with ValueTypeString | ValueTypeBytes => Ret len | _ => Ret 0%Z end
      | _ => Ret 0%Z
      end
  end.

(** ** Iterators *)

Record dbIterator := mkDbIterator {
  di_node : DBNode T;                     (* rootNode *)
  di_rootKeypath : Keypath;
  di_scanPrefix : bytes;
  di_iter : BadgerIter;
  di_rootItem : option (bytes * bytes);
  di_current : Keypath                    (* iterNode.rootKeypath *)
}.

Definition scan_prefix_of (n : DBNode T) (root : Keypath) : bytes :=
  let p := addKeyPrefix n root in
  if decide (length p ≠ length (keyPrefix n)) then p ++ [sep] else p.

Definition newIteratorFromBadgerIterator (iter : BadgerIter) (relKeypath : Keypath) (n : DBNode T) : dbIterator :=
  let root := Push (rootKeypath n) relKeypath in
  mkDbIterator n root (scan_prefix_of n root) iter None [].

Definition db_Iterator (n : DBNode T) (kp : Keypath) : dbIterator :=
  newIteratorFromBadgerIterator (NewIterator (db_tx n) false) kp n.

Definition with_iter (it : dbIterator) (i : BadgerIter) (root : option (bytes * bytes)) (cur : Keypath) :=
  mkDbIterator (di_node it) (di_rootKeypath it) (di_scanPrefix it) i root cur.

(** [setNode] copies the item's key without the prefix. *)
Definition di_setNode (it : dbIterator) (item : option (bytes * bytes)) : outcome dbIterator :=
  match item with
  | None => Panic
  | Some (k, _) =>
      let! kp := rmKeyPrefix (di_node it) k in Ret (with_iter it (di_iter it) (di_rootItem it) kp)
  end.

Definition di_Valid (it : dbIterator) : bool :=
  match di_rootItem it with Some _ => true | None => ValidForPrefix (di_iter it) (di_scanPrefix it) end.

Definition di_Rewind (it : dbIterator) : outcome dbIterator :=
  let rootKey := addKeyPrefix (di_node it) (di_rootKeypath it) in
  match txn_get (db_tx (di_node it)) rootKey with
  | None =>
      let it := with_iter it (Seek (di_iter it) (di_scanPrefix it)) None (di_current it) in
      if negb (ValidForPrefix (di_iter it) (di_scanPrefix it)) then Ret it
      else di_setNode it (Item (di_iter it))
  | Some v =>
      let it := with_iter it (di_iter it) (Some (rootKey, v)) (di_current it) in
      di_setNode it (Some (rootKey, v))
  end.

(** [None] is a nil keypath. *)
Definition di_SeekTo (it : dbIterator) (relKeypath : option Keypath) : outcome dbIterator :=
  match relKeypath with
  | None => di_Rewind it
  | Some kp =>
      let abs := Push (di_rootKeypath it) kp in
      let it := with_iter it (Seek (di_iter it) (addKeyPrefix (di_node it) abs)) None (di_current it) in
      if negb (ValidForPrefix (di_iter it) (di_scanPrefix it)) then Ret it
      else di_setNode it (Item (di_iter it))
  end.

Definition di_Next (it : dbIterator) : outcome dbIterator :=
  let! it' :=
    match di_rootItem it with
    | Some _ =>
        let it := with_iter it (Seek (di_iter it) (di_scanPrefix it)) None (di_current it) in
        if negb (di_Valid it) then Ret it
        else
          let! rest := rmKeyPrefix (di_node it) (di_scanPrefix it) in
          if decide (length rest = 0)
          then Ret (with_iter it (bi_Next (di_iter it)) None (di_current it)) else Ret it
    | None => Ret (with_iter it (bi_Next (di_iter it)) None (di_current it))
    end in
  if negb (di_Valid it') then Ret it' else di_setNode it' (Item (di_iter it')).

Definition di_Node (it : dbIterator) : option Keypath :=
  if di_Valid it then Some (di_current it) else None.

#[export] Instance dbIterator_iface : TreeIterator dbIterator := {
  iter_Rewind := di_Rewind; iter_SeekTo it kp := di_SeekTo it (Some kp);
  iter_Valid it := (di_Valid it, it); iter_Node := di_Node; iter_Next := di_Next
}.

(** The iterator over direct children. *)
Record dbChildIterator := mkDbChildIterator { dci_iter : dbIterator; dci_parts : nat }.

Definition db_ChildIterator (n : DBNode T) (kp : Keypath) : dbChildIterator :=
  let it := db_Iterator n kp in mkDbChildIterator it (NumParts (di_rootKeypath it)).

Fixpoint dci_loop (fuel : nat) (parts : nat) (it : dbIterator) : outcome dbIterator :=
  match fuel with
  | O => Running
  | S fuel =>
      if di_Valid it then
        match di_Node it with
        | None => Panic
        | Some k =>
            if decide (NumParts k = parts + 1) then Ret it
            else let! it := di_Next it in dci_loop fuel parts it
        end
      else Ret it
  end.

Definition dci_Next (it : dbChildIterator) : outcome dbChildIterator :=
  if negb (di_Valid (dci_iter it)) then Ret it
  else
    let! i := di_Next (dci_iter it) in
    let! i := dci_loop (S (S (length (bi_snapshot (di_iter i))))) (dci_parts it) i in
    Ret (mkDbChildIterator i (dci_parts it)).

Definition dci_Rewind (it : dbChildIterator) : outcome dbChildIterator :=
  let! i := di_Rewind (dci_iter it) in dci_Next (mkDbChildIterator i (dci_parts it)).

#[export] Instance dbChildIterator_iface : TreeIterator dbChildIterator := {
  iter_Rewind := dci_Rewind;
  iter_SeekTo it kp := let! i := di_SeekTo (dci_iter it) (Some kp) in Ret (mkDbChildIterator i (dci_parts it));
  iter_Valid it := (di_Valid (dci_iter it), it);
  iter_Node it := di_Node (dci_iter it);
  iter_Next := dci_Next
}.

(** The depth-first iterator walks the keys backwards and ends with the root. *)
Record dbDepthFirstIterator := mkDbDepthFirstIterator { ddi_iter : dbIterator; ddi_done : bool }.

Definition db_DepthFirstIterator (n : DBNode T) (kp : Keypath) : dbDepthFirstIterator :=
  mkDbDepthFirstIterator (newIteratorFromBadgerIterator (NewIterator (db_tx n) true) kp n) false.

Definition ddi_Valid (it : dbDepthFirstIterator) : bool :=
  match di_rootItem (ddi_iter it) with
  | Some _ => true
  | None => if ddi_done it then false else ValidForPrefix (di_iter (ddi_iter it)) (di_scanPrefix (ddi_iter it))
  end.

Definition syncAfterJump (it : dbDepthFirstIterator) : outcome dbDepthFirstIterator :=
  let i := ddi_iter it in
  match Item (di_iter i) with
  | None => Ret (mkDbDepthFirstIterator (with_iter i (di_iter i) None (di_current i)) true)
  | Some item =>
      let! kp := rmKeyPrefix (di_node i) item.1 in
      if Equals kp (di_rootKeypath i) then
        let! i := di_setNode i (Some item) in
        Ret (mkDbDepthFirstIterator (with_iter i (di_iter i) (Some item) (di_current i)) false)
      else if ValidForPrefix (di_iter i) (di_scanPrefix i) then
        let! i := di_setNode i (Some item) in Ret (mkDbDepthFirstIterator i false)
      else Ret (mkDbDepthFirstIterator (with_iter i (di_iter i) None (di_current i)) true)
  end.

Definition ddi_Rewind (it : dbDepthFirstIterator) : outcome dbDepthFirstIterator :=
  let i := ddi_iter it in
  syncAfterJump
    (mkDbDepthFirstIterator (with_iter i (Seek (di_iter i) (di_scanPrefix i ++ [xff])) None (di_current i)) false).

Definition ddi_SeekTo (it : dbDepthFirstIterator) (kp : Keypath) : outcome dbDepthFirstIterator :=
  let i := ddi_iter it in
  syncAfterJump
    (mkDbDepthFirstIterator
       (with_iter i (Seek (di_iter i) (addKeyPrefix (di_node i) (Push (di_rootKeypath i) kp))) (di_rootItem i) (di_current i))
       (ddi_done it)).

Definition ddi_Next (it : dbDepthFirstIterator) : outcome dbDepthFirstIterator :=
  let i := ddi_iter it in
  if ddi_done it then Ret it
  else match di_rootItem i with
       | Some _ => Ret (mkDbDepthFirstIterator (with_iter i (di_iter i) None (di_current i)) true)
       | None =>
           syncAfterJump
             (mkDbDepthFirstIterator (with_iter i (bi_Next (di_iter i)) None (di_current i)) (ddi_done it))
       end.

#[export] Instance dbDepthFirstIterator_iface : TreeIterator dbDepthFirstIterator := {
  iter_Rewind := ddi_Rewind;
  iter_SeekTo := ddi_SeekTo;
  iter_Valid it := (ddi_Valid it, it);
  iter_Node it := if ddi_Valid it then Some (di_current (ddi_iter it)) else None;
  iter_Next := ddi_Next
}.

(** ** Scanning the children of a node *)

(** Enough turns for any loop over the items of the transaction. *)
Definition scan_fuel (t : T) : nat := length (txn_items t) + 2.

(** The direct subkey number [n], [None] when there are fewer. *)
Fixpoint nth_subkey_loop (fuel : nat) (it : dbChildIterator) (idx n : Z) : outcome (option Keypath) :=
  match fuel with
  | O => Running
  | S fuel =>
      if di_Valid (dci_iter it) then
        match di_Node (dci_iter it) with
        | None => Ret None
        | Some k =>
            if decide (idx = n) then Ret (Some k)
            else let! it := dci_Next it in nth_subkey_loop fuel it (idx + 1) n
        end
      else Ret None
  end.

Definition keypathOfNthSubkey (node : DBNode T) (kp : Keypath) (n : Z) : outcome (option Keypath) :=
  let! it := dci_Rewind (db_ChildIterator node kp) in
  nth_subkey_loop (scan_fuel (db_tx node)) it 0 n.

(** The range over a map, while it is iterated: subkey counter, end and previous keypath. *)
Record map_range := mkMapRange { mr_subkeyIdx : Z; mr_endIdx : Z; mr_prev : option bytes }.

(** What decides whether a ranged scan stops at a keypath. *)
Inductive scan_end := NoEnd | SliceEnd (endKeypath : Keypath) | MapEnd (r : map_range).

(** [None] to stop, otherwise the state for the next turn. *)
Definition scan_stop (n : DBNode T) (e : scan_end) (absKeypath : bytes) : outcome (option scan_end) :=
  match e with
  | NoEnd => Ret (Some NoEnd)
  | SliceEnd endKeypath =>
      let! kp := rmKeyPrefix n absKeypath in
      if Equals kp endKeypath then Ret None else Ret (Some e)
  | MapEnd r =>
      match mr_prev r with
      | None => Ret (Some (MapEnd (mkMapRange (mr_subkeyIdx r) (mr_endIdx r) (Some absKeypath))))
      | Some prev =>
          let! a := Part absKeypath 0 in
          let! b := Part prev 0 in
          let idx := if Equals (nilable a) (nilable b) then mr_subkeyIdx r else u64 (mr_subkeyIdx r + 1) in
          if decide (idx = mr_endIdx r) then Ret None
          else Ret (Some (MapEnd (mkMapRange idx (mr_endIdx r) (Some absKeypath))))
      end
  end.

Section ScanChildren.
Context {S : Type} (fn : S → bytes → bytes → outcome S).

Fixpoint scan_children_loop (fuel : nat) (n : DBNode T) (it : dbIterator) (e : scan_end) (s : S) :
    outcome (S * option error) :=
  match fuel with
  | O => Running
  | Datatypes.S fuel =>
      if di_Valid it then
        match Item (di_iter it) with
        | None => Panic
        | Some (absKeypath, val) =>
            let! e' := scan_stop n e absKeypath in
            match e' with
            | None => Ret (s, None)
            | Some e' =>
                match fn s absKeypath val with
                | Ret s' => let! it := di_Next it in scan_children_loop fuel n it e' s'
                | Err err => Ret (s, Some err)
                | Panic => Panic
                | Running => Running
                end
            end
        end
      else Ret (s, None)
  end.

(** [iter.Rewind(); iter.Next()] *)
Definition skip_root (it : dbIterator) : outcome dbIterator :=
  let! it := di_Rewind it in di_Next it.

(** In a writing transaction the range over a map opens a second iterator before the first
    one has a position, which dereferences a nil node. *)
Definition scanChildrenForward (n : DBNode T) (rootNodeType : NodeType) (relKeypath : Keypath)
    (r : option Range) (length : Z) (s : S) : outcome (S * option error) :=
  let it := db_Iterator n relKeypath in
  let fuel := scan_fuel (db_tx n) in
  match rootNodeType, r with
  | NodeTypeMap, None | NodeTypeSlice, None =>
      let! it := skip_root it in scan_children_loop fuel n it NoEnd s
  | NodeTypeMap, Some r =>
      if negb (ValidForLength r length) then Ret (s, Some ErrInvalidRange)
      else if decide (Range_Size r = 0)%Z then Ret (s, None)
      else if mutable n then Panic
      else
        let '(startIdx, endIdx) := IndicesForLength r length in
        let! k := keypathOfNthSubkey n relKeypath startIdx in
        let! startKeypath :=
          match k with
          | Some k => let! x := RelativeTo k relKeypath in Ret (Some x)
          | None => if decide (relKeypath = []) then Ret None else Panic
          end in
        let! it := di_SeekTo it startKeypath in
        scan_children_loop fuel n it (MapEnd (mkMapRange startIdx endIdx None)) s
  | NodeTypeSlice, Some r =>
      if negb (ValidForLength r length) then Ret (s, Some ErrInvalidRange)
      else if decide (Range_Size r = 0)%Z then Ret (s, None)
      else
        let '(startIdx, endIdx) := IndicesForLength r length in
        let! _ := PushIndex relKeypath startIdx in
        let! endKeypath := PushIndex relKeypath endIdx in
        let! start := EncodeSliceIndex startIdx in
        let! it := di_SeekTo it (Some start) in
        scan_children_loop fuel n it (SliceEnd endKeypath) s
  | _, _ => Ret (s, Some (ErrOther "scanChildrenForward can only be called on a map or slice"))
  end.
End ScanChildren.
End Read.
Arguments dbIterator T : clear implicits.
Arguments dbChildIterator T : clear implicits.
Arguments dbDepthFirstIterator T : clear implicits.

(** ** Reading *)

(** A keypath below a slice with its index shifted. *)
Definition renumberSliceIndexKeypath (root absKeypath : Keypath) (delta : Z) : outcome Keypath :=
  let! rel := RelativeTo absKeypath root in
  let rel := Copy rel in
  let! old := slice rel 0 8 in
  let! oldIdx := DecodeSliceIndex old in
  let newIdx := u64 (i64 (i64 oldIdx + delta)) in
  let! e := EncodeSliceIndex newIdx in
  Ret (Push root (go_copy old e ++ drop 8 rel)).

Section Ops.
Context {T : Type} `{BadgerTxn T}.

Definition db_Subkeys (n : DBNode T) : outcome (list Keypath) :=
  let start := addKeyPrefix n (rootKeypath n) ++ [sep] in
  let fix loop (items : list (bytes * bytes)) (ks : list Keypath) (seen : gset Keypath) : outcome (list Keypath) :=
    match items with
    | [] => Ret ks
    | (k, _) :: items =>
        if has_prefix k start then
          let! kp := rmKeyPrefix n k in
          let! rel := RelativeTo kp (rootKeypath n) in
          let! p := Part rel 0 in
          let subkey := nilable p in
          if decide (subkey ∉ seen ∧ 0 < length subkey)
          then loop items (ks ++ [subkey]) ({[subkey]} ∪ seen)
          else loop items ks seen
        else Ret ks
    end in
  loop (bi_rest (Seek (NewIterator (db_tx n) false) start)) [] ∅.

(** Insert one decoded item into the value that is being built.  [goParents] holds every
    container under its keypath, as a reference to the object inside the root value, so
    putting a child into [goParents[parent]] is setting it at its keypath in the root; a
    parent that is missing or not a container panics either way. *)
Definition value_step (prefixedRoot : bytes) (shift : option Z) (root : plain) (absKeypath val : bytes) :
    outcome plain :=
  let! rel := RelativeTo absKeypath prefixedRoot in
  let! rel :=
    match shift with
    | None => Ret rel
    | Some startIdx =>
        let! k := renumberSliceIndexKeypath prefixedRoot absKeypath (i64 (- i64 startIdx)) in
        RelativeTo k prefixedRoot
    end in
  let! v := decodeStored val None in
  let '(_, key) := Pop rel in
  if decide (length key = 0) then Panic else setValueAtKeypath root rel v false.

Definition db_Value (n : DBNode T) (relKeypath : Keypath) (r : option Range) : outcome (option plain) :=
  let! r := merge_range (db_rng n) r in
  let root := addKeyPrefix n (Push (rootKeypath n) relKeypath) in
  match txn_get (db_tx n) root with
  | None => Ret None
  | Some val =>
      let! d := decodeNode val in
      if decide (dn_nodeType d = NodeTypeValue) then
        let! v := decodeGoValue (dn_nodeType d) (dn_valueType d) (dn_length d) r (dn_data d) in Ret (Some v)
      else
        let! len := ranged_length (dn_length d) r in
        let start := if decide (dn_nodeType d = NodeTypeSlice)
                     then GSlice (replicate (Z.to_nat len) (GScalar SNil)) else GMap [] in
        let shift := match r with
                     | Some x => if decide (dn_nodeType d = NodeTypeSlice)
                                 then Some (fst (IndicesForLength x (dn_length d))) else None
                     | None => None
                     end in
        let! res := scanChildrenForward (value_step root shift) n (dn_nodeType d) relKeypath r (dn_length d) start in
        match res with
        | (_, Some e) => Err e
        | (v, None) => Ret (Some v)
        end
  end.

(** The typed accessors read the whole value and look at its type. *)
Definition typed_value {A} (pick : plain → option A) (n : DBNode T) (kp : Keypath) : outcome (option A) :=
  let! v := db_Value n kp None in
  match v with None => Ret None | Some v => Ret (pick v) end.

Definition db_UintValue := typed_value (λ v, match v with GScalar (SUint K64 u) => Some u | _ => None end).
Definition db_IntValue := typed_value (λ v, match v with GScalar (SInt K64 i) => Some i | _ => None end).
Definition db_FloatValue := typed_value (λ v, match v with GScalar (SFloat f) => Some f | _ => None end).
Definition db_BoolValue := typed_value (λ v, match v with GScalar (SBool b) => Some b | _ => None end).
Definition db_StringValue := typed_value (λ v, match v with GScalar (SString s) => Some s | _ => None end).
Definition db_BytesValue := typed_value (λ v, match v with GScalar (SBytes b) => Some b | _ => None end).
Definition db_MapValue := typed_value (λ v, match v with GMap m => Some m | _ => None end).
Definition db_SliceValue := typed_value (λ v, match v with GSlice l => Some l | _ => None end).

(** ** Deleting *)

Definition db_remove (n : DBNode T) (k : bytes) : outcome (DBNode T) :=
  let! t := txn_delete (db_tx n) k in
  let n := with_tx n t in
  let! kp := rmKeyPrefix n k in
  Ret (with_db_diff n (Diff_Remove (db_diff n) kp)).

Definition db_put (n : DBNode T) (k v : bytes) : outcome (DBNode T) :=
  let! t := txn_set (db_tx n) k v in Ret (with_tx n t).

(** [Delete] when neither the caller nor the node has a range.  The error of the scan is
    dropped. *)
Definition delete_subtree (n : DBNode T) (relKeypath : Keypath) : outcome (DBNode T) :=
  let root := addKeyPrefix n (Push (rootKeypath n) relKeypath) in
  match txn_get (db_tx n) root with
  | None => Ret n
  | Some val =>
      let! d := decodeNode val in
      if decide (dn_nodeType d = NodeTypeValue) then
        let! kp := rmKeyPrefix n root in
        let n := with_db_diff n (Diff_Remove (db_diff n) kp) in
        let! t := txn_delete (db_tx n) root in Ret (with_tx n t)
      else
        let! res := scanChildrenForward (λ n k _, db_remove n (Copy k)) n (dn_nodeType d) relKeypath None (dn_length d) n in
        db_remove res.1 root
  end.

(** ** Setting *)

(** What [setNode] asks of a node of another tree. *)
Class NodeSource (N : Type) := {
  src_keypath : N → Keypath;                                  (* Keypath() *)
  src_iterate : N → outcome (list Keypath);                   (* the nodes its Iterator visits *)
  src_innerNode : N → Keypath → outcome (option N);
  src_encodedBytes : N → Keypath → option (outcome bytes);    (* [None] unless it is a DBNode *)
  src_NodeInfo : N → Keypath → outcome (NodeType * ValueType * Z);
  src_childValue : N → Keypath → outcome (option scalar)      (* Value of the visited node *)
}.

Section SetNode.
Context {N : Type} `{NodeSource N}.

(** [fuel] bounds the nesting of trees inside trees. *)
Fixpoint setNode (fuel : nat) (n : DBNode T) (absKeypath : Keypath) (node : N) : outcome (DBNode T) :=
  match fuel with
  | O => Running
  | S fuel =>
      let! visited := src_iterate node in
      fold_outcome
        (λ n childKeypath,
           let! rel := RelativeTo childKeypath (src_keypath node) in
           let! inner := src_innerNode node rel in
           match inner with
           | Some innerNode => setNode fuel n (Push absKeypath rel) innerNode
           | None =>
               match src_encodedBytes node childKeypath with
               | Some enc =>
                   let! encoded := enc in db_put n (addKeyPrefix n (Push absKeypath rel)) encoded
               | None =>
                   let! info := src_NodeInfo node rel in
                   let '(nodeType, valueType, len) := info in
                   let! val :=
                     if decide (nodeType = NodeTypeValue) then src_childValue node childKeypath
                     else Ret (Some SNil) in
                   match val with
                   | None => Ret n
                   | Some val =>
                       let! encoded := encodeNode nodeType valueType len val in
                       db_put n (addKeyPrefix n (Push absKeypath rel)) encoded
                   end
               end
           end)
        n visited
  end.

Context `{StructFields N}.

(** The nesting of trees is at most this deep. *)
Definition nesting : nat := 64.

(** Missing ancestors become maps of length 1. *)
Definition ensure_ancestor (absKeypath : Keypath) (n : DBNode T) (i : nat) : outcome (DBNode T) :=
  let! part := FirstNParts absKeypath (Z.of_nat i) in
  let partialKeypath := addKeyPrefix n part in
  match txn_get (db_tx n) partialKeypath with
  | None => let! encoded := encodeNode NodeTypeMap ValueTypeInvalid 1 SNil in db_put n partialKeypath encoded
  | Some _ => Ret n
  end.

Definition put_step (absKeypath : Keypath) (n : DBNode T) (nodeKeypath : Keypath) (nodeValue : goval N) :
    outcome (DBNode T) :=
  let absNodeKeypath := if decide (length nodeKeypath ≠ 0) then Push absKeypath nodeKeypath else absKeypath in
  match nodeValue with
  | GNode node => setNode nesting n absNodeKeypath node
  | _ =>
      let n := with_db_diff n (Diff_Add (db_diff n) absNodeKeypath) in
      let! encoded := encodeGoValue nodeValue in
      db_put n (addKeyPrefix n absNodeKeypath) encoded
  end.

Definition setNoRange (n : DBNode T) (absKeypath : Keypath) (value : goval N) : outcome (DBNode T) :=
  let! rel := RelativeTo absKeypath (rootKeypath n) in
  let! n := delete_subtree n rel in
  let! n := fold_outcome (ensure_ancestor absKeypath) n (seq 0 (NumParts absKeypath)) in
  walkGoValue value (put_step absKeypath) n.

(** [copy(buf[i:], src)]: overwrite from position [i], which must be inside the buffer. *)
Definition copy_at (buf : bytes) (i : Z) (src : bytes) : outcome bytes :=
  let! tl := slice buf i (Z.of_nat (length buf)) in
  Ret (take (Z.to_nat i) buf ++ go_copy tl src).

Definition setRangeBytes (n : DBNode T) (absKeypath : Keypath) (r : Range) (encodedVal spliceVal : bytes) :
    outcome (DBNode T) :=
  let encodedVal := if decide (length encodedVal = 0) then str "vs" else encodedVal in
  let! d := decodeNode encodedVal in
  if decide (dn_valueType d ≠ ValueTypeString ∧ dn_valueType d ≠ ValueTypeBytes) then Err ErrRangeOverNonSlice
  else if negb (ValidForLength r (dn_length d)) then Err ErrInvalidRange
  else
    let '(startIdx, endIdx) := IndicesForLength r (dn_length d) in
    let oldVal := dn_data d in
    let splen := Z.of_nat (length spliceVal) in
    let newLen := u64 (2 + dn_length d - Range_Size r + splen) in
    let tag := if decide (dn_valueType d = ValueTypeString) then str "vs" else str "vz" in
    let newVal := tag ++ replicate (Z.to_nat newLen - 2) x00 in
    let! a := slice oldVal 0 startIdx in
    let! newVal := copy_at newVal 2 a in
    let! newVal := copy_at newVal (u64 (2 + startIdx)) spliceVal in
    let! b := slice oldVal endIdx (Z.of_nat (length oldVal)) in
    let! newVal := copy_at newVal (u64 (2 + startIdx + splen)) b in
    db_put n (addKeyPrefix n absKeypath) newVal.

(** The loop that deletes the replaced elements: from [startKeypath] up to [endKeypath]. *)
Fixpoint splice_delete (n : DBNode T) (prefix endKeypath : bytes) (items : list (bytes * bytes)) :
    outcome (DBNode T) :=
  match items with
  | [] => Ret n
  | (k, _) :: items =>
      if has_prefix k prefix then
        if Equals k endKeypath then Ret n
        else
          let! kp := rmKeyPrefix n k in
          let n := with_db_diff n (Diff_Remove (db_diff n) kp) in
          let! t := txn_delete (db_tx n) k in
          splice_delete (with_tx n t) prefix endKeypath items
      else Ret n
  end.

(** The loop that renumbers the trailing elements. *)
Fixpoint splice_shift (n : DBNode T) (scanPrefix endKeypath : bytes) (shrink : bool) (oldLen newLen startIdx : Z)
    (items : list (bytes * bytes)) : outcome (DBNode T) :=
  match items with
  | [] => Ret n
  | (oldKeypath, val) :: items =>
      if has_prefix oldKeypath scanPrefix then
        if Equals oldKeypath endKeypath then Ret n
        else
          let prefixLen := Z.of_nat (length scanPrefix) in
          let! old := slice oldKeypath prefixLen (prefixLen + 8) in
          let! oldIdx := DecodeSliceIndex old in
          if negb shrink && bool_decide (oldIdx < startIdx)%Z then Ret n
          else
            let newIdx := if shrink then u64 (oldIdx - u64 (oldLen - newLen)) else u64 (oldIdx + u64 (newLen - oldLen)) in
            let! e := EncodeSliceIndex newIdx in
            let newKeypath := take (length scanPrefix) oldKeypath ++ go_copy old e ++ drop (length scanPrefix + 8) oldKeypath in
            let! t := txn_set (db_tx n) newKeypath val in
            let! t := txn_delete t oldKeypath in
            splice_shift (with_tx n t) scanPrefix endKeypath shrink oldLen newLen startIdx items
      else Ret n
  end.

(** The callback that stores the spliced values at their new positions. *)
Definition splice_put (absKeypath : bytes) (newLen startIdx : Z) (n : DBNode T) (nodeKeypath : Keypath) (val : goval N) :
    outcome (DBNode T) :=
  let nodeKeypath := Copy nodeKeypath in
  if decide (length nodeKeypath = 0) then
    let! encoded := encodeNode NodeTypeSlice ValueTypeInvalid newLen SNil in db_put n absKeypath encoded
  else
    let! old := slice nodeKeypath 0 8 in
    let! oldIdx := DecodeSliceIndex old in
    let! e := EncodeSliceIndex (u64 (oldIdx + startIdx)) in
    let absNodeKeypath := Push absKeypath (go_copy old e ++ drop 8 nodeKeypath) in
    let! encoded := encodeGoValue val in
    let! kp := rmKeyPrefix n absNodeKeypath in
    let n := with_db_diff n (Diff_Add (db_diff n) kp) in
    db_put n absNodeKeypath encoded.

Definition setRangeSlice (n : DBNode T) (absKeypath : Keypath) (r : Range) (encodedVal : bytes)
    (spliceVal : list (goval N)) : outcome (DBNode T) :=
  let! d := decodeNode encodedVal in
  if decide (dn_nodeType d ≠ NodeTypeSlice) then Err ErrRangeOverNonSlice
  else
    let oldLen := dn_length d in
    if negb (ValidForLength r oldLen) then Err ErrInvalidRange
    else
      let absKeypath := addKeyPrefix n absKeypath in
      let prefix := absKeypath ++ [sep] in
      let newLen := u64 (oldLen - Range_Size r + Z.of_nat (length spliceVal)) in
      let shrink := bool_decide (newLen < oldLen)%Z in
      let '(startIdx, endIdx) := IndicesForLength r oldLen in
      let! startKeypath := PushIndex absKeypath startIdx in
      let! endKeypath := PushIndex absKeypath endIdx in
      let! n := splice_delete n prefix endKeypath (bi_rest (Seek (NewIterator (db_tx n) false) startKeypath)) in
      let! n :=
        if decide (newLen ≠ oldLen ∧ oldLen ≠ 0%Z) then
          let! ends :=
            if shrink then
              let! s := PushIndex absKeypath endIdx in
              let! e := PushIndex absKeypath oldLen in Ret (s, e)
            else
              let! s := PushIndex absKeypath (oldLen - 1) in
              let! e := PushIndex absKeypath startIdx in Ret (Push s [xff], e) in
          splice_shift n prefix ends.2 shrink oldLen newLen startIdx
            (bi_rest (Seek (NewIterator (db_tx n) (negb shrink)) ends.1))
        else Ret n in
      walkGoValue (GSlice spliceVal) (splice_put absKeypath newLen startIdx) n.

Definition db_Set (n : DBNode T) (relKeypath : Keypath) (r : option Range) (val : goval N) : outcome (DBNode T) :=
  let! r := match r, db_rng n with
            | None, own => Ret own
            | Some _, Some _ => Panic
            | Some r, None => Ret (Some r)
            end in
  let absKeypath := Push (rootKeypath n) relKeypath in
  match r with
  | Some r =>
      if negb (Range_Valid r) then Err ErrInvalidRange
      else
        match txn_get (db_tx n) (addKeyPrefix n absKeypath) with
        | None => Err ErrRangeOverNonSlice
        | Some encodedVal =>
            match val with
            | GScalar (SBytes spliceVal) | GScalar (SString spliceVal) => setRangeBytes n absKeypath r encodedVal spliceVal
            | GSlice spliceVal => setRangeSlice n absKeypath r encodedVal spliceVal
            | _ => Err (ErrOther "wrong type for splice")
            end
        end
  | None => setNoRange n absKeypath val
  end.
End SetNode.
End Ops.

#[export] Instance NodeSource_none : NodeSource Empty_set := {
  src_keypath n := match n with end;
  src_iterate n := match n with end;
  src_innerNode n := match n with end;
  src_encodedBytes n := match n with end;
  src_NodeInfo n := match n with end;
  src_childValue n := match n with end
}.

(** A memory tree without inner nodes as the source of [setNode]. *)
#[export] Instance NodeSource_memory : NodeSource (MemoryNode Empty_set) := {
  src_keypath n := MemoryNode.keypath n;
  src_iterate n := collect (length (keypaths n) + 2) (new_iterator n []);
  src_innerNode n kp := Ret None;
  src_encodedBytes n kp := None;
  src_NodeInfo n kp := NodeInfo tt n kp;
  src_childValue n kp :=
    let child := mkMemoryNode kp None (keypaths n) (values n) (nodeTypes n) (contentLengths n) false None in
    let! v := Value tt child [] None in
    match v with Some (GScalar s) => Ret (Some s) | Some _ => Panic | None => Ret None end
}.

(** ** Deleting with a range, copies, versions and indices *)

Section Tree.
Context {T : Type} `{BadgerTxn T}.

(** [Delete(rel, rng)].  The string and byte cases pass the prefixed keypath to [Set]. *)
Definition db_Delete (n : DBNode T) (relKeypath : Keypath) (r : option Range) : outcome (DBNode T) :=
  let! r := merge_range (db_rng n) r in
  match r with
  | None => delete_subtree n relKeypath
  | Some r =>
      let root := addKeyPrefix n (Push (rootKeypath n) relKeypath) in
      match txn_get (db_tx n) root with
      | None => Ret n
      | Some val =>
          let! d := decodeNode val in
          let length := dn_length d in
          if decide (dn_nodeType d = NodeTypeValue) then
            if decide (dn_valueType d ≠ ValueTypeString ∧ dn_valueType d ≠ ValueTypeBytes) then Err ErrRangeOverNonSlice
            else if negb (ValidForLength r length) then Err ErrInvalidRange
            else
              let! v := decodeGoValue (dn_nodeType d) (dn_valueType d) length None (dn_data d) in
              let '(startIdx, endIdx) := IndicesForLength r length in
              match v with
              | GScalar (SString s) =>
                  let! a := slice s 0 startIdx in
                  let! b := slice s endIdx (Z.of_nat (List.length s)) in
                  db_Set n root None (GScalar (SString (a ++ b)) : plain)
              | GScalar (SBytes s) =>
                  let! a := slice s 0 startIdx in
                  let! b := slice s endIdx (Z.of_nat (List.length s)) in
                  db_Set n root None (GScalar (SBytes (a ++ b)) : plain)
              | _ => Panic
              end
          else
            let! res := scanChildrenForward (λ n k _, db_remove n (Copy k)) n (dn_nodeType d) relKeypath (Some r) length n in
            let n := res.1 in
            let '(_, endIdx) := IndicesForLength r length in
            let! n :=
              if decide (dn_nodeType d = NodeTypeSlice ∧ (endIdx < length)%Z) then
                let renumberRange := mkRange (i64 endIdx) (i64 length) in
                let delta := i64 (- i64 (Range_Size r)) in
                let! res :=
                  scanChildrenForward
                    (λ n k val,
                       let! newAbsKeypath := renumberSliceIndexKeypath root k delta in
                       let! t := txn_set (db_tx n) newAbsKeypath val in
                       let! t := txn_delete t (Copy k) in Ret (with_tx n t))
                    n NodeTypeSlice relKeypath (Some renumberRange) length n in
                match res with (_, Some e) => Err e | (n, None) => Ret n end
              else Ret n in
            if decide (dn_nodeType d = NodeTypeSlice ∨ dn_nodeType d = NodeTypeMap) then
              let! encoded := encodeNode (dn_nodeType d) ValueTypeInvalid (u64 (length - Range_Size r)) SNil in
              db_put n root encoded
            else Ret n
      end
  end.

(** One item of the subtree into the tables of the copy; with a range over a slice the
    keypath recorded is the renumbered absolute one. *)
Definition copy_item (prefixedRoot : bytes) (shift : option Z)
    (st : list Keypath * MemoryNode Empty_set) (absKeypath val : bytes) :
    outcome (list Keypath * MemoryNode Empty_set) :=
  let '(new, m) := st in
  let! rel := RelativeTo absKeypath prefixedRoot in
  let! rel :=
    match shift with
    | None => Ret (Copy rel)
    | Some startIdx => renumberSliceIndexKeypath prefixedRoot absKeypath (i64 (- i64 startIdx))
    end in
  let! d := decodeNode val in
  let! decoded := decodeGoValue (dn_nodeType d) (dn_valueType d) (dn_length d) None (dn_data d) in
  let nts := <[rel := dn_nodeType d]> (nodeTypes m) in
  let cls := if decide (dn_nodeType d = NodeTypeSlice ∨ dn_nodeType d = NodeTypeMap)
             then <[rel := dn_length d]> (contentLengths m) else contentLengths m in
  let vs := match decoded with
            | GScalar s => if decide (dn_nodeType d = NodeTypeValue) then <[rel := MV s]> (values m) else values m
            | _ => values m
            end in
  Ret (new ++ [rel], with_tables m (keypaths m) vs nts cls).

Definition db_CopyToMemory (n : DBNode T) (relKeypath : Keypath) (r : option Range) :
    outcome (MemoryNode Empty_set) :=
  let! r := merge_range (db_rng n) r in
  let root := addKeyPrefix n (Push (rootKeypath n) relKeypath) in
  match txn_get (db_tx n) root with
  | None => Err Err404
  | Some valBytes =>
      let! d := decodeNode valBytes in
      let! len := ranged_length (dn_length d) r in
      if decide (dn_nodeType d = NodeTypeValue) then
        let! v := decodeGoValue (dn_nodeType d) (dn_valueType d) (dn_length d) r (dn_data d) in
        let! hm := Set_ tt NewMemoryNode [] None v in Ret hm.2
      else
        let m := mkMemoryNode [] None [[]] ∅ {[ [] := dn_nodeType d ]}
                   (if decide (dn_nodeType d = NodeTypeMap ∨ dn_nodeType d = NodeTypeSlice)
                    then {[ [] := len ]} else ∅) false (Some NewDiff) in
        let shift := match r with
                     | Some x => if decide (dn_nodeType d = NodeTypeSlice)
                                 then Some (fst (IndicesForLength x (dn_length d))) else None
                     | None => None
                     end in
        let! res := scanChildrenForward (copy_item root shift) n (dn_nodeType d) relKeypath r (dn_length d) ([], m) in
        match res with
        | (_, Some e) => Err e
        | ((new, m), None) =>
            let m := with_tables m (addKeypaths (keypaths m) new) (values m) (nodeTypes m) (contentLengths m) in
            Ret (with_diff m (Some (Diff_Copy (db_diff n))))
        end
  end.

(** [CopyVersion]: every item of the source version again under the destination's prefix. *)
Definition CopyVersion (t : T) (dstVersion srcVersion : ID) : outcome T :=
  fold_outcome
    (λ t kv,
       let newKey := go_copy (take stateKeyPrefixLen kv.1) dstVersion ++ drop stateKeyPrefixLen kv.1 in
       txn_set t newKey kv.2)
    t (filter (λ kv, has_prefix kv.1 (srcVersion ++ str ":") = true) (txn_items t)).

(** [BuildIndex]: [indexNode] is the indexer, a parameter (a field or a script), [children]
    the node's direct children as its [ChildIterator] yields them. *)
Section Index.
Context {N : Type} `{NodeSource N} `{StructFields N}.
Context (indexNode : Keypath → outcome (option (Keypath * N))).

Definition index_child (nodeKeypath : Keypath) (rootNodeType : NodeType)
    (st : gmap Keypath (gset Keypath) * DBNode T) (childKeypath : Keypath) :
    outcome (gmap Keypath (gset Keypath) * DBNode T) :=
  let '(children, index) := st in
  let! relKeypath := RelativeTo childKeypath nodeKeypath in
  let! ix := indexNode relKeypath in
  match ix with
  | None => Ret st
  | Some (indexKey, node) =>
      let! part := Part relKeypath 0 in
      let mine := {[nilable part]} ∪ default ∅ (children !! indexKey) in
      let children := <[indexKey := mine]> children in
      let rest := nilable (snd (Shift relKeypath)) in
      let! rel :=
        match rootNodeType with
        | NodeTypeSlice =>
            let! e := EncodeSliceIndex (u64 (Z.of_nat (size mine) - 1)) in Ret (Unshift rest e)
        | NodeTypeMap => Ret (Unshift rest indexKey)
        | _ => Ret relKeypath
        end in
      let! index := db_Set index rel None (GNode node) in
      Ret (children, index)
  end.

Definition BuildIndex (index : DBNode T) (nodeKeypath : Keypath) (rootNodeType : NodeType)
    (childKeypaths : list Keypath) : outcome (DBNode T) :=
  let! st := fold_outcome (index_child nodeKeypath rootNodeType) (∅, index) childKeypaths in
  let '(children, index) := st in
  let! index :=
    fold_outcome
      (λ index kc,
         let! encoded := encodeNode rootNodeType ValueTypeInvalid (Z.of_nat (size kc.2)) SNil in
         db_put index (addKeyPrefix index kc.1) encoded)
      index (map_to_list children) in
  let! encoded := encodeNode NodeTypeMap ValueTypeInvalid 0 SNil in
  db_put index (addKeyPrefix index []) encoded.
End Index.
End Tree.
