(* ===== verification/DBProps.v ===== *)
(** * What the operations of the database tree do

    The abstract view of a node is the shape stored at each keypath ([db_shape]); [db_wf] is
    the invariant: every key under the prefix is a keypath without empty parts that holds a
    decodable item, and everything above it is a map or a slice. *)

From S2P Require Import Prelude Types Keypath TreeTypes GoValue GoPaths Assemble NodeCodec MemoryNode MemoryProps.
From S2P Require Import MemoryIter BadgerTxn DBNode.

(** ** Scans *)

Section Scans.
Context {T : Type} `{BadgerLaws T}.

(** A scan over a list of items, which the first error of the callback ends. *)
Fixpoint scan_items {S} (fn : S → bytes → bytes → outcome S) (items : list (bytes * bytes)) (s : S) :
    outcome (S * option error) :=
  match items with
  | [] => Ret (s, None)
  | (k, v) :: items =>
      match fn s k v with
      | Ret s' => scan_items fn items s'
      | Err e => Ret (s, Some e)
      | Panic => Panic
      | Running => Running
      end
  end.

Lemma rmKeyPrefix_app (n : DBNode T) k : rmKeyPrefix n (keyPrefix n ++ k) = Ret k.
Proof. unfold rmKeyPrefix. by apply slice_tail; rewrite ?length_app. Qed.

Lemma rmKeyPrefix_add (n : DBNode T) k : rmKeyPrefix n (addKeyPrefix n k) = Ret k.
Proof. apply rmKeyPrefix_app. Qed.

(** The iterator stands at the items [L], which have the scan prefix, before [l3], which do
    not. *)
Definition standing (it : dbIterator T) (L l3 : list (bytes * bytes)) : Prop :=
  di_rootItem it = None ∧ bi_rest (di_iter it) = L ++ l3 ∧
  Forall (λ kv, has_prefix kv.1 (di_scanPrefix it) = true) L ∧
  Forall (λ kv, has_prefix kv.1 (di_scanPrefix it) = false) l3 ∧
  has_prefix (di_scanPrefix it) (keyPrefix (di_node it)) = true.

Lemma standing_valid it L l3 : standing it L l3 → di_Valid it = negb (bool_decide (L = [])).
Proof.
  intros (Hr & Hb & HL & Hl3 & _). unfold di_Valid, ValidForPrefix. rewrite Hr, Hb.
  destruct L as [|[k v] L]; simpl.
  - destruct l3 as [|[k v] l3]; [done|]. by apply Forall_cons in Hl3 as [? _].
  - by apply Forall_cons in HL as [? _].
Qed.

Lemma standing_setNode it k v L l3 :
  standing it ((k, v) :: L) l3 →
  ∃ kp it', keyPrefix (di_node it) ++ kp = k ∧ di_setNode it (Item (di_iter it)) = Ret it' ∧
    standing it' ((k, v) :: L) l3 ∧ di_current it' = kp ∧
    di_node it' = di_node it ∧ di_rootKeypath it' = di_rootKeypath it ∧ di_scanPrefix it' = di_scanPrefix it.
Proof.
  intros Hst. assert (Hst' := Hst). destruct Hst as (Hr & Hb & HL & Hl3 & Hp). unfold Item. rewrite Hb. simpl.
  apply Forall_cons in HL as [Hk _]. simpl in Hk.
  assert (∃ kp, k = keyPrefix (di_node it) ++ kp) as [kp ->].
  { apply has_prefix_spec in Hk as [q ->]. apply has_prefix_spec in Hp as [p' ->].
    exists (p' ++ q). by rewrite <- (assoc_L (++)). }
  exists kp. rewrite rmKeyPrefix_app. simpl. eexists. split; [done|]. split; [done|]. split; [|done].
  destruct Hst' as (? & ? & ? & ? & ?). by split_and!.
Qed.

(** [Next] moves to the following item. *)
Lemma standing_next it kv L l3 :
  standing it (kv :: L) l3 →
  ∃ it', di_Next it = Ret it' ∧ standing it' L l3 ∧
    (∀ k v, head L = Some (k, v) → keyPrefix (di_node it) ++ di_current it' = k) ∧
    di_node it' = di_node it ∧ di_rootKeypath it' = di_rootKeypath it ∧ di_scanPrefix it' = di_scanPrefix it.
Proof.
  intros (Hr & Hb & HL & Hl3 & Hp). apply Forall_cons in HL as [_ HL].
  unfold di_Next. rewrite Hr. cbn [obind].
  set (it1 := with_iter it (bi_Next (di_iter it)) None (di_current it)).
  assert (standing it1 L l3) as Hst by (unfold standing; simpl; rewrite Hb; done).
  rewrite (standing_valid it1 L l3 Hst). destruct L as [|[k v] L].
  - rewrite bool_decide_eq_true_2 by done. exists it1. by split_and!.
  - rewrite bool_decide_eq_false_2 by done. cbn [negb]. destruct (standing_setNode it1 k v L l3 Hst) as (kp & it2 & Hk & -> & Hst2 & Hc & Hn & Hrk & Hs).
    exists it2. split; [done|]. split; [done|]. split; [|by split_and!].
    intros k' v' [= <- <-]. by rewrite Hc.
Qed.

Lemma scan_children_loop_run {S} (fn : S → bytes → bytes → outcome S) fuel n it L l3 s :
  standing it L l3 → length L < fuel → scan_children_loop fn fuel n it NoEnd s = scan_items fn L s.
Proof.
  revert it L s. induction fuel as [|fuel IH]; intros it L s Hst Hf; [lia|]. cbn [scan_children_loop].
  rewrite (standing_valid it L l3 Hst). destruct L as [|[k v] L]; [done|]. rewrite bool_decide_eq_false_2 by done. cbn [negb].
  assert (Item (di_iter it) = Some (k, v)) as -> by (destruct Hst as (_ & Hb & _); unfold Item; by rewrite Hb).
  cbn [scan_stop obind scan_items]. destruct (fn s k v) as [s'| | |]; try done.
  destruct (standing_next it (k, v) L l3 Hst) as (it' & -> & Hst' & _). cbn [obind]. apply IH; [done|]. simpl in Hf. lia.
Qed.

(** ** The children of a node *)

(** The items strictly below a keypath, in key order. *)
Definition children_items (n : DBNode T) (p : Keypath) : list (bytes * bytes) :=
  filter (λ kv, has_prefix kv.1 (scan_prefix_of n p) = true ∧ kv.1 ≠ addKeyPrefix n p) (txn_items (db_tx n)).

Lemma scan_prefix_below (n : DBNode T) p k :
  has_prefix (addKeyPrefix n k) (scan_prefix_of n p) = true ∧ k ≠ p ↔ below p k ∧ k ≠ p.
Proof.
  unfold scan_prefix_of, addKeyPrefix, below. rewrite has_prefix_spec, StartsWith_bytes, length_app.
  destruct (decide (p = [])) as [->|Hp].
  - simpl. rewrite decide_False by lia. rewrite app_nil_r. split; [|intros [_ ?]; eauto]. intros [_ ?]. auto.
  - rewrite decide_True by (destruct p; simpl; [done|lia]). split.
    + intros [[q Hq] Hne]. split; [|done]. right; right. exists q.
      rewrite <- !(assoc_L (++)) in Hq. by apply (inj _) in Hq.
    + intros [[?|[?|[q ->]]] Hne]; [done..|]. split; [|done]. exists q. by rewrite <- !(assoc_L (++)).
Qed.

Lemma scan_prefix_has (n : DBNode T) p : has_prefix (scan_prefix_of n p) (keyPrefix n) = true.
Proof.
  unfold scan_prefix_of, addKeyPrefix. apply has_prefix_spec. case_decide; [|eauto].
  rewrite <- (assoc_L (++)). eauto.
Qed.

Lemma children_elem (n : DBNode T) p key v :
  (key, v) ∈ children_items n p ↔
  ∃ k, key = addKeyPrefix n k ∧ txn_get (db_tx n) key = Some v ∧ below p k ∧ k ≠ p.
Proof.
  unfold children_items. rewrite list_elem_of_filter, law_items. simpl. split.
  - intros [[Hp Hne] Hg]. assert (has_prefix key (keyPrefix n) = true) as [k ->]%has_prefix_spec.
    { apply has_prefix_spec in Hp as [q ->]. pose proof (scan_prefix_has n p) as [r Hr]%has_prefix_spec.
      rewrite Hr, <- (assoc_L (++)). apply has_prefix_app. }
    exists k. split; [done|]. split; [done|]. apply (scan_prefix_below n). split; [done|]. by intros ->.
  - intros (k & -> & Hg & Hb). apply (scan_prefix_below n) in Hb as [Hb Hne]. split; [|done].
    split; [done|]. unfold addKeyPrefix. by intros ->%(inj _).
Qed.

Lemma children_sorted (n : DBNode T) p : StronglySorted bytes_lt (children_items n p).*1.
Proof. apply filter_items_sorted, law_sorted. Qed.

(** The items with the scan prefix: the children, behind the root itself when the root is
    the root of the whole tree. *)
Lemma scan_run (n : DBNode T) p v :
  txn_get (db_tx n) (addKeyPrefix n p) = Some v →
  filter (λ kv, has_prefix kv.1 (scan_prefix_of n p) = true) (txn_items (db_tx n)) =
    (if decide (p = []) then [(addKeyPrefix n p, v)] else []) ++ children_items n p.
Proof.
  intros Hg. unfold children_items. case_decide as Hp.
  - subst p. pose proof (law_sorted (db_tx n)) as Hs. apply law_items in Hg.
    assert (scan_prefix_of n [] = addKeyPrefix n []) as ->.
    { unfold scan_prefix_of. rewrite decide_False; [done|]. unfold addKeyPrefix. rewrite app_nil_r. lia. }
    set (root := addKeyPrefix n []) in *. revert Hs Hg. generalize (txn_items (db_tx n)). intros l.
    induction l as [|[k w] l IH]; [set_solver|]. rewrite fmap_cons. intros [Hs Hk]%StronglySorted_inv Hin.
    rewrite Forall_forall in Hk. rewrite !filter_cons. simpl. destruct (decide (k = root)) as [->|Hne].
    + assert (has_prefix root root = true) as -> by (apply has_prefix_spec; exists []; by rewrite app_nil_r).
      rewrite decide_True by done. rewrite decide_False by tauto.
      assert (w = v) as ->.
      { apply elem_of_cons in Hin as [[= ->]|Hin]; [done|]. apply (list_elem_of_fmap_2 fst) in Hin.
        apply Hk in Hin. simpl in Hin. by apply bytes_lt_irrefl in Hin. }
      f_equal. apply filter_ext_in. intros [k' w'] Hin'. simpl. split; [|tauto]. intros ?. split; [done|].
      intros ->. apply (list_elem_of_fmap_2 fst) in Hin'. apply Hk in Hin'. by apply bytes_lt_irrefl in Hin'.
    + apply elem_of_cons in Hin as [[= ? ?]|Hin]; [done|].
      assert (has_prefix k root = false) as ->.
      { apply not_true_iff_false. intros Hpre%has_prefix_le. apply (list_elem_of_fmap_2 fst) in Hin.
        apply Hk in Hin. simpl in Hin. apply bytes_le_lt_eq in Hpre as [Hlt| ->]; [|done].
        eapply bytes_lt_irrefl. by etrans. }
      rewrite decide_False by done. rewrite decide_False by (by intros [? _]). by apply IH.
  - apply filter_ext_in. intros [k w] _. simpl. split; [|tauto]. intros Hpre. split; [done|]. intros ->.
    apply has_prefix_spec in Hpre as [q Hq]. unfold scan_prefix_of in Hq. revert Hq. case_decide as Hl.
    + intros Hq. apply (f_equal length) in Hq. rewrite !length_app in Hq. simpl in Hq. lia.
    + exfalso. unfold addKeyPrefix in Hl. rewrite length_app in Hl. destruct p; simpl in Hl; [done|lia].
Qed.

Lemma di_Rewind_root (n : DBNode T) rel v :
  let p := Push (rootKeypath n) rel in
  txn_get (db_tx n) (addKeyPrefix n p) = Some v →
  di_Rewind (db_Iterator n rel) =
    Ret (mkDbIterator n p (scan_prefix_of n p) (NewIterator (db_tx n) false) (Some (addKeyPrefix n p, v)) p).
Proof.
  intros p Hg. unfold di_Rewind. change (db_tx (di_node (db_Iterator n rel))) with (db_tx n).
  change (addKeyPrefix (di_node (db_Iterator n rel)) (di_rootKeypath (db_Iterator n rel))) with (addKeyPrefix n p).
  rewrite Hg. unfold di_setNode.
  change (di_node (with_iter _ _ _ _)) with n. rewrite rmKeyPrefix_add. done.
Qed.

(** Leaving the root item. *)
Lemma di_Next_root (n : DBNode T) p it2 v L l3 :
  it2 = mkDbIterator n p (scan_prefix_of n p) (Seek (NewIterator (db_tx n) false) (scan_prefix_of n p)) None p →
  standing it2 ((if decide (p = []) then [(addKeyPrefix n p, v)] else []) ++ L) l3 →
  ∃ it', di_Next (mkDbIterator n p (scan_prefix_of n p) (NewIterator (db_tx n) false) (Some (addKeyPrefix n p, v)) p) = Ret it' ∧
    standing it' L l3 ∧ (∀ k w, head L = Some (k, w) → keyPrefix n ++ di_current it' = k) ∧
    di_node it' = n ∧ di_rootKeypath it' = p ∧ di_scanPrefix it' = scan_prefix_of n p.
Proof.
  intros Hit Hst. unfold di_Next. cbn [di_scanPrefix di_iter di_rootItem di_current]. cbv zeta.
  change (with_iter (mkDbIterator n p (scan_prefix_of n p) (NewIterator (db_tx n) false) (Some (addKeyPrefix n p, v)) p)
    (Seek (NewIterator (db_tx n) false) (scan_prefix_of n p)) None p) with
    (mkDbIterator n p (scan_prefix_of n p) (Seek (NewIterator (db_tx n) false) (scan_prefix_of n p)) None p).
  rewrite <- Hit.
  assert (di_node it2 = n ∧ di_rootKeypath it2 = p ∧ di_scanPrefix it2 = scan_prefix_of n p) as (Hn & Hr & Hs) by (by subst).
  rewrite Hn, Hs.
  assert (rmKeyPrefix n (scan_prefix_of n p) = Ret (if decide (p = []) then [] else p ++ [sep])) as ->.
  { unfold scan_prefix_of, addKeyPrefix. rewrite length_app. case_decide as Hl; case_decide as Hp; subst; simpl in *; try lia.
    - apply rmKeyPrefix_app.
    - rewrite <- (assoc_L (++)). apply rmKeyPrefix_app.
    - destruct p; simpl in *; [done|lia]. }
  rewrite (standing_valid it2 _ l3 Hst). destruct (decide (p = [])) as [Hp|Hp]; simpl app in Hst |- *.
  - rewrite bool_decide_eq_false_2 by done. cbn [negb obind]. rewrite decide_True by done. cbn [obind].
    destruct (standing_next it2 _ L l3 Hst) as (it' & Hnext & Hst' & Hc & Hn' & Hr' & Hs').
    unfold di_Next in Hnext. assert (di_rootItem it2 = None) as Hri by (by subst). rewrite Hri in Hnext.
    cbn [obind] in Hnext. exists it'. rewrite Hnext. rewrite Hn in Hc. do 3 (split; [done|]). split_and!; congruence.
  - destruct L as [|[k w] L].
    + rewrite bool_decide_eq_true_2 by done. cbn [negb obind]. rewrite (standing_valid it2 _ l3 Hst).
      rewrite bool_decide_eq_true_2 by done. exists it2. by split_and!.
    + rewrite bool_decide_eq_false_2 by done. cbn [negb obind]. rewrite decide_False by (by destruct p).
      cbn [obind]. rewrite (standing_valid it2 _ l3 Hst). rewrite bool_decide_eq_false_2 by done. cbn [negb].
      destruct (standing_setNode it2 k w L l3 Hst) as (kp & it' & Hk & -> & Hst' & Hc & Hn' & Hr' & Hs').
      exists it'. split; [done|]. split; [done|]. rewrite Hn in *. split; [|split_and!; congruence].
      intros k' w' [= <- <-]. by rewrite Hc.
Qed.

Lemma skip_root_standing (n : DBNode T) rel v :
  let p := Push (rootKeypath n) rel in
  txn_get (db_tx n) (addKeyPrefix n p) = Some v →
  ∃ it l3, skip_root (db_Iterator n rel) = Ret it ∧ standing it (children_items n p) l3 ∧
    (∀ k w, head (children_items n p) = Some (k, w) → keyPrefix n ++ di_current it = k) ∧
    di_node it = n ∧ di_rootKeypath it = p ∧ di_scanPrefix it = scan_prefix_of n p.
Proof.
  intros p Hg. destruct (seek_prefix (scan_prefix_of n p) (txn_items (db_tx n)) (law_sorted _)) as (l3 & Hseek & Hl3).
  rewrite (scan_run n p v Hg) in Hseek. unfold skip_root. rewrite (di_Rewind_root n rel v Hg). cbn [obind]. fold p.
  destruct (di_Next_root n p _ v (children_items n p) l3 eq_refl) as (it' & Hn & Hst & Hrest); [|eauto].
  split; [done|]. split; [exact Hseek|]. split; [|split; [done|apply scan_prefix_has]].
  rewrite <- (scan_run n p v Hg). apply Forall_forall. by intros kv [? _]%list_elem_of_filter.
Qed.

(** A scan without range calls the callback on the children, in key order. *)
Lemma scan_children {S} (fn : S → bytes → bytes → outcome S) (n : DBNode T) nt rel len v s :
  txn_get (db_tx n) (addKeyPrefix n (Push (rootKeypath n) rel)) = Some v →
  nt = NodeTypeMap ∨ nt = NodeTypeSlice →
  scanChildrenForward fn n nt rel None len s = scan_items fn (children_items n (Push (rootKeypath n) rel)) s.
Proof.
  intros Hg Hnt. destruct (skip_root_standing n rel v Hg) as (it & l3 & Hsk & Hst & _).
  assert (length (children_items n (Push (rootKeypath n) rel)) < scan_fuel (db_tx n)) as Hf.
  { unfold scan_fuel, children_items. pose proof (length_filter
      (λ kv : bytes * bytes, has_prefix kv.1 (scan_prefix_of n (Push (rootKeypath n) rel)) = true ∧
         kv.1 ≠ addKeyPrefix n (Push (rootKeypath n) rel)) (txn_items (db_tx n))). lia. }
  unfold scanChildrenForward. destruct Hnt as [-> | ->]; rewrite Hsk; cbn [obind]; by apply (scan_children_loop_run fn _ n it _ l3).
Qed.
End Scans.

(** ** The abstract view *)

Section View.
Context {T : Type} `{BadgerLaws T}.

Definition db_get (n : DBNode T) (k : Keypath) : option bytes := txn_get (db_tx n) (addKeyPrefix n k).

Definition stored_shape (bs : bytes) : option (shape Empty_set) :=
  match decodeStored bs None with Ret v => Some (shape_of v) | _ => None end.

Definition db_shape (n : DBNode T) (k : Keypath) : option (shape Empty_set) := db_get n k ≫= stored_shape.

Definition container (sh : shape Empty_set) : Prop := sh = ShMap ∨ ∃ len, sh = ShSlice len.

Record db_wf (n : DBNode T) : Prop := {
  dw_prefix : keyPrefix n ≠ [];
  dw_good : ∀ k, is_Some (db_get n k) → good_path k;
  dw_stored : ∀ k bs, db_get n k = Some bs → is_Some (stored_shape bs);
  dw_parents : ∀ k p, is_Some (db_get n k) → good_path p → below p k → p ≠ k →
    ∃ sh, db_shape n p = Some sh ∧ container sh
}.

(** Nodes that differ in the transaction and the diff only. *)
Definition same_node (n n' : DBNode T) : Prop :=
  keyPrefix n' = keyPrefix n ∧ rootKeypath n' = rootKeypath n ∧ db_rng n' = db_rng n ∧ mutable n' = mutable n.

(** The keys of other versions and indices are as they were. *)
Definition others_same (n n' : DBNode T) : Prop :=
  ∀ key, has_prefix key (keyPrefix n) = false → txn_get (db_tx n') key = txn_get (db_tx n) key.

Lemma same_node_refl n : same_node n n.
Proof. done. Qed.
Lemma same_node_trans n1 n2 n3 : same_node n1 n2 → same_node n2 n3 → same_node n1 n3.
Proof. intros (? & ? & ? & ?) (? & ? & ? & ?). split_and!; congruence. Qed.
Lemma others_same_trans n1 n2 n3 :
  same_node n1 n2 → others_same n1 n2 → others_same n2 n3 → others_same n1 n3.
Proof. intros (Hk & _) H1 H2 key Hkey. rewrite H2 by (by rewrite Hk). by apply H1. Qed.

Lemma addKeyPrefix_same (n n' : DBNode T) k : same_node n n' → addKeyPrefix n' k = addKeyPrefix n k.
Proof. intros (Hk & _). unfold addKeyPrefix. by rewrite Hk. Qed.

Lemma addKeyPrefix_inj (n : DBNode T) k k' : addKeyPrefix n k = addKeyPrefix n k' → k = k'.
Proof. unfold addKeyPrefix. by intros ?%(inj _). Qed.

Lemma has_prefix_addKeyPrefix (n : DBNode T) k : has_prefix (addKeyPrefix n k) (keyPrefix n) = true.
Proof. apply has_prefix_app. Qed.

(** Equal contents under the prefix give equal shapes. *)
Lemma db_shape_ext n n' k : db_get n' k = db_get n k → db_shape n' k = db_shape n k.
Proof. unfold db_shape. by intros ->. Qed.

(** One change of one key: the new node, what it holds, and that nothing else moved. *)
Definition updates (n : DBNode T) (kp : Keypath) (o : option bytes) (n' : DBNode T) : Prop :=
  same_node n n' ∧ others_same n n' ∧ ∀ k, db_get n' k = if decide (k = kp) then o else db_get n k.

Lemma db_put_updates n kp v :
  keyPrefix n ≠ [] → ∃ n', db_put n (addKeyPrefix n kp) v = Ret n' ∧ updates n kp (Some v) n'.
Proof.
  intros Hp. unfold db_put.
  assert (addKeyPrefix n kp ≠ []) as Hne by (unfold addKeyPrefix; by destruct (keyPrefix n)).
  destruct (law_set (db_tx n) _ v Hne) as (t & -> & Ht). simpl. eexists. split; [done|].
  split; [done|]. split.
  - intros key Hkey. simpl. rewrite Ht, decide_False; [done|]. intros ->. by rewrite has_prefix_addKeyPrefix in Hkey.
  - intros k. unfold db_get. simpl. unfold addKeyPrefix at 1. simpl. fold (addKeyPrefix n k). rewrite Ht.
    destruct (decide (k = kp)) as [->|Hk]; [by rewrite decide_True|].
    rewrite decide_False; [done|]. by intros ?%addKeyPrefix_inj.
Qed.

Lemma updates_diff n kp o n' d : updates n kp o n' → updates n kp o (with_db_diff n' d).
Proof. done. Qed.

Lemma txn_delete_updates n kp :
  keyPrefix n ≠ [] →
  ∃ t, txn_delete (db_tx n) (addKeyPrefix n kp) = Ret t ∧ updates n kp None (with_tx n t).
Proof.
  intros Hp. assert (addKeyPrefix n kp ≠ []) as Hne by (unfold addKeyPrefix; by destruct (keyPrefix n)).
  destruct (law_delete (db_tx n) _ Hne) as (t & -> & Ht). exists t. split; [done|]. split; [done|]. split.
  - intros key Hkey. simpl. rewrite Ht, decide_False; [done|]. intros ->. by rewrite has_prefix_addKeyPrefix in Hkey.
  - intros k. unfold db_get. simpl. unfold addKeyPrefix at 1. simpl. fold (addKeyPrefix n k). rewrite Ht.
    destruct (decide (k = kp)) as [->|Hk]; [by rewrite decide_True|].
    rewrite decide_False; [done|]. by intros ?%addKeyPrefix_inj.
Qed.

Lemma db_remove_updates n kp :
  keyPrefix n ≠ [] → ∃ n', db_remove n (addKeyPrefix n kp) = Ret n' ∧ updates n kp None n'.
Proof.
  intros Hp. unfold db_remove. destruct (txn_delete_updates n kp Hp) as (t & -> & Hu). cbn [obind].
  change (addKeyPrefix n kp) with (addKeyPrefix (with_tx n t) kp). rewrite rmKeyPrefix_add. cbn [obind].
  eexists. split; [done|]. by apply updates_diff.
Qed.

(** Removing a list of keys, the scan of [Delete]. *)
Lemma scan_remove (items : list (bytes * bytes)) n :
  keyPrefix n ≠ [] → (∀ key v, (key, v) ∈ items → ∃ k, key = addKeyPrefix n k) →
  ∃ n', scan_items (λ n k _, db_remove n (Copy k)) items n = Ret (n', None) ∧ same_node n n' ∧ others_same n n' ∧
    ∀ k, db_get n' k = if decide (addKeyPrefix n k ∈ items.*1) then None else db_get n k.
Proof.
  revert n. induction items as [|[key v] items IH]; intros n Hp Hitems.
  { exists n. split_and!; done. }
  destruct (Hitems key v) as [kp ->]; [set_solver|]. cbn [scan_items]. rewrite Copy_id.
  destruct (db_remove_updates n kp Hp) as (n1 & -> & Hs1 & Ho1 & Hg1).
  destruct (IH n1) as (n' & Hscan & Hs & Ho & Hg).
  { by rewrite (proj1 Hs1). }
  { intros key' v' Hin. destruct (Hitems key' v') as [k Hk]; [set_solver|]. exists k.
    by rewrite (addKeyPrefix_same n n1 k Hs1). }
  exists n'. split; [done|]. split; [by eapply same_node_trans|]. split; [by eapply others_same_trans|].
  intros k. rewrite Hg, Hg1, (addKeyPrefix_same n n1 k Hs1), fmap_cons. simpl.
  destruct (decide (addKeyPrefix n k ∈ items.*1)) as [Hin|Hin]; [by rewrite decide_True by set_solver|].
  destruct (decide (k = kp)) as [->|Hne]; [by rewrite decide_True by set_solver|].
  rewrite decide_False; [done|]. rewrite elem_of_cons. intros [?%addKeyPrefix_inj|?]; done.
Qed.

(** The node type and length of a stored item. *)
Lemma stored_shape_decode bs sh :
  stored_shape bs = Some sh →
  ∃ d, decodeNode bs = Ret d ∧
    match sh with
    | ShMap => dn_nodeType d = NodeTypeMap
    | ShSlice l => dn_nodeType d = NodeTypeSlice ∧ Z.to_nat (dn_length d) = l
    | ShScalar s => dn_nodeType d = NodeTypeValue ∧
        decodeGoValue (dn_nodeType d) (dn_valueType d) (dn_length d) None (dn_data d) = Ret (GScalar s)
    | ShNode _ => False
    end.
Proof.
  unfold stored_shape, decodeStored. destruct (decodeNode bs) as [d| | |]; try done. simpl. intros Hsh.
  exists d. split; [done|]. destruct d as [nt vt len data]. simpl in *.
  destruct nt; simpl in *; try done.
  - destruct (decodeGoValue NodeTypeValue vt len None data) as [v| | |] eqn:E;
      simpl in E; rewrite E in Hsh; try done. simplify_eq/=.
    destruct vt; simpl in E; try done;
      try (destruct data; [done|]; simplify_eq/=; done);
      try (destruct (DecodeSliceLen data); simplify_eq/=; done);
      try (destruct (read8 data); simplify_eq/=; done); simplify_eq/=; done.
  - by simplify_eq/=.
  - simplify_eq/=. by rewrite length_replicate.
Qed.

(** ** [Delete] *)

Lemma delete_subtree_spec n rel :
  db_wf n → good_path (Push (rootKeypath n) rel) →
  ∃ n', delete_subtree n rel = Ret n' ∧ same_node n n' ∧ others_same n n' ∧
    ∀ k, db_get n' k = if decide (below (Push (rootKeypath n) rel) k) then None else db_get n k.
Proof.
  intros Hwf Hgp. set (p := Push (rootKeypath n) rel) in *. unfold delete_subtree. fold p.
  change (txn_get (db_tx n) (addKeyPrefix n p)) with (db_get n p).
  pose proof (dw_prefix n Hwf) as Hpre.
  assert (∀ k, below p k → k ≠ p → is_Some (db_get n k) → ∃ sh, db_shape n p = Some sh ∧ container sh) as Hpar.
  { intros k Hb Hne Hk. eapply dw_parents; eauto. }
  destruct (db_get n p) as [bs|] eqn:Hg.
  - destruct (dw_stored n Hwf p bs Hg) as [sh Hsh].
    destruct (stored_shape_decode bs sh Hsh) as (d & -> & Hd). cbn [obind].
    assert (db_shape n p = Some sh) as Hps by (unfold db_shape; by rewrite Hg).
    case_decide as Hv.
    + rewrite rmKeyPrefix_add. cbn [obind].
      set (n1 := with_db_diff n _). change (addKeyPrefix n p) with (addKeyPrefix n1 p).
      destruct (txn_delete_updates n1 p) as (t & -> & Hs & Ho & Hk); [done|]. cbn [obind].
      eexists. split; [done|]. split; [done|]. split; [done|]. intros k. rewrite Hk.
      destruct (decide (k = p)) as [->|Hne]; [by rewrite decide_True by apply StartsWith_refl|].
      case_decide as Hb; [|done]. change (db_get n1 k) with (db_get n k).
      destruct (db_get n k) eqn:Hgk; [|done]. exfalso.
      destruct (Hpar k Hb Hne) as (sh' & Hsh' & Hc); [by rewrite Hgk|]. rewrite Hps in Hsh'. simplify_eq.
      destruct sh'; destruct_and?; destruct Hc as [Hc|[? Hc]]; (done || congruence).
    + assert (dn_nodeType d = NodeTypeMap ∨ dn_nodeType d = NodeTypeSlice) as Hnt by (destruct sh; naive_solver).
      rewrite (scan_children _ n _ rel _ bs) by done. fold p.
      destruct (scan_remove (children_items n p) n Hpre) as (n1 & -> & Hs1 & Ho1 & Hg1).
      { intros key v (k & -> & _)%children_elem. eauto. }
      cbn [obind fst]. rewrite <- (addKeyPrefix_same n n1 p Hs1).
      destruct (db_remove_updates n1 p) as (n2 & -> & Hs2 & Ho2 & Hg2); [by rewrite (proj1 Hs1)|].
      exists n2. split; [done|]. split; [by eapply same_node_trans|]. split; [by eapply others_same_trans|].
      intros k. rewrite Hg2, Hg1. destruct (decide (k = p)) as [->|Hne]; [by rewrite decide_True by apply StartsWith_refl|].
      destruct (decide (addKeyPrefix n k ∈ (children_items n p).*1)) as [Hin|Hin].
      * apply list_elem_of_fmap in Hin as ([key v] & Heq & (k' & Hk' & _ & Hb & _)%children_elem). simpl in Heq. subst key.
        apply addKeyPrefix_inj in Hk' as ->. by rewrite decide_True.
      * case_decide as Hb; [|done]. destruct (db_get n k) as [v|] eqn:Hgk; [|done]. destruct Hin.
        apply list_elem_of_fmap. exists (addKeyPrefix n k, v). split; [done|]. apply children_elem. eauto.
  - exists n. split; [done|]. split; [done|]. split; [done|]. intros k. case_decide as Hb; [|done].
    destruct (decide (k = p)) as [->|Hne]; [done|]. destruct (db_get n k) eqn:Hgk; [|done].
    destruct (Hpar k Hb Hne) as (sh' & Hsh' & _); [by rewrite Hgk|].
    unfold db_shape in Hsh'. by rewrite Hg in Hsh'.
Qed.
End View.

(** ** Values with 64-bit integers *)

(** The value as it is stored: integers widened to 64 bits. *)
Fixpoint widen_val (v : plain) : plain :=
  match v with
  | GScalar s => GScalar (widen s)
  | GMap m => GMap (map (λ kv, (kv.1, widen_val kv.2)) m)
  | GSlice l => GSlice (map widen_val l)
  | GNode n => GNode n
  end.

Lemma child_widen v p : child (widen_val v) p = widen_val <$> child v p.
Proof.
  destruct v as [s|m|l|[]]; simpl; [done| |].
  - induction m as [|[k x] m IH]; simpl; [done|]. by case_decide.
  - destruct (index_of p) as [i|]; simpl; [|done]. change (map widen_val l) with (widen_val <$> l).
    apply list_lookup_fmap.
Qed.

Lemma lookup_widen v ps : lookup_parts (widen_val v) ps = widen_val <$> lookup_parts v ps.
Proof.
  revert v. induction ps as [|p ps IH]; intros v; simpl; [done|]. rewrite child_widen.
  destruct (child v p); simpl; auto.
Qed.

(** Every part of the value fits the machine types. *)
Definition machine_ok (v : plain) : Prop := ∀ ps w, lookup_parts v ps = Some w → machine_fits w.

Lemma machine_ok_scalar s : scalar_wf s → machine_ok (GScalar s).
Proof. intros Hs [|p ps] w; simpl; [by intros [= <-]|done]. Qed.

(** What a value's top becomes when it is stored. *)
Lemma encode_shape (w : plain) :
  machine_fits w → ∃ b, encodeGoValue w = Ret b ∧ stored_shape b = Some (shape_of (widen_val w)).
Proof.
  intros Hw. destruct (encode_decode w Hw) as (b & Hb & Hd). exists b. split; [done|].
  unfold stored_shape. rewrite Hd. f_equal. destruct w as [s|m|l|[]]; simpl; [done..|].
  by rewrite length_replicate, length_map.
Qed.

Section SetFacts.
Context {T : Type} `{BadgerLaws T}.

(** The subtree at [p] is the value. *)
Definition db_represents (n : DBNode T) (p : Keypath) (v : plain) : Prop :=
  ∀ r, db_shape n (Push p r) = shape_at (widen_val v) (path_parts r).

Lemma encode_map_1 : ∃ b, encodeNode NodeTypeMap ValueTypeInvalid 1 SNil = Ret b ∧ stored_shape b = Some ShMap.
Proof. eexists. split; [done|]. vm_compute. done. Qed.

(** The loop over the ancestors. *)
Lemma ensure_ancestors p (idx : list nat) (n : DBNode T) :
  keyPrefix n ≠ [] → good_path p → (∀ i, i ∈ idx → i < length (path_parts p)) →
  ∃ n', fold_outcome (ensure_ancestor p) n idx = Ret n' ∧ same_node n n' ∧ others_same n n' ∧
    ∀ k, match db_get n k with
         | Some bs => db_get n' k = Some bs
         | None => if decide (k ∈ (λ i, join_sep (take i (path_parts p))) <$> idx)
                   then ∃ b, db_get n' k = Some b ∧ stored_shape b = Some ShMap
                   else db_get n' k = None
         end.
Proof.
  revert n. induction idx as [|i idx IH]; intros n Hpre Hp His.
  { exists n. split; [done|]. split; [done|]. split; [done|]. intros k. by destruct (db_get n k). }
  assert (p ≠ []) as Hne by (intros ->; specialize (His i ltac:(set_solver)); simpl in His; lia).
  assert (ensure_ancestor p n i =
    match db_get n (join_sep (take i (path_parts p))) with
    | None => let! encoded := encodeNode NodeTypeMap ValueTypeInvalid 1 SNil in
              db_put n (addKeyPrefix n (join_sep (take i (path_parts p)))) encoded
    | Some _ => Ret n
    end) as Hens.
  { unfold ensure_ancestor. rewrite FirstNParts_lt.
    - rewrite Nat2Z.id, path_parts_cons by done. done.
    - rewrite <- path_parts_cons by done. specialize (His i ltac:(set_solver)). lia. }
  set (q := join_sep (take i (path_parts p))) in *.
  assert (∃ n1, ensure_ancestor p n i = Ret n1 ∧ same_node n n1 ∧ others_same n n1 ∧
    ∀ k, (db_get n1 k = db_get n k ∧ (k = q → is_Some (db_get n k))) ∨
         (k = q ∧ db_get n k = None ∧ ∃ b, db_get n1 k = Some b ∧ stored_shape b = Some ShMap)) as (n1 & Hn1 & Hs1 & Ho1 & Hg1).
  { rewrite Hens. destruct (db_get n q) as [bs|] eqn:Hq.
    - exists n. split_and!; try done. intros k. left. split; [done|]. intros ->. eauto.
    - destruct encode_map_1 as (b & -> & Hb). cbn [obind].
      destruct (db_put_updates n q b Hpre) as (n1 & -> & Hs & Ho & Hg). exists n1. split_and!; [done..|].
      intros k. rewrite Hg. case_decide as Hk; [|left; by split]. subst k. right. eauto. }
  cbn [fold_outcome]. rewrite Hn1. cbn [obind].
  destruct (IH n1) as (n' & Hf & Hs & Ho & Hk).
  { by rewrite (proj1 Hs1). } { done. } { intros j Hj. apply His. set_solver. }
  exists n'. split; [done|]. split; [by eapply same_node_trans|]. split; [by eapply others_same_trans|].
  intros k. specialize (Hk k). rewrite fmap_cons. fold q.
  destruct (Hg1 k) as [[Heq Himp]|(-> & Hnone & b & Hb & Hbs)].
  - rewrite Heq in Hk. destruct (db_get n k) as [bs|]; [done|].
    assert (k ≠ q) by (intros ->; by destruct (Himp eq_refl)).
    destruct (decide (k ∈ _ <$> idx)); [by rewrite decide_True by set_solver|by rewrite decide_False by set_solver].
  - rewrite Hb in Hk. rewrite Hnone, decide_True by set_solver. eauto.
Qed.

(** The walk that stores the value. *)
Lemma put_positions p (vs : list (Keypath * plain)) (n : DBNode T) :
  keyPrefix n ≠ [] → NoDup vs.*1 → (∀ kp w, (kp, w) ∈ vs → machine_fits w) →
  ∃ n', fold_outcome (λ n kv, put_step p n kv.1 kv.2) n vs = Ret n' ∧ same_node n n' ∧ others_same n n' ∧
    (∀ kp w, (kp, w) ∈ vs → db_shape n' (Push p kp) = Some (shape_of (widen_val w))) ∧
    (∀ k, k ∉ Push p <$> vs.*1 → db_get n' k = db_get n k).
Proof.
  revert n. induction vs as [|[kp w] vs IH]; intros n Hpre Hnd Hm.
  { exists n. split_and!; try done. set_solver. }
  rewrite fmap_cons in Hnd. apply NoDup_cons in Hnd as [Hkp Hnd]. cbn [fold_outcome fst snd] in *.
  assert (∃ n1, put_step p n kp w = Ret n1 ∧ same_node n n1 ∧ others_same n n1 ∧
    db_shape n1 (Push p kp) = Some (shape_of (widen_val w)) ∧
    ∀ k, k ≠ Push p kp → db_get n1 k = db_get n k) as (n1 & -> & Hs1 & Ho1 & Hsh1 & Hg1).
  { destruct (encode_shape w) as (b & Hb & Hsb); [apply (Hm kp); set_solver|].
    unfold put_step. assert ((if decide (length kp ≠ 0) then Push p kp else p) = Push p kp) as ->.
    { case_decide; [done|]. assert (kp = []) as -> by (destruct kp; simpl in *; [done|lia]). by rewrite Push_nil_r. }
    set (n0 := with_db_diff n _). change (addKeyPrefix n (Push p kp)) with (addKeyPrefix n0 (Push p kp)).
    destruct (db_put_updates n0 (Push p kp) b) as (n1 & Hput & Hs & Ho & Hg); [done|].
    exists n1. split; [destruct w as [| | |[]]; rewrite Hb; cbn [obind]; exact Hput|].
    split; [done|]. split; [done|]. split.
    - unfold db_shape. by rewrite Hg, decide_True.
    - intros k Hk. by rewrite Hg, decide_False. }
  cbn [obind]. destruct (IH n1) as (n' & -> & Hs & Ho & Hsh & Hg);
    [by rewrite (proj1 Hs1)|done|intros; apply (Hm kp0); set_solver|].
  exists n'. split; [done|]. split; [by eapply same_node_trans|]. split; [by eapply others_same_trans|]. split.
  - intros k x [[= -> ->]|Hin]%elem_of_cons; [|by apply Hsh]. rewrite <- Hsh1. apply db_shape_ext, Hg.
    intros (y & Heq%Push_inj & Hy)%list_elem_of_fmap. by subst.
  - rewrite fmap_cons. intros k [Hk1 Hk2]%not_elem_of_cons. by rewrite Hg, Hg1.
Qed.

(** The contents after [Set]: the value at and below [p], maps for missing ancestors, and
    what was there everywhere else. *)
Record db_set_result (n : DBNode T) (p : Keypath) (v : plain) (n' : DBNode T) : Prop := {
  dr_same : same_node n n';
  dr_others : others_same n n';
  dr_value : ∀ r w, lookup_path v r = Some w → db_shape n' (Push p r) = Some (shape_of (widen_val w));
  dr_below : ∀ k, below p k → (∀ r w, lookup_path v r = Some w → Push p r ≠ k) → db_get n' k = None;
  dr_else : ∀ k, ¬ below p k →
    match db_get n k with
    | Some bs => db_get n' k = Some bs
    | None => if decide (k ∈ ancestors p)
              then ∃ b, db_get n' k = Some b ∧ stored_shape b = Some ShMap
              else db_get n' k = None
    end
}.

Lemma setNoRange_result (n : DBNode T) rel v :
  let p := Push (rootKeypath n) rel in
  db_wf n → good_path p → addressable v → machine_ok v →
  ∃ n', setNoRange n p v = Ret n' ∧ db_set_result n p v n'.
Proof.
  intros p Hwf Hp Hv Hm. unfold setNoRange.
  assert (good_path rel) as Hgr by (by apply good_path_Push in Hp as [_ ?]).
  assert (RelativeTo p (rootKeypath n) = Ret rel) as -> by (by apply RelativeTo_Push, good_path_head). cbn [obind].
  destruct (delete_subtree_spec n rel Hwf Hp) as (n1 & -> & Hs1 & Ho1 & Hg1). fold p in Hg1. cbn [obind].
  assert (NumParts p = length (path_parts p)) as ->.
  { destruct (decide (p = [])) as [->|Hne]; [done|]. rewrite path_parts_cons by done. by apply NumParts_length. }
  destruct (ensure_ancestors p (seq 0 (length (path_parts p))) n1) as (n2 & -> & Hs2 & Ho2 & Hg2).
  { rewrite (proj1 Hs1). apply Hwf. } { done. } { intros i Hi%elem_of_seq. lia. }
  cbn [obind]. destruct (walkGoValue_positions v Hv) as (vs & Hnd & Hvs & ->).
  destruct (put_positions p vs n2) as (n3 & -> & Hs3 & Ho3 & Hsh3 & Hg3).
  { rewrite (proj1 Hs2), (proj1 Hs1). apply Hwf. } { done. } { intros kp w Hin%Hvs. by eapply Hm. }
  exists n3. split; [done|].
  assert (∀ k, k ∈ Push p <$> vs.*1 ↔ ∃ r w, lookup_path v r = Some w ∧ Push p r = k) as Hin.
  { intros k. rewrite list_elem_of_fmap. split.
    - intros (r & -> & ([r' w] & -> & Hw%Hvs)%list_elem_of_fmap). eauto.
    - intros (r & w & Hw%Hvs & <-). exists r. split; [done|]. by apply (list_elem_of_fmap_2 fst) in Hw. }
  split.
  - eapply same_node_trans; [exact Hs1|]. by eapply same_node_trans.
  - eapply others_same_trans; [exact Hs1|done|]. by eapply others_same_trans.
  - intros r w Hw. apply Hsh3. by apply Hvs.
  - intros k Hb Hno. rewrite Hg3 by (rewrite Hin; intros (r & w & Hw & Heq); by eapply Hno).
    specialize (Hg2 k). rewrite Hg1, decide_True in Hg2 by done. rewrite decide_False in Hg2; [done|].
    fold (ancestors p). by intros Ha%ancestor_not_below.
  - intros k Hb. rewrite Hg3 by (rewrite Hin; intros (r & w & Hw & <-); apply Hb, StartsWith_Push).
    specialize (Hg2 k). by rewrite Hg1, decide_False in Hg2 by done.
Qed.

Section Result.
Context (n n' : DBNode T) (p : Keypath) (v : plain).
Context (Hwf : db_wf n) (Hp : good_path p) (Hv : addressable v).
Context (Hanc : ∀ q sh, q ∈ ancestors p → db_shape n q = Some sh → container sh).
Context (Hr : db_set_result n p v n').

(** A keypath that holds something afterwards is a position of the value, an ancestor, or
    was there before. *)
Lemma db_set_inv k :
  is_Some (db_get n' k) →
  (∃ r w, k = Push p r ∧ lookup_path v r = Some w) ∨ (¬ below p k ∧ (k ∈ ancestors p ∨ is_Some (db_get n k))).
Proof using Hr Hv.
  intros Hk. destruct (decide (below p k)) as [Hb|Hb].
  - left. set (r := match RelativeTo k p with Ret r => r | _ => [] end).
    assert (∀ r' w, lookup_path v r' = Some w → Push p r' = k → r' = r) as Huniq.
    { intros r' w Hw Heq. unfold r. rewrite <- Heq, RelativeTo_Push; [done|]. apply good_path_head.
      by apply (lookup_parts_good v w). }
    destruct (lookup_path v r) as [w|] eqn:Hw; [|exfalso].
    + destruct (decide (Push p r = k)) as [Heq|Hne]; [exists r, w; by split|exfalso].
      destruct Hk as [b Hk]. rewrite (dr_below _ _ _ _ Hr k Hb) in Hk; [done|].
      intros r' w' Hw' Heq. by rewrite (Huniq r' w' Hw' Heq) in Heq.
    + destruct Hk as [b Hk]. rewrite (dr_below _ _ _ _ Hr k Hb) in Hk; [done|].
      intros r' w' Hw' Heq. rewrite (Huniq r' w' Hw' Heq) in Hw'. congruence.
  - right. split; [done|]. pose proof (dr_else _ _ _ _ Hr k Hb) as He. destruct (db_get n k); [eauto|].
    case_decide; [by left|]. rewrite He in Hk. by destruct Hk.
Qed.

Lemma db_set_ancestor q :
  q ∈ ancestors p → ∃ sh, db_shape n' q = Some sh ∧ container sh.
Proof using Hwf Hp Hanc Hr.
  intros Hq. pose proof (dr_else _ _ _ _ Hr q (ancestor_not_below p Hp q Hq)) as He.
  destruct (db_get n q) as [bs|] eqn:Hg.
  - destruct (dw_stored n Hwf q bs Hg) as [sh Hsh]. exists sh. split; [unfold db_shape; by rewrite He|].
    apply (Hanc q); [done|]. unfold db_shape. by rewrite Hg.
  - rewrite decide_True in He by done. destruct He as (b & Hb & Hsh). exists ShMap.
    split; [unfold db_shape; by rewrite Hb|by left].
Qed.

(** What has a child is a container. *)
Lemma lookup_container (x : plain) ps q w :
  lookup_parts x (ps ++ [q]) = Some w → ∃ d, lookup_parts x ps = Some d ∧ container (shape_of (widen_val d)).
Proof.
  rewrite lookup_parts_app. destruct (lookup_parts x ps) as [d|]; [|done]. simpl. intros Hw. exists d.
  split; [done|]. destruct d as [s|m|l|[]]; simpl in *; [done|by left|right; eauto].
Qed.

Lemma db_set_wf : db_wf n'.
Proof using Hwf Hp Hv Hanc Hr.
  split.
  - rewrite (proj1 (dr_same _ _ _ _ Hr)). apply Hwf.
  - intros k [(r & w & -> & Hw)|[_ [Ha|Hk]]]%db_set_inv.
    + apply good_path_Push. split; [done|]. by apply (lookup_parts_good v w).
    + by apply elem_of_ancestors in Ha as [? _].
    + by apply (dw_good n Hwf).
  - intros k bs Hk. destruct (db_set_inv k) as [(r & w & -> & Hw)|[Hb _]]; [eauto|..].
    + pose proof (dr_value _ _ _ _ Hr r w Hw) as Hsh. unfold db_shape in Hsh. rewrite Hk in Hsh. simpl in Hsh. eauto.
    + pose proof (dr_else _ _ _ _ Hr k Hb) as He. destruct (db_get n k) as [bs'|] eqn:Hg.
      * rewrite He in Hk. simplify_eq. by apply (dw_stored n Hwf k).
      * case_decide; [|congruence]. destruct He as (b & Hb' & Hsh). rewrite Hb' in Hk. simplify_eq. eauto.
  - intros k q Hk Hq Hqk Hne. destruct (decide (q ∈ ancestors p)) as [Ha|Ha]; [by apply db_set_ancestor|].
    destruct (db_set_inv k Hk) as [(r & w & -> & Hw)|[Hb Hor]].
    + destruct (decide (below p q)) as [Hqp|Hqp].
      * apply StartsWith_Push_iff in Hqp as (r' & Hr' & ->); [|done].
        unfold below in Hqk. rewrite StartsWith_prefix, !path_parts_Push in Hqk. apply prefix_app_inv in Hqk as [rest Hrest].
        destruct rest as [|x rest].
        { exfalso. apply Hne. f_equal. apply path_parts_inj. by rewrite Hrest, app_nil_r. }
        unfold lookup_path in Hw. rewrite Hrest in Hw.
        replace (path_parts r' ++ x :: rest) with ((path_parts r' ++ [x]) ++ rest) in Hw by (by rewrite <- (assoc_L (++))).
        rewrite lookup_parts_app in Hw. destruct (lookup_parts v (path_parts r' ++ [x])) as [y|] eqn:Hy; [|done].
        destruct (lookup_container v _ _ _ Hy) as (d & Hd & Hc). exists (shape_of (widen_val d)).
        split; [by apply (dr_value _ _ _ _ Hr)|done].
      * exfalso. apply Ha. apply elem_of_ancestors; [done|]. split; [done|].
        assert (q ≠ p) by (intros ->; by apply Hqp, StartsWith_refl). split; [|done].
        pose proof (StartsWith_Push p r) as Hpr. unfold below in *. rewrite StartsWith_prefix in *.
        by destruct (prefix_weak_total _ _ _ Hqk Hpr).
    + assert (¬ below p q) as Hqp by (intros Hx; apply Hb; unfold below in *; by eapply StartsWith_trans).
      destruct Hor as [Hka|Hkn].
      * exfalso. apply Ha. apply elem_of_ancestors in Hka as (_ & Hka & _); [|done].
        apply elem_of_ancestors; [done|]. split; [done|]. split; [unfold below in *; by eapply StartsWith_trans|].
        intros ->. by apply Hqp, StartsWith_refl.
      * destruct (dw_parents n Hwf k q Hkn Hq Hqk Hne) as (sh & Hsh & Hc). exists sh. split; [|done].
        unfold db_shape in *. pose proof (dr_else _ _ _ _ Hr q Hqp) as He. destruct (db_get n q); [|done]. by rewrite He.
Qed.

Lemma db_set_represents : db_represents n' p v.
Proof using Hr Hv.
  intros r. unfold shape_at. rewrite lookup_widen. destruct (lookup_parts v (path_parts r)) as [w|] eqn:Hw; simpl.
  - by apply (dr_value _ _ _ _ Hr).
  - unfold db_shape. rewrite (dr_below _ _ _ _ Hr); [done|apply StartsWith_Push|].
    intros r' w Hw' ->%Push_inj. unfold lookup_path in Hw'. congruence.
Qed.
End Result.
End SetFacts.
