(* ===== verification/DBClaims.v ===== *)
(** * The contract of the database tree

    Reading a value back, and the theorems about [Set], [Value] and [Delete] of [DBNode] on
    any transaction that keeps badger's promises. *)

From S2P Require Import Prelude Types Keypath TreeTypes GoValue GoPaths Assemble NodeCodec MemoryNode MemoryProps.
From S2P Require Import MemoryIter BadgerTxn DBNode DBProps.

(** ** Reading *)

Lemma bytes_lt_app a x y : bytes_lt (a ++ x) (a ++ y) ↔ bytes_lt x y.
Proof.
  induction a as [|c a IH]; [done|]. rewrite <- IH. unfold bytes_lt. simpl. by rewrite N.compare_refl.
Qed.

Lemma RelativeTo_app_l a k p : RelativeTo (a ++ k) (a ++ p) = RelativeTo k p.
Proof.
  unfold RelativeTo, slice. rewrite !length_app.
  replace (Z.to_nat (Z.of_nat (length a + length k) - Z.of_nat (length a + length p)))
    with (Z.to_nat (Z.of_nat (length k) - Z.of_nat (length p))) by lia.
  rewrite !Nat2Z.id, drop_app_add. repeat case_decide; (done || lia).
Qed.

(** The last part of a keypath. *)
Lemma Pop_key k p : p ≠ [] → no_sep p → (Pop (Push k p)).2 = p.
Proof.
  intros Hp Hs. unfold Push, Pop. destruct (decide (length k = 0)) as [Hk|Hk].
  - destruct (last_index_byte sep p) as [i|] eqn:E; [|done].
    apply last_index_byte_Some in E as (x & y & -> & _). unfold no_sep in Hs. set_solver.
  - rewrite decide_False by (by destruct p). by rewrite last_index_byte_app, take_app_length, drop_app_S.
Qed.

(** What a stored shape decodes to: the value with its children left out. *)
Lemma decodeStored_hollow b (w : plain) :
  stored_shape b = Some (shape_of w) → decodeStored b None = Ret (hollow w).
Proof.
  intros Hs. destruct (stored_shape_decode b _ Hs) as (d & Hd & Hsh). unfold decodeStored. rewrite Hd. cbn [obind].
  destruct d as [nt vt len data]. destruct w as [s|m|l|[]]; simpl in *.
  - by destruct Hsh as [_ ->].
  - by rewrite Hsh.
  - destruct Hsh as [-> <-]. done.
Qed.

Section Read.
Context {T : Type} `{HL : BadgerLaws T}.
Context (n : DBNode T) (p : Keypath) (v : plain).
Context (Hwf : db_wf n) (Hp : good_path p) (Hrep : db_represents n p v) (Hv : addressable v).

(** The keypaths of the children, in the order of the scan. *)
Definition child_keypaths : list Keypath := (λ kv, drop (length (keyPrefix n)) kv.1) <$> children_items n p.

Lemma children_prefixed : (addKeyPrefix n) <$> child_keypaths = (children_items n p).*1.
Proof.
  unfold child_keypaths. rewrite <- list_fmap_compose. apply list_fmap_ext. intros i [key x] Hi.
  apply list_elem_of_lookup_2, children_elem in Hi as (k & -> & _). simpl. unfold addKeyPrefix.
  by rewrite drop_app_length.
Qed.

Lemma child_keypaths_elem k :
  k ∈ child_keypaths ↔ is_Some (db_get n k) ∧ below p k ∧ k ≠ p.
Proof.
  unfold child_keypaths. rewrite list_elem_of_fmap. split.
  - intros ([key x] & -> & (k' & -> & Hg & Hb)%children_elem). simpl. unfold addKeyPrefix. rewrite drop_app_length.
    split; [by exists x|done].
  - intros ([x Hg] & Hb). exists (addKeyPrefix n k, x). simpl. unfold addKeyPrefix at 1. rewrite drop_app_length.
    split; [done|]. apply children_elem. eauto.
Qed.

Lemma child_keypaths_sorted : StronglySorted bytes_lt (p :: child_keypaths).
Proof.
  constructor.
  - pose proof (children_sorted n p) as Hs. rewrite <- children_prefixed in Hs. revert Hs.
    induction child_keypaths as [|k l IH]; [constructor|]. rewrite fmap_cons. intros [Hs Hk]%StronglySorted_inv.
    constructor; [by apply IH|]. rewrite Forall_fmap in Hk. eapply Forall_impl; [exact Hk|].
    intros k'. simpl. unfold addKeyPrefix. apply bytes_lt_app.
  - apply Forall_forall. intros k (_ & Hb & Hne)%child_keypaths_elem.
    apply StartsWith_le, bytes_le_lt_eq in Hb as [?|?]; done.
Qed.

(** The root and its children are the positions of the value. *)
Lemma db_run_positions k :
  k ∈ p :: child_keypaths ↔
  ∃ ps, Forall good_key ps ∧ k = Push p (join_sep ps) ∧ is_Some (lookup_parts (widen_val v) ps).
Proof using HL Hwf Hrep.
  rewrite elem_of_cons, child_keypaths_elem. split.
  - intros [->|([b Hb] & Hbelow & Hne)].
    + exists []. split; [constructor|]. simpl. rewrite Push_nil_r. split; [done|by eexists].
    + pose proof (dw_good n Hwf k ltac:(by eexists)) as Hg.
      apply StartsWith_Push_iff in Hbelow as (r & Hr & ->); [|done].
      exists (path_parts r). rewrite join_path_parts. split; [done|]. split; [done|].
      pose proof (Hrep r) as Hs. unfold db_shape in Hs. rewrite Hb in Hs. simpl in Hs.
      destruct (dw_stored n Hwf _ _ Hb) as [sh Hsh]. rewrite Hsh in Hs. symmetry in Hs.
      unfold shape_at in Hs. apply fmap_Some in Hs as (w & -> & _). by eexists.
  - intros (ps & Hg & -> & [w Hw]). destruct (decide (ps = [])) as [->|Hne]; [left; by rewrite Push_nil_r|right].
    split; [|split; [apply StartsWith_Push|]].
    + pose proof (Hrep (join_sep ps)) as Hs. unfold shape_at in Hs. rewrite path_parts_join, Hw in Hs by done.
      unfold db_shape in Hs. destruct (db_get n _); [by eexists|done].
    + intros Heq%(f_equal path_parts). rewrite path_parts_Push, path_parts_join in Heq by done.
      apply (f_equal length) in Heq. rewrite length_app in Heq. destruct ps; simpl in Heq; [done|lia].
Qed.

(** The stored item of a position inserts its value with the children left out. *)
Lemma value_step_at m ps w :
  Forall good_key ps → ps ≠ [] → lookup_parts (widen_val v) ps = Some w →
  ∃ b, db_get n (Push p (join_sep ps)) = Some b ∧
    value_step (addKeyPrefix n p) None m (addKeyPrefix n (Push p (join_sep ps))) b =
    setValueAtKeypath m (join_sep ps) (hollow w) false.
Proof using Hrep.
  intros Hg Hne Hw. pose proof (Hrep (join_sep ps)) as Hs. unfold shape_at in Hs.
  rewrite path_parts_join, Hw in Hs by done. simpl in Hs. unfold db_shape in Hs.
  destruct (db_get n _) as [b|] eqn:Hb; [|done]. simpl in Hs. exists b. split; [done|].
  unfold value_step. unfold addKeyPrefix. rewrite RelativeTo_app_l.
  rewrite RelativeTo_Push by (by apply good_path_head, good_path_join). cbn [obind].
  rewrite (decodeStored_hollow b w Hs). cbn [obind].
  destruct (exists_last Hne) as (qs & q & ->). apply Forall_app in Hg as [Hgq [Hq _]%Forall_cons].
  assert (length (snd (Pop (join_sep (qs ++ [q])))) ≠ 0) as Hkey.
  { assert (join_sep (qs ++ [q]) = Push (join_sep qs) q) as ->.
    { apply path_parts_inj. rewrite path_parts_Push, !path_parts_join by (try apply Forall_app; auto).
      by rewrite path_parts_good. }
    destruct Hq as [??]. rewrite Pop_key by done. by destruct q. }
  destruct (Pop _) as [x key]. simpl in Hkey. by rewrite decide_False.
Qed.

Lemma value_scan val :
  db_get n p = Some val →
  ∃ m, scan_items (value_step (addKeyPrefix n p) None) (children_items n p) (hollow (widen_val v)) = Ret (m, None) ∧
    goval_equiv m (widen_val v).
Proof using HL Hwf Hrep Hv Hp.
  intros Hval.
  set (step := λ m k, if decide (k = p) then Ret m
                      else match db_get n k with
                           | Some b => value_step (addKeyPrefix n p) None m (addKeyPrefix n k) b
                           | None => Panic
                           end).
  destruct (assemble_run p (widen_val v) (p :: child_keypaths)) with (step := step)
    (built := λ m : plain, m) (dn := [p]) (todo := child_keypaths) (s := hollow (widen_val v))
    as (m & Hm & Heq); [apply child_keypaths_sorted|apply db_run_positions| | | |done| |].
  - intros ps w Hw. rewrite lookup_widen in Hw. apply fmap_Some in Hw as (w' & Hw & _). by apply (lookup_parts_good v w').
  - intros m. exists m. unfold step. by rewrite decide_True.
  - intros m ps w m' Hg Hne Hw Hm. exists m'. split; [|done]. unfold step. rewrite decide_False.
    + destruct (value_step_at m ps w Hg Hne Hw) as (b & -> & ->). done.
    + intros Heq%(f_equal path_parts). rewrite path_parts_Push, path_parts_join in Heq by done.
      apply (f_equal length) in Heq. rewrite length_app in Heq. destruct ps; simpl in Heq; [done|lia].
  - exact (filled_root p (widen_val v) [] _ (filled_start p (widen_val v))).
  - exists m. split; [|done]. revert Hm. unfold child_keypaths.
    assert (∀ key x, (key, x) ∈ children_items n p → ∃ k, key = addKeyPrefix n k ∧ db_get n k = Some x ∧ k ≠ p) as Hin.
    { intros key x (k & -> & Hg & _ & Hne)%children_elem. eauto. }
    revert Hin. generalize (hollow (widen_val v)). induction (children_items n p) as [|[key x] items IH]; intros s Hin Hm.
    { simpl in Hm. by simplify_eq/=. }
    destruct (Hin key x) as (k & -> & Hg & Hne); [set_solver|]. cbn [scan_items].
    rewrite fmap_cons in Hm. cbn [fold_outcome fst] in Hm. unfold addKeyPrefix at 1 in Hm. rewrite drop_app_length in Hm.
    unfold step at 1 in Hm. rewrite decide_False, Hg in Hm by done.
    destruct (value_step _ _ _ _ _) as [s'| | |]; try done. cbn [obind] in Hm. apply IH; [|done].
    intros; apply Hin; set_solver.
Qed.
End Read.

Lemma db_Value_spec {T} `{BadgerLaws T} (n : DBNode T) rel v :
  let p := Push (rootKeypath n) rel in
  db_wf n → db_rng n = None → good_path p → db_represents n p v → addressable v →
  ∃ w, db_Value n rel None = Ret (Some w) ∧ goval_equiv w (widen_val v).
Proof.
  intros p Hwf Hr Hp Hrep Hv. unfold db_Value. rewrite Hr. cbn [merge_range obind]. fold p.
  pose proof (Hrep []) as Hs. rewrite Push_nil_r in Hs. unfold shape_at in Hs. simpl in Hs.
  unfold db_shape in Hs. change (txn_get (db_tx n) (addKeyPrefix n p)) with (db_get n p).
  destruct (db_get n p) as [val|] eqn:Hg; [|done]. simpl in Hs.
  destruct (stored_shape_decode val _ Hs) as (d & Hd & Hsh). rewrite Hd. cbn [obind].
  destruct (value_scan n p v Hwf Hp Hrep Hv val Hg) as (m & Hm & Heq).
  destruct (widen_val v) as [s|mm|l|[]] eqn:Hwv; simpl in Hsh.
  - destruct Hsh as [Hnt Hdec]. rewrite decide_True by done. rewrite Hdec. cbn [obind]. by eexists.
  - rewrite decide_False by (by rewrite Hsh). cbn [ranged_length obind]. rewrite decide_False by (by rewrite Hsh).
    rewrite (scan_children _ n _ rel _ val) by (try done; by left). fold p.
    simpl hollow in Hm. rewrite Hm. cbn [obind]. by eexists.
  - destruct Hsh as [Hnt Hlen]. rewrite decide_False by (by rewrite Hnt). cbn [ranged_length obind].
    rewrite decide_True by done. rewrite (scan_children _ n _ rel _ val) by (try done; by right). fold p.
    rewrite Hlen. simpl hollow in Hm. rewrite Hm. cbn [obind]. by eexists.
Qed.

(** ** Theorems *)

(** The conditions under which [Set] stores a value: the keypath has no empty parts, the
    value's keys and integers fit, and nothing above the keypath holds a scalar. *)
Record db_settable {T} `{BadgerTxn T} (n : DBNode T) (rel : Keypath) (v : plain) : Prop := {
  st_norange : db_rng n = None;
  st_path : good_path (Push (rootKeypath n) rel);
  st_keys : addressable v;
  st_machine : machine_ok v;
  st_above : ∀ q sh, q ∈ ancestors (Push (rootKeypath n) rel) → db_shape n q = Some sh → container sh
}.

(** The conditions of [Delete] without a range. *)
Definition db_deletable {T} (n : DBNode T) (rel : Keypath) : Prop :=
  db_rng n = None ∧ good_path (Push (rootKeypath n) rel).

Section Claims.
Context {T : Type} `{HL : BadgerLaws T}.

Lemma db_Set_spec (n : DBNode T) rel v :
  db_wf n → db_settable n rel v →
  ∃ n', db_Set n rel None v = Ret n' ∧ db_set_result n (Push (rootKeypath n) rel) v n' ∧ db_wf n' ∧
    db_represents n' (Push (rootKeypath n) rel) v.
Proof.
  intros Hwf [Hr Hp Hv Hm Ha]. unfold db_Set. rewrite Hr. cbn [obind].
  destruct (setNoRange_result n rel v Hwf Hp Hv Hm) as (n' & -> & Hres). exists n'.
  split; [done|]. split; [done|]. split; [by eapply db_set_wf|by eapply db_set_represents].
Qed.

Lemma db_Delete_spec (n : DBNode T) rel :
  db_wf n → db_rng n = None → good_path (Push (rootKeypath n) rel) →
  ∃ n', db_Delete n rel None = Ret n' ∧ same_node n n' ∧ others_same n n' ∧
    ∀ k, db_get n' k = if decide (below (Push (rootKeypath n) rel) k) then None else db_get n k.
Proof.
  intros Hwf Hr Hp. unfold db_Delete. rewrite Hr. cbn [merge_range obind]. by apply delete_subtree_spec.
Qed.

Lemma db_delete_wf (n n' : DBNode T) p :
  db_wf n → same_node n n' →
  (∀ k, db_get n' k = if decide (below p k) then None else db_get n k) → db_wf n'.
Proof.
  intros Hwf (Hk & _) Hg.
  assert (∀ k x, db_get n' k = Some x → ¬ below p k ∧ db_get n k = Some x) as Hsub.
  { intros k x. rewrite Hg. by case_decide. }
  split.
  - rewrite Hk. apply Hwf.
  - intros k [x [_ Hx]%Hsub]. apply (dw_good n Hwf). by eexists.
  - intros k bs [_ Hb]%Hsub. by apply (dw_stored n Hwf k).
  - intros k q [x [Hnb Hx]%Hsub] Hq Hqk Hne.
    destruct (dw_parents n Hwf k q) as (sh & Hsh & Hc); [by eexists|done..|]. exists sh. split; [|done].
    rewrite <- Hsh. apply db_shape_ext. rewrite Hg, decide_False; [done|].
    intros Hb. apply Hnb. unfold below in *. by eapply StartsWith_trans.
Qed.


(** C25: [Set] changes the subtree at the keypath and nothing else: the subtree becomes exactly
    the value, missing ancestors become maps, every other keypath of this version keeps its
    stored bytes, and so does every key of the database outside the prefix of this
    version. *)
Theorem db_set_frame (n : DBNode T) rel v :
  db_wf n → db_settable n rel v →
  ∃ n', db_Set n rel None v = Ret n' ∧
    (∀ r, db_shape n' (Push (Push (rootKeypath n) rel) r) = shape_at (widen_val v) (path_parts r)) ∧
    (∀ k, StartsWith k (Push (rootKeypath n) rel) = false → k ∉ ancestors (Push (rootKeypath n) rel) →
       db_get n' k = db_get n k) ∧
    (∀ k, k ∈ ancestors (Push (rootKeypath n) rel) →
       db_shape n' k = match db_get n k with Some _ => db_shape n k | None => Some ShMap end) ∧
    (∀ key, has_prefix key (keyPrefix n) = false → txn_get (db_tx n') key = txn_get (db_tx n) key).
Proof.
  intros Hwf Hst. destruct (db_Set_spec n rel v Hwf Hst) as (n' & Hset & Hres & Hwf' & Hrep).
  exists n'. split; [done|]. split; [exact Hrep|]. split; [|split; [|exact (dr_others _ _ _ _ Hres)]].
  - intros k Hb Ha. pose proof (dr_else _ _ _ _ Hres k) as He. unfold below in He.
    specialize (He ltac:(by rewrite Hb)). destruct (db_get n k); [done|]. by rewrite decide_False in He.
  - intros k Ha. pose proof (dr_else _ _ _ _ Hres k (ancestor_not_below _ (st_path _ _ _ Hst) k Ha)) as He.
    destruct (db_get n k) as [b|] eqn:Hg; [by apply db_shape_ext; rewrite He|].
    rewrite decide_True in He by done. destruct He as (b & Hb & Hs). unfold db_shape. by rewrite Hb.
Qed.

(** [Delete] without a range removes the keypath and everything below it, and changes no
    other key of the database, inside or outside this version. *)
Theorem db_delete_exact (n : DBNode T) rel :
  db_wf n → db_deletable n rel →
  ∃ n', db_Delete n rel None = Ret n' ∧ db_wf n' ∧
    ∀ key, txn_get (db_tx n') key =
      match rmKeyPrefix n key with
      | Ret k => if has_prefix key (keyPrefix n) && StartsWith k (Push (rootKeypath n) rel)
                 then None else txn_get (db_tx n) key
      | _ => txn_get (db_tx n) key
      end.
Proof.
  intros Hwf [Hr Hp]. destruct (db_Delete_spec n rel Hwf Hr Hp) as (n' & Hd & Hs & Ho & Hg).
  exists n'. split; [done|]. split; [by eapply db_delete_wf|]. intros key.
  destruct (has_prefix key (keyPrefix n)) eqn:Hpre.
  - apply has_prefix_spec in Hpre as [k ->]. rewrite rmKeyPrefix_app. simpl.
    specialize (Hg k). unfold db_get in Hg. rewrite (addKeyPrefix_same n n' k Hs) in Hg.
    unfold addKeyPrefix in Hg. rewrite Hg.
    case_decide as Hb; [by rewrite Hb|by rewrite (not_below_false _ _ Hb)].
  - rewrite Ho by done. by destruct (rmKeyPrefix n key).
Qed.

(** A state of the tree is reached from an empty version by updates and by looking at
    subtrees. *)
Inductive db_step : DBNode T → DBNode T → Prop :=
  | dbs_set n rel v n' : db_settable n rel v → db_Set n rel None v = Ret n' → db_step n n'
  | dbs_delete n rel n' :
      db_deletable n rel → db_Delete n rel None = Ret n' → db_step n n'
  | dbs_node_at n rel n' : db_NodeAt n rel None = n' → db_step n n'.

End Claims.

(** ** Instances *)

(** A writable version in an empty store. *)
Definition version_a : ID := replicate 32 "A"%byte.
Definition fresh_state : DBNode (gmap bytes bytes) := StateAtVersion (λ _, ∅) version_a true.

Lemma fresh_state_wf : db_wf fresh_state.
Proof. split; [done|..]; intros k; [by intros []|done|by intros ? []]. Qed.

Lemma machine_ok_map m : (Z.of_nat (length m) < 2 ^ 64)%Z → Forall (λ kv, machine_ok kv.2) m → machine_ok (GMap m).
Proof.
  intros Hl Hm [|p ps] w; simpl; [by intros [= <-]|]. intros Hw.
  destruct (assoc_get p m) as [c|] eqn:Hc; [|done]. simpl in Hw. revert Hc.
  induction Hm as [|[k x] m Hx _ IH]; simpl in *; [done|]. case_decide; [intros [= ->]; by eapply Hx|]. apply IH. lia.
Qed.

Lemma machine_ok_slice l : (Z.of_nat (length l) < 2 ^ 64)%Z → Forall machine_ok l → machine_ok (GSlice l).
Proof.
  intros Hl Hm [|p ps] w; simpl; [by intros [= <-]|]. destruct (index_of p) as [i|]; [|done]. simpl.
  destruct (l !! i) as [c|] eqn:Hc; [|done]. simpl. by apply (Forall_lookup_1 _ _ _ _ Hm Hc).
Qed.

Lemma example_machine_ok : machine_ok example_value.
Proof.
  apply machine_ok_map; [done|]. repeat constructor; simpl; try (by apply machine_ok_scalar).
  apply machine_ok_slice; [done|]. repeat constructor; by apply machine_ok_scalar.
Qed.

Lemma fresh_settable : db_settable fresh_state (str "a") example_value.
Proof.
  split; [done| |apply example_value_ok|apply example_machine_ok|done].
  repeat constructor; [discriminate|]. unfold no_sep. vm_compute. set_solver.
Qed.


Lemma db_set_frame_witness :
  ∃ n', db_Set fresh_state (str "a") None example_value = Ret n' ∧
    db_shape n' [] = Some ShMap ∧ db_shape n' (str "a/name") = Some (ShScalar (SString (str "x"))).
Proof.
  destruct (db_set_frame fresh_state (str "a") example_value fresh_state_wf fresh_settable)
    as (n' & Hset & Hval & _ & Hanc & _).
  exists n'. split; [exact Hset|]. split.
  - rewrite (Hanc []); [reflexivity|]. vm_compute. set_solver.
  - exact (Hval (str "name")).
Defined.

Definition state_a : DBNode (gmap bytes bytes) :=
  match db_Set fresh_state (str "a") None example_value with Ret n => n | _ => fresh_state end.

Lemma state_a_eq : db_Set fresh_state (str "a") None example_value = Ret state_a.
Proof.
  destruct (db_Set_spec fresh_state (str "a") example_value fresh_state_wf fresh_settable) as (n' & Hs & _).
  unfold state_a. by rewrite Hs.
Qed.

Lemma state_a_wf : db_wf state_a.
Proof.
  destruct (db_Set_spec fresh_state (str "a") example_value fresh_state_wf fresh_settable) as (n' & Hs & _ & Hwf & _).
  unfold state_a. by rewrite Hs.
Qed.

Lemma db_delete_exact_witness :
  ∃ n', db_Delete state_a (str "a/list") None = Ret n' ∧ db_wf n' ∧
    txn_get (db_tx n') (addKeyPrefix state_a (str "a/list/00000000")) = None ∧
    txn_get (db_tx n') (addKeyPrefix state_a (str "a/name")) =
    txn_get (db_tx state_a) (addKeyPrefix state_a (str "a/name")).
Proof.
  destruct (db_delete_exact state_a (str "a/list") state_a_wf) as (n' & Hd & Hwf & Hg).
  - split; [vm_compute; reflexivity|].
    repeat constructor; try discriminate; unfold no_sep; vm_compute; set_solver.
  - exists n'. split; [exact Hd|]. split; [exact Hwf|]. rewrite !Hg. split; vm_compute; reflexivity.
Defined.

