(* ===== verification/DBVersions.v ===== *)
(** * Versions and splices of the database tree

    Versions of the tree share one store under prefixes that do not overlap, [CopyVersion]
    copies one prefix to another, and [Set] with a range replaces bytes inside a stored
    string.  The last section pins down the operations that do not do what their callers
    expect. *)

From S2P Require Import Prelude Types Keypath TreeTypes GoValue GoPaths Assemble NodeCodec MemoryNode MemoryProps.
From S2P Require Import MemoryIter BadgerTxn DBNode DBProps DBClaims.

(** ** Key prefixes *)

Lemma makeStateKeyPrefix_eq (version : ID) :
  length version = id_length → makeStateKeyPrefix version = version ++ [":"%byte].
Proof.
  intros Hl. unfold makeStateKeyPrefix, go_copy. rewrite !length_app, !length_replicate, Hl.
  rewrite take_ge by (rewrite Hl; unfold stateKeyPrefixLen; lia).
  rewrite length_drop, length_replicate. unfold stateKeyPrefixLen.
  replace (length version + (id_length + 1 - id_length) - 1) with (length version + 0) by (rewrite Hl; unfold id_length; lia).
  rewrite insert_app_r. f_equal.
Qed.

Lemma state_prefix_differs (v1 v2 : ID) k :
  length v1 = id_length → length v2 = id_length → v1 ≠ v2 →
  has_prefix (makeStateKeyPrefix v1 ++ k) (makeStateKeyPrefix v2) = false.
Proof.
  intros H1 H2 Hne. apply not_true_iff_false. rewrite has_prefix_spec, !makeStateKeyPrefix_eq by done.
  intros [q Hq]. rewrite <- !(assoc_L (++)) in Hq. apply Hne. apply (f_equal (take id_length)) in Hq.
  by rewrite <- H1 in Hq at 1; rewrite <- H2, !take_app_length in Hq.
Qed.

(** The view of another version through the same transaction. *)
Definition at_version {T} (t : T) (v : ID) : DBNode T := StateAtVersion (λ _, t) v true.

Section Versions.
Context {T : Type} `{HL : BadgerLaws T}.

(** Versions are isolated from one another: [Set] and [Delete] on one version leave every
    keypath of every other version as it was. *)
Theorem db_versions_isolated (t : T) (v1 v2 : ID) rel v :
  length v1 = id_length → length v2 = id_length → v1 ≠ v2 →
  db_wf (at_version t v1) → db_settable (at_version t v1) rel v →
  ∃ n1 n2, db_Set (at_version t v1) rel None v = Ret n1 ∧ db_Delete (at_version t v1) rel None = Ret n2 ∧
    ∀ k, db_get (at_version (db_tx n1) v2) k = db_get (at_version t v2) k ∧
         db_get (at_version (db_tx n2) v2) k = db_get (at_version t v2) k.
Proof.
  intros H1 H2 Hne Hwf Hst. destruct (db_Set_spec _ rel v Hwf Hst) as (n1 & Hset & Hres & _).
  destruct (db_Delete_spec (at_version t v1) rel Hwf (st_norange _ _ _ Hst) (st_path _ _ _ Hst))
    as (n2 & Hdel & _ & Ho & _).
  exists n1, n2. split; [done|]. split; [done|]. intros k. unfold db_get.
  change (addKeyPrefix (at_version ?t v2) k) with (makeStateKeyPrefix v2 ++ k).
  assert (has_prefix (makeStateKeyPrefix v2 ++ k) (keyPrefix (at_version t v1)) = false) as Hpre
    by (by apply state_prefix_differs).
  split; [exact (dr_others _ _ _ _ Hres _ Hpre)|exact (Ho _ Hpre)].
Qed.

(** ** [CopyVersion] *)

Lemma copied_key (dst src : ID) k :
  length dst = id_length → length src = id_length →
  go_copy (take stateKeyPrefixLen (src ++ ":"%byte :: k)) dst ++ drop stateKeyPrefixLen (src ++ ":"%byte :: k) =
  dst ++ ":"%byte :: k.
Proof.
  intros Hd Hs.
  assert (stateKeyPrefixLen = length src + 1) as Hl by (rewrite Hs; done).
  assert (take stateKeyPrefixLen (src ++ ":"%byte :: k) = src ++ [":"%byte]) as ->
    by (rewrite Hl, take_app_add; simpl; by rewrite take_0).
  assert (drop stateKeyPrefixLen (src ++ ":"%byte :: k) = k) as -> by (rewrite Hl, drop_app_add; simpl; by rewrite drop_0).
  unfold go_copy. rewrite length_app, take_ge by (simpl; lia). rewrite <- (assoc_L (++)). f_equal.
  rewrite Hd, <- Hs, drop_app_length. done.
Qed.

Lemma copy_items (dst src : ID) (l : list (bytes * bytes)) (t : T) :
  length dst = id_length → length src = id_length → NoDup l.*1 →
  (∀ key v, (key, v) ∈ l → has_prefix key (src ++ str ":") = true) →
  ∃ t', fold_outcome (λ t kv,
          txn_set t (go_copy (take stateKeyPrefixLen kv.1) dst ++ drop stateKeyPrefixLen kv.1) kv.2) t l = Ret t' ∧
    (∀ k v, (src ++ ":"%byte :: k, v) ∈ l → txn_get t' (dst ++ ":"%byte :: k) = Some v) ∧
    (∀ key, (∀ k v, (src ++ ":"%byte :: k, v) ∈ l → key ≠ dst ++ ":"%byte :: k) → txn_get t' key = txn_get t key).
Proof.
  intros Hd Hs. revert t. induction l as [|[key v] l IH]; intros t Hnd Hl.
  { exists t. split; [done|]. split; [set_solver|done]. }
  rewrite fmap_cons in Hnd. apply NoDup_cons in Hnd as [Hkey Hnd].
  assert (has_prefix key (src ++ str ":") = true) as [k Hk]%has_prefix_spec by (apply (Hl key v); set_solver). rewrite <- (assoc_L (++)) in Hk. simpl in Hk, Hkey. subst key.
  cbn [fold_outcome fst snd]. rewrite copied_key by done.
  destruct (law_set t (dst ++ ":"%byte :: k) v) as (t1 & -> & Ht1); [by destruct dst|]. cbn [obind].
  destruct (IH t1 Hnd) as (t' & -> & Hin & Hout); [intros key' v' Hin'; apply (Hl key' v'), elem_of_cons; by right|].
  exists t'. split; [done|]. split.
  - intros k' v' [[= Heq ->]|Hin']%elem_of_cons; [|by apply Hin].
    apply (inj (app src)) in Heq. injection Heq as ->. rewrite Hout, Ht1, decide_True; [done|done|].
    intros k' v'' Hin' Heq. apply (inj (app dst)) in Heq. injection Heq as ->. apply Hkey.
    by apply (list_elem_of_fmap_2 fst) in Hin'.
  - intros key Hno. rewrite Hout by (intros k' v' Hin'; apply (Hno k' v'); set_solver).
    rewrite Ht1, decide_False; [done|]. apply (Hno k v). set_solver.
Qed.

Lemma CopyVersion_spec (t : T) (dst src : ID) :
  length dst = id_length → length src = id_length →
  ∃ t', CopyVersion t dst src = Ret t' ∧
    (∀ k, db_get (at_version t' dst) k =
       match db_get (at_version t src) k with Some v => Some v | None => db_get (at_version t dst) k end) ∧
    (∀ key, has_prefix key (makeStateKeyPrefix dst) = false → txn_get t' key = txn_get t key).
Proof.
  intros Hd Hs. unfold CopyVersion.
  set (l := filter (λ kv, has_prefix kv.1 (src ++ str ":") = true) (txn_items t)).
  assert (∀ v k, length v = id_length → ∀ t : T, db_get (at_version t v) k = txn_get t (v ++ ":"%byte :: k)) as Hget.
  { intros v k Hv t0. unfold db_get, addKeyPrefix. simpl. rewrite makeStateKeyPrefix_eq by done.
    by rewrite <- (assoc_L (++)). }
  assert (∀ k v, (src ++ ":"%byte :: k, v) ∈ l ↔ txn_get t (src ++ ":"%byte :: k) = Some v) as Hl.
  { intros k v. unfold l. rewrite list_elem_of_filter, law_items. simpl. split; [tauto|]. intros Hg. split; [|done].
    apply has_prefix_spec. exists k. by rewrite <- (assoc_L (++)). }
  destruct (copy_items dst src l t Hd Hs) as (t' & Ht' & Hin & Hout).
  - apply sorted_lt_NoDup, filter_items_sorted, law_sorted.
  - intros key v. unfold l. by intros [? _]%list_elem_of_filter.
  - exists t'. split; [done|]. split.
    + intros k. rewrite !Hget by done. destruct (txn_get t (src ++ _)) as [v|] eqn:Hg; [by apply Hin, Hl|].
      apply Hout. intros k' v' Hk' Heq. apply (inj (app dst)) in Heq. injection Heq as ->. apply Hl in Hk'. congruence.
    + intros key Hkey. apply Hout. intros k v _ ->. rewrite makeStateKeyPrefix_eq in Hkey by done.
      apply not_true_iff_false in Hkey. apply Hkey, has_prefix_spec. exists k. by rewrite <- (assoc_L (++)).
Qed.

(** [CopyVersion] makes the destination hold what the source holds: every keypath stored in
    the source version is stored with the same bytes in the destination, keypaths of the
    destination that the source does not have keep what they had, and no other key of the
    store changes. *)
Theorem db_copy_version (t : T) (dst src : ID) :
  length dst = id_length → length src = id_length →
  ∃ t', CopyVersion t dst src = Ret t' ∧
    (∀ k, db_get (at_version t' dst) k =
       match db_get (at_version t src) k with Some v => Some v | None => db_get (at_version t dst) k end) ∧
    (∀ key, has_prefix key (makeStateKeyPrefix dst) = false → txn_get t' key = txn_get t key).
Proof. apply CopyVersion_spec. Qed.
End Versions.

Definition version_b : ID := replicate 32 "B"%byte.

Lemma db_versions_isolated_witness :
  ∃ n1 n2, db_Set fresh_state (str "a") None example_value = Ret n1 ∧
    db_Delete fresh_state (str "a") None = Ret n2 ∧
    ∀ k, db_get (at_version (db_tx n1) version_b) k = db_get (at_version (∅ : gmap bytes bytes) version_b) k ∧
         db_get (at_version (db_tx n2) version_b) k = db_get (at_version (∅ : gmap bytes bytes) version_b) k.
Proof.
  apply (db_versions_isolated (∅ : gmap bytes bytes) version_a version_b (str "a") example_value);
    [reflexivity|reflexivity|discriminate|apply fresh_state_wf|apply fresh_settable].
Defined.

Lemma db_copy_version_witness :
  ∃ t', CopyVersion (db_tx state_a) version_b version_a = Ret t' ∧
    db_get (at_version t' version_b) (str "a/name") = Some (str "vsx").
Proof.
  destruct (db_copy_version (db_tx state_a) version_b version_a) as (t' & Ht' & Hk & _); [reflexivity..|].
  exists t'. split; [exact Ht'|]. rewrite Hk. vm_compute. reflexivity.
Defined.

(** ** Replacing bytes inside a stored string *)

Lemma copy_at_end (a src : bytes) (m : nat) :
  length src ≤ m →
  copy_at (a ++ replicate m x00) (Z.of_nat (length a)) src = Ret (a ++ src ++ replicate (m - length src) x00).
Proof.
  intros Hm. unfold copy_at. rewrite slice_tail by (by rewrite ?length_app). cbn [obind].
  rewrite Nat2Z.id, take_app_length. unfold go_copy. rewrite length_replicate, take_ge by done.
  by rewrite drop_replicate.
Qed.

(** What a splice is: the bytes before [i], the new bytes, the bytes from [j] on. *)
Definition spliced (s : bytes) (i j : Z) (t : bytes) : bytes :=
  take (Z.to_nat i) s ++ t ++ drop (Z.to_nat j) s.

Lemma setRangeBytes_spec {T} `{BadgerLaws T} (n : DBNode T) p r (string : bool) s t :
  let tag := if string then str "vs" else str "vz" in
  let '(i, j) := IndicesForLength r (Z.of_nat (length s)) in
  keyPrefix n ≠ [] → range_wf r → Range_Valid r = true → ValidForLength r (Z.of_nat (length s)) = true →
  (2 + Z.of_nat (length s) + Z.of_nat (length t) < two63)%Z →
  ∃ n', setRangeBytes n p r (tag ++ s) t = Ret n' ∧
    updates n p (Some (tag ++ spliced s i j t)) n'.
Proof.
  intros tag. destruct (IndicesForLength r (Z.of_nat (length s))) as [i j] eqn:Hij.
  intros Hpre Hwf Hvalid Hlen Hsz.
  pose proof (range_bounds r (Z.of_nat (length s)) Hwf Hvalid ltac:(unfold two63 in *; lia) Hlen) as Hb.
  rewrite Hij in Hb. destruct Hb as (Hi & Hj & Hsize & _).
  set (vt := if string then ValueTypeString else ValueTypeBytes).
  assert (decodeNode (tag ++ s) = Ret (mkDecoded NodeTypeValue vt (Z.of_nat (length s)) s)) as Hdec
    by (unfold tag, vt; by destruct string).
  unfold setRangeBytes. rewrite decide_False by (unfold tag; by destruct string).
  rewrite Hdec. cbn [obind dn_valueType dn_length dn_data].
  rewrite decide_False by (unfold vt; destruct string; intros []; done).
  rewrite Hlen, Hij. cbn [negb].
  assert ((if decide (vt = ValueTypeString) then str "vs" else str "vz") = tag) as -> by (unfold vt, tag; by destruct string).
  rewrite !u64_id by (unfold is_u64, two63, two64 in *; lia).
  assert (slice s 0 i = Ret (take (Z.to_nat i) s)) as ->
    by (unfold slice; rewrite decide_True by lia; by rewrite Z.sub_0_r).
  assert (slice s j (Z.of_nat (length s)) = Ret (drop (Z.to_nat j) s)) as ->.
  { unfold slice. rewrite decide_True by lia. f_equal. apply take_ge. rewrite length_drop. lia. }
  cbn [obind]. set (a := take (Z.to_nat i) s). set (b := drop (Z.to_nat j) s).
  assert (Z.of_nat (length a) = i) as Ha by (unfold a; rewrite length_take; lia).
  assert (Z.of_nat (length b) = Z.of_nat (length s) - j)%Z as Hb by (unfold b; rewrite length_drop; lia).
  assert (Z.of_nat (length tag) = 2)%Z as Htag by (unfold tag; by destruct string).
  set (m := Z.to_nat _ - 2). assert (m = length a + length t + length b) as Hm by lia.
  pose proof (copy_at_end tag a m) as Hc. rewrite Htag in Hc. rewrite Hc by lia. clear Hc. cbn [obind].
  rewrite (assoc_L (++) tag).
  replace (2 + i)%Z with (Z.of_nat (length (tag ++ a))) by (rewrite length_app; lia).
  rewrite copy_at_end by lia. cbn [obind]. rewrite (assoc_L (++) (tag ++ a)).
  replace (Z.of_nat (length (tag ++ a)) + Z.of_nat (length t))%Z with (Z.of_nat (length ((tag ++ a) ++ t)))
    by (rewrite (length_app (tag ++ a)); lia).
  rewrite copy_at_end by lia. cbn [obind].
  assert (m - length a - length t - length b = 0) as -> by lia.
  rewrite app_nil_r, <- !(assoc_L (++)). by apply db_put_updates.
Qed.

(** Setting a range of a stored string or byte string splices it: with the bounds [i] and
    [j] the range denotes, [Set] stores the first [i] bytes, the new bytes, and the bytes
    from [j] on, under the same type tag, and changes no other keypath. *)
Theorem db_splice_bytes {T} `{BadgerLaws T} (n : DBNode T) rel r (string : bool) s t :
  let tag := if string then str "vs" else str "vz" in
  let p := Push (rootKeypath n) rel in
  let '(i, j) := IndicesForLength r (Z.of_nat (length s)) in
  keyPrefix n ≠ [] → db_rng n = None → db_get n p = Some (tag ++ s) →
  range_wf r → Range_Valid r = true → ValidForLength r (Z.of_nat (length s)) = true →
  (2 + Z.of_nat (length s) + Z.of_nat (length t) < two63)%Z →
  ∃ n', db_Set n rel (Some r) (GScalar (SString t) : plain) = Ret n' ∧
    db_get n' p = Some (tag ++ spliced s i j t) ∧
    (∀ k, k ≠ p → db_get n' k = db_get n k).
Proof.
  intros tag p. pose proof (setRangeBytes_spec n p r string s t) as Hspec. cbv zeta in Hspec.
  destruct (IndicesForLength r (Z.of_nat (length s))) as [i j].
  intros Hpre Hr Hg Hwf Hv Hlen Hsz.
  destruct Hspec as (n' & Hset & _ & _ & Hk); [done..|]. exists n'. split.
  - unfold db_Set. rewrite Hr. cbn [obind]. rewrite Hv. cbn [negb]. fold p.
    change (txn_get (db_tx n) (addKeyPrefix n p)) with (db_get n p). by rewrite Hg.
  - split; [by rewrite Hk, decide_True|]. intros k Hne. by rewrite Hk, decide_False.
Qed.

(** The store of the following examples: a string at [s] and a list at [l]. *)
Definition set_all (kvs : list (Keypath * plain)) : outcome (DBNode (gmap bytes bytes)) :=
  fold_outcome (λ n kv, db_Set n kv.1 None kv.2) fresh_state kvs.

Definition state_s : DBNode (gmap bytes bytes) :=
  match set_all [(str "s", GScalar (SString (str "hello")));
                 (str "l", GSlice (map (λ x, GScalar (SString (str x))) ["a"; "b"; "c"]%string))]
  with Ret n => n | _ => fresh_state end.

Lemma db_splice_bytes_witness :
  ∃ n', db_Set state_s (str "s") (Some (mkRange (-4) (-2))) (GScalar (SString (str "XYZ")) : plain) = Ret n' ∧
    db_get n' (str "s") = Some (str "vshXYZlo").
Proof.
  destruct (db_splice_bytes state_s (str "s") (mkRange (-4) (-2)) true (str "hello") (str "XYZ"))
    as (n' & Hset & Hg & _).
  - vm_compute. discriminate.
  - vm_compute. reflexivity.
  - vm_compute. reflexivity.
  - split; unfold is_i64, two63; simpl; lia.
  - vm_compute. reflexivity.
  - vm_compute. reflexivity.
  - unfold two63. simpl. lia.
  - exists n'. split; [exact Hset|exact Hg].
Defined.

(** ** Where the code departs from its callers' expectations *)

(** Deleting a range of a string reports success and leaves the string as it was: the
    shortened string is stored at a keypath that carries the key prefix twice. *)
Theorem db_delete_string_range_noop :
  (let! n' := db_Delete state_s (str "s") (Some (mkRange 1 3)) in
   Ret (db_get n' (str "s"), db_get n' (addKeyPrefix state_s (str "s")))) =
  Ret (Some (str "vshello"), Some (str "vshlo")).
Proof. vm_compute. reflexivity. Qed.

(** Inserting into the middle of a stored list (a splice with an empty range) loses the
    element at the insertion point. *)
Theorem db_insert_loses_element :
  (let! n' := db_Set state_s (str "l") (Some (mkRange 1 1)) (GSlice [GScalar (SString (str "X"))] : plain) in
   db_Value n' (str "l") None) =
  Ret (Some (GSlice [GScalar (SString (str "a")); GScalar (SString (str "X")); GScalar SNil;
                     GScalar (SString (str "c"))])).
Proof. vm_compute. reflexivity. Qed.

(** Reading a range of a list through [NodeAt] panics; the same range read from the root of
    the version, below which the list is, succeeds. *)
Theorem db_range_read_below_root :
  db_Value (db_NodeAt state_s (str "l") None) [] (Some (mkRange 0 2)) = Panic ∧
  db_Value state_s (str "l") (Some (mkRange 0 2)) =
    Ret (Some (GSlice [GScalar (SString (str "a")); GScalar (SString (str "b"))])).
Proof. split; vm_compute; reflexivity. Qed.
