(* ===== verification/DBCopy.v ===== *)
(** * Copies of database subtrees in memory ([CopyToMemory] of [tree/tree.badger.go])

    [DBNode.CopyToMemory] reads the items below a keypath and fills the tables of a memory
    tree.  The copy satisfies the memory tree's invariant and holds the value that the
    subtree holds, so that everything proved about memory trees applies to it. *)

From S2P Require Import Prelude Types Keypath TreeTypes GoValue GoPaths Assemble NodeCodec MemoryNode MemoryProps.
From S2P Require Import MemoryIter BadgerTxn DBNode DBProps DBClaims.

Definition shape_type (sh : shape Empty_set) : NodeType :=
  match sh with ShMap => NodeTypeMap | ShSlice _ => NodeTypeSlice | ShScalar _ => NodeTypeValue | ShNode _ => NodeTypeNode end.

Definition shape_value (sh : shape Empty_set) : option (mval Empty_set) := match sh with ShScalar s => Some (MV s) | _ => None end.

Lemma keys_ok_widen (v : plain) : keys_min v → keys_min (widen_val v).
Proof. intros Hm ps w. rewrite lookup_widen. intros (w' & Hw & _)%fmap_Some. by apply (Hm ps w'). Qed.

(** A table that has [f] at the keys [rs], after one more key. *)
Lemma grown_insert {A} (t : gmap Keypath A) (f : Keypath → option A) rs r x :
  (∀ k, t !! k = if decide (k ∈ rs) then f k else None) → f r = Some x → ∀ k, <[r := x]> t !! k = if decide (k ∈ r :: rs) then f k else None.
Proof.
  intros Hf Hx k. destruct (decide (r = k)) as [<-|Hk]; [by rewrite lookup_insert_eq, decide_True by set_solver|].
  rewrite lookup_insert_ne, Hf by done. destruct (decide (k ∈ rs)); [rewrite decide_True by set_solver|rewrite decide_False by set_solver]; done.
Qed.

Lemma grown_keep {A} (t : gmap Keypath A) (f : Keypath → option A) rs r :
  (∀ k, t !! k = if decide (k ∈ rs) then f k else None) → r ∉ rs → f r = None → ∀ k, t !! k = if decide (k ∈ r :: rs) then f k else None.
Proof.
  intros Hf Hr Hx k. rewrite Hf. destruct (decide (k ∈ rs)); [by rewrite decide_True by set_solver|]. case_decide as Hk; [|done].
  apply elem_of_cons in Hk as [->|?]; done.
Qed.

Section Copy.
Context {T : Type} `{HL : BadgerLaws T}.
Context (n : DBNode T) (p : Keypath) (v : plain).
Context (Hwf : db_wf n) (Hp : good_path p) (Hrep : db_represents n p v).

(** The tables [m] have what is stored at the relative keypaths [rs]. *)
Record copied_as (rs : list Keypath) (m : MemoryNode Empty_set) : Prop := {
  ca_types : ∀ r, nodeTypes m !! r = if decide (r ∈ rs) then shape_type <$> db_shape n (Push p r) else None;
  ca_values : ∀ r, values m !! r = if decide (r ∈ rs) then db_shape n (Push p r) ≫= shape_value else None;
  ca_lengths : ∀ r, is_Some (contentLengths m !! r) → r ∈ rs;
  ca_slices : ∀ r l, r ∈ rs → db_shape n (Push p r) = Some (ShSlice l) → Z.to_nat (content_length m r) = l
}.

Lemma copied_as_frame rs m ks d : copied_as rs m → copied_as rs (with_diff (with_tables m ks (values m) (nodeTypes m) (contentLengths m)) d).
Proof. intros [Ht Hv Hl Hs]. by split. Qed.

(** One item goes into the tables. *)
Lemma copy_item_at rs new m r b :
  copied_as rs m → r ∉ rs → good_path r → db_get n (Push p r) = Some b →
  ∃ m', copy_item (addKeyPrefix n p) None (new, m) (addKeyPrefix n (Push p r)) b = Ret (new ++ [r], m') ∧
    copied_as (r :: rs) m' ∧ keypath m' = keypath m ∧ rng m' = rng m ∧ keypaths m' = keypaths m ∧ copied m' = copied m.
Proof using Hwf Hp Hrep HL.
  intros [Ht Hv Hl Hs] Hr Hg Hb. destruct (dw_stored n Hwf _ _ Hb) as [sh Hsh]. destruct (stored_shape_decode b sh Hsh) as (d & Hd & Hdec).
  assert (db_shape n (Push p r) = Some sh) as Hshape by (unfold db_shape; by rewrite Hb).
  unfold copy_item, addKeyPrefix. rewrite RelativeTo_app_l, RelativeTo_Push by (by apply good_path_head). cbn [obind]. rewrite Hd. cbn [obind].
  destruct d as [nt vt len data]. cbn [dn_nodeType dn_valueType dn_length dn_data] in *. rewrite Copy_id.
  destruct sh as [s| |l|[]].
  - destruct Hdec as [-> Hdec]. rewrite Hdec. cbn [obind]. rewrite (decide_True (P := NodeTypeValue = NodeTypeValue)), decide_False by first [done|by intros [?|?]]. eexists. split; [done|]. split; [|done]. split; cbn.
    + apply (grown_insert _ (λ k, shape_type <$> db_shape n (Push p k))); [done|]. by rewrite Hshape.
    + apply (grown_insert _ (λ k, db_shape n (Push p k) ≫= shape_value)); [done|]. by rewrite Hshape.
    + intros k Hk. right. by apply Hl.
    + intros k l [->|Hk]%elem_of_cons Hkl; [congruence|]. by apply Hs.
  - subst nt. cbn [decodeGoValue obind]. rewrite decide_True by auto. eexists. split; [done|]. split; [|done]. split; cbn.
    + apply (grown_insert _ (λ k, shape_type <$> db_shape n (Push p k))); [done|]. by rewrite Hshape.
    + apply (grown_keep _ (λ k, db_shape n (Push p k) ≫= shape_value)); [done..|]. by rewrite Hshape.
    + intros k [x Hk]. apply lookup_insert_Some in Hk as [[<- _]|[_ Hk]]; [left|right; apply Hl; by eexists].
    + intros k l [->|Hk]%elem_of_cons Hkl; [congruence|]. unfold content_length. cbn. rewrite lookup_insert_ne by set_solver. by apply Hs.
  - destruct Hdec as [-> Hlen]. cbn [decodeGoValue obind]. rewrite decide_True by auto. eexists. split; [done|]. split; [|done]. split; cbn.
    + apply (grown_insert _ (λ k, shape_type <$> db_shape n (Push p k))); [done|]. by rewrite Hshape.
    + apply (grown_keep _ (λ k, db_shape n (Push p k) ≫= shape_value)); [done..|]. by rewrite Hshape.
    + intros k [x Hk]. apply lookup_insert_Some in Hk as [[<- _]|[_ Hk]]; [left|right; apply Hl; by eexists].
    + intros k l' [->|Hk]%elem_of_cons Hkl; unfold content_length; cbn; [rewrite lookup_insert_eq; cbn; congruence|].
      rewrite lookup_insert_ne by set_solver. by apply Hs.
Qed.

(** The scan over the children copies all of them. *)
Lemma copy_scan (items : list (bytes * bytes)) : ∀ rs new m,
  copied_as rs m → NoDup items.*1 →
  (∀ key x, (key, x) ∈ items → ∃ r, key = addKeyPrefix n (Push p r) ∧ db_get n (Push p r) = Some x ∧ good_path r ∧ r ∉ rs) →
  ∃ rl m', scan_items (copy_item (addKeyPrefix n p) None) items (new, m) = Ret ((new ++ rl, m'), None) ∧
    items.*1 = (λ r, addKeyPrefix n (Push p r)) <$> rl ∧ copied_as (reverse rl ++ rs) m' ∧
    keypath m' = keypath m ∧ rng m' = rng m ∧ keypaths m' = keypaths m ∧ copied m' = copied m.
Proof using Hwf Hp Hrep HL.
  induction items as [|[key x] items IH]; intros rs new m Hm Hnd Hin.
  { exists [], m. by rewrite app_nil_r. }
  destruct (Hin key x) as (r & -> & Hx & Hg & Hr); [left|]. cbn in Hnd. apply NoDup_cons in Hnd as [Hnew Hnd].
  destruct (copy_item_at rs new m r x) as (m1 & Hitem & Hm1 & Hk1 & Hr1 & Hks1 & Hc1); [done..|]. cbn [scan_items]. rewrite Hitem.
  destruct (IH (r :: rs) (new ++ [r]) m1) as (rl & m' & Hscan & Hitems & Hm' & Hk & Hr' & Hks & Hc); [done..| |].
  { intros key y Hy. destruct (Hin key y) as (r' & -> & Hgy & Hg' & Hr'); [by right|]. exists r'. split_and!; try done.
    intros [->|?]%elem_of_cons; [|done]. apply Hnew. apply list_elem_of_fmap. by exists (addKeyPrefix n (Push p r), y). }
  exists (r :: rl), m'. rewrite Hscan, <- (assoc_L (++)). split; [done|]. split; [cbn; by rewrite Hitems|].
  rewrite reverse_cons, <- (assoc_L (++)). split_and!; [exact Hm'|congruence..].
Qed.
(** The children of [p] by their relative keypaths. *)
Lemma child_relative key x : (key, x) ∈ children_items n p →
  ∃ r, key = addKeyPrefix n (Push p r) ∧ db_get n (Push p r) = Some x ∧ good_path r ∧ r ∉ [[]].
Proof using Hwf HL.
  intros (k & -> & Hg & Hb & Hne)%children_elem. pose proof (dw_good n Hwf k ltac:(by eexists)) as Hgood.
  apply StartsWith_Push_iff in Hb as (r & Hr & ->); [|done]. exists r. split; [done|]. split; [exact Hg|]. split; [exact Hr|].
  intros ->%list_elem_of_singleton. by rewrite Push_nil_r in Hne.
Qed.

(** Tables that have everything below [p] are a memory tree that holds [v]. *)
Lemma copied_tree rs m :
  copied_as rs m → (∀ r, r ∈ rs ↔ is_Some (db_get n (Push p r))) → keys_min v →
  StronglySorted bytes_lt (keypaths m) → (∀ r, r ∈ keypaths m ↔ r ∈ rs) → mem_wf m ∧ represents m [] (widen_val v).
Proof using Hwf Hp Hrep HL.
  intros [Ht Hv Hl Hs] Hall Hmin Hsort Hks.
  assert (∀ r, r ∈ rs → ∃ sh, db_shape n (Push p r) = Some sh ∧ shape_at (widen_val v) (path_parts r) = Some sh) as Hsh.
  { intros r [b Hb]%Hall. destruct (dw_stored n Hwf _ _ Hb) as [sh Hsh]. exists sh. rewrite <- Hrep. unfold db_shape. by rewrite Hb. }
  split.
  - split.
    + done.
    + intros r. rewrite Hks, Ht. case_decide as Hr; [|split; [done|by intros [? ?]]]. split; [|done]. intros _. destruct (Hsh r Hr) as (sh & -> & _). by eexists.
    + intros r. rewrite Ht. case_decide as Hr; [|done]. destruct (Hsh r Hr) as (sh & -> & _). by destruct sh.
    + apply Forall_forall. intros r Hr%Hks. destruct (Hsh r Hr) as (sh & _ & Hat). unfold shape_at in Hat. apply fmap_Some in Hat as (w & Hw & _).
      rewrite <- (join_path_parts r). apply sep_min_join. by apply (keys_ok_widen v Hmin _ w).
    + apply Forall_forall. intros r Hr%Hks%Hall. apply (dw_good n Hwf), good_path_Push in Hr. apply Hr.
    + intros r q Hr%Hks%Hall Hq Hb. apply Hks, Hall. apply StartsWith_Push_iff in Hb as (r' & Hr' & ->); [|by apply (dw_good n Hwf), good_path_Push in Hr as [_ ?]].
      destruct (decide (r' = [])) as [->|Hne]; [by rewrite Push_nil_r in Hr|].
      destruct (dw_parents n Hwf (Push p (Push q r')) (Push p q)) as (sh & Hq' & _); [done|by apply good_path_Push| | |].
      * rewrite <- Push_assoc_all. apply StartsWith_Push.
      * rewrite <- Push_assoc_all. intros Heq%(f_equal path_parts). rewrite (path_parts_Push (Push p q)) in Heq. apply (f_equal length) in Heq.
        rewrite length_app in Heq. apply Hne, path_parts_inj. destruct (path_parts r') eqn:E; [done|cbn in Heq; lia].
      * unfold db_shape in Hq'. destruct (db_get n (Push p q)); [by eexists|done].
    + intros r. rewrite Hv, Hks. case_decide; [done|]. by intros [? ?].
    + intros r Hr. by apply Hks, Hl.
    + intros r. rewrite Ht, Hv. case_decide as Hr; [|done]. destruct (Hsh r Hr) as (sh & -> & _). destruct sh as [s| | |[]]; try done. by exists s.
    + intros r. rewrite Ht. case_decide as Hr; [|done]. destruct (Hsh r Hr) as (sh & -> & _). by destruct sh as [s| | |[]].
  - intros r. rewrite Push_nil_l. unfold node_shape. rewrite Ht. destruct (decide (r ∈ rs)) as [Hr|Hr].
    + destruct (Hsh r Hr) as (sh & Hdb & Hat). rewrite Hdb, Hat. cbn. destruct sh as [s| |l|[]]; cbn; [|done|by rewrite (Hs r l)].
      by rewrite Hv, decide_True, Hdb by done.
    + rewrite <- Hrep. unfold db_shape. destruct (db_get n (Push p r)) eqn:Hb; [|done]. destruct Hr. apply Hall. by eexists.
Qed.
End Copy.

Lemma children_relative {T} `{HL : BadgerLaws T} (n : DBNode T) p : db_wf n → ∀ r,
  addKeyPrefix n (Push p r) ∈ (children_items n p).*1 ↔ is_Some (db_get n (Push p r)) ∧ r ≠ [].
Proof.
  intros Hwf r. rewrite list_elem_of_fmap. split.
  - intros ([key x] & Hkx & Hx). destruct (child_relative n p Hwf key x Hx) as (r' & -> & Hg & _ & Hne). cbn in Hkx.
    apply addKeyPrefix_inj, Push_inj in Hkx as ->. split; [by eexists|]. intros ->. by apply Hne, list_elem_of_singleton.
  - intros [[x Hx] Hne]. exists (addKeyPrefix n (Push p r), x). split; [done|]. apply children_elem. exists (Push p r). split_and!; [done..|apply StartsWith_Push|].
    intros Heq. apply Hne, (Push_inj p). by rewrite Push_nil_r.
Qed.

(** A copy of the subtree at a keypath: a tree of its own, rooted at the empty keypath. *)
Record copy_of (t : MemoryNode Empty_set) (v : plain) : Prop := {
  co_wf : mem_wf t;
  co_plain : plain_handle t;
  co_root : keypath t = [];
  co_rep : represents t [] v
}.

Lemma db_copy_container {T} `{HL : BadgerLaws T} (n : DBNode T) rel v d b :
  let p := Push (rootKeypath n) rel in
  db_wf n → good_path p → db_represents n p v → keys_min v → db_get n p = Some b → decodeNode b = Ret d →
  (dn_nodeType d = NodeTypeMap ∧ shape_of (widen_val v) = ShMap ∨
   dn_nodeType d = NodeTypeSlice ∧ shape_of (widen_val v) = ShSlice (Z.to_nat (dn_length d))) →
  ∃ new m, scanChildrenForward (copy_item (addKeyPrefix n p) None) n (dn_nodeType d) rel None (dn_length d)
      ([], mkMemoryNode [] None [[]] ∅ {[ [] := dn_nodeType d ]} {[ [] := dn_length d ]} false (Some NewDiff)) = Ret ((new, m), None) ∧
    ∀ df, copy_of (with_diff (with_tables m (addKeypaths (keypaths m) new) (values m) (nodeTypes m) (contentLengths m)) df) (widen_val v).
Proof.
  intros p Hwf Hp Hrep Hmin Hb Hd Hty.
  assert (db_shape n (Push p []) = Some (shape_of (widen_val v))) as Hroot by (rewrite (Hrep []); done).
  set (m0 := mkMemoryNode [] None [[]] ∅ {[ [] := dn_nodeType d ]} {[ [] := dn_length d ]} false (Some NewDiff)).
  assert (copied_as n p [[]] m0) as Hm0.
  { split; cbn.
    - intros r. destruct (decide (r ∈ [[]])) as [->%list_elem_of_singleton|Hr].
      + rewrite lookup_singleton_eq, Hroot. by destruct Hty as [[-> ->]|[-> ->]].
      + rewrite lookup_singleton_ne; [done|]. intros <-. set_solver.
    - intros r. rewrite lookup_empty. case_decide as Hr; [|done]. apply list_elem_of_singleton in Hr as ->. rewrite Hroot. by destruct Hty as [[_ ->]|[_ ->]].
    - intros r [x Hx]. apply lookup_singleton_Some in Hx as [<- _]. by apply list_elem_of_singleton.
    - intros r l ->%list_elem_of_singleton. rewrite Hroot. unfold content_length, m0. cbn [contentLengths]. rewrite lookup_singleton_eq. cbn.
      destruct Hty as [[_ ->]|[_ ->]]; [done|]. by intros [= <-]. }
  rewrite (scan_children _ n _ rel _ b) by (try done; destruct Hty as [[-> _]|[-> _]]; auto). fold p.
  destruct (copy_scan n p v Hwf Hp Hrep (children_items n p) [[]] [] m0) as (rl & m & Hscan & Hkeys & Hm & Hk & Hr & Hks & Hc).
  { exact Hm0. }
  { apply sorted_lt_NoDup, children_sorted. }
  { intros key x. by apply child_relative. }
  exists rl, m. split; [exact Hscan|]. intros df. rewrite Hks. change (keypaths m0) with [@nil byte].
  assert (∀ r, r ∈ rl ↔ is_Some (db_get n (Push p r)) ∧ r ≠ []) as Hrl.
  { intros r. rewrite <- (children_relative n p Hwf r), Hkeys, list_elem_of_fmap. split; [intros Hin; by exists r|].
    by intros (r' & ->%addKeyPrefix_inj%Push_inj & Hin). }
  destruct (addKeypaths_sorted [[]] rl) as [Hsort Hperm].
  { cbn. constructor; [intros Hin%Hrl; by apply Hin|]. apply (NoDup_fmap_1 (λ r, addKeyPrefix n (Push p r))). rewrite <- Hkeys. apply sorted_lt_NoDup, children_sorted. }
  { repeat constructor. }
  { intros q k _ Hq ->%list_elem_of_singleton Hbel. by destruct q. }
  apply (copied_as_frame _ _ _ _ (addKeypaths [[]] rl) df) in Hm.
  destruct (copied_tree n p v Hwf Hp Hrep _ _ Hm) as [Hmw Hmr]; [| |exact Hsort| |].
  - intros r. rewrite elem_of_app, elem_of_reverse, Hrl, list_elem_of_singleton. split.
    { intros [[Hs _] | ->]; [exact Hs|]. rewrite Push_nil_r. by exists b. }
    intros Hs. destruct (decide (r = [])); auto.
  - done.
  - intros r. cbn [keypaths with_diff with_tables]. rewrite Hperm, elem_of_app, elem_of_app, elem_of_reverse. naive_solver.
  - split; [exact Hmw| |cbn; by rewrite Hk|exact Hmr]. split; cbn; [by rewrite Hr|by rewrite Hc].
Qed.

Lemma db_CopyToMemory_spec {T} `{HL : BadgerLaws T} (n : DBNode T) rel v :
  let p := Push (rootKeypath n) rel in
  db_wf n → db_rng n = None → good_path p → db_represents n p v → keys_min v →
  ∃ t, db_CopyToMemory n rel None = Ret t ∧ copy_of t (widen_val v).
Proof.
  intros p Hwf Hr Hp Hrep Hmin. unfold db_CopyToMemory. rewrite Hr. cbn [merge_range obind]. fold p.
  pose proof (Hrep []) as Hs. rewrite Push_nil_r in Hs. unfold db_shape in Hs. change (txn_get (db_tx n) (addKeyPrefix n p)) with (db_get n p).
  destruct (db_get n p) as [b|] eqn:Hb; [|done]. cbn in Hs. destruct (stored_shape_decode b _ Hs) as (d & Hd & Hsh). rewrite Hd. cbn [obind ranged_length].
  destruct (widen_val v) as [s|kvs|l|[]] eqn:Hv; cbn in Hsh.
  - destruct Hsh as [Hnt Hdec]. rewrite decide_True, Hdec by done. cbn [obind].
    destruct (Set_spec tt (@NewMemoryNode Empty_set) [] (GScalar s)) as (t & -> & Hmw & (Hk & Hrg & Hc) & Hrp & _);
      [apply NewMemoryNode_wf|done|done|constructor|constructor|by split|apply keys_min_scalar|].
    exists t. split; [done|]. by split.
  - destruct (db_copy_container n rel v d b) as (new & m & Hscan & Hcopy); [done..|left; by rewrite Hv|]. fold p in Hscan.
    rewrite decide_False, (decide_True (P := dn_nodeType d = NodeTypeMap ∨ _)) by (rewrite Hsh; auto). rewrite Hscan. cbn [obind]. eexists. split; [done|]. rewrite <- Hv. apply Hcopy.
  - destruct Hsh as [Hsh Hlen]. destruct (db_copy_container n rel v d b) as (new & m & Hscan & Hcopy); [done..|right; rewrite Hv, Hlen; by split|]. fold p in Hscan.
    rewrite decide_False, (decide_True (P := dn_nodeType d = NodeTypeMap ∨ _)) by (rewrite Hsh; auto). rewrite Hscan. cbn [obind]. eexists. split; [done|]. rewrite <- Hv. apply Hcopy.
Qed.

(** ** Reading the copy *)

Lemma plain_induction (P : plain → Prop) :
  (∀ s, P (GScalar s)) → (∀ m, Forall (λ kv, P kv.2) m → P (GMap m)) → (∀ l, Forall P l → P (GSlice l)) → ∀ v, P v.
Proof.
  intros Hs Hm Hl. fix IH 1. intros [s|m|l|[]]; [apply Hs|apply Hm|apply Hl].
  - induction m as [|[k x] m IHm]; constructor; [apply IH|apply IHm].
  - induction l as [|x l IHl]; constructor; [apply IH|apply IHl].
Qed.

Lemma addressable_widen (v : plain) : addressable v → addressable (widen_val v).
Proof.
  induction v as [s|m IH|l IH] using plain_induction; intros Hv; [by split|..]; rewrite Forall_forall in IH.
  - destruct Hv as [[Hnd Hk]%keys_ok_map Hi%indexable_map]. rewrite Forall_forall in Hk, Hi. cbn [widen_val]. change (map ?f m) with (f <$> m).
    assert (∀ kv, kv ∈ m → addressable (widen_val kv.2)) as Hin by (intros kv Hin; apply IH; [done|]; split; [by apply Hk|by apply Hi]).
    split; [apply keys_ok_map; split; [by rewrite <- list_fmap_compose|]|apply indexable_map]; apply Forall_fmap, Forall_forall; intros kv Hkv; cbn.
    + split; [by apply Hk|by apply Hin].
    + by apply Hin.
  - destruct Hv as [Hk%keys_ok_slice [Hlen Hi]%indexable_slice]. rewrite Forall_forall in Hk, Hi. cbn [widen_val]. change (map ?f l) with (f <$> l).
    assert (∀ x, x ∈ l → addressable (widen_val x)) as Hin by (intros x Hin; apply IH; [done|]; split; auto).
    split; [apply keys_ok_slice|apply indexable_slice; split; [by rewrite length_fmap|]]; apply Forall_fmap, Forall_forall; intros x Hx; cbn; by apply Hin.
Qed.

(** A part of what a subtree holds is held by the part of the subtree. *)
Lemma represents_part {N} (t : MemoryNode N) k (v x : goval N) r : represents t k v → lookup_parts v (path_parts r) = Some x → represents t (Push k r) x.
Proof. intros Hrep Hx q. rewrite Push_assoc_all, Hrep. unfold shape_at. by rewrite path_parts_Push, lookup_parts_app, Hx. Qed.

Lemma db_represents_part {T} `{BadgerTxn T} (n : DBNode T) p v x r :
  db_represents n p v → lookup_parts v (path_parts r) = Some x → db_represents n (Push p r) x.
Proof.
  intros Hrep Hx q. rewrite Push_assoc_all, Hrep. unfold shape_at. rewrite path_parts_Push, lookup_parts_app, lookup_widen, Hx. done.
Qed.


Lemma state_a_holds : db_represents state_a (str "a") example_value.
Proof.
  destruct (db_Set_spec fresh_state (str "a") example_value fresh_state_wf fresh_settable) as (n' & Hs & _ & _ & Hr). unfold state_a. by rewrite Hs.
Qed.

