(* ===== verification/Tx.v ===== *)
(** * Transactions ([tx.go])

    A transaction changes a state by patches: a keypath, an optional range, and a value.
    [Tx_Hash] is what its author signs; [MarshalProto] is the form that is stored and sent.

    Two codecs are interfaces here.  [JsonCodec] is [encoding/json] on the values of
    patches; its laws say that a value it can carry comes back, that white space in front
    does not matter, and that the text it writes starts and ends with something else than
    white space.  [ProtoCodec] is the protobuf library on the generated message types,
    whose law is that a message it accepts comes back.  Both have an instance below. *)

From S2P Require Import Prelude Types Keypath TreeTypes GoValue.

(** ** [bytes.TrimSpace] *)

(** The UTF-8 forms of the characters that [unicode.IsSpace] accepts. *)
Definition space_forms : list bytes :=
  [[x09]; [x0a]; [x0b]; [x0c]; [x0d]; [x20]; [xc2; x85]; [xc2; xa0]; [xe1; x9a; x80]; [xe2; x80; xa8]; [xe2; x80; xa9];
   [xe2; x80; xaf]; [xe2; x81; x9f]; [xe3; x80; x80]] ++
  ((λ b, [xe2; x80; b]) <$> [x80; x81; x82; x83; x84; x85; x86; x87; x88; x89; x8a]).

(** The characters that [s] starts with, taken off one by one; [forms] are their bytes. *)
Fixpoint trim_forms (forms : list bytes) (fuel : nat) (s : bytes) : bytes :=
  match fuel with
  | O => s
  | S fuel =>
      match List.find (has_prefix s) forms with
      | Some f => trim_forms forms fuel (drop (length f) s)
      | None => s
      end
  end.

Definition TrimLeft (s : bytes) : bytes := trim_forms space_forms (length s) s.
Definition TrimRight (s : bytes) : bytes := reverse (trim_forms (reverse <$> space_forms) (length s) (reverse s)).
Definition TrimSpace (s : bytes) : bytes := TrimRight (TrimLeft s).

(** ** JSON *)

Class JsonCodec := {
  json_Marshal : plain → outcome bytes;
  json_Unmarshal : bytes → outcome plain
}.

Class JsonLaws `{JsonCodec} := {
  json_value : plain → Prop;       (* the values that come back as they were *)
  json_roundtrip v : json_value v → ∃ bs, json_Marshal v = Ret bs ∧ json_Unmarshal bs = Ret v;
  json_space bs : json_Unmarshal (" "%byte :: bs) = json_Unmarshal bs;
  json_ends v bs p : json_Marshal v = Ret bs → TrimRight (p ++ bs) = p ++ bs
}.

(** [DeepCopyJSValue] *)
Definition DeepCopyJSValue `{JsonCodec} (v : plain) : outcome plain :=
  match json_Marshal v with
  | Ret bs => match json_Unmarshal bs with Ret v' => Ret v' | Running => Running | _ => Panic end
  | Running => Running
  | _ => Panic
  end.

(** ** Patches *)

Record Patch := mkPatch { patch_Keypath : Keypath; patch_Range : option Range; patch_Val : plain }.

(** [fmt.Sprintf] of an [int64] with [%v]. *)
Definition FormatInt (z : Z) : bytes := if decide (z < 0)%Z then "-"%byte :: FormatUint (- z) else FormatUint z.

Definition dot : byte := "."%byte.

Definition key_String (key : bytes) : bytes :=
  if decide (-1 < IndexByte key dot)%Z then ["["; x22]%byte ++ key ++ [x22; "]"]%byte else dot :: key.

Definition range_String (r : option Range) : bytes :=
  match r with
  | Some r => str "[" ++ FormatInt (Start r) ++ str ":" ++ FormatInt (End_ r) ++ str "]"
  | None => []
  end.

Definition Patch_String `{JsonCodec} (p : Patch) : outcome bytes :=
  let s := concat (key_String <$> Parts (patch_Keypath p)) ++ range_String (patch_Range p) in
  match json_Marshal (patch_Val p) with
  | Ret val => Ret (s ++ str " = " ++ val)
  | Running => Running
  | _ => Panic
  end.

Definition Patch_Copy `{JsonCodec} (p : Patch) : outcome Patch :=
  let! v := DeepCopyJSValue (patch_Val p) in
  Ret (mkPatch (Copy (patch_Keypath p)) (Range_Copy (patch_Range p)) v).

(** ** Transactions *)

(** [type TxStatus string] *)
Definition TxStatus := bytes.
Definition TxStatusUnknown : TxStatus := [].
Definition TxStatusInMempool : TxStatus := str "in mempool".
Definition TxStatusInvalid : TxStatus := str "invalid".
Definition TxStatusValid : TxStatus := str "valid".

Record Tx := mkTx {
  tx_ID : ID;
  tx_Parents : list ID;
  tx_Children : list ID;
  tx_From : Address;
  tx_Sig : Signature;
  tx_StateURI : bytes;
  tx_Patches : list Patch;
  tx_Recipients : list Address;
  tx_Checkpoint : bool;
  tx_Attachment : bytes;
  tx_Status : TxStatus;
  tx_hash : Hash
}.

Definition GenesisTxID : ID := IDFromString "genesis".

Definition with_status (tx : Tx) (s : TxStatus) : Tx :=
  mkTx (tx_ID tx) (tx_Parents tx) (tx_Children tx) (tx_From tx) (tx_Sig tx) (tx_StateURI tx) (tx_Patches tx)
    (tx_Recipients tx) (tx_Checkpoint tx) (tx_Attachment tx) s (tx_hash tx).
Definition with_children (tx : Tx) (cs : list ID) : Tx :=
  mkTx (tx_ID tx) (tx_Parents tx) cs (tx_From tx) (tx_Sig tx) (tx_StateURI tx) (tx_Patches tx)
    (tx_Recipients tx) (tx_Checkpoint tx) (tx_Attachment tx) (tx_Status tx) (tx_hash tx).
Definition with_patches (tx : Tx) (ps : list Patch) : Tx :=
  mkTx (tx_ID tx) (tx_Parents tx) (tx_Children tx) (tx_From tx) (tx_Sig tx) (tx_StateURI tx) ps
    (tx_Recipients tx) (tx_Checkpoint tx) (tx_Attachment tx) (tx_Status tx) (tx_hash tx).
Definition with_recipients (tx : Tx) (rs : list Address) : Tx :=
  mkTx (tx_ID tx) (tx_Parents tx) (tx_Children tx) (tx_From tx) (tx_Sig tx) (tx_StateURI tx) (tx_Patches tx)
    rs (tx_Checkpoint tx) (tx_Attachment tx) (tx_Status tx) (tx_hash tx).

Section Hashing.
Context `{JsonCodec} (keccak256 : bytes → bytes).

(** The bytes that are hashed and signed. *)
Definition tx_bytes (tx : Tx) : outcome bytes :=
  let! ps := map_outcome Patch_String (tx_Patches tx) in
  Ret (tx_ID tx ++ concat (tx_Parents tx) ++ tx_StateURI tx ++ concat ps ++ concat (tx_Recipients tx)).

Definition Tx_Hash (tx : Tx) : outcome Hash :=
  if decide (tx_hash tx = EmptyHash) then let! bs := tx_bytes tx in Ret (HashBytes keccak256 bs)
  else Ret (tx_hash tx).

Definition IsPrivate (tx : Tx) : bool := bool_decide (0 < length (tx_Recipients tx)).

Definition Tx_Copy (tx : Tx) : outcome Tx :=
  let! ps := map_outcome Patch_Copy (tx_Patches tx) in
  Ret (mkTx (tx_ID tx) (tx_Parents tx) (tx_Children tx) (tx_From tx)
    (go_copy (replicate (length (tx_Sig tx)) x00) (tx_Sig tx)) (tx_StateURI tx) ps (tx_Recipients tx) (tx_Checkpoint tx)
    (go_copy (replicate (length (tx_Attachment tx)) x00) (tx_Attachment tx)) (tx_Status tx) (tx_hash tx)).

(** The key of a private state, and the argument as the call leaves it: sorted in place. *)
Definition PrivateRootKeyForRecipients (recipients : list Address) : bytes * list Address :=
  let recipients := sort_bytes 0 recipients in
  (str "private-" ++ Hash_Hex (HashBytes keccak256 (concat recipients)), recipients).

Definition PrivateRootKey (tx : Tx) : bytes * Tx :=
  let '(key, recipients) := PrivateRootKeyForRecipients (tx_Recipients tx) in (key, with_recipients tx recipients).
End Hashing.

(** ** The stored form *)

(** The message types of [pb/tx.proto]; an [any.Any] is used for its value only. *)
Record pbPatch := mkPbPatch { pb_Keypath : bytes; pb_Range : option (Z * Z); pb_Value : bytes }.
Record pbTx := mkPbTx {
  pb_Id : bytes;
  pb_Parents : list bytes;
  pb_Children : list bytes;
  pb_From : bytes;
  pb_Sig : bytes;
  pb_StateURI : bytes;
  pb_Patches : list pbPatch;
  pb_Recipients : list bytes;
  pb_Checkpoint : bool;
  pb_Attachment : bytes;
  pb_Status : bytes
}.

Class ProtoCodec := {
  proto_Marshal : pbTx → outcome bytes;
  proto_Unmarshal : bytes → outcome pbTx
}.

(** [proto_message] holds of the messages whose strings are valid UTF-8. *)
Class ProtoLaws `{ProtoCodec} := {
  proto_message : pbTx → Prop;
  proto_roundtrip m : proto_message m → ∃ bs, proto_Marshal m = Ret bs ∧ proto_Unmarshal bs = Ret m;
  proto_strings m m' :
    pb_StateURI m = pb_StateURI m' → pb_Status m = pb_Status m' → proto_message m → proto_message m'
}.

Section Proto.
Context `{JsonCodec} `{ProtoCodec}.

Definition pb_patch (p : Patch) : outcome pbPatch :=
  let! v := json_Marshal (patch_Val p) in
  Ret (mkPbPatch (patch_Keypath p) ((λ r, (Start r, End_ r)) <$> patch_Range p) v).

Definition to_pb (tx : Tx) : outcome pbTx :=
  let! patches := map_outcome pb_patch (tx_Patches tx) in
  Ret (mkPbTx (tx_ID tx) (tx_Parents tx) (tx_Children tx) (tx_From tx) (tx_Sig tx) (tx_StateURI tx) patches
    (tx_Recipients tx) (tx_Checkpoint tx) (tx_Attachment tx) (tx_Status tx)).

Definition MarshalProto (tx : Tx) : outcome bytes := let! m := to_pb tx in proto_Marshal m.

Definition of_pb_patch (p : pbPatch) : outcome Patch :=
  let! v := json_Unmarshal (pb_Value p) in
  Ret (mkPatch (pb_Keypath p) ((λ r, mkRange r.1 r.2) <$> pb_Range p) v).

(** The receiver is a fresh [Tx], whose [hash] is zero. *)
Definition UnmarshalProto (bs : bytes) : outcome Tx :=
  let! m := proto_Unmarshal bs in
  let! patches := map_outcome of_pb_patch (pb_Patches m) in
  Ret (mkTx (IDFromBytes (pb_Id m)) (IDFromBytes <$> pb_Parents m) (IDFromBytes <$> pb_Children m)
    (AddressFromBytes (pb_From m)) (pb_Sig m) (pb_StateURI m) patches (AddressFromBytes <$> pb_Recipients m)
    (pb_Checkpoint m) (pb_Attachment m) (pb_Status m) EmptyHash).
End Proto.

(** ** Instances of the codecs *)

(** A fragment of JSON: the constants. *)
Definition json_constants : list (bytes * plain) :=
  [(str "null", GScalar SNil); (str "true", GScalar (SBool true)); (str "false", GScalar (SBool false))].

#[export] Instance json_fragment : JsonCodec := {
  json_Marshal v :=
    match v with
    | GScalar SNil => Ret (str "null")
    | GScalar (SBool true) => Ret (str "true")
    | GScalar (SBool false) => Ret (str "false")
    | _ => Err (ErrOther "json: unsupported value")
    end;
  json_Unmarshal bs :=
    let bs := trim_forms [[" "%byte]] (length bs) bs in
    match List.find (λ kv, bool_decide (kv.1 = bs)) json_constants with
    | Some (_, v) => Ret v
    | None => Err (ErrOther "json: syntax error")
    end
}.

Lemma trim_forms_none forms fuel s : List.find (has_prefix s) forms = None → trim_forms forms fuel s = s.
Proof. intros Hf. destruct fuel; simpl; [done|]. by rewrite Hf. Qed.

Lemma find_none {A} (f : A → bool) l : Forall (λ x, f x = false) l → List.find f l = None.
Proof. induction 1 as [|x l Hx _ IH]; simpl; [done|]. by rewrite Hx. Qed.

(** A text whose last byte ends no white-space character is left alone. *)
Lemma TrimRight_id s b :
  Forall (λ f, last f ≠ Some b) space_forms → TrimRight (s ++ [b]) = s ++ [b].
Proof.
  intros Hb. unfold TrimRight. rewrite trim_forms_none; [apply reverse_involutive|].
  apply find_none. rewrite Forall_fmap. rewrite Forall_forall in Hb. apply Forall_forall. intros f Hf. simpl.
  rewrite reverse_app, reverse_singleton. simpl.
  assert (f ≠ []) as Hne.
  { revert Hf. clear. unfold space_forms. intros Hf ->. vm_compute in Hf. set_solver. }
  destruct (exists_last Hne) as (f' & c & ->). specialize (Hb _ Hf). rewrite last_snoc in Hb.
  rewrite reverse_app, reverse_singleton. simpl. by rewrite bool_decide_eq_false_2 by congruence.
Qed.

#[export] Instance json_fragment_laws : JsonLaws.
Proof.
  refine {| json_value := λ v, match v with GScalar SNil | GScalar (SBool _) => True | _ => False end |}.
  - intros [[| [] | | | | |]| | |]; try done; intros _; eexists; (split; [done|]); vm_compute; done.
  - intros bs. unfold json_Unmarshal, json_fragment. cbn [trim_forms length].
    by destruct bs.
  - intros v bs p Hm. assert (∃ q b, bs = q ++ [b] ∧ (b = "l"%byte ∨ b = "e"%byte)) as (q & b & -> & Hb).
    { destruct v as [[| [] | | | | |]| | |]; simpl in Hm; simplify_eq;
        [exists (str "nul"), "l"%byte|exists (str "tru"), "e"%byte|exists (str "fals"), "e"%byte]; auto. }
    rewrite (assoc_L (++)). apply TrimRight_id. destruct Hb as [-> | ->]; vm_decide.
Defined.

(** Messages as bit strings. *)
#[export] Instance pbPatch_eq_dec : EqDecision pbPatch.
Proof. solve_decision. Defined.
#[export] Instance pbTx_eq_dec : EqDecision pbTx.
Proof. solve_decision. Defined.
#[export] Instance pbPatch_countable : Countable pbPatch :=
  inj_countable' (λ p, (pb_Keypath p, pb_Range p, pb_Value p)) (λ '(k, r, v), mkPbPatch k r v) (λ '(mkPbPatch _ _ _), eq_refl).
#[export] Instance pbTx_countable : Countable pbTx.
Proof.
  refine (inj_countable'
    (λ m, (pb_Id m, pb_Parents m, pb_Children m, pb_From m, pb_Sig m, pb_StateURI m, pb_Patches m, pb_Recipients m,
           pb_Checkpoint m, pb_Attachment m, pb_Status m))
    (λ '(a, b, c, d, e, f, g, h, i, j, k), mkPbTx a b c d e f g h i j k) _).
  by intros [].
Defined.

Fixpoint positive_bits (p : positive) : bytes :=
  match p with xH => [] | xO p => "0"%byte :: positive_bits p | xI p => "1"%byte :: positive_bits p end.
Fixpoint bits_positive (bs : bytes) : positive :=
  match bs with
  | [] => xH
  | b :: bs => if decide (b = "0"%byte) then xO (bits_positive bs) else xI (bits_positive bs)
  end.

#[export] Instance proto_bits : ProtoCodec := {
  proto_Marshal m := Ret (positive_bits (encode m));
  proto_Unmarshal bs := match decode (bits_positive bs) with Some m => Ret m | None => Err (ErrOther "proto") end
}.

#[export] Instance proto_bits_laws : ProtoLaws.
Proof.
  refine {| proto_message := λ _, True |}; [|done]. intros m _. eexists. split; [done|]. simpl.
  assert (∀ p, bits_positive (positive_bits p) = p) as -> by (intros p; induction p; simpl; congruence).
  by rewrite decode_encode.
Defined.

(** ** Theorems *)

(** A transaction whose arrays have their proper lengths and whose values JSON carries. *)
Record tx_wf `{JsonLaws} (tx : Tx) : Prop := {
  tw_id : length (tx_ID tx) = id_length;
  tw_parents : Forall (λ id, length id = id_length) (tx_Parents tx);
  tw_children : Forall (λ id, length id = id_length) (tx_Children tx);
  tw_from : length (tx_From tx) = address_length;
  tw_recipients : Forall (λ a, length a = address_length) (tx_Recipients tx);
  tw_values : Forall (λ p, json_value (patch_Val p)) (tx_Patches tx)
}.

(** A transaction as it is read back: without the cached hash. *)
Definition uncached (tx : Tx) : Tx :=
  mkTx (tx_ID tx) (tx_Parents tx) (tx_Children tx) (tx_From tx) (tx_Sig tx) (tx_StateURI tx) (tx_Patches tx)
    (tx_Recipients tx) (tx_Checkpoint tx) (tx_Attachment tx) (tx_Status tx) EmptyHash.

Lemma map_array_from n l : Forall (λ x, length x = n) l → array_from n <$> l = l.
Proof. induction 1 as [|x l Hx _ IH]; [done|]. rewrite fmap_cons, IH. by rewrite array_from_id. Qed.

Lemma pb_patches_roundtrip `{JsonLaws} ps :
  Forall (λ p, json_value (patch_Val p)) ps →
  ∃ qs, map_outcome pb_patch ps = Ret qs ∧ map_outcome of_pb_patch qs = Ret ps.
Proof.
  induction 1 as [|p ps Hp _ (qs & Hqs & Hback)]; [by exists []|].
  destruct (json_roundtrip (patch_Val p) Hp) as (bs & Hm & Hu).
  eexists. cbn [map_outcome]. unfold pb_patch at 1. rewrite Hm. cbn [obind]. rewrite Hqs. cbn [obind]. split; [done|].
  cbn [map_outcome]. unfold of_pb_patch at 1. cbn [pb_Value pb_Keypath pb_Range]. rewrite Hu. cbn [obind].
  rewrite Hback. cbn [obind]. destruct p as [k r v]. simpl. do 3 f_equal. by destruct r as [[s e]|].
Qed.

Lemma MarshalProto_roundtrip `{JsonLaws} `{ProtoLaws} (tx : Tx) :
  tx_wf tx → (∀ m, to_pb tx = Ret m → proto_message m) →
  ∃ bs, MarshalProto tx = Ret bs ∧ UnmarshalProto bs = Ret (uncached tx).
Proof.
  intros [Hid Hpar Hch Hfrom Hrec Hval] Hm. destruct (pb_patches_roundtrip _ Hval) as (qs & Hqs & Hback).
  unfold to_pb in Hm. rewrite Hqs in Hm. cbn [obind] in Hm.
  destruct (proto_roundtrip _ (Hm _ eq_refl)) as (bs & Hbs & Hu). exists bs.
  unfold MarshalProto, to_pb, UnmarshalProto. rewrite Hqs. cbn [obind]. split; [done|]. rewrite Hu. cbn [obind pb_Patches].
  rewrite Hback. cbn [obind pb_Id pb_Parents pb_Children pb_From pb_Sig pb_StateURI pb_Recipients pb_Checkpoint pb_Attachment pb_Status].
  change (IDFromBytes <$> ?l) with (array_from id_length <$> l).
  change (AddressFromBytes <$> ?l) with (array_from address_length <$> l).
  rewrite !map_array_from by done. unfold IDFromBytes, AddressFromBytes. by rewrite !array_from_id.
Qed.

(** The stored form of a transaction: marshalling succeeds and unmarshalling gives the same
    transaction back, in every field but the cached hash. *)
Theorem tx_proto_roundtrip `{JsonLaws} `{ProtoLaws} (tx : Tx) :
  tx_wf tx → (∀ m, to_pb tx = Ret m → proto_message m) →
  ∃ bs, MarshalProto tx = Ret bs ∧ UnmarshalProto bs = Ret (uncached tx).
Proof. apply MarshalProto_roundtrip. Qed.

Definition example_tx : Tx :=
  mkTx (id_of 1) [GenesisTxID] [] (take 20 (id_of 5)) (str "sig") (str "foo.bar/baz")
    [mkPatch (str "a/b") (Some (mkRange 0 3)) (GScalar (SBool true))] [] false [] TxStatusInMempool EmptyHash.

Lemma tx_proto_roundtrip_witness :
  ∃ bs, MarshalProto example_tx = Ret bs ∧ UnmarshalProto bs = Ret (uncached example_tx).
Proof.
  apply (tx_proto_roundtrip example_tx).
  - split; [reflexivity|repeat constructor|constructor|reflexivity|constructor|repeat constructor].
  - intros m _. exact I.
Defined.

(** The key of a private state depends on who its recipients are and not on the order in
    which they are listed. *)
Theorem private_root_key_order (keccak256 : bytes → bytes) rs rs' :
  rs ≡ₚ rs' → (PrivateRootKeyForRecipients keccak256 rs).1 = (PrivateRootKeyForRecipients keccak256 rs').1.
Proof.
  intros Hp. unfold PrivateRootKeyForRecipients. cbn [fst]. do 4 f_equal.
  apply (StronglySorted_unique bytes_le); [apply sort_bytes_sorted..|]. by rewrite !sort_bytes_perm.
Qed.

Lemma private_root_key_order_witness :
  (PrivateRootKeyForRecipients (λ x, x) [str "b"; str "a"]).1 = (PrivateRootKeyForRecipients (λ x, x) [str "a"; str "b"]).1.
Proof. apply (private_root_key_order (λ x, x) [str "b"; str "a"] [str "a"; str "b"]). constructor. Defined.

(** What is signed does not determine the transaction: for every hash function there are
    transactions with the same hash that differ in their parents and state URI, and
    checkpoint flag, attachment, children and status do not enter the hash at all. *)
Theorem tx_hash_ambiguous `{JsonCodec} (keccak256 : bytes → bytes) :
  (∃ tx tx', tx_Parents tx ≠ tx_Parents tx' ∧ tx_StateURI tx ≠ tx_StateURI tx' ∧
     Tx_Hash keccak256 tx = Tx_Hash keccak256 tx') ∧
  (∀ id ps cs f sig uri pt rs cp att st cs' sig' cp' att' st',
     Tx_Hash keccak256 (mkTx id ps cs f sig uri pt rs cp att st EmptyHash) =
     Tx_Hash keccak256 (mkTx id ps cs' f sig' uri pt rs cp' att' st' EmptyHash)).
Proof.
  split; [|done].
  exists (mkTx (id_of 1) [id_of 2] [] [] [] [] [] [] false [] [] EmptyHash),
         (mkTx (id_of 1) [] [] [] [] (id_of 2) [] [] false [] [] EmptyHash).
  split_and!; [done|done|]. unfold Tx_Hash. rewrite !decide_True by done. done.
Qed.
