(* ===== verification/PatchParser.v ===== *)
(** * The patch syntax ([patch-parser.go])

    A patch in text form is a path of [.key] and ["key"] steps, an optional range [start:end]
    in brackets, an equals sign and a JSON value.  [ParsePatch] reads it; its loop makes no
    progress on a byte that starts none of these, so the model has fuel and the result
    [Running] when it is used up. *)

From S2P Require Import Prelude Types Keypath TreeTypes GoValue GoPaths Tx.

(** ** The pieces *)

(** [strconv.ParseInt(s, 10, 64)] *)
Definition ParseInt (s : bytes) : option Z :=
  match s with
  | c :: t =>
      if decide (c = "-"%byte) then
        u ← ParseUint t; if decide (u ≤ two63)%Z then Some (- u)%Z else None
      else
        u ← ParseUint (if decide (c = "+"%byte) then t else s);
        if decide (u < two63)%Z then Some u else None
  | [] => None
  end.

(** The bytes up to the first of the terminators (or the end), after the skipped ones. *)
Fixpoint take_until (stop : byte → bool) (s : bytes) : bytes :=
  match s with
  | [] => []
  | b :: s => if stop b then [] else b :: take_until stop s
  end.

Definition parseDotKey (s : bytes) : bytes :=
  take_until (λ b, bool_decide (b = dot ∨ b = "["%byte ∨ b = " "%byte)) (drop 1 s).

Fixpoint bracket_loop (s buf : bytes) : outcome bytes :=
  match s with
  | [] => Err ErrBadPatch
  | b :: s => if decide (b = x22) then Ret buf else bracket_loop s (buf ++ [b])
  end.

Definition parseBracketKey (s : bytes) : outcome bytes :=
  if decide (length s < 5) then Err ErrBadPatch
  else if decide (s !! 0 ≠ Some "["%byte ∧ s !! 1 ≠ Some x22) then Err ErrBadPatch
  else bracket_loop (drop 2 s) [].

(** [i] is the position of the head of [s]; [start] is the first number once read. *)
Fixpoint range_loop (s : bytes) (i : nat) (start : option Z) (buf : bytes) : outcome (Range * nat) :=
  match s with
  | [] => Err ErrBadPatch
  | b :: s =>
      if decide (b = "]"%byte) then
        match start with
        | None => Err ErrBadPatch
        | Some st => match ParseInt buf with Some e => Ret (mkRange st e, i + 1) | None => Err ErrBadPatch end
        end
      else if decide (b = ":"%byte) then
        match start with
        | Some _ => Err ErrBadPatch
        | None => match ParseInt buf with Some st => range_loop s (i + 1) (Some st) [] | None => Err ErrBadPatch end
        end
      else range_loop s (i + 1) start (buf ++ [b])
  end.

Definition parseRange (s : bytes) : outcome (Range * nat) := range_loop (drop 1 s) 1 None [].

Definition is_digit (b : byte) : bool := bool_decide (48 ≤ byte_to_Z b ≤ 57)%Z.

(** One step of the path at position [i] of [s]: the new keypath, range and position.  The
    position stays where it is when nothing matches. *)
Definition path_step (s : bytes) (i : nat) (kp : Keypath) (rng : option Range) :
    outcome (Keypath * option Range * nat) :=
  let rest := drop i s in
  match rest with
  | [] => Panic
  | c :: _ =>
      if decide (c = dot) then
        let key := parseDotKey rest in Ret (Push kp key, rng, i + (length key + 1))
      else if decide (c = "["%byte) then
        match rest !! 1 with
        | None => Panic
        | Some d =>
            if decide (d = x22 ∨ d = "'"%byte) then
              let! key := parseBracketKey rest in Ret (Push kp key, rng, i + (length key + 4))
            else if is_digit d then
              let! rl := parseRange rest in Ret (kp, Some rl.1, i + rl.2)
            else Ret (kp, rng, i)
        end
      else Ret (kp, rng, i)
  end.

(** [for s[i] != '=' { i++; ... }]: the position of the first equals sign. *)
Definition skip_to_equals (s : bytes) (i : nat) : outcome nat :=
  match index_byte "="%byte (drop i s) with Some j => Ret (i + j) | None => Err ErrBadPatch end.

(** ** [ParsePatch] *)

Fixpoint ParsePatch_loop `{JsonCodec} (fuel : nat) (s : bytes) (i : nat) (kp : Keypath) (rng : option Range) :
    outcome Patch :=
  match fuel with
  | O => Running
  | S fuel =>
      match s !! i with
      | None => Err ErrBadPatch
      | Some c =>
          if decide (c = " "%byte ∨ c = "="%byte) then
            let! i := skip_to_equals s i in
            match json_Unmarshal (drop (i + 1) s) with
            | Ret v => Ret (mkPatch kp rng v)
            | Err _ => Err ErrBadPatch
            | Panic => Panic
            | Running => Running
            end
          else
            let! r := path_step s i kp rng in
            let '(kp, rng, i) := r in ParsePatch_loop fuel s i kp rng
      end
  end.

Definition ParsePatch `{JsonCodec} (fuel : nat) (s : bytes) : outcome Patch :=
  ParsePatch_loop fuel (TrimSpace s) 0 [] None.

(** ** [ParsePatchPath] *)

Fixpoint ParsePatchPath_loop (fuel : nat) (s : bytes) (i : nat) (kp : Keypath) (rng : option Range) :
    outcome (bytes * Keypath * option Range) :=
  match fuel with
  | O => Running
  | S fuel =>
      if decide (i < length s) then
        let! r := path_step s i kp rng in
        let '(kp, rng, i) := r in ParsePatchPath_loop fuel s i kp rng
      else
        let! rest := slice s (Z.of_nat i) (Z.of_nat (length s)) in Ret (rest, kp, rng)
  end.

Definition ParsePatchPath (fuel : nat) (s : bytes) : outcome (bytes * Keypath * option Range) :=
  ParsePatchPath_loop fuel s 0 [] None.

(** ** Lemmas *)

Lemma parse_digits_digits acc s x : parse_digits acc s = Some x → Forall (λ b, is_digit b = true) s.
Proof.
  revert acc. induction s as [|b s IH]; intros acc; simpl; [constructor|].
  destruct (digit_val b) as [d|] eqn:Hd; simpl; [|done]. case_decide; [|done]. intros Hs. constructor; [|by eapply IH].
  apply digit_val_byte in Hd as [Hb Hd]. unfold is_digit. rewrite bool_decide_eq_true. lia.
Qed.

Lemma FormatUint_ok z :
  (0 ≤ z < two63)%Z →
  FormatUint z ≠ [] ∧ Forall (λ b, is_digit b = true) (FormatUint z) ∧ parse_digits 0 (FormatUint z) = Some z.
Proof.
  intros Hz. assert (parse_digits 0 (FormatUint z) = Some z) as Hp.
  { apply parse_format; unfold two63, two64 in *; lia. }
  split_and!; [by apply format_nonempty|by eapply parse_digits_digits|done].
Qed.

Lemma is_digit_not b c : is_digit b = true → is_digit c = false → b ≠ c.
Proof. intros Hb Hc ->. congruence. Qed.

Lemma ParseInt_Format z : (0 ≤ z < two63)%Z → ParseInt (FormatInt z) = Some z.
Proof.
  intros Hz. unfold FormatInt. rewrite decide_False by lia. destruct (FormatUint_ok z Hz) as (Hne & Hd & Hp).
  unfold ParseInt. destruct (FormatUint z) as [|b t]; [done|]. apply Forall_cons in Hd as [Hb _].
  rewrite decide_False by (by apply is_digit_not). rewrite decide_False by (by apply is_digit_not).
  unfold ParseUint. rewrite Hp. simpl. by rewrite decide_True by lia.
Qed.

(** Digits are collected until the separator. *)
Lemma range_loop_digits ds c s i st buf :
  Forall (λ b, is_digit b = true) ds →
  range_loop (ds ++ c :: s) i st buf = range_loop (c :: s) (i + length ds) st (buf ++ ds).
Proof.
  revert i buf. induction ds as [|d ds IH]; intros i buf Hd.
  { simpl app. by rewrite Nat.add_0_r, app_nil_r. }
  apply Forall_cons in Hd as [Hd Hds]. cbn [app range_loop].
  rewrite !decide_False by (by apply is_digit_not). rewrite IH by done.
  rewrite <- (assoc_L (++)). cbn [app length]. by rewrite <- Nat.add_assoc.
Qed.

Lemma parseRange_String r s :
  (0 ≤ Start r < two63)%Z → (0 ≤ End_ r < two63)%Z →
  parseRange (range_String (Some r) ++ s) = Ret (r, length (range_String (Some r))).
Proof.
  intros Hs He. unfold parseRange, range_String. destruct r as [st e]. simpl in Hs, He. cbn [Start End_].
  pose proof (ParseInt_Format st Hs) as Ps. pose proof (ParseInt_Format e He) as Pe.
  assert (∀ z, (0 ≤ z < two63)%Z → Forall (λ b, is_digit b = true) (FormatInt z)) as Hd.
  { intros z Hz. unfold FormatInt. rewrite decide_False by lia. apply FormatUint_ok, Hz. }
  rewrite <- !(assoc_L (++)). simpl.
  rewrite drop_0, range_loop_digits by auto. cbn [range_loop]. rewrite decide_False by done.
  rewrite decide_True, app_nil_l, Ps by done.
  rewrite range_loop_digits by auto. cbn [range_loop]. rewrite decide_True, app_nil_l, Pe by done.
  do 2 f_equal. rewrite length_app. cbn [length]. rewrite length_app. simpl. lia.
Qed.

(** The keys whose printed form is read back: a key with a dot is quoted and must hold no
    quote, another one must hold no bracket and no space. *)
Definition printable_key (key : bytes) : Prop :=
  good_key key ∧ if decide (dot ∈ key) then x22 ∉ key else "["%byte ∉ key ∧ " "%byte ∉ key.

#[export] Instance printable_key_dec key : Decision (printable_key key).
Proof. unfold printable_key, good_key, no_sep. case_decide; apply _. Defined.

Definition ends_key (tail : bytes) : Prop :=
  ∃ c t, tail = c :: t ∧ (c = dot ∨ c = "["%byte ∨ c = " "%byte).

Lemma take_until_stop stop key c t :
  Forall (λ b, stop b = false) key → stop c = true → take_until stop (key ++ c :: t) = key.
Proof. induction 1 as [|b key Hb _ IH]; intros Hc; simpl; [by rewrite Hc|]. by rewrite Hb, IH. Qed.

Lemma bracket_loop_key key t buf : x22 ∉ key → bracket_loop (key ++ x22 :: t) buf = Ret (buf ++ key).
Proof.
  revert buf. induction key as [|b key IH]; intros buf Hq; simpl; [by rewrite app_nil_r|].
  apply not_elem_of_cons in Hq as [Hb Hq]. rewrite decide_False by done. rewrite IH by done. by rewrite <- (assoc_L (++)).
Qed.

Lemma key_String_dot key : key_String key = if decide (dot ∈ key) then ["["; x22]%byte ++ key ++ [x22; "]"]%byte else dot :: key.
Proof.
  unfold key_String, IndexByte. destruct (index_byte dot key) as [i|] eqn:Hi.
  - rewrite decide_True by lia. rewrite decide_True; [done|]. apply index_byte_Some in Hi as (p & q & -> & _). set_solver.
  - rewrite decide_False by lia. rewrite decide_False; [done|]. by apply index_byte_None.
Qed.

Lemma path_step_key pre key tail kp rng :
  printable_key key → ends_key tail →
  path_step (pre ++ key_String key ++ tail) (length pre) kp rng =
    Ret (Push kp key, rng, length (pre ++ key_String key)).
Proof.
  intros [[Hne _] Hk] (c & t & -> & Hc). unfold path_step. rewrite drop_app_length, key_String_dot.
  destruct (decide (dot ∈ key)) as [Hdot|Hdot].
  - cbn [app]. rewrite decide_False by done. rewrite decide_True by done. cbn [lookup list_lookup].
    rewrite decide_True by auto.
    assert (parseBracketKey ("["%byte :: x22 :: (key ++ [x22; "]"%byte]) ++ c :: t) = Ret key) as ->.
    { unfold parseBracketKey. rewrite decide_False by (destruct key; [done|]; simpl; rewrite !length_app; simpl; lia).
      rewrite decide_False by (intros [? _]; done). simpl. rewrite <- (assoc_L (++)). by apply bracket_loop_key. }
    cbn [obind]. do 2 f_equal. rewrite !length_app. simpl. rewrite length_app. simpl. lia.
  - cbn [app]. rewrite decide_True by done.
    assert (parseDotKey (dot :: key ++ c :: t) = key) as ->.
    { unfold parseDotKey. simpl. rewrite drop_0. destruct Hk as [Hk1 Hk2]. apply take_until_stop.
      - apply Forall_forall. intros b Hb. apply bool_decide_eq_false. intros [->|[->| ->]]; done.
      - by apply bool_decide_eq_true. }
    do 2 f_equal. rewrite !length_app. simpl. lia.
Qed.

Lemma key_String_head key : ∃ c t, key_String key = c :: t ∧ (c = dot ∨ c = "["%byte).
Proof. unfold key_String. case_decide; simpl; eauto. Qed.

Lemma path_byte c : (c = dot ∨ c = "["%byte) → ¬ (c = " "%byte ∨ c = "="%byte).
Proof. by intros [-> | ->] [|]. Qed.

Section Loop.
Context `{JsonLaws}.

Lemma loop_step fuel s i kp rng c kp' rng' i' :
  s !! i = Some c → c = dot ∨ c = "["%byte → path_step s i kp rng = Ret (kp', rng', i') →
  ParsePatch_loop (S fuel) s i kp rng = ParsePatch_loop fuel s i' kp' rng'.
Proof.
  intros Hc Hp Hs. cbn [ParsePatch_loop]. rewrite Hc, decide_False by (by apply path_byte). by rewrite Hs.
Qed.

Lemma loop_keys parts pre tail kp rng fuel :
  Forall printable_key parts → ends_key tail →
  let s := pre ++ concat (key_String <$> parts) ++ tail in
  ParsePatch_loop (length parts + fuel) s (length pre) kp rng =
  ParsePatch_loop fuel s (length (pre ++ concat (key_String <$> parts))) (foldl Push kp parts) rng.
Proof.
  intros Hps Ht. revert pre kp. induction Hps as [|key parts Hkey Hps IH]; intros pre kp s.
  { simpl. by rewrite app_nil_r. }
  assert (s = (pre ++ key_String key) ++ concat (key_String <$> parts) ++ tail) as Hs.
  { unfold s. rewrite fmap_cons. simpl. by rewrite <- !(assoc_L (++)). }
  assert (ends_key (concat (key_String <$> parts) ++ tail)) as Htail.
  { destruct parts as [|k parts]; [done|]. destruct (key_String_head k) as (c & t & Hk & Hc).
    rewrite fmap_cons. simpl. rewrite Hk. exists c. eexists. split; [done|]. tauto. }
  destruct (key_String_head key) as (c & t & Hkc & Hc).
  cbn [length Nat.add]. rewrite (loop_step _ s (length pre) kp rng c (Push kp key) rng (length (pre ++ key_String key))).
  - rewrite Hs. rewrite (IH (pre ++ key_String key) (Push kp key)). rewrite fmap_cons. simpl.
    by rewrite (assoc_L (++) pre (key_String key) (concat _)).
  - unfold s. rewrite fmap_cons. simpl. rewrite Hkc. by rewrite lookup_app_r, Nat.sub_diag by done.
  - done.
  - rewrite Hs, <- (assoc_L (++)). by apply path_step_key.
Qed.

Definition range_printable (r : option Range) : Prop :=
  match r with Some r => (0 ≤ Start r < two63)%Z ∧ (0 ≤ End_ r < two63)%Z | None => True end.

Lemma loop_value pre bs kp rng fuel v :
  json_Unmarshal bs = Ret v →
  ParsePatch_loop (S fuel) (pre ++ str " = " ++ bs) (length pre) kp rng = Ret (mkPatch kp rng v).
Proof.
  intros Hv. assert ((pre ++ str " = " ++ bs) !! length pre = Some " "%byte) as Hc
    by (by rewrite lookup_app_r, Nat.sub_diag by done).
  cbn [ParsePatch_loop]. rewrite Hc, decide_True by auto.
  assert (skip_to_equals (pre ++ str " = " ++ bs) (length pre) = Ret (length pre + 1)) as ->
    by (unfold skip_to_equals; by rewrite drop_app_length).
  cbn [obind]. rewrite <- Nat.add_assoc, drop_app_add. change (drop (1 + 1) (str " = " ++ bs)) with (" "%byte :: bs).
  by rewrite json_space, Hv.
Qed.
Lemma loop_tail pre r bs kp fuel v :
  range_printable r → json_Unmarshal bs = Ret v → 2 ≤ fuel →
  ParsePatch_loop fuel (pre ++ range_String r ++ str " = " ++ bs) (length pre) kp None = Ret (mkPatch kp r v).
Proof.
  intros Hr Hv Hf. destruct fuel as [|[|fuel]]; [lia..|]. destruct r as [r|]; [|by apply loop_value].
  destruct Hr as [Hs He].
  rewrite (loop_step _ _ _ kp None "["%byte kp (Some r) (length (pre ++ range_String (Some r)))).
  - rewrite (assoc_L (++)). by apply loop_value.
  - by rewrite lookup_app_r, Nat.sub_diag by done.
  - by right.
  - unfold path_step. rewrite drop_app_length. set (tail := str " = " ++ bs).
    assert (∃ d t, range_String (Some r) ++ tail = "["%byte :: d :: t ∧ is_digit d = true) as (d & t & Hrt & Hd).
    { unfold range_String, FormatInt. rewrite decide_False by lia.
      destruct (FormatUint_ok (Start r) Hs) as (Hne & Hdig & _). destruct (FormatUint (Start r)) as [|d t]; [done|].
      apply Forall_cons in Hdig as [Hd _]. simpl. eauto. }
    rewrite Hrt. rewrite decide_False by done. rewrite decide_True by done. cbn [lookup list_lookup].
    rewrite decide_False by (intros [-> | ->]; done). rewrite Hd, <- Hrt, parseRange_String by done. cbn [obind fst snd].
    by rewrite length_app.
Qed.
End Loop.

Lemma TrimLeft_id b s : Forall (λ f, head f ≠ Some b) space_forms → TrimLeft (b :: s) = b :: s.
Proof.
  intros Hb. apply trim_forms_none, find_none. rewrite Forall_forall in *. intros f Hf.
  specialize (Hb f Hf). assert (f ≠ []) by (intros ->; clear Hb; vm_compute in Hf; set_solver).
  destruct f as [|c f]; [done|]. simpl. rewrite bool_decide_eq_false_2; [done|]. simpl in Hb. congruence.
Qed.

(** ** Theorems *)

(** The patches whose text form determines them. *)
Record patch_printable `{JsonLaws} (p : Patch) : Prop := {
  pp_keys : Forall printable_key (path_parts (patch_Keypath p));
  pp_range : range_printable (patch_Range p);
  pp_value : json_value (patch_Val p)
}.

Lemma Parts_path_parts k : Parts k = path_parts k.
Proof. unfold path_parts. case_decide as Hk; [by subst|]. by apply Parts_split. Qed.

Lemma pushes_path_parts k : good_path k → foldl Push [] (path_parts k) = k.
Proof. intros Hk. apply path_parts_inj. by rewrite path_parts_pushes. Qed.

Lemma TrimSpace_path (s : bytes) (c : byte) t :
  s = c :: t → c = dot ∨ c = "["%byte → TrimRight s = s → TrimSpace s = s.
Proof.
  intros -> Hc Hr. unfold TrimSpace. rewrite TrimLeft_id; [done|].
  destruct Hc as [-> | ->]; vm_decide.
Qed.

Lemma TrimSpace_value `{JsonLaws} v bs : json_Marshal v = Ret bs → TrimSpace (str " = " ++ bs) = str "= " ++ bs.
Proof.
  intros Hm. unfold TrimSpace, TrimLeft.
  change (trim_forms space_forms (length (str " = " ++ bs)) (str " = " ++ bs))
    with (trim_forms space_forms (S (S (length bs))) ("="%byte :: " "%byte :: bs)).
  rewrite trim_forms_none by reflexivity. exact (json_ends v bs (str "= ") Hm).
Qed.

Lemma parse_printed `{JsonLaws} (p : Patch) :
  patch_printable p →
  ∃ s, Patch_String p = Ret s ∧ ∀ fuel, length s < fuel → ParsePatch fuel s = Ret p.
Proof.
  intros [Hk Hr Hv]. destruct (json_roundtrip _ Hv) as (bs & Hm & Hu). unfold Patch_String. rewrite Hm, Parts_path_parts.
  set (parts := path_parts (patch_Keypath p)) in *. eexists. split; [done|]. intros fuel Hf.
  assert (good_path (patch_Keypath p)) as Hgood.
  { unfold good_path. fold parts. eapply Forall_impl; [exact Hk|]. by intros ? [? _]. }
  set (s := (concat (key_String <$> parts) ++ range_String (patch_Range p)) ++ str " = " ++ bs) in *.
  assert (length parts + 2 ≤ fuel) as Hfuel.
  { assert (length parts ≤ length (concat (key_String <$> parts))) as Hl.
    { clear. induction parts as [|k parts IH]; [done|]. rewrite fmap_cons. simpl. rewrite length_app.
      destruct (key_String_head k) as (? & ? & -> & _). simpl. lia. }
    unfold s in Hf. rewrite !length_app in Hf. simpl in Hf. lia. }
  destruct p as [kp rng v]. cbn [patch_Keypath patch_Range patch_Val] in *.
  destruct (decide (parts = [] ∧ rng = None)) as [[Hp ->]|Hne].
  - assert (kp = []) as -> by (apply path_parts_inj; exact Hp).
    unfold ParsePatch. replace s with (str " = " ++ bs) by (unfold s; by rewrite Hp). rewrite (TrimSpace_value v) by done.
    destruct fuel as [|fuel]; [lia|]. cbn [ParsePatch_loop app str String.list_byte_of_string lookup list_lookup].
    unfold skip_to_equals. simpl. by rewrite json_space, Hu.
  - unfold ParsePatch. assert (TrimSpace s = s) as ->.
    { assert (∃ c t, s = c :: t ∧ (c = dot ∨ c = "["%byte)) as (c & t & Hs & Hc).
      { unfold s. destruct parts as [|k parts]; [destruct rng as [r|]; [|tauto]; simpl; eauto|].
        destruct (key_String_head k) as (c & t & Hkc & Hc). rewrite fmap_cons. simpl. rewrite Hkc. simpl. eauto. }
      apply (TrimSpace_path s c t Hs Hc). unfold s. rewrite (assoc_L (++) _ (str " = ")). by apply (json_ends v). }
    replace s with ([] ++ concat (key_String <$> parts) ++ range_String rng ++ str " = " ++ bs)
      by (unfold s; by rewrite <- (assoc_L (++))).
    replace fuel with (length parts + (fuel - length parts)) by lia.
    change 0 with (length (@nil byte)). rewrite loop_keys by (try done; destruct rng; simpl; eexists _, _; auto).
    assert (foldl Push [] parts = kp) as -> by (by apply pushes_path_parts).
    cbn [app]. apply loop_tail; [done|done|lia].
Qed.

(** C40: Printing a patch and parsing the text gives the patch back: for keypaths whose keys
    contain a dot and no quote, or no dot, bracket and space, ranges that are not negative
    and values that JSON carries, the text is parsed completely, whatever fuel beyond its
    length the loop has. *)
Theorem patch_roundtrip `{JsonLaws} (p : Patch) :
  patch_printable p →
  ∃ s, Patch_String p = Ret s ∧ ∀ fuel, length s < fuel → ParsePatch fuel s = Ret p.
Proof. apply parse_printed. Qed.

Lemma patch_roundtrip_witness :
  ∃ s, Patch_String (mkPatch (str "a/b.c") (Some (mkRange 0 3)) (GScalar (SBool true))) = Ret s ∧
    ∀ fuel, length s < fuel → ParsePatch fuel s = Ret (mkPatch (str "a/b.c") (Some (mkRange 0 3)) (GScalar (SBool true))).
Proof.
  apply (patch_roundtrip (mkPatch (str "a/b.c") (Some (mkRange 0 3)) (GScalar (SBool true)))). split.
  - vm_decide.
  - simpl. unfold two63. lia.
  - exact I.
Defined.

(** A text with a negative range is never parsed: the loop stands still at the bracket,
    whatever fuel it has; and it does not come back from any other byte that starts no
    step either. *)
Theorem patch_parser_stuck `{JsonCodec} fuel s i kp rng c :
  s !! i = Some c → c ≠ " "%byte → c ≠ "="%byte → c ≠ dot →
  (c = "["%byte → ∃ d, s !! (i + 1) = Some d ∧ d ≠ x22 ∧ d ≠ "'"%byte ∧ is_digit d = false) →
  ParsePatch_loop fuel s i kp rng = Running.
Proof.
  intros Hc H1 H2 H3 H4. induction fuel as [|fuel IH]; [done|]. cbn [ParsePatch_loop].
  rewrite Hc, decide_False by naive_solver.
  assert (path_step s i kp rng = Ret (kp, rng, i)) as ->; [|exact IH].
  unfold path_step. rewrite (drop_S s c i Hc). rewrite decide_False by done. case_decide as Hb; [|done].
  destruct (H4 Hb) as (d & Hd & Hq & Hs & Hdig). change ((c :: drop (S i) s) !! 1) with (drop (S i) s !! 0). rewrite lookup_drop.
  replace (S i + 0) with (i + 1) by lia. rewrite Hd, decide_False by naive_solver. by rewrite Hdig.
Qed.

Lemma patch_parser_stuck_witness : ParsePatch 100 (str ".a[-3:-1] = null") = Running.
Proof.
  change (ParsePatch 100 (str ".a[-3:-1] = null")) with (ParsePatch_loop 99 (str ".a[-3:-1] = null") 2 (str "a") None).
  apply (patch_parser_stuck 99 (str ".a[-3:-1] = null") 2 (str "a") None "["%byte); [reflexivity|discriminate..|].
  intros _. exists "-"%byte. split; [reflexivity|]. split; [discriminate|]. split; [discriminate|reflexivity].
Defined.

(** A key with a space in it is cut at the space when its patch is printed and parsed. *)
Example patch_space_lost :
  (let! s := Patch_String (mkPatch (str "a b") None (GScalar SNil)) in ParsePatch 100 s) =
  Ret (mkPatch (str "a") None (GScalar SNil)).
Proof. vm_compute. reflexivity. Qed.

(** [ParsePatchPath] panics on an unfinished bracket. *)
Example patch_path_panics : ParsePatchPath 100 (str "[" ++ [x22] ++ str "ab" ++ [x22]) = Panic.
Proof. vm_compute. reflexivity. Qed.
