(* ===== verification/Scan.v ===== *)
(** * Scanning a subtree into a Go value ([Scan] of [tree/tree.badger.go])

    [Scan] fills a variable of a Go type from the node it is called on: the basic types from
    the typed readers, structs field by field, maps, slices and arrays from the direct
    children.  The code dispatches on the type by reflection; here a [gotype] describes the
    type, an [obj] is a value of it, and [Scan] takes the variable's old value and returns the
    new one.  The fields of a struct are listed by their names in the tree ([tree] tags).  No
    type of the program implements [Scanner].  The keys of a map are converted by
    [convertKeypathToType] of [tree/util.go].

    [stored] is the value that a typed value stands for in a tree; the theorem is that what
    was stored is scanned back. *)

From S2P Require Import Prelude Types Keypath TreeTypes GoValue GoPaths NodeCodec MemoryProps BadgerTxn DBNode DBProps DBClaims DBCopy Tx PatchParser.

(** ** Types and values *)

(** The kinds of map keys; [int] and [uint] have 64 bits. *)
Inductive keykind := KeyUint (bits : Z) | KeyInt (bits : Z) | KeyString | KeyByteSlice | KeyByteArray (len : nat) | KeyOther.
Inductive keyval := KUint (z : Z) | KInt (z : Z) | KString (s : bytes) | KBytes (b : bytes).
#[export] Instance keyval_eq_dec : EqDecision keyval.
Proof. solve_decision. Defined.

(** The types in the order of the code: those of the type switch, then those found by
    reflection.  [TNamedBytes] is a slice of bytes that is not [[]byte]. *)
Inductive gotype :=
  | TString | TBytes | TBool | TUint64 | TInt64 | TFloat64 | TMapAny | TSliceAny
  | TMap (key : keykind) (elem : gotype)
  | TStruct (fields : list (bytes * gotype))
  | TNamedBytes | TSlice (elem : gotype)
  | TByteArray (len : nat) | TArray (len : nat) (elem : gotype)
  | TOther.

(** Maps and slices may be nil. *)
Inductive obj :=
  | OString (s : bytes) | OBytes (b : option bytes) | OBool (b : bool) | OUint (z : Z) | OInt (z : Z) | OFloat (bits : Z)
  | OMapAny (m : option (list (bytes * plain))) | OSliceAny (l : option (list plain))
  | OMap (m : option (list (keyval * obj)))
  | OStruct (fields : list obj)
  | OSlice (l : option (list obj))
  | OByteArray (b : bytes) | OArray (l : list obj)
  | OOther.

(** The zero value ([reflect.New]). *)
Fixpoint zero (t : gotype) : obj :=
  match t with
  | TString => OString [] | TBytes | TNamedBytes => OBytes None | TBool => OBool false | TUint64 => OUint 0 | TInt64 => OInt 0 | TFloat64 => OFloat 0
  | TMapAny => OMapAny None | TSliceAny => OSliceAny None
  | TMap _ _ => OMap None
  | TStruct fields => OStruct (map (λ '(_, t), zero t) fields)
  | TSlice _ => OSlice None
  | TByteArray len => OByteArray (replicate len x00)
  | TArray len elem => OArray (replicate len (zero elem))
  | TOther => OOther
  end.

Definition ErrSyntax : error := ErrOther "invalid syntax".
Definition parsed (f : Z → keyval) (z : option Z) (ok : Z → bool) : outcome keyval :=
  match z with Some z => if ok z then Ret (f z) else Err ErrSyntax | None => Err ErrSyntax end.

(** The named types of a kind have its values, so the conversion at the end keeps the value. *)
Definition convertKeypathToType (kp : Keypath) (typ : keykind) : outcome keyval :=
  match typ with
  | KeyUint bits => parsed KUint (ParseUint kp) (λ u, bool_decide (u < 2 ^ bits)%Z)
  | KeyInt bits => parsed KInt (ParseInt kp) (λ i, bool_decide (- 2 ^ (bits - 1) ≤ i < 2 ^ (bits - 1))%Z)
  | KeyString => Ret (KString kp)
  | KeyByteSlice => Ret (KBytes kp)
  | KeyByteArray len => Ret (KBytes (go_copy (replicate len x00) kp))
  | KeyOther => Err (ErrOther "could not convert tree.Keypath")
  end.

(** [SetMapIndex] *)
Fixpoint set_entry (k : keyval) (x : obj) (m : list (keyval * obj)) : list (keyval * obj) :=
  match m with
  | [] => [(k, x)]
  | (k', y) :: m => if decide (k' = k) then (k, x) :: m else (k', y) :: set_entry k x m
  end.

(** ** [Scan] *)

Section Scan.
Context {T : Type} `{BadgerTxn T}.

(** The error reads the types of the node for its message. *)
Definition makeScanError {A} (n : DBNode T) : outcome A :=
  match db_NodeInfo n [] with Panic => Panic | Running => Running | _ => Err ErrWrongType end.

Definition scan_value {A} (n : DBNode T) (read : DBNode T → Keypath → outcome (option A)) (set : A → obj) : outcome obj :=
  let! x := read n [] in
  match x with Some x => Ret (set x) | None => makeScanError n end.

(** The node of an iterator over [n] that stands at [k]. *)
Definition iter_node (n : DBNode T) (k : Keypath) : DBNode T := mkDBNode (db_tx n) None (keyPrefix n) k None false.

(** The loop over the direct children. *)
Fixpoint children_loop {S} (n : DBNode T) (body : S → DBNode T → outcome S) (fuel : nat) (it : dbChildIterator T) (s : S) : outcome S :=
  match fuel with
  | O => Running
  | S fuel =>
      if di_Valid (dci_iter it) then
        match di_Node (dci_iter it) with
        | None => Panic
        | Some k => let! s := body s (iter_node n k) in let! it := dci_Next it in children_loop n body fuel it s
        end
      else Ret s
  end.

Definition each_child {S} (n : DBNode T) (body : S → DBNode T → outcome S) (s : S) : outcome S :=
  let! it := dci_Rewind (db_ChildIterator n []) in
  children_loop n body (scan_fuel (db_tx n)) it s.

(** The loops of the slice and the array: [Index] panics when there are more children than
    elements. *)
Definition scan_elems (scan : DBNode T → outcome obj) (n : DBNode T) (l : list obj) : outcome (list obj) :=
  let! res := each_child n (λ '(l, i) node,
      let! val := scan node in
      if decide (i < length l) then Ret (<[i := val]> l, S i) else Panic) (l, 0) in
  Ret (fst res).

Fixpoint Scan (t : gotype) (n : DBNode T) (into : obj) : outcome obj :=
  match t, into with
  | TString, _ => scan_value n db_StringValue OString
  | TBytes, _ => scan_value n db_BytesValue (OBytes ∘ Some)
  | TBool, _ => scan_value n db_BoolValue OBool
  | TUint64, _ => scan_value n db_UintValue OUint
  | TInt64, _ => scan_value n db_IntValue OInt
  | TFloat64, _ => scan_value n db_FloatValue OFloat
  | TMapAny, _ => scan_value n db_MapValue (OMapAny ∘ Some)
  | TSliceAny, _ => scan_value n db_SliceValue (OSliceAny ∘ Some)
  | TMap keyType elemType, OMap m =>
      let! m := each_child n (λ m node,
        let! val := Scan elemType node (zero elemType) in
        let! rKey := convertKeypathToType (snd (Pop (rootKeypath node))) keyType in
        Ret (set_entry rKey val m)) (default [] m) in
      Ret (OMap (Some m))
  | TStruct fields, OStruct objs =>
      let! objs := (fix scan_fields (fields : list (bytes * gotype)) (objs : list obj) : outcome (list obj) :=
        match fields, objs with
        | (name, t) :: fields, o :: objs =>
            let! o := Scan t (db_NodeAt n name None) o in
            let! objs := scan_fields fields objs in
            Ret (o :: objs)
        | [], [] => Ret []
        | _, _ => Panic
        end) fields objs in
      Ret (OStruct objs)
  | TNamedBytes, _ =>
      let! b := db_BytesValue n [] in
      match b with Some b => Ret (OBytes (Some b)) | None => Panic end
  | TSlice elemType, OSlice l =>
      let! l := match l with
                | None => let! len := db_Length n in Ret (replicate (Z.to_nat len) (zero elemType))
                | Some l => Ret l
                end in
      let! l := scan_elems (λ node, Scan elemType node (zero elemType)) n l in
      Ret (OSlice (Some l))
  | TByteArray _, OByteArray old =>
      let! b := db_BytesValue n [] in
      match b with Some b => Ret (OByteArray (go_copy old b)) | None => Panic end
  | TArray _ elemType, OArray l =>
      let! l := scan_elems (λ node, Scan elemType node (zero elemType)) n l in
      Ret (OArray l)
  | TOther, _ => makeScanError n
  | _, _ => Panic   (* the variable has its type *)
  end.
End Scan.

(** ** The loop over the children *)

Section Children.
Context {T : Type} `{HL : BadgerLaws T}.
Context (n : DBNode T).

Definition item_keypath (kv : bytes * bytes) : Keypath := drop (length (keyPrefix n)) kv.1.
Definition direct (parts : nat) (kv : bytes * bytes) : Prop := NumParts (item_keypath kv) = parts + 1.
#[local] Instance direct_dec parts kv : Decision (direct parts kv).
Proof. unfold direct. apply _. Defined.

(** The iterator over [n] stands at the items [L], before [l3]. *)
Record stands (it : dbIterator T) (L l3 : list (bytes * bytes)) : Prop := {
  sd_items : standing it L l3;
  sd_node : di_node it = n;
  sd_current : ∀ kv, head L = Some kv → di_current it = item_keypath kv;
  sd_short : length L ≤ length (bi_snapshot (di_iter it))
}.

Lemma next_snapshot (it it' : dbIterator T) : di_Next it = Ret it' → bi_snapshot (di_iter it') = bi_snapshot (di_iter it).
Proof.
  unfold di_Next, di_setNode, with_iter. destruct (di_rootItem it).
  - cbn. destruct (negb _); cbn.
    + destruct (negb _); cbn; [by intros [= <-]|]. destruct (Item _) as [[? ?]|]; [|done]. destruct (rmKeyPrefix _ _); by intros [= <-].
    + destruct (rmKeyPrefix _ _); cbn; [|done..]. case_decide; cbn; (destruct (negb _); cbn; [by intros [= <-]|]; destruct (Item _) as [[? ?]|]; [|done]; destruct (rmKeyPrefix _ _); by intros [= <-]).
  - cbn. destruct (negb _); cbn; [by intros [= <-]|]. destruct (Item _) as [[? ?]|]; [|done]. destruct (rmKeyPrefix _ _); by intros [= <-].
Qed.

Lemma stands_next it kv L l3 : stands it (kv :: L) l3 → ∃ it', di_Next it = Ret it' ∧ stands it' L l3.
Proof.
  intros [Hst Hn Hc Hs]. destruct (standing_next it kv L l3 Hst) as (it' & Hnext & Hst' & Hk & Hn' & _). exists it'. split; [done|].
  split; [done|congruence| |rewrite (next_snapshot _ _ Hnext); cbn in Hs; lia].
  intros [k v] Hh. specialize (Hk k v Hh). rewrite Hn in Hk. unfold item_keypath. cbn. by rewrite <- Hk, drop_app_length.
Qed.

Lemma stands_node it kv L l3 : stands it (kv :: L) l3 → di_Valid it = true ∧ di_Node it = Some (item_keypath kv).
Proof.
  intros [Hst Hn Hc _]. unfold di_Node. rewrite (standing_valid it _ l3 Hst), bool_decide_eq_false_2 by done. cbn. by rewrite (Hc kv).
Qed.

Lemma stands_end it l3 : stands it [] l3 → di_Valid it = false.
Proof. intros [Hst _ _ _]. by rewrite (standing_valid it _ l3 Hst), bool_decide_eq_true_2. Qed.

(** [dci_loop] goes on to the next direct child. *)
Lemma dci_loop_run parts fuel : ∀ it L l3, stands it L l3 → length L < fuel →
  ∃ it' L', dci_loop fuel parts it = Ret it' ∧ stands it' L' l3 ∧ length L' ≤ length L ∧ filter (direct parts) L' = filter (direct parts) L ∧
    match L' with [] => True | kv :: _ => direct parts kv end.
Proof.
  induction fuel as [|fuel IH]; intros it L l3 Hst Hf; [lia|]. cbn [dci_loop]. destruct L as [|kv L].
  - rewrite (stands_end it l3 Hst). by exists it, [].
  - destruct (stands_node _ _ _ _ Hst) as [-> ->]. destruct (decide (NumParts (item_keypath kv) = parts + 1)) as [Hd|Hd]; [by exists it, (kv :: L)|].
    destruct (stands_next _ _ _ _ Hst) as (it1 & -> & Hst1). cbn [obind]. cbn in Hf.
    destruct (IH it1 L l3 Hst1 ltac:(lia)) as (it' & L' & Hloop & Hst' & Hlen & Hfil & Hhd). exists it', L'. split_and!; try done; [cbn; lia|].
    by rewrite Hfil, filter_cons_False by done.
Qed.

Lemma dci_next_run parts it kv L l3 : stands it (kv :: L) l3 →
  ∃ it' L', dci_Next (mkDbChildIterator it parts) = Ret (mkDbChildIterator it' parts) ∧ stands it' L' l3 ∧ length L' ≤ length L ∧
    filter (direct parts) L' = filter (direct parts) L ∧ match L' with [] => True | kv :: _ => direct parts kv end.
Proof.
  intros Hst. unfold dci_Next. cbn [dci_iter dci_parts]. destruct (stands_node _ _ _ _ Hst) as [-> _]. cbn [negb].
  destruct (stands_next _ _ _ _ Hst) as (it1 & Hnext & Hst1). rewrite Hnext. cbn [obind].
  destruct (dci_loop_run parts (S (S (length (bi_snapshot (di_iter it1))))) it1 L l3 Hst1) as (it' & L' & -> & Hrest); [pose proof (sd_short _ _ _ Hst1); lia|].
  exists it', L'. by split.
Qed.

Lemma children_loop_run {S} (body : S → DBNode T → outcome S) parts fuel : ∀ it L l3 s,
  stands it L l3 → length L < fuel → match L with [] => True | kv :: _ => direct parts kv end →
  children_loop n body fuel (mkDbChildIterator it parts) s = fold_outcome (λ s k, body s (iter_node n k)) s (item_keypath <$> filter (direct parts) L).
Proof.
  induction fuel as [|fuel IH]; intros it L l3 s Hst Hf Hd; [lia|]. cbn [children_loop dci_iter]. destruct L as [|kv L].
  - by rewrite (stands_end it l3 Hst).
  - destruct (stands_node _ _ _ _ Hst) as [-> ->]. rewrite filter_cons_True by done. cbn. destruct (body s _) as [s'| | |]; try done. cbn [obind].
    destruct (dci_next_run parts _ _ _ _ Hst) as (it' & L' & -> & Hst' & Hlen & Hfil & Hhd). cbn [obind]. cbn in Hf. rewrite <- Hfil. apply (IH _ _ l3); [done|lia|done].
Qed.

(** The direct children of [n], in key order. *)
Definition direct_children : list Keypath := item_keypath <$> filter (direct (NumParts (rootKeypath n))) (children_items n (rootKeypath n)).

Lemma each_child_run {X} (body : X → DBNode T → outcome X) s : is_Some (db_get n (rootKeypath n)) →
  each_child n body s = fold_outcome (λ s k, body s (iter_node n k)) s direct_children.
Proof.
  intros [v Hv]. set (p := rootKeypath n) in *. destruct (seek_prefix (scan_prefix_of n p) (txn_items (db_tx n)) (law_sorted _)) as (l3 & Hseek & Hl3).
  rewrite (scan_run n p v Hv) in Hseek. unfold each_child, dci_Rewind, db_ChildIterator. cbn [dci_iter dci_parts]. change (di_rootKeypath (db_Iterator n [])) with (Push p []).
  rewrite (di_Rewind_root n [] v) by (by rewrite Push_nil_r). fold p. rewrite !Push_nil_r. cbn [obind].
  set (it0 := mkDbIterator n p (scan_prefix_of n p) (NewIterator (db_tx n) false) (Some (addKeyPrefix n p, v)) p).
  destruct (di_Next_root n p _ v (children_items n p) l3 eq_refl) as (it1 & Hn & Hst & Hhd & Hnode & _).
  { split; [done|]. split; [exact Hseek|]. split; [|split; [done|apply scan_prefix_has]]. rewrite <- (scan_run n p v Hv). apply Forall_forall. by intros kv [? _]%list_elem_of_filter. }
  fold it0 in Hn. assert (length (children_items n p) ≤ length (txn_items (db_tx n))) as Hlen by apply length_filter.
  assert (stands it1 (children_items n p) l3) as Hst1.
  { split; [done..| |]; [|by rewrite (next_snapshot _ _ Hn)]. intros [k w] Hh. specialize (Hhd k w Hh). unfold item_keypath. cbn. by rewrite <- Hhd, drop_app_length. }
  unfold dci_Next. cbn [dci_iter dci_parts]. change (di_Valid it0) with true. cbn [negb]. rewrite Hn. cbn [obind].
  destruct (dci_loop_run (NumParts p) (S (S (length (bi_snapshot (di_iter it1))))) it1 _ l3 Hst1) as (it' & L' & -> & Hst' & Hlen' & Hfil & Hd); [pose proof (sd_short _ _ _ Hst1); lia|].
  cbn [obind]. rewrite (children_loop_run body _ _ it' L' l3 s Hst'); [|unfold scan_fuel; lia|done]. unfold direct_children. fold p. by rewrite Hfil.
Qed.
End Children.
