(* ===== verification/Mempool.v ===== *)
(** * The mempool ([mempool.go]) and its mailbox ([utils/mailbox.go])

    Transactions wait in a set that remembers their order until they can be applied.  A
    goroutine takes them from a mailbox and, at every notification, passes the whole set to
    [processCallback] again and again until a pass applies none.

    The mailbox keeps its newest message in front; its notification channel holds at most
    one token.  The callback is a function on an arbitrary state that may change the
    transaction it is given, as the controller's does. *)

From S2P Require Import Prelude Types Keypath TreeTypes GoValue Tx.

(** ** The mailbox *)

Record Mailbox (X : Type) := mkMailbox { mb_notify : bool; mb_queue : list X; mb_capacity : nat }.
Arguments mkMailbox {X} _ _ _.
Arguments mb_notify {X} _.
Arguments mb_queue {X} _.
Arguments mb_capacity {X} _.

Section Mailbox.
Context {X : Type}.

Definition NewMailbox (capacity : nat) : Mailbox X := mkMailbox false [] capacity.

Definition Deliver (m : Mailbox X) (x : X) : Mailbox X :=
  let queue := x :: mb_queue m in
  let queue := if decide (mb_capacity m < length queue ∧ 0 < mb_capacity m)
               then take (length queue - 1) queue else queue in
  mkMailbox true queue (mb_capacity m).

Definition Retrieve (m : Mailbox X) : option X * Mailbox X :=
  match last (mb_queue m) with
  | None => (None, m)
  | Some x => (Some x, mkMailbox (mb_notify m) (take (length (mb_queue m) - 1) (mb_queue m)) (mb_capacity m))
  end.

Definition Clear (m : Mailbox X) : Mailbox X := mkMailbox (mb_notify m) [] (mb_capacity m).

(** [<-m.Notify()]: the token is taken. *)
Definition take_token (m : Mailbox X) : Mailbox X := mkMailbox false (mb_queue m) (mb_capacity m).
End Mailbox.

(** ** The set of transactions *)

Record txSortedSet := mkTxSortedSet { ts_txs : gmap Hash Tx; ts_order : list Hash }.

Definition newTxSortedSet : txSortedSet := mkTxSortedSet ∅ [].

Inductive processTxOutcome := Succeeded | Failed | Retry.
#[export] Instance processTxOutcome_eq_dec : EqDecision processTxOutcome.
Proof. solve_decision. Defined.

Section Mempool.
Context `{JsonCodec} (keccak256 : bytes → bytes).

Definition takeAll (s : txSortedSet) : outcome (list Tx * txSortedSet) :=
  let! cp := map_outcome (λ h, match ts_txs s !! h with Some tx => Tx_Copy tx | None => Panic end) (ts_order s) in
  Ret (cp, newTxSortedSet).

Definition ts_copy (s : txSortedSet) : outcome txSortedSet :=
  let! l := map_outcome (λ kv, let! tx := Tx_Copy kv.2 in Ret (kv.1, tx)) (map_to_list (ts_txs s)) in
  Ret (mkTxSortedSet (list_to_map l) (ts_order s)).

Definition put_tx (s : txSortedSet) (tx : Tx) : outcome txSortedSet :=
  let! h := Tx_Hash keccak256 tx in
  let! cp := Tx_Copy tx in
  Ret (mkTxSortedSet (<[h := cp]> (ts_txs s)) (ts_order s ++ [h])).

Definition add (s : txSortedSet) (tx : Tx) : outcome txSortedSet :=
  let! h := Tx_Hash keccak256 tx in
  match ts_txs s !! h with Some _ => Ret s | None => put_tx s tx end.

Definition addMany (s : txSortedSet) (txs : list Tx) : outcome txSortedSet := fold_outcome put_tx s txs.

(** ** Processing *)

Context {St : Type} (processCallback : St → Tx → outcome (St * Tx * processTxOutcome)) (stopped : St → bool).

(** One pass: the state, the transactions to retry, and whether one succeeded; [None] when
    the pool was stopped. *)
Fixpoint mempool_pass (txs : list Tx) (s : St) (retry : list Tx) (anySucceeded : bool) :
    outcome (St * option (list Tx * bool)) :=
  match txs with
  | [] => Ret (s, Some (retry, anySucceeded))
  | tx :: txs =>
      if stopped s then Ret (s, None)
      else
        let! r := processCallback s tx in
        let '(s, tx, o) := r in
        match o with
        | Failed => mempool_pass txs s retry anySucceeded
        | Retry => mempool_pass txs s (retry ++ [tx]) anySucceeded
        | Succeeded => mempool_pass txs s retry true
        end
  end.

Fixpoint process_loop (fuel : nat) (txs : list Tx) (s : St) : outcome (St * option (list Tx)) :=
  match fuel with
  | O => Running
  | S fuel =>
      if stopped s then Ret (s, None)
      else
        let! r := mempool_pass txs s [] false in
        match r with
        | (s, None) => Ret (s, None)
        | (s, Some (retry, any)) => if any then process_loop fuel retry s else Ret (s, Some retry)
        end
  end.

(** Every pass but the last removes a transaction, so one pass more than there are
    transactions is enough. *)
Definition processMempool (pool : txSortedSet) (s : St) : outcome (txSortedSet * St) :=
  let! t := takeAll pool in
  let '(txs, pool) := t in
  let! r := process_loop (S (length txs)) txs s in
  match r with
  | (s, None) => Ret (pool, s)
  | (s, Some retry) =>
      if decide (0 < length retry) then let! pool := addMany pool retry in Ret (pool, s) else Ret (pool, s)
  end.

(** ** The goroutine *)

(** A message is a transaction or a request to process again. *)
Definition message := option Tx.

Fixpoint drain (fuel : nat) (mb : Mailbox message) (pool : txSortedSet) : outcome (Mailbox message * txSortedSet) :=
  match fuel with
  | O => Running
  | S fuel =>
      match Retrieve mb with
      | (None, mb) => Ret (mb, pool)
      | (Some (Some tx), mb) => let! pool := add pool tx in drain fuel mb pool
      | (Some None, mb) => drain fuel mb pool
      end
  end.

(** One round of the loop in [Start], entered when a token is there. *)
Definition mempool_round (mb : Mailbox message) (pool : txSortedSet) (s : St) :
    outcome (Mailbox message * txSortedSet * St) :=
  let mb := take_token mb in
  let! d := drain (S (length (mb_queue mb))) mb pool in
  let '(mb, pool) := d in
  let! r := processMempool pool s in
  Ret (mb, r.1, r.2).
End Mempool.

(** ** The mailbox is a bounded queue *)

(** The messages in the order in which they are retrieved. *)
Definition mb_pending {X} (m : Mailbox X) : list X := reverse (mb_queue m).

Lemma take_pred_snoc {X} (l : list X) x : take (length (l ++ [x]) - 1) (l ++ [x]) = l.
Proof. rewrite length_app. simpl. rewrite Nat.add_sub. apply take_app_length. Qed.

Lemma reverse_take_pred {X} (l : list X) : reverse (take (length l - 1) l) = tail (reverse l).
Proof.
  destruct (decide (l = [])) as [->|Hne]; [done|]. destruct (exists_last Hne) as (l' & x & ->).
  by rewrite take_pred_snoc, reverse_app.
Qed.

Definition mb_wf {X} (m : Mailbox X) : Prop := 0 < mb_capacity m → length (mb_queue m) ≤ mb_capacity m.

(** A mailbox is a queue, first in, first out: [Retrieve] returns the oldest pending
    message and leaves the others, [Deliver] appends one and drops the oldest when a
    bounded mailbox is full, and the bound is never exceeded. *)
Theorem mailbox_fifo {X} (m : Mailbox X) x :
  mb_wf m →
  mb_wf (Deliver m x) ∧ mb_wf (Retrieve m).2 ∧
  mb_pending (Deliver m x) =
    (if decide (0 < mb_capacity m ∧ length (mb_pending m) = mb_capacity m)
     then tail (mb_pending m ++ [x]) else mb_pending m ++ [x]) ∧
  (Retrieve m).1 = head (mb_pending m) ∧ mb_pending (Retrieve m).2 = tail (mb_pending m).
Proof.
  unfold mb_wf, mb_pending. intros Hwf. rewrite length_reverse. split_and!.
  - unfold Deliver. simpl. intros Hc. specialize (Hwf Hc). case_decide; simpl; rewrite ?length_take; lia.
  - unfold Retrieve. destruct (last (mb_queue m)); simpl; [|done]. intros Hc. specialize (Hwf Hc). rewrite length_take. lia.
  - unfold Deliver. cbn [mb_queue]. rewrite <- reverse_cons. case_decide as Hd; case_decide as Hd'; simpl in Hd.
    + by rewrite reverse_take_pred.
    + lia.
    + lia.
    + done.
  - unfold Retrieve. rewrite head_reverse. by destruct (last (mb_queue m)).
  - unfold Retrieve. destruct (last (mb_queue m)) eqn:Hl; simpl; [by apply reverse_take_pred|].
    apply last_None in Hl. by rewrite Hl.
Qed.

Lemma mailbox_fifo_witness :
  let m := Deliver (Deliver (NewMailbox 2) 1) 2 in
  mb_pending (Deliver m 3) = [2; 3] ∧ (Retrieve m).1 = Some 1.
Proof.
  destruct (mailbox_fifo (Deliver (Deliver (NewMailbox 2) 1) 2) 3) as (_ & _ & Hd & Hr & _).
  - intros _. simpl. lia.
  - split; [exact Hd|exact Hr].
Defined.

(** The mailbox and its only reader, which waits for the token, or is taking messages. *)
Inductive reader := Waiting | Draining.

Inductive mb_step {X} : Mailbox X * reader → Mailbox X * reader → Prop :=
  | mbs_deliver m r x : mb_step (m, r) (Deliver m x, r)
  | mbs_wake m : mb_notify m = true → mb_step (m, Waiting) (take_token m, Draining)
  | mbs_retrieve m x m' : Retrieve m = (Some x, m') → mb_step (m, Draining) (m', Draining)
  | mbs_sleep m m' : Retrieve m = (None, m') → mb_step (m, Draining) (m', Waiting).

(** C33: No wake-up is lost: in every interleaving of deliveries with the reader's steps, a
    reader that waits while messages are pending has a token to wake it. *)
Theorem mailbox_no_lost_wakeup {X} cap (m : Mailbox X) :
  rtc mb_step (NewMailbox cap, Waiting) (m, Waiting) → mb_pending m ≠ [] → mb_notify m = true.
Proof.
  intros Hr. enough (∀ s s' : Mailbox X * reader, rtc mb_step s s' →
    (s.2 = Waiting → mb_queue s.1 ≠ [] → mb_notify s.1 = true) →
    s'.2 = Waiting → mb_queue s'.1 ≠ [] → mb_notify s'.1 = true) as Hinv.
  { intros Hp. apply (Hinv _ _ Hr); [done|done|]. simpl. intros Hq. apply Hp. unfold mb_pending. by rewrite Hq. }
  clear. intros s s'. induction 1 as [|s1 s2 s3 Hs _ IH]; [auto|]. intros H1. apply IH. clear IH.
  destruct Hs as [m r x|m Hn|m x m' Hr|m m' Hr]; simpl in *; try done.
  intros _. unfold Retrieve in Hr. destruct (last (mb_queue m)) eqn:Hl; [done|]. injection Hr as <-.
  apply last_None in Hl. by rewrite Hl.
Qed.

Lemma mailbox_no_lost_wakeup_witness :
  mb_notify (Deliver (NewMailbox 0) 7) = true.
Proof.
  apply (mailbox_no_lost_wakeup 0 (Deliver (NewMailbox 0) 7)).
  - eapply rtc_once. apply mbs_deliver.
  - discriminate.
Defined.

(** ** What processing does *)

Section Processing.
Context {St : Type} (cb : St → Tx → outcome (St * Tx * processTxOutcome)).

(** The callback with a log of what it answered. *)
Definition logged (sl : St * list (Tx * processTxOutcome)) (tx : Tx) :
    outcome (St * list (Tx * processTxOutcome) * Tx * processTxOutcome) :=
  let! r := cb sl.1 tx in
  let '(s, tx', o) := r in Ret ((s, sl.2 ++ [(tx, o)]), tx', o).

(** The transactions that got an answer. *)
Definition answered (o : processTxOutcome) (log : list (Tx * processTxOutcome)) : list Tx :=
  (filter (λ e, e.2 = o) log).*1.

(** The callback always answers, and leaves a transaction that has to be retried alone. *)
Context (Hcb : ∀ s tx, ∃ s' tx' o, cb s tx = Ret (s', tx', o) ∧ (o = Retry → tx' = tx)).
Let running : St * list (Tx * processTxOutcome) → bool := λ _, false.

Lemma answered_cons o e log : answered o (e :: log) = (if decide (e.2 = o) then [e.1] else []) ++ answered o log.
Proof. unfold answered. rewrite filter_cons. by case_decide. Qed.
Lemma answered_app o l1 l2 : answered o (l1 ++ l2) = answered o l1 ++ answered o l2.
Proof. unfold answered. by rewrite filter_app, fmap_app. Qed.

Lemma answered_perm log : log.*1 ≡ₚ answered Succeeded log ++ answered Failed log ++ answered Retry log.
Proof.
  induction log as [|[tx o] log IH]; [done|]. rewrite fmap_cons, !answered_cons, IH. simpl.
  destruct o; simpl; try done; solve_Permutation.
Qed.

Lemma pass_spec txs s log retry any :
  ∃ s' es, mempool_pass logged running txs (s, log) retry any =
      Ret ((s', log ++ es), Some (retry ++ answered Retry es, any || bool_decide (answered Succeeded es ≠ []))) ∧
    es.*1 = txs.
Proof using Hcb.
  revert s log retry any. induction txs as [|tx txs IH]; intros s log retry any.
  { exists s, []. simpl. by rewrite !app_nil_r, orb_false_r. }
  cbn [mempool_pass]. unfold running at 1. unfold logged at 1. simpl fst.
  destruct (Hcb s tx) as (s1 & tx' & o & -> & Ho). cbn [obind fst snd].
  assert (∀ retry any, ∃ s' es, mempool_pass logged running txs (s1, log ++ [(tx, o)]) retry any =
      Ret ((s', log ++ (tx, o) :: es), Some (retry ++ answered Retry es, any || bool_decide (answered Succeeded es ≠ []))) ∧
    es.*1 = txs) as Hrest.
  { intros retry' any'. destruct (IH s1 (log ++ [(tx, o)]) retry' any') as (s' & es & -> & Hes). exists s', es.
    by rewrite <- (assoc_L (++)). }
  destruct o.
  - destruct (Hrest retry true) as (s' & es & -> & Hes). exists s', ((tx, Succeeded) :: es).
    rewrite fmap_cons, Hes, !answered_cons. simpl. by rewrite orb_true_r.
  - destruct (Hrest retry any) as (s' & es & -> & Hes). exists s', ((tx, Failed) :: es).
    by rewrite fmap_cons, Hes, !answered_cons.
  - destruct (Hrest (retry ++ [tx']) any) as (s' & es & -> & Hes). exists s', ((tx, Retry) :: es).
    rewrite fmap_cons, Hes, !answered_cons, (Ho eq_refl). simpl. by rewrite <- (assoc_L (++)).
Qed.

Lemma process_loop_spec fuel txs s log :
  length txs < fuel →
  ∃ s' es final, process_loop logged running fuel txs (s, log) =
      Ret ((s', log ++ es ++ final), Some (answered Retry final)) ∧
    txs ≡ₚ answered Succeeded (es ++ final) ++ answered Failed (es ++ final) ++ answered Retry final ∧
    answered Succeeded final = [].
Proof using Hcb.
  revert txs s log. induction fuel as [|fuel IH]; intros txs s log Hf; [lia|].
  cbn [process_loop]. unfold running at 1. destruct (pass_spec txs s log [] false) as (s1 & es1 & -> & Hes1).
  cbn [obind orb app]. pose proof (answered_perm es1) as Hp. rewrite Hes1 in Hp.
  case_bool_decide as Hany.
  - assert (length (answered Retry es1) < fuel) as Hl.
    { apply Permutation_length in Hp. rewrite !length_app in Hp. destruct (answered Succeeded es1); simpl in *; [done|lia]. }
    destruct (IH (answered Retry es1) s1 (log ++ es1) Hl) as (s' & es & final & -> & Hperm & Hfin).
    exists s', (es1 ++ es), final. rewrite <- !(assoc_L (++)). split; [done|]. split; [|done].
    rewrite !(answered_app _ es1), Hp, Hperm. solve_Permutation.
  - exists s1, [], es1. split; [done|]. split; [done|].
    destruct (answered Succeeded es1); [done|]. by destruct Hany.
Qed.
End Processing.

(** ** The set of transactions *)

Section Pool.
Context `{JL : JsonLaws} (keccak256 : bytes → bytes).

Lemma Tx_Copy_id tx : tx_wf tx → Tx_Copy tx = Ret tx.
Proof using JL.
  intros [_ _ _ _ _ Hv]. unfold Tx_Copy.
  assert (map_outcome Patch_Copy (tx_Patches tx) = Ret (tx_Patches tx)) as ->.
  { induction Hv as [|p ps Hp _ IH]; [done|]. cbn [map_outcome]. unfold Patch_Copy at 1, DeepCopyJSValue.
    destruct (json_roundtrip _ Hp) as (bs & -> & ->). cbn [obind]. rewrite IH. cbn [obind].
    rewrite Copy_id. destruct p as [k r v]. simpl. do 2 f_equal. by destruct r as [[]|]. }
  cbn [obind]. rewrite !go_copy_full. by destruct tx.
Qed.

Lemma Tx_Hash_ok tx : tx_wf tx → ∃ h, Tx_Hash keccak256 tx = Ret h.
Proof using JL.
  intros [_ _ _ _ _ Hv]. unfold Tx_Hash. case_decide; [|eauto]. unfold tx_bytes.
  assert (∃ ss, map_outcome Patch_String (tx_Patches tx) = Ret ss) as [ss ->]; [|simpl; eauto].
  induction Hv as [|p ps Hp _ [ss IH]]; [by exists []|]. cbn [map_outcome]. unfold Patch_String at 1.
  destruct (json_roundtrip _ Hp) as (bs & -> & _). cbn [obind]. rewrite IH. simpl. eauto.
Qed.

(** The hash of a well-formed transaction. *)
Definition hash_of (tx : Tx) : Hash := match Tx_Hash keccak256 tx with Ret h => h | _ => [] end.

Lemma Tx_Hash_eq tx : tx_wf tx → Tx_Hash keccak256 tx = Ret (hash_of tx).
Proof using JL. intros Hwf. unfold hash_of. by destruct (Tx_Hash_ok tx Hwf) as [h ->]. Qed.

Record ts_wf (s : txSortedSet) : Prop := {
  tsw_nodup : NoDup (ts_order s);
  tsw_dom : ∀ h, h ∈ ts_order s ↔ is_Some (ts_txs s !! h);
  tsw_tx : ∀ h tx, ts_txs s !! h = Some tx → tx_wf tx ∧ hash_of tx = h
}.

(** The transactions in the order in which they were added. *)
Definition ts_contents (s : txSortedSet) : list Tx := omap (ts_txs s !!.) (ts_order s).

Lemma newTxSortedSet_wf : ts_wf newTxSortedSet.
Proof. split; simpl; [constructor| |done]. intros h. rewrite lookup_empty. split; [set_solver|by intros []]. Qed.

Lemma put_tx_spec s tx :
  ts_wf s → tx_wf tx → hash_of tx ∉ ts_order s →
  ∃ s', put_tx keccak256 s tx = Ret s' ∧ ts_wf s' ∧ ts_contents s' = ts_contents s ++ [tx] ∧
    ts_order s' = ts_order s ++ [hash_of tx].
Proof using JL.
  intros Hwf Htx Hnew. unfold put_tx. rewrite (Tx_Hash_eq tx Htx), (Tx_Copy_id tx Htx). cbn [obind].
  eexists. split; [done|]. split; [|split; [|done]].
  - split; simpl.
    + apply NoDup_app. split; [apply Hwf|]. split; [set_solver|apply NoDup_singleton].
    + intros h. rewrite elem_of_app, (tsw_dom s Hwf), list_elem_of_singleton.
      destruct (decide (h = hash_of tx)) as [->|Hne]; [rewrite lookup_insert_eq|rewrite lookup_insert_ne by done; naive_solver].
      split; [by eexists|by right].
    + intros h t. rewrite lookup_insert_Some. intros [[<- <-]|[_ Ht]]; [done|by apply (tsw_tx s Hwf)].
  - unfold ts_contents. simpl. rewrite omap_app. simpl. rewrite lookup_insert_eq. f_equal.
    apply list_omap_ext. apply Forall_Forall2_diag, Forall_forall. intros h Hh.
    rewrite lookup_insert_ne; [done|]. by intros <-.
Qed.

Lemma addMany_spec txs s :
  ts_wf s → Forall tx_wf txs → NoDup (ts_order s ++ (hash_of <$> txs)) →
  ∃ s', addMany keccak256 s txs = Ret s' ∧ ts_wf s' ∧ ts_contents s' = ts_contents s ++ txs.
Proof using JL.
  revert s. induction txs as [|tx txs IH]; intros s Hwf Htxs Hnd.
  { exists s. by rewrite app_nil_r. }
  apply Forall_cons in Htxs as [Htx Htxs]. rewrite fmap_cons in Hnd.
  destruct (put_tx_spec s tx Hwf Htx) as (s1 & Hput & Hwf1 & Hc1 & Ho1).
  { apply NoDup_app in Hnd as (_ & Hd & _). intros Hin. apply (Hd _ Hin). set_solver. }
  unfold addMany. cbn [fold_outcome]. rewrite Hput. cbn [obind]. fold (addMany keccak256 s1 txs).
  destruct (IH s1 Hwf1 Htxs) as (s' & -> & Hwf' & Hc').
  { rewrite Ho1, <- (assoc_L (++)). done. }
  exists s'. split; [done|]. split; [done|]. by rewrite Hc', Hc1, <- (assoc_L (++)).
Qed.

Lemma takeAll_spec s : ts_wf s → takeAll s = Ret (ts_contents s, newTxSortedSet).
Proof using JL.
  intros Hwf. unfold takeAll, ts_contents. pose proof (proj2 (Forall_forall _ _) (λ h, proj1 (tsw_dom s Hwf h))) as Hdom.
  assert (map_outcome (λ h, match ts_txs s !! h with Some tx => Tx_Copy tx | None => Panic end) (ts_order s) =
          Ret (omap (ts_txs s !!.) (ts_order s))) as ->; [|done].
  induction Hdom as [|h hs [tx Hh] _ IH]; [done|]. cbn [map_outcome]. simpl omap. rewrite Hh.
  rewrite Tx_Copy_id by (by apply (tsw_tx s Hwf h)). cbn [obind]. by rewrite IH.
Qed.

Lemma contents_hashes s : ts_wf s → hash_of <$> ts_contents s = ts_order s.
Proof.
  intros Hwf. unfold ts_contents. pose proof (proj2 (Forall_forall _ _) (λ h, proj1 (tsw_dom s Hwf h))) as Hdom.
  induction Hdom as [|h hs [tx Hh] _ IH]; [done|]. csimpl. rewrite Hh, fmap_cons.
  rewrite IH. f_equal. by apply (tsw_tx s Hwf h).
Qed.

Lemma contents_wf s : ts_wf s → Forall tx_wf (ts_contents s).
Proof.
  intros Hwf. apply Forall_forall. intros tx (h & _ & Hh)%list_elem_of_omap. by apply (tsw_tx s Hwf h).
Qed.
End Pool.

(** ** Theorems *)

(** C32: Processing the pool terminates, loses no transaction and stops only when nothing more
    can be applied.  Whatever the callback answers, every transaction of the pool has either
    succeeded once, failed once, or is still in the pool; those that are still there are, in
    order, the ones that a last pass over all remaining transactions told to retry, and in
    that pass nothing succeeded.  The set stays well formed: it lists each hash once. *)
Theorem mempool_process_complete `{JsonLaws} (keccak256 : bytes → bytes) {St}
    (cb : St → Tx → outcome (St * Tx * processTxOutcome)) pool s :
  ts_wf keccak256 pool →
  (∀ s tx, ∃ s' tx' o, cb s tx = Ret (s', tx', o) ∧ (o = Retry → tx' = tx)) →
  ∃ pool' s' log final,
    processMempool keccak256 (logged cb) (λ _, false) pool (s, []) = Ret (pool', (s', log ++ final)) ∧
    ts_wf keccak256 pool' ∧
    ts_contents pool ≡ₚ answered Succeeded (log ++ final) ++ answered Failed (log ++ final) ++ ts_contents pool' ∧
    ts_contents pool' = answered Retry final ∧ answered Succeeded final = [].
Proof.
  intros Hwf Hcb. unfold processMempool. rewrite (takeAll_spec keccak256 pool Hwf). cbn [obind].
  destruct (process_loop_spec cb Hcb (S (length (ts_contents pool))) (ts_contents pool) s [])
    as (s' & log & final & -> & Hperm & Hfin); [lia|].
  cbn [obind app]. set (retry := answered Retry final) in *.
  pose proof (contents_hashes keccak256 pool Hwf) as Hh. pose proof (tsw_nodup _ _ Hwf) as Hnd. rewrite <- Hh, Hperm in Hnd.
  rewrite !fmap_app in Hnd. apply NoDup_app in Hnd as (_ & _ & Hnd). apply NoDup_app in Hnd as (_ & _ & Hnd).
  pose proof (contents_wf keccak256 pool Hwf) as Hall. rewrite Hperm in Hall.
  apply Forall_app in Hall as [_ Hall]. apply Forall_app in Hall as [_ Hall].
  destruct (addMany_spec keccak256 retry newTxSortedSet (newTxSortedSet_wf keccak256) Hall Hnd) as (pool' & Hadd & Hwf' & Hc).
  simpl in Hc. case_decide as Hl.
  - rewrite Hadd. cbn [obind]. exists pool', s', log, final. rewrite Hc. by split_and!.
  - assert (retry = []) as Hr by (destruct retry; simpl in *; [done|lia]).
    exists newTxSortedSet, s', log, final. rewrite Hr in *. split_and!; try done. apply newTxSortedSet_wf.
Qed.

(** A callback that refuses one transaction until it has applied another. *)
Definition example_cb (applied : list ID) (tx : Tx) : outcome (list ID * Tx * processTxOutcome) :=
  if decide (Forall (λ p, p ∈ applied) (tx_Parents tx)) then Ret (applied ++ [tx_ID tx], tx, Succeeded)
  else Ret (applied, tx, Retry).

Definition tx_with (id : nat) (parents : list ID) : Tx :=
  mkTx (id_of id) parents [] (take 20 (id_of 5)) [] [] [] [] false [] TxStatusInMempool EmptyHash.

Lemma tx_with_wf id parents : Forall (λ p, length p = id_length) parents → tx_wf (tx_with id parents).
Proof. intros Hp. split; [reflexivity|done|constructor|reflexivity|constructor|constructor]. Qed.

Definition example_pool : txSortedSet :=
  match addMany (λ b, b) newTxSortedSet [tx_with 2 [id_of 1]; tx_with 1 []; tx_with 3 [id_of 9]] with
  | Ret s => s
  | _ => newTxSortedSet
  end.

Lemma example_pool_wf : ts_wf (λ b, b) example_pool.
Proof.
  destruct (addMany_spec (λ b, b) [tx_with 2 [id_of 1]; tx_with 1 []; tx_with 3 [id_of 9]] newTxSortedSet)
    as (s & Hs & Hwf & _).
  - apply newTxSortedSet_wf.
  - repeat constructor; apply tx_with_wf; repeat constructor.
  - vm_decide.
  - unfold example_pool. by rewrite Hs.
Qed.

Lemma mempool_process_complete_witness :
  ∃ pool' s' log final,
    processMempool (λ b, b) (logged example_cb) (λ _, false) example_pool ([], []) = Ret (pool', (s', log ++ final)) ∧
    ts_wf (λ b, b) pool' ∧
    ts_contents example_pool ≡ₚ answered Succeeded (log ++ final) ++ answered Failed (log ++ final) ++ ts_contents pool' ∧
    ts_contents pool' = answered Retry final ∧ answered Succeeded final = [].
Proof.
  apply (mempool_process_complete (λ b, b) example_cb example_pool []); [apply example_pool_wf|].
  intros s tx. unfold example_cb. case_decide; eexists _, _, _; split; reflexivity || (intros; reflexivity).
Defined.
