(* ===== verification/Channels.v ===== *)
(** * Channel helpers ([utils/channels.go]) and the job queue ([job-queue.go])

    Three goroutines that other code talks to through channels.  Each is a state machine: the
    record holds the fields of the Go struct and where the goroutine stands; a step is one
    rendezvous, or one branch that a [select] takes.  Steps of the goroutine and of its
    callers interleave in any order.

    [WaitGroupChan] is a wait group whose end can be waited for in a [select];
    [PeriodicTask] runs a function at every tick and at every request, one run at a time;
    [jobQueue] hands out jobs in batches. *)

From S2P Require Import Prelude Types Mempool.

(** [close(ch)], which panics when the channel is closed already. *)
Definition close_chan (closed : bool) : outcome bool := if closed then Panic else Ret true.

(** ** [WaitGroupChan] *)

(** The counter, the goroutine's local [done], whether the goroutine still runs, and which
    channels are closed; [wg_chCtxDone] is [None] for the nil channel. *)
Record WaitGroupChan := mkWg {
  wg_i : Z;
  wg_done : bool;
  wg_running : bool;
  wg_chWait : bool;
  wg_chStop : bool;
  wg_chCtxDone : option bool;
  wg_waitCalls : bool
}.

Definition NewWaitGroupChan (ctx : bool) : WaitGroupChan :=
  mkWg 0 false true false false (if ctx then Some false else None) false.

(** What a call of [Add], [Done], [Close] or [Wait] did. *)
Inductive wg_reply := Returns | Panics (msg : string).

Definition MsgFinished : string := "WaitGroupChan already finished. Do you need to add a bounding wg.Add(1) and wg.Done()?".
Definition MsgTooManyDone : string := "called Done() too many times".
Definition MsgAddAfterWait : string := "cannot call Add() after Wait()".

(** The goroutine takes an increment from [chAdd] and answers. *)
Definition wg_receive (w : WaitGroupChan) (i : Z) : outcome (WaitGroupChan * wg_reply) :=
  if wg_done w then Ret (mkWg (wg_i w) (wg_done w) false (wg_chWait w) (wg_chStop w) (wg_chCtxDone w) (wg_waitCalls w), Panics MsgFinished)
  else
    let n := i64 (wg_i w + i) in
    if decide (n < 0)%Z then
      let! c := close_chan (wg_chWait w) in
      Ret (mkWg n false false c (wg_chStop w) (wg_chCtxDone w) (wg_waitCalls w), Panics MsgTooManyDone)
    else if decide (n = 0)%Z then
      let! c := close_chan (wg_chWait w) in
      Ret (mkWg n true true c (wg_chStop w) (wg_chCtxDone w) (wg_waitCalls w), Returns)
    else Ret (mkWg n false true (wg_chWait w) (wg_chStop w) (wg_chCtxDone w) (wg_waitCalls w), Returns).

(** The goroutine's branches for [chCtxDone] and [chStop]. *)
Definition wg_quit (w : WaitGroupChan) : outcome WaitGroupChan :=
  let! c := (if wg_done w then Ret (wg_chWait w) else close_chan (wg_chWait w)) in
  Ret (mkWg (wg_i w) (wg_done w) false c (wg_chStop w) (wg_chCtxDone w) (wg_waitCalls w)).

(** The context ends, the goroutine leaves, or a caller calls; [AddSent] and [DoneSent] are
    calls whose [select] sends on [chAdd], [AddSkipped] and [DoneSkipped] are those that find
    another channel closed. *)
Inductive wg_event := CtxEnds | Leaves | Closes | AddSent (i : Z) | AddSkipped | DoneSent | DoneSkipped | Waits.

Definition wg_cancelled (w : WaitGroupChan) : bool := bool_decide (wg_chCtxDone w = Some true) || wg_chStop w.

(** One step, when it is possible. *)
Definition wg_step (w : WaitGroupChan) (e : wg_event) : option (outcome (WaitGroupChan * wg_reply)) :=
  let returns m := let! w := m in Ret (w, Returns) in
  match e with
  | CtxEnds =>
      if decide (wg_chCtxDone w = Some false)
      then Some (Ret (mkWg (wg_i w) (wg_done w) (wg_running w) (wg_chWait w) (wg_chStop w) (Some true) (wg_waitCalls w), Returns))
      else None
  | Leaves => if wg_running w && wg_cancelled w then Some (returns (wg_quit w)) else None
  | Closes =>
      Some (returns (let! c := close_chan (wg_chStop w) in
        Ret (mkWg (wg_i w) (wg_done w) (wg_running w) (wg_chWait w) c (wg_chCtxDone w) (wg_waitCalls w))))
  | AddSent i =>
      if wg_waitCalls w then Some (Ret (w, Panics MsgAddAfterWait))
      else if wg_running w then Some (wg_receive w i) else None
  | AddSkipped =>
      if wg_waitCalls w then Some (Ret (w, Panics MsgAddAfterWait))
      else if wg_cancelled w then Some (Ret (w, Returns)) else None
  | DoneSent => if wg_running w then Some (wg_receive w (-1)) else None
  | DoneSkipped => if wg_cancelled w || wg_chWait w then Some (Ret (w, Returns)) else None
  | Waits => Some (Ret (mkWg (wg_i w) (wg_done w) (wg_running w) (wg_chWait w) (wg_chStop w) (wg_chCtxDone w) true, Returns))
  end.

(** A run: the state after the events, with what each call did. *)
Fixpoint wg_run (w : WaitGroupChan) (es : list wg_event) : option (outcome (WaitGroupChan * list wg_reply)) :=
  match es with
  | [] => Some (Ret (w, []))
  | e :: es =>
      match wg_step w e with
      | Some (Ret (w, r)) =>
          match wg_run w es with
          | Some (Ret (w, rs)) => Some (Ret (w, r :: rs))
          | o => o
          end
      | Some (Err e) => Some (Err e)
      | Some Panic => Some Panic
      | Some Running => Some Running
      | None => None
      end
  end.

(** *** The waiting channel is closed once, and when it should be *)

Record wg_ok (w : WaitGroupChan) : Prop := {
  wgo_open : wg_running w = true → wg_done w = false → wg_chWait w = false ∧ (0 ≤ wg_i w)%Z;
  wgo_closed : wg_running w = false ∨ wg_done w = true → wg_chWait w = true;
  wgo_why : wg_chWait w = true → (wg_i w ≤ 0)%Z ∨ wg_cancelled w = true
}.

Lemma NewWaitGroupChan_ok ctx : wg_ok (NewWaitGroupChan ctx).
Proof. split; simpl; [done|by intros [] |done]. Qed.

Lemma wg_receive_ok w i : wg_ok w → wg_running w = true → ∃ w' r, wg_receive w i = Ret (w', r) ∧ wg_ok w'.
Proof.
  intros [Ho Hc Hw] Hr. unfold wg_receive. destruct (wg_done w) eqn:Hd.
  { do 2 eexists. split; [done|]. split; cbn; [done| |done]. intros _. apply Hc. by right. }
  destruct (Ho Hr eq_refl) as [-> Hi]. case_decide as Hn; [|case_decide as Hz]; cbn [close_chan obind];
    (do 2 eexists; split; [done|]); split; cbn; try done; try lia; try (by intros []).
Qed.

Lemma wg_quit_ok w : wg_ok w → wg_running w = true → wg_cancelled w = true → ∃ w', wg_quit w = Ret w' ∧ wg_ok w'.
Proof.
  intros [Ho Hc Hw] Hr Hx. unfold wg_quit. destruct (wg_done w) eqn:Hd.
  - rewrite (Hc (or_intror eq_refl)). cbn [obind]. eexists. split; [done|]. split; cbn; [done|done|]. intros _. by right.
  - destruct (Ho Hr eq_refl) as [-> Hi]. cbn [close_chan obind]. eexists. split; [done|].
    split; cbn; [done|done|]. intros _. by right.
Qed.

(** A step never closes [chWait] a second time; only a second [Close] panics. *)
Lemma wg_step_ok w e : wg_ok w → (e = Closes → wg_chStop w = false) →
  match wg_step w e with
  | None => True
  | Some (Ret (w', _)) => wg_ok w'
  | Some _ => False
  end.
Proof.
  intros Hok Hs. pose proof Hok as [Ho Hc Hw]. destruct e; unfold wg_step.
  - case_decide as Hx; [|done]. split; cbn; [done|done|]. intros _. by right.
  - destruct (wg_running w) eqn:Hr, (wg_cancelled w) eqn:Hx; cbn [andb]; try done.
    destruct (wg_quit_ok w Hok Hr Hx) as (w' & -> & Hok'). done.
  - rewrite (Hs eq_refl). cbn [close_chan obind]. split; cbn; [done|done|]. intros _. right. unfold wg_cancelled. cbn. apply orb_true_r.
  - destruct (wg_waitCalls w); [done|]. destruct (wg_running w) eqn:Hr; [|done].
    destruct (wg_receive_ok w i Hok Hr) as (w' & r & -> & Hok'). done.
  - destruct (wg_waitCalls w); [done|]. by destruct (wg_cancelled w).
  - destruct (wg_running w) eqn:Hr; [|done]. destruct (wg_receive_ok w (-1) Hok Hr) as (w' & r & -> & Hok'). done.
  - by destruct (_ || _).
  - split; cbn; [done|done|]. intros Hcl. exact (Hw Hcl).
Qed.

(** The states that the steps lead to, whatever their order. *)
Inductive wg_reachable (ctx : bool) : WaitGroupChan → Prop :=
  | wgr_new : wg_reachable ctx (NewWaitGroupChan ctx)
  | wgr_step w e w' r : wg_reachable ctx w → (e = Closes → wg_chStop w = false) → wg_step w e = Some (Ret (w', r)) → wg_reachable ctx w'.

Lemma wg_reachable_ok ctx w : wg_reachable ctx w → wg_ok w.
Proof. induction 1 as [|w e w' r _ IH Hs Hst]; [apply NewWaitGroupChan_ok|]. pose proof (wg_step_ok w e IH Hs) as H. by rewrite Hst in H. Qed.

(** In every interleaving of calls, of the goroutine and of the end of the context, nobody
    closes [chWait] twice (the program does not crash), and [chWait] is closed only when the
    counter is not positive or the group was cancelled; it is always closed once the
    goroutine has left, so a waiter never waits for a goroutine that is gone. *)
Theorem wait_group_safe ctx w :
  wg_reachable ctx w →
  (∀ e, (e = Closes → wg_chStop w = false) → wg_step w e ≠ Some Panic) ∧
  (wg_chWait w = true → (wg_i w ≤ 0)%Z ∨ wg_cancelled w = true) ∧
  (wg_running w = false → wg_chWait w = true).
Proof.
  intros Hr%wg_reachable_ok. split_and!.
  - intros e Hs Hp. pose proof (wg_step_ok w e Hr Hs) as H. by rewrite Hp in H.
  - apply Hr.
  - intros Hn. apply (wgo_closed w Hr). by left.
Qed.

Lemma wait_group_safe_witness : ∃ w, wg_chWait w = true ∧ (wg_i w ≤ 0)%Z ∧ wg_step w Leaves = None.
Proof.
  eexists. assert (wg_reachable false (mkWg 0 true true true false None false)) as Hr.
  { eapply (wgr_step _ _ DoneSent); [eapply (wgr_step _ _ (AddSent 1)); [apply wgr_new|done|reflexivity]|done|reflexivity]. }
  split; [|split]; cycle 1.
  - destruct (wait_group_safe false _ Hr) as (_ & H & _). destruct (H eq_refl) as [Hl|Hl]; [exact Hl|discriminate Hl].
  - reflexivity.
  - reflexivity.
Defined.

Definition wg_delta (e : wg_event) : Z := match e with AddSent i => i | DoneSent => -1 | _ => 0 end%Z.
Definition balance (es : list wg_event) : Z := foldr (λ e n, (wg_delta e + n)%Z) 0%Z es.
Definition works (e : wg_event) : Prop := match e with AddSent _ | DoneSent => True | _ => False end.

Lemma balance_cons e es : balance (e :: es) = (wg_delta e + balance es)%Z.
Proof. done. Qed.

Definition counting (n : Z) (c : option bool) : WaitGroupChan := mkWg n false true false false c false.

Lemma wg_step_counting n c e :
  works e → (0 < n + wg_delta e < two63)%Z → wg_step (counting n c) e = Some (Ret (counting (n + wg_delta e) c, Returns)).
Proof.
  intros Hw Hn. assert (i64 (n + wg_delta e) = n + wg_delta e)%Z as Hi by (apply i64_id; unfold is_i64; lia).
  destruct e; try done; cbn [wg_delta] in *; cbn [wg_step wg_waitCalls wg_running counting];
    unfold wg_receive; cbn [wg_done wg_i counting]; rewrite Hi; rewrite decide_False by lia; rewrite decide_False by lia; done.
Qed.

Lemma wg_run_counting n c es :
  Forall works es → (∀ p, p ≠ [] → p `prefix_of` es → (0 < n + balance p < two63)%Z) →
  wg_run (counting n c) es = Some (Ret (counting (n + balance es) c, replicate (length es) Returns)).
Proof.
  revert n. induction es as [|e es IH]; intros n Hw Hp; [cbn; by rewrite Z.add_0_r|].
  apply Forall_cons in Hw as [He Hw]. cbn [wg_run].
  assert (0 < n + wg_delta e < two63)%Z as He'.
  { specialize (Hp [e] ltac:(done) (prefix_app_r _ [e] _ (reflexivity _))). rewrite balance_cons in Hp. cbn [balance foldr] in Hp. lia. }
  rewrite wg_step_counting by done. rewrite IH; [|done|].
  - by rewrite balance_cons, Z.add_assoc.
  - intros p Hne Hpre. specialize (Hp (e :: p) ltac:(done) (prefix_cons e _ _ Hpre)). rewrite balance_cons in Hp. lia.
Qed.

Lemma wg_run_app w es es' w1 rs :
  wg_run w es = Some (Ret (w1, rs)) →
  wg_run w (es ++ es') = match wg_run w1 es' with Some (Ret (w2, rs')) => Some (Ret (w2, rs ++ rs')) | o => o end.
Proof.
  revert w rs. induction es as [|e es IH]; intros w rs; cbn [wg_run app].
  { intros [= -> <-]. by destruct (wg_run w1 es') as [[[]| | |]|]. }
  destruct (wg_step w e) as [[[w' r]| | |]|]; try done.
  destruct (wg_run w' es) as [[[w2 rs2]| | |]|] eqn:Hrun; try done. intros [= -> <-]. rewrite (IH _ _ Hrun).
  by destruct (wg_run w1 es') as [[[]| | |]|].
Qed.

(** The fan-out that the host and the transports write: while the calls of [Add] and [Done],
    in any interleaving, keep the count positive, none of them panics and the waiter waits;
    the call that brings the count to zero, the last [Done], returns and lets the waiter go.
    A further [Add] panics instead of being forgotten. *)
Theorem wait_group_fan_out ctx es :
  Forall works es → (∀ p, p ≠ [] → p `prefix_of` es → (0 < balance p < two63)%Z) → es ≠ [] → balance es = 1%Z →
  ∃ w w', wg_run (NewWaitGroupChan ctx) es = Some (Ret (w, replicate (length es) Returns)) ∧ wg_chWait w = false ∧
    wg_run (NewWaitGroupChan ctx) (es ++ [DoneSent]) = Some (Ret (w', replicate (length es) Returns ++ [Returns])) ∧
    wg_chWait w' = true ∧
    ∀ i, ∃ w'', wg_step w' (AddSent i) = Some (Ret (w'', Panics MsgFinished)).
Proof.
  intros Hw Hp Hne Hb. set (c := if ctx then Some false else None).
  assert (wg_run (NewWaitGroupChan ctx) es = Some (Ret (counting 1 c, replicate (length es) Returns))) as Hrun.
  { change (NewWaitGroupChan ctx) with (counting 0 c). rewrite wg_run_counting by done. by rewrite Hb. }
  exists (counting 1 c), (mkWg 0 true true true false c false). split; [done|]. split; [done|].
  split; [|split; [done|]].
  - rewrite (wg_run_app _ _ _ _ _ Hrun). reflexivity.
  - intros i. by eexists.
Qed.

Lemma wait_group_fan_out_witness :
  ∃ w, wg_run (NewWaitGroupChan true) ([AddSent 1; AddSent 1; DoneSent] ++ [DoneSent]) = Some (Ret (w, [Returns; Returns; Returns; Returns])) ∧ wg_chWait w = true.
Proof.
  destruct (wait_group_fan_out true [AddSent 1; AddSent 1; DoneSent]) as (_ & w & _ & _ & Hr & Hc & _).
  - repeat constructor.
  - intros p Hne Hp. destruct p as [|e1 p]; [done|]. apply prefix_cons_inv_1 in Hp as He; apply prefix_cons_inv_2 in Hp; subst.
    destruct p as [|e2 p]; [by vm_compute|]. apply prefix_cons_inv_1 in Hp as He; apply prefix_cons_inv_2 in Hp; subst.
    destruct p as [|e3 p]; [by vm_compute|]. apply prefix_cons_inv_1 in Hp as He; apply prefix_cons_inv_2 in Hp; subst.
    apply prefix_nil_inv in Hp as ->. by vm_compute.
  - done.
  - reflexivity.
  - exists w. split; [exact Hr|exact Hc].
Defined.

(** ** [PeriodicTask] *)

(** Where the goroutine stands: before the check of [chStop], in the [select], in the loop
    over the mailbox, in [taskFn], or gone.  [pt_runs] counts the finished runs. *)
Inductive pt_pc := PtTop | PtSelect | PtDrain | PtTask | PtGone.
#[export] Instance pt_pc_eq_dec : EqDecision pt_pc.
Proof. solve_decision. Defined.

Record PeriodicTask := mkPt { pt_mailbox : Mailbox unit; pt_pc_ : pt_pc; pt_chStop : bool; pt_chDone : bool; pt_runs : nat }.

Definition NewPeriodicTask : PeriodicTask := mkPt (NewMailbox 1) PtTop false false 0.

Definition pt_Enqueue (t : PeriodicTask) : PeriodicTask :=
  mkPt (Deliver (pt_mailbox t) tt) (pt_pc_ t) (pt_chStop t) (pt_chDone t) (pt_runs t).

(** The first half of [Close]; the second half waits for [chDone]. *)
Definition pt_Close (t : PeriodicTask) : outcome PeriodicTask :=
  let! c := close_chan (pt_chStop t) in Ret (mkPt (pt_mailbox t) (pt_pc_ t) c (pt_chDone t) (pt_runs t)).

Definition pt_goto (t : PeriodicTask) (pc : pt_pc) : PeriodicTask :=
  mkPt (pt_mailbox t) pc (pt_chStop t) (pt_chDone t) (pt_runs t).
Definition pt_return (t : PeriodicTask) : PeriodicTask := mkPt (pt_mailbox t) PtGone (pt_chStop t) true (pt_runs t).

(** A step of the goroutine; the [select] prefers the mailbox here, [pt_step] has the other
    branches. *)
Definition pt_own (t : PeriodicTask) : option PeriodicTask :=
  match pt_pc_ t with
  | PtTop => Some (if pt_chStop t then pt_return t else pt_goto t PtSelect)
  | PtSelect =>
      if mb_notify (pt_mailbox t) then Some (mkPt (take_token (pt_mailbox t)) PtDrain (pt_chStop t) (pt_chDone t) (pt_runs t))
      else if pt_chStop t then Some (pt_return t) else None
  | PtDrain =>
      Some (match Retrieve (pt_mailbox t) with
            | (None, mb) => mkPt mb PtTop (pt_chStop t) (pt_chDone t) (pt_runs t)
            | (Some _, mb) => mkPt mb PtTask (pt_chStop t) (pt_chDone t) (pt_runs t)
            end)
  | PtTask => Some (mkPt (pt_mailbox t) PtDrain (pt_chStop t) (pt_chDone t) (S (pt_runs t)))
  | PtGone => None
  end.

Inductive pt_step : PeriodicTask → PeriodicTask → Prop :=
  | pts_own t t' : pt_own t = Some t' → pt_step t t'
  | pts_stop t : pt_pc_ t = PtSelect → pt_chStop t = true → pt_step t (pt_return t)
  | pts_tick t : pt_pc_ t = PtSelect → pt_step t (pt_goto (pt_Enqueue t) PtTop)
  | pts_enqueue t : pt_step t (pt_Enqueue t)
  | pts_close t t' : pt_Close t = Ret t' → pt_step t t'.

(** At most one request is pending, and the goroutine never sleeps on one. *)
Record pt_ok (t : PeriodicTask) : Prop := {
  pto_one : length (mb_queue (pt_mailbox t)) ≤ 1;
  pto_cap : mb_capacity (pt_mailbox t) = 1;
  pto_wake : pt_pc_ t = PtTop ∨ pt_pc_ t = PtSelect → mb_queue (pt_mailbox t) ≠ [] → mb_notify (pt_mailbox t) = true;
  pto_gone : pt_pc_ t = PtGone ↔ pt_chDone t = true
}.

Lemma Deliver_one (m : Mailbox unit) : mb_capacity m = 1 → length (mb_queue m) ≤ 1 → mb_queue (Deliver m tt) = [tt].
Proof. intros Hc Hl. unfold Deliver. rewrite Hc. destruct (mb_queue m) as [|x [|y q]]; [done|done|simpl in Hl; lia]. Qed.

Lemma pt_Enqueue_ok t : pt_ok t → pt_ok (pt_Enqueue t).
Proof. intros [H1 H2 H3 H4]. split; cbn [pt_Enqueue pt_mailbox pt_pc_ pt_chDone]; [by rewrite Deliver_one|done|done|done]. Qed.

Lemma Retrieve_one (m : Mailbox unit) :
  length (mb_queue m) ≤ 1 →
  (mb_queue m = [] ∧ Retrieve m = (None, m)) ∨ (mb_queue m = [tt] ∧ Retrieve m = (Some tt, mkMailbox (mb_notify m) [] (mb_capacity m))).
Proof.
  intros Hl. unfold Retrieve. destruct (mb_queue m) as [|[] q]; [by left|right]. destruct q; [done|]. simpl in Hl. lia.
Qed.

Lemma pt_own_ok t t' : pt_ok t → pt_own t = Some t' → pt_ok t'.
Proof.
  intros [H1 H2 H3 H4] Hs. unfold pt_own in Hs. destruct (pt_pc_ t) eqn:Hpc.
  - destruct (pt_chStop t); simplify_eq; split; cbn; auto; try done; naive_solver.
  - destruct (mb_notify _); [|destruct (pt_chStop t)]; simplify_eq; split; cbn; auto; naive_solver.
  - injection Hs as <-. destruct (Retrieve_one _ H1) as [[Hq ->]|[Hq ->]]; split; cbn; auto; try lia; try (by rewrite ?Hq); naive_solver.
  - injection Hs as <-. split; cbn; auto; naive_solver.
  - done.
Qed.

Lemma pt_step_ok t t' : pt_ok t → pt_step t t' → pt_ok t'.
Proof.
  intros Hok Hs. destruct Hs as [t t' Hs|t Hpc Hs|t Hpc|t|t t' Hc].
  - by eapply pt_own_ok.
  - destruct Hok as [H1 H2 H3 H4]. split; cbn; auto; naive_solver.
  - pose proof (pt_Enqueue_ok t Hok) as [H1 H2 H3 H4]. split; cbn in *; auto. rewrite Hpc in H4. naive_solver.
  - by apply pt_Enqueue_ok.
  - unfold pt_Close in Hc. destruct (pt_chStop t); cbn in Hc; [done|]. injection Hc as <-. by destruct Hok.
Qed.

Lemma pt_reachable_ok t : rtc pt_step NewPeriodicTask t → pt_ok t.
Proof.
  intros Hr. enough (∀ s s', rtc pt_step s s' → pt_ok s → pt_ok s') as H.
  { apply (H _ _ Hr). split; cbn; [lia|done|done|done]. }
  clear. induction 1 as [|s1 s2 s3 Hs _ IH]; [done|]. intros H1. by apply IH, (pt_step_ok s1).
Qed.

Fixpoint pt_iter (n : nat) (t : PeriodicTask) : PeriodicTask :=
  match n with O => t | S n => match pt_own t with Some t' => pt_iter n t' | None => t end end.

(** A request is never lost: in every state that the task can be in, unless it was closed,
    one [Enqueue] leaves at most one request pending (the requests made while [taskFn] runs
    are merged) and the goroutine, left alone, runs the task again within six steps.  When it
    is closed it stops within six steps and at most two more runs, and a task that has
    stopped never runs again. *)
Theorem periodic_task_serves t :
  rtc pt_step NewPeriodicTask t →
  length (mb_queue (pt_mailbox (pt_Enqueue t))) = 1 ∧
  (pt_chStop t = false → pt_pc_ t ≠ PtGone → pt_runs t < pt_runs (pt_iter 6 (pt_Enqueue t))) ∧
  (pt_chStop t = true → pt_chDone (pt_iter 6 t) = true ∧ pt_runs (pt_iter 6 t) ≤ 2 + pt_runs t) ∧
  (pt_chDone t = true → ∀ t', pt_step t t' → pt_runs t' = pt_runs t ∧ pt_chDone t' = true).
Proof.
  intros Hr. pose proof (pt_reachable_ok t Hr) as [H1 H2 H3 H4]. destruct t as [[nt q cap] pc st dn runs]. cbn in *. subst cap.
  split_and!.
  - destruct q as [|[] [|? ?]]; cbn in *; try done; lia.
  - intros -> Hpc. destruct q as [|[] [|? ?]]; [| |cbn in H1; lia]; destruct pc, nt; try done; vm_compute; lia.
  - intros ->. destruct q as [|[] [|? ?]]; [| |cbn in H1; lia]; destruct pc, nt; try (by specialize (H3 ltac:(auto) ltac:(done))); vm_compute; (split; [|lia]); try done; by apply H4.
  - intros -> t' Hs. rewrite (proj2 H4 eq_refl) in Hs. inversion Hs; subst; try done. unfold pt_Close in *. cbn in *.
    destruct st; cbn in *; [done|]. by simplify_eq.
Qed.

Lemma periodic_task_serves_witness : 0 < pt_runs (pt_iter 6 (pt_Enqueue NewPeriodicTask)).
Proof.
  destruct (periodic_task_serves NewPeriodicTask (rtc_refl _ _)) as (_ & H & _). apply H; [reflexivity|discriminate].
Defined.

(** ** [CombinedContext] *)

(** A signal is a context, a channel or a timeout, or a value of another type, which is
    ignored; it has fired or not. *)
Inductive signal := SigContext (fired : bool) | SigChan (fired : bool) | SigTimeout (fired : bool) | SigOther.

(** The context made first, the goroutine that cancels it, and the child that is returned. *)
Record combined := mkCombined { cc_signals : list signal; cc_ctx : bool; cc_goroutine : bool; cc_child : bool }.

(** The returned context is a child of [ctx], except when there are no signals: then it is
    [ctx] itself and there is no goroutine. *)
Definition CombinedContext (signals : list signal) : combined := mkCombined signals false (bool_decide (signals ≠ [])) false.

Definition fired (s : signal) : bool := match s with SigContext b | SigChan b => b | SigTimeout b => b | SigOther => false end.
Definition fire (s : signal) : signal :=
  match s with SigContext _ => SigContext true | SigChan _ => SigChan true | SigTimeout _ => SigTimeout true | SigOther => SigOther end.

(** The timeouts are children of [ctx], which is a signal itself. *)
Definition select_ready (c : combined) : bool := existsb fired (cc_signals c) || cc_ctx c.

Inductive cc_step : combined → combined → Prop :=
  | ccs_fire c i s : cc_signals c !! i = Some s → cc_step c (mkCombined (<[i := fire s]> (cc_signals c)) (cc_ctx c) (cc_goroutine c) (cc_child c))
  | ccs_select c : cc_goroutine c = true → select_ready c = true → cc_step c (mkCombined (cc_signals c) true false true)
  | ccs_cancel c : cc_step c (mkCombined (cc_signals c) (if decide (cc_signals c = []) then true else cc_ctx c) (cc_goroutine c) true).

Record cc_ok (c : combined) : Prop := {
  cco_ctx : cc_ctx c = true → cc_signals c ≠ [] → existsb fired (cc_signals c) = true;
  cco_gone : cc_goroutine c = false → cc_signals c ≠ [] → cc_ctx c = true ∧ cc_child c = true
}.

Lemma fired_fire s : fired s = true → fired (fire s) = true.
Proof. by destruct s. Qed.
Lemma existsb_fire (l : list signal) i s : l !! i = Some s → existsb fired l = true → existsb fired (<[i := fire s]> l) = true.
Proof.
  revert i. induction l as [|x l IH]; intros [|i] Hi; cbn in Hi; simplify_eq.
  - cbn. intros [Hf|Hf]%orb_true_iff; [by rewrite fired_fire|by rewrite Hf, orb_true_r].
  - change (<[S i := fire s]> (x :: l)) with (x :: <[i := fire s]> l). cbn [existsb].
    intros [Hf|Hf]%orb_true_iff; [by rewrite Hf|]. by rewrite (IH i Hi Hf), orb_true_r.
Qed.
Lemma insert_not_nil {A} (l : list A) i x : <[i := x]> l ≠ [] → l ≠ [].
Proof. by destruct l, i. Qed.

Lemma cc_step_ok c c' : cc_ok c → cc_step c c' → cc_ok c'.
Proof.
  intros [H1 H2] Hs. destruct Hs as [c i s Hi|c Hg Hr|c]; split; cbn; try done.
  - intros Hc Hne%insert_not_nil. apply existsb_fire; auto.
  - intros Hg Hne%insert_not_nil. auto.
  - intros _ Hne. unfold select_ready in Hr. apply orb_true_iff in Hr as [Hr|Hr]; auto.
  - intros Hc Hne. rewrite decide_False in Hc by done. auto.
  - intros Hg Hne. rewrite decide_False by done. destruct (H2 Hg Hne). done.
Qed.

(** The combined context ends when a signal has fired (the goroutine can then always take its
    step, and ends it), and only then or when the caller cancels it; but the caller's cancel
    does not reach the goroutine: it stays until a signal fires, although [ctx] was put
    among the signals to end it. *)
Theorem combined_context signals c :
  signals ≠ [] → rtc cc_step (CombinedContext signals) c →
  (cc_goroutine c = true → existsb fired (cc_signals c) = true →
     ∃ c', cc_step c c' ∧ cc_child c' = true ∧ cc_goroutine c' = false) ∧
  (cc_goroutine c = false → existsb fired (cc_signals c) = true ∧ cc_child c = true).
Proof.
  intros Hne Hr. assert (cc_ok c ∧ cc_signals c ≠ []) as [[H1 H2] Hn].
  { enough (∀ s s', rtc cc_step s s' → cc_ok s → cc_signals s ≠ [] → cc_ok s' ∧ cc_signals s' ≠ []) as H.
    { apply (H _ _ Hr); [|done]. split; cbn; [done|]. rewrite bool_decide_true by done. done. }
    clear. induction 1 as [|s1 s2 s3 Hs _ IH]; [done|]. intros H1 Hn. apply IH; [by apply (cc_step_ok s1)|].
    destruct Hs; cbn; try done. destruct (cc_signals c), i; done. }
  split.
  - intros Hg Hf. eexists. split; [apply ccs_select; [done|]|done]. unfold select_ready. by rewrite Hf.
  - intros Hg. destruct (H2 Hg Hn). auto.
Qed.

Lemma combined_context_witness :
  let c := mkCombined [SigChan false] false true true in rtc cc_step (CombinedContext [SigChan false]) c ∧
  ~ (cc_goroutine c = false ∧ existsb fired (cc_signals c) = false).
Proof.
  assert (rtc cc_step (CombinedContext [SigChan false]) (mkCombined [SigChan false] false true true)) as Hr.
  { eapply rtc_once. exact (ccs_cancel (CombinedContext [SigChan false])). }
  split; [exact Hr|]. intros [Hg Hf].
  destruct (combined_context [SigChan false] _ ltac:(done) Hr) as [_ H]. destruct (H Hg) as [H' _]. congruence.
Defined.

(** ** The job queue *)

Section JobQueue.
Context {job : Type}.

(** Where [aggregateWork] stands: receiving, offering a batch that is full, offering one
    after the timeout, or gone (with [chBatches] closed). *)
Inductive jq_pc := JqReceive | JqFull | JqTimeout | JqGone.

(** [jq_once]: the [sync.Once] was used; [jq_uncapped] is the field, [jq_local] the local
    variable of the same name; [jq_sent] lists the batches that [GetBatch] returned. *)
Record jobQueue := mkJq {
  jq_chJobs : list job;
  jq_cap : nat;
  jq_chUncap : bool;
  jq_unfinished : Z;
  jq_batchSize : nat;
  jq_uncapped : bool;
  jq_once : bool;
  jq_ctx : bool;
  jq_pc_ : jq_pc;
  jq_local : bool;
  jq_current : list job;
  jq_sent : list (list job)
}.

Definition newJobQueue (jobs : list job) (batchSize : nat) : jobQueue :=
  mkJq jobs (length jobs) false (Z.of_nat (length jobs)) batchSize false false false JqReceive false [] [].

Definition jq_with_jobs (q : jobQueue) (js : list job) : jobQueue :=
  mkJq js (jq_cap q) (jq_chUncap q) (jq_unfinished q) (jq_batchSize q) (jq_uncapped q) (jq_once q) (jq_ctx q) (jq_pc_ q) (jq_local q) (jq_current q) (jq_sent q).
Definition jq_goto (q : jobQueue) (pc : jq_pc) (current : list job) : jobQueue :=
  mkJq (jq_chJobs q) (jq_cap q) (jq_chUncap q) (jq_unfinished q) (jq_batchSize q) (jq_uncapped q) (jq_once q) (jq_ctx q) pc (jq_local q) current (jq_sent q).

(** [Close] and [UncapBatchSize]; the token has room because it is put once. *)
Definition jq_Close (q : jobQueue) : jobQueue :=
  mkJq (jq_chJobs q) (jq_cap q) (jq_chUncap q) (jq_unfinished q) (jq_batchSize q) (jq_uncapped q) (jq_once q) true (jq_pc_ q) (jq_local q) (jq_current q) (jq_sent q).
Definition UncapBatchSize (q : jobQueue) : jobQueue :=
  if jq_once q then q
  else mkJq (jq_chJobs q) (jq_cap q) true (jq_unfinished q) (jq_batchSize q) (jq_uncapped q) true (jq_ctx q) (jq_pc_ q) (jq_local q) (jq_current q) (jq_sent q).

(** A job is received. *)
Definition jq_receive (q : jobQueue) (j : job) (rest : list job) : jobQueue :=
  let current := jq_current q ++ [j] in
  let pc := if negb (jq_local q) && bool_decide (jq_batchSize q ≤ length current) then JqFull else JqReceive in
  jq_goto (jq_with_jobs q rest) pc current.

(** The token is taken: the field is set, the local variable is not. *)
Definition jq_uncap (q : jobQueue) : jobQueue :=
  mkJq (jq_chJobs q) (jq_cap q) false (jq_unfinished q) (jq_batchSize q) true (jq_once q) (jq_ctx q) JqReceive (jq_local q) (jq_current q) (jq_sent q).

(** [GetBatch] takes the batch that is offered, and the next one is begun. *)
Definition jq_send (q : jobQueue) : jobQueue :=
  mkJq (jq_chJobs q) (jq_cap q) (jq_chUncap q) (jq_unfinished q) (jq_batchSize q) (jq_uncapped q) (jq_once q) (jq_ctx q) JqReceive (jq_local q) []
    (jq_sent q ++ [jq_current q]).

(** [MarkDone(i)] is received. *)
Definition jq_finished (q : jobQueue) (i : Z) : jobQueue :=
  let n := i64 (jq_unfinished q - i) in
  mkJq (jq_chJobs q) (jq_cap q) (jq_chUncap q) n (jq_batchSize q) (jq_uncapped q) (jq_once q) (jq_ctx q)
    (if decide (n ≤ 0)%Z then JqGone else JqReceive) (jq_local q) (jq_current q) (jq_sent q).

Inductive jq_step : jobQueue → jobQueue → Prop :=
  | jqs_receive q j rest : jq_pc_ q = JqReceive → jq_chJobs q = j :: rest → jq_step q (jq_receive q j rest)
  | jqs_uncap q : jq_pc_ q = JqFull → jq_chUncap q = true → jq_step q (jq_uncap q)
  | jqs_send q : jq_pc_ q = JqFull ∨ jq_pc_ q = JqTimeout → jq_step q (jq_send q)
  | jqs_timeout q : jq_pc_ q = JqReceive →
      jq_step q (if decide (0 < length (jq_current q)) then jq_goto q JqTimeout (jq_current q) else jq_goto q JqReceive [])
  | jqs_finished q i : jq_pc_ q = JqReceive → jq_step q (jq_finished q i)
  | jqs_ctx q : jq_ctx q = true → jq_step q (jq_goto q JqGone (jq_current q))
  | jqs_close q : jq_step q (jq_Close q)
  | jqs_uncap_call q : jq_step q (UncapBatchSize q).

(** One job of [ReturnFailed], when the channel has room. *)
Definition ReturnFailed_one (q : jobQueue) (j : job) : option jobQueue :=
  if decide (length (jq_chJobs q) < jq_cap q) then Some (jq_with_jobs q (jq_chJobs q ++ [j])) else None.

(** A run of the queue and its clients: the jobs that were returned, in their order. *)
Inductive jq_runs : jobQueue → list job → jobQueue → Prop :=
  | jqr_refl q : jq_runs q [] q
  | jqr_step q q' q'' js : jq_step q q' → jq_runs q' js q'' → jq_runs q js q''
  | jqr_return q q' q'' j js : ReturnFailed_one q j = Some q' → jq_runs q' js q'' → jq_runs q (j :: js) q''.

(** Every job is in a batch that was handed out, in the batch being filled, or waiting. *)
Definition jq_all (q : jobQueue) : list job := concat (jq_sent q) ++ jq_current q ++ jq_chJobs q.

Lemma jq_step_all q q' : jq_step q q' → jq_all q' ≡ₚ jq_all q.
Proof.
  intros Hs. destruct Hs as [q j rest _ Hj|q|q _|q|q i|q|q|q]; unfold jq_all; cbn; try done.
  - rewrite Hj, <- (assoc_L (++)). done.
  - rewrite concat_app. cbn. rewrite app_nil_r, <- (assoc_L (++)). done.
  - destruct (jq_current q) eqn:Hc; cbn; [by rewrite ?Hc|]. by rewrite ?Hc.
  - unfold UncapBatchSize. by destruct (jq_once q).
Qed.

(** The batch size holds, with one job to spare for the uncapping. *)
Definition spare (q : jobQueue) : nat := if jq_uncapped q then 1 else 0.
Definition jq_limit (q : jobQueue) : nat := jq_batchSize q `max` 1.

Record jq_ok (q : jobQueue) : Prop := {
  jqo_local : jq_local q = false;
  jqo_uncap : jq_uncapped q = true → jq_chUncap q = false ∧ jq_once q = true;
  jqo_token : jq_chUncap q = true → jq_once q = true;
  jqo_recv : jq_pc_ q = JqReceive → length (jq_current q) < jq_limit q + spare q;
  jqo_full : length (jq_current q) ≤ jq_limit q + spare q;
  jqo_offer : jq_pc_ q = JqFull ∨ jq_pc_ q = JqTimeout → jq_current q ≠ [];
  jqo_sent : Forall (λ b, b ≠ [] ∧ length b ≤ jq_limit q + spare q) (jq_sent q)
}.

Lemma newJobQueue_ok (jobs : list job) n : jq_ok (newJobQueue jobs n).
Proof. split; cbn; try done; unfold jq_limit; cbn; try lia; try (by intros []). Qed.

Lemma jq_sent_weaken (l : list (list job)) m n :
  m ≤ n → Forall (λ b, b ≠ [] ∧ length b ≤ m) l → Forall (λ b, b ≠ [] ∧ length b ≤ n) l.
Proof. intros Hmn Hl. eapply Forall_impl; [exact Hl|]. intros b [H1 H2]. split; [done|lia]. Qed.

Lemma jq_receive_ok q j rest : jq_ok q → jq_pc_ q = JqReceive → jq_ok (jq_receive q j rest).
Proof.
  intros [H1 H2 H3 H4 H5 H6 H7] Hpc. specialize (H4 Hpc). unfold jq_receive. rewrite H1. cbn [negb andb].
  split; cbn; try done; unfold jq_limit, spare in *; cbn; rewrite ?length_app; cbn [length]; try lia.
  - case_bool_decide as Hb; [done|]. lia.
  - intros _. by destruct (jq_current q).
Qed.

Lemma jq_uncap_ok q : jq_ok q → jq_chUncap q = true → jq_ok (jq_uncap q).
Proof.
  intros [H1 H2 H3 H4 H5 H6 H7] Ht. assert (jq_uncapped q = false) as Hu.
  { destruct (jq_uncapped q); [|done]. destruct (H2 eq_refl). congruence. }
  unfold spare in *. rewrite Hu in *. split; cbn; unfold jq_limit in *; cbn; try done; try lia; auto; try (by intros []).
  eapply jq_sent_weaken; [|done]. lia.
Qed.

Lemma jq_send_ok q : jq_ok q → jq_pc_ q = JqFull ∨ jq_pc_ q = JqTimeout → jq_ok (jq_send q).
Proof.
  intros [H1 H2 H3 H4 H5 H6 H7] Hpc. split; cbn; unfold jq_limit, spare in *; cbn in *; try done; try lia; try (by intros []).
  apply Forall_app. split; [done|]. constructor; [|constructor]. auto.
Qed.

Lemma jq_goto_ok q pc : jq_ok q → (pc = JqReceive → jq_pc_ q = JqReceive) → (pc = JqFull ∨ pc = JqTimeout → jq_current q ≠ []) →
  jq_ok (jq_goto q pc (jq_current q)).
Proof. intros [H1 H2 H3 H4 H5 H6 H7] Hr Hf. split; cbn; auto. Qed.

Lemma jq_step_ok q q' : jq_ok q → jq_step q q' → jq_ok q' ∧ jq_batchSize q' = jq_batchSize q.
Proof.
  intros Hok Hs. destruct Hs as [q j rest Hpc Hj|q Hpc Ht|q Hpc|q Hpc|q i Hpc|q Hc|q|q].
  - split; [by apply jq_receive_ok|done].
  - split; [by apply jq_uncap_ok|done].
  - split; [by apply jq_send_ok|done].
  - destruct (jq_current q) eqn:Hcur; cbn [length]; [rewrite decide_False by lia|rewrite decide_True by lia];
      rewrite <- Hcur; (split; [|done]); apply jq_goto_ok; try done; [by intros []|]. intros _. by rewrite Hcur.
  - split; [|done]. destruct Hok as [H1 H2 H3 H4 H5 H6 H7]. unfold jq_finished. case_decide; split; cbn; auto; by intros [].
  - split; [|done]. apply jq_goto_ok; [done|done|by intros []].
  - split; [|done]. by destruct Hok.
  - unfold UncapBatchSize. destruct (jq_once q) eqn:Ho; [done|]. split; [|done].
    destruct Hok as [H1 H2 H3 H4 H5 H6 H7]. split; cbn; auto. intros Hu. destruct (H2 Hu). congruence.
Qed.

Lemma jq_return_ok q j q' : jq_ok q → ReturnFailed_one q j = Some q' →
  jq_ok q' ∧ jq_batchSize q' = jq_batchSize q ∧ jq_all q' = jq_all q ++ [j].
Proof.
  intros Hok. unfold ReturnFailed_one. case_decide; [|done]. intros [= <-]. split; [by destruct Hok|]. split; [done|].
  unfold jq_all. cbn. by rewrite !(assoc_L (++)).
Qed.

Lemma jq_runs_ok q js q' : jq_runs q js q' → jq_ok q →
  jq_ok q' ∧ jq_batchSize q' = jq_batchSize q ∧ jq_all q' ≡ₚ jq_all q ++ js.
Proof.
  induction 1 as [q|q q1 q' js Hs _ IH|q q1 q' j js Hr _ IH]; intros Hok.
  - split_and!; try done. by rewrite app_nil_r.
  - destruct (jq_step_ok _ _ Hok Hs) as [Hok1 Hb1]. destruct (IH Hok1) as (Hok' & Hb & Hp). split_and!; [done|congruence|].
    by rewrite Hp, (jq_step_all _ _ Hs).
  - destruct (jq_return_ok _ _ _ Hok Hr) as (Hok1 & Hb1 & Ha1). destruct (IH Hok1) as (Hok' & Hb & Hp). split_and!; [done|congruence|].
    by rewrite Hp, Ha1, <- (assoc_L (++)).
Qed.

(** In every interleaving of the queue with its clients no job is lost or handed out twice:
    the batches that were handed out, the batch being filled and the waiting jobs are
    together the jobs that were put in and those that were returned.  No batch is empty, and
    none has more jobs than the batch size, or one more after [UncapBatchSize]: the field
    that it sets is not the variable that the loop reads, so the size is never uncapped. *)
Theorem job_queue_batches (jobs : list job) n returned q :
  jq_runs (newJobQueue jobs n) returned q →
  concat (jq_sent q) ++ jq_current q ++ jq_chJobs q ≡ₚ jobs ++ returned ∧
  Forall (λ b, b ≠ [] ∧ length b ≤ (n `max` 1) + 1) (jq_sent q) ∧
  (jq_uncapped q = false → Forall (λ b, length b ≤ n `max` 1) (jq_sent q)).
Proof.
  intros Hr. destruct (jq_runs_ok _ _ _ Hr (newJobQueue_ok jobs n)) as (Hok & Hb & Hp). cbn in Hb.
  pose proof (jqo_sent q Hok) as Hs. unfold jq_limit in Hs. rewrite Hb in Hs. split_and!.
  - exact Hp.
  - eapply jq_sent_weaken; [|exact Hs]. unfold spare. destruct (jq_uncapped q); lia.
  - intros Hu. unfold spare in Hs. rewrite Hu in Hs. eapply Forall_impl; [exact Hs|]. intros b [_ Hl]. cbn in Hl. lia.
Qed.
End JobQueue.
Arguments jobQueue job : clear implicits.

(** Three jobs in batches of two; the token arrives while the first batch is offered. *)
Definition uncapped_run : jobQueue nat :=
  jq_send (jq_receive (jq_uncap (UncapBatchSize (jq_receive (jq_receive (newJobQueue [1; 2; 3; 4] 2) 1 [2; 3; 4]) 2 [3; 4]))) 3 [4]).

Lemma job_queue_batches_witness :
  jq_sent uncapped_run = [[1; 2; 3]] ∧ Forall (λ b : list nat, b ≠ [] ∧ length b ≤ 3) (jq_sent uncapped_run).
Proof.
  assert (jq_runs (newJobQueue [1; 2; 3; 4] 2) [] uncapped_run) as Hr.
  { eapply jqr_step; [apply jqs_receive; reflexivity|]. eapply jqr_step; [apply jqs_receive; reflexivity|].
    eapply jqr_step; [apply jqs_uncap_call|]. eapply jqr_step; [apply jqs_uncap; reflexivity|].
    eapply jqr_step; [apply jqs_receive; reflexivity|]. eapply jqr_step; [apply jqs_send; left; reflexivity|]. apply jqr_refl. }
  split; [reflexivity|]. destruct (job_queue_batches [1; 2; 3; 4] 2 [] uncapped_run Hr) as (_ & H & _). exact H.
Defined.
