(* ===== verification/Contexts.v ===== *)
(** * Contexts that stop their children first ([ctx/context.go])

    A [Context] has tasks ([CtxGo]), children ([CtxAddChild]) and an end ([CtxStop]): the
    first stop runs the callbacks, takes the context off its parent, stops every child in a
    goroutine of its own, waits for them, and only then closes the channel that the tasks
    wait on.

    The model interleaves goroutines.  A goroutine is a value that says where it stands, a
    step moves one of them over one synchronised action, or is a call by the program that
    uses the contexts; [Running] is the outcome of a goroutine that has to wait.  Sections
    under [childrenMutex] are short and are one step each; [stopMutex] is held over several
    steps, and is a field.  The callbacks return, and leave an event in the trace. *)

From S2P Require Import Prelude Types.

(** ** State *)

Record Context := mkContext {
  x_started : bool;                      (* [Context] is not nil *)
  x_done : bool;                         (* its channel is closed *)
  x_cancel : bool;                       (* [ctxCancel] is not nil *)
  x_pending : nat;                       (* [stopComplete] *)
  x_locked : bool;                       (* [stopMutex] *)
  x_reason : bytes;
  x_parent : option nat;
  x_children : list (bytes * nat);
  x_onAboutToStop : bool;
  x_onChildAboutToStop : bool;
  x_faults : nat;
  x_limit : nat
}.

Definition zero_context : Context := mkContext false false false 0 false [] None [] false false 0 0.

Definition with_lock (b : bool) (x : Context) : Context :=
  mkContext (x_started x) (x_done x) (x_cancel x) (x_pending x) b (x_reason x) (x_parent x) (x_children x) (x_onAboutToStop x) (x_onChildAboutToStop x) (x_faults x) (x_limit x).
Definition with_stop (reason : bytes) (x : Context) : Context :=
  mkContext (x_started x) (x_done x) false (x_pending x) true reason (x_parent x) (x_children x) (x_onAboutToStop x) (x_onChildAboutToStop x) (x_faults x) (x_limit x).
Definition with_pending (n : nat) (x : Context) : Context :=
  mkContext (x_started x) (x_done x) (x_cancel x) n (x_locked x) (x_reason x) (x_parent x) (x_children x) (x_onAboutToStop x) (x_onChildAboutToStop x) (x_faults x) (x_limit x).
Definition with_parent (p : option nat) (x : Context) : Context :=
  mkContext (x_started x) (x_done x) (x_cancel x) (x_pending x) (x_locked x) (x_reason x) p (x_children x) (x_onAboutToStop x) (x_onChildAboutToStop x) (x_faults x) (x_limit x).
Definition with_children (l : list (bytes * nat)) (x : Context) : Context :=
  mkContext (x_started x) (x_done x) (x_cancel x) (x_pending x) (x_locked x) (x_reason x) (x_parent x) l (x_onAboutToStop x) (x_onChildAboutToStop x) (x_faults x) (x_limit x).
Definition without_about (x : Context) : Context :=
  mkContext (x_started x) (x_done x) (x_cancel x) (x_pending x) (x_locked x) (x_reason x) (x_parent x) (x_children x) false (x_onChildAboutToStop x) (x_faults x) (x_limit x).
Definition with_done (x : Context) : Context :=
  mkContext (x_started x) true (x_cancel x) (x_pending x) (x_locked x) (x_reason x) (x_parent x) (x_children x) (x_onAboutToStop x) (x_onChildAboutToStop x) (x_faults x) (x_limit x).
Definition with_faults (n : nat) (x : Context) : Context :=
  mkContext (x_started x) (x_done x) (x_cancel x) (x_pending x) (x_locked x) (x_reason x) (x_parent x) (x_children x) (x_onAboutToStop x) (x_onChildAboutToStop x) n (x_limit x).

(** What [CtxStop] does when it is over: nothing, [CtxWait], or [CtxWait] and [Done] of a
    wait group. *)
Inductive release := NoRelease | WaitOnly | Release (w : nat).

(** Where a call of [CtxStop] stands; [initiated] is what it returns. *)
Inductive pc :=
  | PLock | PAbout | PDetach | PNotify (p : nat) (native : option nat) | PStopChildren | PAwait (w : nat) | PCancel
  | PUnlock (initiated : bool) | PWait (initiated : bool) | PRelease (w : nat) (initiated : bool) | PReturned (initiated : bool).

(** Where a task of a context stands: it runs, has to call [Done], or is over. *)
Inductive tpc := TRuns | TDone | TOver.

(** [GWatch] is the task of [CtxStart], which waits for the end and calls [onStopping]. *)
Inductive goroutine :=
  | GStop (c : nat) (reason : bytes) (rel : release) (p : pc)
  | GWatch (c : nat) (onStopping : bool) (p : tpc)
  | GTask (c : nat) (p : tpc).

Inductive event :=
  | EAboutToStop (c : nat)
  | EChildAboutToStop (c : nat) (native : option nat)
  | EStopChildren (c : nat) (children : list nat)
  | ECancel (c : nat)
  | EStopping (c : nat).

Record state := mkState {
  s_ctxs : gmap nat Context;
  s_gos : list goroutine;
  s_groups : list nat;                   (* wait groups *)
  s_trace : list event
}.

(** Every context has the zero value. *)
Definition no_contexts : state := mkState ∅ [] [] [].

Definition ctx_at (s : state) (c : nat) : Context := default zero_context (s_ctxs s !! c).

Definition on_ctx (c : nat) (f : Context → Context) (s : state) : state := mkState (<[c := f (ctx_at s c)]> (s_ctxs s)) (s_gos s) (s_groups s) (s_trace s).
Definition set_go (g : nat) (x : goroutine) (s : state) : state := mkState (s_ctxs s) (<[g := x]> (s_gos s)) (s_groups s) (s_trace s).
Definition spawn (xs : list goroutine) (s : state) : state := mkState (s_ctxs s) (s_gos s ++ xs) (s_groups s) (s_trace s).
Definition emit (e : event) (s : state) : state := mkState (s_ctxs s) (s_gos s) (s_groups s) (s_trace s ++ [e]).
Definition emit_if (b : bool) (e : event) (s : state) : state := mkState (s_ctxs s) (s_gos s) (s_groups s) (s_trace s ++ if b then [e] else []).
Definition new_group (n : nat) (s : state) : state := mkState (s_ctxs s) (s_gos s) (s_groups s ++ [n]) (s_trace s).

(** ** Queries *)

Definition CtxRunning (x : Context) : bool := x_started x && negb (x_done x).

Inductive ctx_error := ErrCtxNotRunning | ErrCanceled.
Definition CtxStatus (x : Context) : option ctx_error :=
  if negb (x_started x) then Some ErrCtxNotRunning else if x_done x then Some ErrCanceled else None.

Definition CtxStopped (x : Context) : bool := negb (x_started x).

(** The loop goes on after a match. *)
Definition CtxGetChildByID (x : Context) (id : bytes) : option nat :=
  foldl (λ r '(cid, c), if decide (cid = id) then Some c else r) None (x_children x).

(** ** [CtxStop] *)

(** [childStopping]: the child's entry, the first one, goes away. *)
Definition remove_child (c : nat) (l : list (bytes * nat)) : option (list (bytes * nat)) :=
  match list_find (λ x, x.2 = c) l with Some (i, _) => Some (delete i l) | None => None end.

Definition childStopping (s : state) (p c : nat) : state * option nat :=
  let s := on_ctx c (with_parent None) s in
  match remove_child c (x_children (ctx_at s p)) with
  | Some l => (on_ctx p (with_children l) s, Some c)
  | None => (s, None)
  end.

(** [CtxStopChildren]: one goroutine per child, the last child's first. *)
Definition CtxStopChildren (s : state) (c : nat) (reason : bytes) : state * nat :=
  let kids := (x_children (ctx_at s c)).*2 in
  let w := length (s_groups s) in
  (spawn ((λ d, GStop d reason (Release w) PLock) <$> reverse kids) (new_group (length kids) (emit (EStopChildren c kids) s)), w).

Definition run_stop (s : state) (g c : nat) (reason : bytes) (rel : release) (p : pc) : outcome state :=
  let goto q := set_go g (GStop c reason rel q) in
  let x := ctx_at s c in
  match p with
  | PLock =>
      if x_locked x then Running
      else if CtxRunning x && x_cancel x then Ret (goto PAbout (on_ctx c (with_stop reason) s))
      else Ret (goto (PUnlock false) (on_ctx c (with_lock true) s))
  | PAbout => Ret (goto PDetach (emit_if (x_onAboutToStop x) (EAboutToStop c) (on_ctx c without_about s)))
  | PDetach =>
      match x_parent x with
      | None => Ret (goto PStopChildren s)
      | Some q => let '(s, native) := childStopping s q c in Ret (goto (PNotify q native) s)
      end
  | PNotify q native => Ret (goto PStopChildren (emit_if (x_onChildAboutToStop (ctx_at s q)) (EChildAboutToStop q native) s))
  | PStopChildren => let '(s, w) := CtxStopChildren s c (str "parent is stopping") in Ret (goto (PAwait w) s)
  | PAwait w => if decide (s_groups s !! w = Some 0) then Ret (goto PCancel s) else Running
  | PCancel => Ret (goto (PUnlock true) (emit (ECancel c) (on_ctx c with_done s)))
  | PUnlock i => Ret (goto (match rel with NoRelease => PReturned i | _ => PWait i end) (on_ctx c (with_lock false) s))
  | PWait i =>
      if decide (x_pending x = 0) then Ret (goto (match rel with Release w => PRelease w i | _ => PReturned i end) s) else Running
  | PRelease w i =>
      match s_groups s !! w with
      | Some (S n) => Ret (goto (PReturned i) (mkState (s_ctxs s) (s_gos s) (<[w := n]> (s_groups s)) (s_trace s)))
      | _ => Panic
      end
  | PReturned _ => Running
  end.

(** [Done] of [stopComplete]. *)
Definition task_done (s : state) (c : nat) : outcome state :=
  match x_pending (ctx_at s c) with S n => Ret (on_ctx c (with_pending n) s) | O => Panic end.

Definition run_go (s : state) (g : nat) : outcome state :=
  match s_gos s !! g with
  | Some (GStop c reason rel p) => run_stop s g c reason rel p
  | Some (GWatch c cb TRuns) =>
      if x_done (ctx_at s c) then Ret (set_go g (GWatch c cb TDone) (emit_if cb (EStopping c) s)) else Running
  | Some (GWatch c cb TDone) => let! s := task_done s c in Ret (set_go g (GWatch c cb TOver) s)
  | Some (GTask c TRuns) => Ret (set_go g (GTask c TDone) s)
  | Some (GTask c TDone) => let! s := task_done s c in Ret (set_go g (GTask c TOver) s)
  | Some (GWatch _ _ TOver) | Some (GTask _ TOver) | None => Running
  end.

(** ** The calls of a program *)

(** [CtxGo] *)
Definition CtxGo (s : state) (c : nat) (task : goroutine) : state :=
  spawn [task] (on_ctx c (λ x, with_pending (S (x_pending x)) x) s).

(** [CtxStart]; [fails] is what [onStartup] returns. *)
Definition CtxStart (s : state) (c : nat) (fails aboutToStop childAboutToStop stopping : bool) : outcome state :=
  let x := ctx_at s c in
  if CtxRunning x then Panic
  else
    let s := on_ctx c (λ x, mkContext true false true (x_pending x) (x_locked x) (x_reason x) (x_parent x) (x_children x) aboutToStop childAboutToStop (x_faults x) 1) s in
    let s := CtxGo s c (GWatch c stopping TRuns) in
    Ret (if fails then spawn [GStop c (str "CtxStart failed") WaitOnly PLock] s else s).

(** [setParent] *)
Definition setParent (s : state) (c : nat) (p : nat) : outcome state :=
  match x_parent (ctx_at s c) with Some _ => Panic | None => Ret (on_ctx c (with_parent (Some p)) s) end.

(** [CtxAddChild] *)
Definition CtxAddChild (s : state) (c d : nat) (id : bytes) : outcome state :=
  setParent (on_ctx c (λ x, with_children (x_children x ++ [(id, d)]) x) s) d c.

(** [CtxOnFault] with an error. *)
Definition CtxOnFault (s : state) (c : nat) : outcome state :=
  let x := ctx_at s c in
  if x_locked x then Running
  else
    let s := on_ctx c (with_faults (S (x_faults x))) s in
    if decide (S (x_faults x) < x_limit x) then Ret s else Ret (spawn [GStop c (str "fault limit reached") NoRelease PLock] s).

(** A step: a goroutine goes on, or the program calls; with [waits] the caller's wait group
    has been told of one more. *)
Inductive action :=
  | Run (g : nat)
  | AStart (c : nat) (fails aboutToStop childAboutToStop stopping : bool)
  | AStop (c : nat) (reason : bytes) (waits : bool)
  | AGo (c : nat)
  | AAddChild (c d : nat) (id : bytes)
  | AFault (c : nat).

Definition step (s : state) (a : action) : outcome state :=
  match a with
  | Run g => run_go s g
  | AStart c fails a b d => CtxStart s c fails a b d
  | AStop c reason true => Ret (spawn [GStop c reason (Release (length (s_groups s))) PLock] (new_group 1 s))
  | AStop c reason false => Ret (spawn [GStop c reason NoRelease PLock] s)
  | AGo c => Ret (CtxGo s c (GTask c TRuns))
  | AAddChild c d id => CtxAddChild s c d id
  | AFault c => CtxOnFault s c
  end.

(** ** The interrupt handler *)

Inductive signal_reaction := StopGracefully | IgnoreSignal | ExitProcess.

(** The count and the time of the first signal, and the time in seconds. *)
Definition on_signal (h : nat * Z) (curTime : Z) : (nat * Z) * signal_reaction :=
  let '(count, firstTime) := h in
  if decide (S count = 1) then ((1, curTime), StopGracefully)
  else ((S count, firstTime), if decide (curTime > firstTime + 3)%Z then ExitProcess else IgnoreSignal).

(** ** Counting *)

Definition b2n (b : bool) : nat := if b then 1 else 0.

Definition count {A} (P : A → bool) (l : list A) : nat := sum_list_with (λ x, b2n (P x)) l.

Arguments count : simpl never.

Lemma count_app {A} (P : A → bool) l1 l2 : count P (l1 ++ l2) = count P l1 + count P l2.
Proof. apply sum_list_with_app. Qed.

Lemma count_insert {A} (P : A → bool) (l : list A) i x y :
  l !! i = Some x → count P (<[i := y]> l) + b2n (P x) = count P l + b2n (P y).
Proof.
  unfold count. revert i. induction l as [|a l IH]; intros [|i] Hi; simplify_eq/=; [lia|]. specialize (IH i Hi). lia.
Qed.

Lemma count_one {A} (P : A → bool) x : count P [x] = b2n (P x).
Proof. unfold count. cbn. lia. Qed.

Lemma count_pos {A} (P : A → bool) (l : list A) : 0 < count P l ↔ ∃ i x, l !! i = Some x ∧ P x = true.
Proof.
  unfold count. induction l as [|a l IH]; cbn; [split; [lia|by intros (? & ? & ? & _)]|]. destruct (P a) eqn:Ha; cbn.
  - split; [intros _; by exists 0, a|lia].
  - rewrite IH. split; [intros (i & x & Hi & Hx); by exists (S i), x|]. intros ([|i] & x & Hi & Hx); simplify_eq/=; [congruence|eauto].
Qed.

Lemma count_zero {A} (P : A → bool) (l : list A) : (∀ i x, l !! i = Some x → P x = false) → count P l = 0.
Proof.
  intros Hn. destruct (count P l) as [|n] eqn:Hc; [done|]. destruct (proj1 (count_pos P l)) as (i & x & Hi & Hx); [lia|]. by rewrite (Hn i x Hi) in Hx.
Qed.

(** ** Reachable states *)

Section Reachable.
(** The contexts form a forest: children are below their parents. *)
Context (rank : nat → nat).

(** Contexts are started once, before they are stopped or get a parent. *)
Definition orderly (s : state) (a : action) : Prop :=
  match a with
  | AStart c _ _ _ _ => x_started (ctx_at s c) = false
  | AStop c _ _ | AFault c => x_started (ctx_at s c) = true
  | AAddChild c d _ => x_started (ctx_at s d) = true ∧ rank d < rank c
  | Run _ | AGo _ => True
  end.

Inductive reachable : state → Prop :=
  | reach_start : reachable no_contexts
  | reach_step s a s' : reachable s → orderly s a → step s a = Ret s' → reachable s'.

(** *** What goroutines are doing *)

Definition p_critical (p : pc) : bool :=
  match p with PAbout | PDetach | PNotify _ _ | PStopChildren | PAwait _ | PCancel | PUnlock _ => true | _ => false end.
Definition p_stopping (p : pc) : bool :=
  match p with PAbout | PDetach | PNotify _ _ | PStopChildren | PAwait _ | PCancel => true | _ => false end.
Definition p_past (p : pc) : bool := match p with PUnlock _ | PWait _ | PRelease _ _ | PReturned _ => true | _ => false end.
Definition p_initiated (p : pc) : bool := match p with PUnlock i | PWait i | PRelease _ i | PReturned i => i | _ => false end.
Definition p_returned (p : pc) : bool := match p with PReturned _ => true | _ => false end.

Definition stops (P : pc → bool) (c : nat) (x : goroutine) : bool := match x with GStop d _ _ p => bool_decide (c = d) && P p | _ => false end.
Definition t_live (p : tpc) : bool := match p with TOver => false | _ => true end.
Definition live (c : nat) (x : goroutine) : bool := match x with GWatch d _ p | GTask d p => bool_decide (c = d) && t_live p | _ => false end.
Definition waits (w : nat) (x : goroutine) : bool :=
  match x with GStop _ _ (Release w') p => bool_decide (w = w') && negb (p_returned p) | _ => false end.

(** *** Counters and locks *)

Record counted (s : state) : Prop := {
  n_lock c : count (stops p_critical c) (s_gos s) = b2n (x_locked (ctx_at s c));
  n_stopping c : count (stops p_stopping c) (s_gos s) = b2n (CtxRunning (ctx_at s c) && negb (x_cancel (ctx_at s c)));
  n_initiated c : count (stops p_initiated c) (s_gos s) = b2n (x_done (ctx_at s c));
  n_pending c : count (live c) (s_gos s) = x_pending (ctx_at s c);
  n_flags c : (x_cancel (ctx_at s c) = true → CtxRunning (ctx_at s c) = true) ∧ (x_done (ctx_at s c) = true → x_started (ctx_at s c) = true)
}.

Lemma ctx_at_on c f s d : ctx_at (on_ctx c f s) d = if decide (c = d) then f (ctx_at s c) else ctx_at s d.
Proof. unfold ctx_at at 1, on_ctx. cbn. case_decide; [subst; by rewrite lookup_insert_eq|by rewrite lookup_insert_ne]. Qed.

(** The cases of a step. *)
Ltac step_cases Hs :=
  unfold step, run_go, run_stop, task_done, CtxStart, CtxAddChild, setParent, CtxOnFault, CtxGo in Hs; cbn [obind] in Hs;
  repeat (case_match; cbn [obind] in Hs); try discriminate Hs; injection Hs as <-.

(** A state with the same goroutines but one. *)
Lemma counted_set s s1 g x y :
  counted s → s_gos s1 = s_gos s → s_gos s !! g = Some x →
  (∀ c, b2n (x_locked (ctx_at s1 c)) + b2n (stops p_critical c x) = b2n (x_locked (ctx_at s c)) + b2n (stops p_critical c y) ∧
        b2n (CtxRunning (ctx_at s1 c) && negb (x_cancel (ctx_at s1 c))) + b2n (stops p_stopping c x) =
          b2n (CtxRunning (ctx_at s c) && negb (x_cancel (ctx_at s c))) + b2n (stops p_stopping c y) ∧
        b2n (x_done (ctx_at s1 c)) + b2n (stops p_initiated c x) = b2n (x_done (ctx_at s c)) + b2n (stops p_initiated c y) ∧
        x_pending (ctx_at s1 c) + b2n (live c x) = x_pending (ctx_at s c) + b2n (live c y) ∧
        (x_cancel (ctx_at s1 c) = true → CtxRunning (ctx_at s1 c) = true) ∧ (x_done (ctx_at s1 c) = true → x_started (ctx_at s1 c) = true)) →
  counted (set_go g y s1).
Proof.
  intros Hc Hg Hx Hd. split; intros c; destruct (Hd c) as (H1 & H2 & H3 & H4 & H5); cbn [set_go s_gos]; rewrite ?Hg;
    try (match goal with |- count ?P _ = _ => pose proof (count_insert P (s_gos s) g x y Hx) end);
    pose proof (n_lock s Hc c); pose proof (n_stopping s Hc c); pose proof (n_initiated s Hc c); pose proof (n_pending s Hc c);
    change (ctx_at (set_go g y s1) c) with (ctx_at s1 c); [lia..|done].
Qed.

(** Calls of [CtxStop] that have not begun. *)
Lemma counted_spawn s xs : counted s → Forall (λ x, ∃ c r rel, x = GStop c r rel PLock) xs → counted (spawn xs s).
Proof.
  intros Hc Hxs. assert (∀ P, (∀ c r rel, P (GStop c r rel PLock) = false) → count P (s_gos (spawn xs s)) = count P (s_gos s)) as Hn.
  { intros P HP. cbn. rewrite count_app. rewrite (count_zero P xs); [lia|]. intros i x Hi. rewrite Forall_lookup in Hxs. destruct (Hxs i x Hi) as (c & r & rel & ->). apply HP. }
  split; intros c; try (rewrite Hn by (intros; cbn; by rewrite andb_false_r || done)); apply Hc.
Qed.

Lemma counted_emit s e : counted s → counted (emit e s).
Proof. intros Hc. split; apply Hc. Qed.
Lemma counted_group s n : counted s → counted (new_group n s).
Proof. intros Hc. split; apply Hc. Qed.

Lemma count_elem {A} (P : A → bool) (l : list A) i x : l !! i = Some x → P x = true → 0 < count P l.
Proof. intros Hi Hx. apply count_pos. eauto. Qed.

Lemma stops_self P c r rel p : stops P c (GStop c r rel p) = P p.
Proof. cbn. by rewrite bool_decide_eq_true_2. Qed.

Lemma in_critical s g c r rel p : counted s → s_gos s !! g = Some (GStop c r rel p) → p_critical p = true → x_locked (ctx_at s c) = true.
Proof.
  intros Hc Hg Hp. pose proof (count_elem (stops p_critical c) _ _ _ Hg ltac:(by rewrite stops_self)) as Hn.
  rewrite (n_lock s Hc) in Hn. destruct (x_locked _); [done|cbn in Hn; lia].
Qed.

Lemma in_stopping s g c r rel p : counted s → s_gos s !! g = Some (GStop c r rel p) → p_stopping p = true →
  CtxRunning (ctx_at s c) = true ∧ x_cancel (ctx_at s c) = false.
Proof.
  intros Hc Hg Hp. pose proof (count_elem (stops p_stopping c) _ _ _ Hg ltac:(by rewrite stops_self)) as Hn.
  rewrite (n_stopping s Hc) in Hn. destruct (CtxRunning _), (x_cancel _); cbn in Hn; (done || lia).
Qed.

(** One case of [counted_set]. *)
Ltac by_context Hc c d :=
  pose proof (n_flags _ Hc d) as [? ?]; unfold CtxRunning, stops, live in *; destruct (decide (c = d)) as [->|?];
  [rewrite ?(bool_decide_eq_true_2 (d = d)) by done|rewrite ?(bool_decide_eq_false_2 (d = c)) by done];
  [destruct (ctx_at _ d) as [[] [] [] ? [] ? ? ? ? ? ? ?]|]; cbn in *; split_and!; (done || lia || naive_solver).

Ltac known Hc :=
  match goal with
  | H : s_gos ?s !! ?g = Some (GStop ?c ?r ?rel ?p) |- _ =>
      try pose proof (in_critical s g c r rel p Hc H eq_refl); try destruct (in_stopping s g c r rel p Hc H eq_refl)
  end.

(** The same goroutines over contexts that count the same. *)
Lemma counted_on s c f :
  counted s →
  (let x := ctx_at s c in
   x_locked (f x) = x_locked x ∧ CtxRunning (f x) && negb (x_cancel (f x)) = CtxRunning x && negb (x_cancel x) ∧ x_done (f x) = x_done x ∧ x_pending (f x) = x_pending x ∧
   (x_cancel (f x) = true → CtxRunning (f x) = true) ∧ (x_done (f x) = true → x_started (f x) = true)) →
  counted (on_ctx c f s).
Proof.
  cbn. intros Hc (H1 & H2 & H3 & H4 & H5). split; intros d; rewrite ctx_at_on; cbn [on_ctx s_gos]; case_decide; subst; try apply Hc;
    [rewrite H1; apply Hc|rewrite H2; apply Hc|rewrite H3; apply Hc|rewrite H4; apply Hc|exact H5].
Qed.

Lemma counted_go s c x : counted s → (∀ d, live d x = bool_decide (d = c)) → (∀ P d, stops P d x = false) → counted (CtxGo s c x).
Proof.
  intros Hc Hl Hn. unfold CtxGo. split; intros d; change (ctx_at (spawn [x] ?s0) d) with (ctx_at s0 d); rewrite ctx_at_on; cbn [spawn on_ctx s_gos];
    rewrite ?count_app, ?count_one, ?Hn, ?Hl; cbn [b2n]; rewrite <- ?plus_n_O; try (case_decide; subst; apply Hc).
  rewrite (n_pending s Hc). case_decide; [subst; rewrite bool_decide_eq_true_2 by done; cbn; lia|rewrite bool_decide_eq_false_2 by done; cbn; lia].
Qed.

(** A change of other fields. *)
Definition flags (x : Context) := (x_started x, x_done x, x_cancel x, x_pending x, x_locked x).

Lemma counted_quiet s c f : counted s → flags (f (ctx_at s c)) = flags (ctx_at s c) → counted (on_ctx c f s).
Proof.
  intros Hc [= H1 H2 H3 H4 H5]. apply counted_on; [done|]. cbn. unfold CtxRunning. rewrite H1, H2, H3, H4, H5. split_and!; try done; apply (n_flags s Hc c).
Qed.

Lemma counted_detach s p c : counted s → counted (childStopping s p c).1.
Proof. intros Hc. unfold childStopping. case_match; cbn [fst]; [apply counted_quiet; [|done]|]; by apply counted_quiet. Qed.

Lemma lookup_spawn s xs g x : s_gos s !! g = Some x → s_gos (spawn xs s) !! g = Some x.
Proof. intros Hg. cbn. by apply lookup_app_l_Some. Qed.

Lemma counted_goto s g c r rel p q :
  counted s → s_gos s !! g = Some (GStop c r rel p) → p_critical p = p_critical q → p_stopping p = p_stopping q → p_initiated p = p_initiated q →
  counted (set_go g (GStop c r rel q) s).
Proof.
  intros Hc Hg H1 H2 H3. eapply (counted_set s); [done|done|exact Hg|]. intros d. cbn [stops live]. rewrite H1, H2, H3. split_and!; try done; apply (n_flags s Hc d).
Qed.

Lemma detach_gos s p c : s_gos (childStopping s p c).1 = s_gos s.
Proof. unfold childStopping. by case_match. Qed.

Lemma counted_started s c a b :
  counted s → x_started (ctx_at s c) = false →
  counted (on_ctx c (λ x, mkContext true false true (x_pending x) (x_locked x) (x_reason x) (x_parent x) (x_children x) a b (x_faults x) 1) s).
Proof.
  intros Hc Hn. apply counted_on; [done|]. pose proof (n_flags s Hc c) as [_ Hd]. cbn. unfold CtxRunning. rewrite Hn in *.
  destruct (x_done (ctx_at s c)); [by specialize (Hd eq_refl)|]. by split_and!.
Qed.

Lemma counted_step s a s' : counted s → orderly s a → step s a = Ret s' → counted s'.
Proof.
  intros Hc Ho Hs. destruct a; step_cases Hs.
  all: try known Hc; try (eapply (counted_set s); [exact Hc|done|eassumption|]; intros d; change (ctx_at (emit ?e ?s0) d) with (ctx_at s0 d);
    change (ctx_at (emit_if ?b ?e ?s0) d) with (ctx_at s0 d); rewrite ?ctx_at_on; by_context Hc c d).
  - pose proof (counted_detach s n c Hc) as Hd. pose proof (detach_gos s n c) as Hg. rewrite H3 in Hd, Hg. cbn [fst] in Hd, Hg.
    eapply counted_goto; [done|by rewrite Hg|done..].
  - unfold CtxStopChildren in H2. injection H2 as <- <-. eapply counted_goto; [|by apply lookup_spawn|done..].
    apply counted_spawn; [by apply counted_group, counted_emit|]. apply Forall_fmap, Forall_true. intros d. cbn. eauto.
  - apply counted_spawn; [|by repeat econstructor]. apply (counted_go _ c (GWatch c stopping TRuns)); [by apply counted_started| |done].
    intros d. cbn. by rewrite andb_true_r.
  - apply (counted_go _ c (GWatch c stopping TRuns)); [by apply counted_started| |done]. intros d. cbn. by rewrite andb_true_r.
  - apply counted_spawn; [by apply counted_group|by repeat econstructor].
  - apply counted_spawn; [done|by repeat econstructor].
  - apply (counted_go s c (GTask c TRuns)); [done| |done]. intros d. cbn. by rewrite andb_true_r.
  - apply counted_quiet; [|done]. by apply counted_quiet.
  - by apply counted_quiet.
  - apply counted_spawn; [by apply counted_quiet|by repeat econstructor].
Qed.

(** *** Goroutines and what they belong to *)

Record tidy (s : state) : Prop := {
  t_stop g c r rel p : s_gos s !! g = Some (GStop c r rel p) →
    x_started (ctx_at s c) = true ∧ (p_past p = true → x_done (ctx_at s c) = true) ∧ (∀ w, rel = Release w → w < length (s_groups s)) ∧
    (∀ w i, p = PRelease w i → rel = Release w) ∧ (∀ w, p = PAwait w → w < length (s_groups s));
  t_watch g c cb p : s_gos s !! g = Some (GWatch c cb p) → x_started (ctx_at s c) = true;
  t_group w n : s_groups s !! w = Some n → count (waits w) (s_gos s) = n;
  t_kids c id d : (id, d) ∈ x_children (ctx_at s c) → x_started (ctx_at s d) = true ∧ rank d < rank c;
  t_await g c r rel w g' d r' p : s_gos s !! g = Some (GStop c r rel (PAwait w)) → s_gos s !! g' = Some (GStop d r' (Release w) p) → rank d < rank c;
  t_trace c cs d : EStopChildren c cs ∈ s_trace s → d ∈ cs → x_done (ctx_at s d) = true ∨
    ∃ g r rel w g' r' p, s_gos s !! g = Some (GStop c r rel (PAwait w)) ∧ s_gos s !! g' = Some (GStop d r' (Release w) p) ∧ p_returned p = false
}.

(** Contexts only ever start and end, and lose children. *)
Record later (s s1 : state) : Prop := {
  l_started c : x_started (ctx_at s c) = true → x_started (ctx_at s1 c) = true;
  l_done c : x_done (ctx_at s c) = true → x_done (ctx_at s1 c) = true;
  l_kids c : x_children (ctx_at s1 c) ⊆ x_children (ctx_at s c)
}.

Lemma tidy_set s s1 g c r rel p q :
  tidy s → s_gos s1 = s_gos s → s_gos s !! g = Some (GStop c r rel p) → later s s1 → length (s_groups s1) = length (s_groups s) →
  (∀ w n, s_groups s1 !! w = Some n → count (waits w) (<[g := GStop c r rel q]> (s_gos s)) = n) →
  (∀ e cs, EStopChildren e cs ∈ s_trace s1 → EStopChildren e cs ∈ s_trace s) →
  (p_past q = true → x_done (ctx_at s1 c) = true) → (p_returned q = true → p_past p = true) → (∀ w i, q = PRelease w i → rel = Release w) → (∀ w, q ≠ PAwait w) →
  (∀ w, p = PAwait w → s_groups s !! w = Some 0) →
  tidy (set_go g (GStop c r rel q) s1).
Proof.
  intros Ht Hg Hx Hl Hlen Hgr Htr Hpast Hret Hrel Hna Haw.
  assert (∀ g' x, s_gos (set_go g (GStop c r rel q) s1) !! g' = Some x → (g' = g ∧ x = GStop c r rel q) ∨ (g' ≠ g ∧ s_gos s !! g' = Some x)) as Hlook.
  { intros g' x. cbn. rewrite Hg. destruct (decide (g' = g)) as [->|Hne]; [|rewrite list_lookup_insert_ne by done; by right].
    rewrite list_lookup_insert_eq by (by eapply lookup_lt_Some). intros [= <-]. by left. }
  split; cbn [set_go s_groups s_trace].
  - intros g' c' r' rel' p' [[-> [= -> -> -> ->]]|[Hne Hg']]%Hlook.
    + destruct (t_stop s Ht g c r rel p Hx) as (Hs & _ & Hr & _ & _). split_and!; [by apply Hl|done|by rewrite Hlen|done|intros w Hw; by destruct (Hna w)].
    + destruct (t_stop s Ht _ _ _ _ _ Hg') as (Hs & Hd & Hr & Hr' & Ha). rewrite Hlen. split_and!; [by apply Hl|intros Hp; by apply Hl, Hd|done..].
  - intros g' c' cb p' [[_ ?]|[Hne Hg']]%Hlook; [done|]. apply Hl. by eapply t_watch.
  - intros w n Hw. cbn [set_go s_gos]. rewrite Hg. by apply Hgr.
  - intros c' id d Hin. destruct (t_kids s Ht c' id d) as [Hs Hr]; [by apply (l_kids _ _ Hl c')|]. split; [by apply Hl|done].
  - intros g1 c1 r1 rel1 w g2 d r2 p2 [[_ [= _ _ _ Heq]]|[_ H1]]%Hlook; [by destruct (Hna w)|].
    intros [[-> [= -> -> <- ->]]|[_ H2]]%Hlook; [by eapply (t_await s Ht g1 c1 r1 rel1 w g c r p)|by eapply (t_await s Ht g1 c1 r1 rel1 w g2 d r2 p2)].
  - intros e cs d He%Htr Hd. destruct (t_trace s Ht e cs d He Hd) as [?|(g1 & r1 & rel1 & w & g2 & r2 & p2 & H1 & H2 & Hp)]; [left; by apply Hl|].
    destruct (decide (g1 = g)) as [->|Hn1].
    { exfalso. rewrite Hx in H1. injection H1 as -> -> -> ->. pose proof (t_group s Ht w 0 (Haw w eq_refl)) as Hz.
      pose proof (count_elem (waits w) _ _ _ H2 ltac:(cbn; by rewrite bool_decide_eq_true_2, Hp)). lia. }
    destruct (decide (g2 = g)) as [->|Hn2].
    + rewrite Hx in H2. injection H2 as -> -> -> ->. destruct (p_returned q) eqn:Hq.
      * left. apply Hl. destruct (t_stop s Ht g d r2 (Release w) p2 Hx) as (_ & Hpd & _). by apply Hpd, Hret.
      * right. exists g1, r1, rel1, w, g, r2, q. cbn [set_go s_gos]. rewrite Hg, list_lookup_insert_ne, list_lookup_insert_eq by (done || by eapply lookup_lt_Some). done.
    + right. exists g1, r1, rel1, w, g2, r2, p2. cbn [set_go s_gos]. rewrite Hg, !list_lookup_insert_ne by done. done.
Qed.

Definition is_task (x : goroutine) : bool := match x with GStop _ _ _ _ => false | _ => true end.

Lemma tidy_task s s1 g x y :
  tidy s → s_gos s1 = s_gos s → s_gos s !! g = Some x → is_task x = true → is_task y = true → later s s1 → s_groups s1 = s_groups s →
  (∀ e cs, EStopChildren e cs ∈ s_trace s1 → EStopChildren e cs ∈ s_trace s) →
  (∀ c cb p, y = GWatch c cb p → x_started (ctx_at s c) = true) → tidy (set_go g y s1).
Proof.
  intros Ht Hg Hx Htx Hty Hl Hgr Htr Hw.
  assert (∀ g' c r rel p, s_gos (set_go g y s1) !! g' = Some (GStop c r rel p) ↔ s_gos s !! g' = Some (GStop c r rel p)) as Hlook.
  { intros g' c r rel p. cbn. rewrite Hg. destruct (decide (g' = g)) as [->|Hne]; [|by rewrite list_lookup_insert_ne].
    rewrite list_lookup_insert_eq by (by eapply lookup_lt_Some). rewrite Hx. split; intros [= ->]; done. }
  split; cbn [set_go s_groups s_trace]; rewrite ?Hgr.
  - intros g' c r rel p Hg'%Hlook. destruct (t_stop s Ht _ _ _ _ _ Hg') as (Hs & Hd & Hr & Hr' & Ha). split_and!; [by apply Hl|intros Hp; by apply Hl, Hd|done..].
  - intros g' c cb p. cbn. rewrite Hg. destruct (decide (g' = g)) as [->|Hne].
    + rewrite list_lookup_insert_eq by (by eapply lookup_lt_Some). intros [= ->]. apply Hl. by eapply Hw.
    + rewrite list_lookup_insert_ne by done. intros Hg'. apply Hl. by eapply t_watch.
  - intros w n Hn. cbn [set_go s_gos]. rewrite Hg. pose proof (count_insert (waits w) _ g x y Hx) as Hc. rewrite (t_group s Ht w n Hn) in Hc.
    assert (waits w x = false ∧ waits w y = false) as [Hwx Hwy] by (by destruct x, y). rewrite Hwx, Hwy in Hc. cbn in Hc. lia.
  - intros c id d Hin. destruct (t_kids s Ht c id d) as [Hs Hr]; [by apply (l_kids _ _ Hl c)|]. split; [by apply Hl|done].
  - intros g1 c1 r1 rel1 w g2 d r2 p2 H1%Hlook H2%Hlook. by eapply (t_await s Ht g1 c1 r1 rel1 w g2 d r2 p2).
  - intros e cs d He%Htr Hd. destruct (t_trace s Ht e cs d He Hd) as [?|(g1 & r1 & rel1 & w & g2 & r2 & p2 & H1 & H2 & Hp)]; [left; by apply Hl|].
    right. exists g1, r1, rel1, w, g2, r2, p2. by rewrite !Hlook.
Qed.

(** New goroutines: tasks, or stops that a new wait group waits for. *)
Lemma tidy_spawn s s1 xs n :
  tidy s → s_gos s1 = s_gos s → later s s1 → s_groups s1 = s_groups s ++ n → (∀ e cs, EStopChildren e cs ∈ s_trace s1 → EStopChildren e cs ∈ s_trace s) →
  (∀ x, x ∈ xs → match x with
                 | GStop c r rel p => x_started (ctx_at s1 c) = true ∧ p = PLock ∧ ∀ w, rel = Release w → w = length (s_groups s) ∧ n ≠ []
                 | GWatch c _ _ => x_started (ctx_at s1 c) = true
                 | GTask _ _ => True
                 end) →
  (∀ k, n !! 0 = Some k → count (waits (length (s_groups s))) xs = k) → length n ≤ 1 →
  tidy (spawn xs s1).
Proof.
  intros Ht Hg Hl Hgr Htr Hxs Hk Hn.
  assert (∀ g x, s_gos (spawn xs s1) !! g = Some x → s_gos s !! g = Some x ∨ x ∈ xs) as Hlook.
  { intros g x. cbn. rewrite Hg. intros [?|[_ Hin]]%lookup_app_Some; [by left|right]. by eapply list_elem_of_lookup_2. }
  split; cbn [spawn s_groups s_trace].
  - rewrite Hgr, length_app. intros g c r rel p [Hg'|Hin]%Hlook.
    + destruct (t_stop s Ht _ _ _ _ _ Hg') as (Hs & Hd & Hr & Hr' & Ha).
      split_and!; [by apply Hl|intros Hp; by apply Hl, Hd|intros w Hw; specialize (Hr w Hw); lia|done|intros w Hw; specialize (Ha w Hw); lia].
    + destruct (Hxs _ Hin) as (Hs & -> & Hr). split_and!; try done. intros w [-> Hne]%Hr. destruct n; [done|cbn; lia].
  - intros g c cb p [Hg'|Hin]%Hlook; [apply Hl; by eapply t_watch|]. apply (Hxs _ Hin).
  - rewrite Hgr. intros w k Hw. cbn [spawn s_gos]. rewrite Hg, count_app. apply lookup_app_Some in Hw as [Hw|[Hle Hw]].
    + rewrite (t_group s Ht w k Hw). rewrite (count_zero (waits w) xs); [lia|]. intros i x Hi%list_elem_of_lookup_2. specialize (Hxs x Hi).
      destruct x as [c r [| |w'] p| |]; try done. cbn. destruct Hxs as (_ & _ & Hr). destruct (Hr w' eq_refl) as [-> _].
      apply lookup_lt_Some in Hw. by rewrite bool_decide_eq_false_2 by lia.
    + assert (w - length (s_groups s) = 0) as H0 by (apply lookup_lt_Some in Hw; lia). rewrite H0 in Hw. assert (w = length (s_groups s)) as -> by lia.
      rewrite (Hk k Hw), (count_zero _ (s_gos s)); [done|]. intros i x Hi. destruct x as [c r [| |w'] p| |]; try done. cbn.
      destruct (t_stop s Ht _ _ _ _ _ Hi) as (_ & _ & Hr & _). specialize (Hr w' eq_refl). by rewrite bool_decide_eq_false_2 by lia.
  - intros c id d Hin. destruct (t_kids s Ht c id d) as [Hs Hr]; [by apply (l_kids _ _ Hl c)|]. split; [by apply Hl|done].
  - intros g1 c1 r1 rel1 w g2 d r2 p2 [H1|H1]%Hlook; [|by destruct (Hxs _ H1) as (_ & ? & _)].
    intros [H2|H2]%Hlook; [by eapply (t_await s Ht g1 c1 r1 rel1 w g2 d r2 p2)|]. exfalso. destruct (Hxs _ H2) as (_ & _ & Hr). destruct (Hr w eq_refl) as [-> _].
    destruct (t_stop s Ht _ _ _ _ _ H1) as (_ & _ & _ & _ & Ha). specialize (Ha _ eq_refl). lia.
  - intros e cs d He%Htr Hd. destruct (t_trace s Ht e cs d He Hd) as [?|(g1 & r1 & rel1 & w & g2 & r2 & p2 & H1 & H2 & Hp)]; [left; by apply Hl|].
    right. exists g1, r1, rel1, w, g2, r2, p2. cbn [spawn s_gos]. rewrite Hg. split_and!; [by apply lookup_app_l_Some..|done].
Qed.

Lemma tidy_stop_children s g c r rel w kids :
  tidy s → s_gos s !! g = Some (GStop c r rel PStopChildren) → w < length (s_groups s) →
  (∀ d, d ∈ kids → ∃ g' r' p, s_gos s !! g' = Some (GStop d r' (Release w) p) ∧ p_returned p = false) →
  (∀ g' d r' p, s_gos s !! g' = Some (GStop d r' (Release w) p) → rank d < rank c) →
  tidy (set_go g (GStop c r rel (PAwait w)) (emit (EStopChildren c kids) s)).
Proof.
  intros Ht Hx Hw Hkids Hrank.
  assert (∀ g' x, s_gos (set_go g (GStop c r rel (PAwait w)) (emit (EStopChildren c kids) s)) !! g' = Some x →
    (g' = g ∧ x = GStop c r rel (PAwait w)) ∨ (g' ≠ g ∧ s_gos s !! g' = Some x)) as Hlook.
  { intros g' x. cbn. destruct (decide (g' = g)) as [->|Hne]; [|rewrite list_lookup_insert_ne by done; by right].
    rewrite list_lookup_insert_eq by (by eapply lookup_lt_Some). intros [= <-]. by left. }
  assert (∀ g' c' r' rel' p, s_gos s !! g' = Some (GStop c' r' rel' p) → ∃ p', s_gos (set_go g (GStop c r rel (PAwait w)) (emit (EStopChildren c kids) s)) !! g' = Some (GStop c' r' rel' p') ∧
    (p_returned p = false → p_returned p' = false) ∧ ((∃ w', p = PAwait w') → p' = p)) as Hback.
  { intros g' c' r' rel' p Hg'. cbn. destruct (decide (g' = g)) as [->|Hne].
    - rewrite list_lookup_insert_eq by (by eapply lookup_lt_Some). rewrite Hx in Hg'. injection Hg' as -> -> -> <-. eexists. split; [done|]. split; [done|]. by intros [? ?].
    - rewrite list_lookup_insert_ne by done. by exists p. }
  destruct (t_stop s Ht _ _ _ _ _ Hx) as (Hs0 & _ & Hr0 & _). split; cbn [set_go emit s_groups s_trace].
  - intros g' c' r' rel' p' [[-> [= -> -> -> ->]]|[Hne Hg']]%Hlook; [|exact (t_stop s Ht _ _ _ _ _ Hg')]. split_and!; try done. by intros w' [= <-].
  - intros g' c' cb p' [[_ ?]|[Hne Hg']]%Hlook; [done|]. by apply (t_watch s Ht g' c' cb p').
  - intros w' n Hw'. cbn [set_go emit s_gos]. pose proof (count_insert (waits w') _ g _ (GStop c r rel (PAwait w)) Hx) as Hc. rewrite (t_group s Ht w' n Hw') in Hc.
    change (waits w' (GStop c r rel (PAwait w))) with (waits w' (GStop c r rel PStopChildren)) in Hc. lia.
  - apply (t_kids s Ht).
  - intros g1 c1 r1 rel1 w1 g2 d r2 p2 H1 H2. apply Hlook in H1 as [[-> [= -> -> -> ->]]|[_ H1]], H2 as [[-> [= -> -> <- ->]]|[_ H2]];
      [by apply (Hrank g c r PStopChildren)|by eapply Hrank|by apply (t_await s Ht g1 c1 r1 rel1 w1 g c r PStopChildren)|by apply (t_await s Ht g1 c1 r1 rel1 w1 g2 d r2 p2)].
  - intros e cs d He Hd. apply elem_of_app in He as [He|[= -> ->]%list_elem_of_singleton].
    + destruct (t_trace s Ht e cs d He Hd) as [?|(g1 & r1 & rel1 & w1 & g2 & r2 & p2 & H1 & H2 & Hp)]; [by left|right].
      destruct (Hback _ _ _ _ _ H1) as (p1' & H1' & _ & Heq), (Hback _ _ _ _ _ H2) as (p2' & H2' & Hp' & _). rewrite Heq in H1' by eauto.
      exists g1, r1, rel1, w1, g2, r2, p2'. auto.
    + right. destruct (Hkids d Hd) as (g2 & r2 & p2 & H2 & Hp). destruct (Hback _ _ _ _ _ H2) as (p2' & H2' & Hp' & _).
      exists g, r, rel, w, g2, r2, p2'. split_and!; [|done|auto]. cbn [set_go s_gos]. by rewrite list_lookup_insert_eq by (by eapply lookup_lt_Some).
Qed.

(** When the guard of [CtxStop] fails, the context has been stopped. *)
Lemma guard_fails s g c r rel :
  counted s → tidy s → s_gos s !! g = Some (GStop c r rel PLock) → x_locked (ctx_at s c) = false →
  CtxRunning (ctx_at s c) && x_cancel (ctx_at s c) = false → x_done (ctx_at s c) = true.
Proof.
  intros Hc Ht Hg Hl Hn. destruct (t_stop s Ht _ _ _ _ _ Hg) as (Hs & _). destruct (x_done (ctx_at s c)) eqn:Hd; [done|exfalso].
  pose proof (n_stopping s Hc c) as Hst. unfold CtxRunning in *. rewrite Hs, Hd in *. cbn in *. rewrite Hn in Hst. cbn in Hst.
  destruct (proj1 (count_pos (stops p_stopping c) (s_gos s))) as (i & x & Hi & Hx); [lia|]. destruct x as [d r' rel' p| |]; try done.
  cbn in Hx. apply andb_prop in Hx as [->%bool_decide_eq_true Hp]. rewrite (in_critical s i d r' rel' p Hc Hi) in Hl; [done|by destruct p].
Qed.

Lemma waits_same s g c r rel p q :
  tidy s → s_gos s !! g = Some (GStop c r rel p) → p_returned p = p_returned q →
  ∀ w n, s_groups s !! w = Some n → count (waits w) (<[g := GStop c r rel q]> (s_gos s)) = n.
Proof.
  intros Ht Hg Hp w n Hw. pose proof (count_insert (waits w) _ g _ (GStop c r rel q) Hg) as Hc. rewrite (t_group s Ht w n Hw) in Hc.
  assert (waits w (GStop c r rel p) = waits w (GStop c r rel q)) as He by (cbn; by rewrite Hp). rewrite He in Hc. lia.
Qed.

Lemma later_on s c f :
  (x_started (ctx_at s c) = true → x_started (f (ctx_at s c)) = true) → (x_done (ctx_at s c) = true → x_done (f (ctx_at s c)) = true) →
  x_children (f (ctx_at s c)) ⊆ x_children (ctx_at s c) → later s (on_ctx c f s).
Proof. intros H1 H2 H3. split; intros d; rewrite ctx_at_on; case_decide; subst; auto. Qed.

Lemma later_refl s : later s s.
Proof. by split. Qed.

Lemma remove_child_sub c l l' : remove_child c l = Some l' → l' ⊆ l.
Proof.
  unfold remove_child. destruct (list_find _ l) as [[i y]|]; [|done]. intros [= <-] x Hx. rewrite delete_take_drop in Hx.
  pose proof (take_drop i l) as Hl. pose proof (take_drop (S i) l) as Hl'. apply elem_of_app in Hx as [Hx|Hx].
  - rewrite <- Hl. apply elem_of_app. by left.
  - rewrite <- Hl'. apply elem_of_app. by right.
Qed.

Lemma later_trans s1 s2 s3 : later s1 s2 → later s2 s3 → later s1 s3.
Proof. intros [H1 H2 H3] [H4 H5 H6]. split; [auto..|]. intros c x Hx. by apply H3, H6. Qed.

Lemma later_detach s p c : later s (childStopping s p c).1.
Proof.
  unfold childStopping. assert (later s (on_ctx c (with_parent None) s)) as Hl by (by apply later_on). case_match eqn:Hr; [|done].
  eapply later_trans; [exact Hl|]. apply later_on; [done..|]. by apply remove_child_sub in Hr.
Qed.

Lemma later_emit s s1 e : later s s1 → later s (emit e s1).
Proof. intros [? ? ?]. by split. Qed.
Lemma later_emit_if s s1 b e : later s s1 → later s (emit_if b e s1).
Proof. intros [? ? ?]. by split. Qed.

Lemma detach_rest s p c : s_groups (childStopping s p c).1 = s_groups s ∧ s_trace (childStopping s p c).1 = s_trace s.
Proof. unfold childStopping. by case_match. Qed.

Lemma waits_unreleased s g c r rel p q :
  tidy s → s_gos s !! g = Some (GStop c r rel p) → (∀ w, rel ≠ Release w) →
  ∀ w n, s_groups s !! w = Some n → count (waits w) (<[g := GStop c r rel q]> (s_gos s)) = n.
Proof.
  intros Ht Hg Hr w n Hw. pose proof (count_insert (waits w) _ g _ (GStop c r rel q) Hg) as Hc. rewrite (t_group s Ht w n Hw) in Hc.
  destruct rel as [| |w']; [cbn in Hc; lia..|by destruct (Hr w')].
Qed.

Lemma was_past s g c r rel p : tidy s → s_gos s !! g = Some (GStop c r rel p) → p_past p = true → x_done (ctx_at s c) = true.
Proof. intros Ht Hg Hp. by destruct (t_stop s Ht _ _ _ _ _ Hg) as (_ & Hd & _); apply Hd. Qed.

Lemma tidy_returned s s1 g c r rel p i :
  tidy s → s_gos s !! g = Some (GStop c r rel p) → p_past p = true → (∀ w, rel ≠ Release w) →
  s_gos s1 = s_gos s → later s s1 → s_groups s1 = s_groups s → s_trace s1 = s_trace s → tidy (set_go g (GStop c r rel (PReturned i)) s1).
Proof.
  intros Ht Hg Hp Hr Hgos Hl Hgr Htr. eapply (tidy_set s); [done|done|exact Hg|done|by rewrite Hgr| |by rewrite Htr|..]; try done.
  - rewrite Hgr. by apply (waits_unreleased s g c r rel p).
  - intros _. apply Hl. by eapply was_past.
  - intros w ->. done.
Qed.

Lemma waits_released s g c r w i n :
  tidy s → s_gos s !! g = Some (GStop c r (Release w) (PRelease w i)) → s_groups s !! w = Some (S n) →
  ∀ w' n', <[w := n]> (s_groups s) !! w' = Some n' → count (waits w') (<[g := GStop c r (Release w) (PReturned i)]> (s_gos s)) = n'.
Proof.
  intros Ht Hg Hw w' n' Hw'. pose proof (count_insert (waits w') _ g _ (GStop c r (Release w) (PReturned i)) Hg) as Hc. cbn in Hc.
  rewrite andb_false_r, andb_true_r in Hc. destruct (decide (w' = w)) as [->|Hne].
  - rewrite list_lookup_insert_eq in Hw' by (by eapply lookup_lt_Some). injection Hw' as <-. rewrite bool_decide_eq_true_2, (t_group s Ht w _ Hw) in Hc by done. cbn in Hc. lia.
  - rewrite list_lookup_insert_ne in Hw' by done. rewrite bool_decide_eq_false_2, (t_group s Ht w' _ Hw') in Hc by done. cbn in Hc. lia.
Qed.

Lemma tidy_children s g c r rel :
  tidy s → s_gos s !! g = Some (GStop c r rel PStopChildren) →
  let '(s1, w) := CtxStopChildren s c (str "parent is stopping") in tidy (set_go g (GStop c r rel (PAwait w)) s1).
Proof.
  intros Ht Hg. unfold CtxStopChildren. set (kids := (x_children (ctx_at s c)).*2). set (w := length (s_groups s)).
  set (xs := (λ d, GStop d (str "parent is stopping") (Release w) PLock) <$> reverse kids).
  change (spawn xs (new_group (length kids) (emit (EStopChildren c kids) s))) with (emit (EStopChildren c kids) (spawn xs (new_group (length kids) s))).
  assert (∀ d, d ∈ kids → x_started (ctx_at s d) = true ∧ rank d < rank c) as Hkids.
  { intros d ([id d'] & -> & Hd)%list_elem_of_fmap. exact (t_kids s Ht c id d' Hd). }
  assert (∀ x, x ∈ xs → ∃ d, d ∈ kids ∧ x = GStop d (str "parent is stopping") (Release w) PLock) as Hxs.
  { intros x (d & -> & Hd)%list_elem_of_fmap. exists d. split; [|done]. by rewrite elem_of_reverse in Hd. }
  apply tidy_stop_children; [|by apply lookup_spawn|cbn; rewrite length_app; cbn; lia|..].
  - apply (tidy_spawn s (new_group (length kids) s) xs [length kids]); try done.
    + intros x (d & Hd & ->)%Hxs. split; [by apply Hkids|]. split; [done|]. by intros w' [= <-].
    + intros k [= <-]. unfold xs. rewrite <- (length_reverse kids). generalize (reverse kids). intros l. induction l as [|d l IH]; [done|].
      cbn [fmap list_fmap]. unfold count in *. cbn [sum_list_with length]. rewrite IH. cbn. by rewrite bool_decide_eq_true_2.
  - intros d Hd. assert (GStop d (str "parent is stopping") (Release w) PLock ∈ xs) as [i Hi]%list_elem_of_lookup
      by (apply list_elem_of_fmap; exists d; split; [done|by rewrite elem_of_reverse]).
    exists (length (s_gos s) + i), (str "parent is stopping"), PLock. split; [|done]. cbn. rewrite lookup_app_r by lia. by replace (length (s_gos s) + i - length (s_gos s)) with i by lia.
  - intros g' d r' p Hg'. cbn in Hg'. apply lookup_app_Some in Hg' as [Hg'|[_ Hg']].
    + destruct (t_stop s Ht _ _ _ _ _ Hg') as (_ & _ & Hr & _). specialize (Hr w eq_refl). unfold w in Hr. lia.
    + apply list_elem_of_lookup_2, Hxs in Hg' as (d' & Hd' & [= -> _ _]). by apply Hkids.
Qed.

Lemma tidy_adopt s c d id :
  tidy s → x_started (ctx_at s d) = true → rank d < rank c →
  tidy (on_ctx d (with_parent (Some c)) (on_ctx c (λ x, with_children (x_children x ++ [(id, d)]) x) s)).
Proof.
  intros Ht Hs Hr. set (s1 := on_ctx d _ _).
  assert (∀ e, x_started (ctx_at s1 e) = x_started (ctx_at s e) ∧ x_done (ctx_at s1 e) = x_done (ctx_at s e) ∧
    x_children (ctx_at s1 e) = if decide (c = e) then x_children (ctx_at s e) ++ [(id, d)] else x_children (ctx_at s e)) as He.
  { intros e. unfold s1. rewrite !ctx_at_on. repeat case_decide; subst; try done; rewrite !ctx_at_on; repeat case_decide; subst; done. }
  split; change (s_gos s1) with (s_gos s); change (s_groups s1) with (s_groups s); change (s_trace s1) with (s_trace s).
  - intros g c' r rel p Hg. destruct (He c') as (-> & -> & _). by apply (t_stop s Ht g c' r rel p).
  - intros g c' cb p Hg. destruct (He c') as (-> & _). by apply (t_watch s Ht g c' cb p).
  - apply (t_group s Ht).
  - intros c' id' d' Hin. destruct (He c') as (_ & _ & Hk). rewrite Hk in Hin. destruct (He d') as (-> & _). case_decide; subst.
    + apply elem_of_app in Hin as [Hin|[= -> ->]%list_elem_of_singleton]; [by apply (t_kids s Ht c' id')|done].
    + by apply (t_kids s Ht c' id').
  - apply (t_await s Ht).
  - intros c' cs d' Hin Hd'. destruct (He d') as (_ & -> & _). by apply (t_trace s Ht c' cs).
Qed.

Lemma tidy_started s c a b cb :
  tidy s → counted s → x_started (ctx_at s c) = false →
  tidy (spawn [GWatch c cb TRuns] (on_ctx c (λ x, with_pending (S (x_pending x)) x)
    (on_ctx c (λ x, mkContext true false true (x_pending x) (x_locked x) (x_reason x) (x_parent x) (x_children x) a b (x_faults x) 1) s))).
Proof.
  intros Ht Hc Hs. assert (x_done (ctx_at s c) = false) as Hd.
  { destruct (x_done (ctx_at s c)) eqn:Hd; [|done]. apply (n_flags s Hc) in Hd. congruence. }
  eapply (tidy_spawn s _ _ []); [exact Ht|done| |by rewrite app_nil_r|done| |done|cbn; lia].
  - eapply later_trans; [|by apply later_on]. apply later_on; cbn; [done|congruence|done].
  - intros x ->%list_elem_of_singleton. by rewrite !ctx_at_on, !decide_True.
Qed.

Lemma tidy_quiet s s1 : tidy s → later s s1 → s_gos s1 = s_gos s → s_groups s1 = s_groups s → s_trace s1 = s_trace s → tidy s1.
Proof.
  intros Ht Hl Hg Hgr Htr. assert (tidy (spawn [] s1)) as Ht1.
  { apply (tidy_spawn s s1 [] []); [done..|by rewrite Hgr, app_nil_r|by rewrite Htr|by intros x ?%not_elem_of_nil|done|cbn; lia]. }
  assert (spawn [] s1 = s1) as Heq by (destruct s1; unfold spawn; cbn; by rewrite app_nil_r). by rewrite Heq in Ht1.
Qed.

Ltac same_waits Ht :=
  match goal with H : s_gos ?s !! ?g = Some (GStop ?c ?r ?rel ?p) |- context [GStop _ _ _ ?q] => exact (waits_same s g c r rel p q Ht H eq_refl) end.

Ltac same_children :=
  first [done|intros e cs; cbn [s_trace emit emit_if on_ctx]; rewrite elem_of_app; intros [?|Hin]; [done|]; try (case_match; [|by apply not_elem_of_nil in Hin]); by apply list_elem_of_singleton in Hin].

Ltac by_goto Ht s :=
  eapply (tidy_set s);
  [exact Ht|done|eassumption|repeat first [apply later_refl|apply later_emit|apply later_emit_if|by apply later_on]|done|same_waits Ht|same_children|try done|try done|try done|try done|try done].

Lemma tidy_step s a s' : counted s → tidy s → orderly s a → step s a = Ret s' → tidy s'.
Proof.
  intros Hc Ht Ho Hs. destruct a; step_cases Hs.
  all: try by_goto Ht s.
  - intros _. rewrite ctx_at_on, decide_True by done. by eapply guard_fails.
  - pose proof (later_detach s n c) as Hl. pose proof (detach_gos s n c) as Hg. destruct (detach_rest s n c) as [Hgr Htr]. rewrite H3 in *. cbn [fst] in *.
    eapply (tidy_set s); [exact Ht|done|eassumption|done|by rewrite Hgr|rewrite Hgr; same_waits Ht|by rewrite Htr|done..].
  - pose proof (tidy_children s g c reason rel Ht H) as Hk. by rewrite H2 in Hk.
  - by intros w' [= <-].
  - intros _. change (ctx_at (emit ?e ?s0) c) with (ctx_at s0 c). by rewrite ctx_at_on, decide_True.
  - by eapply (tidy_returned s); [..|apply later_on| |].
  - intros _. rewrite ctx_at_on, decide_True by done. by eapply (was_past s).
  - intros _. rewrite ctx_at_on, decide_True by done. by eapply (was_past s).
  - by eapply (tidy_returned s); [..|apply later_refl| |].
  - by eapply (tidy_returned s); [..|apply later_refl| |].
  - intros _. by eapply (was_past s).
  - by intros w' i' [= <- _].
  - destruct (t_stop s Ht _ _ _ _ _ H) as (_ & _ & _ & Hrel & _). rewrite (Hrel w initiated eq_refl) in *.
    eapply (tidy_set s); [exact Ht|done|exact H|by split|cbn; by rewrite length_insert|by apply waits_released|done|intros _; by eapply (was_past s)|done..].
  - eapply (tidy_task s); [exact Ht|done|eassumption|done|done|by apply later_emit_if, later_refl|done|same_children|]. intros c' cb p' [= -> -> _]. by eapply (t_watch s Ht).
  - eapply (tidy_task s); [exact Ht|done|eassumption|done|done|by apply later_on|done|done|]. intros c' cb p' [= -> -> _]. by eapply (t_watch s Ht).
  - by eapply (tidy_task s); [exact Ht|done|eassumption|done|done|apply later_refl|..].
  - by eapply (tidy_task s); [exact Ht|done|eassumption|done|done|apply later_on|..].
  - eapply (tidy_spawn _ _ _ []); [by apply (tidy_started s)|done|by apply later_refl|by rewrite app_nil_r|done| |done|cbn; lia].
    intros x ->%list_elem_of_singleton. split; [|done]. change (ctx_at (spawn ?xs ?s0) c) with (ctx_at s0 c). by rewrite !ctx_at_on, !decide_True.
  - by apply (tidy_started s).
  - eapply (tidy_spawn s _ _ [1]); [exact Ht|done|by split|done|done| | |done].
    + intros x ->%list_elem_of_singleton. split_and!; [done|done|]. by intros w [= <-].
    + intros k [= <-]. rewrite count_one. cbn. by rewrite bool_decide_eq_true_2.
  - eapply (tidy_spawn s _ _ []); [exact Ht|done|by split|by rewrite app_nil_r|done| |done|cbn; lia]. by intros x ->%list_elem_of_singleton.
  - eapply (tidy_spawn s _ _ []); [exact Ht|done|by apply later_on|by rewrite app_nil_r|done| |done|cbn; lia]. by intros x ->%list_elem_of_singleton.
  - destruct Ho. by apply tidy_adopt.
  - eapply (tidy_quiet s); [done|by apply later_on|done..].
  - eapply (tidy_spawn s _ _ []); [exact Ht|done|by apply later_on|by rewrite app_nil_r|done| |done|cbn; lia].
    intros x ->%list_elem_of_singleton. split; [|done]. rewrite ctx_at_on, decide_True by done. exact Ho.
Qed.

Lemma reachable_inv s : reachable s → counted s ∧ tidy s.
Proof.
  induction 1 as [|s a s' _ [Hc Ht] Ho Hs]; [|split; [by eapply counted_step|by eapply tidy_step]].
  split; split; try done; by intros ? ? ? ?%not_elem_of_nil.
Qed.

(** ** No call of [CtxStop] waits for ever *)

Lemma release_group s g c r rel w i :
  tidy s → s_gos s !! g = Some (GStop c r rel (PRelease w i)) → ∃ n, s_groups s !! w = Some (S n).
Proof.
  intros Ht Hg. destruct (t_stop s Ht _ _ _ _ _ Hg) as (_ & _ & Hw & Hr & _). specialize (Hr w i eq_refl). subst rel.
  destruct (lookup_lt_is_Some_2 _ _ (Hw w eq_refl)) as [n Hn]. destruct n as [|n]; [exfalso|eauto].
  pose proof (t_group s Ht w _ Hn) as Hz. pose proof (count_elem (waits w) _ _ _ Hg ltac:(cbn; by rewrite bool_decide_eq_true_2)). lia.
Qed.

Lemma live_pending s g c x : counted s → s_gos s !! g = Some x → live c x = true → ∃ n, x_pending (ctx_at s c) = S n.
Proof.
  intros Hc Hg Hx. pose proof (count_elem (live c) _ _ _ Hg Hx) as Hn. rewrite (n_pending s Hc c) in Hn. destruct (x_pending _); [lia|eauto].
Qed.

Lemma no_panic s g : counted s → tidy s → run_go s g ≠ Panic.
Proof.
  intros Hc Ht Hp. unfold run_go in Hp. destruct (s_gos s !! g) as [[c r rel p|c cb p|c p]|] eqn:Hg; [| | |done].
  - destruct p as [| | | | | | | |i|w i|i]; unfold run_stop in Hp; try done; try (repeat (case_match; try done); fail).
    destruct (release_group s g c r rel w i Ht Hg) as [k Hk]. by rewrite Hk in Hp.
  - destruct p; cbn in Hp; [by case_match| |done]. destruct (live_pending s g c _ Hc Hg) as [k Hk]; [cbn; by rewrite bool_decide_eq_true_2|].
    unfold task_done in Hp. by rewrite Hk in Hp.
  - destruct p; cbn in Hp; [done| |done]. destruct (live_pending s g c _ Hc Hg) as [k Hk]; [cbn; by rewrite bool_decide_eq_true_2|].
    unfold task_done in Hp. by rewrite Hk in Hp.
Qed.

Lemma await_enabled s g c r rel w :
  tidy s → s_gos s !! g = Some (GStop c r rel (PAwait w)) →
  (∃ s', run_go s g = Ret s') ∨ ∃ g' d r' p, s_gos s !! g' = Some (GStop d r' (Release w) p) ∧ p_returned p = false ∧ rank d < rank c.
Proof.
  intros Ht Hg. destruct (t_stop s Ht _ _ _ _ _ Hg) as (_ & _ & _ & _ & Hw). destruct (lookup_lt_is_Some_2 _ _ (Hw w eq_refl)) as [n Hn].
  destruct n as [|n]; [left; unfold run_go; rewrite Hg; cbn; rewrite decide_True by done; eauto|right].
  pose proof (t_group s Ht w _ Hn) as Hk. destruct (proj1 (count_pos (waits w) (s_gos s))) as (i & x & Hi & Hx); [lia|].
  destruct x as [d r' [| |w'] p| |]; try done. cbn in Hx. apply andb_prop in Hx as [<-%bool_decide_eq_true Hp%negb_true_iff].
  exists i, d, r', p. split_and!; [done..|]. by eapply (t_await s Ht).
Qed.

(** Whoever holds the lock can go on, or waits for a child. *)
Lemma critical_enabled s g c r rel p :
  tidy s → s_gos s !! g = Some (GStop c r rel p) → p_critical p = true →
  (∃ s', run_go s g = Ret s') ∨ ∃ w g' d r' p, s_gos s !! g' = Some (GStop d r' (Release w) p) ∧ p_returned p = false ∧ rank d < rank c.
Proof.
  intros Ht Hg Hp. destruct p; try done; try (left; unfold run_go; rewrite Hg; cbn; repeat case_match; eauto; fail).
  destruct (await_enabled s g c r rel w Ht Hg) as [?|?]; eauto 10.
Qed.

Lemma task_enabled s g c x :
  counted s → tidy s → x_done (ctx_at s c) = true → s_gos s !! g = Some x → live c x = true → ∃ s', run_go s g = Ret s'.
Proof.
  intros Hc Ht Hd Hg Hx. destruct (live_pending s g c x Hc Hg Hx) as [k Hk].
  unfold run_go. rewrite Hg. destruct x as [|c' cb []|c' []]; try done; cbn in Hx; apply andb_prop in Hx as [<-%bool_decide_eq_true Hl]; try done;
    rewrite ?Hd; unfold task_done; rewrite ?Hk; cbn; eauto.
Qed.

Lemma stop_enabled s g c r rel p :
  counted s → tidy s → s_gos s !! g = Some (GStop c r rel p) → p_returned p = false → ∃ g' s', run_go s g' = Ret s'.
Proof.
  intros Hc Ht. remember (rank c) as n eqn:Hn. revert c Hn g r rel p. induction n as [n IH] using lt_wf_ind. intros c -> g r rel p Hg Hp.
  assert (∀ g' r' rel' p', s_gos s !! g' = Some (GStop c r' rel' p') → p_critical p' = true → ∃ g' s', run_go s g' = Ret s') as Hcrit.
  { intros g' r' rel' p' Hg' Hp'. destruct (critical_enabled s g' c r' rel' p' Ht Hg' Hp') as [?|(w & g2 & d & r2 & p2 & Hg2 & Hp2 & Hr)]; [eauto|]. by eapply (IH (rank d)). }
  destruct p as [| | | | | | | |i|w i|i]; try done; try (by eapply Hcrit).
  - destruct (x_locked (ctx_at s c)) eqn:Hl.
    + destruct (proj1 (count_pos (stops p_critical c) (s_gos s))) as (i & x & Hi & Hx); [rewrite (n_lock s Hc), Hl; cbn; lia|].
      destruct x as [d r' rel' p'| |]; try done. cbn in Hx. apply andb_prop in Hx as [<-%bool_decide_eq_true Hp']. by eapply Hcrit.
    + exists g. unfold run_go. rewrite Hg. cbn. rewrite Hl. case_match; eauto.
  - destruct (x_pending (ctx_at s c)) as [|k] eqn:Hk.
    + exists g. unfold run_go. rewrite Hg. cbn. rewrite decide_True by done. eauto.
    + destruct (proj1 (count_pos (live c) (s_gos s))) as (j & x & Hj & Hx); [rewrite (n_pending s Hc); lia|].
      exists j. eapply task_enabled; [done|done|by eapply (was_past s)|done|done].
  - exists g. unfold run_go. rewrite Hg. cbn. destruct (release_group s g c r rel w i Ht Hg) as [k ->]. eauto.
Qed.

(** *** Every run of the goroutines ends *)

Definition n_kids (s : state) (c : nat) : nat := length (x_children (ctx_at s c)).

(** The steps that a goroutine, and a stop that has not begun, can still take; a stop of [c]
    starts one for every child. *)
Definition p_weight (p : pc) : nat :=
  match p with
  | PLock => 11 | PAbout => 10 | PDetach => 9 | PNotify _ _ => 8 | PStopChildren => 7 | PAwait _ => 6 | PCancel => 5
  | PUnlock _ => 4 | PWait _ => 3 | PRelease _ _ => 2 | PReturned _ => 1
  end.
Definition p_spawns (p : pc) : bool := match p with PAbout | PDetach | PNotify _ _ | PStopChildren => true | _ => false end.
Definition t_weight (p : tpc) : nat := match p with TRuns => 3 | TDone => 2 | TOver => 1 end.

Definition go_weight (kids : nat → nat) (x : goroutine) : nat :=
  match x with GStop c _ _ p => p_weight p + (if p_spawns p then 12 * kids c else 0) | GWatch _ _ p | GTask _ p => t_weight p end.

Definition ctx_weight (x : Context) : nat := if x_cancel x then 12 * length (x_children x) else 0.

Definition weight (s : state) : nat :=
  sum_list_with (λ cx, ctx_weight cx.2) (map_to_list (s_ctxs s)) + sum_list_with (go_weight (n_kids s)) (s_gos s).

Lemma sum_insert {A} (f : A → nat) (l : list A) i x y : l !! i = Some x → sum_list_with f (<[i := y]> l) + f x = sum_list_with f l + f y.
Proof. revert i. induction l as [|a l IH]; intros [|i] Hi; simplify_eq/=; [lia|]. specialize (IH i Hi). lia. Qed.

Lemma sum_le {A} (f f' : A → nat) (l : list A) : (∀ x, f x ≤ f' x) → sum_list_with f l ≤ sum_list_with f' l.
Proof. intros Hf. induction l as [|a l IH]; cbn; [done|]. specialize (Hf a). lia. Qed.

Lemma sum_map_insert (f : nat * Context → nat) (m : gmap nat Context) c x y :
  m !! c = Some x → sum_list_with f (map_to_list (<[c := y]> m)) + f (c, x) = sum_list_with f (map_to_list m) + f (c, y).
Proof.
  intros Hx. rewrite <- (map_to_list_delete m c x Hx). pose proof (map_to_list_delete (<[c := y]> m) c y (lookup_insert_eq _ _ _)) as Hy.
  rewrite delete_insert_eq in Hy. rewrite <- Hy. cbn. lia.
Qed.

Definition ctxs_weight (s : state) : nat := sum_list_with (λ cx, ctx_weight cx.2) (map_to_list (s_ctxs s)).

Lemma ctx_weight_on s c f : ctxs_weight (on_ctx c f s) + ctx_weight (ctx_at s c) = ctxs_weight s + ctx_weight (f (ctx_at s c)).
Proof.
  unfold ctxs_weight, on_ctx. cbn [s_ctxs]. generalize (f (ctx_at s c)). intros y. unfold ctx_at. destruct (s_ctxs s !! c) as [x|] eqn:Hx.
  - exact (sum_map_insert (λ cx, ctx_weight cx.2) _ _ _ y Hx).
  - rewrite (map_to_list_insert _ c) by done. cbn. lia.
Qed.

Lemma sum_insert_le {A} (f f1 : A → nat) (l : list A) i x y :
  (∀ a, f1 a ≤ f a) → l !! i = Some x → sum_list_with f1 (<[i := y]> l) + f x ≤ sum_list_with f l + f1 y.
Proof.
  intros Hf. revert i. induction l as [|a l IH]; intros [|i] Hi; simplify_eq/=.
  - pose proof (sum_le f1 f l Hf). lia.
  - specialize (IH i Hi). specialize (Hf a). lia.
Qed.

Lemma go_weight_le k1 k x : (∀ c, k1 c ≤ k c) → go_weight k1 x ≤ go_weight k x.
Proof. intros Hk. destruct x as [c r rel p| |]; cbn; [|done..]. specialize (Hk c). destruct (p_spawns p); lia. Qed.

Lemma weight_set s s1 g x y :
  s_gos s1 = s_gos s → s_gos s !! g = Some x → (∀ c, n_kids s1 c ≤ n_kids s c) →
  ctxs_weight s1 + go_weight (n_kids s1) y < ctxs_weight s + go_weight (n_kids s) x → weight (set_go g y s1) < weight s.
Proof.
  intros Hg Hx Hk Hlt. unfold weight. change (n_kids (set_go g y s1)) with (n_kids s1). cbn [set_go s_ctxs s_gos]. rewrite Hg.
  fold (ctxs_weight s1) (ctxs_weight s). pose proof (sum_insert_le (go_weight (n_kids s)) (go_weight (n_kids s1)) (s_gos s) g x y (λ a, go_weight_le _ _ a Hk) Hx). lia.
Qed.

(** A change that leaves children and [ctxCancel] alone. *)
Lemma weight_on s c f :
  x_cancel (f (ctx_at s c)) = x_cancel (ctx_at s c) → x_children (f (ctx_at s c)) = x_children (ctx_at s c) →
  ctxs_weight (on_ctx c f s) = ctxs_weight s ∧ ∀ d, n_kids (on_ctx c f s) d = n_kids s d.
Proof.
  intros H1 H2. split.
  - pose proof (ctx_weight_on s c f) as Hw. unfold ctx_weight in Hw. rewrite H1, H2 in Hw. lia.
  - intros d. unfold n_kids. rewrite ctx_at_on. case_decide; [subst; by rewrite H2|done].
Qed.

Lemma weight_detach s p c : ctxs_weight (childStopping s p c).1 ≤ ctxs_weight s ∧ ∀ d, n_kids (childStopping s p c).1 d ≤ n_kids s d.
Proof.
  destruct (weight_on s c (with_parent None) eq_refl eq_refl) as [Hw Hk]. unfold childStopping. case_match eqn:Hr; cbn [fst].
  2:{ rewrite Hw. split; [done|]. intros d. by rewrite Hk. }
  rename l into l'. set (s1 := on_ctx c (with_parent None) s) in *. assert (length l' ≤ n_kids s1 p) as Hl.
  { unfold n_kids. unfold remove_child in Hr. destruct (list_find _ _) as [[i y]|]; [|done]. injection Hr as <-. rewrite delete_take_drop, length_app, length_take, length_drop. lia. }
  split.
  - pose proof (ctx_weight_on s1 p (with_children l')) as Hp. unfold ctx_weight in Hp. cbn in Hp. unfold n_kids in Hl. rewrite Hw in Hp. destruct (x_cancel (ctx_at s1 p)); lia.
  - intros d. rewrite <- Hk. unfold n_kids at 1. rewrite ctx_at_on. case_decide; [subst; exact Hl|done].
Qed.

Lemma weight_children s g c r rel reason :
  s_gos s !! g = Some (GStop c r rel PStopChildren) →
  let kids := (x_children (ctx_at s c)).*2 in
  weight (set_go g (GStop c r rel (PAwait (length (s_groups s)))) (spawn ((λ d, GStop d reason (Release (length (s_groups s))) PLock) <$> reverse kids)
    (new_group (length kids) (emit (EStopChildren c kids) s)))) < weight s.
Proof.
  intros Hg kids. unfold weight. set (s1 := set_go _ _ _). change (n_kids s1) with (n_kids s). cbn [set_go spawn new_group emit s_ctxs s_gos s1].
  rewrite insert_app_l by (by eapply lookup_lt_Some). rewrite sum_list_with_app.
  pose proof (sum_insert (go_weight (n_kids s)) (s_gos s) g _ (GStop c r rel (PAwait (length (s_groups s)))) Hg) as Hi. cbn [go_weight p_weight p_spawns] in Hi.
  assert (∀ l, sum_list_with (go_weight (n_kids s)) ((λ d, GStop d reason (Release (length (s_groups s))) PLock) <$> l) = 11 * length l) as Hsum
    by (intros l; induction l as [|d l IH]; cbn in *; [done|rewrite IH; lia]).
  rewrite Hsum, length_reverse. unfold kids. rewrite length_fmap. fold (n_kids s c). lia.
Qed.

Lemma weight_step s g s' : run_go s g = Ret s' → weight s' < weight s.
Proof.
  intros Hs. change (step s (Run g) = Ret s') in Hs. step_cases Hs.
  all: try (match goal with |- context [on_ctx ?c ?f ?s0] => destruct (weight_on s0 c f eq_refl eq_refl) as [Hw Hk] end).
  all: try (eapply (weight_set s); [done|eassumption|intros d; try (rewrite Hk); done|
    change (ctxs_weight (emit ?e ?s0)) with (ctxs_weight s0); change (n_kids (emit ?e ?s0)) with (n_kids s0);
    change (ctxs_weight (emit_if ?b ?e ?s0)) with (ctxs_weight s0); change (n_kids (emit_if ?b ?e ?s0)) with (n_kids s0);
    cbn [go_weight p_weight p_spawns t_weight]; rewrite ?Hw, ?Hk; lia]).
  - apply andb_prop in H3 as [_ H3]. pose proof (ctx_weight_on s c (with_stop reason)) as Hw. unfold ctx_weight in Hw. rewrite H3 in Hw. cbn in Hw.
    assert (∀ d, n_kids (on_ctx c (with_stop reason) s) d = n_kids s d) as Hk by (intros d; unfold n_kids; rewrite ctx_at_on; by case_decide; subst).
    eapply (weight_set s); [done|eassumption|intros d; by rewrite Hk|]. cbn [go_weight p_weight p_spawns]. rewrite Hk. unfold n_kids. lia.
  - eapply (weight_set s); [done|eassumption|intros d; change (n_kids (emit_if ?b ?e ?s0) d) with (n_kids s0 d); by rewrite Hk|].
    change (ctxs_weight (emit_if ?b ?e ?s0)) with (ctxs_weight s0); change (n_kids (emit_if ?b ?e ?s0)) with (n_kids s0). cbn [go_weight p_weight p_spawns]. rewrite Hw, Hk. lia.
  - destruct (weight_detach s n c) as [Hw Hk]. pose proof (detach_gos s n c) as Hg. rewrite H3 in *. cbn [fst] in *.
    eapply (weight_set s); [done|eassumption|done|]. cbn [go_weight p_weight p_spawns]. specialize (Hk c). lia.
  - unfold CtxStopChildren in H2. injection H2 as <- <-. by apply weight_children.
  - eapply (weight_set s); [done|eassumption|intros d; change (n_kids (emit ?e ?s0) d) with (n_kids s0 d); by rewrite Hk|].
    change (ctxs_weight (emit ?e ?s0)) with (ctxs_weight s0). cbn [go_weight p_weight p_spawns]. rewrite Hw. lia.
  - eapply (weight_set s); [done|eassumption|done|]. cbn [go_weight p_weight p_spawns]. unfold ctxs_weight. cbn. lia.
Qed.

(** ** Theorems *)

Lemma count_unique {A} (P : A → bool) (l : list A) i j x y : count P l ≤ 1 → l !! i = Some x → l !! j = Some y → P x = true → P y = true → i = j.
Proof.
  unfold count. revert i j. induction l as [|a l IH]; intros [|i] [|j] Hc Hi Hj Hx Hy; simplify_eq/=; [done|..].
  - rewrite Hx in Hc. cbn in Hc. pose proof (count_elem P l j y Hj Hy). unfold count in *. lia.
  - rewrite Hy in Hc. cbn in Hc. pose proof (count_elem P l i x Hi Hx). unfold count in *. lia.
  - f_equal. apply IH; [lia|done..].
Qed.

(** of all the calls of [CtxStop] for a context that have passed the guard, at most one
    returns true, and there is one exactly when the context's channel is closed. *)
Theorem ctx_stop_once s c :
  reachable s →
  (∀ g1 r1 rel1 p1 g2 r2 rel2 p2, s_gos s !! g1 = Some (GStop c r1 rel1 p1) → s_gos s !! g2 = Some (GStop c r2 rel2 p2) →
     p_initiated p1 = true → p_initiated p2 = true → g1 = g2) ∧
  (x_done (ctx_at s c) = true ↔ ∃ g r rel p, s_gos s !! g = Some (GStop c r rel p) ∧ p_initiated p = true).
Proof.
  intros [Hc Ht]%reachable_inv. pose proof (n_initiated s Hc c) as Hn. split.
  - intros g1 r1 rel1 p1 g2 r2 rel2 p2 H1 H2 Hp1 Hp2. eapply (count_unique (stops p_initiated c)); [|exact H1|exact H2|by rewrite stops_self..].
    rewrite Hn. destruct (x_done _); cbn; lia.
  - split.
    + intros Hd. rewrite Hd in Hn. destruct (proj1 (count_pos (stops p_initiated c) (s_gos s))) as (i & x & Hi & Hx); [rewrite Hn; cbn; lia|].
      destruct x as [d r rel p| |]; try done. cbn in Hx. apply andb_prop in Hx as [<-%bool_decide_eq_true Hp]. eauto 10.
    + intros (g & r & rel & p & Hg & Hp). pose proof (count_elem (stops p_initiated c) _ _ _ Hg ltac:(by rewrite stops_self)) as Hlt.
      rewrite Hn in Hlt. destruct (x_done _); [done|cbn in Hlt; lia].
Qed.

(** C35: a context is closed only after every child that it had when it came to stop its
    children; the order of the interleaved goroutines does not matter. *)
Theorem ctx_leaf_first s c children d :
  reachable s → EStopChildren c children ∈ s_trace s → d ∈ children → x_done (ctx_at s c) = true → x_done (ctx_at s d) = true.
Proof.
  intros [Hc Ht]%reachable_inv He Hd Hdone. destruct (t_trace s Ht c children d He Hd) as [?|(g & r & rel & w & _ & _ & _ & Hg & _)]; [done|exfalso].
  destruct (in_stopping s g c r rel (PAwait w) Hc Hg eq_refl) as [Hr _]. unfold CtxRunning in Hr. rewrite Hdone, andb_false_r in Hr. done.
Qed.

(** C34: if the tasks end and nothing else is started, every call of [CtxStop] returns: no run
    of the goroutines is longer than [weight], none panics, and one that cannot go on has
    returned from every call. *)
Theorem ctx_stop_returns s gs s' :
  reachable s → fold_outcome run_go s gs = Ret s' →
  length gs ≤ weight s ∧ (∀ g, run_go s' g ≠ Panic) ∧
  ((∀ g s2, run_go s' g ≠ Ret s2) → ∀ g c r rel p, s_gos s' !! g = Some (GStop c r rel p) → p_returned p = true).
Proof.
  intros Hr Hs. assert (reachable s' ∧ length gs + weight s' ≤ weight s) as [Hr' Hw].
  { clear -Hr Hs. revert s Hr Hs. induction gs as [|g gs IH]; intros s Hr Hs; cbn in Hs; [injection Hs as <-; split; [done|cbn; lia]|].
    destruct (run_go s g) as [s1| | |] eqn:H1; try done. cbn in Hs. destruct (IH s1) as [? ?]; [by apply (reach_step s (Run g))|done|].
    split; [done|]. pose proof (weight_step s g s1 H1). cbn. lia. }
  split; [lia|]. apply reachable_inv in Hr' as [Hc Ht]. split.
  - intros g. by apply no_panic.
  - intros Hstuck g c r rel p Hg. destruct (p_returned p) eqn:Hp; [done|]. destruct (stop_enabled s' g c r rel p Hc Ht Hg Hp) as (g' & s2 & H2). by destruct (Hstuck g' s2).
Qed.
End Reachable.

(** ** Examples *)

(** Steps of an orderly program, checked one by one. *)
Definition perform (s : state) (l : list action) : outcome state := fold_outcome step s l.

Fixpoint orderly_run (rank : nat → nat) (s : state) (l : list action) : bool :=
  match l with
  | [] => true
  | a :: l =>
      match a with
      | AStart c _ _ _ _ => negb (x_started (ctx_at s c))
      | AStop c _ _ | AFault c => x_started (ctx_at s c)
      | AAddChild c d _ => x_started (ctx_at s d) && bool_decide (rank d < rank c)
      | Run _ | AGo _ => true
      end && match step s a with Ret s => orderly_run rank s l | _ => true end
  end.

Lemma perform_reachable rank s l s' : reachable rank s → orderly_run rank s l = true → perform s l = Ret s' → reachable rank s'.
Proof.
  unfold perform. revert s. induction l as [|a l IH]; intros s Hr Ho Hs; cbn in Hs, Ho; [by injection Hs as <-|].
  apply andb_prop in Ho as [Ha Ho]. destruct (step s a) as [s1| | |] eqn:H1; try done. apply (IH s1); [|done|done].
  apply (reach_step rank s a); [done| |done].
  destruct a; cbn in *; try done; [by apply negb_true_iff in Ha|]. apply andb_prop in Ha as [? ?%bool_decide_eq_true]. done.
Qed.

(** Context 0 with child 1, which has child 2; a task runs in 2. *)
Definition three : list action :=
  [AStart 0 false true true true; AStart 1 false true false true; AStart 2 false false false true; AAddChild 0 1 (str "one"); AAddChild 1 2 (str "two"); AGo 2].

Definition height (c : nat) : nat := 3 - c.

(** The root is stopped: goroutine 4 is the call, 5 and 6 stop the children. *)
Definition stop_root : list action :=
  three ++ [AStop 0 (str "bye") true] ++ (Run <$> [4; 4; 4; 4; 5; 5; 5; 5; 5; 6; 6; 6; 6; 6; 6; 6; 6; 2; 2; 3; 3; 6; 6; 5; 5; 5; 1; 1; 5; 5; 4; 4; 4; 0; 0; 4; 4]).

Definition stopped : state := match perform no_contexts stop_root with Ret s => s | _ => no_contexts end.

Lemma stopped_reachable : reachable height stopped.
Proof. apply (perform_reachable height no_contexts stop_root); [apply reach_start|vm_compute; reflexivity|vm_compute; reflexivity]. Qed.

Lemma ctx_stop_once_witness : ∃ g r rel p, s_gos stopped !! g = Some (GStop 2 r rel p) ∧ p_initiated p = true.
Proof. apply (proj2 (ctx_stop_once height stopped 2 stopped_reachable)). vm_compute. reflexivity. Defined.

Lemma ctx_leaf_first_witness : x_done (ctx_at stopped 1) = true.
Proof. apply (ctx_leaf_first height stopped 0 [1] 1 stopped_reachable); [|apply list_elem_of_singleton; reflexivity|vm_compute; reflexivity].
  apply (list_elem_of_lookup_2 _ 1). vm_compute. reflexivity. Defined.

Lemma ctx_stop_returns_witness : 0 ≤ weight stopped ∧ run_go stopped 4 ≠ Panic.
Proof. destruct (ctx_stop_returns height stopped [] stopped stopped_reachable eq_refl) as (Hl & Hp & _). split; [exact Hl|apply Hp]. Defined.

(** A child that is stopping on its own has left its parent, which then does not wait for it:
    the root is closed while both contexts below it still run. *)
Example in_flight_child_outlives_parent :
  ∃ s, perform no_contexts (three ++ [AStop 1 (str "own") false] ++ (Run <$> [4; 4; 4]) ++ [AStop 0 (str "bye") false] ++ (Run <$> [5; 5; 5; 5; 5; 5; 5])) = Ret s ∧
    x_done (ctx_at s 0) = true ∧ CtxRunning (ctx_at s 1) = true ∧ CtxRunning (ctx_at s 2) = true.
Proof. eexists. split; [vm_compute; reflexivity|]. split_and!; vm_compute; reflexivity. Qed.

(** [CtxStopped] of a context that has been started is false, also when it has been stopped. *)
Lemma stopped_context_not_CtxStopped rank s c : reachable rank s → x_done (ctx_at s c) = true → CtxStopped (ctx_at s c) = false.
Proof. intros [Hc _]%reachable_inv Hd. unfold CtxStopped. by rewrite (proj2 (n_flags s Hc c) Hd). Qed.

(** Of several children with the same ID the last one is found. *)
Lemma child_by_id_last x id l c : x_children x = l ++ [(id, c)] → CtxGetChildByID x id = Some c.
Proof. intros Hl. unfold CtxGetChildByID. rewrite Hl, foldl_app. cbn. by rewrite decide_True. Qed.

(** Only a signal more than three seconds after the first one ends the process. *)
Lemma exit_on_late_signal count firstTime curTime h : on_signal (count, firstTime) curTime = (h, ExitProcess) ↔
  count ≠ 0 ∧ (curTime > firstTime + 3)%Z ∧ h = (S count, firstTime).
Proof. unfold on_signal. repeat case_decide; naive_solver lia. Qed.
