(* ===== verification/TxStore.v ===== *)
(** * The transaction store ([txstore.badger.go])

    Transactions, the leaves of their graph and the known state URIs are items of one Badger
    database ([BadgerTxn]).  [db.Update] runs its function in a transaction that is dropped
    when the function returns an error, so an operation that fails returns no new store.

    [set_slice] is [IDSet.Slice]: the elements of a Go map in the order in which the runtime
    happens to enumerate them. *)

From S2P Require Import Prelude Types Keypath TreeTypes GoValue BadgerTxn Tx.

(** [utils/set.id.go] *)
Definition IDSet := gset ID.
Definition NewIDSet (vals : list ID) : IDSet := foldl (λ s v, {[v]} ∪ s) ∅ vals.
Definition IDSet_Add (s : IDSet) (v : ID) : IDSet := {[v]} ∪ s.
Definition IDSet_Remove (s : IDSet) (v : ID) : IDSet := s ∖ {[v]}.

Class MapOrder := { set_slice : IDSet → list ID }.
Class MapOrderLaw `{MapOrder} : Prop := { set_slice_perm s : set_slice s ≡ₚ elements s }.
#[export] Instance MapOrder_elements : MapOrder := { set_slice s := elements s }.
#[export] Instance MapOrder_elements_law : MapOrderLaw.
Proof. by split. Qed.

Definition makeTxKey (stateURI : bytes) (txID : ID) : bytes := str "tx:" ++ stateURI ++ str ":" ++ txID.
Definition leafKey (stateURI : bytes) (txID : ID) : bytes := str "leaf:" ++ stateURI ++ str ":" ++ txID.

Section Store.
Context {T : Type} `{BadgerTxn T} `{JsonCodec} `{ProtoCodec} `{MapOrder}.

(** [txn.Get] and [UnmarshalProto] *)
Definition get_tx (t : T) (stateURI : bytes) (txID : ID) : outcome Tx :=
  match txn_get t (makeTxKey stateURI txID) with
  | None => Err ErrKeyNotFound
  | Some v => UnmarshalProto v
  end.

(** The transaction becomes a child of one of its parents. *)
Definition link_parent (tx : Tx) (t : T) (parentID : ID) : outcome T :=
  let! parentTx := get_tx t (tx_StateURI tx) parentID in
  let parentTx := with_children parentTx (set_slice (IDSet_Add (NewIDSet (tx_Children parentTx)) (tx_ID tx))) in
  let! parentBytes := MarshalProto parentTx in
  txn_set t (makeTxKey (tx_StateURI tx) parentID) parentBytes.

Definition store_AddTx (t : T) (tx : Tx) : outcome T :=
  let! bs := MarshalProto tx in
  let! t := txn_set t (makeTxKey (tx_StateURI tx) (tx_ID tx)) bs in
  let! t := if decide (tx_Status tx = TxStatusValid) then fold_outcome (link_parent tx) t (tx_Parents tx) else Ret t in
  txn_set t (str "stateuri:" ++ tx_StateURI tx) [].

Definition RemoveTx (t : T) (stateURI : bytes) (txID : ID) : outcome T := txn_delete t (makeTxKey stateURI txID).

Definition TxExists (t : T) (stateURI : bytes) (txID : ID) : bool :=
  match txn_get t (makeTxKey stateURI txID) with None => false | Some _ => true end.

Definition FetchTx (t : T) (stateURI : bytes) (txID : ID) : outcome Tx :=
  match txn_get t (makeTxKey stateURI txID) with
  | None => Err Err404
  | Some v => UnmarshalProto v
  end.

(** The traversal behind [AllTxsForStateURI], when it is not cancelled: the transactions it
    sends, and the error it ends with. *)
Fixpoint all_txs_loop (fuel : nat) (t : T) (stateURI : bytes) (stack : list ID) (sent : gset ID) (out : list Tx) :
    outcome (list Tx * option error) :=
  match fuel with
  | O => Running
  | S fuel =>
      match stack with
      | [] => Ret (out, None)
      | txID :: stack =>
          if decide (txID ∈ sent) then all_txs_loop fuel t stateURI stack sent out
          else
            match get_tx t stateURI txID with
            | Ret tx => all_txs_loop fuel t stateURI (stack ++ tx_Children tx) ({[txID]} ∪ sent) (out ++ [tx])
            | Err e => Ret (out, Some e)
            | Panic => Panic
            | Running => Running
            end
      end
  end.

(** The IDs stored under a state URI, and how many children they have in all. *)
Definition stored_ids (t : T) (stateURI : bytes) : list ID :=
  (λ kv, drop (length (makeTxKey stateURI [])) kv.1) <$>
  filter (λ kv, has_prefix kv.1 (makeTxKey stateURI []) = true) (txn_items t).
Definition child_count (t : T) (stateURI : bytes) (id : ID) : nat :=
  match get_tx t stateURI id with Ret tx => length (tx_Children tx) | _ => 0 end.
Definition traversal_fuel (t : T) (stateURI : bytes) : nat := 2 + sum_list (child_count t stateURI <$> stored_ids t stateURI).

Definition AllTxsForStateURI (t : T) (stateURI : bytes) (fromTxID : ID) : outcome (list Tx * option error) :=
  let fromTxID := if decide (fromTxID = EmptyID) then GenesisTxID else fromTxID in
  all_txs_loop (traversal_fuel t stateURI) t stateURI [fromTxID] ∅ [].

Fixpoint take_prefixed (prefix : bytes) (items : list (bytes * bytes)) : list bytes :=
  match items with
  | [] => []
  | (k, _) :: items => if has_prefix k prefix then drop (length prefix) k :: take_prefixed prefix items else []
  end.

Definition KnownStateURIs (t : T) : list bytes :=
  take_prefixed (str "stateuri:") (bi_rest (Seek (NewIterator t false) (str "stateuri:"))).

Definition MarkLeaf (t : T) (stateURI : bytes) (txID : ID) : outcome T := txn_set t (leafKey stateURI txID) [].
Definition UnmarkLeaf (t : T) (stateURI : bytes) (txID : ID) : outcome T := txn_delete t (leafKey stateURI txID).

Definition Leaves (t : T) (stateURI : bytes) : list ID :=
  IDFromBytes <$> take_prefixed (leafKey stateURI []) (bi_rest (Seek (NewIterator t false) (leafKey stateURI []))).
End Store.

(** ** Keys *)

Lemma app_suffix_inj {A} (a b x y : list A) : length x = length y → a ++ x = b ++ y → a = b ∧ x = y.
Proof. intros Hl. apply app_inj_2. done. Qed.

Lemma makeTxKey_inj u1 u2 id1 id2 : length id1 = length id2 → makeTxKey u1 id1 = makeTxKey u2 id2 → u1 = u2 ∧ id1 = id2.
Proof.
  intros Hl Heq. unfold makeTxKey in Heq. apply (inj (app (str "tx:"))) in Heq.
  apply app_suffix_inj in Heq as [-> Heq]; [|rewrite !length_app; lia]. by apply (inj (app (str ":"))) in Heq.
Qed.

Lemma makeTxKey_other u id k : makeTxKey u id ≠ str "stateuri:" ++ k ∧ ∀ u' id', makeTxKey u id ≠ leafKey u' id'.
Proof. done. Qed.

Lemma makeTxKey_nonempty u id : makeTxKey u id ≠ [].
Proof. done. Qed.

(** ** Scans *)

Section Scans.
Context {T : Type} `{HL : BadgerLaws T}.

Lemma take_prefixed_run P l l3 :
  Forall (λ kv, has_prefix kv.1 P = true) l → Forall (λ kv, has_prefix kv.1 P = false) l3 →
  take_prefixed P (l ++ l3) = (λ kv, drop (length P) kv.1) <$> l.
Proof.
  intros Hl Hl3. induction Hl as [|[k v] l Hk _ IH].
  - destruct Hl3 as [|[k v] l3 Hk _]; simpl; [done|]. simpl in Hk. by rewrite Hk.
  - simpl in *. by rewrite Hk, IH.
Qed.

(** What a scan for a prefix lists: the rests of the keys that have it. *)
Definition with_prefix (t : T) (P : bytes) : list bytes :=
  (λ kv, drop (length P) kv.1) <$> filter (λ kv, has_prefix kv.1 P = true) (txn_items t).

Lemma scan_prefix_list t P : take_prefixed P (bi_rest (Seek (NewIterator t false) P)) = with_prefix t P.
Proof.
  simpl. destruct (seek_prefix P (txn_items t) (law_sorted t)) as (l3 & -> & Hl3).
  apply take_prefixed_run; [|done]. apply Forall_forall. by intros kv [? _]%list_elem_of_filter.
Qed.

Lemma with_prefix_elem t P x : x ∈ with_prefix t P ↔ is_Some (txn_get t (P ++ x)).
Proof.
  unfold with_prefix. rewrite list_elem_of_fmap. split.
  - intros ([k v] & -> & [Hp Hin%law_items]%list_elem_of_filter). simpl in *. apply has_prefix_spec in Hp as [q ->].
    rewrite drop_app_length. by exists v.
  - intros [v Hv]. exists (P ++ x, v). simpl. rewrite drop_app_length. split; [done|].
    apply list_elem_of_filter. split; [apply has_prefix_app|]. by apply law_items.
Qed.

Lemma with_prefix_NoDup t P : NoDup (with_prefix t P).
Proof.
  unfold with_prefix. assert (NoDup (filter (λ kv, has_prefix kv.1 P = true) (txn_items t)).*1) as Hnd.
  { apply sorted_lt_NoDup, filter_items_sorted, law_sorted. }
  change (λ kv : bytes * bytes, drop (length P) kv.1) with (@drop byte (length P) ∘ @fst bytes bytes).
  rewrite list_fmap_compose. apply (NoDup_fmap_2_strong (drop (length P))); [|done].
  intros x y Hx Hy Heq.
  assert (∀ z, z ∈ (filter (λ kv, has_prefix kv.1 P = true) (txn_items t)).*1 → P ++ drop (length P) z = z) as Hz.
  { intros z ([k v] & -> & [Hp _]%list_elem_of_filter)%list_elem_of_fmap. simpl in *. apply has_prefix_spec in Hp as [q ->].
    by rewrite drop_app_length. }
  by rewrite <- (Hz x Hx), <- (Hz y Hy), Heq.
Qed.
End Scans.

(** ** Leaves *)

Section LeafFacts.
Context {T : Type} `{HL : BadgerLaws T}.

(** No other state URI continues this one behind a colon, so what follows the prefix of its
    leaf keys is an ID. *)
Definition leaf_keys_ok (t : T) (stateURI : bytes) : Prop :=
  ∀ x, is_Some (txn_get t (leafKey stateURI [] ++ x)) → length x = id_length.

Lemma leafKey_app uri id : leafKey uri id = leafKey uri [] ++ id.
Proof. unfold leafKey. by rewrite app_nil_r, <- !(assoc_L (++)). Qed.

Lemma Leaves_eq t uri : leaf_keys_ok t uri → Leaves t uri = with_prefix t (leafKey uri []).
Proof.
  intros Hok. unfold Leaves. rewrite scan_prefix_list. transitivity (id <$> with_prefix t (leafKey uri [])).
  - apply list_fmap_ext. intros i x Hx%list_elem_of_lookup_2%with_prefix_elem%Hok. by apply array_from_id.
  - apply list_fmap_id.
Qed.

Lemma Leaves_elem t uri id : leaf_keys_ok t uri → id ∈ Leaves t uri ↔ is_Some (txn_get t (leafKey uri id)).
Proof. intros Hok. by rewrite Leaves_eq, with_prefix_elem, <- leafKey_app. Qed.
End LeafFacts.

(** ** Theorems *)

(** The leaves of a state URI are a set: marking adds one ID, unmarking removes it, no
    other ID comes or goes, and none is listed twice. *)
Theorem txstore_leaves {T} `{BadgerLaws T} (t : T) uri id :
  leaf_keys_ok t uri → length id = id_length →
  ∃ t1 t2, MarkLeaf t uri id = Ret t1 ∧ UnmarkLeaf t uri id = Ret t2 ∧
    leaf_keys_ok t1 uri ∧ leaf_keys_ok t2 uri ∧ NoDup (Leaves t1 uri) ∧ NoDup (Leaves t2 uri) ∧
    ∀ x, (x ∈ Leaves t1 uri ↔ x = id ∨ x ∈ Leaves t uri) ∧ (x ∈ Leaves t2 uri ↔ x ≠ id ∧ x ∈ Leaves t uri).
Proof.
  intros Hok Hid. destruct (law_set t (leafKey uri id) []) as (t1 & Ht1 & Hg1); [done|].
  destruct (law_delete t (leafKey uri id)) as (t2 & Ht2 & Hg2); [done|]. exists t1, t2.
  assert (leaf_keys_ok t1 uri) as Hok1.
  { intros x. rewrite Hg1. case_decide as Hx; [|apply Hok]. intros _. rewrite (leafKey_app uri id) in Hx. by apply (inj _) in Hx as ->. }
  assert (leaf_keys_ok t2 uri) as Hok2.
  { intros x. rewrite Hg2. case_decide; [by intros []|apply Hok]. }
  do 4 (split; [done|]). split; [rewrite Leaves_eq by done; apply with_prefix_NoDup|].
  split; [rewrite Leaves_eq by done; apply with_prefix_NoDup|].
  intros x. rewrite !Leaves_elem by done. rewrite Hg1, Hg2.
  assert (leafKey uri x = leafKey uri id ↔ x = id) as Hinj.
  { split; [|by intros ->]. rewrite (leafKey_app uri x), (leafKey_app uri id). by intros ?%(inj _). }
  destruct (decide (x = id)) as [->|Hne].
  - rewrite !decide_True by done. split; [split; [by left|by eexists]|split; [by intros []|by intros []]].
  - rewrite !decide_False by tauto. split; [split; [by right|by intros [?|?]]|tauto].
Qed.

Lemma txstore_leaves_witness :
  ∃ t1 t2, MarkLeaf (∅ : gmap bytes bytes) (str "a") (id_of 1) = Ret t1 ∧
    UnmarkLeaf (∅ : gmap bytes bytes) (str "a") (id_of 1) = Ret t2 ∧
    (id_of 1 ∈ Leaves t1 (str "a") ↔ id_of 1 = id_of 1 ∨ id_of 1 ∈ Leaves (∅ : gmap bytes bytes) (str "a")).
Proof.
  destruct (txstore_leaves (∅ : gmap bytes bytes) (str "a") (id_of 1)) as (t1 & t2 & H1 & H2 & _ & _ & _ & _ & Hx).
  - intros x [v Hv]. discriminate Hv.
  - reflexivity.
  - exists t1, t2. split; [exact H1|]. split; [exact H2|]. exact (proj1 (Hx (id_of 1))).
Defined.

(** A leaf of the state URI [a:b] shows up, as an ID that is none, among the leaves of [a]. *)
Theorem leaves_of_longer_uri :
  (let! t := MarkLeaf (∅ : gmap bytes bytes) (str "a:b") (id_of 1) in Ret (Leaves t (str "a"))) =
  Ret [IDFromBytes (str "b:" ++ id_of 1)].
Proof. vm_compute. reflexivity. Qed.

(** ** Adding transactions *)

(** A transaction that can be marshalled. *)
Definition storable `{JsonLaws} `{ProtoLaws} (tx : Tx) : Prop :=
  tx_wf tx ∧ ∀ m, to_pb tx = Ret m → proto_message m.

Section AddFacts.
Context {T : Type} `{HL : BadgerLaws T} `{JL : JsonLaws} `{PL : ProtoLaws} `{ML : MapOrderLaw}.

Lemma storable_roundtrip tx :
  storable tx → ∃ bs, MarshalProto tx = Ret bs ∧ UnmarshalProto bs = Ret (uncached tx).
Proof. intros [Hwf Hm]. by apply MarshalProto_roundtrip. Qed.

Lemma NewIDSet_elem l x : x ∈ NewIDSet l ↔ x ∈ l.
Proof.
  unfold NewIDSet. assert (∀ s : gset ID, x ∈ foldl (λ s v, {[v]} ∪ s) s l ↔ x ∈ s ∨ x ∈ l) as Hf.
  { induction l as [|y l IH]; intros s; simpl; [set_solver|]. rewrite IH. set_solver. }
  rewrite Hf. set_solver.
Qed.
End AddFacts.

Section Linking.
Context {T : Type} `{HL : BadgerLaws T} `{JL : JsonLaws} `{PL : ProtoLaws} `{ML : MapOrderLaw}.

Lemma UnmarshalProto_uncached bs tx : UnmarshalProto bs = Ret tx → uncached tx = tx.
Proof.
  unfold UnmarshalProto. destruct (proto_Unmarshal bs) as [m| | |]; try done. cbn [obind].
  destruct (map_outcome of_pb_patch (pb_Patches m)); try done. cbn [obind]. by intros [= <-].
Qed.

Lemma get_tx_uncached (t : T) uri id tx : get_tx t uri id = Ret tx → uncached tx = tx.
Proof. unfold get_tx. destruct (txn_get t _); [|done]. apply UnmarshalProto_uncached. Qed.

(** The lists of children in a stored transaction may change. *)
Lemma storable_children tx cs :
  storable tx → Forall (λ id, length id = id_length) cs → storable (with_children tx cs).
Proof.
  intros [[Hid Hpar Hch Hfrom Hrec Hval] Hm] Hcs. split; [by split|]. intros m. unfold to_pb in *. simpl.
  destruct (map_outcome pb_patch (tx_Patches tx)) as [ps| | |] eqn:Hps; try done. cbn [obind] in *.
  intros [= <-]. eapply proto_strings; [..|by apply Hm]; done.
Qed.

(** [tx'] is [tx] up to its list of children, which has become the set [P]. *)
Definition rechilded (tx tx' : Tx) (P : ID → Prop) : Prop :=
  with_children tx' (tx_Children tx) = tx ∧ ∀ x, x ∈ tx_Children tx' ↔ P x.

Lemma link_parent_spec (tx : Tx) (t : T) p ptx :
  length (tx_ID tx) = id_length → get_tx t (tx_StateURI tx) p = Ret ptx → storable ptx →
  ∃ t' ptx', link_parent tx t p = Ret t' ∧ get_tx t' (tx_StateURI tx) p = Ret ptx' ∧ storable ptx' ∧
    rechilded ptx ptx' (λ x, x = tx_ID tx ∨ x ∈ tx_Children ptx) ∧
    ∀ k, k ≠ makeTxKey (tx_StateURI tx) p → txn_get t' k = txn_get t k.
Proof.
  intros Hid Hget Hst. unfold link_parent. rewrite Hget. cbn [obind].
  set (cs := set_slice _). set (ptx' := with_children ptx cs).
  assert (∀ x, x ∈ cs ↔ x = tx_ID tx ∨ x ∈ tx_Children ptx) as Hcs.
  { intros x. unfold cs. rewrite set_slice_perm, elem_of_elements. unfold IDSet_Add.
    rewrite elem_of_union, elem_of_singleton, NewIDSet_elem. done. }
  assert (storable ptx') as Hst'.
  { apply storable_children; [done|]. apply Forall_forall. intros x [->|Hx]%Hcs; [done|].
    destruct Hst as [[_ _ Hch _ _ _] _]. rewrite Forall_forall in Hch. by apply Hch. }
  destruct (storable_roundtrip ptx' Hst') as (bs & -> & Hu). cbn [obind].
  destruct (law_set t (makeTxKey (tx_StateURI tx) p) bs) as (t' & -> & Hg); [done|].
  exists t', ptx'. split; [done|]. split.
  { unfold get_tx. rewrite Hg, decide_True by done. rewrite Hu. f_equal.
    unfold ptx'. rewrite <- (get_tx_uncached _ _ _ _ Hget). done. }
  split; [done|]. split; [|intros k Hk; by rewrite Hg, decide_False].
  split; [by destruct ptx|done].
Qed.

(** Linking a list of parents, none of which is the transaction itself. *)
Lemma link_parents_spec (tx : Tx) (ps : list ID) (t : T) :
  length (tx_ID tx) = id_length → Forall (λ p, length p = id_length) ps →
  (∀ p, p ∈ ps → ∃ ptx, get_tx t (tx_StateURI tx) p = Ret ptx ∧ storable ptx) →
  ∃ t', fold_outcome (link_parent tx) t ps = Ret t' ∧
    (∀ p ptx, p ∈ ps → get_tx t (tx_StateURI tx) p = Ret ptx →
       ∃ ptx', get_tx t' (tx_StateURI tx) p = Ret ptx' ∧ storable ptx' ∧
         rechilded ptx ptx' (λ x, x = tx_ID tx ∨ x ∈ tx_Children ptx)) ∧
    (∀ k, (∀ p, p ∈ ps → k ≠ makeTxKey (tx_StateURI tx) p) → txn_get t' k = txn_get t k).
Proof.
  intros Hid. revert t. induction ps as [|p ps IH]; intros t Hlen Hps.
  { exists t. split; [done|]. split; [set_solver|done]. }
  apply Forall_cons in Hlen as [Hp Hlen]. destruct (Hps p) as (ptx & Hget & Hst); [set_solver|].
  destruct (link_parent_spec tx t p ptx Hid Hget Hst) as (t1 & ptx1 & Hlink & Hget1 & Hst1 & Hre1 & Hoth1).
  assert (∀ q, q ≠ p → length q = id_length → get_tx t1 (tx_StateURI tx) q = get_tx t (tx_StateURI tx) q) as Hsame.
  { intros q Hne Hq. unfold get_tx. rewrite Hoth1; [done|]. intros [_ ->]%makeTxKey_inj; [done|congruence]. }
  assert (∀ q, q ∈ ps → length q = id_length) as Hlq by (by apply Forall_forall).
  destruct (IH t1 Hlen) as (t' & Hf & Hin & Hout).
  { intros q Hq. destruct (decide (q = p)) as [->|Hne]; [eauto|].
    destruct (Hps q) as (qtx & Hqtx & Hqst); [set_solver|]. exists qtx. rewrite Hsame; auto. }
  exists t'. cbn [fold_outcome]. rewrite Hlink. cbn [obind]. split; [done|]. split.
  - intros q qtx Hq Hqtx. destruct (decide (q ∈ ps)) as [Hqps|Hqps].
    + destruct (decide (q = p)) as [->|Hne]; [|apply Hin; [done|]; rewrite Hsame; auto].
      assert (qtx = ptx) as -> by congruence.
      destruct (Hin p ptx1 Hqps Hget1) as (ptx' & Hg' & Hst' & Hw & Hc). exists ptx'. split; [done|]. split; [done|].
      destruct Hre1 as [Hw1 Hc1]. split.
      * rewrite <- Hw1, <- Hw. by destruct ptx'.
      * intros x. rewrite Hc, Hc1. tauto.
    + assert (q = p) as -> by set_solver. assert (qtx = ptx) as -> by congruence. exists ptx1.
      split; [|done]. unfold get_tx. rewrite Hout; [done|]. intros q' Hq' Heq.
      apply makeTxKey_inj in Heq as [_ <-]; [done|]. rewrite Hp. symmetry. by apply Hlq.
  - intros k Hk. rewrite Hout by (intros q Hq; apply Hk; set_solver). apply Hoth1, Hk. set_solver.
Qed.
End Linking.

Section Adding.
Context {T : Type} `{HL : BadgerLaws T} `{JL : JsonLaws} `{PL : ProtoLaws} `{ML : MapOrderLaw}.

Lemma FetchTx_get_tx (t : T) uri id tx : FetchTx t uri id = Ret tx ↔ get_tx t uri id = Ret tx.
Proof. unfold FetchTx, get_tx. by destruct (txn_get t _). Qed.

(** A parent that is in the store in good order. *)
Definition stored_parent (t : T) (uri : bytes) (p : ID) : Prop := ∃ ptx, get_tx t uri p = Ret ptx ∧ storable ptx.

Definition addable (t : T) (tx : Tx) : Prop :=
  storable tx ∧ tx_ID tx ∉ tx_Parents tx ∧
  (tx_Status tx = TxStatusValid → ∀ p, p ∈ tx_Parents tx → stored_parent t (tx_StateURI tx) p).

(** Writing the transaction itself leaves its parents as they were. *)
Lemma add_self_parents (t t1 : T) tx bs p :
  storable tx → tx_ID tx ∉ tx_Parents tx → p ∈ tx_Parents tx →
  txn_set t (makeTxKey (tx_StateURI tx) (tx_ID tx)) bs = Ret t1 →
  txn_get t1 (makeTxKey (tx_StateURI tx) p) = txn_get t (makeTxKey (tx_StateURI tx) p).
Proof.
  intros [[Hid Hpar _ _ _ _] _] Hnot Hp Ht1. rewrite (txn_set_get t t1 _ _ _ (makeTxKey_nonempty _ _) Ht1).
  rewrite decide_False; [done|]. rewrite Forall_forall in Hpar.
  intros [_ ->]%makeTxKey_inj; [done|]. rewrite Hid. by apply Hpar.
Qed.

Lemma AddTx_spec (t : T) tx :
  addable t tx →
  ∃ t', store_AddTx t tx = Ret t' ∧ get_tx t' (tx_StateURI tx) (tx_ID tx) = Ret (uncached tx) ∧
    (tx_Status tx = TxStatusValid → ∀ p ptx, p ∈ tx_Parents tx → get_tx t (tx_StateURI tx) p = Ret ptx →
       ∃ ptx', get_tx t' (tx_StateURI tx) p = Ret ptx' ∧ storable ptx' ∧
         rechilded ptx ptx' (λ x, x = tx_ID tx ∨ x ∈ tx_Children ptx)) ∧
    (∀ k, k ≠ makeTxKey (tx_StateURI tx) (tx_ID tx) → k ≠ str "stateuri:" ++ tx_StateURI tx →
       (tx_Status tx = TxStatusValid → ∀ p, p ∈ tx_Parents tx → k ≠ makeTxKey (tx_StateURI tx) p) →
       txn_get t' k = txn_get t k) ∧
    txn_get t' (str "stateuri:" ++ tx_StateURI tx) = Some [].
Proof.
  intros (Hst & Hnot & Hpar). set (uri := tx_StateURI tx) in *.
  destruct (storable_roundtrip tx Hst) as (bs & Hm & Hu). unfold store_AddTx. rewrite Hm. cbn [obind]. fold uri.
  destruct (law_set t (makeTxKey uri (tx_ID tx)) bs) as (t1 & Ht1 & Hg1); [done|]. rewrite Ht1. cbn [obind].
  assert (∀ p, p ∈ tx_Parents tx → get_tx t1 uri p = get_tx t uri p) as Hsame.
  { intros p Hp. unfold get_tx. pose proof (add_self_parents t t1 tx bs p Hst Hnot Hp Ht1) as Hs. fold uri in Hs. by rewrite Hs. }
  pose proof Hst as [[Hid Hlen _ _ _ _] _].
  assert (∃ t2, (if decide (tx_Status tx = TxStatusValid) then fold_outcome (link_parent tx) t1 (tx_Parents tx) else Ret t1) = Ret t2 ∧
    (tx_Status tx = TxStatusValid → ∀ p ptx, p ∈ tx_Parents tx → get_tx t uri p = Ret ptx →
       ∃ ptx', get_tx t2 uri p = Ret ptx' ∧ storable ptx' ∧
         rechilded ptx ptx' (λ x, x = tx_ID tx ∨ x ∈ tx_Children ptx)) ∧
    (∀ k, (tx_Status tx = TxStatusValid → ∀ p, p ∈ tx_Parents tx → k ≠ makeTxKey uri p) → txn_get t2 k = txn_get t1 k))
    as (t2 & -> & Hpar2 & Hk2).
  { case_decide as Hv; [|exists t1; by split_and!].
    destruct (link_parents_spec tx (tx_Parents tx) t1 Hid Hlen) as (t2 & -> & Hin & Hout).
    - intros p Hp. fold uri. destruct (Hpar Hv p Hp) as (ptx & Hptx & Hpst). exists ptx. by rewrite Hsame.
    - exists t2. split; [done|]. split.
      + intros _ p ptx Hp Hptx. apply Hin; [done|]. fold uri. by rewrite Hsame.
      + intros k Hk. by apply Hout, Hk. }
  cbn [obind]. destruct (law_set t2 (str "stateuri:" ++ uri) []) as (t' & -> & Hg'); [done|].
  exists t'. split; [done|].
  assert (∀ id, get_tx t' uri id = get_tx t2 uri id) as Hget' by (intros id; unfold get_tx; by rewrite Hg', decide_False).
  split.
  { rewrite Hget'. unfold get_tx. rewrite Hk2.
    - by rewrite Hg1, decide_True, Hu.
    - intros _ p Hp [_ <-]%makeTxKey_inj; [done|]. rewrite Hid. rewrite Forall_forall in Hlen. symmetry. by apply Hlen. }
  split; [intros Hv p ptx Hp Hptx; rewrite Hget'; by apply Hpar2|]. split.
  - intros k Hk1 Huri Hk3. by rewrite Hg', decide_False, Hk2, Hg1, decide_False by done.
  - by rewrite Hg', decide_True.
Qed.
End Adding.



(** A valid transaction with a parent that is not in the store is refused, and the store
    stays as it was: the whole update is dropped, the transaction's own record included. *)
Theorem txstore_missing_parent {T} `{BadgerLaws T} `{JsonLaws} `{ProtoLaws} `{MapOrderLaw} (t : T) tx p :
  storable tx → tx_ID tx ∉ tx_Parents tx → tx_Status tx = TxStatusValid →
  (∀ q, q ∈ tx_Parents tx → stored_parent t (tx_StateURI tx) q ∨ TxExists t (tx_StateURI tx) q = false) →
  p ∈ tx_Parents tx → TxExists t (tx_StateURI tx) p = false →
  store_AddTx t tx = Err ErrKeyNotFound.
Proof.
  intros Hst Hnot Hv Hq Hp Hmiss. set (uri := tx_StateURI tx) in *.
  destruct (storable_roundtrip tx Hst) as (bs & Hm & Hu). unfold store_AddTx. rewrite Hm. cbn [obind]. fold uri.
  destruct (law_set t (makeTxKey uri (tx_ID tx)) bs) as (t1 & Ht1 & Hg1); [done|]. rewrite Ht1. cbn [obind].
  rewrite decide_True by done. pose proof Hst as [[Hid Hlen _ _ _ _] _].
  assert (∀ q, q ∈ tx_Parents tx → txn_get t1 (makeTxKey uri q) = txn_get t (makeTxKey uri q)) as Hsame
    by (intros q Hq'; exact (add_self_parents t t1 tx bs q Hst Hnot Hq' Ht1)).
  assert (∃ l1 q l2, tx_Parents tx = l1 ++ q :: l2 ∧ TxExists t uri q = false ∧
    Forall (λ q, TxExists t uri q = true) l1) as (l1 & q & l2 & Hl & Hqm & Hl1).
  { clear -Hp Hmiss. induction (tx_Parents tx) as [|x l IH]; [set_solver|].
    destruct (TxExists t uri x) eqn:Hx; [|exists [], x, l; by split_and!].
    destruct IH as (l1 & q & l2 & -> & Hqm & Hl1); [apply elem_of_cons in Hp as [->|?]; congruence|].
    exists (x :: l1), q, l2. split_and!; [done|done|by constructor]. }
  rewrite Hl, fold_outcome_app. rewrite Forall_forall in Hl1, Hlen.
  destruct (link_parents_spec tx l1 t1 Hid) as (t2 & -> & _ & Hout).
  - apply Forall_forall. intros x Hx. apply Hlen. rewrite Hl. set_solver.
  - intros x Hx. fold uri. destruct (Hq x) as [(xtx & Hxtx & Hxst)|Hx']; [rewrite Hl; set_solver| |].
    + exists xtx. split; [|done]. unfold get_tx in *. rewrite Hsame; [done|]. rewrite Hl. set_solver.
    + rewrite (Hl1 x Hx) in Hx'. done.
  - cbn [obind fold_outcome]. unfold link_parent at 1, get_tx. fold uri in Hout. fold uri. rewrite Hout.
    + rewrite Hsame by (rewrite Hl; set_solver). unfold TxExists in Hqm. by destruct (txn_get t (makeTxKey uri q)).
    + intros x Hx [_ ->]%makeTxKey_inj; [rewrite (Hl1 x Hx) in Hqm; done|].
      rewrite (Hlen x), (Hlen q) by (rewrite Hl; set_solver). done.
Qed.

Lemma txstore_missing_parent_witness :
  store_AddTx (∅ : gmap bytes bytes) (with_status example_tx TxStatusValid) = Err ErrKeyNotFound.
Proof.
  apply (txstore_missing_parent (∅ : gmap bytes bytes) (with_status example_tx TxStatusValid) GenesisTxID).
  - split; [split; [reflexivity|repeat constructor|constructor|reflexivity|constructor|repeat constructor]|].
    intros m _. exact I.
  - vm_decide.
  - reflexivity.
  - intros q _. right. reflexivity.
  - vm_decide.
  - reflexivity.
Defined.
