(* ===== verification/TxGraph.v ===== *)
(** * Walking the transaction graph ([txstore.badger.go], [AllTxsForStateURI])

    The stored transactions of a state URI form a graph through their lists of children.
    The traversal that sends them to a new peer is breadth first with a set of the IDs it
    has sent; here is that it terminates and sends exactly what can be reached, once. *)

From S2P Require Import Prelude Types Keypath TreeTypes GoValue BadgerTxn Tx TxStore.

Section Graph.
Context {T : Type} `{HL : BadgerLaws T} `{JC : JsonCodec} `{PC : ProtoCodec}.
Context (t : T) (uri : bytes).

Definition child_edge (a b : ID) : Prop := ∃ tx, get_tx t uri a = Ret tx ∧ b ∈ tx_Children tx.
Definition reachable (a b : ID) : Prop := rtc child_edge a b.

(** Every stored transaction decodes, and is stored under its own ID. *)
Definition store_ok : Prop :=
  ∀ id, TxExists t uri id = true → ∃ tx, get_tx t uri id = Ret tx ∧ tx_ID tx = id.

Context (Hok : store_ok).

Lemma get_tx_cases id :
  (∃ tx, get_tx t uri id = Ret tx ∧ tx_ID tx = id) ∨ (get_tx t uri id = Err ErrKeyNotFound ∧ TxExists t uri id = false).
Proof using Hok.
  destruct (TxExists t uri id) eqn:He; [left; by apply Hok|right]. unfold TxExists in He. unfold get_tx.
  by destruct (txn_get t _).
Qed.

Lemma stored_ids_elem id : id ∈ stored_ids t uri ↔ TxExists t uri id = true.
Proof.
  change (stored_ids t uri) with (with_prefix t (makeTxKey uri [])). rewrite with_prefix_elem.
  assert (makeTxKey uri [] ++ id = makeTxKey uri id) as ->.
  { unfold makeTxKey. by rewrite app_nil_r, <- !(assoc_L (++)). }
  unfold TxExists. destruct (txn_get t _); split; (done || (by eexists) || (by intros [])).
Qed.

(** The children of the transactions that are still to be sent. *)
Definition unsent (sent : gset ID) : nat := sum_list (child_count t uri <$> filter (λ id, id ∉ sent) (stored_ids t uri)).

Lemma unsent_send sent id :
  id ∉ sent → TxExists t uri id = true → unsent sent = child_count t uri id + unsent ({[id]} ∪ sent).
Proof.
  intros Hid Hin%stored_ids_elem. unfold unsent.
  assert (NoDup (stored_ids t uri)) as Hnd by apply (with_prefix_NoDup t).
  induction Hnd as [|x l Hx Hnd IH]; [set_solver|]. rewrite !filter_cons. destruct (decide (x = id)) as [->|Hne].
  - rewrite decide_True by done. rewrite decide_False by set_solver. simpl. f_equal. f_equal. f_equal.
    apply filter_ext_in. intros y Hy. split; [|set_solver]. intros Hs. apply not_elem_of_union. split; [|done].
    rewrite elem_of_singleton. intros ->. done.
  - assert (id ∈ l) as Hl by set_solver. specialize (IH Hl). destruct (decide (x ∈ sent)) as [Hxs|Hxs].
    + rewrite !decide_False by set_solver. exact IH.
    + rewrite !decide_True by set_solver. rewrite !fmap_cons. cbn [sum_list foldr]. lia.
Qed.

Context (start : ID).

(** What holds whenever the loop is entered. *)
Record walk_inv (stack : list ID) (sent : gset ID) (out : list Tx) : Prop := {
  wi_nodup : NoDup (tx_ID <$> out);
  wi_sent : ∀ x, x ∈ sent ↔ x ∈ tx_ID <$> out;
  wi_stored : ∀ tx, tx ∈ out → get_tx t uri (tx_ID tx) = Ret tx;
  wi_reach : ∀ x, x ∈ stack ∨ x ∈ sent → reachable start x;
  wi_start : start ∈ stack ∨ start ∈ sent;
  wi_closed : ∀ a b, a ∈ sent → child_edge a b → b ∈ stack ∨ b ∈ sent
}.

Lemma walk_inv_skip x stack sent out : x ∈ sent → walk_inv (x :: stack) sent out → walk_inv stack sent out.
Proof.
  intros Hx [H1 H2 H3 H4 H5 H6]. split; [done|done|done|set_solver|set_solver|].
  intros a b Ha Hab. destruct (H6 a b Ha Hab) as [[->|?]%elem_of_cons|?]; auto.
Qed.

Lemma walk_inv_send x tx stack sent out :
  x ∉ sent → get_tx t uri x = Ret tx → tx_ID tx = x → walk_inv (x :: stack) sent out →
  walk_inv (stack ++ tx_Children tx) ({[x]} ∪ sent) (out ++ [tx]).
Proof.
  intros Hx Hg Hid [H1 H2 H3 H4 H5 H6].
  assert (∀ b, b ∈ tx_Children tx → reachable start b) as Hch.
  { intros b Hb. apply (rtc_r start x b); [apply H4; left; set_solver|]. by exists tx. }
  split.
  - rewrite fmap_app. apply NoDup_app. split; [done|]. split; [|apply NoDup_singleton].
    intros y Hy%H2. simpl. rewrite list_elem_of_singleton, Hid. by intros ->.
  - intros y. rewrite fmap_app, elem_of_app, elem_of_union, elem_of_singleton, H2. simpl. rewrite list_elem_of_singleton, Hid. tauto.
  - intros y [Hy|Hy%list_elem_of_singleton]%elem_of_app; [by apply H3|subst y]. by rewrite Hid.
  - intros y. rewrite elem_of_app, elem_of_union, elem_of_singleton. intros [[Hy|Hy]|[->|Hy]]; auto; apply H4; set_solver.
  - rewrite elem_of_app, elem_of_union, elem_of_singleton. destruct H5 as [[->|?]%elem_of_cons|?]; auto.
  - intros a b Ha Hab. rewrite elem_of_app, elem_of_union, elem_of_singleton.
    apply elem_of_union in Ha as [->%elem_of_singleton|Ha].
    + destruct Hab as (tx' & Hg' & Hb). assert (tx' = tx) as -> by congruence. auto.
    + destruct (H6 a b Ha Hab) as [[->|?]%elem_of_cons|?]; auto.
Qed.

(** What the walk delivers. *)
Definition walk_result (out : list Tx) (e : option error) : Prop :=
  NoDup (tx_ID <$> out) ∧ (∀ tx, tx ∈ out → get_tx t uri (tx_ID tx) = Ret tx ∧ reachable start (tx_ID tx)) ∧
  match e with
  | None => ∀ x, reachable start x ↔ x ∈ tx_ID <$> out
  | Some e => e = ErrKeyNotFound ∧ ∃ x, reachable start x ∧ TxExists t uri x = false
  end.

Lemma walk_inv_result stack sent out e :
  walk_inv stack sent out →
  match e with
  | None => stack = []
  | Some e => e = ErrKeyNotFound ∧ ∃ x, x ∈ stack ∧ TxExists t uri x = false
  end → walk_result out e.
Proof.
  intros [H1 H2 H3 H4 H5 H6] He. split; [done|]. split.
  { intros tx Htx. split; [by apply H3|]. apply H4. right. apply H2. by apply list_elem_of_fmap_2. }
  destruct e as [e|].
  - destruct He as (-> & x & Hx & Hm). split; [done|]. exists x. split; [apply H4; by left|done].
  - subst stack. intros x. split; [|intros Hx%H2; apply H4; by right].
    intros Hr. apply H2. assert (start ∈ sent) as Hs by (destruct H5 as [?%elem_of_nil|?]; done).
    revert x Hr. apply rtc_ind_r; [done|]. intros a b _ Hab Ha.
    destruct (H6 a b Ha Hab) as [?%elem_of_nil|?]; done.
Qed.

Lemma all_txs_loop_spec fuel stack sent out :
  length stack + unsent sent < fuel → walk_inv stack sent out →
  ∃ out' e, all_txs_loop fuel t uri stack sent out = Ret (out', e) ∧ walk_result out' e.
Proof using HL Hok.
  revert stack sent out. induction fuel as [|fuel IH]; intros stack sent out Hf Hinv; [lia|]. cbn [all_txs_loop].
  destruct stack as [|x stack].
  { exists out, None. split; [done|]. by apply (walk_inv_result [] sent). }
  simpl in Hf. case_decide as Hx.
  { apply IH; [lia|]. by eapply walk_inv_skip. }
  destruct (get_tx_cases x) as [(tx & Hg & Hid)|[Hg Hm]]; rewrite Hg.
  - apply IH; [|by apply walk_inv_send].
    assert (TxExists t uri x = true) as He by (unfold get_tx in Hg; unfold TxExists; by destruct (txn_get t _)).
    rewrite (unsent_send sent x Hx He) in Hf. unfold child_count in Hf. rewrite Hg in Hf. rewrite length_app. lia.
  - exists out, (Some ErrKeyNotFound). split; [done|].
    apply (walk_inv_result (x :: stack) sent); [done|]. split; [done|]. exists x. split; [set_solver|done].
Qed.
End Graph.

(** C30: The traversal of a state URI terminates and sends exactly the transactions that can be
    reached from the starting one (the genesis transaction by default) through lists of
    children, each once, as they are stored; it ends with an error only when a reachable
    transaction is missing from the store. *)
Theorem txstore_traversal {T} `{BadgerLaws T} `{JsonCodec} `{ProtoCodec} (t : T) uri from :
  store_ok t uri →
  let start := if decide (from = EmptyID) then GenesisTxID else from in
  ∃ out e, AllTxsForStateURI t uri from = Ret (out, e) ∧
    NoDup (tx_ID <$> out) ∧
    (∀ tx, tx ∈ out → FetchTx t uri (tx_ID tx) = Ret tx ∧ reachable t uri start (tx_ID tx)) ∧
    match e with
    | None => ∀ x, reachable t uri start x ↔ x ∈ tx_ID <$> out
    | Some e => e = ErrKeyNotFound ∧ ∃ x, reachable t uri start x ∧ TxExists t uri x = false
    end.
Proof.
  intros Hok start. unfold AllTxsForStateURI. fold start.
  destruct (all_txs_loop_spec t uri Hok start (traversal_fuel t uri) [start] ∅ []) as (out & e & Hl & Hnd & Htx & He).
  - unfold traversal_fuel, unsent. rewrite filter_true; [simpl; lia|]. apply Forall_forall. set_solver.
  - split; [constructor|set_solver|set_solver| |left; set_solver|set_solver].
    intros x [->%list_elem_of_singleton|?%elem_of_empty]; [apply rtc_refl|done].
  - exists out, e. split; [done|]. split; [done|]. split; [|done].
    intros tx Hin. destruct (Htx tx Hin) as [Hg Hr]. split; [by apply FetchTx_get_tx|done].
Qed.

Definition graph_tx (id : ID) (parents : list ID) : Tx :=
  mkTx id parents [] (take 20 (id_of 5)) [] (str "u") [] [] false [] TxStatusValid EmptyHash.

(** A store with the genesis transaction and a child of it. *)
Definition example_store : gmap bytes bytes :=
  match fold_outcome store_AddTx ∅ [graph_tx GenesisTxID []; graph_tx (id_of 1) [GenesisTxID]] with
  | Ret t => t
  | _ => ∅
  end.

Lemma example_store_ok : store_ok example_store (str "u").
Proof.
  intros id Hid%stored_ids_elem.
  assert (Forall (λ id, ∃ tx, get_tx example_store (str "u") id = Ret tx ∧ tx_ID tx = id)
    (stored_ids example_store (str "u"))) as Hall; [|by rewrite Forall_forall in Hall; apply Hall].
  assert (stored_ids example_store (str "u") = [id_of 1; GenesisTxID]) as -> by (vm_compute; reflexivity).
  constructor; [|constructor; [|constructor]]; eexists; (split; [vm_compute; reflexivity|reflexivity]).
Qed.

Lemma txstore_traversal_witness :
  ∃ out e, AllTxsForStateURI example_store (str "u") EmptyID = Ret (out, e) ∧ NoDup (tx_ID <$> out).
Proof.
  destruct (txstore_traversal example_store (str "u") EmptyID example_store_ok) as (out & e & Ho & Hnd & _).
  exists out, e. split; [exact Ho|exact Hnd].
Defined.

Example traversal_sends_both :
  (let! r := AllTxsForStateURI example_store (str "u") EmptyID in Ret (tx_ID <$> r.1, r.2)) =
  Ret ([GenesisTxID; id_of 1], None).
Proof. vm_compute. reflexivity. Qed.
