(* ===== verification/Behaviors.v ===== *)
(** * Behaviours attached to a state ([controller-behaviors.go])

    Resolvers, validators and indexers are registered at keypaths of a state tree and apply
    to everything below.  The keypaths are kept sorted in byte order next to the map from
    keypaths to behaviours, and looked up from the end: the nearest one comes first. *)

From S2P Require Import Prelude Types Keypath TreeTypes GoValue GoPaths MemoryNode MemoryProps Tx.

(** ** A registry: the sorted keypaths and the map *)

Section Registry.
Context {X : Type}.

Definition registry : Type := list Keypath * gmap Keypath X.

Definition register (r : registry) (kp : Keypath) (x : X) : registry :=
  let ks := match r.2 !! kp with Some _ => r.1 | None => sort_bytes 0 (r.1 ++ [kp]) end in
  (ks, <[kp := x]> r.2).

(** The position found by the loop: the first equal keypath, and 0 when there is none. *)
Fixpoint position_of (kp : Keypath) (ks : list Keypath) (i : nat) : nat :=
  match ks with
  | [] => 0
  | k :: ks => if Equals k kp then i else position_of kp ks (i + 1)
  end.

(** [copy(ks[idx:], ks[idx+1:])] and [ks[:len(ks)-1]] *)
Definition remove_at (ks : list Keypath) (idx : nat) : outcome (list Keypath) :=
  if decide (idx + 1 ≤ length ks) then Ret (take idx ks ++ drop (idx + 1) ks) else Panic.

Definition unregister (r : registry) (kp : Keypath) : outcome registry :=
  match r.2 !! kp with
  | None => Ret r
  | Some _ => let! ks := remove_at r.1 (position_of kp r.1 0) in Ret (ks, delete kp r.2)
  end.

(** The loop from the end of the keypaths. *)
Definition nearest (r : registry) (kp : Keypath) : option (Keypath * option X) :=
  (λ k, (k, r.2 !! k)) <$> List.find (λ k, StartsWith kp k) (reverse r.1).
End Registry.
Arguments registry X : clear implicits.

(** ** The tree of behaviours *)

Record behaviorTree (R V I : Type) := mkBehaviorTree {
  bt_validators : registry V;
  bt_resolvers : registry R;
  bt_indexers : gmap Keypath (gmap Keypath I)
}.
Arguments mkBehaviorTree {R V I} _ _ _.
Arguments bt_validators {R V I} _.
Arguments bt_resolvers {R V I} _.
Arguments bt_indexers {R V I} _.

Section BehaviorTree.
Context {R V I : Type}.
Notation bt := (behaviorTree R V I).

Definition newBehaviorTree : bt := mkBehaviorTree ([], ∅) ([], ∅) ∅.
Definition bt_copy (t : bt) : bt := mkBehaviorTree (bt_validators t) (bt_resolvers t) (bt_indexers t).

Definition addResolver (t : bt) (kp : Keypath) (x : R) : bt :=
  mkBehaviorTree (bt_validators t) (register (bt_resolvers t) kp x) (bt_indexers t).
Definition removeResolver (t : bt) (kp : Keypath) : outcome bt :=
  let! r := unregister (bt_resolvers t) kp in Ret (mkBehaviorTree (bt_validators t) r (bt_indexers t)).
Definition addValidator (t : bt) (kp : Keypath) (x : V) : bt :=
  mkBehaviorTree (register (bt_validators t) kp x) (bt_resolvers t) (bt_indexers t).
Definition removeValidator (t : bt) (kp : Keypath) : outcome bt :=
  let! r := unregister (bt_validators t) kp in Ret (mkBehaviorTree r (bt_resolvers t) (bt_indexers t)).
Definition addIndexer (t : bt) (kp indexName : Keypath) (x : I) : bt :=
  let m := default ∅ (bt_indexers t !! kp) in
  mkBehaviorTree (bt_validators t) (bt_resolvers t) (<[kp := <[indexName := x]> m]> (bt_indexers t)).
Definition removeIndexer (t : bt) (kp indexName : Keypath) : bt :=
  match bt_indexers t !! kp with
  | None => t
  | Some m => mkBehaviorTree (bt_validators t) (bt_resolvers t) (<[kp := delete indexName m]> (bt_indexers t))
  end.
Definition nearestResolverForKeypath (t : bt) (kp : Keypath) : option (Keypath * option R) := nearest (bt_resolvers t) kp.
Definition nearestValidatorForKeypath (t : bt) (kp : Keypath) : option (Keypath * option V) := nearest (bt_validators t) kp.
End BehaviorTree.

(** ** Handing patches to behaviours *)

(** One round of the loops in [tryApplyTx]: the patches below a keypath, made relative to
    it, and the others. *)
Definition split_patches (kp : Keypath) (patches : list Patch) : outcome (list Patch * list Patch) :=
  fold_outcome
    (λ acc p,
       if StartsWith (patch_Keypath p) kp then
         let! rel := RelativeTo (patch_Keypath p) kp in
         Ret (acc.1 ++ [mkPatch rel (patch_Range p) (patch_Val p)], acc.2)
       else Ret (acc.1, acc.2 ++ [p]))
    ([], []) patches.

(** The rounds from the last keypath to the first: what each one gets, and what is left. *)
Fixpoint dispatch (ks : list Keypath) (patches : list Patch) : outcome (list (Keypath * list Patch) * list Patch) :=
  match ks with
  | [] => Ret ([], patches)
  | k :: ks =>
      let! s := split_patches k patches in
      let! r := dispatch ks s.2 in
      Ret ((k, s.1) :: r.1, r.2)
  end.

(** ** The invariant of a registry *)

Section RegistryFacts.
Context {X : Type}.

Record reg_wf (r : registry X) : Prop := {
  rw_sorted : StronglySorted bytes_lt r.1;
  rw_dom : ∀ k, k ∈ r.1 ↔ is_Some (r.2 !! k)
}.

Lemma reg_wf_empty : reg_wf ([], ∅).
Proof. split; simpl; [constructor|]. intros k. rewrite lookup_empty. split; [set_solver|by intros []]. Qed.

Lemma register_wf r kp x : reg_wf r → reg_wf (register r kp x).
Proof.
  intros [Hs Hd]. unfold register. destruct (r.2 !! kp) as [y|] eqn:Hk; split; simpl; [done| | |].
  - intros k. rewrite Hd. destruct (decide (k = kp)) as [->|Hne]; [rewrite lookup_insert_eq, Hk|by rewrite lookup_insert_ne].
    split; by eexists.
  - assert (kp ∉ r.1) by (rewrite Hd, Hk; by intros []).
    apply StronglySorted_le_lt; [|apply sort_bytes_sorted]. rewrite sort_bytes_perm. apply NoDup_app.
    split; [by apply sorted_lt_NoDup|]. split; [set_solver|apply NoDup_singleton].
  - intros k. rewrite sort_bytes_perm, elem_of_app, Hd, list_elem_of_singleton.
    destruct (decide (k = kp)) as [->|Hne]; [rewrite lookup_insert_eq|rewrite lookup_insert_ne by done; naive_solver].
    split; [by eexists|by right].
Qed.

Lemma position_of_app kp l1 l2 i : kp ∉ l1 → position_of kp (l1 ++ kp :: l2) i = i + length l1.
Proof.
  revert i. induction l1 as [|k l1 IH]; intros i Hn; simpl.
  - unfold Equals. rewrite bool_decide_eq_true_2 by done. lia.
  - apply not_elem_of_cons in Hn as [Hk Hn]. unfold Equals at 1. rewrite bool_decide_eq_false_2 by done.
    rewrite IH by done. lia.
Qed.

Lemma unregister_spec r kp :
  reg_wf r → ∃ r', unregister r kp = Ret r' ∧ reg_wf r' ∧ r'.2 = delete kp r.2 ∧ r'.1 = filter (λ k, k ≠ kp) r.1.
Proof.
  intros [Hs Hd]. unfold unregister. destruct (r.2 !! kp) as [y|] eqn:Hk.
  - assert (kp ∈ r.1) as Hin by (rewrite Hd, Hk; by eexists).
    pose proof (sorted_lt_NoDup _ Hs) as Hnd. apply list_elem_of_split in Hin as (l1 & l2 & Hl). rewrite Hl in Hnd.
    apply NoDup_app in Hnd as (_ & Hdis & Hnd2). apply NoDup_cons in Hnd2 as [Hn2 _].
    assert (kp ∉ l1) as Hn1 by (intros Hin1; apply (Hdis kp Hin1); set_solver).
    assert (filter (λ k, k ≠ kp) r.1 = l1 ++ l2) as Hf.
    { rewrite Hl, filter_app, filter_cons_False by tauto. f_equal; apply filter_true, Forall_forall; intros k Hk'; congruence. }
    rewrite Hl, position_of_app by done. simpl. unfold remove_at.
    rewrite decide_True by (rewrite length_app; simpl; lia). cbn [obind].
    rewrite take_app_length, Nat.add_comm. rewrite drop_app_ge by lia.
    replace (1 + length l1 - length l1) with 1 by lia. simpl. rewrite drop_0.
    eexists. split; [done|]. simpl. split; [|split; [done|by rewrite <- Hl, Hf]].
    split; simpl; [rewrite <- Hf; by apply StronglySorted_filter|].
    intros k. rewrite <- Hf, list_elem_of_filter, Hd. destruct (decide (k = kp)) as [->|Hne].
    + rewrite lookup_delete_eq. split; [naive_solver|by intros []].
    + rewrite lookup_delete_ne by done. naive_solver.
  - exists r. split; [done|]. split; [done|]. rewrite delete_id by done. split; [done|].
    symmetry. apply filter_true, Forall_forall. intros k Hin ->. apply Hd in Hin. rewrite Hk in Hin. by destruct Hin.
Qed.

(** A prefix of a keypath that is above another prefix of it comes before it. *)
Lemma prefixes_ordered kp a b :
  StartsWith kp a = true → StartsWith kp b = true → bytes_lt a b → StartsWith b a = true.
Proof.
  intros Ha Hb Hlt. rewrite !StartsWith_prefix in *. destruct (prefix_weak_total _ _ _ Ha Hb) as [H|H]; [done|].
  exfalso. assert (StartsWith a b = true) as Hab by (by apply StartsWith_prefix).
  apply StartsWith_le in Hab. apply bytes_le_lt_eq in Hab as [Hab| ->]; [|by apply bytes_lt_irrefl in Hlt].
  apply (bytes_lt_irrefl a). by etrans.
Qed.

Lemma find_reverse_max (l : list Keypath) (f : Keypath → bool) k :
  StronglySorted bytes_lt l → List.find f (reverse l) = Some k →
  k ∈ l ∧ f k = true ∧ ∀ k', k' ∈ l → f k' = true → k' = k ∨ bytes_lt k' k.
Proof.
  induction l as [|x l IH] using rev_ind; [done|]. intros Hs. rewrite reverse_snoc. simpl.
  apply StronglySorted_app in Hs as (Hlx & Hl & _). destruct (f x) eqn:Hx.
  - intros [= <-]. split; [set_solver|]. split; [done|]. intros k' [Hk'|Hk'%list_elem_of_singleton]%elem_of_app Hf; [|by left].
    right. apply Hlx; [done|set_solver].
  - intros Hk. destruct (IH Hl Hk) as (Hin & Hf & Hmax). split; [set_solver|]. split; [done|].
    intros k' [Hk'|Hk'%list_elem_of_singleton]%elem_of_app Hf'; [by apply Hmax|congruence].
Qed.

Lemma find_reverse_none (l : list Keypath) (f : Keypath → bool) :
  List.find f (reverse l) = None → ∀ k, k ∈ l → f k = false.
Proof. intros Hn k Hk. apply (List.find_none _ _ Hn). apply list_elem_of_In. by rewrite elem_of_reverse. Qed.
End RegistryFacts.


(** ** Reachable behaviour trees *)

Section Reachable.
Context {R V I : Type}.

(** The behaviour trees the controller can hold: what the operations make of a new one. *)
Inductive bt_reachable : behaviorTree R V I → Prop :=
  | btr_new : bt_reachable newBehaviorTree
  | btr_copy t : bt_reachable t → bt_reachable (bt_copy t)
  | btr_add_resolver t kp x : bt_reachable t → bt_reachable (addResolver t kp x)
  | btr_remove_resolver t kp t' : bt_reachable t → removeResolver t kp = Ret t' → bt_reachable t'
  | btr_add_validator t kp x : bt_reachable t → bt_reachable (addValidator t kp x)
  | btr_remove_validator t kp t' : bt_reachable t → removeValidator t kp = Ret t' → bt_reachable t'
  | btr_add_indexer t kp nm x : bt_reachable t → bt_reachable (addIndexer t kp nm x)
  | btr_remove_indexer t kp nm : bt_reachable t → bt_reachable (removeIndexer t kp nm).

Definition bt_wf (t : behaviorTree R V I) : Prop := reg_wf (bt_resolvers t) ∧ reg_wf (bt_validators t).

Lemma bt_reachable_wf t : bt_reachable t → bt_wf t.
Proof.
  unfold bt_wf. induction 1 as [|t _ IH|t kp x _ [IHr IHv]|t kp t' _ [IHr IHv] H|t kp x _ [IHr IHv]|t kp t' _ [IHr IHv] H|t kp nm x _ IH|t kp nm _ IH].
  - split; apply reg_wf_empty.
  - done.
  - split; [by apply register_wf|done].
  - destruct (unregister_spec (bt_resolvers t) kp IHr) as (r & Hr & Hw & _). unfold removeResolver in H.
    rewrite Hr in H. injection H as <-. done.
  - split; [done|by apply register_wf].
  - destruct (unregister_spec (bt_validators t) kp IHv) as (r & Hr & Hw & _). unfold removeValidator in H.
    rewrite Hr in H. injection H as <-. done.
  - done.
  - unfold removeIndexer. by destruct (bt_indexers t !! kp).
Qed.
End Reachable.

(** [nearest] is the registered keypath that is below all other registered prefixes. *)
Definition nearest_spec {X} (r : registry X) (kp : Keypath) (res : option (Keypath * option X)) : Prop :=
  match res with
  | Some (k, x) => is_Some x ∧ x = r.2 !! k ∧ StartsWith kp k = true ∧
      ∀ k', is_Some (r.2 !! k') → StartsWith kp k' = true → StartsWith k k' = true
  | None => ∀ k', is_Some (r.2 !! k') → StartsWith kp k' = false
  end.

Lemma nearest_longest {X} (r : registry X) kp : reg_wf r → nearest_spec r kp (nearest r kp).
Proof.
  intros [Hs Hd]. unfold nearest. destruct (List.find _ (reverse r.1)) as [k|] eqn:Hf; simpl.
  - apply find_reverse_max in Hf as (Hin & Hk & Hmax); [|done]. split; [by apply Hd|]. split; [done|]. split; [done|].
    intros k' Hk' Hsw. apply Hd in Hk'. destruct (Hmax k' Hk' Hsw) as [->|Hlt]; [apply StartsWith_refl|].
    by eapply prefixes_ordered.
  - intros k' Hk'. apply Hd in Hk'. exact (find_reverse_none _ _ Hf k' Hk').
Qed.

(** C37: whatever sequence of registrations and removals made the behaviour tree, the lookup from
    the end of the sorted keypaths returns the registered resolver (validator) whose keypath
    is the longest one that is a prefix of the given keypath (every other registered prefix
    is a prefix of it), it returns nothing exactly when no registered keypath is a prefix,
    and removing a keypath never runs off the end of the array and removes that keypath only. *)
Theorem behavior_nearest_is_longest {R V I} (t : behaviorTree R V I) (kp : Keypath) :
  bt_reachable t →
  nearest_spec (bt_resolvers t) kp (nearestResolverForKeypath t kp) ∧
  nearest_spec (bt_validators t) kp (nearestValidatorForKeypath t kp) ∧
  (∃ t', removeResolver t kp = Ret t' ∧ (bt_resolvers t').2 = delete kp (bt_resolvers t).2 ∧
         bt_validators t' = bt_validators t ∧ bt_indexers t' = bt_indexers t) ∧
  (∃ t', removeValidator t kp = Ret t' ∧ (bt_validators t').2 = delete kp (bt_validators t).2 ∧
         bt_resolvers t' = bt_resolvers t ∧ bt_indexers t' = bt_indexers t).
Proof.
  intros [Hr Hv]%bt_reachable_wf. split; [by apply nearest_longest|]. split; [by apply nearest_longest|].
  split; [destruct (unregister_spec (bt_resolvers t) kp Hr) as (r & H & _ & Hd & _)
         |destruct (unregister_spec (bt_validators t) kp Hv) as (r & H & _ & Hd & _)];
    eexists; unfold removeResolver, removeValidator; rewrite H; done.
Qed.

Definition example_behaviors : behaviorTree nat nat nat :=
  addResolver (addResolver (addResolver newBehaviorTree [] 1) (str "a/b") 2) (str "a") 3.

Lemma behavior_nearest_is_longest_witness :
  nearestResolverForKeypath example_behaviors (str "a/b/c") = Some (str "a/b", Some 2) ∧
  nearest_spec (bt_resolvers example_behaviors) (str "a/b/c") (nearestResolverForKeypath example_behaviors (str "a/b/c")).
Proof.
  split; [vm_compute; reflexivity|].
  apply (behavior_nearest_is_longest example_behaviors (str "a/b/c")). repeat constructor.
Defined.

(** ** Dispatch *)

(** The part of a keypath below a prefix of it. *)
Definition rest_below (kp root : Keypath) : Keypath :=
  match RelativeTo kp root with Ret r => r | _ => [] end.
Definition relative_patch (root : Keypath) (p : Patch) : Patch :=
  mkPatch (rest_below (patch_Keypath p) root) (patch_Range p) (patch_Val p).

Lemma RelativeTo_rest kp root : StartsWith kp root = true → RelativeTo kp root = Ret (rest_below kp root).
Proof.
  intros H. unfold rest_below. apply StartsWith_bytes in H as [->|[->|[q ->]]].
  - by rewrite RelativeTo_nil.
  - by rewrite RelativeTo_self.
  - destruct root as [|c root]; [by rewrite RelativeTo_nil|]. by rewrite RelativeTo_app.
Qed.

Lemma split_patches_spec kp patches :
  split_patches kp patches =
  Ret (relative_patch kp <$> filter (λ p, StartsWith (patch_Keypath p) kp = true) patches,
       filter (λ p, StartsWith (patch_Keypath p) kp ≠ true) patches).
Proof.
  unfold split_patches.
  assert (∀ a b, fold_outcome
    (λ acc p, if StartsWith (patch_Keypath p) kp then
         let! rel := RelativeTo (patch_Keypath p) kp in
         Ret (acc.1 ++ [mkPatch rel (patch_Range p) (patch_Val p)], acc.2)
       else Ret (acc.1, acc.2 ++ [p])) (a, b) patches =
    Ret (a ++ (relative_patch kp <$> filter (λ p, StartsWith (patch_Keypath p) kp = true) patches),
         b ++ filter (λ p, StartsWith (patch_Keypath p) kp ≠ true) patches)) as Hgen.
  { induction patches as [|p patches IH]; intros a b; [by rewrite !app_nil_r|]. cbn [fold_outcome].
    destruct (StartsWith (patch_Keypath p) kp) eqn:Hp.
    - rewrite RelativeTo_rest by done. cbn [obind fst snd]. rewrite IH, filter_cons_True, filter_cons_False by congruence.
      rewrite fmap_cons, <- app_assoc. done.
    - cbn [obind fst snd]. rewrite IH, filter_cons_False, filter_cons_True by congruence. by rewrite <- app_assoc. }
  apply Hgen.
Qed.

Definition first_prefix (ks : list Keypath) (p : Patch) : option Keypath :=
  List.find (λ k, StartsWith (patch_Keypath p) k) ks.

Lemma dispatch_first ks patches :
  NoDup ks →
  dispatch ks patches =
  Ret ((λ k, (k, relative_patch k <$> filter (λ p, first_prefix ks p = Some k) patches)) <$> ks,
       filter (λ p, first_prefix ks p = None) patches).
Proof.
  revert patches. induction ks as [|k ks IH]; intros patches Hnd.
  - simpl. f_equal. f_equal. symmetry. by apply filter_true, Forall_forall.
  - apply NoDup_cons in Hnd as [Hk Hnd]. cbn [dispatch]. rewrite split_patches_spec. cbn [obind snd fst].
    rewrite IH by done. cbn [obind snd fst]. rewrite fmap_cons. f_equal. f_equal; [f_equal|].
    + f_equal. f_equal. apply list_filter_iff. intros p. unfold first_prefix. simpl.
      destruct (StartsWith (patch_Keypath p) k) eqn:Hp; [done|]. split; [done|]. intros Hf.
      apply List.find_some in Hf as [_ Hf]. congruence.
    + apply list_fmap_ext. intros i k' Hk'%list_elem_of_lookup_2. f_equal. f_equal. rewrite list_filter_filter.
      apply list_filter_iff. intros p. unfold first_prefix. simpl. destruct (StartsWith (patch_Keypath p) k) eqn:Hp; [|split; [by intros []|done]].
      split; [by intros [? []]|]. intros [= ->]. done.
    + rewrite list_filter_filter. apply list_filter_iff. intros p. unfold first_prefix. simpl.
      destruct (StartsWith (patch_Keypath p) k) eqn:Hp; [split; [by intros [? []]|done]|split; [by intros []|done]].
Qed.

(** the loop over the behaviours' keypaths from the last to the first hands every patch to
    exactly one behaviour, the nearest one, with the keypath made relative to it and the order
    of the patches kept; exactly the patches with no behaviour above them are left over, and
    none of the slices taken on the way can panic. *)
Theorem patches_go_to_nearest {X} (r : registry X) (patches : list Patch) :
  reg_wf r →
  dispatch (reverse r.1) patches =
  Ret ((λ k, (k, relative_patch k <$> filter (λ p, fst <$> nearest r (patch_Keypath p) = Some k) patches)) <$> reverse r.1,
       filter (λ p, nearest r (patch_Keypath p) = None) patches).
Proof.
  intros [Hs Hd]. rewrite dispatch_first by (rewrite reverse_Permutation; by apply sorted_lt_NoDup).
  assert (∀ p, first_prefix (reverse r.1) p = fst <$> nearest r (patch_Keypath p)) as Hn.
  { intros p. unfold nearest, first_prefix. by destruct (List.find _ _). }
  f_equal. f_equal.
  - apply list_fmap_ext. intros i k _. f_equal. f_equal. apply list_filter_iff. intros p. by rewrite Hn.
  - apply list_filter_iff. intros p. rewrite Hn, fmap_None. done.
Qed.

Definition example_patch (k : string) : Patch := mkPatch (str k) None (GScalar (SBool true)).

Lemma patches_go_to_nearest_witness :
  reg_wf (bt_resolvers example_behaviors) ∧
  dispatch (reverse (bt_resolvers example_behaviors).1) [example_patch "a/c"; example_patch "d"; example_patch "a/b/x"] =
  Ret ([(str "a/b", [example_patch "x"]); (str "a", [example_patch "c"]); ([], [example_patch "d"])], []).
Proof.
  assert (reg_wf (bt_resolvers example_behaviors)) as Hw by (apply bt_reachable_wf; repeat constructor).
  split; [exact Hw|]. rewrite (patches_go_to_nearest _ _ Hw). vm_compute. reflexivity.
Defined.
