(* ===== verification/Nelson.v ===== *)
(** * NelSON frames and links ([nelson/nelson.go], [nelson/util.go])

    A map with a [value] key is a frame around that value; a frame whose [Content-Type] is
    [link] stands for what the link points to, a blob ([ref:]) or a keypath of another
    state ([state:]).  [Seek] walks down a keypath through frames and links.

    The definitions are over nodes that are not frames themselves: the interface [PlainNode]
    lists the methods of [tree.Node] that they use, and the database tree implements it.
    [Resolve], which replaces frames inside a memory tree, is in [Frames]. *)

From S2P Require Import Prelude Types Keypath TreeTypes GoValue GoPaths NodeCodec BadgerTxn DBNode.

Definition ValueKey : Keypath := str "value".
Definition ContentTypeKey : Keypath := str "Content-Type".
Definition ContentLengthKey : Keypath := str "Content-Length".

(** ** Links *)

Inductive LinkType := LinkTypeUnknown | LinkTypeRef | LinkTypeState | LinkTypeURL.
#[export] Instance LinkType_eq_dec : EqDecision LinkType.
Proof. solve_decision. Defined.

Definition DetermineLinkType (linkStr : bytes) : LinkType * bytes :=
  if has_prefix linkStr (str "ref:") then (LinkTypeRef, drop (length (str "ref:")) linkStr)
  else if has_prefix linkStr (str "state:") then (LinkTypeState, drop (length (str "state:")) linkStr)
  else (LinkTypeUnknown, linkStr).

(** The parts are cut at slashes; the version starts at the [@] itself. *)
Definition ParseStateLink (linkValue : bytes) : outcome (bytes * Keypath * option ID) :=
  let parts := split_sep linkValue in
  let! part1 := index parts 1 in
  let! vp :=
    match index_byte "@"%byte part1 with
    | Some i => let! v := IDFromHex (drop i part1) in Ret (Some v, <[1 := take i part1]> parts)
    | None => Ret (None, parts)
    end in
  let '(version, parts) := vp in
  let stateURI := join_sep (take 2 parts) in
  let! keypath := slice linkValue (Z.of_nat (length stateURI) + 1) (Z.of_nat (length linkValue)) in
  Ret (stateURI, keypath, version).

(** ** Nodes *)

Class PlainNode (P : Type) := {
  p_Exists : P → Keypath → outcome bool;
  p_NodeAt : P → Keypath → P;
  p_StringValue : P → Keypath → outcome (option bytes);
  p_Value : P → Keypath → option Range → outcome (option plain)
}.

#[export] Instance PlainNode_db {T} `{BadgerTxn T} : PlainNode (DBNode T) := {
  p_Exists := db_Exists;
  p_NodeAt n kp := db_NodeAt n kp None;
  p_StringValue := db_StringValue;
  p_Value := db_Value
}.

Section Frames.
Context {P : Type} `{PlainNode P}.

(** The value of such a node contains no further node. *)
Definition GetValueRecursive (n : P) (kp : Keypath) (r : option Range) : outcome (option plain) := p_Value n kp r.

Definition GetContentType (n : P) : outcome bytes :=
  match GetValueRecursive n ContentTypeKey None with
  | Ret (Some (GScalar (SString s))) => Ret s
  | Ret _ => Ret (str "application/json")
  | Err e => if decide (e = Err404) then Ret (str "application/json") else Err e
  | Panic => Panic
  | Running => Running
  end.

Definition GetContentLength (n : P) : outcome Z :=
  let! v := GetValueRecursive n ContentLengthKey None in
  match v with Some (GScalar (SInt K64 i)) => Ret i | _ => Ret 0%Z end.

(** ** Seeking *)

(** What [Seek] finds: a node, or a frame that reads a blob. *)
Inductive found := FNode (n : P) | FRef (n : P) (contentLength : Z).

(** A string at a keypath, when a missing one is no error. *)
Definition string_or_404 (n : P) (kp : Keypath) : outcome (option bytes) :=
  match p_StringValue n kp with Err e => if decide (e = Err404) then Ret None else Err e | r => r end.

(** [RefObjectReader] returns [None] for [os.ErrNotExist]. *)
Context (StateAtVersion : bytes → option ID → outcome P) (RefObjectReader : RefID → outcome (option Z)).

Fixpoint Seek (fuel : nat) (node : P) (kp : Keypath) : outcome (option found) :=
  match fuel with
  | O => Running
  | S fuel =>
      let! isNelSONFrame := p_Exists node ValueKey in
      if negb isNelSONFrame then
        if decide (length kp = 0) then Ret (Some (FNode node))
        else
          let! part := Part kp 0 in
          let! nodeExists := p_Exists node (nilable part) in
          if negb nodeExists then Ret None
          else Seek fuel (p_NodeAt node (nilable part)) (nilable (snd (Shift kp)))
      else
        let! contentType := string_or_404 node ContentTypeKey in
        if decide (contentType ≠ Some (str "link")) then Seek fuel (p_NodeAt node ValueKey) kp
        else
          let! link := string_or_404 node ValueKey in
          match link with
          | None => Ret None
          | Some linkStr =>
              match DetermineLinkType linkStr with
              | (LinkTypeRef, linkValue) =>
                  if decide (0 < length kp) then Ret None
                  else
                    let! refID := RefID_UnmarshalText (mkRefID HashAlgUnknown EmptyHash) linkValue in
                    let! r := RefObjectReader refID in
                    match r with None => Ret None | Some len => Ret (Some (FRef node len)) end
              | (LinkTypeState, linkValue) =>
                  let! l := ParseStateLink linkValue in
                  let '(stateURI, linkedKeypath, version) := l in
                  let kp := Unshift kp linkedKeypath in
                  let! state := StateAtVersion stateURI version in
                  let! part := Part kp 0 in
                  let! nodeExists := p_Exists state (nilable part) in
                  if negb nodeExists then Ret None
                  else Seek fuel (p_NodeAt state (nilable part)) (nilable (snd (Shift kp)))
              | _ => Err (ErrOther "unknown link type")
              end
          end
  end.
End Frames.
Arguments found P : clear implicits.

(** ** Links are cut at the right slashes *)

Lemma state_link_type l : DetermineLinkType (str "state:" ++ l) = (LinkTypeState, l).
Proof.
  unfold DetermineLinkType.
  assert (has_prefix (str "state:" ++ l) (str "ref:") = false) as ->.
  { apply not_true_iff_false. rewrite has_prefix_spec. intros [q Hq]. discriminate Hq. }
  assert (has_prefix (str "state:" ++ l) (str "state:") = true) as -> by (apply has_prefix_spec; by exists l).
  by rewrite drop_app_length.
Qed.

Lemma split_link host path rest :
  no_sep host → no_sep path → split_sep (host ++ sep :: path ++ sep :: rest) = host :: path :: split_sep rest.
Proof. intros Hh Hp. rewrite split_sep_app, split_sep_app, (split_sep_no_sep host), (split_sep_no_sep path) by done. done. Qed.

Lemma unhex_at s : ∃ e, IDFromHex ("@"%byte :: s) = Err e.
Proof. exists ErrHex. destruct s as [|c s]; [done|]. unfold IDFromHex. cbn [DecodeString]. by change (unhex "@"%byte) with (@None Z). Qed.

Lemma state_link_cut (host path rest : bytes) :
  no_sep host → no_sep path → "@"%byte ∉ path →
  ParseStateLink (host ++ sep :: path ++ sep :: rest) = Ret (host ++ sep :: path, rest, None).
Proof.
  intros Hh Hp Hat. assert (index_byte "@"%byte path = None) as Hi by (by apply index_byte_None).
  unfold ParseStateLink. rewrite split_link by done.
  change (index (host :: path :: split_sep rest) 1) with (Ret path). cbn [obind]. rewrite Hi. cbn [obind].
  change (take 2 (host :: path :: split_sep rest)) with [host; path]. rewrite join_sep_cons by done. cbn [join_sep].
  replace (host ++ sep :: path ++ sep :: rest) with ((host ++ sep :: path) ++ [sep] ++ rest)
    by (rewrite <- app_assoc; done).
  rewrite app_assoc, slice_tail; [done| |].
  - rewrite (length_app (host ++ sep :: path) [sep]). simpl. lia.
  - rewrite !length_app. simpl. lia.
Qed.

(** a state link [host/path/keypath] is taken apart into the state URI [host/path] and the
    keypath, whatever the keypath contains; one that names a version ([path@version]) is
    always refused, because the version is parsed together with its [@]; and one that stops
    after the state URI, or has no slash at all, panics. *)
Theorem state_link_parse (host path rest : bytes) :
  no_sep host → no_sep path → "@"%byte ∉ path →
  ParseStateLink (host ++ sep :: path ++ sep :: rest) = Ret (host ++ sep :: path, rest, None) ∧
  (∀ version, no_sep version → ∃ e, ParseStateLink (host ++ sep :: (path ++ "@"%byte :: version) ++ sep :: rest) = Err e) ∧
  ParseStateLink (host ++ sep :: path) = Panic ∧
  ParseStateLink host = Panic.
Proof.
  intros Hh Hp Hat. assert (index_byte "@"%byte path = None) as Hi by (by apply index_byte_None).
  split_and!.
  - by apply state_link_cut.
  - intros version Hv. assert (no_sep (path ++ "@"%byte :: version)) as Hpv.
    { unfold no_sep in *. rewrite not_elem_of_app, not_elem_of_cons. done. }
    unfold ParseStateLink. rewrite split_link by done.
    change (index (host :: ?p :: split_sep rest) 1) with (Ret p). cbn [obind]. rewrite index_byte_app by done.
    rewrite drop_app_length. destruct (unhex_at version) as [e ->]. by exists e.
  - unfold ParseStateLink. rewrite split_sep_app, (split_sep_no_sep host), (split_sep_no_sep path) by done.
    change (index ([host] ++ [path]) 1) with (Ret path). cbn [obind]. rewrite Hi. cbn [obind app].
    change (take 2 [host; path]) with [host; path]. rewrite join_sep_cons by done. cbn [join_sep].
    unfold slice. rewrite decide_False by lia. done.
  - unfold ParseStateLink. by rewrite split_sep_no_sep.
Qed.

Lemma state_link_parse_witness :
  ParseStateLink (str "chat.com/room/messages/1") = Ret (str "chat.com/room", str "messages/1", None) ∧
  ParseStateLink (str "chat.com/room") = Panic.
Proof.
  assert (no_sep (str "chat.com")) as H1 by vm_decide. assert (no_sep (str "room")) as H2 by vm_decide.
  assert ("@"%byte ∉ str "room") as H3 by vm_decide.
  destruct (state_link_parse (str "chat.com") (str "room") (str "messages/1") H1 H2 H3) as (Ha & _ & Hb & _).
  split; [exact Ha|exact Hb].
Defined.

(** ** Seeking without frames *)

Lemma join_sep_Push p ps : p ≠ [] → Forall (λ q, q ≠ []) ps → join_sep (p :: ps) = Push p (join_sep ps).
Proof.
  intros Hp Hps. destruct ps as [|q ps]; [by rewrite Push_nil_r|]. rewrite join_sep_cons by done.
  unfold Push. rewrite decide_False by (by destruct p). rewrite decide_False; [done|].
  inversion_clear Hps. destruct q; [done|]. by destruct ps.
Qed.

Lemma Part_first p ps : no_sep p → Part (join_sep (p :: ps)) 0 = Ret (Some p).
Proof.
  intros Hp. unfold Part. rewrite decide_False by lia. change (Z.to_nat (0 + 1)) with 1.
  change (-1)%Z with (Z.of_nat (length (@nil byte)) - 1)%Z. rewrite (Part_fwd_spec _ [] (join_sep (p :: ps)) 0) by done.
  destruct ps as [|q ps]; [by rewrite split_sep_no_sep|]. rewrite join_sep_cons, split_sep_app, split_sep_no_sep by done. done.
Qed.

Lemma Shift_rest p ps : no_sep p → nilable (snd (Shift (join_sep (p :: ps)))) = join_sep ps.
Proof.
  intros Hp. unfold Shift. destruct ps as [|q ps].
  - assert (index_byte sep (join_sep [p]) = None) as -> by (by apply index_byte_None). done.
  - rewrite join_sep_cons, index_byte_app by done. simpl. by rewrite <- drop_drop, drop_app_length.
Qed.

Lemma forallb_seq_S (f : nat → bool) a n : forallb f (seq (S a) n) = forallb (λ i, f (S i)) (seq a n).
Proof. revert a. induction n as [|n IH]; intros a; [done|]. simpl. by rewrite IH. Qed.

Section SeekFacts.
Context {T : Type} `{BadgerTxn T}.
Context (StateAtVersion : bytes → option ID → outcome (DBNode T)) (RefObjectReader : RefID → outcome (option Z)).

Lemma db_NodeAt_Exists (n : DBNode T) a b : db_Exists (db_NodeAt n a None) b = db_Exists n (Push a b).
Proof. unfold db_Exists, db_NodeAt. cbn [db_tx rootKeypath]. unfold addKeyPrefix. cbn [keyPrefix]. by rewrite Push_assoc_all. Qed.

Lemma db_NodeAt_NodeAt (n : DBNode T) a b : db_NodeAt (db_NodeAt n a None) b None = db_NodeAt n (Push a b) None.
Proof. unfold db_NodeAt. cbn. by rewrite Push_assoc_all. Qed.

Definition path_part (p : Keypath) : Prop := no_sep p ∧ p ≠ [].

(** The boolean that [Exists] returns. *)
Definition exists_at (n : DBNode T) (kp : Keypath) : bool := match db_Exists n kp with Ret b => b | _ => false end.

Lemma db_Exists_at n kp : db_Exists n kp = Ret (exists_at n kp).
Proof. done. Qed.

(** One turn at a node that is no frame. *)
Lemma seek_one fuel (n : DBNode T) p ps : path_part p → exists_at n ValueKey = false →
  Seek StateAtVersion RefObjectReader (S fuel) n (join_sep (p :: ps)) =
  if exists_at n p then Seek StateAtVersion RefObjectReader fuel (db_NodeAt n p None) (join_sep ps) else Ret None.
Proof.
  intros [Hp Hne] H0. cbn [Seek p_Exists PlainNode_db]. rewrite db_Exists_at, H0. cbn [obind negb].
  rewrite decide_False by (destruct p; [done|]; by destruct ps). rewrite Part_first by done. cbn [obind]. rewrite Shift_rest by done.
  change (nilable (Some p)) with p. rewrite db_Exists_at. cbn [obind]. by destruct (exists_at n p).
Qed.

Lemma exists_at_NodeAt (n : DBNode T) p k : exists_at (db_NodeAt n p None) k = exists_at n (Push p k).
Proof. unfold exists_at. by rewrite db_NodeAt_Exists. Qed.

Lemma path_parts_nonempty ps : Forall path_part ps → Forall (λ q : Keypath, q ≠ []) ps.
Proof. intros Hps. eapply Forall_impl; [exact Hps|]. by intros q []. Qed.

(** Down a path whose nodes exist and are no frames. *)
Lemma seek_down (ps : list Keypath) : ∀ fuel (n : DBNode T),
  Forall path_part ps →
  (∀ i, i < length ps → exists_at n (Push (join_sep (take i ps)) ValueKey) = false ∧ exists_at n (join_sep (take (S i) ps)) = true) →
  Seek StateAtVersion RefObjectReader (length ps + fuel) n (join_sep ps) = Seek StateAtVersion RefObjectReader fuel (db_NodeAt n (join_sep ps) None) [].
Proof.
  induction ps as [|p ps IH]; intros fuel n Hps Hv.
  - cbn. unfold db_NodeAt. rewrite Push_nil_r. f_equal. by destruct n.
  - apply Forall_cons in Hps as [Hp Hps]. pose proof (path_parts_nonempty ps Hps) as Hnes. cbn [length Nat.add].
    destruct (Hv 0) as [H0 H1]; [cbn; lia|]. change (join_sep (take 1 (p :: ps))) with (join_sep (p :: [])) in H1. cbn [take join_sep] in H0, H1.
    rewrite Push_nil_l in H0. rewrite seek_one, H1 by done. rewrite IH; [by rewrite db_NodeAt_NodeAt, <- join_sep_Push by (try apply Hp; done)|done|].
    intros i Hi. rewrite !exists_at_NodeAt, <- Push_assoc_all, <- !(join_sep_Push p) by (try apply Hp; by apply Forall_take). apply (Hv (S i)). cbn. lia.
Qed.

Lemma seek_parts (ps : list Keypath) (n : DBNode T) :
  Forall path_part ps →
  (∀ i, i ≤ length ps → exists_at n (Push (join_sep (take i ps)) ValueKey) = false) →
  Seek StateAtVersion RefObjectReader (S (length ps)) n (join_sep ps) =
  if forallb (λ i, exists_at n (join_sep (take (S i) ps))) (seq 0 (length ps))
  then Ret (Some (FNode (db_NodeAt n (join_sep ps) None))) else Ret None.
Proof.
  revert n. induction ps as [|p ps IH]; intros n Hps Hv.
  - pose proof (Hv 0 ltac:(simpl; lia)) as H0. cbn [take join_sep] in H0. rewrite Push_nil_l in H0.
    cbn [length Seek p_Exists PlainNode_db join_sep seq forallb]. rewrite db_Exists_at, H0. cbn.
    unfold db_NodeAt. rewrite Push_nil_r. by destruct n.
  - apply Forall_cons in Hps as [Hp Hps]. pose proof (path_parts_nonempty ps Hps) as Hnes.
    assert (∀ i, join_sep (take (S i) (p :: ps)) = Push p (join_sep (take i ps))) as Htake.
    { intros i. cbn [take]. apply join_sep_Push; [apply Hp|]. by apply Forall_take. }
    pose proof (Hv 0 ltac:(simpl; lia)) as H0. cbn [take join_sep] in H0. rewrite Push_nil_l in H0.
    cbn [length]. rewrite seek_one by done. cbn [seq forallb]. rewrite (Htake 0). cbn [take join_sep]. rewrite Push_nil_r.
    destruct (exists_at n p); [|done]. cbn [andb]. rewrite IH; [|done|].
    + rewrite forallb_seq_S, db_NodeAt_NodeAt, <- join_sep_Push by (try apply Hp; done).
      assert (∀ l, forallb (λ i, exists_at (db_NodeAt n p None) (join_sep (take (S i) ps))) l =
        forallb (λ i, exists_at n (join_sep (take (S (S i)) (p :: ps)))) l) as -> by
        (induction l as [|i l IHl]; [done|]; cbn [forallb]; by rewrite IHl, exists_at_NodeAt, <- Htake). done.
    + intros i Hi. rewrite exists_at_NodeAt, <- Push_assoc_all, <- Htake. apply Hv. simpl. lia.
Qed.
End SeekFacts.

(** walking down a keypath that meets no frame ends: [Seek] makes one turn per part and
    returns the node at the keypath when every node on the way exists, and reports a
    missing node otherwise; the resolver for links is never asked. *)
Theorem seek_without_frames {T} `{BadgerTxn T} StateAtVersion RefObjectReader (n : DBNode T) (ps : list Keypath) :
  Forall path_part ps →
  (∀ i, i ≤ length ps → exists_at n (Push (join_sep (take i ps)) ValueKey) = false) →
  Seek StateAtVersion RefObjectReader (S (length ps)) n (join_sep ps) =
  if forallb (λ i, exists_at n (join_sep (take (S i) ps))) (seq 0 (length ps))
  then Ret (Some (FNode (db_NodeAt n (join_sep ps) None))) else Ret None.
Proof. apply seek_parts. Qed.

(** links can form a cycle, and [Seek] does not notice: when a link frame points to a
    keypath at which the resolver finds that same frame, [Seek] is still running after any
    number of turns. *)
Theorem seek_cycle {P} `{PlainNode P} (StateAtVersion : bytes → option ID → outcome P) RefObjectReader
    (node state : P) (host path part : bytes) :
  no_sep host → no_sep path → "@"%byte ∉ path → path_part part →
  p_Exists node ValueKey = Ret true →
  p_StringValue node ContentTypeKey = Ret (Some (str "link")) →
  p_StringValue node ValueKey = Ret (Some (str "state:" ++ host ++ sep :: path ++ sep :: part)) →
  StateAtVersion (host ++ sep :: path) None = Ret state →
  p_Exists state part = Ret true → p_NodeAt state part = node →
  ∀ fuel, Seek StateAtVersion RefObjectReader fuel node [] = Running.
Proof.
  intros Hh Hp Hat [Hn Hne] Hex Hct Hval Hst Hpart Hback fuel. induction fuel as [|fuel IH]; [done|].
  cbn [Seek]. rewrite Hex. cbn [obind negb]. unfold string_or_404. rewrite Hct. cbn [obind].
  rewrite decide_False by (intros Hc; by apply Hc). rewrite Hval. cbn [obind].
  rewrite state_link_type.
  rewrite state_link_cut by done. cbn [obind]. rewrite Hst. cbn [obind].
  change (Unshift [] part) with part. pose proof (Part_first part [] Hn) as Hfirst. pose proof (Shift_rest part [] Hn) as Hrest.
  cbn [join_sep] in Hfirst, Hrest. rewrite Hfirst. cbn [obind]. change (nilable (Some part)) with part.
  rewrite Hpart. cbn [obind negb]. by rewrite Hrest, Hback.
Qed.

Definition link_value (target : string) : plain :=
  GMap [(ContentTypeKey, GScalar (SString (str "link"))); (ValueKey, GScalar (SString (str target)))].

Lemma seek_without_frames_witness :
  Seek (λ _ _, Err ErrNoController) (λ _, Ret None) 3 (StateAtVersion (λ _, ∅ : gmap bytes bytes) EmptyID true) (str "a/b") = Ret None.
Proof.
  refine (seek_without_frames _ _ (StateAtVersion (λ _, ∅ : gmap bytes bytes) EmptyID true) [str "a"; str "b"] _ _).
  - repeat constructor; vm_decide.
  - intros i _. reflexivity.
Defined.

(** A state whose key [x] is a link to itself. *)
Definition looping_state : DBNode (gmap bytes bytes) :=
  match db_Set (StateAtVersion (λ _, ∅ : gmap bytes bytes) EmptyID true) (str "x") None (link_value "state:a.com/b/x" : plain) with
  | Ret n => n
  | _ => StateAtVersion (λ _, ∅) EmptyID true
  end.

Lemma seek_cycle_witness :
  ∀ fuel, Seek (λ _ _, Ret looping_state) (λ _, Ret None) fuel (db_NodeAt looping_state (str "x") None) [] = Running.
Proof.
  apply (seek_cycle (λ _ _, Ret looping_state) (λ _, Ret None) (db_NodeAt looping_state (str "x") None) looping_state
           (str "a.com") (str "b") (str "x")).
  - vm_decide.
  - vm_decide.
  - vm_decide.
  - split; vm_decide.
  - vm_compute. reflexivity.
  - vm_compute. reflexivity.
  - vm_compute. reflexivity.
  - reflexivity.
  - vm_compute. reflexivity.
  - reflexivity.
Defined.
