(* ===== verification/Frames.v ===== *)
(** * Frames inside memory trees ([nelson/nelson.go], [nelson/util.go])

    [Resolve] walks over a memory tree from its last keypath to its first and puts a [Frame]
    in the place of every map that has a [value] key.  A frame whose [Content-Type] is
    [link] gets the blob or the state that the link names.

    Frames are allocated in a list ([heap]) and trees refer to them by number.  A [blob_reader]
    stands for an [io.ReadCloser] over a blob: its value is what can be read from it.

    The iterator of [Resolve] shares its array of keypaths with the tree that [Resolve]
    changes: [Set] moves the keypaths in that array, and the iterator goes on seeing as
    many of them as there were at the start ([stale]). *)

From S2P Require Import Prelude Types Keypath TreeTypes GoValue GoPaths NodeCodec MemoryNode MemoryProps MemoryIter BadgerTxn DBNode Nelson.

(** ** Data *)

Record blob_reader := mkBlobReader { blob_content : bytes }.

(** A reference to a frame, or to the node at an absolute keypath of the tree in a frame. *)
Inductive fref := Fr (id : nat) | View (id : nat) (kp : Keypath) (r : option Range).
#[export] Instance fref_eq_dec : EqDecision fref.
Proof. solve_decision. Defined.

Definition is_Fr (r : fref) : bool := match r with Fr _ => true | View _ _ _ => false end.

Abbreviation ftree := (MemoryNode fref).

(** The embedded [tree.Node]. *)
Inductive fnode := InMem (m : ftree) | InFrame (id : nat).

Record Frame := mkFrame {
  f_Node : fnode;
  f_contentType : bytes;
  f_contentLength : Z;
  f_overrideValue : option blob_reader;
  f_fullyResolved : bool;
  f_err : option error
}.

Abbreviation heap := (list Frame).

(** Values of trees with frames: the leaves can be readers. *)
Abbreviation fval := (goval blob_reader).

Definition with_node (f : Frame) (n : fnode) : Frame :=
  mkFrame n (f_contentType f) (f_contentLength f) (f_overrideValue f) (f_fullyResolved f) (f_err f).
Definition with_type (f : Frame) (ct : bytes) : Frame :=
  mkFrame (f_Node f) ct (f_contentLength f) (f_overrideValue f) (f_fullyResolved f) (f_err f).
Definition with_length (f : Frame) (l : Z) : Frame :=
  mkFrame (f_Node f) (f_contentType f) l (f_overrideValue f) (f_fullyResolved f) (f_err f).
Definition with_override (f : Frame) (r : blob_reader) : Frame :=
  mkFrame (f_Node f) (f_contentType f) (f_contentLength f) (Some r) (f_fullyResolved f) (f_err f).
Definition with_resolved (f : Frame) (b : bool) : Frame :=
  mkFrame (f_Node f) (f_contentType f) (f_contentLength f) (f_overrideValue f) b (f_err f).
Definition with_err (f : Frame) (e : option error) : Frame :=
  mkFrame (f_Node f) (f_contentType f) (f_contentLength f) (f_overrideValue f) (f_fullyResolved f) e.

(** The tree with another keypath and range, as [NodeAt] makes it. *)
Definition view (m : ftree) (kp : Keypath) (r : option Range) : ftree :=
  mkMemoryNode kp r (keypaths m) (values m) (nodeTypes m) (contentLengths m) false (diff m).

(** ** Values *)

Section FrameValues.
(** [Value] of an inner node. *)
Context (inner : fref → Keypath → option Range → outcome (option fval)).

Definition ffill_step (n : ftree) (absKeypath : Keypath) (m : fval) (kp : Keypath) (_ : nat) : outcome fval :=
  let! relKp := RelativeTo kp absKeypath in
  if decide (length relKp = 0) then Ret m
  else match node_type n kp with
       | NodeTypeSlice => setValueAtKeypath m relKp (GSlice (replicate (Z.to_nat (content_length n kp)) (GScalar SNil))) false
       | NodeTypeMap => setValueAtKeypath m relKp (GMap []) false
       | NodeTypeNode =>
           match value_at n kp with
           | MV _ => Panic
           | MN node =>
               let! v := inner node [] None in
               match v with None => Panic | Some v => setValueAtKeypath m relKp v false end
           end
       | NodeTypeValue => match value_at n kp with MV s => setValueAtKeypath m relKp (GScalar s) false | MN _ => Panic end
       | NodeTypeInvalid => Ret m
       end.

(** [MemoryNode.Value] at a keypath that is not inside another node. *)
Definition tree_Value (n : ftree) (kp : Keypath) (r : option Range) : outcome (option fval) :=
  let absKeypath := Push (keypath n) kp in
  let! r := merge_range (rng n) r in
  match node_type n absKeypath with
  | NodeTypeInvalid => Ret None
  | NodeTypeNode => match value_at n absKeypath with MN node => inner node kp r | MV _ => Panic end
  | NodeTypeValue =>
      match values n !! absKeypath with
      | None => Ret None
      | Some v =>
          match r with
          | Some _ => Err ErrRangeOverNonSlice
          | None => match v with MV s => Ret (Some (GScalar s)) | MN _ => Panic end
          end
      end
  | NodeTypeMap =>
      match r with
      | Some _ => Err ErrRangeOverNonSlice
      | None => let! res := scanKeypathsWithPrefix (ffill_step n absKeypath) n absKeypath None (GMap []) in Ret (Some res.1)
      end
  | NodeTypeSlice =>
      let! res := scanKeypathsWithPrefix (ffill_step n absKeypath) n absKeypath r
                    (GSlice (replicate (Z.to_nat (content_length n absKeypath)) (GScalar SNil))) in
      Ret (Some res.1)
  end.
End FrameValues.

(** The plain value, if it has no readers. *)
Fixpoint to_plain (v : fval) : option plain :=
  match v with
  | GScalar s => Some (GScalar s)
  | GMap m => GMap <$> mapM (λ '(k, v), (k,.) <$> to_plain v) m
  | GSlice l => GSlice <$> mapM to_plain l
  | GNode _ => None
  end.

(** ** The methods of frames

    A frame embeds its node: the methods it does not declare are those of the node.  Frames
    lie inside frames, and [level] bounds how deep. *)

(** The tree that a reference stands for, or the frame that its frame embeds. *)
Definition on_frame {A} (h : heap) (r : fref) (mem : ftree → outcome A) (frame : fref → outcome A) : outcome A :=
  match r with
  | Fr id =>
      match f_Node <$> h !! id with
      | Some (InMem m) => mem m
      | Some (InFrame j) => frame (Fr j)
      | None => Panic
      end
  | View id kp rg => match f_Node <$> h !! id with Some (InMem m) => mem (view m kp rg) | _ => Panic end
  end.

(** The tree of a frame after an update through a reference to it. *)
Definition put_tree (h : heap) (r : fref) (m : ftree) : heap :=
  match r with
  | Fr id => alter (λ f, with_node f (InMem m)) id h
  | View id _ _ =>
      alter (λ f, match f_Node f with
                  | InMem m0 => with_node f (InMem (mkMemoryNode (keypath m0) (rng m0) (keypaths m) (values m) (nodeTypes m) (contentLengths m) (copied m0) (diff m)))
                  | _ => f
                  end) id h
  end.

Definition no_frame : NodeIface fref heap := {|
  node_NodeAt _ r _ _ := r;
  node_ParentNodeFor _ r kp := (r, kp);
  node_NodeInfo _ _ _ := Running;
  node_Exists _ _ _ := Running;
  node_UintValue _ _ _ := Running;
  node_IntValue _ _ _ := Running;
  node_FloatValue _ _ _ := Running;
  node_BoolValue _ _ _ := Running;
  node_StringValue _ _ _ := Running;
  node_BytesValue _ _ _ := Running;
  node_Value _ _ _ _ := Running;
  node_Set _ _ _ _ _ := Running;
  node_Delete _ _ _ _ := Running
|}.

(** [Frame.NodeAt]: the node of the embedded tree, as a reference. *)
Definition frame_NodeAt (I : NodeIface fref heap) (h : heap) (r : fref) (kp : Keypath) (rg : option Range) : fref :=
  if decide (kp = [] ∧ rg = None ∧ is_Fr r = true) then r
  else
    match r with
    | Fr id | View id _ _ =>
        match on_frame h r (λ m, let! x := @NodeAt fref heap I h m kp rg in Ret match x with inl m' => View id (keypath m') (MemoryNode.rng m') | inr x => x end)
                           (λ j, Ret (@node_NodeAt _ _ I h j kp rg)) with
        | Ret x => x
        | _ => r
        end
    end.

(** [Frame.ParentNodeFor]: the frame itself in the place of the node that it embeds. *)
Definition frame_ParentNodeFor (I : NodeIface fref heap) (h : heap) (r : fref) (kp : Keypath) : fref * Keypath :=
  if decide (length kp = 0) then (r, kp)
  else
    match on_frame h r
            (λ m, let! p := @ParentNodeFor fref heap I h m kp in Ret (default (r, kp) p))
            (λ j, let p := @node_ParentNodeFor _ _ I h j kp in Ret (if decide (p.1 = j) then (r, p.2) else p)) with
    | Ret p => p
    | _ => (r, kp)
    end.

(** What [Value] of a reference is, given the methods of the frames inside: [Frame.Value], or
    [MemoryNode.Value]. *)
Definition value_fn : Type := heap → fref → Keypath → option Range → outcome (option fval).

Definition frame_Value (I : NodeIface fref heap) (inner : value_fn) : value_fn := λ h r kp rg,
  let below := λ m : ftree, @delegate fref heap I _ h m kp (λ node rel, inner h node rel rg) (tree_Value (inner h) m kp rg) in
  match r with
  | Fr id =>
      match h !! id with
      | None => Panic
      | Some f =>
          match f_overrideValue f with
          | Some rd => Ret (Some (GNode rd))
          | None => match f_Node f with InMem m => below m | InFrame j => inner h (Fr j) kp rg end
          end
      end
  | View id k vr => match f_Node <$> h !! id with Some (InMem m) => below (view m k vr) | _ => Panic end
  end.

(** The interface and [Value]; [node_Value] is the value if it has no readers. *)
Fixpoint frame_level (level : nat) : NodeIface fref heap * value_fn :=
  match level with
  | O => (no_frame, λ _ _ _ _, Running)
  | S level =>
      let I := (frame_level level).1 in
      let value := frame_Value I (frame_level level).2 in
      ({|
         node_NodeAt := frame_NodeAt I;
         node_ParentNodeFor := frame_ParentNodeFor I;
         node_NodeInfo h r kp := on_frame h r (λ m, @NodeInfo _ _ I h m kp) (λ j, @node_NodeInfo _ _ I h j kp);
         node_Exists h r kp := on_frame h r (λ m, @Exists _ _ I h m kp) (λ j, @node_Exists _ _ I h j kp);
         node_UintValue h r kp := on_frame h r (λ m, @UintValue _ _ I h m kp) (λ j, @node_UintValue _ _ I h j kp);
         node_IntValue h r kp := on_frame h r (λ m, @IntValue _ _ I h m kp) (λ j, @node_IntValue _ _ I h j kp);
         node_FloatValue h r kp := on_frame h r (λ m, @FloatValue _ _ I h m kp) (λ j, @node_FloatValue _ _ I h j kp);
         node_BoolValue h r kp := on_frame h r (λ m, @BoolValue _ _ I h m kp) (λ j, @node_BoolValue _ _ I h j kp);
         node_StringValue h r kp := on_frame h r (λ m, @StringValue _ _ I h m kp) (λ j, @node_StringValue _ _ I h j kp);
         node_BytesValue h r kp := on_frame h r (λ m, @BytesValue _ _ I h m kp) (λ j, @node_BytesValue _ _ I h j kp);
         node_Value h r kp rg :=
           let! v := value h r kp rg in
           match v with None => Ret None | Some v => match to_plain v with Some p => Ret (Some p) | None => Panic end end;
         node_Set h r kp rg v := on_frame h r (λ m, let! hm := @Set_ _ _ I h m kp rg v in Ret (put_tree hm.1 r hm.2)) (λ j, @node_Set _ _ I h j kp rg v);
         node_Delete h r kp rg := on_frame h r (λ m, let! hm := @Delete _ _ I h m kp rg in Ret (put_tree hm.1 r hm.2)) (λ j, @node_Delete _ _ I h j kp rg)
       |}, value)
  end.

(** A node in a heap: a tree or a frame. *)
Inductive tnode := NTree (m : ftree) | NRef (r : fref).

(** Every frame of a heap lies inside at most as many others as there are. *)
Definition ops (h : heap) : NodeIface fref heap := (frame_level (S (length h))).1.
Definition inner_Value (h : heap) : fref → Keypath → option Range → outcome (option fval) := (frame_level (S (length h))).2 h.

Definition node_value (h : heap) (n : tnode) (kp : Keypath) (rg : option Range) : outcome (option fval) :=
  match n with
  | NTree m => @delegate fref heap (ops h) _ h m kp (λ node rel, inner_Value h node rel rg) (tree_Value (inner_Value h) m kp rg)
  | NRef r => inner_Value h r kp rg
  end.

(** ** [Resolve] *)

(** A memory tree without frames as a tree that can hold them. *)
Definition lift_tree (m : MemoryNode Empty_set) : ftree :=
  mkMemoryNode (keypath m) (rng m) (keypaths m) ((λ v : mval Empty_set, match v with MV s => MV s | MN n => match n return mval fref with end end) <$> values m)
    (nodeTypes m) (contentLengths m) (copied m) (diff m).

(** The node of the depth-first iterator: the keypaths are those of its array. *)
Definition iter_node (m : ftree) (stale : list Keypath) (k : Keypath) : ftree :=
  mkMemoryNode k None stale (values m) (nodeTypes m) (contentLengths m) false None.

(** The array after the tree's list has become [live], which is not longer. *)
Definition array_after (old live : list Keypath) : list Keypath := live ++ drop (length live) old.

(** The same iterator over the tree's new list. *)
Definition over_keypaths (it : memoryIterator) (ks : list Keypath) : memoryIterator :=
  mkMemoryIterator (mi_i it) (mi_range it) (mi_done it) (mi_root it) ks (mi_keypath it).

(** A string or an integer at a keypath, where a missing one is no error. *)
Definition or_404 {A} (m : outcome (option A)) : outcome (option A) :=
  match m with Err e => if decide (e = Err404) then Ret None else Err e | r => r end.

(** The node that [Resolve] returns as the embedded node of a frame: it is a tree or a frame. *)
Definition embed (f : Frame) (n : tnode) : fnode :=
  match n with NTree m => InMem m | NRef (Fr id) => InFrame id | NRef (View _ _ _) => f_Node f end.

Section Resolve.
Context {T : Type} `{BadgerTxn T}.
(** The controller hub as the resolver of references; [None] is [os.ErrNotExist]. *)
Context (StateAtVersion : bytes → option ID → outcome (DBNode T)) (RefObjectReader : RefID → outcome (option (blob_reader * Z))).

Definition resolved : Type := heap * tnode * bool.

(** [f] with the error and what is missing: [resolveLink] never fails itself. *)
Definition link_failed (h : heap) (f : Frame) (e : error) : outcome (heap * Frame * bool) := Ret (h, with_err f (Some e), true).

Definition or_link {A} (h : heap) (f : Frame) (m : outcome A) (k : A → outcome (heap * Frame * bool)) : outcome (heap * Frame * bool) :=
  match m with Ret a => k a | Err e => link_failed h f e | Panic => Panic | Running => Running end.

Definition resolveLink (Resolve : heap → ftree → outcome resolved) (h : heap) (f : Frame) (linkStr : bytes) : outcome (heap * Frame * bool) :=
  match DetermineLinkType linkStr with
  | (LinkTypeRef, linkValue) =>
      or_link h f (RefID_UnmarshalText (mkRefID HashAlgUnknown EmptyHash) linkValue) (λ refID,
        or_link h f (RefObjectReader refID) (λ r,
          match r with
          | None => link_failed h f Err404
          | Some (rd, contentLength) => Ret (h, with_length (with_override f rd) contentLength, false)
          end))
  | (LinkTypeState, linkValue) =>
      or_link h f (ParseStateLink linkValue) (λ '(stateURI, kp, version),
        or_link h f (StateAtVersion stateURI version) (λ state,
          or_link h f (db_CopyToMemory state kp None) (λ state,
            match Resolve h (lift_tree state) with
            | Ret (h', state, anyMissing) =>
                (* what [Value] returns is never a frame *)
                match node_value h' state [] None with
                | Ret _ => Ret (h', with_err (with_node f (embed f state)) None, anyMissing)
                | Err e => link_failed h' f e
                | Panic => Panic
                | Running => Running
                end
            | Err e => link_failed h f e
            | Panic => Panic
            | Running => Running
            end)))
  | _ => link_failed h f (ErrOther "unsupported link type")
  end.

(** The loop over the enclosing frames: the frame, and the keypath at which it goes into the
    tree, [None] for the root.  [fuel] bounds the number of parts. *)
Fixpoint travel_upwards (fuel : nat) (h : heap) (outer : ftree) (f : Frame) (parentKeypath : Keypath) : outcome (Frame * option Keypath) :=
  match fuel with
  | O => Running
  | S fuel =>
      let! f :=
        if decide (f_contentLength f = 0)%Z then
          let! l := or_404 (@IntValue _ _ (ops h) h outer (Push parentKeypath ContentLengthKey)) in
          Ret match l with Some l => with_length f l | None => f end
        else Ret f in
      let! f :=
        if decide (f_contentType f = []) then
          let! ct := or_404 (@StringValue _ _ (ops h) h outer (Push parentKeypath ContentTypeKey)) in
          let ct := default [] ct in
          Ret (if decide (ct ≠ str "link") then with_type f ct else f)
        else Ret f in
      let '(nextParentKeypath, nextKey) := Pop parentKeypath in
      if negb (Equals nextKey ValueKey) then
        Ret (f, if decide (length parentKeypath = 0) then None else Some parentKeypath)
      else travel_upwards fuel h outer f (nilable nextParentKeypath)
  end.

Record resolving := mkResolving {
  rs_heap : heap;
  rs_outer : ftree;
  rs_iter : memoryIterator;
  rs_stale : list Keypath;
  rs_missing : bool
}.

(** The frame for the node at [k], with its link resolved. *)
Definition make_frame (Resolve : heap → ftree → outcome resolved) (s : resolving) (k parentKeypath : Keypath) : outcome (heap * Frame * bool) :=
  let h := rs_heap s in
  let outer := rs_outer s in
  let! copied := CopyToMemory (iter_node outer (rs_stale s) k) [] None in
  let f := mkFrame (InMem copied) [] 0 None false None in
  let! contentType := or_404 (@StringValue _ _ (ops h) h outer (Push parentKeypath ContentTypeKey)) in
  if decide (contentType = Some (str "link")) then
    match @StringValue _ _ (ops h) h copied [] with
    | Ret linkStr =>
        let! r := resolveLink Resolve h f (default [] linkStr) in
        let '(h, f, innerAnyMissing) := r in
        let anyMissing := rs_missing s || innerAnyMissing in
        Ret (h, with_resolved f (negb anyMissing), anyMissing)
    | Err e => Ret (h, with_resolved (with_err f (Some e)) false, true)
    | Panic => Panic
    | Running => Running
    end
  else Ret (h, f, rs_missing s).

(** One turn of the loop: the frame at the root, or the next state. *)
Definition resolve_turn (Resolve : heap → ftree → outcome resolved) (s : resolving) (k : Keypath) : outcome (resolved + resolving) :=
  let outer := rs_outer s in
  let! rel := RelativeTo k (keypath outer) in
  let '(parentKeypath, key) := Pop rel in
  let! s :=
    if Equals key ValueKey then
      let! r := make_frame Resolve s k (nilable parentKeypath) in
      let '(h, f, anyMissing) := r in
      let! t := travel_upwards (S (length rel)) h outer f (nilable parentKeypath) in
      match t with
      | (f, None) => Ret (inl (h ++ [with_resolved f (negb anyMissing)], NRef (Fr (length h)), anyMissing))
      | (f, Some pk) =>
          let h := h ++ [f] in
          let! hm := @Set_ _ _ (ops h) h outer pk None (GNode (Fr (length h - 1))) in
          let outer := hm.2 in
          let! it := mdi_SeekTo (over_keypaths (rs_iter s) (keypaths outer)) pk in
          Ret (inr (mkResolving hm.1 outer it (array_after (rs_stale s) (keypaths outer)) anyMissing))
      end
    else Ret (inr s) in
  match s with
  | inl r => Ret (inl r)
  | inr s => let! it := mdi_Next (rs_iter s) in Ret (inr (mkResolving (rs_heap s) (rs_outer s) it (rs_stale s) (rs_missing s)))
  end.

(** [fuel] bounds the turns of the loop and the links that are followed from it. *)
Fixpoint resolve_loop (fuel : nat) (s : resolving) : outcome resolved :=
  match fuel with
  | O => Running
  | S fuel =>
      let '(valid, it) := mi_Valid (rs_iter s) in
      let s := mkResolving (rs_heap s) (rs_outer s) it (rs_stale s) (rs_missing s) in
      if valid then
        match mi_Node it with
        | None => Panic
        | Some k =>
            let! r := resolve_turn
                        (λ h m, let! it := mdi_Rewind (mdi_iter (new_depth_first m [])) in resolve_loop fuel (mkResolving h m it (keypaths m) false)) s k in
            match r with inl r => Ret r | inr s => resolve_loop fuel s end
        end
      else Ret (rs_heap s, NTree (rs_outer s), rs_missing s)
  end.

Definition Resolve (fuel : nat) (h : heap) (outerNode : ftree) : outcome resolved :=
  let! it := mdi_Rewind (mdi_iter (new_depth_first outerNode [])) in
  resolve_loop fuel (mkResolving h outerNode it (keypaths outerNode) false).
End Resolve.

(** ** Reading what [Resolve] returns *)

Definition tnode_Exists (h : heap) (n : tnode) (kp : Keypath) : outcome bool :=
  match n with NTree m => @Exists _ _ (ops h) h m kp | NRef r => @node_Exists _ _ (ops h) h r kp end.

Definition tnode_NodeAt (h : heap) (n : tnode) (kp : Keypath) (rg : option Range) : outcome tnode :=
  match n with
  | NTree m => let! x := @NodeAt _ _ (ops h) h m kp rg in Ret match x with inl m => NTree m | inr r => NRef r end
  | NRef r => Ret (NRef (@node_NodeAt _ _ (ops h) h r kp rg))
  end.

(** [Length]; frames embed it. *)
Fixpoint frame_Length (level : nat) (h : heap) (r : fref) : outcome Z :=
  match level with
  | O => Running
  | S level => on_frame h r (λ m, Ret (Length m)) (frame_Length level h)
  end.
Definition tnode_Length (h : heap) (n : tnode) : outcome Z :=
  match n with NTree m => Ret (Length m) | NRef r => frame_Length (S (length h)) h r end.

(** [GetValueRecursive]: no value is a node. *)
Definition tnode_GetValueRecursive (h : heap) (n : tnode) (kp : Keypath) (rg : option Range) : outcome (option fval) := node_value h n kp rg.

(** [Frame.ContentType] *)
Definition frame_ContentType (h : heap) (id : nat) (f : Frame) : outcome bytes :=
  if decide (f_contentType f ≠ []) then Ret (f_contentType f)
  else if negb (f_fullyResolved f) then Ret (str "application/json")
  else
    let! v := tnode_GetValueRecursive h (NRef (Fr id)) [] None in
    Ret match v with
        | Some (GScalar (SBytes _)) | Some (GNode _) => str "application/octet-stream"
        | Some (GScalar (SString _)) => str "text/plain"
        | _ => str "application/json"
        end.

(** [GetContentType]: frames are [ContentTyper]s, other nodes have the key. *)
Definition tnode_GetContentType (h : heap) (n : tnode) : outcome bytes :=
  match n with
  | NRef (Fr id) => match h !! id with Some f => frame_ContentType h id f | None => Panic end
  | _ =>
      match tnode_GetValueRecursive h n ContentTypeKey None with
      | Ret (Some (GScalar (SString s))) => Ret s
      | Ret _ => Ret (str "application/json")
      | Err e => if decide (e = Err404) then Ret (str "application/json") else Err e
      | Panic => Panic
      | Running => Running
      end
  end.

Definition tnode_GetContentLength (h : heap) (n : tnode) : outcome Z :=
  match n with
  | NRef (Fr id) => match h !! id with Some f => Ret (f_contentLength f) | None => Panic end
  | _ => let! v := tnode_GetValueRecursive h n ContentLengthKey None in match v with Some (GScalar (SInt K64 i)) => Ret i | _ => Ret 0%Z end
  end.

(** A value as JSON shows it: a blob_reader is an open file, which has no exported field. *)
Fixpoint json_view (v : fval) : plain :=
  match v with
  | GScalar s => GScalar s
  | GMap m => GMap ((λ '(k, v), (k, json_view v)) <$> m)
  | GSlice l => GSlice (json_view <$> l)
  | GNode _ => GMap []
  end.

(** [GetReadCloser] *)
Definition fval_reader (v : fval) : option bytes :=
  match v with GScalar (SString s) => Some s | GScalar (SBytes b) => Some b | GNode r => Some (blob_content r) | _ => None end.
