(* ===== verification/FrameProps.v ===== *)
(** * What [Resolve] makes of a tree

    A tree without frames comes back as it is; a tree whose root is a frame becomes a
    [Frame] that has the value under [value] and the content type and length beside it; a
    frame that links to a blob reads the blob if the store has it, and says what is missing
    if not.  Every state that links back to itself is followed for ever. *)

From S2P Require Import Prelude Types Keypath TreeTypes GoValue GoPaths Assemble NodeCodec MemoryNode MemoryProps MemoryIter BadgerTxn DBNode Nelson Frames.

(** ** Values without readers *)

(** A plain value as a value that could hold readers. *)
Fixpoint lift_val (v : plain) : fval :=
  match v with
  | GScalar s => GScalar s
  | GMap m => GMap ((λ '(k, x), (k, lift_val x)) <$> m)
  | GSlice l => GSlice (lift_val <$> l)
  | GNode n => match n with end
  end.

Definition lift_shape {N} (sh : shape Empty_set) : shape N :=
  match sh with ShScalar s => ShScalar s | ShMap => ShMap | ShSlice n => ShSlice n | ShNode n => match n with end end.

Lemma assoc_get_fmap {A B} (g : A → B) k (m : list (bytes * A)) : assoc_get k ((λ '(k, x), (k, g x)) <$> m) = g <$> assoc_get k m.
Proof. induction m as [|[k' x] m IH]; [done|]. cbn [fmap list_fmap assoc_get]. by case_decide. Qed.

Lemma lift_child v q : child (lift_val v) q = lift_val <$> child v q.
Proof.
  destruct v as [s|m|l|[]]; cbn [lift_val child]; [done|apply assoc_get_fmap|]. destruct (index_of q) as [i|]; [|done]. apply list_lookup_fmap.
Qed.

Lemma lift_lookup v ps : lookup_parts (lift_val v) ps = lift_val <$> lookup_parts v ps.
Proof.
  revert v. induction ps as [|q ps IH]; intros v; [done|]. cbn [lookup_parts]. rewrite lift_child. destruct (child v q); [apply IH|done].
Qed.

Lemma lift_val_shape v : shape_of (lift_val v) = lift_shape (shape_of v).
Proof. destruct v as [s|m|l|[]]; [done..|]. cbn. by rewrite length_fmap. Qed.

(** ** Reading a tree that holds no frame *)

(** The subtree at [p] is the plain value [v]. *)
Definition holds (n : ftree) (p : Keypath) (v : plain) : Prop := ∀ r, node_shape n (Push p r) = lift_shape <$> shape_at v (path_parts r).

(** What reading needs of a tree; copies of subtrees have it too. *)
Record readable (n : ftree) : Prop := {
  rd_sorted : StronglySorted bytes_lt (keypaths n);
  rd_min : Forall sep_min (keypaths n);
  rd_good : Forall good_path (keypaths n);
  rd_shape k : is_Some (node_shape n k) ↔ k ∈ keypaths n
}.

Lemma wf_readable n : mem_wf n → readable n.
Proof. intros Hwf. split; [apply Hwf..|]. intros k. by apply node_shape_Some. Qed.

Lemma copy_readable n : mem_wf n → readable (makeCopy n).
Proof.
  intros Hwf. pose proof (makeCopy_keypaths n Hwf) as Hk. split; rewrite ?Hk.
  - apply StronglySorted_filter, Hwf.
  - apply Forall_filter, Hwf.
  - apply Forall_filter, Hwf.
  - intros k. rewrite makeCopy_shape, list_elem_of_filter, <- node_shape_Some by done. case_decide; [tauto|]. split; [by intros []|tauto].
Qed.

Section Reading.
Context (inner : fref → Keypath → option Range → outcome (option fval)).
Context (n : ftree) (p : Keypath) (v : plain) (Hwf : readable n) (Hrep : holds n p v) (Hv : addressable v).

Lemma held_positions k :
  k ∈ filter (below p) (keypaths n) ↔ ∃ ps, Forall good_key ps ∧ k = Push p (join_sep ps) ∧ is_Some (lookup_parts (lift_val v) ps).
Proof using Hwf Hrep.
  rewrite list_elem_of_filter. split.
  - intros [Hb Hin]. pose proof (rd_good n Hwf) as Hg. rewrite Forall_forall in Hg. specialize (Hg k Hin).
    apply StartsWith_Push_iff in Hb as (r & Hr & ->); [|done]. exists (path_parts r). rewrite join_path_parts. split; [done|]. split; [done|].
    apply (rd_shape n Hwf) in Hin. rewrite Hrep in Hin. unfold shape_at in Hin. rewrite !fmap_is_Some in Hin.
    by rewrite lift_lookup, fmap_is_Some.
  - intros (ps & Hg & -> & Hs). split; [apply StartsWith_Push|]. apply (rd_shape n Hwf).
    rewrite lift_lookup, fmap_is_Some in Hs. rewrite Hrep, path_parts_join by done. unfold shape_at. by rewrite !fmap_is_Some.
Qed.

(** What is stored at a keypath, given its shape. *)
Lemma held_at r w : lookup_parts v (path_parts r) = Some w →
  match w with
  | GScalar s => nodeTypes n !! Push p r = Some NodeTypeValue ∧ values n !! Push p r = Some (MV s)
  | GMap _ => nodeTypes n !! Push p r = Some NodeTypeMap
  | GSlice l => nodeTypes n !! Push p r = Some NodeTypeSlice ∧ Z.to_nat (content_length n (Push p r)) = length l
  | GNode _ => False
  end.
Proof using Hrep.
  intros Hw. pose proof (Hrep r) as Hs. unfold shape_at in Hs. rewrite Hw in Hs. cbn in Hs. unfold node_shape in Hs.
  destruct (nodeTypes n !! Push p r) as [[]|], w as [s|m|l|[]]; cbn in Hs; simplify_eq/=; try done;
    destruct (values n !! Push p r) as [[]|]; simplify_eq/=; done.
Qed.

Lemma ffill_step_value m ps w i :
  Forall good_key ps → ps ≠ [] → lookup_parts v ps = Some w →
  ffill_step inner n p m (Push p (join_sep ps)) i = setValueAtKeypath m (join_sep ps) (hollow (lift_val w)) false.
Proof using Hwf Hrep.
  intros Hg Hne Hw. unfold ffill_step. rewrite RelativeTo_Push by (by apply good_path_head, good_path_join). cbn [obind].
  pose proof (join_nonempty ps Hne Hg) as Hj. rewrite decide_False by (by destruct (join_sep ps)).
  rewrite <- (path_parts_join ps Hg) in Hw. pose proof (held_at _ _ Hw) as Ha. unfold node_type, value_at.
  destruct w as [s|m'|l|[]]; [destruct Ha as [-> ->]|rewrite Ha|destruct Ha as [-> Hl]]; cbn; [done..|].
  by rewrite Hl, length_fmap.
Qed.

Lemma ffill_scan : ∃ m, scanKeypathsWithPrefix (ffill_step inner n p) n p None (hollow (lift_val v)) = Ret (m, None) ∧ goval_equiv m (lift_val v).
Proof using Hwf Hrep Hv.
  destruct (subtree_run p (keypaths n)) as (l1 & l2 & l3 & Hks & H1 & H2 & H3); [apply Hwf..|].
  unfold scanKeypathsWithPrefix. rewrite Hks, scan_prefix_run by done.
  assert (l2 = filter (below p) (keypaths n)) as -> by (rewrite Hks; symmetry; by apply filter_run).
  destruct (assemble_run p (lift_val v) (filter (below p) (keypaths n))) with (step := λ m k, ffill_step inner n p m k 0)
    (built := λ m : fval, m) (dn := @nil Keypath) (todo := filter (below p) (keypaths n)) (s := hollow (lift_val v))
    as (m & Hm & Heq); [apply StronglySorted_filter, Hwf|apply held_positions| | | |done|apply filled_start|].
  - intros ps w. rewrite lift_lookup. destruct (lookup_parts v ps) as [w'|] eqn:Hw; [|done]. intros _. by apply (lookup_parts_good v w').
  - intros m. exists m. unfold ffill_step. by rewrite RelativeTo_self.
  - intros m ps w m' Hg Hne. rewrite lift_lookup. destruct (lookup_parts v ps) as [w'|] eqn:Hw; [|done]. intros [= <-] Hm. exists m'.
    by rewrite (ffill_step_value m ps w' 0).
  - exists m. split; [|done]. by eapply scan_positions_fold; [|exact Hm].
Qed.

Lemma tree_Value_held kp : rng n = None → p = Push (keypath n) kp → ∃ w, tree_Value inner n kp None = Ret (Some w) ∧ goval_equiv w (lift_val v).
Proof using Hwf Hrep Hv.
  intros Hr Hp. unfold tree_Value. rewrite <- Hp, Hr. cbn [merge_range obind negb].
  pose proof (held_at [] v eq_refl) as Ha. rewrite Push_nil_r in Ha. destruct ffill_scan as (m & Hm & Heq). unfold node_type. clear Hp Hrep Hv.
  destruct v as [s|m'|l|[]]; [destruct Ha as [-> Hval]|rewrite Ha|destruct Ha as [-> Hl]]; cbn.
  - rewrite Hval. by eexists.
  - cbn in Hm. rewrite Hm. cbn. by eexists.
  - cbn in Hm. rewrite length_fmap in Hm. rewrite Hl, Hm. cbn. by eexists.
Qed.
End Reading.

(** ** Trees from the state tree *)

Section Lift.
Context (t : MemoryNode Empty_set) (Hwf : mem_wf t).

Lemma lift_tree_shape k : node_shape (lift_tree t) k = lift_shape <$> node_shape t k.
Proof.
  unfold node_shape, content_length. cbn [lift_tree nodeTypes values contentLengths]. rewrite lookup_fmap.
  destruct (nodeTypes t !! k) as [[]|]; [done| |done..| |done]; by destruct (values t !! k) as [[|[]]|].
Qed.

Lemma lift_tree_wf : mem_wf (lift_tree t).
Proof using Hwf.
  split; cbn [lift_tree keypaths nodeTypes values contentLengths]; try apply Hwf.
  - intros k. rewrite lookup_fmap, fmap_is_Some. apply Hwf.
  - intros k [s Hs]%(wf_scalar t Hwf). exists s. by rewrite lookup_fmap, Hs.
  - intros k [[] _]%(wf_node t Hwf).
Qed.

Lemma lift_tree_no_nodes : no_nodes (lift_tree t).
Proof using Hwf. intros k Hk. by destruct (wf_node t Hwf k Hk) as [[] _]. Qed.

Lemma lift_tree_holds v : represents t [] v → holds (lift_tree t) [] v.
Proof. intros Hr r. by rewrite lift_tree_shape, Hr. Qed.
End Lift.

(** ** Passing over what is no frame *)

Definition frame_key (k : Keypath) : bool := Equals (Pop k).2 ValueKey.

(** The depth-first iterator at [x], with [dn] still to come. *)
Definition at_back (it : memoryIterator) (dn : list Keypath) (x : Keypath) (todo : list Keypath) : Prop :=
  mi_keypaths it = dn ++ x :: todo ∧ mi_range it = Some (Z.of_nat (length (dn ++ x :: todo)), 0%Z) ∧
  mi_i it = Z.of_nat (length dn) ∧ mi_done it = false ∧ mi_keypath it = x.

Lemma back_rewind (n : ftree) dn x :
  keypath n = [] → keypaths n = dn ++ [x] → ∃ it, mdi_Rewind (mdi_iter (new_depth_first n [])) = Ret it ∧ at_back it dn x [].
Proof.
  intros Hk Hks. unfold new_depth_first, new_iterator, mdi_Rewind, findPrefixRange, move_to. rewrite Hk, Hks. simpl.
  replace (Z.of_nat (length (dn ++ [x])) - 1)%Z with (Z.of_nat (length dn)) by (rewrite length_app; simpl; lia). rewrite index_app. simpl.
  eexists. split; [done|]. done.
Qed.

Lemma back_next it dn x todo :
  at_back it dn x todo → ∃ it', mdi_Next it = Ret it' ∧
    match last dn with None => mi_done it' = true | Some y => at_back it' (removelast dn) y (x :: todo) end.
Proof.
  intros (Hk & Hr & Hi & Hd & Hx). unfold mdi_Next. rewrite Hr, Hd, Hi. destruct dn as [|y dn _] using rev_ind.
  - eexists. split; [done|]. done.
  - rewrite last_snoc, removelast_last, decide_False by (rewrite length_app; simpl; lia). unfold move_to. rewrite Hk, <- (assoc_L (++)).
    replace (Z.of_nat (length (dn ++ [y])) - 1)%Z with (Z.of_nat (length dn)) by (rewrite length_app; simpl; lia). simpl. rewrite index_app.
    simpl. eexists. split; [done|]. unfold at_back. simpl. by rewrite Hr, <- (assoc_L (++)).
Qed.

Section Walk.
Context {T : Type} `{BadgerTxn T}.
Context (SAV : bytes → option ID → outcome (DBNode T)) (ROR : RefID → outcome (option (blob_reader * Z))).

Lemma skip_turn rec h n it stale b x dn todo :
  keypath n = [] → good_path x → frame_key x = false → at_back it dn x todo →
  ∃ it', resolve_turn SAV ROR rec (mkResolving h n it stale b) x = Ret (inr (mkResolving h n it' stale b)) ∧
    match last dn with None => mi_done it' = true | Some y => at_back it' (removelast dn) y (x :: todo) end.
Proof.
  intros Hn Hg Hf Hat. destruct (back_next it dn x todo Hat) as (it' & Hnext & Hm). exists it'. split; [|done].
  unfold resolve_turn. cbn [rs_outer]. rewrite Hn. rewrite <- (Push_nil_l x) at 1. rewrite RelativeTo_Push by (by apply good_path_head).
  cbn [obind]. unfold frame_key in Hf. destruct (Pop x) as [par key]. cbn [snd] in Hf. rewrite Hf. cbn [obind rs_iter rs_heap rs_outer rs_stale rs_missing]. by rewrite Hnext.
Qed.

(** What the loop does at a keypath. *)
Lemma loop_at fuel h n it stale b dn x todo : at_back it dn x todo →
  resolve_loop SAV ROR (S fuel) (mkResolving h n it stale b) =
    (let! r := resolve_turn SAV ROR (λ h m, Resolve SAV ROR fuel h m) (mkResolving h n it stale b) x in
     match r with inl r => Ret r | inr s => resolve_loop SAV ROR fuel s end).
Proof.
  intros (Hk & Hr & Hi & Hd & Hx). cbn [resolve_loop]. unfold mi_Valid. cbn [rs_iter]. rewrite Hr, Hd. cbn [negb rs_heap rs_outer rs_stale rs_missing].
  unfold mi_Node. rewrite decide_False by (rewrite Hd, Hr; by intros [?|?]). by rewrite Hx.
Qed.

(** The loop at the last keypath that is a frame's, or at its end. *)
Lemma skip_frameless todo2 : ∀ fuel h n it stale b dn x todo,
  keypath n = [] → Forall good_path (todo2 ++ [x]) → Forall (λ k, frame_key k = false) (todo2 ++ [x]) → at_back it (dn ++ todo2) x todo →
  ∃ it', resolve_loop SAV ROR (S (length todo2) + fuel) (mkResolving h n it stale b) = resolve_loop SAV ROR fuel (mkResolving h n it' stale b) ∧
    match last dn with None => mi_done it' = true | Some y => at_back it' (removelast dn) y (todo2 ++ x :: todo) end.
Proof.
  induction todo2 as [|y todo2 IH] using rev_ind; intros fuel h n it stale b dn x todo Hn Hg Hf Hat.
  - rewrite app_nil_r in Hat. cbn [app] in *. apply Forall_cons in Hg as [Hg _], Hf as [Hf _]. cbn [length Nat.add]. rewrite (loop_at _ _ _ _ _ _ _ _ _ Hat).
    edestruct (skip_turn) as (it' & -> & Hm); [exact Hn|exact Hg|exact Hf|exact Hat|]. cbn [obind]. by exists it'.
  - apply Forall_app in Hg as [Hg Hgx], Hf as [Hf Hfx]. apply Forall_cons in Hgx as [Hgx _], Hfx as [Hfx _].
    replace (S (length (todo2 ++ [y])) + fuel) with (S (S (length todo2) + fuel)) by (rewrite length_app; cbn; lia). rewrite (loop_at _ _ _ _ _ _ _ _ _ Hat).
    edestruct (skip_turn) as (it1 & -> & Hm); [exact Hn|exact Hgx|exact Hfx|exact Hat|]. cbn [obind].
    rewrite (assoc_L (++)), last_snoc, removelast_last in Hm. destruct (IH fuel h n it1 stale b dn y (x :: todo) Hn Hg Hf Hm) as (it' & Heq & Hm').
    exists it'. split; [exact Heq|]. by rewrite <- (assoc_L (++)).
Qed.
(** With less fuel the loop does not get there. *)
Lemma skip_short todo2 : ∀ fuel h n it stale b dn x todo,
  keypath n = [] → Forall good_path (todo2 ++ [x]) → Forall (λ k, frame_key k = false) (todo2 ++ [x]) → at_back it (dn ++ todo2) x todo →
  fuel ≤ length todo2 → resolve_loop SAV ROR fuel (mkResolving h n it stale b) = Running.
Proof.
  induction todo2 as [|y todo2 IH] using rev_ind; intros [|fuel] h n it stale b dn x todo Hn Hg Hf Hat Hle; try done; [simpl in Hle; lia|].
  apply Forall_app in Hg as [Hg Hgx], Hf as [Hf Hfx]. apply Forall_cons in Hgx as [Hgx _], Hfx as [Hfx _].
  rewrite (loop_at _ _ _ _ _ _ _ _ _ Hat). edestruct (skip_turn) as (it1 & -> & Hm); [exact Hn|exact Hgx|exact Hfx|exact Hat|]. cbn [obind].
  rewrite (assoc_L (++)), last_snoc, removelast_last in Hm. eapply IH; [exact Hn|exact Hg|exact Hf|exact Hm|]. rewrite length_app in Hle. simpl in Hle. lia.
Qed.

Lemma resolve_end fuel s : mi_done (rs_iter s) = true → resolve_loop SAV ROR (S fuel) s = Ret (rs_heap s, NTree (rs_outer s), rs_missing s).
Proof.
  intros Hd. cbn [resolve_loop]. pose proof (done_valid _ Hd) as Hv. destruct (mi_Valid (rs_iter s)) as [b it]. cbn [fst] in Hv. by subst b.
Qed.
End Walk.

(** ** Theorems *)

Section Theorems.
Context {T : Type} `{BadgerTxn T}.
Context (SAV : bytes → option ID → outcome (DBNode T)) (ROR : RefID → outcome (option (blob_reader * Z))).

(** What the theorems are about: a tree of its own that holds [v]. *)
Record holder (t : MemoryNode Empty_set) (v : plain) : Prop := {
  hd_wf : mem_wf t;
  hd_plain : plain_handle t;
  hd_root : keypath t = [];
  hd_rep : represents t [] v;
  hd_addr : addressable v
}.

Lemma holder_nonempty t v : holder t v → keypaths t ≠ [].
Proof.
  intros [Hwf _ _ Hr _] Hn. assert (is_Some (node_shape t [])) as Hs by (rewrite <- (Push_nil_l []), Hr; by eexists).
  apply node_shape_Some in Hs; [|done]. rewrite Hn in Hs. by apply not_elem_of_nil in Hs.
Qed.

Lemma frameless_resolves t v h fuel :
  holder t v → Forall (λ k, frame_key k = false) (keypaths t) → length (keypaths t) < fuel →
  Resolve SAV ROR fuel h (lift_tree t) = Ret (h, NTree (lift_tree t), false) ∧
  ∃ w, node_value h (NTree (lift_tree t)) [] None = Ret (Some w) ∧ goval_equiv w (lift_val v).
Proof.
  intros Hh Hf Hfuel. pose proof Hh as [Hwf [Hrng Hc] Hk Hrep Ha]. destruct (exists_last (holder_nonempty t v Hh)) as (ks & x & Hks). split.
  - unfold Resolve. destruct (back_rewind (lift_tree t) ks x) as (it & -> & Hat); [done|done|]. cbn [obind].
    destruct (skip_frameless SAV ROR ks (fuel - S (length ks)) h (lift_tree t) it (keypaths t) false [] x []) as (it' & Heq & Hd);
      [done|rewrite <- Hks; apply Hwf|by rewrite <- Hks|exact Hat|].
    rewrite Hks, length_app in Hfuel. simpl in Hfuel. cbn [lift_tree keypaths].
    replace fuel with (S (length ks) + (fuel - S (length ks))) by lia. rewrite Heq.
    replace (fuel - S (length ks)) with (S (fuel - S (S (length ks)))) by lia. by rewrite resolve_end.
  - unfold node_value. rewrite delegate_local by (by apply no_nodes_local, lift_tree_no_nodes).
    apply (tree_Value_held _ _ []); [by apply wf_readable, lift_tree_wf|by apply lift_tree_holds|done|done|]. cbn. by rewrite Hk.
Qed.

(** *** A frame at the root *)

(** [value] and after it, nothing that is a frame's: the keypaths before it are never seen. *)
Definition root_frame (t : MemoryNode Empty_set) : Prop := ∀ k, k ∈ keypaths t → bytes_lt ValueKey k → frame_key k = false.

Lemma value_key_good : Forall good_key [ValueKey].
Proof. repeat constructor; [discriminate|vm_decide]. Qed.

Lemma value_split t v y : holder t v → root_frame t → child v ValueKey = Some y →
  ∃ dn todo, keypaths t = dn ++ ValueKey :: todo ∧ Forall (λ k, frame_key k = false) todo.
Proof.
  intros Hh Hf Hy. pose proof Hh as [Hwf _ _ Hrep _].
  assert (ValueKey ∈ keypaths t) as Hin.
  { apply node_shape_Some; [done|]. rewrite <- (Push_nil_l ValueKey), Hrep. change (path_parts ValueKey) with [ValueKey].
    unfold shape_at. cbn [lookup_parts]. rewrite Hy. by eexists. }
  apply list_elem_of_split in Hin as (dn & todo & Hks). exists dn, todo. split; [done|]. apply Forall_forall. intros k Hk. apply Hf.
  - rewrite Hks. set_solver.
  - pose proof (wf_sorted t Hwf) as Hs. rewrite Hks in Hs. apply StronglySorted_app in Hs as (_ & _ & Hs). apply StronglySorted_inv in Hs as [_ Hs].
    rewrite Forall_forall in Hs. by apply Hs.
Qed.

(** What is beside [value]. *)
Lemma beside_value t v key : holder t v → good_key key →
  match child v key with
  | Some (GScalar s) => values (lift_tree t) !! key = Some (MV s)
  | Some _ => True
  | None => values (lift_tree t) !! key = None
  end.
Proof.
  intros [Hwf Hp Hk Hrep _] Hg. pose proof (lift_tree_holds t v Hrep) as Hh.
  assert (path_parts key = [key]) as Hpp by (by apply path_parts_good). destruct (child v key) as [w|] eqn:Hc.
  - assert (lookup_parts v (path_parts key) = Some w) as Hw by (rewrite Hpp; cbn [lookup_parts]; by rewrite Hc).
    pose proof (held_at (lift_tree t) [] v Hh key w Hw) as Hat. rewrite Push_nil_l in Hat. destruct w; [apply Hat|done..].
  - apply eq_None_not_Some. intros Hs%(wf_values _ (lift_tree_wf t Hwf)). apply node_shape_Some in Hs; [|by apply lift_tree_wf].
    rewrite <- (Push_nil_l key), Hh, Hpp in Hs. unfold shape_at in Hs. cbn [lookup_parts] in Hs. rewrite Hc in Hs. by destruct Hs.
Qed.

Section RootFrame.
Context (t : MemoryNode Empty_set) (v y : plain) (ct : option bytes) (cl : option Z).
Context (Hh : holder t v) (Hf : root_frame t) (Hy : child v ValueKey = Some y).
Context (Hct : child v ContentTypeKey = (λ s, GScalar (SString s)) <$> ct) (Hcl : child v ContentLengthKey = (λ i, GScalar (SInt K64 i)) <$> cl).

Lemma content_type_read h : @StringValue _ _ (ops h) h (lift_tree t) ContentTypeKey = Ret ct.
Proof using Hh Hct.
  unfold StringValue. rewrite delegate_local by (apply no_nodes_local, lift_tree_no_nodes, Hh). cbn [lift_tree keypath]. rewrite (hd_root _ _ Hh), Push_nil_l.
  pose proof (beside_value t v ContentTypeKey Hh ltac:(split; [discriminate|vm_decide])) as Hb. rewrite Hct in Hb. cbn [lift_tree values] in *.
  destruct ct; cbn [fmap option_fmap option_map] in Hb; by rewrite Hb.
Qed.

Lemma content_length_read h : @IntValue _ _ (ops h) h (lift_tree t) ContentLengthKey = Ret cl.
Proof using Hh Hcl.
  unfold IntValue. rewrite delegate_local by (apply no_nodes_local, lift_tree_no_nodes, Hh). cbn [lift_tree keypath]. rewrite (hd_root _ _ Hh), Push_nil_l.
  pose proof (beside_value t v ContentLengthKey Hh ltac:(split; [discriminate|vm_decide])) as Hb. rewrite Hcl in Hb. cbn [lift_tree values] in *.
  destruct cl; cbn [fmap option_fmap option_map] in Hb; by rewrite Hb.
Qed.

(** The innermost content length and type; [link] is not one. *)
Definition described (f : Frame) : Frame :=
  let f := if decide (f_contentLength f = 0)%Z then with_length f (default (f_contentLength f) cl) else f in
  if decide (f_contentType f = []) then (if decide (default [] ct ≠ str "link") then with_type f (default [] ct) else f) else f.

Lemma travel_root h fuel f : travel_upwards (S fuel) h (lift_tree t) f [] = Ret (described f, None).
Proof using Hh Hct Hcl.
  cbn [travel_upwards]. rewrite !Push_nil_l, content_length_read, content_type_read. cbn [or_404 obind]. unfold described.
  destruct f as [nd fct fcl ov res er]; cbn [f_contentLength f_contentType with_length with_type f_Node f_overrideValue f_fullyResolved f_err].
  repeat case_decide; destruct cl; cbn in *; try done; by repeat case_decide.
Qed.

Definition value_copy : ftree := makeCopy (mkMemoryNode ValueKey None (keypaths t) (values (lift_tree t)) (nodeTypes t) (contentLengths t) false None).

Lemma reach_value : ∃ before, before < length (keypaths t) ∧ ∀ h fuel,
  (fuel ≤ before → Resolve SAV ROR fuel h (lift_tree t) = Running) ∧
  (before < fuel → ∃ it n dn rest, n < fuel ∧ at_back it dn ValueKey rest ∧
     Resolve SAV ROR fuel h (lift_tree t) = resolve_loop SAV ROR (S n) (mkResolving h (lift_tree t) it (keypaths t) false)).
Proof using Hh Hf Hy.
  destruct (value_split t v y Hh Hf Hy) as (dn & todo & Hks & Htodo). pose proof Hh as [Hwf _ Hk _ _].
  exists (length todo). split; [rewrite Hks, length_app; simpl; lia|]. intros h fuel. unfold Resolve. destruct todo as [|k todo _] using rev_ind.
  - destruct (back_rewind (lift_tree t) dn ValueKey Hk Hks) as (it & -> & Hat). cbn [obind]. split; [intros Hle; by assert (fuel = 0) as -> by (simpl in Hle; lia)|].
    intros Hlt. exists it, (pred fuel), dn, []. simpl in Hlt. split; [lia|]. split; [done|]. by replace (S (pred fuel)) with fuel by lia.
  - destruct (back_rewind (lift_tree t) (dn ++ ValueKey :: todo) k Hk) as (it & -> & Hat); [cbn [lift_tree keypaths]; by rewrite Hks, <- (assoc_L (++))|].
    assert (Forall good_path (todo ++ [k])) as Hg by (pose proof (wf_good t Hwf) as Hg; rewrite Hks in Hg; apply Forall_app in Hg as [_ Hg]; by apply Forall_cons in Hg as [_ Hg]).
    rewrite (cons_middle ValueKey dn todo), (assoc_L (++)) in Hat. rewrite length_app. cbn [length obind]. split.
    + intros Hle. destruct (decide (fuel ≤ length todo)) as [Hle'|Hgt]; [by eapply (skip_short SAV ROR todo)|].
      edestruct (skip_frameless SAV ROR todo 0 h (lift_tree t) it (keypaths (lift_tree t)) false (dn ++ [ValueKey]) k []) as (it' & Heq & _); [done..|].
      replace fuel with (S (length todo) + 0) by lia. by rewrite Heq.
    + intros Hlt. edestruct (skip_frameless SAV ROR todo (S (fuel - length todo - 2)) h (lift_tree t) it (keypaths (lift_tree t)) false (dn ++ [ValueKey]) k [])
        as (it' & Heq & Hat'); [done..|]. rewrite last_snoc, removelast_last in Hat'. exists it', (fuel - length todo - 2), dn, (todo ++ [k]).
      split; [lia|]. split; [done|]. etransitivity; [|exact Heq]. f_equal. lia.
Qed.

(** The turn at [value], given the frame. *)
Lemma value_turn rec h it :
  resolve_turn SAV ROR rec (mkResolving h (lift_tree t) it (keypaths t) false) ValueKey =
    (let! r := make_frame SAV ROR rec (mkResolving h (lift_tree t) it (keypaths t) false) ValueKey [] in
     let '(h1, f, b) := r in Ret (inl (h1 ++ [with_resolved (described f) (negb b)], NRef (Fr (length h1)), b))).
Proof using Hh Hct Hcl.
  unfold resolve_turn. cbn [rs_outer lift_tree keypath]. rewrite (hd_root _ _ Hh).
  change (RelativeTo ValueKey []) with (Ret ValueKey). cbn [obind]. change (Pop ValueKey) with (@None Keypath, ValueKey). change (Equals ValueKey ValueKey) with true.
  cbn [nilable default]. fold (lift_tree t). destruct (make_frame _ _ _ _ _ _) as [[[h1 f] b]| | |]; cbn [obind]; [|done..]. by rewrite travel_root.
Qed.

Lemma resolve_root h fuel h1 f b :
  length (keypaths t) < fuel →
  (∀ rec it, make_frame SAV ROR rec (mkResolving h (lift_tree t) it (keypaths t) false) ValueKey [] = Ret (h1, f, b)) →
  Resolve SAV ROR fuel h (lift_tree t) = Ret (h1 ++ [with_resolved (described f) (negb b)], NRef (Fr (length h1)), b).
Proof using All.
  intros Hfuel Hmake. destruct reach_value as (before & Hb & Hreach). destruct (Hreach h fuel) as [_ Hr].
  destruct Hr as (it & n & dn & rest & _ & Hat & ->); [lia|]. rewrite (loop_at _ _ _ _ _ _ _ _ _ _ _ Hat), value_turn, Hmake. reflexivity.
Qed.

(** *** What the frame holds *)

Lemma value_copy_made it h : CopyToMemory (iter_node (rs_outer (mkResolving h (lift_tree t) it (keypaths t) false)) (keypaths t) ValueKey) [] None = Ret value_copy.
Proof using Type. reflexivity. Qed.

Lemma copy_wf : mem_wf (mkMemoryNode ValueKey None (keypaths t) (values (lift_tree t)) (nodeTypes t) (contentLengths t) false None).
Proof using Hh. destruct (lift_tree_wf t (hd_wf _ _ Hh)). by split. Qed.

Lemma value_copy_frame : keypath value_copy = ValueKey ∧ rng value_copy = None.
Proof using Type. unfold value_copy, makeCopy. destruct (if decide _ then _ else _). by destruct (foldl _ _ _) as [[? ?] ?]. Qed.

Lemma value_copy_holds : holds value_copy ValueKey y.
Proof using Hh Hy.
  intros r. unfold value_copy. rewrite makeCopy_shape by apply copy_wf. cbn [keypath]. rewrite decide_True by apply StartsWith_Push.
  transitivity (node_shape (lift_tree t) (Push ValueKey r)); [done|]. rewrite (lift_tree_shape t), <- (Push_nil_l (Push ValueKey r)), (hd_rep _ _ Hh).
  rewrite path_parts_Push. change (path_parts ValueKey) with [ValueKey]. unfold shape_at. cbn [app lookup_parts]. by rewrite Hy.
Qed.

Lemma value_addressable : addressable y.
Proof using Hh Hy. by destruct (addressable_child v y ValueKey (hd_addr _ _ Hh) Hy). Qed.

Lemma frame_reads h f :
  f_Node f = InMem value_copy → f_overrideValue f = None →
  ∃ w, node_value (h ++ [f]) (NRef (Fr (length h))) [] None = Ret (Some w) ∧ goval_equiv w (lift_val y).
Proof using Hh Hy.
  intros Hn Ho. unfold node_value, inner_Value. cbn [frame_level snd]. unfold frame_Value. rewrite list_lookup_middle by done. rewrite Ho, Hn.
  rewrite delegate_local by done. apply (tree_Value_held _ _ ValueKey); [apply copy_readable, copy_wf|apply value_copy_holds|apply value_addressable|apply value_copy_frame|].
  by rewrite (proj1 value_copy_frame).
Qed.

Lemma link_string h s : y = GScalar (SString s) → @StringValue _ _ (ops h) h value_copy [] = Ret (Some s).
Proof using Hh Hy.
  intros Hys. unfold StringValue. rewrite delegate_local by done. rewrite (proj1 value_copy_frame).
  pose proof (held_at value_copy ValueKey y value_copy_holds [] y eq_refl) as Ha. rewrite Hys in Ha. destruct Ha as [_ ->]. done.
Qed.

Lemma plain_frame h rec it : ct ≠ Some (str "link") →
  make_frame SAV ROR rec (mkResolving h (lift_tree t) it (keypaths t) false) ValueKey [] = Ret (h, mkFrame (InMem value_copy) [] 0 None false None, false).
Proof using Hh Hct.
  intros Hl. unfold make_frame. cbn [rs_heap rs_outer rs_stale rs_missing]. change (Push [] ContentTypeKey) with ContentTypeKey.
  rewrite content_type_read. cbn [or_404]. change (CopyToMemory (iter_node (lift_tree t) (keypaths t) ValueKey) [] None) with (Ret value_copy). cbn [obind].
  by rewrite decide_False.
Qed.

Lemma ref_link_type link : DetermineLinkType (str "ref:" ++ link) = (LinkTypeRef, link).
Proof using Type. unfold DetermineLinkType. by rewrite has_prefix_app, drop_app_length. Qed.

Lemma blob_frame h rec it link ref : ct = Some (str "link") → y = GScalar (SString (str "ref:" ++ link)) →
  RefID_UnmarshalText (mkRefID HashAlgUnknown EmptyHash) link = Ret ref →
  make_frame SAV ROR rec (mkResolving h (lift_tree t) it (keypaths t) false) ValueKey [] =
    let f := mkFrame (InMem value_copy) [] 0 None false None in
    match ROR ref with
    | Ret (Some (rd, len)) => Ret (h, with_resolved (with_length (with_override f rd) len) true, false)
    | Ret None => Ret (h, with_resolved (with_err f (Some Err404)) false, true)
    | Err e => Ret (h, with_resolved (with_err f (Some e)) false, true)
    | Panic => Panic
    | Running => Running
    end.
Proof using Hh Hct Hy.
  intros Hl Hlink Href. unfold make_frame. cbn [rs_heap rs_outer rs_stale rs_missing]. change (Push [] ContentTypeKey) with ContentTypeKey.
  rewrite content_type_read. cbn [or_404]. change (CopyToMemory (iter_node (lift_tree t) (keypaths t) ValueKey) [] None) with (Ret value_copy). cbn [obind].
  rewrite decide_True by done. rewrite (link_string h _ Hlink). change (default [] (Some (str "ref:" ++ link))) with (str "ref:" ++ link). unfold resolveLink. rewrite ref_link_type.
  rewrite Href. cbn [or_link]. by destruct (ROR ref) as [[[rd len]|]|e| |].
Qed.
End RootFrame.

(** [link] is no content type. *)
Lemma described_link cl f : f_contentType f = [] →
  described (Some (str "link")) cl f = if decide (f_contentLength f = 0)%Z then with_length f (default (f_contentLength f) cl) else f.
Proof.
  intros Hc. unfold described. change (default [] (Some (str "link"))) with (str "link"). rewrite (decide_False (P := str "link" ≠ str "link")) by (intros Hn; by apply Hn).
  destruct (decide (f_contentLength f = 0)%Z); cbn [with_length f_contentType]; by case_decide.
Qed.

(** [Resolve] of a tree that holds a value without frames returns that tree, with nothing
    missing, and reading it gives the value. *)
Theorem resolve_frameless t v h fuel :
  holder t v → Forall (λ k, frame_key k = false) (keypaths t) → length (keypaths t) < fuel →
  Resolve SAV ROR fuel h (lift_tree t) = Ret (h, NTree (lift_tree t), false) ∧
  ∃ w, node_value h (NTree (lift_tree t)) [] None = Ret (Some w) ∧ goval_equiv w (lift_val v).
Proof. apply frameless_resolves. Qed.

(** [Resolve] of a tree whose root is a frame that is no link returns one new frame with the
    content type and length written in the tree (nothing and zero where there are none), and
    reading that frame gives the value under [value]. *)
Theorem resolve_root_frame t v y ct cl h fuel :
  holder t v → root_frame t → length (keypaths t) < fuel →
  child v ValueKey = Some y → child v ContentTypeKey = (λ s, GScalar (SString s)) <$> ct → child v ContentLengthKey = (λ i, GScalar (SInt K64 i)) <$> cl →
  ct ≠ Some (str "link") →
  ∃ f, Resolve SAV ROR fuel h (lift_tree t) = Ret (h ++ [f], NRef (Fr (length h)), false) ∧
    f_contentType f = default [] ct ∧ f_contentLength f = default 0%Z cl ∧ f_fullyResolved f = true ∧ f_err f = None ∧
    ∃ w, node_value (h ++ [f]) (NRef (Fr (length h))) [] None = Ret (Some w) ∧ goval_equiv w (lift_val y).
Proof.
  intros Hh Hf Hfuel Hy Hct Hcl Hl. eexists. split; [eapply resolve_root; [done..|]; intros rec it; by eapply plain_frame|].
  assert (default [] ct ≠ str "link") as Hl' by (destruct ct; [|done]; intros Heq; apply Hl; by f_equal).
  unfold described. cbn [f_contentLength f_contentType]. rewrite !decide_True by done. split_and!; try done.
  by apply (frame_reads t v y).
Qed.

(** [Resolve] of a frame that links to a blob: when the blob is there the frame reads as it,
    whatever keypath and range are asked for, and has its length; when it is missing or the
    store fails, [Resolve] still succeeds, says that something is missing, and the error is
    kept in the frame. *)
Theorem resolve_blob_link t v cl h fuel link ref :
  holder t v → root_frame t → length (keypaths t) < fuel →
  child v ValueKey = Some (GScalar (SString (str "ref:" ++ link))) → child v ContentTypeKey = Some (GScalar (SString (str "link"))) →
  child v ContentLengthKey = (λ i, GScalar (SInt K64 i)) <$> cl →
  RefID_UnmarshalText (mkRefID HashAlgUnknown EmptyHash) link = Ret ref →
  match ROR ref with
  | Ret (Some (rd, len)) =>
      ∃ f, Resolve SAV ROR fuel h (lift_tree t) = Ret (h ++ [f], NRef (Fr (length h)), false) ∧
        f_contentType f = [] ∧ f_contentLength f = (if decide (len = 0)%Z then default 0%Z cl else len) ∧ f_fullyResolved f = true ∧
        ∀ kp rg, node_value (h ++ [f]) (NRef (Fr (length h))) kp rg = Ret (Some (GNode rd))
  | Ret None =>
      ∃ f, Resolve SAV ROR fuel h (lift_tree t) = Ret (h ++ [f], NRef (Fr (length h)), true) ∧ f_err f = Some Err404 ∧ f_fullyResolved f = false
  | Err e =>
      ∃ f, Resolve SAV ROR fuel h (lift_tree t) = Ret (h ++ [f], NRef (Fr (length h)), true) ∧ f_err f = Some e ∧ f_fullyResolved f = false
  | _ => True
  end.
Proof.
  intros Hh Hf Hfuel Hy Hct Hcl Href.
  assert (Hmake := λ rec it, blob_frame t v _ (Some (str "link")) Hh Hy Hct h rec it link ref eq_refl eq_refl Href).
  destruct (ROR ref) as [[[rd len]|]|e| |]; try done; (eexists; split; [eapply (resolve_root t v _ (Some (str "link")) cl); [done..|exact Hmake]|]).
  - rewrite described_link by done. cbn [with_resolved with_length with_override f_contentLength]. split_and!.
    + by case_decide.
    + case_decide as Hz; [by rewrite Hz|done].
    + by case_decide.
    + intros kp rg. unfold node_value, inner_Value. cbn [frame_level snd]. unfold frame_Value. rewrite list_lookup_middle by done. by case_decide.
  - by rewrite described_link by done.
  - by rewrite described_link by done.
Qed.

(** [Resolve] of a state whose root frame links to the state itself does not return, however
    much fuel it is given. *)
Theorem resolve_cycle_runs t v cl link uri kp version (state : DBNode T) h fuel :
  holder t v → root_frame t →
  child v ValueKey = Some (GScalar (SString (str "state:" ++ link))) → child v ContentTypeKey = Some (GScalar (SString (str "link"))) →
  child v ContentLengthKey = (λ i, GScalar (SInt K64 i)) <$> cl →
  ParseStateLink link = Ret (uri, kp, version) → SAV uri version = Ret state → db_CopyToMemory state kp None = Ret t →
  Resolve SAV ROR fuel h (lift_tree t) = Running.
Proof.
  intros Hh Hf Hy Hct Hcl Hparse Hsav Hcopy. destruct (reach_value t v _ Hh Hf Hy) as (before & _ & Hreach).
  revert h. induction fuel as [fuel IH] using lt_wf_ind. intros h. destruct (Hreach h fuel) as [Hshort Hlong].
  destruct (decide (fuel ≤ before)) as [?|Hgt]; [auto|]. destruct Hlong as (it & n & dn & rest & Hn & Hat & ->); [lia|].
  rewrite (loop_at _ _ _ _ _ _ _ _ _ _ _ Hat), (value_turn t v (Some (str "link")) cl) by done.
  assert (∀ rec, (∀ h, rec h (lift_tree t) = Running) →
    make_frame SAV ROR rec (mkResolving h (lift_tree t) it (keypaths t) false) ValueKey [] = Running) as Hmake; [|by rewrite Hmake by (intros h'; by apply IH)].
  intros rec Hrec. unfold make_frame. cbn [rs_heap rs_outer rs_stale rs_missing]. change (Push [] ContentTypeKey) with ContentTypeKey.
  rewrite (content_type_read t v (Some (str "link"))) by done. cbn [or_404].
  change (CopyToMemory (iter_node (lift_tree t) (keypaths t) ValueKey) [] None) with (Ret (value_copy t)). cbn [obind]. rewrite decide_True by done.
  rewrite (link_string t v _ Hh Hy h _ eq_refl). change (default [] (Some (str "state:" ++ link))) with (str "state:" ++ link).
  unfold resolveLink. rewrite state_link_type, Hparse. cbn [or_link]. rewrite Hsav. cbn [or_link]. rewrite Hcopy. cbn [or_link]. by rewrite Hrec.
Qed.
End Theorems.

(** ** Examples *)

Definition framed (ct x : string) : plain := GMap [(ContentTypeKey, GScalar (SString (str ct))); (ValueKey, GScalar (SString (str x)))].

Definition tree_of (v : plain) : MemoryNode Empty_set :=
  match Set_ tt NewMemoryNode [] None v with Ret (_, n) => n | _ => NewMemoryNode end.

Lemma framed_ok ct x : addressable (framed ct x) ∧ keys_min (framed ct x).
Proof.
  split; [split|].
  - apply keys_ok_map. split; [vm_decide|]. repeat constructor; try discriminate; vm_decide.
  - apply indexable_map. repeat constructor.
  - apply keys_min_map. repeat (apply Forall_cons_2; [split; [vm_decide|apply keys_min_scalar]|]). constructor.
Qed.

Lemma framed_holder ct x : holder (tree_of (framed ct x)) (framed ct x).
Proof.
  destruct (framed_ok ct x) as [Ha Hm]. unfold tree_of.
  destruct (Set_spec tt (@NewMemoryNode Empty_set) [] (framed ct x)) as (n' & -> & Hwf & (Hk & Hr & Hc) & Hrep & _); try done;
    [apply NewMemoryNode_wf|vm_compute; constructor..].
Qed.

Lemma framed_root ct x : root_frame (tree_of (framed ct x)).
Proof.
  assert (keypaths (tree_of (framed ct x)) = [[]; ContentTypeKey; ValueKey]) as Hk by reflexivity.
  assert (Forall (λ k, bytes_lt ValueKey k → frame_key k = false) [[]; ContentTypeKey; ValueKey]) as Hall.
  { apply Forall_cons_2; [intros _; reflexivity|]. apply Forall_cons_2; [intros _; reflexivity|]. apply Forall_cons_2; [|constructor].
    intros Hlt. destruct (bytes_lt_irrefl _ Hlt). }
  rewrite Forall_forall in Hall. intros k Hin. rewrite Hk in Hin. exact (Hall k Hin).
Qed.

Definition no_states : bytes → option ID → outcome (DBNode (gmap bytes bytes)) := λ _ _, Err Err404.
Definition some_blob : RefID → outcome (option (blob_reader * Z)) := λ r, if decide (ref_HashAlg r = SHA1) then Ret (Some (mkBlobReader (str "blob"), 4%Z)) else Ret None.

Lemma resolve_root_frame_witness :
  ∃ f w, Resolve no_states some_blob 10 [] (lift_tree (tree_of (framed "text/plain" "hi"))) = Ret ([f], NRef (Fr 0), false) ∧
    f_contentType f = str "text/plain" ∧ node_value [f] (NRef (Fr 0)) [] None = Ret (Some w) ∧ goval_equiv w (GScalar (SString (str "hi"))).
Proof.
  destruct (resolve_root_frame no_states some_blob (tree_of (framed "text/plain" "hi")) (framed "text/plain" "hi") (GScalar (SString (str "hi")))
    (Some (str "text/plain")) None [] 10) as (f & Hr & Hct & _ & _ & _ & w & Hw & Heq);
    [apply framed_holder|apply framed_root|vm_compute; lia|reflexivity..|discriminate|]. exists f, w. auto.
Defined.

Definition sha1_link : string := "sha1:00112233445566778899aabbccddeeff00112233".

Lemma resolve_blob_link_witness :
  ∃ f, Resolve no_states some_blob 10 [] (lift_tree (tree_of (framed "link" ("ref:" ++ sha1_link)))) = Ret ([f], NRef (Fr 0), false) ∧
    f_contentLength f = 4%Z ∧ node_value [f] (NRef (Fr 0)) [] None = Ret (Some (GNode (mkBlobReader (str "blob")))).
Proof.
  pose proof (resolve_blob_link no_states some_blob (tree_of (framed "link" ("ref:" ++ sha1_link))) (framed "link" ("ref:" ++ sha1_link)) None [] 10
    (str sha1_link) (mkRefID SHA1 (match HashFromHex (drop 5 (str sha1_link)) with Ret x => go_copy EmptyHash (take 20 x) | _ => [] end))
    (framed_holder _ _) (framed_root _ _) ltac:(vm_compute; lia) eq_refl eq_refl eq_refl ltac:(vm_compute; reflexivity)) as (f & Hr & _ & Hl & _ & Hv).
  exists f. split; [exact Hr|]. split; [exact Hl|]. apply Hv.
Defined.

Lemma holder_diff t v d : holder t v → holder (with_diff t d) v.
Proof. intros [Hwf Hp Hk Hr Ha]. split; [destruct Hwf; by split|exact Hp|exact Hk|exact Hr|exact Ha]. Qed.

Lemma root_frame_diff t d : root_frame t → root_frame (with_diff t d).
Proof. intros Hr. exact Hr. Qed.

(** A state that consists of a link to itself. *)
Definition own_state : DBNode (gmap bytes bytes) :=
  match db_Set (StateAtVersion (λ _, ∅) EmptyID true) [] None (framed "link" "state:a/b/") with Ret n => n | _ => StateAtVersion (λ _, ∅) EmptyID true end.

Definition own_copy : MemoryNode Empty_set := with_diff (tree_of (framed "link" "state:a/b/")) (Some (Diff_Copy (db_diff own_state))).

Lemma own_copied : db_CopyToMemory own_state [] None = Ret own_copy.
Proof. vm_compute. reflexivity. Qed.

Lemma own_holder : holder own_copy (framed "link" "state:a/b/").
Proof. apply holder_diff, framed_holder. Qed.

Lemma resolve_cycle_runs_witness : Resolve (λ _ _, Ret own_state) some_blob 100 [] (lift_tree own_copy) = Running.
Proof.
  apply (resolve_cycle_runs (λ _ _, Ret own_state) some_blob own_copy (framed "link" "state:a/b/") None (str "a/b/") (str "a/b") [] None own_state);
    [exact own_holder|apply root_frame_diff, framed_root|reflexivity..|exact own_copied].
Defined.

(** Two frames below a node: [Resolve] of the whole tree replaces both, [Resolve] of the node
    at [x] only the last one, since it seeks the relative keypath among the absolute ones. *)
Definition two_frames : plain := GMap [(str "a", framed "text/plain" "1"); (str "b", framed "text/plain" "2")].

Definition at_x : ftree := match NodeAt tt (tree_of (GMap [(str "x", two_frames)])) (str "x") None with Ret (inl m) => lift_tree m | _ => NewMemoryNode end.

Definition resolved_value (m : ftree) : outcome (option fval) :=
  match Resolve no_states some_blob 50 [] m with Ret (h, n, _) => node_value h n [] None | _ => Panic end.

Example resolve_whole_tree :
  resolved_value (lift_tree (tree_of two_frames)) = Ret (Some (GMap [(str "a", GScalar (SString (str "1"))); (str "b", GScalar (SString (str "2")))])).
Proof. vm_compute. reflexivity. Qed.

Example resolve_inner_node :
  resolved_value at_x = Ret (Some (GMap [(str "a", lift_val (framed "text/plain" "1")); (str "b", GScalar (SString (str "2")))])).
Proof. vm_compute. reflexivity. Qed.
