(* ===== verification/Permissions.v ===== *)
(** * The permissions validator ([validator.permissions.go], [getValue] of [util.go])

    The validator's configuration maps addresses to rules, and a rule maps a regular
    expression over the (dot separated) keypath to flags.  A transaction passes when each of
    its patches matches a rule with the [write] flag of its sender, or of [*] when there are
    no rules for the sender.

    [MatchString] is [regexp.MatchString], a parameter ([None] when the expression does not
    compile), so what is proved holds for every dialect of regular expressions.  The rules are
    a Go map: their order in the list is the order in which the runtime enumerates them.
    [ToLower] is [strings.ToLower] on ASCII letters; the letters outside ASCII that it leaves
    alone occur neither in an address nor in [*]. *)

From S2P Require Import Prelude Types Keypath TreeTypes GoValue GoPaths Tx PatchParser.

(** [util.go] *)
Fixpoint getValue (x : plain) (keypath : list bytes) : outcome (option plain) :=
  match keypath with
  | [] => Ret (Some x)
  | key :: keypath =>
      match x with
      | GMap m => match assoc_get key m with Some y => getValue y keypath | None => Ret None end
      | GSlice l =>
          match ParseInt key with
          | None => Ret None
          | Some sliceIdx =>
              if decide (sliceIdx > Z.of_nat (length l) - 1)%Z then Ret None
              else let! y := index l sliceIdx in getValue y keypath
          end
      | _ => Ret None
      end
  end.

Definition lower (b : byte) : byte :=
  let z := byte_to_Z b in if decide (65 ≤ z ≤ 90)%Z then byte_of_Z (z + 32) else b.
Definition ToLower (s : bytes) : bytes := lower <$> s.

(** [bytes.ReplaceAll] for a non-empty [old]: the next replacement starts after the last. *)
Fixpoint replace_all (fuel : nat) (s old new : bytes) : bytes :=
  match fuel with
  | O => s
  | S fuel =>
      match s with
      | [] => []
      | b :: t => if has_prefix s old then new ++ replace_all fuel (drop (length old) s) old new
                  else b :: replace_all fuel t old new
      end
  end.
Definition ReplaceAll (s old new : bytes) : bytes := replace_all (S (length s)) s old new.

Record permissionsValidator := mkPermissionsValidator { permissions : gmap bytes plain }.

(** [cfg] is [nelson.GetValueRecursive(config, nil, nil)]. *)
Definition NewPermissionsValidator (cfg : outcome (option plain)) : outcome permissionsValidator :=
  let! v := cfg in
  match v with
  | Some (GMap asMap) =>
      Ret (mkPermissionsValidator (foldl (λ m kv, <[ToLower kv.1 := kv.2]> m) ∅ asMap))
  | _ => Err (ErrOther "permissions validator needs a map of permissions as its config")
  end.

Section Validate.
Context (MatchString : bytes → bytes → option bool).

Definition write_key : bytes := str "write".

(** The keypath as the rules see it, and a rule with the sender filled in. *)
Definition dotted (kp : Keypath) : bytes := [dot] ++ ReplaceAll kp KeypathSeparator [dot].
Definition expandedPattern (pattern : bytes) (from : Address) : bytes := ReplaceAll pattern (str "$(sender)") (Address_Hex from).

(** The loop over the rules of one patch. *)
Fixpoint find_rule (permsMap rules : list (bytes * plain)) (from : Address) (keypath : bytes) : outcome bool :=
  match rules with
  | [] => Ret false
  | (pattern, _) :: rules =>
      match MatchString (expandedPattern pattern from) keypath with
      | None => Err Err403
      | Some true =>
          let! canWrite := getValue (GMap permsMap) [pattern; write_key] in
          match canWrite with
          | Some (GScalar (SBool true)) => Ret true
          | _ => find_rule permsMap rules from keypath
          end
      | Some false => find_rule permsMap rules from keypath
      end
  end.

Fixpoint check_patches (permsMap : list (bytes * plain)) (from : Address) (ps : list Patch) : outcome unit :=
  match ps with
  | [] => Ret tt
  | p :: ps =>
      let! valid := find_rule permsMap permsMap from (dotted (patch_Keypath p)) in
      if valid : bool then check_patches permsMap from ps else Err Err403
  end.

Definition perms_for (v : permissionsValidator) (from : Address) : option plain :=
  match permissions v !! ToLower (Address_Hex from) with Some p => Some p | None => permissions v !! str "*" end.

Definition permissions_ValidateTx (v : permissionsValidator) (tx : Tx) : outcome unit :=
  match perms_for v (tx_From tx) with
  | Some (GMap permsMap) => check_patches permsMap (tx_From tx) (tx_Patches tx)
  | _ => Err Err403
  end.

(** ** What the validator accepts *)

(** A rule lets [from] write [kp]. *)
Definition rule_allows (permsMap : list (bytes * plain)) (from : Address) (kp : Keypath) : Prop :=
  ∃ pattern flags, (pattern, flags) ∈ permsMap ∧
    MatchString (expandedPattern pattern from) (dotted kp) = Some true ∧
    getValue flags [write_key] = Ret (Some (GScalar (SBool true))).

(** The rules of the map whose expressions all compile. *)
Definition rules_compile (permsMap : list (bytes * plain)) (from : Address) : Prop :=
  ∀ pattern flags kp, (pattern, flags) ∈ permsMap → MatchString (expandedPattern pattern from) kp ≠ None.

Lemma find_rule_spec (permsMap rules : list (bytes * plain)) from kp :
  NoDup permsMap.*1 → rules ⊆ permsMap →
  (∀ pattern flags, (pattern, flags) ∈ permsMap → ∃ r, getValue flags [write_key] = Ret r) →
  (∀ pattern flags, (pattern, flags) ∈ rules → MatchString (expandedPattern pattern from) (dotted kp) ≠ None) →
  ∃ b, find_rule permsMap rules from (dotted kp) = Ret b ∧ (b = true ↔ rule_allows rules from kp).
Proof.
  intros Hnd Hsub Hget. induction rules as [|[pattern flags] rules IH]; intros Hc.
  - exists false. split; [done|]. split; [done|]. intros (p & f & Hin & _). by apply elem_of_nil in Hin.
  - destruct IH as (b & Hb & Hiff); [set_solver|set_solver|].
    assert (∀ kp', rule_allows ((pattern, flags) :: rules) from kp' ↔
      (MatchString (expandedPattern pattern from) (dotted kp') = Some true ∧
       getValue flags [write_key] = Ret (Some (GScalar (SBool true)))) ∨ rule_allows rules from kp') as Hcons.
    { intros kp'. unfold rule_allows. setoid_rewrite elem_of_cons. naive_solver. }
    cbn [find_rule]. destruct (MatchString (expandedPattern pattern from) (dotted kp)) as [[]|] eqn:Hm.
    + assert ((pattern, flags) ∈ permsMap) as Hin by set_solver.
      destruct (Hget _ _ Hin) as [r Hr].
      assert (getValue (GMap permsMap) [pattern; write_key] = Ret r) as Hr'.
      { cbn [getValue]. by rewrite (proj2 (assoc_get_elem _ _ _ Hnd) Hin). }
      rewrite Hr'. cbn [obind]. assert (r = Some (GScalar (SBool true)) ∨ r ≠ Some (GScalar (SBool true))) as [->|Hne]
        by (destruct r as [[[| [] | | | | |]| | |]|]; auto).
      * exists true. split; [done|]. rewrite Hcons. split; [by left|done].
      * exists b. split.
        -- destruct r as [[[| [] | | | | |]| | |]|]; by (done || destruct Hne).
        -- rewrite Hcons, Hiff. split; [by right|]. intros [[_ Hr2]|Hr2]; [congruence|done].
    + exists b. split; [done|]. rewrite Hcons, Hiff. split; [by right|]. intros [[Hm2 _]|Hr2]; [congruence|done].
    + exfalso. eapply Hc; [|exact Hm]. by apply elem_of_cons; left.
Qed.

Lemma check_patches_spec (permsMap : list (bytes * plain)) from ps :
  NoDup permsMap.*1 → rules_compile permsMap from →
  (∀ pattern flags, (pattern, flags) ∈ permsMap → ∃ r, getValue flags [write_key] = Ret r) →
  (Forall (λ p, rule_allows permsMap from (patch_Keypath p)) ps → check_patches permsMap from ps = Ret tt) ∧
  (¬ Forall (λ p, rule_allows permsMap from (patch_Keypath p)) ps → check_patches permsMap from ps = Err Err403).
Proof.
  intros Hnd Hc Hget. induction ps as [|p ps [IH1 IH2]]; [split; [done|]; intros []; constructor|].
  destruct (find_rule_spec permsMap permsMap from (patch_Keypath p) Hnd ltac:(done) Hget ltac:(intros pt fl Hin; exact (Hc pt fl _ Hin)))
    as (b & Hb & Hiff).
  cbn [check_patches]. rewrite Hb. cbn [obind]. split.
  - intros [Hp Hps]%Forall_cons. rewrite (proj2 Hiff Hp). by apply IH1.
  - intros Hn. destruct b; [|done]. apply IH2. intros Hps. apply Hn. constructor; [by apply Hiff|done].
Qed.
End Validate.

(** C38: the permissions validator decides exactly the relation "every patch matches a rule of
    the sender that carries the [write] flag": a transaction passes when that holds and is
    refused with a 403 when it does not, in whatever order the rules are enumerated (they all
    have to compile).  The sender's own rules are found whatever the case of the address in
    the configuration, those of [*] are used only when there are none, and with neither, or
    when the entry is not a map, every transaction is refused, even one without patches. *)
Theorem permissions_decide (MatchString : bytes → bytes → option bool) (v : permissionsValidator) (tx : Tx) :
  (∀ permsMap, perms_for v (tx_From tx) = Some (GMap permsMap) →
     NoDup permsMap.*1 → rules_compile MatchString permsMap (tx_From tx) →
     (∀ pattern flags, (pattern, flags) ∈ permsMap → ∃ r, getValue flags [write_key] = Ret r) →
     (Forall (λ p, rule_allows MatchString permsMap (tx_From tx) (patch_Keypath p)) (tx_Patches tx) →
        permissions_ValidateTx MatchString v tx = Ret tt) ∧
     (¬ Forall (λ p, rule_allows MatchString permsMap (tx_From tx) (patch_Keypath p)) (tx_Patches tx) →
        permissions_ValidateTx MatchString v tx = Err Err403)) ∧
  ((∀ permsMap, perms_for v (tx_From tx) ≠ Some (GMap permsMap)) → permissions_ValidateTx MatchString v tx = Err Err403).
Proof.
  unfold permissions_ValidateTx. split.
  - intros permsMap -> Hnd Hc Hget. by apply check_patches_spec.
  - intros Hn. destruct (perms_for v (tx_From tx)) as [[s|m|l|n]|]; try done. by destruct (Hn m).
Qed.

(** Two rules for everybody: [.a] may be written, [.b] may not. *)
Definition example_rules : list (bytes * plain) :=
  [(str ".b", GMap [(write_key, GScalar (SBool false))]); (str ".a", GMap [(write_key, GScalar (SBool true))])].
Definition example_validator : permissionsValidator := mkPermissionsValidator {[ str "*" := GMap example_rules ]}.

(** Expressions without special characters: a match is an occurrence. *)
Definition literal_match (pattern s : bytes) : option bool := Some (bool_decide (is_Some (index_sub s pattern))).

Definition writes (k : string) : Tx := with_patches example_tx [mkPatch (str k) None (GScalar (SBool true))].

Lemma permissions_decide_witness :
  permissions_ValidateTx literal_match example_validator (writes "a/x") = Ret tt ∧
  (¬ Forall (λ p, rule_allows literal_match example_rules (tx_From example_tx) (patch_Keypath p)) (tx_Patches (writes "b")) →
     permissions_ValidateTx literal_match example_validator (writes "b") = Err Err403).
Proof.
  assert (NoDup example_rules.*1) as Hnd by vm_decide.
  assert (rules_compile literal_match example_rules (tx_From example_tx)) as Hc by (intros pt fl kp _; discriminate).
  assert (∀ pattern flags, (pattern, flags) ∈ example_rules → ∃ r, getValue flags [write_key] = Ret r) as Hget.
  { intros pt fl Hin. repeat (apply elem_of_cons in Hin as [[= -> ->]|Hin]; [by eexists|]). by apply elem_of_nil in Hin. }
  split.
  - refine (proj1 (proj1 (permissions_decide literal_match example_validator (writes "a/x")) example_rules _ Hnd Hc Hget) _).
    + vm_compute. reflexivity.
    + constructor; [|constructor]. exists (str ".a"), (GMap [(write_key, GScalar (SBool true))]).
      split; [right; left|]. split; vm_compute; reflexivity.
  - refine (proj2 (proj1 (permissions_decide literal_match example_validator (writes "b")) example_rules _ Hnd Hc Hget)).
    vm_compute. reflexivity.
Defined.
