(* ===== verification/Controller.v ===== *)
(** * The controller of a state URI ([controller.go])

    A controller applies the transactions of one state URI: [tryApplyTx] checks a
    transaction against its parents, its signature and the validators, lets the resolvers
    change the state tree inside a database transaction, re-reads the behaviours that the
    change touched, commits, and records the transaction as valid and as a leaf.

    [cstate] is what a call can change: the transaction store (shared between controllers),
    the controller, and the transaction, which is passed by pointer.  An operation that can
    fail after it has changed something is an action of the monad [act], which keeps the
    changes made before the error.  Badger commits in [Save] without waiting for the result;
    the model is of commits that succeed.

    Parameters, as classes: the elliptic-curve library ([Secp256k1]), and what turns the
    configuration of a behaviour into a behaviour ([Configs]): [nelson.Resolve], and the
    script interpreters behind the [lua] and [js] resolvers and the [js] indexer. *)

From S2P Require Import Prelude Types Keypath TreeTypes GoValue GoPaths NodeCodec MemoryNode MemoryIter BadgerTxn DBNode.
From S2P Require Import Tx Mempool TxStore Behaviors Nelson Permissions.

Definition MergeTypeKeypath : Keypath := str "Merge-Type".
Definition ValidatorKeypath : Keypath := str "Validator".
Definition MembersKeypath : Keypath := str "Members".
Definition IndicesKeypath : Keypath := str "Indices".

(** [tree.CurrentVersion] *)
Definition CurrentVersion : ID := EmptyID.

(** ** Signatures ([crypto/signer.go]) *)

(** The functions of go-ethereum's [crypto] package. *)
Class Secp256k1 := {
  PublicKey : Type;
  SigToPub : bytes → bytes → outcome PublicKey;
  geth_VerifySignature : bytes → bytes → bytes → bool;
  FromECDSAPub : PublicKey → bytes;
  PubkeyToAddress : PublicKey → bytes
}.

Definition RecoverSigningPubkey `{Secp256k1} (hash : Hash) (signature : Signature) : outcome PublicKey :=
  SigToPub hash signature.

(** The last byte is the recovery id. *)
Definition VerifySignature `{Secp256k1} (pubkey : PublicKey) (hash : Hash) (signature : Signature) : outcome bool :=
  let! noRecoverID := slice signature 0 (Z.of_nat (length signature) - 1) in
  Ret (geth_VerifySignature (FromECDSAPub pubkey) hash noRecoverID).

Definition PublicKey_Address `{Secp256k1} (pubkey : PublicKey) : Address := array_from address_length (PubkeyToAddress pubkey).

(** ** Behaviours *)

(** [config] is a resolved configuration, [script] a loaded script. *)
Class Configs (T : Type) := {
  config : Type;
  script : Type;
  ixscript : Type;
  nelson_Resolve : MemoryNode Empty_set → outcome (config * bool);
  config_ContentType : config → outcome bytes;
  config_Value : config → outcome (option plain);
  config_StringValue : config → Keypath → outcome (option bytes);
  NewLuaResolver : config → plain → outcome script;
  NewJSResolver : config → plain → outcome script;
  script_InternalState : script → plain;
  script_ResolveState : script → DBNode T → Address → ID → list ID → list Patch → outcome (DBNode T);
  NewJSIndexer : config → outcome ixscript
}.

Inductive Resolver (S : Type) := dumbResolver | scriptResolver (s : S).
Arguments dumbResolver {S}.
Arguments scriptResolver {S} _.

Inductive Indexer (S : Type) := keypathIndexer (keypathName : Keypath) | jsIndexer (s : S).
Arguments keypathIndexer {S} _.
Arguments jsIndexer {S} _.

Section Behaviours.
Context {T : Type} `{BadgerTxn T} `{Configs T}.

(** A node below [state] shares its transaction and its diff: the changes made through it. *)
Definition rejoin (state sub : DBNode T) : DBNode T :=
  mkDBNode (db_tx sub) (db_diff sub) (keyPrefix state) (rootKeypath state) (db_rng state) (mutable state).

(** A nil value deletes. *)
Definition apply_patch (state : DBNode T) (p : Patch) : outcome (DBNode T) :=
  match patch_Val p with
  | GScalar SNil => db_Delete state (patch_Keypath p) (patch_Range p)
  | v => db_Set state (patch_Keypath p) (patch_Range p) v
  end.

Definition dumb_ResolveState (state : DBNode T) (ps : list Patch) : outcome (DBNode T) := fold_outcome apply_patch state ps.

Definition ResolveState (r : Resolver script) (state : DBNode T) (sender : Address) (txID : ID) (parents : list ID)
    (ps : list Patch) : outcome (DBNode T) :=
  match r with
  | dumbResolver => dumb_ResolveState state ps
  | scriptResolver s => script_ResolveState s state sender txID parents ps
  end.

Definition InternalState (r : Resolver script) : plain :=
  match r with dumbResolver => GMap [] | scriptResolver s => script_InternalState s end.

Definition resolverRegistry (contentType : bytes) : option (config → plain → outcome (Resolver script)) :=
  if decide (contentType = str "resolver/dumb") then Some (λ _ _, Ret dumbResolver)
  else if decide (contentType = str "resolver/lua") then Some (λ c i, let! s := NewLuaResolver c i in Ret (scriptResolver s))
  else if decide (contentType = str "resolver/js") then Some (λ c i, let! s := NewJSResolver c i in Ret (scriptResolver s))
  else None.

Definition validatorRegistry (contentType : bytes) : option (config → outcome permissionsValidator) :=
  if decide (contentType = str "validator/permissions") then Some (λ c, NewPermissionsValidator (config_Value c)) else None.

Definition NewKeypathIndexer (c : config) : outcome (Indexer ixscript) :=
  let! s := config_StringValue c (str "keypath") in
  match s with
  | None => Err (ErrOther "keypath indexer needs a 'keypath' field in its config")
  | Some s => Ret (keypathIndexer s)
  end.

Definition indexerRegistry (contentType : bytes) : option (config → outcome (Indexer ixscript)) :=
  if decide (contentType = str "indexer/keypath") then Some NewKeypathIndexer
  else if decide (contentType = str "indexer/js") then Some (λ c, let! s := NewJSIndexer c in Ret (jsIndexer s))
  else None.

Abbreviation behaviors := (behaviorTree (Resolver script) permissionsValidator (Indexer ixscript)).

(** A configuration with its references resolved, and the constructor for its type. *)
Definition configured {F} (registry : bytes → option F) (node : MemoryNode Empty_set) : outcome (config * F) :=
  let! r := nelson_Resolve node in
  let '(c, anyMissing) := r in
  if anyMissing : bool then Err ErrMissingCriticalRefs
  else
    let! contentType := config_ContentType c in
    if decide (contentType = []) then Err (ErrOther "no 'Content-Type' key")
    else match registry contentType with
         | None => Err (ErrOther "unknown type")
         | Some ctor => Ret (c, ctor)
         end.

Definition initializeResolver (bt : behaviors) (state : DBNode T) (resolverConfigKeypath : Keypath) : outcome behaviors :=
  let! node := db_CopyToMemory state resolverConfigKeypath None in
  let! cc := configured resolverRegistry node in
  let '(c, ctor) := cc in
  let old := nearestResolverForKeypath bt resolverConfigKeypath in
  let! internalState :=
    if negb (Equals (nilable (fst <$> old)) resolverConfigKeypath) then Ret (GMap [])
    else match old with Some (_, Some r) => Ret (InternalState r) | _ => Panic end in
  let! resolver := ctor c internalState in
  Ret (addResolver bt (nilable (fst (Pop resolverConfigKeypath))) resolver).

Definition initializeValidator (bt : behaviors) (state : DBNode T) (validatorConfigKeypath : Keypath) : outcome behaviors :=
  let! node := db_CopyToMemory state validatorConfigKeypath None in
  let! cc := configured validatorRegistry node in
  let! validator := cc.2 cc.1 in
  Ret (addValidator bt (nilable (fst (Pop validatorConfigKeypath))) validator).

Definition initializeIndexer (bt : behaviors) (state : DBNode T) (indexerConfigKeypath : Keypath) : outcome behaviors :=
  let! indexConfigs := db_CopyToMemory state indexerConfigKeypath None in
  let! subkeys := Subkeys indexConfigs in
  fold_outcome
    (λ bt indexName,
       let! node := NodeAt tt indexConfigs indexName None in
       let! node := match node with inl m => Ret m | inr n => match n with end end in
       let! cc := configured indexerRegistry node in
       let! indexer := cc.2 cc.1 in
       Ret (addIndexer bt (nilable (fst (Pop indexerConfigKeypath))) indexName indexer))
    bt subkeys.
End Behaviours.

(** ** The state of a call *)

Section Controller.
Context {T : Type} `{BadgerTxn T} `{JsonCodec} `{ProtoCodec} `{MapOrder} `{Secp256k1} `{Configs T}.
Context (keccak256 : bytes → bytes) (MatchString : bytes → bytes → option bool).

Abbreviation behaviors := (behaviorTree (Resolver script) permissionsValidator (Indexer ixscript)).

Record controller := mkController {
  c_stateURI : bytes;
  c_states : T;                              (* the committed state database *)
  c_behaviorTree : behaviors;
  c_mempool : Mailbox message;
  c_needed : list RefID;                     (* what [MarkRefsAsNeeded] was given *)
  c_notified : list (Tx * list ID)           (* what the listeners were told *)
}.

Record cstate := mkCstate { cs_store : T; cs_ctrl : controller; cs_tx : Tx }.

Definition with_states (c : controller) (t : T) : controller :=
  mkController (c_stateURI c) t (c_behaviorTree c) (c_mempool c) (c_needed c) (c_notified c).
Definition with_behaviors (c : controller) (bt : behaviors) : controller :=
  mkController (c_stateURI c) (c_states c) bt (c_mempool c) (c_needed c) (c_notified c).
Definition with_mempool (c : controller) (mb : Mailbox message) : controller :=
  mkController (c_stateURI c) (c_states c) (c_behaviorTree c) mb (c_needed c) (c_notified c).
Definition with_needed (c : controller) (refs : list RefID) : controller :=
  mkController (c_stateURI c) (c_states c) (c_behaviorTree c) (c_mempool c) refs (c_notified c).
Definition with_notified (c : controller) (l : list (Tx * list ID)) : controller :=
  mkController (c_stateURI c) (c_states c) (c_behaviorTree c) (c_mempool c) (c_needed c) l.

(** An action that keeps its changes when it ends with an error. *)
Definition act (A : Type) : Type := cstate → outcome (cstate * (A + error)).
Definition act_ret {A} (a : A) : act A := λ s, Ret (s, inl a).
Definition act_fail {A} (e : error) : act A := λ s, Ret (s, inr e).
Definition act_bind {A B} (m : act A) (k : A → act B) : act B := λ s,
  let! r := m s in match r with (s, inl a) => k a s | (s, inr e) => Ret (s, inr e) end.
(** A computation without effects on the state, and one on the transaction store. *)
Definition act_lift {A} (m : outcome A) : act A := λ s,
  match m with Ret a => Ret (s, inl a) | Err e => Ret (s, inr e) | Panic => Panic | Running => Running end.
Definition act_store (f : T → outcome T) : act unit := λ s,
  act_bind (act_lift (f (cs_store s))) (λ t s, Ret (mkCstate t (cs_ctrl s) (cs_tx s), inl tt)) s.
Definition act_get {A} (f : cstate → A) : act A := λ s, Ret (s, inl (f s)).
Definition act_ctrl (f : controller → controller) : act unit := λ s, Ret (mkCstate (cs_store s) (f (cs_ctrl s)) (cs_tx s), inl tt).
Definition act_tx (f : Tx → Tx) : act unit := λ s, Ret (mkCstate (cs_store s) (cs_ctrl s) (f (cs_tx s)), inl tt).

Notation "'do!' x := m 'in' k" := (act_bind m (λ x, k))
  (at level 200, x pattern, m at level 100, k at level 200, right associativity).

(** ** [tryApplyTx] *)

(** Every parent is known and not invalid or waiting itself. *)
Fixpoint check_parents (t : T) (stateURI : bytes) (parents : list ID) : outcome unit :=
  match parents with
  | [] => Ret tt
  | parentID :: parents =>
      match FetchTx t stateURI parentID with
      | Err e => if decide (e = Err404) then Err ErrNoParentYet else Err e
      | Ret parentTx =>
          if decide (tx_Status parentTx = TxStatusInvalid) then Err ErrInvalidParent
          else if decide (tx_Status parentTx = TxStatusInMempool) then Err ErrPendingParent
          else check_parents t stateURI parents
      | Panic => Panic
      | Running => Running
      end
  end.

Definition check_signature (tx : Tx) : outcome unit :=
  let! hash := Tx_Hash keccak256 tx in
  match RecoverSigningPubkey hash (tx_Sig tx) with
  | Err _ => Err ErrInvalidSignature
  | Ret sigPubKey =>
      let! ok := VerifySignature sigPubKey hash (tx_Sig tx) in
      if negb ok then Err ErrInvalidSignature
      else if decide (PublicKey_Address sigPubKey ≠ tx_From tx) then Err ErrInvalidSignature
      else Ret tt
  | Panic => Panic
  | Running => Running
  end.

Definition check_intrinsics (t : T) (tx : Tx) : outcome unit :=
  if decide (length (tx_Parents tx) = 0 ∧ tx_ID tx ≠ GenesisTxID) then Err ErrTxMissingParents
  else let! _ := check_parents t (tx_StateURI tx) (tx_Parents tx) in check_signature tx.

(** The validators from the last keypath to the first; each is called, even with no patch. *)
Fixpoint run_validators (validators : gmap Keypath permissionsValidator) (ks : list Keypath) (patches : list Patch) (tx : Tx) :
    outcome unit :=
  match ks with
  | [] => Ret tt
  | k :: ks =>
      let! s := split_patches k patches in
      match validators !! k with
      | None => Panic
      | Some v =>
          let! _ := permissions_ValidateTx MatchString v (with_patches tx s.1) in
          run_validators validators ks s.2 tx
      end
  end.

Definition ignore_404 {A} (d : A) (m : outcome A) : outcome A :=
  match m with Err e => if decide (e = Err404) then Ret d else Err e | _ => m end.

(** [node.Diff().SetEnabled(b)] *)
Definition set_diff_enabled (n : DBNode T) (b : bool) : outcome (DBNode T) :=
  match db_diff n with None => Panic | Some d => Ret (with_db_diff n (Some (SetEnabled d b))) end.

(** The copy of a behaviour's configuration, [None] when there is none. *)
Definition copied_config (state : DBNode T) (kp : Keypath) : outcome (option (MemoryNode Empty_set)) :=
  ignore_404 None (let! m := db_CopyToMemory state kp None in Ret (Some m)).

(** [Set] stores a node without looking at it as a struct. *)
#[local] Instance StructFields_memory : StructFields (MemoryNode Empty_set) := λ _, 0%Z.

Definition put_back (n : DBNode T) (kp : Keypath) (cfg : option (MemoryNode Empty_set)) : outcome (DBNode T) :=
  match cfg with None => Ret n | Some m => db_Set n kp None (GNode m) end.

(** One resolver on its patches: the configurations of the behaviours are taken out of its
    sight and put back afterwards, with the diff switched off. *)
Definition run_resolver (r : Resolver script) (k : Keypath) (tx : Tx) (ps : list Patch) (state : DBNode T) : outcome (DBNode T) :=
  let! resolverState := copied_config state (Push k MergeTypeKeypath) in
  let! validatorState := copied_config state (Push k ValidatorKeypath) in
  let! state := set_diff_enabled state false in
  let! state := ignore_404 state (db_Delete state (Push k MergeTypeKeypath) None) in
  let! state := ignore_404 state (db_Delete state (Push k ValidatorKeypath) None) in
  let! state := set_diff_enabled state true in
  let! sub :=
    match ResolveState r (db_NodeAt state k None) (tx_From tx) (tx_ID tx) (tx_Parents tx) ps with
    | Err _ => Err ErrInvalidTx
    | x => x
    end in
  let! sub := set_diff_enabled sub false in
  let! sub := put_back sub MergeTypeKeypath resolverState in
  let! sub := put_back sub ValidatorKeypath validatorState in
  let! sub := set_diff_enabled sub true in
  Ret (rejoin state sub).

Fixpoint run_resolvers (resolvers : gmap Keypath (Resolver script)) (ks : list Keypath) (patches : list Patch) (tx : Tx)
    (state : DBNode T) : outcome (DBNode T) :=
  match ks with
  | [] => Ret state
  | k :: ks =>
      let! s := split_patches k patches in
      if decide (length s.1 = 0) then run_resolvers resolvers ks s.2 tx state
      else
        match resolvers !! k with
        | None => Panic
        | Some r => let! state := run_resolver r k tx s.1 state in run_resolvers resolvers ks s.2 tx state
        end
  end.

(** The blob a keypath that was added refers to, if any; errors are only logged. *)
Definition new_ref (state : DBNode T) (kp : Keypath) : outcome (option RefID) :=
  let '(parentKeypath, key) := Pop kp in
  if negb (Equals key ValueKey) then Ret None
  else
    match GetContentType (db_NodeAt state (nilable parentKeypath) None) with
    | Err _ => Ret None
    | Ret contentType =>
        if decide (contentType ≠ str "link") then Ret None
        else
          match db_StringValue state kp with
          | Err _ => Ret None
          | Ret linkStr =>
              match DetermineLinkType (default [] linkStr) with
              | (LinkTypeRef, linkValue) =>
                  match RefID_UnmarshalText (mkRefID HashAlgUnknown EmptyHash) linkValue with
                  | Ret refID => Ret (Some refID)
                  | Err _ => Ret None
                  | Panic => Panic
                  | Running => Running
                  end
              | _ => Ret None
              end
          | Panic => Panic
          | Running => Running
          end
    | Panic => Panic
    | Running => Running
    end.

(** [state.Diff()], whose fields are read. *)
Definition diff_of (state : DBNode T) : outcome Diff := match db_diff state with Some d => Ret d | None => Panic end.

(** [set_slice] is the order in which the runtime enumerates the keys of a map. *)
Definition handleNewRefs (state : DBNode T) : act unit :=
  do! d := act_lift (diff_of state) in
  do! refs := act_lift (map_outcome (new_ref state) (set_slice (Added d))) in
  act_ctrl (λ c, with_needed c (c_needed c ++ omap id refs)).

(** *** [updateBehaviorTree] *)

(** The loop over the ancestors of a keypath that changed. *)
Fixpoint init_ancestors (fuel : nat) (state : DBNode T) (parent : option Keypath) (bt : behaviors) : outcome behaviors :=
  match parent with
  | None => Ret bt
  | Some kp =>
      match fuel with
      | O => Running
      | S fuel =>
          let '(next, key) := Pop kp in
          let! bt :=
            if Equals key MergeTypeKeypath then initializeResolver bt state kp
            else if Equals key ValidatorKeypath then initializeValidator bt state kp
            else Ret bt in
          init_ancestors fuel state next bt
      end
  end.

(** What happens to the tree in use when a keypath was removed. *)
Definition drop_behavior (bt : behaviors) (kp : Keypath) : outcome behaviors :=
  let '(parentKeypath, key) := Pop kp in
  if Equals key MergeTypeKeypath then removeResolver bt (nilable parentKeypath)
  else if Equals key ValidatorKeypath then removeValidator bt (nilable parentKeypath)
  else let! _ := Part (nilable parentKeypath) (-1) in Ret bt.

(** The loop over the removed keypaths: the tree in use changes in place, the copy is
    returned. *)
Fixpoint removed_loop (state : DBNode T) (ks : list Keypath) (new : behaviors) : act behaviors :=
  match ks with
  | [] => act_ret new
  | kp :: ks =>
      do! bt := act_get (λ s, c_behaviorTree (cs_ctrl s)) in
      do! bt := act_lift (drop_behavior bt kp) in
      do! _ := act_ctrl (λ c, with_behaviors c bt) in
      do! new := act_lift (init_ancestors (S (length kp)) state (fst (Pop kp)) new) in
      removed_loop state ks new
  end.

Definition attach_behavior (state : DBNode T) (bt : behaviors) (kp : Keypath) : outcome behaviors :=
  let '(parentKeypath, key) := Pop kp in
  let! bt :=
    if Equals key MergeTypeKeypath then initializeResolver bt state kp
    else if Equals key ValidatorKeypath then initializeValidator bt state kp
    else if Equals key IndicesKeypath then initializeIndexer bt state kp
    else Ret bt in
  init_ancestors (S (length kp)) state parentKeypath bt.

Definition updateBehaviorTree (state : DBNode T) : act unit :=
  do! new := act_get (λ s, bt_copy (c_behaviorTree (cs_ctrl s))) in
  do! d := act_lift (diff_of state) in
  do! new := removed_loop state (set_slice (Removed d)) new in
  do! new := act_lift (fold_outcome (attach_behavior state) new (set_slice (Added d))) in
  act_ctrl (λ c, with_behaviors c new).

(** *** Recording the transaction *)

Definition unmark_parents (stateURI : bytes) (parents : list ID) : act unit :=
  foldr (λ parentID k, do! _ := act_store (λ t, UnmarkLeaf t stateURI parentID) in k) (act_ret tt) parents.

(** [Save] commits the transaction of [state]. *)
Definition Save (state : DBNode T) : act unit := act_ctrl (λ c, with_states c (db_tx state)).

Definition record_tx : act unit :=
  do! tx := act_get cs_tx in
  do! stateURI := act_get (λ s, c_stateURI (cs_ctrl s)) in
  do! _ := unmark_parents stateURI (tx_Parents tx) in
  do! _ := act_store (λ t, MarkLeaf t stateURI (tx_ID tx)) in
  do! _ := act_tx (λ tx, with_status tx TxStatusValid) in
  do! tx := act_get cs_tx in
  do! _ := act_store (λ t, store_AddTx t tx) in
  do! leaves := act_get (λ s, Leaves (cs_store s) stateURI) in
  act_ctrl (λ c, with_notified c (c_notified c ++ [(tx, leaves)])).

Definition validate (tx : Tx) : act unit := λ s,
  let v := bt_validators (c_behaviorTree (cs_ctrl s)) in
  match run_validators v.2 (reverse v.1) (tx_Patches tx) tx with
  | Ret _ => Ret (s, inl tt)
  | Err _ =>
      (do! _ := act_tx (λ tx, with_status tx TxStatusInvalid) in
       do! tx := act_get cs_tx in
       do! _ := act_store (λ t, store_AddTx t tx) in
       act_fail ErrInvalidTx) s
  | Panic => Panic
  | Running => Running
  end.

Definition checkpoint (tx : Tx) : act unit :=
  if tx_Checkpoint tx then
    do! t := act_get (λ s, c_states (cs_ctrl s)) in
    do! t := act_lift (CopyVersion t (tx_ID tx) CurrentVersion) in
    act_ctrl (λ c, with_states c t)
  else act_ret tt.

(** Everything up to the commit: the checks, and the new state in its transaction. *)
Definition prepare_tx : act (DBNode T) :=
  do! tx := act_get cs_tx in
  do! store := act_get cs_store in
  do! _ := act_lift (check_intrinsics store tx) in
  do! states := act_get (λ s, c_states (cs_ctrl s)) in
  let state := StateAtVersion (λ _, states) CurrentVersion true in
  do! _ := validate tx in
  do! r := act_get (λ s, bt_resolvers (c_behaviorTree (cs_ctrl s))) in
  do! state := act_lift (run_resolvers r.2 (reverse r.1) (tx_Patches tx) tx state) in
  do! _ := handleNewRefs state in
  do! _ := updateBehaviorTree state in
  act_ret state.

(** The commit and what follows it. *)
Definition commit_tx (state : DBNode T) : act unit :=
  do! tx := act_get cs_tx in
  do! _ := Save state in
  do! _ := checkpoint tx in
  record_tx.

Definition tryApplyTx : act unit := do! state := prepare_tx in commit_tx state.

(** ** Around it *)

Definition outcome_of_error (e : error) : processTxOutcome :=
  match e with
  | ErrTxMissingParents | ErrInvalidParent | ErrInvalidSignature | ErrInvalidTx => Failed
  | ErrPendingParent | ErrMissingCriticalRefs | ErrNoParentYet => Retry
  | _ => Failed
  end.

(** The mempool's callback. *)
Definition processMempoolTx (sc : T * controller) (tx : Tx) : outcome (T * controller * Tx * processTxOutcome) :=
  let! r := tryApplyTx (mkCstate sc.1 sc.2 tx) in
  let '(s, res) := r in
  Ret (cs_store s, cs_ctrl s, cs_tx s, match res with inl _ => Succeeded | inr e => outcome_of_error e end).

(** [AddTx], with the transaction as it leaves it. *)
Definition AddTx (force : bool) : act unit :=
  do! tx := act_get cs_tx in
  do! store := act_get cs_store in
  if negb force && TxExists store (tx_StateURI tx) (tx_ID tx) then act_ret tt
  else
    do! _ := if negb force then act_lift (Tx_Hash keccak256 tx) else act_ret [] in
    do! _ := act_tx (λ tx, with_status tx TxStatusInMempool) in
    do! tx := act_get cs_tx in
    do! _ := act_store (λ t, store_AddTx t tx) in
    act_ctrl (λ c, with_mempool c (Deliver (c_mempool c) (Some tx))).

Definition HaveTx (store : T) (c : controller) (txID : ID) : bool := TxExists store (c_stateURI c) txID.

Definition controller_Leaves (store : T) (c : controller) : list ID := Leaves store (c_stateURI c).

Definition controller_StateAtVersion (c : controller) (version : option ID) : DBNode T :=
  StateAtVersion (λ _, c_states c) (default CurrentVersion version) false.

Definition controller_IsPrivate (c : controller) : outcome bool :=
  match db_NodeInfo (controller_StateAtVersion c None) MembersKeypath with
  | Err e => if decide (e = Err404) then Ret false else Err e
  | Ret (nodeType, _, length) => Ret (bool_decide (nodeType = NodeTypeMap ∧ length > 0)%Z)
  | Panic => Panic
  | Running => Running
  end.

Definition controller_IsMember (c : controller) (addr : Address) : outcome bool :=
  let! v := db_BoolValue (controller_StateAtVersion c None) (Push MembersKeypath (Address_Hex addr)) in
  Ret (default false v).

(** The value of a child is read through a node rooted at the child. *)
Definition member_of (state : DBNode T) (childKeypath : Keypath) : outcome (option Address) :=
  let node := mkDBNode (db_tx state) (db_diff state) (keyPrefix state) childKeypath (db_rng state) (mutable state) in
  match db_StringValue node [] with
  | Ret (Some addrHex) =>
      match AddressFromHex addrHex with Ret a => Ret (Some a) | Err _ => Ret None | Panic => Panic | Running => Running end
  | Ret None | Err _ => Ret None
  | Panic => Panic
  | Running => Running
  end.

Definition Members (c : controller) : outcome (list Address) :=
  let state := controller_StateAtVersion c None in
  let! ks := collect (scan_fuel (db_tx state)) (db_ChildIterator state MembersKeypath) in
  let! addrs := map_outcome (member_of state) ks in
  Ret (omap id addrs).

(** [NewController] and the part of [Start] that sets up its state. *)
Definition NewController (stateURI : bytes) (states : T) : controller :=
  mkController stateURI states (addResolver newBehaviorTree [] dumbResolver) (NewMailbox 0) [] [].
End Controller.
