(* ===== verification/ControllerProps.v ===== *)
(** * What applying a transaction does

    The checks before the commit change nothing that is committed, the commit cannot fail
    half-way on a store that works, and so a transaction is applied as a whole or not at
    all.  The last sections are the invariant of the graph of valid transactions and what
    the bookkeeping of behaviours does with removals. *)

From S2P Require Import Prelude Types Keypath TreeTypes GoValue GoPaths NodeCodec MemoryNode BadgerTxn DBNode DBProps DBVersions.
From S2P Require Import Tx Mempool TxStore Behaviors Nelson Permissions Controller.

Section Facts.
Context {T : Type} `{HL : BadgerLaws T} `{JL : JsonLaws} `{PL : ProtoLaws} `{ML : MapOrderLaw} `{EC : Secp256k1} `{CF : Configs T}.
Context (keccak256 : bytes → bytes) (MatchString : bytes → bytes → option bool).

(** ** Actions *)

Lemma act_bind_inv {A B} (m : act A) (k : A → act B) s s' r :
  act_bind m k s = Ret (s', r) →
  (∃ s1 a, m s = Ret (s1, inl a) ∧ k a s1 = Ret (s', r)) ∨ (∃ e, m s = Ret (s', inr e) ∧ r = inr e).
Proof.
  unfold act_bind. destruct (m s) as [[s1 [a|e]]| | |] eqn:Hm; cbn; [|intros [= <- <-]|done..].
  - intros Hk. left. eauto.
  - right. eauto.
Qed.

Lemma act_lift_inv {A} (m : outcome A) (s s' : cstate) r :
  act_lift m s = Ret (s', r) → s' = s ∧ ((∃ a, m = Ret a ∧ r = inl a) ∨ (∃ e, m = Err e ∧ r = inr e)).
Proof. unfold act_lift. destruct m as [a|e| |]; intros [= <- <-]; eauto. Qed.

Lemma act_bind_eq {A B} (m : act A) (k : A → act B) s s1 a : m s = Ret (s1, inl a) → act_bind m k s = k a s1.
Proof. unfold act_bind. by intros ->. Qed.

(** [m] relates the states before and after it, whether it fails or not. *)
Definition keeps {A} (R : cstate → cstate → Prop) (m : act A) : Prop := ∀ s s' r, m s = Ret (s', r) → R s s'.

Section Keeps.
Context (R : cstate → cstate → Prop) `{!PreOrder R}.

Lemma keeps_bind {A B} (m : act A) (k : A → act B) : keeps R m → (∀ a, keeps R (k a)) → keeps R (act_bind m k).
Proof.
  intros Hm Hk s s' r [(s1 & a & Hma & Hka)|(e & Hma & _)]%act_bind_inv; [|by eapply Hm].
  etrans; [by eapply Hm|by eapply Hk].
Qed.
Lemma keeps_ret {A} (a : A) : keeps R (act_ret a).
Proof. intros s s' r [= <- <-]. done. Qed.
Lemma keeps_get {A} (f : cstate → A) : keeps R (act_get f).
Proof. intros s s' r [= <- <-]. done. Qed.
Lemma keeps_lift {A} (m : outcome A) : keeps R (act_lift m).
Proof. by intros s s' r [-> _]%act_lift_inv. Qed.
End Keeps.

(** Nothing but the behaviours in use and the refs asked for has changed. *)
Definition quiet (s s' : cstate) : Prop :=
  cs_store s' = cs_store s ∧ cs_tx s' = cs_tx s ∧ c_stateURI (cs_ctrl s') = c_stateURI (cs_ctrl s) ∧
  c_states (cs_ctrl s') = c_states (cs_ctrl s) ∧ c_mempool (cs_ctrl s') = c_mempool (cs_ctrl s) ∧
  c_notified (cs_ctrl s') = c_notified (cs_ctrl s).

#[local] Instance quiet_preorder : PreOrder quiet.
Proof. unfold quiet. split; [done|]. intros s1 s2 s3. intuition congruence. Qed.

Lemma quiet_behaviors f : keeps quiet (act_ctrl (λ c, with_behaviors c (f c))).
Proof. by intros s s' r [= <- <-]. Qed.
Lemma quiet_needed f : keeps quiet (act_ctrl (λ c, with_needed c (f c))).
Proof. by intros s s' r [= <- <-]. Qed.

Create HintDb keeps discriminated.
#[local] Hint Resolve keeps_bind keeps_ret keeps_get keeps_lift quiet_behaviors quiet_needed : keeps.
#[local] Hint Extern 0 (PreOrder quiet) => exact quiet_preorder : keeps.

Lemma handleNewRefs_quiet state : keeps quiet (handleNewRefs state).
Proof. unfold handleNewRefs. repeat (apply keeps_bind; [apply _| |intros ?]); auto with keeps. Qed.

Lemma removed_loop_quiet state ks new : keeps quiet (removed_loop state ks new).
Proof.
  revert new. induction ks as [|kp ks IH]; intros new; cbn [removed_loop]; [apply keeps_ret, _|].
  repeat (apply keeps_bind; [apply _| |intros ?]); auto with keeps.
Qed.

Lemma updateBehaviorTree_quiet state : keeps quiet (updateBehaviorTree state).
Proof.
  unfold updateBehaviorTree. repeat (apply keeps_bind; [apply _| |intros ?]); auto using removed_loop_quiet with keeps.
  Qed.

(** ** Before the commit *)

Abbreviation resolvers_of s := (bt_resolvers (c_behaviorTree (cs_ctrl s))).
Abbreviation validators_of s := (bt_validators (c_behaviorTree (cs_ctrl s))).
Abbreviation fresh s := (StateAtVersion (λ _, c_states (cs_ctrl s)) CurrentVersion true).

(** The transaction passed every check, and the resolvers made [state] of the current one. *)
Record prepared (s : cstate) (state : DBNode T) : Prop := {
  pr_intrinsics : check_intrinsics keccak256 (cs_store s) (cs_tx s) = Ret tt;
  pr_validators : run_validators MatchString (validators_of s).2 (reverse (validators_of s).1) (tx_Patches (cs_tx s)) (cs_tx s) = Ret tt;
  pr_resolvers : run_resolvers (resolvers_of s).2 (reverse (resolvers_of s).1) (tx_Patches (cs_tx s)) (cs_tx s) (fresh s) = Ret state
}.

(** The transaction was stored as invalid. *)
Definition refused (s s' : cstate) : Prop :=
  cs_tx s' = with_status (cs_tx s) TxStatusInvalid ∧ cs_ctrl s' = cs_ctrl s ∧
  store_AddTx (cs_store s) (with_status (cs_tx s) TxStatusInvalid) = Ret (cs_store s').

Lemma validate_inv s s' r :
  validate MatchString (cs_tx s) s = Ret (s', r) →
  (s' = s ∧ r = inl tt ∧
     run_validators MatchString (validators_of s).2 (reverse (validators_of s).1) (tx_Patches (cs_tx s)) (cs_tx s) = Ret tt) ∨
  (refused s s' ∧ r = inr ErrInvalidTx) ∨
  (∃ e, cs_store s' = cs_store s ∧ cs_ctrl s' = cs_ctrl s ∧ r = inr e ∧
        cs_tx s' = with_status (cs_tx s) TxStatusInvalid ∧
        store_AddTx (cs_store s) (with_status (cs_tx s) TxStatusInvalid) = Err e).
Proof.
  unfold validate. destruct (run_validators _ _ _ _ _) as [[]|e| |] eqn:Hv; [intros [= <- <-]; by left| |done..].
  unfold act_bind, act_tx, act_get, act_store, act_fail, act_lift. cbn.
  destruct (store_AddTx (cs_store s) _) as [t|e'| |] eqn:Ha; cbn; [| |done..]; intros [= <- <-]; right.
  - left. split; [|done]. split_and!; done.
  - right. by exists e'.
Qed.

Lemma prepare_inv s s' r :
  prepare_tx keccak256 MatchString s = Ret (s', r) →
  match r with
  | inl state => quiet s s' ∧ prepared s state
  | inr e => quiet s s' ∨ (refused s s' ∧ e = ErrInvalidTx) ∨
             (∃ e, store_AddTx (cs_store s) (with_status (cs_tx s) TxStatusInvalid) = Err e)
  end.
Proof.
  unfold prepare_tx. intros Hp. rewrite !(act_bind_eq _ _ s s _ eq_refl) in Hp.
  apply act_bind_inv in Hp as [(s1 & [] & Hi & Hp)|(e & Hi & ->)]; apply act_lift_inv in Hi as [-> Hi]; [|by left].
  destruct Hi as [(a & Hi & [= <-])|(e & _ & ?)]; [|done]. rewrite (act_bind_eq _ _ s s _ eq_refl) in Hp.
  apply act_bind_inv in Hp as [(s1 & [] & Hv & Hp)|(e & Hv & ->)]; apply validate_inv in Hv.
  2: { destruct Hv as [(_ & ? & _)|[[Hr [= ->]]|(e' & _ & _ & _ & _ & He)]]; [done|right; left; by split|right; right; by exists e']. }
  destruct Hv as [(-> & _ & Hv)|[[_ ?]|(? & _ & _ & ? & _)]]; [|done..]. rewrite (act_bind_eq _ _ s s _ eq_refl) in Hp.
  apply act_bind_inv in Hp as [(s1 & state & Hr & Hp)|(e & Hr & ->)]; apply act_lift_inv in Hr as [-> Hr]; [|by left].
  destruct Hr as [(st & Hr & [= <-])|(e & _ & ?)]; [|done].
  assert (keeps quiet (act_bind (handleNewRefs state) (λ _, act_bind (updateBehaviorTree state) (λ _, act_ret state)))) as Hq.
  { apply keeps_bind; [apply _|apply handleNewRefs_quiet|intros _].
    apply keeps_bind; [apply _|apply updateBehaviorTree_quiet|intros _]. apply keeps_ret, _. }
  pose proof (Hq _ _ _ Hp) as Hqs. destruct r as [st|e]; [|by left].
  apply act_bind_inv in Hp as [(s1 & [] & _ & Hp)|(? & _ & ?)]; [|done].
  apply act_bind_inv in Hp as [(s2 & [] & _ & Hp)|(? & _ & ?)]; [|done]. injection Hp as -> <-. by split.
Qed.

(** ** The commit *)

Lemma unmark_parents_spec uri ps s :
  ∃ t, unmark_parents uri ps s = Ret (mkCstate t (cs_ctrl s) (cs_tx s), inl tt) ∧
    ∀ k, txn_get t k = if decide (k ∈ leafKey uri <$> ps) then None else txn_get (cs_store s) k.
Proof.
  revert s. induction ps as [|p ps IH]; intros s; cbn [unmark_parents foldr].
  - exists (cs_store s). split; [by destruct s|]. intros k. rewrite decide_False; [done|]. by intros ?%elem_of_nil.
  - destruct (law_delete (cs_store s) (leafKey uri p)) as (t1 & Ht1 & Hg1); [done|].
    erewrite act_bind_eq; [|unfold act_store, act_bind, act_lift, UnmarkLeaf; rewrite Ht1; reflexivity].
    destruct (IH (mkCstate t1 (cs_ctrl s) (cs_tx s))) as (t & Ht & Hg). exists t. split; [exact Ht|].
    intros k. rewrite Hg. cbn [cs_store]. rewrite Hg1, fmap_cons.
    destruct (decide (k ∈ leafKey uri <$> ps)) as [Hk|Hk]; [by rewrite decide_True by (by right)|].
    destruct (decide (k = leafKey uri p)) as [->|Hne]; [by rewrite decide_True by (by left)|].
    rewrite decide_False; [done|]. by intros [?|?]%elem_of_cons.
Qed.

(** The store [t'] after [tx] was recorded: its leaf entries, and its transactions. *)
Record recorded (t t' : T) (tx : Tx) : Prop := {
  rec_leaf uri id : txn_get t' (leafKey uri id) =
    if decide (leafKey uri id = leafKey (tx_StateURI tx) (tx_ID tx)) then Some []
    else if decide (leafKey uri id ∈ leafKey (tx_StateURI tx) <$> tx_Parents tx) then None
    else txn_get t (leafKey uri id);
  rec_self : get_tx t' (tx_StateURI tx) (tx_ID tx) = Ret (uncached (with_status tx TxStatusValid));
  rec_parents p ptx : p ∈ tx_Parents tx → get_tx t (tx_StateURI tx) p = Ret ptx →
    ∃ ptx', get_tx t' (tx_StateURI tx) p = Ret ptx' ∧ storable ptx' ∧ rechilded ptx ptx' (λ x, x = tx_ID tx ∨ x ∈ tx_Children ptx);
  rec_others uri id : length id = id_length → (uri, id) ≠ (tx_StateURI tx, tx_ID tx) →
    (uri ≠ tx_StateURI tx ∨ id ∉ tx_Parents tx) → get_tx t' uri id = get_tx t uri id
}.

(** A transaction that can be recorded. *)
Definition recordable (t : T) (tx : Tx) : Prop :=
  storable (with_status tx TxStatusValid) ∧ tx_ID tx ∉ tx_Parents tx ∧
  ∀ p, p ∈ tx_Parents tx → stored_parent t (tx_StateURI tx) p.

Lemma txn_get_agree (t t' : T) uri id :
  (∀ k, (∀ u x, k ≠ leafKey u x) → txn_get t' k = txn_get t k) → get_tx t' uri id = get_tx t uri id.
Proof. intros Heq. unfold get_tx. rewrite Heq; [done|]. apply makeTxKey_other. exact []. Qed.

Lemma record_tx_spec s :
  c_stateURI (cs_ctrl s) = tx_StateURI (cs_tx s) → recordable (cs_store s) (cs_tx s) →
  ∃ t', record_tx s =
    Ret (mkCstate t' (with_notified (cs_ctrl s)
           (c_notified (cs_ctrl s) ++ [(with_status (cs_tx s) TxStatusValid, Leaves t' (tx_StateURI (cs_tx s)))]))
         (with_status (cs_tx s) TxStatusValid), inl tt) ∧
    recorded (cs_store s) t' (cs_tx s).
Proof.
  intros Huri (Hst & Hnot & Hpar). destruct s as [t c tx]. cbn [cs_store cs_ctrl cs_tx] in *.
  destruct (unmark_parents_spec (tx_StateURI tx) (tx_Parents tx) (mkCstate t c tx)) as (t1 & Ht1 & Hg1). cbn [cs_store cs_ctrl cs_tx] in *.
  destruct (law_set t1 (leafKey (tx_StateURI tx) (tx_ID tx)) []) as (t2 & Ht2 & Hg2); [done|].
  assert (∀ k, (∀ u x, k ≠ leafKey u x) → txn_get t2 k = txn_get t k) as Hnl.
  { intros k Hk. rewrite Hg2, decide_False by done. rewrite Hg1, decide_False; [done|].
    intros (p & Hp & _)%list_elem_of_fmap. by apply Hk in Hp. }
  assert (∀ uri id, get_tx t2 uri id = get_tx t uri id) as Hget by (intros; by apply txn_get_agree).
  destruct (AddTx_spec t2 (with_status tx TxStatusValid)) as (t' & Hadd & Hself & Hpars & Hoth & _).
  { split; [done|]. split; [done|]. intros _ p Hp. destruct (Hpar p Hp) as (ptx & Hptx & Hpst). exists ptx.
    cbn [tx_StateURI with_status]. by rewrite Hget. }
  exists t'. split.
  - unfold record_tx. rewrite (act_bind_eq _ _ _ _ _ eq_refl). cbn [cs_tx]. rewrite (act_bind_eq _ _ _ _ _ eq_refl). cbn [cs_ctrl].
    rewrite Huri. rewrite (act_bind_eq _ _ _ _ _ Ht1).
    erewrite act_bind_eq; [|unfold act_store, act_bind, act_lift, MarkLeaf; cbn [cs_store]; rewrite Ht2; reflexivity].
    rewrite (act_bind_eq _ _ _ _ _ eq_refl). rewrite (act_bind_eq _ _ _ _ _ eq_refl). cbn [cs_store cs_ctrl cs_tx].
    erewrite act_bind_eq; [|unfold act_store, act_bind, act_lift; cbn [cs_store]; rewrite Hadd; reflexivity].
    rewrite (act_bind_eq _ _ _ _ _ eq_refl). cbn [cs_store cs_ctrl cs_tx]. reflexivity.
  - cbn [tx_StateURI tx_ID tx_Parents tx_Status with_status] in *. split.
    + intros uri id. rewrite Hoth; [by rewrite Hg2; case_decide; [done|rewrite Hg1]|..].
      * intros Heq. symmetry in Heq. by apply makeTxKey_other in Heq.
      * done.
      * intros _ p _ Heq. symmetry in Heq. by apply makeTxKey_other in Heq.
    + exact Hself.
    + intros p ptx Hp Hptx. apply Hpars; [done..|]. by rewrite Hget.
    + intros uri id Hl Hne Hnp. rewrite <- Hget. unfold get_tx. rewrite Hoth; [done|..].
      * intros [-> ->]%makeTxKey_inj; [done|]. destruct Hst as [[Hid _ _ _ _ _] _]. cbn in Hid. congruence.
      * apply makeTxKey_other.
      * intros _ p Hp [-> ->]%makeTxKey_inj; [by destruct Hnp|]. destruct Hst as [[_ Hlen _ _ _ _] _]. cbn in Hlen.
        rewrite Forall_forall in Hlen. rewrite Hl. symmetry. by apply Hlen.
Qed.

(** The state database after the commit of [state]. *)
Definition committed (tx : Tx) (state : DBNode T) (states : T) : Prop :=
  (∀ k, db_get (at_version states CurrentVersion) k = db_get (at_version (db_tx state) CurrentVersion) k) ∧
  (tx_Checkpoint tx = true → ∀ k v,
     db_get (at_version (db_tx state) CurrentVersion) k = Some v → db_get (at_version states (tx_ID tx)) k = Some v).

Lemma copy_keeps_current (t t' : T) (id : ID) k :
  length id = id_length → CopyVersion t id CurrentVersion = Ret t' →
  db_get (at_version t' CurrentVersion) k = db_get (at_version t CurrentVersion) k ∧
  (∀ v, db_get (at_version t CurrentVersion) k = Some v → db_get (at_version t' id) k = Some v).
Proof.
  intros Hid Hc. destruct (CopyVersion_spec t id CurrentVersion Hid eq_refl) as (t2 & Hc2 & Hdst & Hoth).
  assert (t2 = t') as -> by congruence. split.
  - destruct (decide (id = CurrentVersion)) as [->|Hne].
    + rewrite Hdst. by destruct (db_get _ k).
    + apply Hoth. by apply state_prefix_differs.
  - intros v Hv. by rewrite Hdst, Hv.
Qed.

Lemma commit_spec (state : DBNode T) s :
  c_stateURI (cs_ctrl s) = tx_StateURI (cs_tx s) → recordable (cs_store s) (cs_tx s) →
  ∃ s', commit_tx state s = Ret (s', inl tt) ∧ recorded (cs_store s) (cs_store s') (cs_tx s) ∧
    committed (cs_tx s) state (c_states (cs_ctrl s')) ∧ cs_tx s' = with_status (cs_tx s) TxStatusValid ∧
    c_notified (cs_ctrl s') = c_notified (cs_ctrl s) ++
      [(with_status (cs_tx s) TxStatusValid, Leaves (cs_store s') (tx_StateURI (cs_tx s)))].
Proof.
  intros Huri Hrec. destruct s as [t c tx]. cbn [cs_store cs_ctrl cs_tx] in *.
  assert (length (tx_ID tx) = id_length) as Hid by (destruct Hrec as [[[Hid _ _ _ _ _] _] _]; exact Hid).
  assert (∃ states, checkpoint tx (mkCstate t (with_states c (db_tx state)) tx) = Ret (mkCstate t (with_states c states) tx, inl tt) ∧
            committed tx state states) as (states & Hck & Hcom).
  { unfold checkpoint, committed. destruct (tx_Checkpoint tx); [|exists (db_tx state); by split].
    destruct (CopyVersion_spec (db_tx state) (tx_ID tx) CurrentVersion Hid eq_refl) as (t' & Hc & _). exists t'. split.
    - rewrite (act_bind_eq _ _ _ _ _ eq_refl). cbn [cs_ctrl]. unfold act_bind, act_lift. cbn [c_states with_states]. by rewrite Hc.
    - split; [|intros _]; intros k; by apply (copy_keeps_current _ _ _ k Hid Hc). }
  destruct (record_tx_spec (mkCstate t (with_states c states) tx) Huri Hrec) as (t' & Hrt & Hr). cbn [cs_store cs_ctrl cs_tx] in *.
  eexists. split.
  - unfold commit_tx. rewrite (act_bind_eq _ _ _ _ _ eq_refl). cbn [cs_tx]. unfold Save. rewrite (act_bind_eq _ _ _ _ _ eq_refl).
    cbn [cs_store cs_ctrl cs_tx]. rewrite (act_bind_eq _ _ _ _ _ Hck). exact Hrt.
  - split; [exact Hr|]. split; [exact Hcom|by split].
Qed.

(** ** Inputs *)

Definition tx_statuses : list TxStatus := [TxStatusInMempool; TxStatusInvalid; TxStatusValid].

(** A transaction the store can hold under each of its statuses, whose parents, as far as
    they are stored, can be written back. *)
Record applicable (t : T) (tx : Tx) : Prop := {
  ap_storable st : st ∈ tx_statuses → storable (with_status tx st);
  ap_not_self : tx_ID tx ∉ tx_Parents tx;
  ap_parents p ptx : p ∈ tx_Parents tx → get_tx t (tx_StateURI tx) p = Ret ptx → storable ptx
}.

Lemma check_parents_inv t uri ps :
  check_parents t uri ps = Ret tt →
  ∀ p, p ∈ ps → ∃ ptx, get_tx t uri p = Ret ptx ∧ tx_Status ptx ≠ TxStatusInvalid ∧ tx_Status ptx ≠ TxStatusInMempool.
Proof.
  induction ps as [|q ps IH]; intros Hc p Hp; [by apply elem_of_nil in Hp|]. cbn [check_parents] in Hc.
  destruct (FetchTx t uri q) as [ptx|e| |] eqn:Hq; [|by case_decide|done..]. apply FetchTx_get_tx in Hq.
  repeat case_decide; [done..|]. apply elem_of_cons in Hp as [->|Hp]; [by exists ptx|by apply IH].
Qed.

Lemma check_intrinsics_inv t tx :
  check_intrinsics keccak256 t tx = Ret tt →
  (tx_Parents tx = [] → tx_ID tx = GenesisTxID) ∧ check_parents t (tx_StateURI tx) (tx_Parents tx) = Ret tt ∧
  ∃ h pk, Tx_Hash keccak256 tx = Ret h ∧ SigToPub h (tx_Sig tx) = Ret pk ∧
    VerifySignature pk h (tx_Sig tx) = Ret true ∧ PublicKey_Address pk = tx_From tx.
Proof.
  unfold check_intrinsics. case_decide as Hp; [done|].
  destruct (check_parents t _ _) as [[]| | |]; cbn [obind]; [|done..]. unfold check_signature.
  destruct (Tx_Hash keccak256 tx) as [h| | |] eqn:Hh; cbn [obind]; [|done..]. unfold RecoverSigningPubkey.
  destruct (SigToPub h (tx_Sig tx)) as [pk| | |] eqn:Hpk; [|done..].
  destruct (VerifySignature pk h (tx_Sig tx)) as [[]| | |] eqn:Hv; cbn [obind negb]; [|done..].
  case_decide as Ha; [done|]. intros _. split.
  - intros Hnil. destruct (decide (tx_ID tx = GenesisTxID)); [done|]. destruct Hp. by rewrite Hnil.
  - split; [done|]. exists h, pk. split_and!; [done..|]. destruct (decide (PublicKey_Address pk = tx_From tx)); [done|]. by destruct Ha.
Qed.

Lemma prepared_recordable s state : applicable (cs_store s) (cs_tx s) → prepared s state → recordable (cs_store s) (cs_tx s).
Proof.
  intros [Hst Hns Hpar] [Hi _ _]. split; [apply Hst; vm_decide|]. split; [done|]. intros p Hp.
  apply check_intrinsics_inv in Hi as (_ & Hcp & _). destruct (check_parents_inv _ _ _ Hcp p Hp) as (ptx & Hptx & _).
  exists ptx. split; [done|by eapply Hpar].
Qed.

(** ** The two ways a call ends *)

Lemma tryApplyTx_inv s s' r :
  c_stateURI (cs_ctrl s) = tx_StateURI (cs_tx s) → applicable (cs_store s) (cs_tx s) →
  tryApplyTx keccak256 MatchString s = Ret (s', r) →
  (r = inl tt ∧ ∃ state, prepared s state ∧ recorded (cs_store s) (cs_store s') (cs_tx s) ∧
     committed (cs_tx s) state (c_states (cs_ctrl s')) ∧ cs_tx s' = with_status (cs_tx s) TxStatusValid ∧
     c_notified (cs_ctrl s') = c_notified (cs_ctrl s) ++
      [(with_status (cs_tx s) TxStatusValid, Leaves (cs_store s') (tx_StateURI (cs_tx s)))]) ∨
  (∃ e, r = inr e ∧ (quiet s s' ∨ (refused s s' ∧ e = ErrInvalidTx))).
Proof.
  intros Huri Hap. unfold tryApplyTx. intros [(s1 & state & Hp & Hc)|(e & Hp & ->)]%act_bind_inv; apply prepare_inv in Hp; cbv beta iota in Hp.
  - destruct Hp as [(Hs & Htx & Hu & Hst & _ & Hn) Hpr]. left.
    destruct (commit_spec state s1) as (s2 & Hc2 & Hrec & Hcom & Htx2 & Hnot).
    + by rewrite Hu, Htx.
    + rewrite Hs, Htx. by eapply prepared_recordable.
    + rewrite Hc in Hc2. injection Hc2 as -> ->. split; [done|]. exists state. rewrite Hs, Htx in Hrec. rewrite Htx in Hcom, Htx2.
      rewrite Htx, Hn in Hnot. done.
  - right. exists e. split; [done|]. destruct Hp as [Hq|[Hr|[e' He]]]; [by left|by right|]. exfalso.
    destruct (AddTx_spec (cs_store s) (with_status (cs_tx s) TxStatusInvalid)) as (t2 & Hadd & _); [|congruence].
    destruct Hap as [Hst Hns _]. split; [apply Hst; vm_decide|]. split; [done|]. intros [=].
Qed.
End Facts.

(** ** Theorems *)

Section Theorems.
Context {T : Type} `{HL : BadgerLaws T} `{JL : JsonLaws} `{PL : ProtoLaws} `{ML : MapOrderLaw} `{EC : Secp256k1} `{CF : Configs T}.
Context (keccak256 : bytes → bytes) (MatchString : bytes → bytes → option bool).

Lemma recorded_leaf_keys_ok (t t' : T) tx :
  length (tx_ID tx) = id_length → leaf_keys_ok t (tx_StateURI tx) → recorded t t' tx → leaf_keys_ok t' (tx_StateURI tx).
Proof.
  intros Hid Hok Hr x. rewrite <- leafKey_app, (rec_leaf _ _ _ Hr). case_decide as Hx.
  - intros _. rewrite (leafKey_app _ x), (leafKey_app _ (tx_ID tx)) in Hx. by apply (inj _) in Hx as ->.
  - case_decide; [by intros []|]. rewrite leafKey_app. apply Hok.
Qed.

Lemma recorded_leaves (t t' : T) tx id :
  length (tx_ID tx) = id_length → leaf_keys_ok t (tx_StateURI tx) → recorded t t' tx →
  id ∈ Leaves t' (tx_StateURI tx) ↔ id = tx_ID tx ∨ (id ∉ tx_Parents tx ∧ id ∈ Leaves t (tx_StateURI tx)).
Proof.
  intros Hid Hok Hr. pose proof (recorded_leaf_keys_ok t t' tx Hid Hok Hr) as Hok'.
  assert (∀ a b, leafKey (tx_StateURI tx) a = leafKey (tx_StateURI tx) b ↔ a = b) as Hinj.
  { intros a b. split; [|by intros ->]. rewrite (leafKey_app _ a), (leafKey_app _ b). by intros ?%(inj _). }
  rewrite !Leaves_elem by done. rewrite (rec_leaf _ _ _ Hr). destruct (decide (id = tx_ID tx)) as [->|Hne].
  - rewrite decide_True by done. split; [by left|by eexists].
  - rewrite decide_False by (by rewrite Hinj). case_decide as Hin.
    + apply list_elem_of_fmap in Hin as (p & Hp & Hpin). apply Hinj in Hp as ->. split; [by intros []|intros [?|[? _]]; done].
    + split; [intros Hs; right; split; [|done]|by intros [?|[_ ?]]]. intros Hp. apply Hin. by apply list_elem_of_fmap_2.
Qed.

(** C1: a transaction that [tryApplyTx] accepts has passed every check and is recorded
    completely: it is the genesis or has parents, all of them are stored and neither invalid
    nor waiting, its signature over its hash recovers a key that verifies it and whose
    address is the sender, and every validator accepted its share of the patches.
    Afterwards the store holds it as valid, it is a leaf, its parents no longer are and no
    other leaf has changed, the current version of the state is exactly what the resolvers
    made of it (also after a checkpoint, which copies it to the transaction's own version),
    and the listeners were told. *)
Theorem tx_applied (s s' : cstate) :
  c_stateURI (cs_ctrl s) = tx_StateURI (cs_tx s) → applicable (cs_store s) (cs_tx s) →
  leaf_keys_ok (cs_store s) (tx_StateURI (cs_tx s)) →
  tryApplyTx keccak256 MatchString s = Ret (s', inl tt) →
  let tx := cs_tx s in
  (tx_Parents tx = [] → tx_ID tx = GenesisTxID) ∧
  (∀ p, p ∈ tx_Parents tx → ∃ ptx, FetchTx (cs_store s) (tx_StateURI tx) p = Ret ptx ∧
     tx_Status ptx ≠ TxStatusInvalid ∧ tx_Status ptx ≠ TxStatusInMempool) ∧
  (∃ h pk, Tx_Hash keccak256 tx = Ret h ∧ SigToPub h (tx_Sig tx) = Ret pk ∧
     VerifySignature pk h (tx_Sig tx) = Ret true ∧ PublicKey_Address pk = tx_From tx) ∧
  FetchTx (cs_store s') (tx_StateURI tx) (tx_ID tx) = Ret (uncached (with_status tx TxStatusValid)) ∧
  (∀ id, id ∈ Leaves (cs_store s') (tx_StateURI tx) ↔
     id = tx_ID tx ∨ (id ∉ tx_Parents tx ∧ id ∈ Leaves (cs_store s) (tx_StateURI tx))) ∧
  (∃ state, prepared keccak256 MatchString s state ∧ committed tx state (c_states (cs_ctrl s'))) ∧
  c_notified (cs_ctrl s') = c_notified (cs_ctrl s) ++
    [(with_status tx TxStatusValid, Leaves (cs_store s') (tx_StateURI tx))].
Proof.
  intros Huri Hap Hok Happ tx. destruct (tryApplyTx_inv _ _ _ _ _ Huri Hap Happ) as
    [(_ & state & Hpr & Hrec & Hcom & _ & Hnot)|(e & ? & _)]; [|done].
  destruct (check_intrinsics_inv _ _ _ (pr_intrinsics _ _ _ _ Hpr)) as (Hgen & Hcp & Hsig).
  assert (length (tx_ID tx) = id_length) as Hid by (destruct (ap_storable _ _ Hap TxStatusValid) as [[Hid _ _ _ _ _] _]; [vm_decide|exact Hid]).
  split; [exact Hgen|]. split.
  { intros p Hp. destruct (check_parents_inv _ _ _ Hcp p Hp) as (ptx & Hptx & Hs). exists ptx. split; [by apply FetchTx_get_tx|done]. }
  split; [exact Hsig|]. split; [apply FetchTx_get_tx, (rec_self _ _ _ Hrec)|].
  split; [intros id; by apply recorded_leaves|]. split; [by exists state|exact Hnot].
Qed.

(** C4: a transaction that is not accepted leaves no trace in what is committed: the state
    database, the leaves, the mempool, every other transaction and the listeners are as
    before, and the transaction itself is as before or, when a validator refused it, stored
    as invalid.  In particular a commit never fails half-way. *)
Theorem tx_refused_without_trace (s s' : cstate) e :
  c_stateURI (cs_ctrl s) = tx_StateURI (cs_tx s) → applicable (cs_store s) (cs_tx s) →
  tryApplyTx keccak256 MatchString s = Ret (s', inr e) →
  let tx := cs_tx s in
  c_states (cs_ctrl s') = c_states (cs_ctrl s) ∧ c_notified (cs_ctrl s') = c_notified (cs_ctrl s) ∧
  c_mempool (cs_ctrl s') = c_mempool (cs_ctrl s) ∧
  (∀ uri id, txn_get (cs_store s') (leafKey uri id) = txn_get (cs_store s) (leafKey uri id)) ∧
  (∀ uri id, length id = id_length → (uri, id) ≠ (tx_StateURI tx, tx_ID tx) →
     FetchTx (cs_store s') uri id = FetchTx (cs_store s) uri id) ∧
  (FetchTx (cs_store s') (tx_StateURI tx) (tx_ID tx) = FetchTx (cs_store s) (tx_StateURI tx) (tx_ID tx) ∨
   e = ErrInvalidTx ∧
   FetchTx (cs_store s') (tx_StateURI tx) (tx_ID tx) = Ret (uncached (with_status tx TxStatusInvalid))).
Proof.
  intros Huri Hap Happ tx. destruct (tryApplyTx_inv _ _ _ _ _ Huri Hap Happ) as
    [(? & _)|(e' & [= <-] & [(Hs & _ & _ & Hst & Hmb & Hn)|[(_ & Hc & Hadd) ->]])]; [done| |].
  - rewrite Hs. split_and!; [done..|by left].
  - destruct (AddTx_spec (cs_store s) (with_status tx TxStatusInvalid)) as (t' & Hadd' & Hself & _ & Hoth & _).
    { split; [apply Hap; vm_decide|]. split; [apply Hap|]. intros [=]. }
    assert (t' = cs_store s') as -> by (unfold tx in Hadd'; congruence). rewrite Hc.
    assert (length (tx_ID tx) = id_length) as Hid by (destruct (ap_storable _ _ Hap TxStatusValid) as [[Hid _ _ _ _ _] _]; [vm_decide|exact Hid]).
    do 3 (split; [done|]). split.
    + intros uri id. apply Hoth; [|done|intros [=]]. intros Heq. symmetry in Heq. by apply makeTxKey_other in Heq.
    + split.
      * intros uri id Hl Hne. unfold FetchTx. rewrite Hoth; [done| |done|intros [=]].
        cbn [tx_StateURI tx_ID with_status]. intros [-> ->]%makeTxKey_inj; [done|congruence].
      * right. split; [done|]. by apply FetchTx_get_tx.
Qed.

(** ** The graph of valid transactions *)

(** Everything stored can be written back, has one of the three statuses, and a valid
    transaction has only valid parents. *)
Definition graph_inv (t : T) : Prop :=
  ∀ uri id tx, length id = id_length → get_tx t uri id = Ret tx →
    storable tx ∧ tx_Status tx ∈ tx_statuses ∧
    (tx_Status tx = TxStatusValid → ∀ p, p ∈ tx_Parents tx →
       ∃ ptx, get_tx t uri p = Ret ptx ∧ tx_Status ptx = TxStatusValid).

(** A transaction arrives (not forced), or the mempool hands one over that the store lists
    as waiting. *)
Inductive ctl_step : T * controller → T * controller → Prop :=
  | step_add t c tx s' r :
      applicable t tx → AddTx keccak256 false (mkCstate t c tx) = Ret (s', r) → ctl_step (t, c) (cs_store s', cs_ctrl s')
  | step_process t c tx tx0 s' r :
      c_stateURI c = tx_StateURI tx → applicable t tx →
      get_tx t (tx_StateURI tx) (tx_ID tx) = Ret tx0 → tx_Status tx0 = TxStatusInMempool →
      tryApplyTx keccak256 MatchString (mkCstate t c tx) = Ret (s', r) → ctl_step (t, c) (cs_store s', cs_ctrl s').

Lemma storable_uncached tx : storable tx → storable (uncached tx).
Proof. intros [[] Hm]. split; [by split|]. exact Hm. Qed.

(** Replacing one transaction that was not valid before, by one that is not valid either. *)
Lemma graph_inv_replace (t t' : T) uri0 id0 tx0 :
  graph_inv t → storable tx0 → tx_Status tx0 ∈ tx_statuses → tx_Status tx0 ≠ TxStatusValid →
  (∀ old, get_tx t uri0 id0 = Ret old → tx_Status old ≠ TxStatusValid) →
  get_tx t' uri0 id0 = Ret tx0 →
  (∀ uri id, length id = id_length → (uri, id) ≠ (uri0, id0) → get_tx t' uri id = get_tx t uri id) →
  graph_inv t'.
Proof.
  intros Hinv Hst Hs Hnv Hold Hself Hoth uri id tx Hl Hget. destruct (decide ((uri, id) = (uri0, id0))) as [[= -> ->]|Hne].
  - rewrite Hself in Hget. injection Hget as <-. done.
  - rewrite Hoth in Hget by done. destruct (Hinv uri id tx Hl Hget) as (Hst1 & Hs1 & Hpar). split; [done|]. split; [done|].
    intros Hv p Hp. destruct (Hpar Hv p Hp) as (ptx & Hptx & Hpv). exists ptx. split; [|done]. rewrite Hoth; [done| |].
    + destruct Hst1 as [[_ Hlen _ _ _ _] _]. rewrite Forall_forall in Hlen. by apply Hlen.
    + intros [= -> ->]. by apply (Hold ptx).
Qed.

Lemma graph_inv_recorded (t t' : T) tx :
  graph_inv t → applicable t tx → recorded t t' tx →
  (∀ old, get_tx t (tx_StateURI tx) (tx_ID tx) = Ret old → tx_Status old ≠ TxStatusValid) →
  (∀ p, p ∈ tx_Parents tx → ∃ ptx, get_tx t (tx_StateURI tx) p = Ret ptx ∧ tx_Status ptx = TxStatusValid) →
  graph_inv t'.
Proof.
  intros Hinv Hap Hr Hold Hparents. pose proof (ap_storable _ _ Hap TxStatusValid ltac:(vm_decide)) as Hstv.
  assert (length (tx_ID tx) = id_length ∧ Forall (λ p, length p = id_length) (tx_Parents tx)) as [Hid Hlens] by (by destruct Hstv as [[] _]).
  assert (∀ uri id old, length id = id_length → get_tx t uri id = Ret old → (uri, id) ≠ (tx_StateURI tx, tx_ID tx) →
    ∃ new, get_tx t' uri id = Ret new ∧ storable new ∧ tx_Status new = tx_Status old ∧ tx_Parents new = tx_Parents old) as Hkept.
  { intros uri id old Hl Hg Hne. destruct (decide (uri = tx_StateURI tx ∧ id ∈ tx_Parents tx)) as [[-> Hp]|Hn].
    - destruct (rec_parents _ _ _ Hr id old Hp Hg) as (new & Hnew & Hst & [Hw _]). exists new. rewrite <- Hw. by destruct new.
    - exists old. rewrite (rec_others _ _ _ Hr) by (first [done|tauto || (destruct (decide (uri = tx_StateURI tx)); tauto)]).
      split; [done|]. by destruct (Hinv uri id old Hl Hg). }
  intros uri id tx1 Hl Hget. destruct (decide ((uri, id) = (tx_StateURI tx, tx_ID tx))) as [[= -> ->]|Hne].
  - rewrite (rec_self _ _ _ Hr) in Hget. injection Hget as <-. split; [by apply storable_uncached|]. split; [vm_decide|].
    intros _ p Hp. cbn [tx_Parents uncached with_status] in Hp. destruct (Hparents p Hp) as (ptx & Hptx & Hpv).
    rewrite Forall_forall in Hlens. destruct (Hkept _ _ _ (Hlens p Hp) Hptx) as (new & Hnew & _ & Hs & _).
    + intros [= ->]. by apply (ap_not_self _ _ Hap).
    + exists new. split; [done|congruence].
  - destruct (get_tx t uri id) as [old|e| |] eqn:Hg.
    2-4: exfalso; destruct (decide (uri = tx_StateURI tx ∧ id ∈ tx_Parents tx)) as [[-> Hp]|Hn];
      [destruct (Hparents id Hp) as (? & ? & _); congruence
      |rewrite (rec_others _ _ _ Hr) in Hget by (first [done|destruct (decide (uri = tx_StateURI tx)); tauto]); congruence].
    destruct (Hkept uri id old Hl Hg Hne) as (new & Hnew & Hst & Hs & Hps). assert (new = tx1) as -> by congruence.
    destruct (Hinv uri id old Hl Hg) as (Hsto & Hstat & Hpar). split; [done|]. rewrite Hs, Hps. split; [done|].
    intros Hv p Hp. destruct (Hpar Hv p Hp) as (ptx & Hptx & Hpv).
    destruct Hsto as [[_ Hlen _ _ _ _] _]. rewrite Forall_forall in Hlen.
    destruct (Hkept uri p ptx (Hlen p Hp) Hptx) as (pnew & Hpnew & _ & Hpst & _).
    + intros [= -> ->]. by apply (Hold ptx).
    + exists pnew. split; [done|congruence].
Qed.

Lemma applicable_add (t : T) tx st :
  applicable t tx → st ∈ tx_statuses → st ≠ TxStatusValid →
  ∃ t', store_AddTx t (with_status tx st) = Ret t' ∧
    get_tx t' (tx_StateURI tx) (tx_ID tx) = Ret (uncached (with_status tx st)) ∧
    ∀ uri id, length id = id_length → (uri, id) ≠ (tx_StateURI tx, tx_ID tx) → get_tx t' uri id = get_tx t uri id.
Proof.
  intros Hap Hst Hnv. destruct (AddTx_spec t (with_status tx st)) as (t' & Hadd & Hself & _ & Hoth & _).
  { split; [by apply Hap|]. split; [apply Hap|]. intros Hv. by destruct Hnv. }
  exists t'. split; [done|]. split; [exact Hself|]. intros uri id Hl Hne. unfold get_tx. rewrite Hoth; [done| |done|].
  - destruct (ap_storable _ _ Hap st Hst) as [[Hid _ _ _ _ _] _]. cbn [tx_ID tx_StateURI with_status] in *.
    intros [-> ->]%makeTxKey_inj; [done|congruence].
  - intros Hv. by destruct Hnv.
Qed.

Lemma AddTx_inv (t : T) c tx s' r :
  AddTx keccak256 false (mkCstate t c tx) = Ret (s', r) →
  cs_store s' = t ∨ (TxExists t (tx_StateURI tx) (tx_ID tx) = false ∧ store_AddTx t (with_status tx TxStatusInMempool) = Ret (cs_store s')).
Proof.
  unfold AddTx. rewrite !(act_bind_eq _ _ _ _ _ eq_refl). cbn [cs_tx cs_store negb andb].
  destruct (TxExists t (tx_StateURI tx) (tx_ID tx)) eqn:He; [intros [= <- _]; by left|].
  intros [(s1 & h & Hl & Hk)|(e & Hl & _)]%act_bind_inv; apply act_lift_inv in Hl as [-> _]; [|by left].
  rewrite !(act_bind_eq _ _ _ _ _ eq_refl) in Hk. cbn [cs_tx cs_store cs_ctrl] in Hk.
  apply act_bind_inv in Hk as [(s1 & [] & Hs & Hk)|(e & Hs & _)]; unfold act_store, act_bind, act_lift in Hs; cbn [cs_store] in Hs;
    destruct (store_AddTx t (with_status tx TxStatusInMempool)) as [t'| | |] eqn:Ha; try done; injection Hs as <-.
  - injection Hk as <- _. by right.
  - by left.
Qed.

Lemma ctl_step_graph_inv sc sc' : ctl_step sc sc' → graph_inv sc.1 → graph_inv sc'.1.
Proof.
  intros Hstep Hinv. destruct Hstep as [t c tx s' r Hap Hadd|t c tx tx0 s' r Huri Hap Hget Hwait Happ]; cbn [fst] in *.
  - apply AddTx_inv in Hadd as [->|[Hnew Hadd]]; [done|].
    destruct (applicable_add t tx TxStatusInMempool Hap ltac:(vm_decide) ltac:(done)) as (t' & Ha & Hself & Hoth).
    assert (t' = cs_store s') as -> by congruence.
    eapply graph_inv_replace; [exact Hinv|..|exact Hself|exact Hoth]; [|vm_decide|done|].
    + apply storable_uncached, Hap. vm_decide.
    + intros old. unfold get_tx. unfold TxExists in Hnew. by destruct (txn_get t _).
  - assert (∀ old, get_tx t (tx_StateURI tx) (tx_ID tx) = Ret old → tx_Status old ≠ TxStatusValid) as Hold.
    { intros old Ho. assert (old = tx0) as -> by congruence. rewrite Hwait. done. }
    destruct (tryApplyTx_inv _ _ (mkCstate t c tx) _ _ Huri Hap Happ) as
      [(_ & state & Hpr & Hrec & _)|(e & _ & [(Hs & _)|[(_ & _ & Hadd) _]])]; cbn [cs_store cs_tx] in *.
    + eapply graph_inv_recorded; [exact Hinv|exact Hap|exact Hrec|exact Hold|]. intros p Hp.
      destruct (check_intrinsics_inv _ _ _ (pr_intrinsics _ _ _ _ Hpr)) as (_ & Hcp & _). cbn [cs_store cs_tx] in Hcp.
      destruct (check_parents_inv _ _ _ Hcp p Hp) as (ptx & Hptx & Hni & Hnm). exists ptx. split; [done|].
      destruct (ap_storable _ _ Hap TxStatusValid ltac:(vm_decide)) as [[_ Hlen _ _ _ _] _]. cbn in Hlen. rewrite Forall_forall in Hlen.
      destruct (Hinv _ p ptx (Hlen p Hp) Hptx) as (_ & Hstat & _). unfold tx_statuses in Hstat. set_solver.
    + by rewrite Hs.
    + destruct (applicable_add t tx TxStatusInvalid Hap ltac:(vm_decide) ltac:(done)) as (t' & Ha & Hself & Hoth).
      assert (t' = cs_store s') as -> by congruence.
      eapply graph_inv_replace; [exact Hinv|..|exact Hself|exact Hoth]; [|vm_decide|done|exact Hold].
      apply storable_uncached, Hap. vm_decide.
Qed.

(** C5: whatever transactions arrive and in whatever order the mempool tries the waiting ones,
    the store keeps this invariant: every transaction in it can be written back and has one
    of the three statuses, and every valid transaction has only valid parents. *)
Theorem valid_parents_invariant (sc sc' : T * controller) :
  graph_inv sc.1 → rtc ctl_step sc sc' → graph_inv sc'.1.
Proof. intros Hinv Hsteps. induction Hsteps as [|x y z Hxy _ IH]; [done|]. apply IH. by eapply ctl_step_graph_inv. Qed.

(** ** Behaviours that were removed *)

(** The keypaths with a resolver, and those with a validator. *)
Definition registered_in (a b : behaviorTree (Resolver script) permissionsValidator (Indexer ixscript)) : Prop :=
  (∀ k, is_Some ((bt_resolvers a).2 !! k) → is_Some ((bt_resolvers b).2 !! k)) ∧
  (∀ k, is_Some ((bt_validators a).2 !! k) → is_Some ((bt_validators b).2 !! k)).
#[local] Instance registered_in_preorder : PreOrder registered_in.
Proof. unfold registered_in. split; [done|]. intros a b c [Hr1 Hv1] [Hr2 Hv2]. auto. Qed.

Lemma register_registered {X} (r : registry X) kp x k : is_Some (r.2 !! k) → is_Some ((register r kp x).2 !! k).
Proof. intros Hk. unfold register. cbn [snd]. destruct (decide (k = kp)) as [->|Hne]; [rewrite lookup_insert_eq; by eexists|by rewrite lookup_insert_ne]. Qed.

Lemma initializeResolver_registered bt state kp bt' : initializeResolver bt state kp = Ret bt' → registered_in bt bt'.
Proof.
  unfold initializeResolver. destruct (db_CopyToMemory state kp None) as [node| | |]; cbn [obind]; [|done..].
  destruct (configured resolverRegistry node) as [[c ctor]| | |]; cbn [obind]; [|done..].
  match goal with |- context [obind ?m _] => destruct m as [i| | |] end; cbn [obind]; [|done..].
  destruct (ctor c i) as [r| | |]; cbn [obind]; [|done..]. intros [= <-]. split; [intros k; apply register_registered|done].
Qed.

Lemma initializeValidator_registered bt state kp bt' : initializeValidator bt state kp = Ret bt' → registered_in bt bt'.
Proof.
  unfold initializeValidator. destruct (db_CopyToMemory state kp None) as [node| | |]; cbn [obind]; [|done..].
  destruct (configured validatorRegistry node) as [[c ctor]| | |]; cbn [obind fst snd]; [|done..].
  destruct (ctor c) as [r| | |]; cbn [obind]; [|done..]. intros [= <-]. split; [done|intros k; apply register_registered].
Qed.

Lemma fold_outcome_rel {A S} (R : S → S → Prop) `{!PreOrder R} (f : S → A → outcome S) l s s' :
  (∀ s a s', f s a = Ret s' → R s s') → fold_outcome f s l = Ret s' → R s s'.
Proof.
  intros Hf. revert s. induction l as [|a l IH]; intros s; cbn [fold_outcome]; [by intros [= <-]|].
  destruct (f s a) as [s1| | |] eqn:Ha; cbn [obind]; [|done..]. intros Hl. etrans; [by eapply Hf|by apply IH].
Qed.

Lemma initializeIndexer_registered bt state kp bt' : initializeIndexer bt state kp = Ret bt' → registered_in bt bt'.
Proof.
  unfold initializeIndexer. destruct (db_CopyToMemory state kp None) as [node| | |]; cbn [obind]; [|done..].
  destruct (Subkeys node) as [ks| | |]; cbn [obind]; [|done..]. apply fold_outcome_rel; [apply _|]. intros b ix b'.
  repeat (match goal with |- context [obind ?m _] => destruct m as [?| | |] end; cbn [obind]; [|done..]).
  intros [= <-]. by split.
Qed.

Lemma init_ancestors_registered fuel state parent bt bt' : init_ancestors fuel state parent bt = Ret bt' → registered_in bt bt'.
Proof.
  revert parent bt. induction fuel as [|fuel IH]; intros [kp|] bt; cbn [init_ancestors]; [done|by intros [= <-]| |by intros [= <-]].
  destruct (Pop kp) as [next key]. destruct (Equals key MergeTypeKeypath).
  - destruct (initializeResolver bt state kp) as [b| | |] eqn:Hi; cbn [obind]; [|done..]. intros Hr%IH.
    etrans; [by eapply initializeResolver_registered|done].
  - destruct (Equals key ValidatorKeypath); [|by intros Hr%IH].
    destruct (initializeValidator bt state kp) as [b| | |] eqn:Hi; cbn [obind]; [|done..]. intros Hr%IH.
    etrans; [by eapply initializeValidator_registered|done].
Qed.

Lemma attach_behavior_registered state bt kp bt' : attach_behavior state bt kp = Ret bt' → registered_in bt bt'.
Proof.
  unfold attach_behavior. destruct (Pop kp) as [parent key].
  match goal with |- obind ?m _ = _ → _ => destruct m as [b| | |] eqn:Hb end; cbn [obind]; [|done..].
  intros Hr%init_ancestors_registered. etrans; [|exact Hr]. clear Hr.
  destruct (Equals key MergeTypeKeypath); [by eapply initializeResolver_registered|].
  destruct (Equals key ValidatorKeypath); [by eapply initializeValidator_registered|].
  destruct (Equals key IndicesKeypath); [by eapply initializeIndexer_registered|]. by injection Hb as <-.
Qed.

Lemma removed_loop_registered state ks new s s' new' :
  removed_loop state ks new s = Ret (s', inl new') → registered_in new new'.
Proof.
  revert new s. induction ks as [|kp ks IH]; intros new s; cbn [removed_loop]; [by intros [= <- <-]|].
  intros [(s1 & bt & _ & Hk)|(? & _ & ?)]%act_bind_inv; [|done]. apply act_bind_inv in Hk as [(s2 & bt' & _ & Hk)|(? & _ & ?)]; [|done].
  apply act_bind_inv in Hk as [(s3 & [] & _ & Hk)|(? & _ & ?)]; [|done]. apply act_bind_inv in Hk as [(s4 & n & Hn & Hk)|(? & _ & ?)]; [|done].
  apply act_lift_inv in Hn as [_ [(n' & Hn & [= ->])|(? & _ & ?)]]; [|done].
  etrans; [by eapply init_ancestors_registered|by eapply IH].
Qed.

(** behaviours are only ever added: after [updateBehaviorTree] has succeeded, every keypath
    that had a resolver or a validator before still has one, also when the change to the
    state removed its configuration.  The removals are made in the tree that is replaced. *)
Theorem removed_behaviors_stay (s s' : cstate) (state : DBNode T) :
  updateBehaviorTree state s = Ret (s', inl tt) →
  registered_in (c_behaviorTree (cs_ctrl s)) (c_behaviorTree (cs_ctrl s')).
Proof.
  unfold updateBehaviorTree. rewrite (act_bind_eq _ _ _ _ _ eq_refl).
  intros [(s1 & d & Hd & Hk)|(? & _ & ?)]%act_bind_inv; [|done]. apply act_lift_inv in Hd as [-> _].
  apply act_bind_inv in Hk as [(s2 & n & Hn & Hk)|(? & _ & ?)]; [|done]. apply removed_loop_registered in Hn.
  apply act_bind_inv in Hk as [(s3 & n' & Hf & Hk)|(? & _ & ?)]; [|done].
  apply act_lift_inv in Hf as [-> [(n2 & Hf & [= ->])|(? & _ & ?)]]; [|done].
  injection Hk as <-. cbn [cs_ctrl c_behaviorTree with_behaviors]. etrans; [exact Hn|].
  eapply fold_outcome_rel; [apply _|apply attach_behavior_registered|exact Hf].
Qed.
End Theorems.

(** ** Examples *)

(** A curve whose signatures are their own keys, and configurations without frames. *)
#[local] Instance toy_curve : Secp256k1 := {
  PublicKey := bytes;
  SigToPub _ sig := Ret sig;
  geth_VerifySignature _ _ _ := true;
  FromECDSAPub pk := pk;
  PubkeyToAddress pk := take 20 pk
}.
#[local] Instance plain_configs {T} : Configs T := {
  config := MemoryNode Empty_set;
  script := Empty_set;
  ixscript := Empty_set;
  nelson_Resolve n := Ret (n, false);
  config_ContentType n := let! s := StringValue tt n ContentTypeKey in Ret (default [] s);
  config_Value n := Value tt n [] None;
  config_StringValue n kp := StringValue tt n kp;
  NewLuaResolver _ _ := Err ErrUnimplemented;
  NewJSResolver _ _ := Err ErrUnimplemented;
  script_InternalState s := match s with end;
  script_ResolveState s := match s with end;
  NewJSIndexer _ := Err ErrUnimplemented
}.

Definition genesis_tx (checkpoint : bool) : Tx :=
  mkTx GenesisTxID [] [] (take 20 (id_of 5)) (id_of 5) (str "foo.bar/baz")
    [mkPatch (str "a") None (GScalar (SBool true))] [] checkpoint [] TxStatusInMempool EmptyHash.

Definition start_with (tx : Tx) : cstate (T := gmap bytes bytes) :=
  mkCstate ∅ (NewController (str "foo.bar/baz") ∅) tx.

Lemma genesis_applicable cp : applicable (∅ : gmap bytes bytes) (genesis_tx cp).
Proof.
  split; [|vm_decide|intros p ptx Hp; by apply elem_of_nil in Hp].
  intros st _. split; [split; [reflexivity|constructor|constructor|reflexivity|constructor|repeat constructor]|]. intros m _. exact I.
Qed.

Lemma empty_leaf_keys_ok uri : leaf_keys_ok (∅ : gmap bytes bytes) uri.
Proof. intros x [v Hv]. discriminate Hv. Qed.

Lemma tx_applied_witness :
  ∃ s', tryApplyTx (λ b, b) literal_match (start_with (genesis_tx true)) = Ret (s', inl tt) ∧
    FetchTx (cs_store s') (str "foo.bar/baz") GenesisTxID = Ret (uncached (with_status (genesis_tx true) TxStatusValid)) ∧
    GenesisTxID ∈ Leaves (cs_store s') (str "foo.bar/baz").
Proof.
  assert (match tryApplyTx (λ b, b) literal_match (start_with (genesis_tx true)) with Ret (_, inl _) => true | _ => false end = true)
    as Hrun by (vm_compute; reflexivity).
  destruct (tryApplyTx (λ b, b) literal_match (start_with (genesis_tx true))) as [[s' [[]|e]]|e| |] eqn:Hs; try discriminate Hrun.
  exists s'. split; [reflexivity|].
  destruct (tx_applied (λ b, b) literal_match (start_with (genesis_tx true)) s' eq_refl (genesis_applicable true)
              (empty_leaf_keys_ok _) Hs) as (_ & _ & _ & Hf & Hl & _).
  split; [exact Hf|]. apply Hl. left. reflexivity.
Defined.

(** A transaction whose parent is not in the store yet. *)
Definition orphan_tx : Tx := with_status (with_patches example_tx []) TxStatusInMempool.

Lemma orphan_applicable : applicable (∅ : gmap bytes bytes) orphan_tx.
Proof.
  split; [|vm_decide|intros p ptx _ Hp; discriminate Hp].
  intros st _. split; [split; [reflexivity|repeat constructor|constructor|reflexivity|constructor|constructor]|]. intros m _. exact I.
Qed.

Lemma tx_refused_without_trace_witness :
  ∃ s', tryApplyTx (λ b, b) literal_match (start_with orphan_tx) = Ret (s', inr ErrNoParentYet) ∧
    c_states (cs_ctrl s') = ∅ ∧ c_notified (cs_ctrl s') = [].
Proof.
  assert (match tryApplyTx (λ b, b) literal_match (start_with orphan_tx) with Ret (_, inr e) => bool_decide (e = ErrNoParentYet) | _ => false end = true)
    as Hrun by (vm_compute; reflexivity).
  destruct (tryApplyTx (λ b, b) literal_match (start_with orphan_tx)) as [[s' [[]|e]]|e| |] eqn:Hs; try discriminate Hrun.
  apply bool_decide_eq_true_1 in Hrun. subst e. exists s'. split; [reflexivity|].
  destruct (tx_refused_without_trace (λ b, b) literal_match (start_with orphan_tx) s' ErrNoParentYet eq_refl orphan_applicable Hs)
    as (Hst & Hn & _).
  split; [exact Hst|exact Hn].
Defined.

Lemma empty_graph_inv : graph_inv (∅ : gmap bytes bytes).
Proof. intros uri id tx _ Hg. discriminate Hg. Qed.

Lemma valid_parents_invariant_witness :
  ∃ s' r, AddTx (λ b, b) false (start_with (genesis_tx false)) = Ret (s', r) ∧ graph_inv (cs_store s').
Proof.
  assert (match AddTx (λ b, b) false (start_with (genesis_tx false)) with Ret _ => true | _ => false end = true)
    as Hrun by (vm_compute; reflexivity).
  destruct (AddTx (λ b, b) false (start_with (genesis_tx false))) as [[s' r]|e| |] eqn:Hs; try discriminate Hrun.
  exists s', r. split; [reflexivity|].
  apply (valid_parents_invariant (λ b, b) literal_match (∅ : gmap bytes bytes, NewController (str "foo.bar/baz") ∅)
           (cs_store s', cs_ctrl s') empty_graph_inv).
  apply rtc_once. eapply step_add; [apply genesis_applicable|exact Hs].
Defined.

(** A resolver at [a] whose configuration has just been deleted. *)
Definition removal_state : DBNode (gmap bytes bytes) :=
  with_db_diff (StateAtVersion (λ _, ∅) CurrentVersion true) (Diff_Remove (Some NewDiff) (str "a/Merge-Type")).
Definition with_resolver_a : cstate (T := gmap bytes bytes) :=
  mkCstate ∅ (with_behaviors (NewController [] ∅) (addResolver newBehaviorTree (str "a") dumbResolver)) example_tx.

Lemma removed_behaviors_stay_witness :
  ∃ s', updateBehaviorTree removal_state with_resolver_a = Ret (s', inl tt) ∧
    is_Some ((bt_resolvers (c_behaviorTree (cs_ctrl s'))).2 !! str "a").
Proof.
  assert (match updateBehaviorTree removal_state with_resolver_a with Ret (_, inl _) => true | _ => false end = true)
    as Hrun by (vm_compute; reflexivity).
  destruct (updateBehaviorTree removal_state with_resolver_a) as [[s' [[]|e]]|e| |] eqn:Hs; try discriminate Hrun.
  exists s'. split; [reflexivity|]. apply (proj1 (removed_behaviors_stay with_resolver_a s' removal_state Hs)). by eexists.
Defined.
