(* ===== verification/EndToEnd.v ===== *)
(** * From a patch to the state

    The composition of the layers: a transaction accepted by a controller whose only
    behaviour is the root resolver changes the current state exactly as [Set] of the
    database tree does. *)

From S2P Require Import Prelude Types Keypath TreeTypes GoValue GoPaths NodeCodec MemoryNode MemoryProps MemoryIter BadgerTxn.
From S2P Require Import DBNode DBProps DBClaims DBVersions Tx Mempool TxStore Behaviors Nelson Permissions Controller ControllerProps.

Section EndToEnd.
Context {T : Type} `{HL : BadgerLaws T} `{JL : JsonLaws} `{PL : ProtoLaws} `{ML : MapOrderLaw} `{EC : Secp256k1} `{CF : Configs T}.
Context (keccak256 : bytes → bytes) (MatchString : bytes → bytes → option bool).

(** Two nodes with the same view: what is stored, the prefix, the root and the range. *)
Definition same_view (n n' : DBNode T) : Prop :=
  keyPrefix n' = keyPrefix n ∧ rootKeypath n' = rootKeypath n ∧ db_rng n' = db_rng n ∧ ∀ k, db_get n' k = db_get n k.

Lemma same_view_wf n n' : same_view n n' → db_wf n → db_wf n'.
Proof.
  intros (Hk & _ & _ & Hg) [Hp Hgood Hst Hpar].
  assert (∀ k, db_shape n' k = db_shape n k) as Hs by (intros k; unfold db_shape; by rewrite Hg).
  split; [by rewrite Hk|..]; intros k; rewrite ?Hg; [apply Hgood|apply Hst|].
  intros p. rewrite Hs. apply Hpar.
Qed.

Lemma same_view_represents n n' p v : same_view n n' → db_represents n p v → db_represents n' p v.
Proof. intros (_ & _ & _ & Hg) Hr r. rewrite <- (Hr r). unfold db_shape. by rewrite Hg. Qed.

Lemma same_view_settable n n' rel v : same_view n n' → db_settable n rel v → db_settable n' rel v.
Proof.
  intros (_ & Hroot & Hrng & Hg) [Hr Hp Hv Hm Ha]. split; rewrite ?Hroot; [congruence|done..|].
  intros q sh Hq Hs. apply (Ha q sh Hq). rewrite <- Hs. unfold db_shape. by rewrite Hg.
Qed.

(** Without a configuration there is nothing to take out of sight. *)
Lemma no_config (n : DBNode T) kp :
  db_rng n = None → db_get n (Push (rootKeypath n) kp) = None →
  copied_config n kp = Ret None ∧ db_Delete n kp None = Ret n.
Proof.
  intros Hr Hg. unfold copied_config, db_CopyToMemory, db_Delete, delete_subtree. rewrite Hr. cbn [merge_range obind].
  change (txn_get (db_tx n) (addKeyPrefix n (Push (rootKeypath n) kp))) with (db_get n (Push (rootKeypath n) kp)).
  rewrite Hg. done.
Qed.

Lemma apply_patch_set (n : DBNode T) p :
  patch_Val p ≠ GScalar SNil → apply_patch n p = db_Set n (patch_Keypath p) (patch_Range p) (patch_Val p).
Proof. unfold apply_patch. destruct (patch_Val p) as [[]| | |]; done. Qed.

(** The root resolver on one patch that sets a value. *)
Lemma run_root_resolver (tx : Tx) (p : Patch) (n state : DBNode T) :
  rootKeypath n = [] → db_rng n = None → db_wf n → db_get n MergeTypeKeypath = None → db_get n ValidatorKeypath = None →
  patch_Range p = None → patch_Val p ≠ GScalar SNil → db_settable n (patch_Keypath p) (patch_Val p) →
  run_resolver dumbResolver [] tx [p] n = Ret state →
  ∃ n1 n2, same_view n n1 ∧ db_Set n1 (patch_Keypath p) None (patch_Val p) = Ret n2 ∧ db_tx state = db_tx n2.
Proof.
  intros Hroot Hr Hwf Hm Hv Hrange Hval Hset. unfold run_resolver. rewrite !Push_nil_l.
  destruct (no_config n MergeTypeKeypath Hr) as [Hm1 _]; [by rewrite Hroot|]. rewrite Hm1. cbn [obind].
  destruct (no_config n ValidatorKeypath Hr) as [Hv1 _]; [by rewrite Hroot|]. rewrite Hv1. cbn [obind].
  unfold set_diff_enabled at 1. destruct (db_diff n) as [d|]; [|done]. cbn [obind].
  set (na := with_db_diff n _). destruct (no_config na MergeTypeKeypath Hr) as [_ Hm2]; [unfold na; cbn; by rewrite Hroot|].
  destruct (no_config na ValidatorKeypath Hr) as [_ Hv2]; [unfold na; cbn; by rewrite Hroot|].
  rewrite Hm2. cbn [ignore_404 obind]. rewrite Hv2. cbn [ignore_404 obind]. unfold set_diff_enabled at 1. unfold na at 1. cbn [db_diff with_db_diff obind].
  set (nb := with_db_diff na _). set (n1 := db_NodeAt nb [] None).
  assert (same_view n n1) as Hsv by (unfold n1, nb, na, same_view; cbn; by rewrite Push_nil_r).
  cbn [ResolveState]. unfold dumb_ResolveState. cbn [fold_outcome].
  rewrite apply_patch_set, Hrange by done.
  destruct (db_Set_spec n1 (patch_Keypath p) (patch_Val p)) as (n2 & Hn2 & _).
  { by eapply same_view_wf. } { by eapply same_view_settable. }
  rewrite Hn2. cbn [obind]. unfold set_diff_enabled at 1. destruct (db_diff n2) as [d2|] eqn:Hd2; [|done]. cbn [obind put_back].
  unfold set_diff_enabled. cbn [db_diff with_db_diff obind]. intros [= <-]. exists n1, n2. by split_and!.
Qed.

Lemma good_path_below_root kp : good_path kp → rest_below kp [] = kp.
Proof.
  intros Hg. unfold rest_below. rewrite RelativeTo_nil. destruct kp as [|c kp]; [done|]. case_decide as Hc; [|done]. subst c. exfalso.
  unfold good_path in Hg. change (sep :: kp) with ([] ++ sep :: kp) in Hg. unfold path_parts in Hg.
  rewrite decide_False, split_sep_app in Hg by done. by apply Forall_cons in Hg as [[Hne _] _].
Qed.

(** The behaviours of a controller to which no configuration was ever added. *)
Definition root_only (s : cstate) : Prop :=
  bt_resolvers (c_behaviorTree (cs_ctrl s)) = bt_resolvers (c_behaviorTree (NewController (T := T) [] (c_states (cs_ctrl s)))).

Lemma run_resolvers_root (s : cstate) p state :
  root_only s → tx_Patches (cs_tx s) = [p] → good_path (patch_Keypath p) → prepared keccak256 MatchString s state →
  run_resolver dumbResolver [] (cs_tx s) [p] (StateAtVersion (λ _, c_states (cs_ctrl s)) CurrentVersion true) = Ret state.
Proof.
  intros Hroot Hps Hgood [_ _ Hr]. rewrite Hroot in Hr. rewrite Hps in Hr. revert Hr.
  set (n := StateAtVersion _ _ _).
  change (reverse (bt_resolvers (c_behaviorTree (NewController (T := T) [] (c_states (cs_ctrl s))))).1) with [[] : Keypath].
  change (bt_resolvers (c_behaviorTree (NewController (T := T) [] (c_states (cs_ctrl s))))).2
    with (<[ ([] : Keypath) := dumbResolver (S := script) ]> (∅ : gmap Keypath (Resolver script))).
  cbn [run_resolvers]. rewrite split_patches_spec. cbn [obind fst snd].
  rewrite filter_cons_True by apply StartsWith_nil. rewrite filter_nil.
  cbn [fmap list_fmap length]. rewrite decide_False by (simpl; lia). rewrite lookup_insert_eq.
  assert (relative_patch [] p = p) as -> by (unfold relative_patch; rewrite good_path_below_root by done; by destruct p).
  destruct (run_resolver dumbResolver [] (cs_tx s) [p] n) as [st| | |]; cbn [obind]; [by intros [= ->]|done..].
Qed.

(** C2: the layers compose: when a controller that has only the root resolver accepts a
    transaction with a patch that sets a value, reading the current state at the patch's
    keypath gives that value (its integers widened to 64 bits), and every keypath that is
    neither below the patch's nor above it keeps what it stored. *)
Theorem patch_reaches_state (s s' : cstate) (kp : Keypath) (v : plain) :
  c_stateURI (cs_ctrl s) = tx_StateURI (cs_tx s) → applicable (cs_store s) (cs_tx s) → root_only s →
  tx_Patches (cs_tx s) = [mkPatch kp None v] → v ≠ GScalar SNil →
  let before := at_version (c_states (cs_ctrl s)) CurrentVersion in
  let after := controller_StateAtVersion (cs_ctrl s') None in
  db_wf before → db_get before MergeTypeKeypath = None → db_get before ValidatorKeypath = None → db_settable before kp v →
  tryApplyTx keccak256 MatchString s = Ret (s', inl tt) →
  (∃ w, db_Value after kp None = Ret (Some w) ∧ goval_equiv w (widen_val v)) ∧
  (∀ k, StartsWith k kp = false → k ∉ ancestors kp → db_get after k = db_get before k).
Proof.
  intros Huri Hap Hroot Hps Hval before after Hwf Hm Hv Hset Happ.
  destruct (tryApplyTx_inv _ _ _ _ _ Huri Hap Happ) as [(_ & state & Hpr & _ & [Hcur _] & _)|(e & ? & _)]; [|done].
  pose proof (st_path _ _ _ Hset) as Hgood. change (good_path kp) in Hgood.
  pose proof (run_resolvers_root s _ state Hroot Hps Hgood Hpr) as Hrun.
  destruct (run_root_resolver (cs_tx s) (mkPatch kp None v) before state eq_refl eq_refl Hwf Hm Hv eq_refl Hval Hset Hrun)
    as (n1 & n2 & Hsv & Hn2 & Htx).
  assert (db_wf n1) as Hwf1 by (by eapply same_view_wf). assert (db_settable n1 kp v) as Hset1 by (by eapply same_view_settable).
  destruct (db_Set_spec n1 kp v Hwf1 Hset1) as (n2' & Hn2' & Hres & Hwf2 & Hrep). cbn [patch_Keypath patch_Val] in Hn2.
  assert (n2' = n2) as -> by congruence. destruct Hsv as (Hk1 & Hroot1 & Hr1 & Hg1).
  destruct (dr_same _ _ _ _ Hres) as (Hk2 & Hroot2 & Hr2 & _). rewrite Hroot1 in *. change (rootKeypath before) with ([] : Keypath) in *.
  rewrite Push_nil_l in *.
  assert (same_view n2 after) as Hview.
  { split; [|split; [|split]]; [by rewrite Hk2, Hk1|by rewrite Hroot2|by rewrite Hr2, Hr1|]. intros k.
    change (db_get after k) with (db_get (at_version (c_states (cs_ctrl s')) CurrentVersion) k). rewrite Hcur.
    unfold db_get, addKeyPrefix. rewrite Hk2, Hk1. cbn [db_tx at_version StateAtVersion]. by rewrite Htx. }
  split.
  - apply (db_Value_spec after kp v); change (rootKeypath after) with ([] : Keypath); rewrite ?Push_nil_l;
      [by eapply same_view_wf|done|done|by eapply same_view_represents|by apply Hset].
  - intros k Hnb Hna. destruct Hview as (_ & _ & _ & ->). rewrite <- Hg1.
    assert (¬ below kp k) as Hnb' by (unfold below; congruence).
    pose proof (dr_else _ _ _ _ Hres k Hnb') as He. destruct (db_get n1 k) as [b|]; [done|]. by rewrite decide_False in He.
Qed.
End EndToEnd.

#[local] Existing Instance toy_curve.
#[local] Existing Instance plain_configs.

Lemma empty_current_wf : db_wf (at_version (∅ : gmap bytes bytes) CurrentVersion).
Proof. split; [done|..]; intros k; [by intros []|done|by intros ? []]. Qed.

Lemma empty_settable : db_settable (at_version (∅ : gmap bytes bytes) CurrentVersion) (str "a") (GScalar (SBool true)).
Proof.
  split; [done| | |by apply machine_ok_scalar|done].
  - repeat constructor; [discriminate|]. unfold no_sep. vm_compute. set_solver.
  - by split.
Qed.

Lemma patch_reaches_state_witness :
  ∃ s' w, tryApplyTx (λ b, b) literal_match (start_with (genesis_tx false)) = Ret (s', inl tt) ∧
    db_Value (controller_StateAtVersion (cs_ctrl s') None) (str "a") None = Ret (Some w) ∧
    goval_equiv w (widen_val (GScalar (SBool true))).
Proof.
  assert (match tryApplyTx (λ b, b) literal_match (start_with (genesis_tx false)) with Ret (_, inl _) => true | _ => false end = true)
    as Hrun by (vm_compute; reflexivity).
  destruct (tryApplyTx (λ b, b) literal_match (start_with (genesis_tx false))) as [[s' [[]|e]]|e| |] eqn:Hs; try discriminate Hrun.
  destruct (patch_reaches_state (λ b, b) literal_match (start_with (genesis_tx false)) s' (str "a") (GScalar (SBool true))
              eq_refl (genesis_applicable false) eq_refl eq_refl ltac:(discriminate) empty_current_wf eq_refl eq_refl empty_settable Hs)
    as [(w & Hw & Heq) _].
  exists s', w. split; [reflexivity|]. split; [exact Hw|exact Heq].
Defined.
