(* ===== verification/Hub.v ===== *)
(** * The controller hub ([controller-hub.go])

    The hub owns one controller per state URI, creates it when a transaction for a new URI
    arrives (or at the start, for every URI the store knows), and forwards calls to it.  All
    controllers share the transaction store.

    [open_db] is [badger.Open] on a directory, a parameter.  A controller's databases are in
    the directory [stateURIClean] and [stateURIClean] with [_indices]. *)

From S2P Require Import Prelude Types Keypath TreeTypes GoValue MemoryNode BadgerTxn DBNode.
From S2P Require Import Tx Mempool TxStore Behaviors Permissions Controller ControllerProps.

(** [strings.NewReplacer(":", "_", "/", "_").Replace] in [Start] of a controller. *)
Definition stateURIClean (stateURI : bytes) : bytes :=
  (λ b, if decide (b = ":"%byte ∨ b = "/"%byte) then "_"%byte else b) <$> stateURI.

Section Hub.
Context {T : Type} `{BadgerTxn T} `{JsonCodec} `{ProtoCodec} `{MapOrder} `{Secp256k1} `{Configs T}.
Context (keccak256 : bytes → bytes) (open_db : bytes → outcome T).

Record controllerHub := mkHub { h_controllers : gmap bytes controller; h_txStore : T }.

(** [NewController] and [Start]: the databases are opened, and the root resolver added. *)
Definition start_controller (stateURI : bytes) : outcome controller :=
  let! states := open_db (stateURIClean stateURI) in
  let! _ := open_db (stateURIClean stateURI ++ str "_indices") in
  Ret (NewController stateURI states).

Definition EnsureController (h : controllerHub) (stateURI : bytes) : outcome (controllerHub * controller) :=
  match h_controllers h !! stateURI with
  | Some ctrl => Ret (h, ctrl)
  | None =>
      let! ctrl := start_controller stateURI in
      Ret (mkHub (<[stateURI := ctrl]> (h_controllers h)) (h_txStore h), ctrl)
  end.

(** The last part of the URI of a private state is the key of its recipients; computing the
    key sorts the transaction's recipients.  The pair is the verdict and the transaction. *)
Definition check_private (tx : Tx) : bool * Tx :=
  if IsPrivate tx then
    let '(key, tx') := PrivateRootKey keccak256 tx in
    (bool_decide (last (split_sep (tx_StateURI tx)) = Some key), tx')
  else (true, tx).

(** The hub and the transaction after the call, and its error. *)
Definition hub_AddTx (h : controllerHub) (tx : Tx) (force : bool) : outcome (controllerHub * Tx * option error) :=
  let '(ok, tx) := check_private tx in
  if negb ok then Ret (h, tx, Some ErrInvalidPrivateRootKey)
  else
    match EnsureController h (tx_StateURI tx) with
    | Ret (h, ctrl) =>
        let! r := AddTx keccak256 force (mkCstate (h_txStore h) ctrl tx) in
        let '(s, res) := r in
        Ret (mkHub (<[tx_StateURI tx := cs_ctrl s]> (h_controllers h)) (cs_store s), cs_tx s,
             match res with inl _ => None | inr e => Some e end)
    | Err e => Ret (h, tx, Some e)
    | Panic => Panic
    | Running => Running
    end.

(** [Start] ensures a controller for every state URI of the store. *)
Definition hub_Start (h : controllerHub) : outcome controllerHub :=
  fold_outcome (λ h uri, let! r := EnsureController h uri in Ret r.1) h (KnownStateURIs (h_txStore h)).

Definition hub_FetchTx (h : controllerHub) (stateURI : bytes) (txID : ID) : outcome Tx := FetchTx (h_txStore h) stateURI txID.
Definition hub_FetchTxs (h : controllerHub) (stateURI : bytes) (fromTxID : ID) : outcome (list Tx * option error) :=
  AllTxsForStateURI (h_txStore h) stateURI fromTxID.
Definition hub_KnownStateURIs (h : controllerHub) : list bytes := KnownStateURIs (h_txStore h).
Definition hub_Leaves (h : controllerHub) (stateURI : bytes) : list ID := Leaves (h_txStore h) stateURI.

Definition hub_HaveTx (h : controllerHub) (stateURI : bytes) (txID : ID) : bool :=
  match h_controllers h !! stateURI with None => false | Some ctrl => HaveTx (h_txStore h) ctrl txID end.

(** The calls that need a controller. *)
Definition with_controller {A} (h : controllerHub) (stateURI : bytes) (f : controller → outcome A) : outcome A :=
  match h_controllers h !! stateURI with None => Err ErrNoController | Some ctrl => f ctrl end.
Definition hub_StateAtVersion (h : controllerHub) (stateURI : bytes) (version : option ID) : outcome (DBNode T) :=
  with_controller h stateURI (λ c, Ret (controller_StateAtVersion c version)).
Definition hub_IsPrivate (h : controllerHub) (stateURI : bytes) : outcome bool := with_controller h stateURI controller_IsPrivate.
Definition hub_IsMember (h : controllerHub) (stateURI : bytes) (addr : Address) : outcome bool :=
  with_controller h stateURI (λ c, controller_IsMember c addr).
Definition hub_Members (h : controllerHub) (stateURI : bytes) : outcome (list Address) := with_controller h stateURI Members.

(** ** Routing *)

(** Every controller is registered under its own state URI. *)
Definition hub_wf (h : controllerHub) : Prop := map_Forall (λ uri c, c_stateURI c = uri) (h_controllers h).

Lemma EnsureController_wf h uri h' c :
  hub_wf h → EnsureController h uri = Ret (h', c) →
  hub_wf h' ∧ h_controllers h' !! uri = Some c ∧ c_stateURI c = uri ∧ h_txStore h' = h_txStore h ∧
  ∀ u, u ≠ uri → h_controllers h' !! u = h_controllers h !! u.
Proof.
  intros Hwf. unfold EnsureController. destruct (h_controllers h !! uri) as [c0|] eqn:Hc.
  - intros [= <- <-]. split_and!; [done..|by apply (Hwf uri c0)|done|done].
  - unfold start_controller. destruct (open_db (stateURIClean uri)) as [t| | |]; cbn [obind]; [|done..].
    destruct (open_db _) as [t'| | |]; cbn [obind]; [|done..]. intros [= <- <-]. cbn [h_controllers h_txStore]. split_and!.
    + by apply map_Forall_insert_2.
    + by rewrite lookup_insert_eq.
    + done.
    + done.
    + intros u Hu. by rewrite lookup_insert_ne.
Qed.

Lemma AddTx_names force s s' r :
  AddTx keccak256 force s = Ret (s', r) →
  c_stateURI (cs_ctrl s') = c_stateURI (cs_ctrl s) ∧ tx_ID (cs_tx s') = tx_ID (cs_tx s).
Proof.
  unfold AddTx, act_bind, act_get, act_tx, act_store, act_lift, act_ctrl, act_ret. cbn [obind].
  destruct (negb force && _); [by intros [= <- _]|].
  destruct force; cbn [negb obind].
  - destruct (store_AddTx _ _) as [t| | |]; cbn; [by intros [= <- _]..|done|done].
  - destruct (Tx_Hash keccak256 (cs_tx s)) as [h| | |]; cbn [obind]; [|by intros [= <- _]|done|done].
    destruct (store_AddTx _ _) as [t| | |]; cbn; [by intros [= <- _]..|done|done].
Qed.

Lemma check_private_spec tx :
  tx_StateURI (check_private tx).2 = tx_StateURI tx ∧ tx_ID (check_private tx).2 = tx_ID tx ∧
  ((check_private tx).1 = true ↔
     (IsPrivate tx = true → last (split_sep (tx_StateURI tx)) = Some (fst (PrivateRootKeyForRecipients keccak256 (tx_Recipients tx))))).
Proof.
  unfold check_private. destruct (IsPrivate tx); [|done]. unfold PrivateRootKey.
  destruct (PrivateRootKeyForRecipients keccak256 (tx_Recipients tx)) as [key rs]. cbn. split; [done|]. split; [done|].
  rewrite bool_decide_eq_true. tauto.
Qed.

(** the hub routes a transaction to the controller of its own state URI and to no other:
    each controller stays registered under its URI, every other URI's entry is untouched,
    and after a success the transaction's URI has a controller.  A private transaction gets
    through only under the state URI that ends with the key of its recipients (in whatever
    order they are listed); otherwise it is refused and nothing changes. *)
Theorem hub_routes (h h' : controllerHub) (tx tx' : Tx) (force : bool) r :
  hub_wf h → hub_AddTx h tx force = Ret (h', tx', r) →
  hub_wf h' ∧
  (∀ uri, uri ≠ tx_StateURI tx → h_controllers h' !! uri = h_controllers h !! uri) ∧
  (r = None → is_Some (h_controllers h' !! tx_StateURI tx)) ∧
  (if decide (IsPrivate tx = true →
       last (split_sep (tx_StateURI tx)) = Some (fst (PrivateRootKeyForRecipients keccak256 (tx_Recipients tx))))
   then tx_ID tx' = tx_ID tx
   else r = Some ErrInvalidPrivateRootKey ∧ h' = h).
Proof.
  intros Hwf. unfold hub_AddTx. destruct (check_private_spec tx) as (Huri & Hid & Hok).
  destruct (check_private tx) as [ok tx1]. cbn [fst snd] in *. destruct ok; cbn [negb].
  - rewrite decide_True by (by apply Hok). destruct (EnsureController h (tx_StateURI tx1)) as [[h1 c]|e| |] eqn:He; [| |done..].
    + destruct (EnsureController_wf _ _ _ _ Hwf He) as (Hwf1 & Hc & Hcu & Hst & Hoth).
      destruct (AddTx keccak256 force _) as [[s res]| | |] eqn:Ha; cbn [obind]; [|done..]. intros [= <- <- <-].
      destruct (AddTx_names _ _ _ _ Ha) as [Hsu Hsi]. cbn [cs_ctrl cs_tx] in Hsu, Hsi.
      cbn [h_controllers]. rewrite Huri in *. split_and!.
      * apply map_Forall_insert_2; [congruence|done].
      * intros uri Hu. rewrite lookup_insert_ne by done. by apply Hoth.
      * intros _. rewrite lookup_insert_eq. by eexists.
      * congruence.
    + intros [= <- <- <-]. by split_and!.
  - intros [= <- <- <-]. rewrite decide_False by (intros Hp; apply Hok in Hp; done). by split_and!.
Qed.
End Hub.

(** two state URIs can share a directory: colons and slashes are both replaced, so the
    states [a:b] and [a/b] are opened in the same place. *)
Theorem state_directories_collide :
  str "a:b" ≠ str "a/b" ∧ stateURIClean (str "a:b") = stateURIClean (str "a/b").
Proof. split; [vm_decide|reflexivity]. Qed.

#[local] Existing Instance toy_curve.
#[local] Existing Instance plain_configs.

Definition empty_hub : controllerHub (T := gmap bytes bytes) := mkHub ∅ ∅.

Lemma hub_routes_witness :
  ∃ h' tx', hub_AddTx (λ b, b) (λ _, Ret ∅) empty_hub (genesis_tx false) false = Ret (h', tx', None) ∧
    is_Some (h_controllers h' !! str "foo.bar/baz") ∧ hub_wf h'.
Proof.
  assert (match hub_AddTx (λ b, b) (λ _, Ret ∅) empty_hub (genesis_tx false) false with Ret (_, _, None) => true | _ => false end = true)
    as Hrun by (vm_compute; reflexivity).
  destruct (hub_AddTx (λ b, b) (λ _, Ret ∅) empty_hub (genesis_tx false) false) as [[[h' tx'] [e|]]|e| |] eqn:Hs; try discriminate Hrun.
  exists h', tx'. split; [reflexivity|].
  destruct (hub_routes (λ b, b) (λ _, Ret ∅) empty_hub h' (genesis_tx false) tx' false None (map_Forall_empty _) Hs)
    as (Hwf & _ & Hc & _).
  split; [exact (Hc eq_refl)|exact Hwf].
Defined.
