(* ===== verification/Indices.v ===== *)
(** * Queries of indices ([QueryIndex] of [controller.go], [indexer.field.go], [Unwrap] of [nelson/util.go])

    An index groups the children of a node by a key that an indexer computes from each of
    them.  It is built into a database of its own when it is first asked for
    ([BuildIndex] in file DBNode) and read from there afterwards. *)

From S2P Require Import Prelude Types Keypath TreeTypes GoValue GoPaths NodeCodec MemoryNode MemoryIter BadgerTxn DBNode Tx Behaviors Nelson Permissions Controller ControllerProps Hub.

Abbreviation mem := (MemoryNode Empty_set).
#[local] Existing Instance StructFields_memory.

(** The node that an iterator of the memory tree [m] yields at an absolute keypath. *)
Definition node_at (m : mem) (k : Keypath) : mem :=
  mkMemoryNode k None (keypaths m) (values m) (nodeTypes m) (contentLengths m) false None.

(** [Unwrap] of a memory tree: frames are descended into, and the keypath that is returned loses
    its first part for each. *)
Fixpoint Unwrap (fuel : nat) (current : mem) (currentKeypath : Keypath) : outcome (mem * Keypath) :=
  match fuel with
  | O => Running
  | S fuel =>
      let! exists_ := Exists tt current ValueKey in
      if negb exists_ then Ret (current, currentKeypath)
      else
        let! n := NodeAt tt current ValueKey None in
        match n with
        | inl n => Unwrap fuel n (nilable (snd (Shift currentKeypath)))
        | inr e => match e with end
        end
  end.

Section Indices.
Context {T : Type} `{BadgerTxn T} `{Configs T}.

(** [js_index] runs the script of an indexer. *)
Context (js_index : ixscript → Keypath → mem → outcome (option (Keypath * mem))).

Definition IndexNode (i : Indexer ixscript) (relKeypath : Keypath) (node : mem) : outcome (option (Keypath * mem)) :=
  match i with
  | keypathIndexer keypathName =>
      let! val := Value tt node keypathName None in
      match val with Some (GScalar (SString valStr)) => Ret (Some (valStr, node)) | _ => Ret None end
  | jsIndexer s => js_index s relKeypath node
  end.

(** The direct children of a memory node, as absolute keypaths. *)
Definition children_of (m : mem) : outcome (list Keypath) :=
  let! it := ChildIterator tt m [] in
  match it with Some it => collect (length (keypaths m) + 2) it | None => Panic end.

(** [BuildIndex] over a memory tree, and [Save]: the database afterwards. *)
Definition build_index (indices : T) (version : ID) (kp : Keypath) (node : mem) (indexName : Keypath) (indexer : Indexer ixscript) : outcome T :=
  let index := IndexAtVersion (λ _, indices) version kp indexName true in
  let! info := NodeInfo tt node [] in
  let! children := children_of node in
  let! index := BuildIndex (λ relKeypath, IndexNode indexer relKeypath (node_at node (Push (MemoryNode.keypath node) relKeypath)))
                  index (MemoryNode.keypath node) info.1.1 children in
  Ret (db_tx index).

(** [QueryIndex]: the database of indices afterwards, and the node or the error. *)
Definition QueryIndex (indices states : T) (bt : behaviorTree (Resolver script) permissionsValidator (Indexer ixscript))
    (version : option ID) (kp indexName queryParam : Keypath) (r : option Range) : outcome (T * (DBNode T + error)) :=
  let v := default CurrentVersion version in
  let indexNode := IndexAtVersion (λ _, indices) v kp indexName false in
  let! exists_ := db_Exists indexNode queryParam in
  if exists_ then Ret (indices, inl (db_NodeAt indexNode queryParam r))
  else
    match bt_indexers bt !! kp ≫= lookup indexName with
    | None => Ret (indices, inr Err404)
    | Some indexer =>
        match (let! copied := db_CopyToMemory (db_NodeAt (StateAtVersion (λ _, states) v false) kp None) [] None in
               let! unwrapped := Unwrap (length (keypaths copied) + 2) copied (MemoryNode.keypath copied) in
               build_index indices v unwrapped.2 unwrapped.1 indexName indexer) with
        | Ret indices =>
            let indexNode := IndexAtVersion (λ _, indices) v kp indexName false in
            let! exists_ := db_Exists indexNode queryParam in
            if exists_ then Ret (indices, inl (db_NodeAt indexNode queryParam r)) else Ret (indices, inr Err404)
        | Err e => Ret (indices, inr e)
        | Panic => Panic
        | Running => Running
        end
    end.

(** The hub asks the controller of the state URI; [indices] is the controller's database. *)
Definition hub_QueryIndex (h : controllerHub (T := T)) (indices : bytes → T) (stateURI : bytes) (version : option ID) (kp indexName queryParam : Keypath)
    (r : option Range) : outcome (T * (DBNode T + error)) :=
  match h_controllers h !! stateURI with
  | None => Ret (indices stateURI, inr ErrNoController)
  | Some c => QueryIndex (indices stateURI) (c_states c) (c_behaviorTree c) version kp indexName queryParam r
  end.
End Indices.

(** ** Writing a node changes nothing outside its prefix *)

Lemma has_prefix_extends k p q : has_prefix k (p ++ q) = true → has_prefix k p = true.
Proof. rewrite !has_prefix_spec. intros [r ->]. exists (q ++ r). by rewrite (assoc_L (++)). Qed.

(** From one handle to the next: keys without the prefix [P] keep their values. *)
Definition outside {T} `{BadgerTxn T} (P : bytes) (n n' : DBNode T) : Prop :=
  keyPrefix n = P →
  keyPrefix n' = P ∧ rootKeypath n' = rootKeypath n ∧ db_rng n' = db_rng n ∧ ∀ k, has_prefix k P = false → txn_get (db_tx n') k = txn_get (db_tx n) k.

#[local] Instance outside_preorder {T} `{BadgerTxn T} P : PreOrder (outside (T := T) P).
Proof.
  split; [by intros n|]. intros a b c Hab Hbc Ha. destruct (Hab Ha) as (Hb & Hr & Hn & Hg). destruct (Hbc Hb) as (Hc & Hr' & Hn' & Hg').
  split_and!; [done|congruence..|]. intros k Hk. rewrite Hg' by done. by apply Hg.
Qed.

Section Outside.
Context {T : Type} `{HL : BadgerLaws T} (P : bytes) (HP : P ≠ []).

Lemma prefixed_nonempty k : has_prefix k P = true → k ≠ [].
Proof. rewrite has_prefix_spec. intros [q ->]. by destruct P. Qed.

Lemma prefixed_differs k k' : has_prefix k P = true → has_prefix k' P = false → k' ≠ k.
Proof. intros H1 H2 ->. congruence. Qed.

Lemma addKeyPrefix_prefixed (n : DBNode T) kp : keyPrefix n = P → has_prefix (addKeyPrefix n kp) P = true.
Proof. intros <-. apply has_prefix_app. Qed.

Lemma db_put_outside (n n' : DBNode T) k v : (keyPrefix n = P → has_prefix k P = true) → db_put n k v = Ret n' → outside P n n'.
Proof.
  unfold db_put. intros Hk Hput HPn. specialize (Hk HPn). destruct (law_set (db_tx n) k v (prefixed_nonempty k Hk)) as (t' & Ht & Hget). rewrite Ht in Hput.
  injection Hput as <-. split_and!; [done..|]. intros k' Hk'. cbn [db_tx with_tx]. rewrite Hget. by rewrite decide_False by (by apply prefixed_differs).
Qed.

Lemma delete_outside (n : DBNode T) k t d : has_prefix k P = true → txn_delete (db_tx n) k = Ret t → outside P n (with_db_diff (with_tx n t) d).
Proof.
  intros Hk Ht HPn. destruct (law_delete (db_tx n) k (prefixed_nonempty k Hk)) as (t' & Ht' & Hget). rewrite Ht in Ht'. injection Ht' as ->.
  split_and!; [done..|]. intros k' Hk'. cbn [db_tx with_tx with_db_diff]. rewrite Hget. by rewrite decide_False by (by apply prefixed_differs).
Qed.

Lemma db_remove_outside (n n' : DBNode T) k : has_prefix k P = true → db_remove n k = Ret n' → outside P n n'.
Proof.
  intros Hk. unfold db_remove. destruct (txn_delete (db_tx n) k) as [t| | |] eqn:Ht; cbn [obind]; [|done..].
  destruct (rmKeyPrefix (with_tx n t) k) as [kp| | |]; cbn [obind]; [|done..]. intros [= <-]. by apply (delete_outside n k).
Qed.

Lemma di_setNode_shape (i i' : dbIterator T) item : di_setNode i item = Ret i' → di_scanPrefix i' = di_scanPrefix i ∧ di_rootItem i' = di_rootItem i.
Proof. destruct item as [[k v]|]; cbn [di_setNode]; [|done]. destruct (rmKeyPrefix (di_node i) k); cbn [obind]; [|done..]. by intros [= <-]. Qed.

(** The items that a scan visits have its prefix. *)
Lemma scan_loop_outside (n : DBNode T) fuel it e (s s' : DBNode T) err :
  has_prefix (di_scanPrefix it) P = true → di_rootItem it = None →
  scan_children_loop (λ n k _, db_remove n (Copy k)) fuel n it e s = Ret (s', err) → outside P s s'.
Proof.
  revert it e s. induction fuel as [|fuel IH]; intros it e s Hpre Hroot; cbn [scan_children_loop]; [done|].
  destruct (di_Valid it) eqn:Hv; [|by intros [= <- _]]. destruct (Item (di_iter it)) as [[k v]|] eqn:Hi; [|done].
  assert (has_prefix k P = true) as Hk.
  { unfold di_Valid in Hv. rewrite Hroot in Hv. unfold ValidForPrefix in Hv. unfold Item in Hi. destruct (bi_rest (di_iter it)) as [|[k' v'] l]; [done|].
    injection Hi as -> ->. apply has_prefix_spec in Hpre as [q Hq]. rewrite Hq in Hv. by eapply has_prefix_extends. }
  destruct (scan_stop n e k) as [e'| | |]; cbn [obind]; [|done..]. destruct e' as [e'|]; [|by intros [= <- _]].
  destruct (db_remove s (Copy k)) as [s1|er| |] eqn:Hrm; [|by intros [= <- _]|done..].
  destruct (di_Next it) as [it'| | |] eqn:Hn; cbn [obind]; [|done..]. intros Hloop.
  assert (di_scanPrefix it' = di_scanPrefix it ∧ di_rootItem it' = None) as [Hp' Hr'].
  { unfold di_Next in Hn. rewrite Hroot in Hn. cbn [obind] in Hn. destruct (negb _); [by injection Hn as <-|]. by apply di_setNode_shape in Hn as [-> ->]. }
  rewrite Copy_id in Hrm. etrans; [exact (db_remove_outside s s1 k Hk Hrm)|]. eapply (IH it'); [by rewrite Hp'|done|exact Hloop].
Qed.

Lemma skip_root_shape (it it' : dbIterator T) : skip_root it = Ret it' → di_scanPrefix it' = di_scanPrefix it ∧ di_rootItem it' = None.
Proof.
  unfold skip_root. destruct (di_Rewind it) as [it1| | |] eqn:Hr; cbn [obind]; [|done..]. intros Hn.
  assert (di_scanPrefix it1 = di_scanPrefix it) as H1.
  { unfold di_Rewind in Hr. destruct (txn_get _ _); [by apply di_setNode_shape in Hr as [-> _]|]. destruct (negb _); [by injection Hr as <-|]. by apply di_setNode_shape in Hr as [-> _]. }
  rewrite <- H1. unfold di_Next in Hn. destruct (di_rootItem it1) as [item|] eqn:Hri; cbn [obind] in Hn.
  - destruct (negb (di_Valid _)); cbn [obind] in Hn.
    + destruct (negb _); [by injection Hn as <-|]. by apply di_setNode_shape in Hn as [-> ->].
    + destruct (rmKeyPrefix (T := T) _ _) as [rest| | |]; cbn [obind] in Hn; [|done..]. destruct (decide _); cbn [obind] in Hn;
        (destruct (negb _); [by injection Hn as <-|by apply di_setNode_shape in Hn as [-> ->]]).
  - destruct (negb _); [by injection Hn as <-|by apply di_setNode_shape in Hn as [-> ->]].
Qed.

Lemma delete_subtree_outside (n n' : DBNode T) rel : keyPrefix n = P → delete_subtree n rel = Ret n' → outside P n n'.
Proof.
  intros HPn. unfold delete_subtree. destruct (txn_get (db_tx n) _) as [val|]; [|by intros [= <-]].
  destruct (decodeNode val) as [d| | |]; cbn [obind]; [|done..]. case_decide.
  - destruct (rmKeyPrefix n _) as [kp| | |]; cbn [obind]; [|done..]. destruct (txn_delete _ _) as [t| | |] eqn:Ht; cbn [obind]; [|done..].
    intros [= <-] _. destruct (delete_outside n _ t (Diff_Remove (db_diff n) kp) (addKeyPrefix_prefixed n _ HPn) Ht HPn) as (Hk & Hr & Hn & Hg).
    split_and!; done.
  - intros Hs. destruct (scanChildrenForward _ n _ rel None _ n) as [[s err]| | |] eqn:Hscan; cbn [obind] in Hs; [|done..].
    assert (outside P n s) as Hout.
    { unfold scanChildrenForward in Hscan. destruct (dn_nodeType d); try (by injection Hscan as <- _).
      all: destruct (skip_root _) as [it| | |] eqn:Hsk; cbn [obind] in Hscan; [|done..]; apply skip_root_shape in Hsk as [Hp Hr];
        eapply scan_loop_outside; [rewrite Hp; cbn [di_scanPrefix db_Iterator newIteratorFromBadgerIterator]; unfold scan_prefix_of|exact Hr|exact Hscan].
      all: case_decide; [rewrite has_prefix_spec; unfold addKeyPrefix; rewrite HPn; eexists; by rewrite <- (assoc_L (++))|by apply addKeyPrefix_prefixed]. }
    etrans; [exact Hout|]. destruct (Hout HPn) as (Hk & _). apply (db_remove_outside s n' (addKeyPrefix n (Push (rootKeypath n) rel))); [|exact Hs].
    by apply addKeyPrefix_prefixed.
Qed.

(** A fold whose steps keep every key outside the prefix keeps them too. *)
Lemma put_outside (n n' : DBNode T) kp v : db_put n (addKeyPrefix n kp) v = Ret n' → outside P n n'.
Proof. apply db_put_outside. apply addKeyPrefix_prefixed. Qed.

Section OutsideSet.
Context {N : Type} `{NodeSource N} `{StructFields N}.

Lemma setNode_outside fuel (n n' : DBNode T) abs (node : N) : setNode fuel n abs node = Ret n' → outside P n n'.
Proof.
  revert n n' abs node. induction fuel as [|fuel IH]; intros n n' abs node; cbn [setNode]; [done|].
  destruct (src_iterate node) as [visited| | |]; cbn [obind]; [|done..]. apply fold_outcome_rel; [apply _|].
  intros s a s' Hstep. destruct (RelativeTo _ _) as [rel| | |]; cbn [obind] in Hstep; [|done..].
  destruct (src_innerNode node rel) as [[inner|]| | |]; cbn [obind] in Hstep; [by apply (IH _ _ _ _ Hstep)| |done..].
  destruct (src_encodedBytes node a) as [[enc| | |]|]; cbn [obind] in Hstep; [by apply put_outside in Hstep|done..|].
  destruct (src_NodeInfo node rel) as [[[nt vt] len]| | |]; cbn [obind] in Hstep; [|done..].
  destruct (if decide (nt = NodeTypeValue) then _ else _) as [[val|]| | |]; cbn [obind] in Hstep; [|by injection Hstep as <-|done..].
  destruct (encodeNode nt vt len val); cbn [obind] in Hstep; [by apply put_outside in Hstep|done..].
Qed.

Lemma ensure_ancestor_outside abs (n n' : DBNode T) i : ensure_ancestor abs n i = Ret n' → outside P n n'.
Proof.
  unfold ensure_ancestor. destruct (FirstNParts _ _); cbn [obind]; [|done..]. destruct (txn_get _ _); [by intros [= <-]|].
  destruct (encodeNode _ _ _ _); cbn [obind]; [|done..]. apply put_outside.
Qed.

Lemma db_Set_node_outside (n n' : DBNode T) rel (node : N) :
  keyPrefix n = P → db_rng n = None → db_Set n rel None (GNode node) = Ret n' → outside P n n'.
Proof.
  intros HPn Hrng. unfold db_Set. rewrite Hrng. cbn [obind]. unfold setNoRange.
  destruct (RelativeTo _ _) as [rel'| | |]; cbn [obind]; [|done..]. destruct (delete_subtree n rel') as [n1| | |] eqn:Hd; cbn [obind]; [|done..].
  destruct (fold_outcome _ n1 _) as [n2| | |] eqn:Hf; cbn [obind]; [|done..]. unfold walkGoValue. cbn [goval_size walk_loop].
  destruct (put_step _ n2 [] (GNode node)) as [n3| | |] eqn:Hp; cbn [obind children walk_loop app]; [|done..]. intros [= <-].
  etrans; [exact (delete_subtree_outside n n1 rel' HPn Hd)|].
  etrans; [|exact (setNode_outside _ _ _ _ _ Hp)]. revert Hf. apply fold_outcome_rel; [apply _|]. intros. by eapply ensure_ancestor_outside.
Qed.
End OutsideSet.

(** *** An index is written below its own prefix, with an entry for every key *)
Section OutsideBuild.
Context {N : Type} `{NodeSource N} `{StructFields N} (indexNode : Keypath → outcome (option (Keypath * N))).

(** From one step of the loop to the next: the keys that have been counted stay. *)
Definition index_grows (st st' : gmap Keypath (gset Keypath) * DBNode T) : Prop :=
  dom st.1 ⊆ dom st'.1 ∧ (keyPrefix st.2 = P → db_rng st.2 = None → outside P st.2 st'.2).

#[local] Instance index_grows_preorder : PreOrder index_grows.
Proof.
  split; [by intros st; split|]. intros a b c [Hd1 Ho1] [Hd2 Ho2]. split; [set_solver|]. intros HPa Hra.
  specialize (Ho1 HPa Hra). destruct (Ho1 HPa) as (HPb & _ & Hrb & _). etrans; [exact Ho1|]. apply Ho2; [done|congruence].
Qed.

Lemma index_child_grows kp nt st k st' : index_child indexNode kp nt st k = Ret st' → index_grows st st'.
Proof.
  unfold index_child. destruct st as [cs index]. destruct (RelativeTo k kp) as [rel| | |]; cbn [obind]; [|done..].
  destruct (indexNode rel) as [[[key node]|]| | |]; cbn [obind]; [|by intros [= <-]|done..].
  destruct (Part rel 0) as [part| | |]; cbn [obind]; [|done..]. destruct (match nt with NodeTypeSlice => _ | _ => _ end) as [rel'| | |]; cbn [obind]; [|done..].
  destruct (db_Set index rel' None (GNode node)) as [index'| | |] eqn:Hs; cbn [obind]; [|done..]. intros [= <-].
  split; cbn [fst snd]; [set_solver|]. intros HPn Hr. by eapply db_Set_node_outside.
Qed.

(** The key that a child is indexed to is counted when the child is visited. *)
Lemma index_child_counts kp nt st k st' rel key node :
  RelativeTo k kp = Ret rel → indexNode rel = Ret (Some (key, node)) → index_child indexNode kp nt st k = Ret st' → key ∈ dom st'.1.
Proof.
  intros Hrel Hix. unfold index_child. destruct st as [cs index]. rewrite Hrel. cbn [obind]. rewrite Hix. cbn [obind].
  destruct (Part rel 0) as [part| | |]; cbn [obind]; [|done..]. destruct (match nt with NodeTypeSlice => _ | _ => _ end) as [rel'| | |]; cbn [obind]; [|done..].
  destruct (db_Set index rel' None (GNode node)) as [index'| | |]; cbn [obind]; [|done..]. intros [= <-]. cbn [fst]. set_solver.
Qed.

Lemma index_children_count kp nt ks st st' k rel key node :
  k ∈ ks → RelativeTo k kp = Ret rel → indexNode rel = Ret (Some (key, node)) →
  fold_outcome (index_child indexNode kp nt) st ks = Ret st' → key ∈ dom st'.1.
Proof.
  intros Hk Hrel Hix. revert st. induction ks as [|k0 ks IH]; intros st; [by apply not_elem_of_nil in Hk|]. cbn [fold_outcome].
  destruct (index_child indexNode kp nt st k0) as [st1| | |] eqn:Hst1; cbn [obind]; [|done..]. apply elem_of_cons in Hk as [<-|Hk]; [|by apply IH].
  intros Hf. assert (index_grows st1 st') as [Hd _]; [|by eapply elem_of_weaken; [eapply index_child_counts|]].
  revert Hf. apply fold_outcome_rel; [apply _|]. intros. by eapply index_child_grows.
Qed.

Lemma BuildIndex_outside (index index' : DBNode T) kp nt ks :
  keyPrefix index = P → db_rng index = None → BuildIndex indexNode index kp nt ks = Ret index' → outside P index index'.
Proof.
  intros HPi Hri. unfold BuildIndex. destruct (fold_outcome _ (∅, index) ks) as [[cs i1]| | |] eqn:Hf; cbn [obind]; [|done..].
  destruct (fold_outcome _ i1 _) as [i2| | |] eqn:Hf2; cbn [obind]; [|done..]. destruct (encodeNode NodeTypeMap _ _ _) as [enc| | |]; cbn [obind]; [|done..].
  intros Hput. etrans; [|by eapply put_outside]. assert (index_grows (∅, index) (cs, i1)) as [_ Ho].
  { revert Hf. apply fold_outcome_rel; [apply _|]. intros. by eapply index_child_grows. }
  etrans; [by apply Ho|]. revert Hf2. apply fold_outcome_rel; [apply _|]. intros s a s'.
  destruct (encodeNode _ _ _ _); cbn [obind]; [|done..]. apply put_outside.
Qed.

(** What is stored stays stored by the loop that writes the entries. *)
Definition entries_kept (i i' : DBNode T) : Prop :=
  keyPrefix i = P → keyPrefix i' = P ∧ rootKeypath i' = rootKeypath i ∧ ∀ k, is_Some (txn_get (db_tx i) k) → is_Some (txn_get (db_tx i') k).

#[local] Instance entries_kept_preorder : PreOrder entries_kept.
Proof.
  split; [by intros i|]. intros a b c Hab Hbc Ha. destruct (Hab Ha) as (Hb & Hr & Hk). destruct (Hbc Hb) as (Hc & Hr' & Hk').
  split_and!; [done|congruence|]. intros k Hs. by apply Hk', Hk.
Qed.

Lemma put_entry (i i' : DBNode T) kp v :
  keyPrefix i = P → db_put i (addKeyPrefix i kp) v = Ret i' → entries_kept i i' ∧ is_Some (txn_get (db_tx i') (P ++ kp)).
Proof.
  intros HPi. unfold db_put. assert (addKeyPrefix i kp = P ++ kp) as -> by (unfold addKeyPrefix; by rewrite HPi).
  destruct (law_set (db_tx i) (P ++ kp) v) as (t' & Ht & Hget); [by destruct P|]. rewrite Ht. intros [= <-]. split; cbn [db_tx with_tx].
  - intros _. split_and!; [done..|]. intros k Hk. cbn [db_tx with_tx]. rewrite Hget. by case_decide.
  - rewrite Hget. by rewrite decide_True.
Qed.

Lemma write_entries (nt : NodeType) (l : list (Keypath * gset Keypath)) (i i' : DBNode T) :
  keyPrefix i = P →
  fold_outcome (λ (index : DBNode T) (kc : Keypath * gset Keypath), let! encoded := encodeNode nt ValueTypeInvalid (Z.of_nat (size kc.2)) SNil in db_put index (addKeyPrefix index kc.1) encoded) i l = Ret i' →
  entries_kept i i' ∧ ∀ key, key ∈ l.*1 → is_Some (txn_get (db_tx i') (P ++ key)).
Proof.
  revert i. induction l as [|[k c] l IH]; intros i HPi; cbn [fold_outcome].
  { intros [= <-]. split; [done|]. intros key Hk. by apply not_elem_of_nil in Hk. }
  cbn [fst snd]. destruct (encodeNode _ _ _ _) as [enc| | |]; cbn [obind]; [|done..]. destruct (db_put i _ enc) as [i1| | |] eqn:Hput; cbn [obind]; [|done..].
  intros Hf. destruct (put_entry i i1 k enc HPi Hput) as [Hk1 Hs1]. destruct (Hk1 HPi) as (HP1 & _ & _). destruct (IH i1 HP1 Hf) as [Hk2 Hs2].
  split; [by etrans|]. intros key. rewrite fmap_cons. intros [->|Hin]%elem_of_cons; [|by apply Hs2]. cbn [fst]. by apply (Hk2 HP1).
Qed.

Lemma BuildIndex_entries (index index' : DBNode T) kp nt ks k rel key node :
  keyPrefix index = P → db_rng index = None → BuildIndex indexNode index kp nt ks = Ret index' →
  k ∈ ks → RelativeTo k kp = Ret rel → indexNode rel = Ret (Some (key, node)) → is_Some (txn_get (db_tx index') (P ++ key)).
Proof.
  intros HPi Hri HB Hk Hrel Hix. revert HB. unfold BuildIndex. destruct (fold_outcome _ (∅, index) ks) as [[cs i1]| | |] eqn:Hf; cbn [obind]; [|done..].
  destruct (fold_outcome _ i1 _) as [i2| | |] eqn:Hf2; cbn [obind]; [|done..]. destruct (encodeNode NodeTypeMap _ _ _) as [enc| | |]; cbn [obind]; [|done..].
  intros Hput. assert (keyPrefix i1 = P) as HP1.
  { assert (index_grows (∅, index) (cs, i1)) as [_ Ho]; [|by apply Ho]. revert Hf. apply fold_outcome_rel; [apply _|]. intros. by eapply index_child_grows. }
  destruct (write_entries nt _ i1 i2 HP1 Hf2) as [Hk2 He]. destruct (Hk2 HP1) as (HP2 & _ & _).
  destruct (put_entry i2 index' [] enc HP2 Hput) as [Hk3 _]. apply (Hk3 HP2), He. pose proof (index_children_count _ _ _ _ _ _ _ _ _ Hk Hrel Hix Hf) as Hd.
  cbn [fst] in Hd. apply elem_of_dom in Hd as [c Hc]. apply list_elem_of_fmap. exists (key, c). split; [done|]. by apply elem_of_map_to_list.
Qed.
End OutsideBuild.
End Outside.

(** ** What a query answers *)

Lemma delete_scan_keypath (m m' : mem) k r : delete_scan m k r = Ret m' → MemoryNode.keypath m' = MemoryNode.keypath m.
Proof.
  unfold delete_scan. destruct (scanKeypathsWithPrefix _ _ _ _ _) as [[st e]| | |]; cbn [obind]; [|done..].
  destruct (del_span _) as [[a b]|]; by intros [= <-].
Qed.

Lemma checkCopied_frame (m : mem) : MemoryNode.keypath (checkCopied m) = MemoryNode.keypath m ∧ rng (checkCopied m) = rng m.
Proof. unfold checkCopied, makeCopy. destruct (copied m); [|done]. destruct (if decide _ then _ else _) as [a b]. by destruct (foldl _ _ _) as [[vs nts] cls]. Qed.

Lemma set_keypath h (m m' : mem) k v : rng m = None → Set_ tt m k None v = Ret (h, m') → MemoryNode.keypath m' = MemoryNode.keypath m.
Proof.
  intros Hrng. unfold Set_, delegate. destruct (ParentNodeFor tt m k) as [[[[] ?]|]| | |]; cbn [obind]; [|done..].
  destruct (Delete tt (checkCopied m) k None) as [[h1 m1]| | |] eqn:Hd; cbn [obind]; [|done..].
  assert (MemoryNode.keypath m1 = MemoryNode.keypath m) as <-.
  { revert Hd. unfold Delete, delegate. destruct (ParentNodeFor tt (checkCopied m) k) as [[[[] ?]|]| | |]; cbn [obind]; [|done..].
    destruct (checkCopied_frame m) as [Hk1 Hr1]. rewrite Hr1, Hrng. cbn [obind merge_range].
    destruct (delete_scan _ _ None) as [m2| | |] eqn:Hs; cbn [obind]; [|done..]. intros [= _ <-]. apply delete_scan_keypath in Hs as ->.
    cbn [MemoryNode.keypath with_lengths with_tables]. by rewrite (proj1 (checkCopied_frame _)). }
  unfold set_walk. destruct (intermediate_loop _ _ _ _ _) as [nts new]. destruct (walkGoValue _ _ _) as [st| | |]; cbn [obind]; [|done..]. by intros [= _ <-].
Qed.

Lemma scan_children_rel {T S} `{BadgerTxn T} (R : S → S → Prop) `{!PreOrder R} (fn : S → bytes → bytes → outcome S) (n : DBNode T) nt rel r len s s' e :
  (∀ s k v s', fn s k v = Ret s' → R s s') → scanChildrenForward fn n nt rel r len s = Ret (s', e) → R s s'.
Proof.
  intros Hfn.
  assert (∀ fuel it en s, scan_children_loop fn fuel n it en s = Ret (s', e) → R s s') as Hloop.
  { intros fuel. induction fuel as [|fuel IH]; intros it en s0; cbn [scan_children_loop]; [done|].
    destruct (di_Valid it); [|by intros [= <- _]]. destruct (Item (di_iter it)) as [[k v]|]; [|done].
    destruct (scan_stop n en k) as [[en'|]| | |]; cbn [obind]; [|by intros [= <- _]|done..].
    destruct (fn s0 k v) as [s1| | |] eqn:Hs; [|by intros [= <- _]|done..]. destruct (di_Next it); cbn [obind]; [|done..]. intros Hl.
    etrans; [by eapply Hfn|by eapply IH]. }
  unfold scanChildrenForward.
  destruct nt, r as [r|]; try (by intros [= <- _]).
  - destruct (negb _); [by intros [= <- _]|]. destruct (decide _); [by intros [= <- _]|]. destruct (mutable n); [done|].
    destruct (IndicesForLength r len) as [a b]. destruct (keypathOfNthSubkey n rel a) as [k| | |]; cbn [obind]; [|done..].
    destruct (match k with Some _ => _ | None => _ end); cbn [obind]; [|done..]. destruct (di_SeekTo _ _); cbn [obind]; [|done..]. apply Hloop.
  - destruct (skip_root _); cbn [obind]; [|done..]. apply Hloop.
  - destruct (negb _); [by intros [= <- _]|]. destruct (decide _); [by intros [= <- _]|].
    destruct (IndicesForLength r len) as [a b]. do 4 (match goal with |- obind ?x _ = _ → _ => destruct x; cbn [obind]; [|done..] end). apply Hloop.
  - destruct (skip_root _); cbn [obind]; [|done..]. apply Hloop.
Qed.

(** A copy stands at the empty keypath, wherever the original stands, and so does what is
    left of it without its frames. *)
Lemma copied_keypath {T} `{BadgerTxn T} (n : DBNode T) rel r m : db_CopyToMemory n rel r = Ret m → MemoryNode.keypath m = [].
Proof.
  unfold db_CopyToMemory. destruct (merge_range _ _) as [r'| | |]; cbn [obind]; [|done..]. destruct (txn_get _ _) as [bs|]; [|done].
  destruct (decodeNode bs) as [d| | |]; cbn [obind]; [|done..]. destruct (ranged_length _ _) as [len| | |]; cbn [obind]; [|done..].
  case_decide.
  - destruct (decodeGoValue _ _ _ _ _) as [v| | |]; cbn [obind]; [|done..]. destruct (Set_ tt NewMemoryNode [] None v) as [[h m']| | |] eqn:Hs; cbn [obind]; [|done..].
    intros [= <-]. by apply set_keypath in Hs.
  - destruct (scanChildrenForward _ _ _ _ _ _ _) as [[[new m'] [e|]]| | |] eqn:Hs; cbn [obind]; [done| |done..]. intros [= <-].
    assert (PreOrder (λ a b : list Keypath * mem, MemoryNode.keypath b.2 = MemoryNode.keypath a.2)) as Hpre by (split; [by intros ?|intros a b c; congruence]).
    apply (scan_children_rel (H := H) _ (PreOrder0 := Hpre)) in Hs; [done|].
    intros [ks a] k v s'. unfold copy_item. do 4 (match goal with |- obind ?x _ = _ → _ => destruct x; cbn [obind]; [|done..] end). by intros [= <-].
Qed.

Lemma Unwrap_keypath fuel m res : Unwrap fuel m [] = Ret res → res.2 = [].
Proof.
  revert m. induction fuel as [|fuel IH]; intros m; cbn [Unwrap]; [done|]. destruct (Exists tt m ValueKey) as [b| | |]; cbn [obind]; [|done..].
  destruct (negb b); [by intros [= <-]|]. destruct (NodeAt tt m ValueKey None) as [[n|[]]| | |]; cbn [obind]; [|done..]. apply IH.
Qed.

Section Queries.
Context {T : Type} `{BadgerLaws T} `{!Configs T}.
Context (js_index : ixscript → Keypath → mem → outcome (option (Keypath * mem))).

Notation query := (QueryIndex js_index).

(** Nothing is stored for the index [indexName] of [kp]. *)
Definition no_index (indices : T) (v : ID) (kp indexName : Keypath) : Prop :=
  ∀ q, txn_get indices (makeIndexKeyPrefix v kp indexName ++ q) = None.

Lemma index_exists (indices : T) v kp name mut q :
  db_Exists (IndexAtVersion (λ _, indices) v kp name mut) q = Ret (bool_decide (is_Some (txn_get indices (makeIndexKeyPrefix v kp name ++ q)))).
Proof. done. Qed.

Lemma index_prefix_differs v name c kp name' q : c ≠ ":"%byte → has_prefix (makeIndexKeyPrefix v (c :: kp) name' ++ q) (makeIndexKeyPrefix v [] name) = false.
Proof.
  intros Hc. apply not_true_iff_false. rewrite has_prefix_spec. intros [r Hr]. unfold makeIndexKeyPrefix in Hr. rewrite <- !(assoc_L (++)) in Hr.
  do 4 apply app_inv_head in Hr. cbn in Hr. by injection Hr.
Qed.

Lemma build_index_outside (indices indices' : T) v node name ix k :
  build_index js_index indices v [] node name ix = Ret indices' → has_prefix k (makeIndexKeyPrefix v [] name) = false → txn_get indices' k = txn_get indices k.
Proof.
  unfold build_index. destruct (NodeInfo tt node []) as [info| | |]; cbn [obind]; [|done..]. destruct (children_of node) as [ks| | |]; cbn [obind]; [|done..].
  destruct (BuildIndex _ _ _ _ ks) as [i| | |] eqn:HB; cbn [obind]; [|done..]. intros [= <-] Hk.
  apply (BuildIndex_outside (makeIndexKeyPrefix v [] name)) in HB; [|done..]. by apply HB.
Qed.

(** A stored entry is answered as it is, and nothing is built; where the behaviour tree has no
    indexer of that name the query fails with 404. *)
Theorem stored_query_answered (indices states : T) bt version kp name q r :
  (is_Some (txn_get indices (makeIndexKeyPrefix (default CurrentVersion version) kp name ++ q)) →
     query indices states bt version kp name q r
     = Ret (indices, inl (db_NodeAt (IndexAtVersion (λ _, indices) (default CurrentVersion version) kp name false) q r))) ∧
  (txn_get indices (makeIndexKeyPrefix (default CurrentVersion version) kp name ++ q) = None → bt_indexers bt !! kp ≫= lookup name = None →
     query indices states bt version kp name q r = Ret (indices, inr Err404)).
Proof.
  unfold QueryIndex. rewrite index_exists. cbn [obind]. split.
  - intros Hs. by rewrite bool_decide_true.
  - intros Hn Hb. rewrite Hn, bool_decide_false by (by intros [? ?]). by rewrite Hb.
Qed.

(** A query of the index of a keypath below the root fails, however often it is asked: the
    index is built for the keypath of the copy, which is always empty. *)
Theorem query_below_root_fails (indices states : T) bt version c kp name q r indices' res :
  c ≠ ":"%byte → no_index indices (default CurrentVersion version) (c :: kp) name →
  query indices states bt version (c :: kp) name q r = Ret (indices', res) →
  no_index indices' (default CurrentVersion version) (c :: kp) name ∧ ∃ e, res = inr e.
Proof.
  intros Hc Hno. unfold QueryIndex. rewrite index_exists. cbn [obind]. rewrite Hno, bool_decide_false by (by intros [? ?]).
  destruct (bt_indexers bt !! (c :: kp) ≫= lookup name) as [ix|]; [|intros [= <- <-]; eauto].
  destruct (db_CopyToMemory _ [] None) as [m|e| |] eqn:Hcopy; cbn [obind]; [|intros [= <- <-]; eauto|done..]. rewrite (copied_keypath _ _ _ _ Hcopy).
  destruct (Unwrap _ m []) as [u|e| |] eqn:Hu; cbn [obind]; [|intros [= <- <-]; eauto|done..]. rewrite (Unwrap_keypath _ _ _ Hu).
  destruct (build_index _ _ _ [] _ _ _) as [ind|e| |] eqn:HB; [|intros [= <- <-]; eauto|done..].
  assert (no_index ind (default CurrentVersion version) (c :: kp) name) as Hno'.
  { intros q'. rewrite (build_index_outside _ _ _ _ _ _ _ HB) by (by apply index_prefix_differs). apply Hno. }
  rewrite index_exists. cbn [obind]. rewrite Hno', bool_decide_false by (by intros [? ?]). intros [= <- <-]. eauto.
Qed.

(** A query at the root for a key to which the indexer takes some child is answered, once
    the index has been built. *)
Theorem query_at_root_found (indices states : T) bt version name q r ix copied m kp ks indices' res k rel node :
  bt_indexers bt !! ([] : Keypath) ≫= lookup name = Some ix →
  db_CopyToMemory (db_NodeAt (StateAtVersion (λ _, states) (default CurrentVersion version) false) [] None) [] None = Ret copied →
  Unwrap (length (keypaths copied) + 2) copied [] = Ret (m, kp) → children_of m = Ret ks →
  k ∈ ks → RelativeTo k (MemoryNode.keypath m) = Ret rel →
  IndexNode js_index ix rel (node_at m (Push (MemoryNode.keypath m) rel)) = Ret (Some (q, node)) →
  query indices states bt version [] name q r = Ret (indices', res) → (∃ i, build_index js_index indices (default CurrentVersion version) [] m name ix = Ret i) →
  ∃ n, res = inl n ∧ is_Some (txn_get indices' (makeIndexKeyPrefix (default CurrentVersion version) [] name ++ q)).
Proof.
  intros Hix Hcopy Hu Hks Hk Hrel Hin Hq [ind HB]. revert Hq. unfold QueryIndex. rewrite index_exists. cbn [obind].
  case_bool_decide as Hs; [intros [= <- <-]; eauto|]. rewrite Hix, Hcopy. cbn [obind]. rewrite (copied_keypath _ _ _ _ Hcopy), Hu. cbn [obind fst snd].
  pose proof (Unwrap_keypath _ _ _ Hu) as Hkp. cbn [snd] in Hkp. subst kp. rewrite HB, index_exists. cbn [obind].
  enough (is_Some (txn_get ind (makeIndexKeyPrefix (default CurrentVersion version) [] name ++ q))) as Hsome.
  { rewrite bool_decide_true by done. intros [= <- <-]. eauto. }
  revert HB. unfold build_index. destruct (NodeInfo tt m []) as [info| | |]; cbn [obind]; [|done..]. rewrite Hks. cbn [obind].
  destruct (BuildIndex _ _ _ _ ks) as [i| | |] eqn:HB; cbn [obind]; [|done..]. intros [= <-].
  eapply (BuildIndex_entries (makeIndexKeyPrefix (default CurrentVersion version) [] name)); [..|exact HB|exact Hk|exact Hrel|exact Hin]; done.
Qed.
End Queries.

(** ** Examples *)

#[local] Existing Instance toy_curve.
#[local] Existing Instance plain_configs.

Definition of_kind (k : string) : plain := GMap [(str "kind", GScalar (SString (str k)))].
Definition kinds : plain := GMap [(str "a", of_kind "x"); (str "b", of_kind "x"); (str "c", of_kind "y")].
Definition kinds_state (kp : Keypath) (v : plain) : gmap bytes bytes :=
  match db_Set (StateAtVersion (λ _, ∅ : gmap bytes bytes) CurrentVersion true) kp None v with Ret n => db_tx n | _ => ∅ end.

Definition ask_kind (kp : Keypath) (v : plain) (q : string) : outcome (gmap bytes bytes * (DBNode (gmap bytes bytes) + error)) :=
  QueryIndex (λ _ _ _, Ret None) (∅ : gmap bytes bytes) (kinds_state kp v) (addIndexer newBehaviorTree kp (str "byKind") (keypathIndexer (str "kind")))
    None kp (str "byKind") (str q) None.

(** The answer with the recorded length of the entry. *)
Definition kind_answer (kp : Keypath) (v : plain) (q : string) : outcome (option (outcome (option plain) * outcome Z)) :=
  let! res := ask_kind kp v q in
  match res.2 with inl n => Ret (Some (db_Value n [] None, db_Length n)) | inr _ => Ret None end.

(** Over a map the children of one key take each other's place: two of them are counted and
    the entry holds the last.  Over a slice the children are stored under their new numbers
    without the key, so the entry of a key has only nil elements.  Below the root nothing is found. *)
Lemma index_examples :
  kind_answer [] kinds "x" = Ret (Some (Ret (Some (of_kind "x")), Ret 2%Z)) ∧
  kind_answer [] kinds "z" = Ret None ∧
  kind_answer [] (GSlice [of_kind "x"; of_kind "y"; of_kind "x"]) "x" = Ret (Some (Ret (Some (GSlice [GScalar SNil; GScalar SNil])), Ret 2%Z)) ∧
  kind_answer (str "people") kinds "x" = Ret None.
Proof. vm_compute. split_and!; reflexivity. Qed.

(** The theorems at that state. *)
Lemma query_below_root_example : ∃ i, ask_kind (str "people") kinds "x" = Ret (i, inr Err404) ∧ no_index i CurrentVersion (str "people") (str "byKind").
Proof.
  assert (match ask_kind (str "people") kinds "x" with Ret (_, inr Err404) => true | _ => false end = true) as Hcode by (vm_compute; reflexivity).
  destruct (ask_kind (str "people") kinds "x") as [[i [n|[]]]| | |] eqn:Hq; try discriminate Hcode. exists i. split; [reflexivity|].
  unfold ask_kind in Hq.
  pose proof (query_below_root_fails (λ _ _ _, Ret None) (∅ : gmap bytes bytes) (kinds_state (str "people") kinds)
    (addIndexer newBehaviorTree (str "people") (str "byKind") (keypathIndexer (str "kind"))) None "p"%byte (str "eople") (str "byKind") (str "x") None i (inr Err404)) as Hthm.
  cbn [default] in Hthm. change ("p"%byte :: str "eople") with (str "people") in Hthm. apply Hthm; [discriminate|intros q; apply lookup_empty|exact Hq].
Qed.
