(* ===== verification/RefStore.v ===== *)
(** * The blob store ([refstore.go])

    Blobs are files of one directory, named by the hexadecimal form of their Keccak hash
    (which the code calls SHA3); a Badger database maps the SHA1 hash of a blob to its SHA3
    hash and back, and keeps the set of references that are needed but not there.

    [rs_blobs] is the directory, by file name (relative to [rootPath/blobs]); the disk itself
    does not fail.  [rs_temps] are the temporary files that are left behind.  [io.Reader]s are
    what they yield: the bytes, and the error they end with if it is not [io.EOF].  The
    listeners are a log of what they are told.  The hash functions, Badger and
    [encoding/json] (on the one map that the store writes) are interfaces.

    [blobspec] is what the store promises: a set of contents, and the references that are
    still needed.  [refstore_refines] shows that the files and the database implement it for
    every sequence of operations whose contents do not collide. *)

From S2P Require Import Prelude Types Keypath TreeTypes GoValue BadgerTxn Tx TxStore.

Class Hashes := { sha1 : bytes → bytes; legacyKeccak256 : bytes → bytes }.
Class HashLaws `{Hashes} : Prop := {
  length_sha1 c : length (sha1 c) = 20;
  length_keccak c : length (legacyKeccak256 c) = 32
}.

(** [json] on [map[string]interface{}] whose values are all [nil]; [None] is the [nil] map. *)
Class RefsJson := {
  refs_Marshal : option (gset bytes) → bytes;
  refs_Unmarshal : bytes → outcome (option (gset bytes))
}.

(** A key that is written without escapes. *)
Definition json_plain (b : byte) : Prop :=
  (32 ≤ byte_to_Z b ≤ 126)%Z ∧ b ∉ [x22; x5c; "<"%byte; ">"%byte; "&"%byte].
#[export] Instance json_plain_dec b : Decision (json_plain b).
Proof. unfold json_plain. apply _. Defined.
Class RefsJsonLaws `{RefsJson} : Prop := {
  refs_json_roundtrip m :
    (∀ k, k ∈ m → Forall json_plain k) → refs_Unmarshal (refs_Marshal (Some m)) = Ret (Some m)
}.

#[export] Instance HashAlg_countable : Countable HashAlg.
Proof.
  refine (inj_countable' (λ a, match a with HashAlgUnknown => 0 | SHA1 => 1 | SHA3 => 2 end)
    (λ n, match n with 0 => HashAlgUnknown | 1 => SHA1 | _ => SHA3 end) _). by intros [].
Defined.
#[export] Instance RefID_eq_dec : EqDecision RefID.
Proof. solve_decision. Defined.
#[export] Instance RefID_countable : Countable RefID.
Proof. refine (inj_countable' (λ r, (ref_HashAlg r, ref_Hash r)) (λ p, mkRefID p.1 p.2) _). by intros []. Defined.

Definition ErrNotExist : error := ErrOther "file does not exist".
Definition ErrUnknownHashType : error := ErrOther "unknown hash type".

(** [append(a[:n], suffix...)] on an array: the result, and the array, which is written to
    when the result fits into it. *)
Definition append_slice (a : bytes) (n : nat) (suffix : bytes) : bytes * bytes :=
  let r := take n a ++ suffix in
  (r, if decide (length r ≤ length a) then r ++ drop (length r) a else a).

Record reader := mkReader { rd_bytes : bytes; rd_err : option error }.

Definition sha3_suffix : bytes := str ":sha3".
Definition sha1_suffix : bytes := str ":sha1".
Definition missing_refs_key : bytes := str "missing-refs".

Section RefStore.
Context {T : Type} `{BadgerTxn T} `{Hashes} `{RefsJson} `{MapOrder}.

Record refStore := mkRefStore {
  rs_blobs : gmap bytes bytes;
  rs_temps : list bytes;
  rs_metadata : T;
  rs_neededTold : list (list RefID);
  rs_savedTold : nat
}.
Definition with_metadata (s : refStore) (t : T) : refStore :=
  mkRefStore (rs_blobs s) (rs_temps s) t (rs_neededTold s) (rs_savedTold s).
Definition with_temp (s : refStore) (data : bytes) : refStore :=
  mkRefStore (rs_blobs s) (data :: rs_temps s) (rs_metadata s) (rs_neededTold s) (rs_savedTold s).
(** [os.Rename] of the temporary file that was made last *)
Definition rename_temp (s : refStore) (name data : bytes) : refStore :=
  mkRefStore (<[name := data]> (rs_blobs s)) (tail (rs_temps s)) (rs_metadata s) (rs_neededTold s) (rs_savedTold s).
Definition notifyRefsNeededListeners (s : refStore) (refs : list RefID) : refStore :=
  mkRefStore (rs_blobs s) (rs_temps s) (rs_metadata s) (rs_neededTold s ++ [refs]) (rs_savedTold s).
Definition notifyRefsSavedListeners (s : refStore) : refStore :=
  mkRefStore (rs_blobs s) (rs_temps s) (rs_metadata s) (rs_neededTold s) (S (rs_savedTold s)).

(** [badger.DB.Update]: what the function wrote is dropped when it returns an error. *)
Definition Update (t : T) (f : T → outcome T) : outcome (T * option error) :=
  match f t with
  | Ret t' => Ret (t', None)
  | Err e => Ret (t, Some e)
  | Panic => Panic
  | Running => Running
  end.

Definition filepathForSHA3Blob (sha3Hash : Hash) : bytes := Hash_Hex sha3Hash.

Definition sha3ForSHA1 (s : refStore) (hash : Hash) : outcome Hash :=
  match txn_get (rs_metadata s) (append_slice hash 20 sha3_suffix).1 with
  | None => Err Err404
  | Some val => Ret (go_copy EmptyHash val)
  end.

Definition sha1ForSHA3 (s : refStore) (hash : Hash) : outcome Hash :=
  match txn_get (rs_metadata s) (append_slice hash (length hash) sha1_suffix).1 with
  | None => Err Err404
  | Some val => Ret (go_copy EmptyHash val)
  end.

(** [os.Stat] of a blob *)
Definition blob_exists (s : refStore) (name : bytes) : bool := bool_decide (is_Some (rs_blobs s !! name)).

Definition HaveObject (s : refStore) (refID : RefID) : outcome bool :=
  match ref_HashAlg refID with
  | SHA1 =>
      match sha3ForSHA1 s (ref_Hash refID) with
      | Ret sha3 => Ret (blob_exists s (filepathForSHA3Blob sha3))
      | Err e => if decide (e = Err404) then Ret false else Err e
      | Panic => Panic
      | Running => Running
      end
  | SHA3 => Ret (blob_exists s (filepathForSHA3Blob (ref_Hash refID)))
  | HashAlgUnknown => Err ErrUnknownHashType
  end.

(** The contents of the file, and the size that is returned beside it. *)
Definition objectBySHA3 (s : refStore) (sha3Hash : Hash) : outcome (bytes * nat) :=
  match rs_blobs s !! filepathForSHA3Blob sha3Hash with
  | None => Err ErrNotExist
  | Some data => Ret (data, length data)
  end.

Definition objectBySHA1 (s : refStore) (hash : Hash) : outcome (bytes * nat) :=
  let! sha3 := sha3ForSHA1 s hash in objectBySHA3 s sha3.

Definition Object (s : refStore) (refID : RefID) : outcome (bytes * nat) :=
  match ref_HashAlg refID with
  | SHA1 => objectBySHA1 s (ref_Hash refID)
  | SHA3 => objectBySHA3 s (ref_Hash refID)
  | HashAlgUnknown => Err ErrUnknownHashType
  end.

Definition ObjectFilepath (s : refStore) (refID : RefID) : outcome bytes :=
  match ref_HashAlg refID with
  | SHA1 => let! sha3Hash := sha3ForSHA1 s (ref_Hash refID) in Ret (filepathForSHA3Blob sha3Hash)
  | SHA3 => Ret (filepathForSHA3Blob (ref_Hash refID))
  | HashAlgUnknown => Err ErrUnknownHashType
  end.

(** ** Needed references *)

(** The map under [missing-refs], an empty one when there is no such item. *)
Definition read_missing (t : T) : outcome (option (gset bytes)) :=
  match txn_get t missing_refs_key with
  | None => Ret (Some ∅)
  | Some bs => refs_Unmarshal bs
  end.

(** Assigning to a [nil] map panics, deleting from one does nothing. *)
Definition mark_ref (m : option (gset bytes)) (refID : RefID) : outcome (option (gset bytes)) :=
  let! refIDStr := RefID_String refID in
  match m with Some m => Ret (Some ({[refIDStr]} ∪ m)) | None => Panic end.
Definition unmark_ref (m : option (gset bytes)) (refID : RefID) : outcome (option (gset bytes)) :=
  let! refIDStr := RefID_String refID in
  Ret ((λ m, m ∖ {[refIDStr]}) <$> m).

(** The transaction of [MarkRefsAsNeeded] and of [unmarkRefsAsNeeded], which differ in what
    they do for each reference. *)
Definition update_missing (f : option (gset bytes) → RefID → outcome (option (gset bytes)))
    (refs : list RefID) (t : T) : outcome T :=
  let! missingRefs := read_missing t in
  let! missingRefs := fold_outcome f missingRefs refs in
  txn_set t missing_refs_key (refs_Marshal missingRefs).

(** An error of the transaction is logged only. *)
Definition unmarkRefsAsNeeded (s : refStore) (refs : list RefID) : outcome refStore :=
  let! r := Update (rs_metadata s) (update_missing unmark_ref refs) in
  Ret (with_metadata s r.1).

Definition refs_of_texts (texts : list bytes) : list RefID :=
  omap (λ t, match RefID_UnmarshalText EmptyRef t with Ret r => Some r | _ => None end) texts.

Definition RefsNeeded (s : refStore) : outcome (list RefID) :=
  match txn_get (rs_metadata s) missing_refs_key with
  | None => Ret []
  | Some bs => let! m := refs_Unmarshal bs in Ret (refs_of_texts (set_slice (default ∅ m)))
  end.

Definition is_needed (s : refStore) (refID : RefID) : bool :=
  match HaveObject s refID with Ret have => negb have | _ => false end.

(** [MarkRefsAsNeeded] looks the references up first ([actually_needed]) and records them
    after that ([record_needed]); the lock is not held in between. *)
Definition actually_needed (s : refStore) (refs : list RefID) : list RefID :=
  filter (λ r, is_needed s r = true) refs.

Definition record_needed (s : refStore) (actuallyNeeded : list RefID) : outcome refStore :=
  let! r := Update (rs_metadata s) (update_missing mark_ref actuallyNeeded) in
  let s := with_metadata s r.1 in
  match RefsNeeded s with
  | Ret allNeeded => Ret (notifyRefsNeededListeners s allNeeded)
  | Err _ => Ret s
  | Panic => Panic
  | Running => Running
  end.

Definition MarkRefsAsNeeded (s : refStore) (refs : list RefID) : outcome refStore :=
  record_needed s (actually_needed s refs).

(** ** Storing *)

(** The transaction that links the two hashes.  The first key is built in the array of the
    SHA1 hash, which comes back changed. *)
Definition link_hashes (sha1Hash sha3Hash : Hash) (t : T) : outcome T :=
  let! t := txn_set t (append_slice sha1Hash 20 sha3_suffix).1 sha3Hash in
  txn_set t (append_slice sha3Hash (length sha3Hash) sha1_suffix).1 (take 20 sha1Hash).

(** The store afterwards and the three results: the SHA1 hash, the SHA3 hash, the error. *)
Definition StoreObject (s : refStore) (rd : reader) : outcome (refStore * (Hash * Hash * option error)) :=
  let s := with_temp s (rd_bytes rd) in
  match rd_err rd with
  | Some e => Ret (s, (EmptyHash, EmptyHash, Some e))
  | None =>
      let sha1Hash := go_copy EmptyHash (sha1 (rd_bytes rd)) in
      let sha3Hash := go_copy EmptyHash (legacyKeccak256 (rd_bytes rd)) in
      let s := rename_temp s (filepathForSHA3Blob sha3Hash) (rd_bytes rd) in
      let! r := Update (rs_metadata s) (link_hashes sha1Hash sha3Hash) in
      let sha1Hash := (append_slice sha1Hash 20 sha3_suffix).2 in
      match r.2 with
      | Some e => Ret (s, (sha1Hash, sha3Hash, Some e))
      | None =>
          let s := with_metadata s r.1 in
          let! s := unmarkRefsAsNeeded s [mkRefID SHA1 sha1Hash; mkRefID SHA3 sha3Hash] in
          Ret (notifyRefsSavedListeners s, (sha1Hash, sha3Hash, None))
      end
  end.

(** [filepath.Glob] lists a directory in the order of the names. *)
Definition blob_names (s : refStore) : list bytes := (merge_sort item_le (map_to_list (rs_blobs s))).*1.

Definition hashes_of_file (s : refStore) (name : bytes) : list RefID :=
  match HashFromHex name with
  | Ret sha3Hash =>
      mkRefID SHA3 sha3Hash ::
      match sha1ForSHA3 s sha3Hash with Ret sha1Hash => [mkRefID SHA1 sha1Hash] | _ => [] end
  | _ => []
  end.

Definition AllHashes (s : refStore) : list RefID := blob_names s ≫= hashes_of_file s.
End RefStore.
Arguments refStore : clear implicits.

(** ** What the store promises *)

Section Spec.
Context `{Hashes}.

(** The content is what the reference names. *)
Definition ref_matches (r : RefID) (c : bytes) : bool :=
  match ref_HashAlg r with
  | SHA1 => bool_decide (take 20 (ref_Hash r) = sha1 c)
  | SHA3 => bool_decide (ref_Hash r = legacyKeccak256 c)
  | HashAlgUnknown => false
  end.

Record blobspec := mkSpec { sp_contents : gset bytes; sp_needed : gset RefID }.

Definition spec_have (a : blobspec) (r : RefID) : bool := existsb (ref_matches r) (elements (sp_contents a)).

Definition spec_store (a : blobspec) (c : bytes) : blobspec :=
  mkSpec ({[c]} ∪ sp_contents a) (filter (λ r, ref_matches r c = false) (sp_needed a)).

Definition spec_mark (a : blobspec) (refs : list RefID) : blobspec :=
  mkSpec (sp_contents a)
    (list_to_set (ref_canonical <$> filter (λ r, ref_HashAlg r ≠ HashAlgUnknown ∧ spec_have a r = false) refs) ∪ sp_needed a).

Inductive rs_op := OpStore (rd : reader) | OpMark (refs : list RefID).

Definition spec_op (a : blobspec) (op : rs_op) : blobspec :=
  match op with
  | OpStore (mkReader c None) => spec_store a c
  | OpStore _ => a
  | OpMark refs => spec_mark a refs
  end.

Definition spec_run (ops : list rs_op) : blobspec := foldl spec_op (mkSpec ∅ ∅) ops.

Definition stored (ops : list rs_op) : list bytes :=
  omap (λ op, match op with OpStore (mkReader c None) => Some c | _ => None end) ops.
Definition marked (ops : list rs_op) : list RefID :=
  ops ≫= λ op, match op with OpMark refs => refs | _ => [] end.

(** The contents of a sequence of operations do not collide, and its references are arrays
    of the right length. *)
Definition no_collision (ops : list rs_op) : Prop :=
  ∀ c1 c2, c1 ∈ stored ops → c2 ∈ stored ops → legacyKeccak256 c1 = legacyKeccak256 c2 → c1 = c2.
Definition refs_sized (ops : list rs_op) : Prop := Forall (λ r, length (ref_Hash r) = hash_length) (marked ops).
End Spec.

Definition run_op {T} `{BadgerTxn T} `{Hashes} `{RefsJson} `{MapOrder} (s : refStore T) (op : rs_op) : outcome (refStore T) :=
  match op with
  | OpStore rd => let! r := StoreObject s rd in Ret r.1
  | OpMark refs => MarkRefsAsNeeded s refs
  end.

(** ** The text form of references *)

Definition ref_text (r : RefID) : bytes :=
  HashAlg_String (ref_HashAlg r) ++ str ":" ++
  EncodeToString (match ref_HashAlg r with SHA1 => take 20 (ref_Hash r) | _ => ref_Hash r end).

Definition ref_known (r : RefID) : Prop := ref_HashAlg r ≠ HashAlgUnknown ∧ length (ref_Hash r) = hash_length.

Lemma EncodeToString_inj a b : EncodeToString a = EncodeToString b → a = b.
Proof. intros Heq. apply (f_equal DecodeString) in Heq. rewrite !decode_encode_hex in Heq. by injection Heq. Qed.

Lemma hex_digits_plain b :
  json_plain (hex_digit (byte_to_Z b `div` 16)) ∧ json_plain (hex_digit (byte_to_Z b `mod` 16)).
Proof. destruct b; vm_decide. Qed.

Lemma EncodeToString_plain bs : Forall json_plain (EncodeToString bs).
Proof. induction bs as [|b bs IH]; simpl; [done|]. destruct (hex_digits_plain b). by apply Forall_cons_2, Forall_cons_2. Qed.

Lemma ref_text_plain r : Forall json_plain (ref_text r).
Proof.
  unfold ref_text. rewrite !Forall_app. split_and!; [| |apply EncodeToString_plain].
  - destruct (ref_HashAlg r); vm_decide.
  - vm_decide.
Qed.

Lemma RefID_String_text r : length (ref_Hash r) = hash_length → RefID_String r = Ret (ref_text r).
Proof. apply RefID_String_eq. Qed.

Lemma ref_text_read r : ref_known r → RefID_UnmarshalText EmptyRef (ref_text r) = Ret (ref_canonical r).
Proof.
  intros [Ha Hl]. destruct (refid_text_roundtrip r [] Hl) as [(s & Hs & Hr) _].
  rewrite RefID_String_text in Hs by done. simplify_eq. rewrite Hr. by destruct (ref_HashAlg r).
Qed.

Lemma take_array_from k n bs : length bs = k → k ≤ n → take k (array_from n bs) = bs.
Proof.
  intros Hl Hk. unfold array_from, go_copy. rewrite length_replicate, (take_ge _ n) by lia.
  rewrite take_app_le, take_ge by lia. done.
Qed.

Lemma ref_canonical_hash r :
  length (ref_Hash r) = hash_length → ref_HashAlg r = SHA1 → take 20 (ref_Hash (ref_canonical r)) = take 20 (ref_Hash r).
Proof.
  intros Hl Ha. unfold ref_canonical. rewrite Ha. simpl.
  apply take_array_from; [rewrite length_take, Hl|]; unfold hash_length; lia.
Qed.

Lemma ref_canonical_alg r : ref_HashAlg (ref_canonical r) = ref_HashAlg r.
Proof. unfold ref_canonical. by destruct (ref_HashAlg r) eqn:Ha. Qed.

Lemma ref_canonical_known r : ref_known r → ref_known (ref_canonical r).
Proof.
  intros [Ha Hl]. split; [by rewrite ref_canonical_alg|]. unfold ref_canonical.
  destruct (ref_HashAlg r); [done|apply length_array_from|done].
Qed.

Lemma ref_text_canonical r : length (ref_Hash r) = hash_length → ref_text (ref_canonical r) = ref_text r.
Proof.
  intros Hl. unfold ref_text. rewrite ref_canonical_alg. destruct (ref_HashAlg r) eqn:Ha.
  - unfold ref_canonical. by rewrite Ha.
  - by rewrite ref_canonical_hash.
  - unfold ref_canonical. by rewrite Ha.
Qed.

Lemma ref_canonical_idem r : ref_known r → ref_canonical (ref_canonical r) = ref_canonical r.
Proof.
  intros Hk. pose proof (ref_text_read _ (ref_canonical_known r Hk)) as H1.
  rewrite ref_text_canonical, ref_text_read in H1 by apply Hk. by simplify_eq.
Qed.

Lemma ref_matches_canonical `{Hashes} r c :
  length (ref_Hash r) = hash_length → ref_matches (ref_canonical r) c = ref_matches r c.
Proof.
  intros Hl. unfold ref_matches. rewrite ref_canonical_alg. destruct (ref_HashAlg r) eqn:Ha; [done| |].
  - by rewrite ref_canonical_hash.
  - unfold ref_canonical. by rewrite Ha.
Qed.

(** The references of a content, by their text. *)
Lemma ref_matches_text `{Hashes} r c a1 a3 :
  ref_HashAlg r ≠ HashAlgUnknown → take 20 a1 = sha1 c → a3 = legacyKeccak256 c →
  ref_matches r c = true ↔ ref_text r = ref_text (mkRefID SHA1 a1) ∨ ref_text r = ref_text (mkRefID SHA3 a3).
Proof.
  intros Ha H1 ->. unfold ref_matches, ref_text. destruct (ref_HashAlg r); [done| |]; rewrite bool_decide_eq_true; simpl; rewrite ?H1.
  - split; [by intros ->; left|]. intros [?|?]; simplify_eq. by apply EncodeToString_inj.
  - split; [by intros ->; right|]. intros [?|?]; simplify_eq. by apply EncodeToString_inj.
Qed.

Lemma spec_have_true `{Hashes} a r : spec_have a r = true ↔ ∃ c, c ∈ sp_contents a ∧ ref_matches r c = true.
Proof.
  unfold spec_have. rewrite existsb_exists. by setoid_rewrite <- list_elem_of_In; setoid_rewrite elem_of_elements.
Qed.

Lemma spec_have_false `{Hashes} a r : spec_have a r = false ↔ ∀ c, c ∈ sp_contents a → ref_matches r c = false.
Proof.
  rewrite <- not_true_iff_false, spec_have_true. setoid_rewrite <- not_true_iff_false. naive_solver.
Qed.

Lemma spec_have_canonical `{Hashes} a r : length (ref_Hash r) = hash_length → spec_have a (ref_canonical r) = spec_have a r.
Proof. intros Hl. apply eq_bool_prop_intro. rewrite !Is_true_true, !spec_have_true. by setoid_rewrite ref_matches_canonical. Qed.

(** ** The metadata database *)

Lemma append_slice_fst a n suffix : (append_slice a n suffix).1 = take n a ++ suffix.
Proof. done. Qed.

Lemma append_slice_full a suffix : (append_slice a (length a) suffix).1 = a ++ suffix.
Proof. by rewrite append_slice_fst, take_ge. Qed.

(** The array keeps its length and the bytes before the slice's end. *)
Lemma append_slice_snd a n suffix :
  n ≤ length a → length (append_slice a n suffix).2 = length a ∧ take n (append_slice a n suffix).2 = take n a.
Proof.
  intros Hn. unfold append_slice. simpl. case_decide as Hd; [|done]. split.
  - rewrite length_app, length_drop. lia.
  - rewrite <- app_assoc, take_app_le, take_ge by (rewrite length_take; lia). done.
Qed.

Section Metadata.
Context {T : Type} `{HL : BadgerLaws T} `{Hashes} `{HJ : RefsJsonLaws}.

Lemma fold_mark_ref refs m :
  Forall (λ r, length (ref_Hash r) = hash_length) refs →
  fold_outcome mark_ref (Some m) refs = Ret (Some (list_to_set (ref_text <$> refs) ∪ m)).
Proof.
  intros Hs. revert m. induction Hs as [|r refs Hr _ IH]; intros m; simpl; [do 2 f_equal; set_solver|].
  unfold mark_ref at 1. rewrite RefID_String_text by done. simpl. rewrite IH. do 2 f_equal. set_solver.
Qed.

Lemma fold_unmark_ref refs m :
  Forall (λ r, length (ref_Hash r) = hash_length) refs →
  fold_outcome unmark_ref (Some m) refs = Ret (Some (m ∖ list_to_set (ref_text <$> refs))).
Proof.
  intros Hs. revert m. induction Hs as [|r refs Hr _ IH]; intros m; simpl; [do 2 f_equal; set_solver|].
  unfold unmark_ref at 1. rewrite RefID_String_text by done. simpl. rewrite IH. do 2 f_equal. set_solver.
Qed.

Lemma update_missing_spec f refs (t : T) m m' :
  read_missing t = Ret (Some m) → fold_outcome f (Some m) refs = Ret (Some m') →
  (∀ k, k ∈ m' → Forall json_plain k) →
  ∃ t', Update t (update_missing f refs) = Ret (t', None) ∧ read_missing t' = Ret (Some m') ∧
        ∀ k, k ≠ missing_refs_key → txn_get t' k = txn_get t k.
Proof.
  intros Hr Hf Hp. unfold Update, update_missing. rewrite Hr. simpl. rewrite Hf. simpl.
  destruct (law_set t missing_refs_key (refs_Marshal (Some m'))) as (t' & -> & Hg); [done|].
  exists t'. split; [done|]. split.
  - unfold read_missing. rewrite Hg, decide_True by done. by apply refs_json_roundtrip.
  - intros k Hk. by rewrite Hg, decide_False.
Qed.

Lemma link_hashes_spec (t : T) a1 a3 :
  ∃ t', Update t (link_hashes a1 a3) = Ret (t', None) ∧
    ∀ k, txn_get t' k = if decide (k = a3 ++ sha1_suffix) then Some (take 20 a1)
                        else if decide (k = take 20 a1 ++ sha3_suffix) then Some a3 else txn_get t k.
Proof.
  unfold Update, link_hashes. rewrite append_slice_full, append_slice_fst.
  destruct (law_set t (take 20 a1 ++ sha3_suffix) a3) as (t1 & -> & Hg1); [by destruct (take 20 a1)|]. simpl.
  destruct (law_set t1 (a3 ++ sha1_suffix) (take 20 a1)) as (t2 & -> & Hg2); [by destruct a3|].
  exists t2. split; [done|]. intros k. by rewrite Hg2, Hg1.
Qed.

Lemma refs_of_texts_set `{MapOrderLaw} (needed : gset RefID) :
  (∀ r, r ∈ needed → ref_known r ∧ ref_canonical r = r) →
  refs_of_texts (set_slice (set_map ref_text needed : gset bytes)) ≡ₚ elements needed.
Proof.
  intros Hn.
  assert (∀ r, r ∈ needed → RefID_UnmarshalText EmptyRef (ref_text r) = Ret r) as Hread.
  { intros r Hr. destruct (Hn r Hr) as [Hk Hc]. by rewrite ref_text_read, Hc. }
  unfold refs_of_texts. rewrite set_slice_perm.
  assert (elements (set_map ref_text needed : gset bytes) ≡ₚ ref_text <$> elements needed) as ->.
  { apply NoDup_Permutation; [apply NoDup_elements| |].
    - apply NoDup_fmap_2_strong; [|apply NoDup_elements]. intros r1 r2 Hr1%elem_of_elements Hr2%elem_of_elements Heq.
      apply Hread in Hr1, Hr2. congruence.
    - intros k. set_unfold. naive_solver. }
  apply reflexive_eq.
  assert (Forall (λ r, r ∈ needed) (elements needed)) as Hall by (apply Forall_forall; intros r; apply elem_of_elements).
  induction Hall as [|r l Hr _ IH]; [done|]. rewrite fmap_cons. cbn [omap list_omap]. rewrite Hread by done. by f_equal.
Qed.
End Metadata.

(** ** The simulation *)

Section Simulation.
Context {T : Type} `{HL : BadgerLaws T} `{HH : HashLaws} `{HJ : RefsJsonLaws} `{HO : MapOrderLaw}.

(** The files and the database represent the contents and the needed references. *)
Record rep (s : refStore T) (a : blobspec) : Prop := {
  rep_name name : is_Some (rs_blobs s !! name) → ∃ h, length h = hash_length ∧ name = Hash_Hex h;
  rep_blob h c : rs_blobs s !! Hash_Hex h = Some c ↔ c ∈ sp_contents a ∧ legacyKeccak256 c = h;
  rep_sha1 h : length h = 20 →
    match txn_get (rs_metadata s) (h ++ sha3_suffix) with
    | Some v => ∃ c, c ∈ sp_contents a ∧ sha1 c = h ∧ v = legacyKeccak256 c
    | None => ∀ c, c ∈ sp_contents a → sha1 c ≠ h
    end;
  rep_sha3 h v : length h = hash_length →
    txn_get (rs_metadata s) (h ++ sha1_suffix) = Some v ↔ ∃ c, c ∈ sp_contents a ∧ legacyKeccak256 c = h ∧ v = sha1 c;
  rep_missing : read_missing (rs_metadata s) = Ret (Some (set_map ref_text (sp_needed a)));
  rep_needed r : r ∈ sp_needed a → ref_known r ∧ ref_canonical r = r;
  rep_absent r : r ∈ sp_needed a → spec_have a r = false
}.

Lemma keccak_array c : go_copy EmptyHash (legacyKeccak256 c) = legacyKeccak256 c.
Proof. apply go_copy_same. by rewrite length_keccak. Qed.

Lemma sha1_array c : take 20 (go_copy EmptyHash (sha1 c)) = sha1 c.
Proof. apply (take_array_from 20 hash_length); [apply length_sha1|]. unfold hash_length. lia. Qed.

Lemma length_take_hash (h : Hash) : length h = hash_length → length (take 20 h) = 20.
Proof. intros Hl. rewrite length_take, Hl. done. Qed.

Lemma HaveObject_rep s a r : rep s a → ref_known r → HaveObject s r = Ret (spec_have a r).
Proof.
  intros Hrep [Ha Hl]. unfold HaveObject, blob_exists, filepathForSHA3Blob, sha3ForSHA1.
  destruct (ref_HashAlg r) eqn:Halg; [done| |].
  - rewrite append_slice_fst. pose proof (rep_sha1 s a Hrep _ (length_take_hash _ Hl)) as Hg.
    destruct (txn_get _ _) as [v|]; simpl.
    + destruct Hg as (c & Hc & Hs & ->). rewrite keccak_array, bool_decide_eq_true_2.
      * f_equal. symmetry. apply spec_have_true. exists c. split; [done|]. unfold ref_matches. rewrite Halg. by apply bool_decide_eq_true.
      * exists c. by apply (rep_blob s a Hrep).
    + f_equal. symmetry. apply spec_have_false. intros c Hc. unfold ref_matches. rewrite Halg.
      apply bool_decide_eq_false. intros Heq. by apply (Hg c Hc).
  - f_equal. apply eq_bool_prop_intro. rewrite !Is_true_true, bool_decide_eq_true, spec_have_true.
    unfold ref_matches, is_Some. rewrite Halg. setoid_rewrite (rep_blob s a Hrep). setoid_rewrite bool_decide_eq_true. naive_solver.
Qed.

Lemma Object_rep s a r :
  rep s a → ref_known r →
  if spec_have a r then ∃ c, Object s r = Ret (c, length c) ∧ c ∈ sp_contents a ∧ ref_matches r c = true
  else Object s r = Err (if decide (ref_HashAlg r = SHA1) then Err404 else ErrNotExist).
Proof.
  intros Hrep Hk. pose proof (HaveObject_rep s a r Hrep Hk) as Hh. destruct Hk as [Ha Hl].
  unfold Object, HaveObject, objectBySHA1, objectBySHA3, blob_exists, filepathForSHA3Blob, sha3ForSHA1, ref_matches in *.
  destruct (ref_HashAlg r) eqn:Halg; [done| |].
  - rewrite append_slice_fst in *. pose proof (rep_sha1 s a Hrep _ (length_take_hash _ Hl)) as Hg.
    destruct (txn_get _ _) as [v|]; simpl in *.
    + destruct Hg as (c & Hc & Hs & ->). rewrite keccak_array in *.
      assert (rs_blobs s !! Hash_Hex (legacyKeccak256 c) = Some c) as Hb by (by apply (rep_blob s a Hrep)).
      rewrite Hb in *. injection Hh as <-. simpl. exists c. split_and!; [done..|]. by apply bool_decide_eq_true.
    + by injection Hh as <-.
  - injection Hh as <-. case_bool_decide as Hb.
    + destruct Hb as [c Hb]. rewrite Hb. exists c. apply (rep_blob s a Hrep) in Hb as [Hc Hb].
      split_and!; [done..|]. by apply bool_decide_eq_true.
    + rewrite <- eq_None_not_Some in Hb. by rewrite Hb.
Qed.

Lemma RefsNeeded_rep s a : rep s a → ∃ l, RefsNeeded s = Ret l ∧ l ≡ₚ elements (sp_needed a).
Proof.
  intros Hrep. pose proof (refs_of_texts_set (sp_needed a) (rep_needed s a Hrep)) as Hp.
  pose proof (rep_missing s a Hrep) as Hm. unfold read_missing, RefsNeeded in *.
  destruct (txn_get _ _) as [bs|].
  - rewrite Hm. simpl. eexists. by split.
  - injection Hm as Hm. unfold refs_of_texts in Hp. rewrite <- Hm, set_slice_perm, elements_empty in Hp. by exists [].
Qed.

Lemma AllHashes_rep s a r :
  rep s a →
  r ∈ AllHashes s ↔ ∃ c, c ∈ sp_contents a ∧
    (r = mkRefID SHA3 (legacyKeccak256 c) ∨ r = mkRefID SHA1 (array_from hash_length (sha1 c))).
Proof.
  intros Hrep.
  assert (∀ name, name ∈ blob_names s ↔ ∃ c, c ∈ sp_contents a ∧ name = Hash_Hex (legacyKeccak256 c)) as Hnames.
  { intros name. unfold blob_names. rewrite merge_sort_Permutation, list_elem_of_fmap. split.
    - intros ([k c] & -> & Hk%elem_of_map_to_list). simpl. destruct (rep_name s a Hrep k) as (h & Hl & ->); [by exists c|].
      apply (rep_blob s a Hrep) in Hk as [Hc <-]. by exists c.
    - intros (c & Hc & ->). exists (Hash_Hex (legacyKeccak256 c), c). split; [done|]. apply elem_of_map_to_list.
      by apply (rep_blob s a Hrep). }
  assert (∀ c, c ∈ sp_contents a → hashes_of_file s (Hash_Hex (legacyKeccak256 c)) =
    [mkRefID SHA3 (legacyKeccak256 c); mkRefID SHA1 (array_from hash_length (sha1 c))]) as Hfile.
  { intros c Hc. unfold hashes_of_file, HashFromHex, array_UnmarshalText, Hash_Hex. rewrite decode_encode_hex. simpl.
    rewrite keccak_array. unfold sha1ForSHA3. rewrite append_slice_full.
    assert (txn_get (rs_metadata s) (legacyKeccak256 c ++ sha1_suffix) = Some (sha1 c)) as ->; [|done].
    apply (rep_sha3 s a Hrep); [apply length_keccak|]. by exists c. }
  unfold AllHashes. rewrite list_elem_of_bind. split.
  - intros (name & Hr & Hn). apply Hnames in Hn as (c & Hc & ->). rewrite Hfile in Hr by done. exists c. set_solver.
  - intros (c & Hc & Hr). exists (Hash_Hex (legacyKeccak256 c)). rewrite Hfile, Hnames by done. set_solver.
Qed.

(** Keys of the three kinds have different lengths. *)
Lemma sha3_key_ne h k : length h = 20 → length k = hash_length → h ++ sha3_suffix ≠ k ++ sha1_suffix ∧ h ++ sha3_suffix ≠ missing_refs_key.
Proof.
  intros Hh Hk. split; intros Heq; apply (f_equal length) in Heq; rewrite !length_app, ?Hh, ?Hk in Heq; done.
Qed.
Lemma sha1_key_ne k : length k = hash_length → k ++ sha1_suffix ≠ missing_refs_key.
Proof. intros Hk Heq. apply (f_equal length) in Heq. by rewrite !length_app, ?Hk in Heq. Qed.

Lemma set_map_unmark (needed : gset RefID) c a1 :
  (∀ r, r ∈ needed → ref_known r ∧ ref_canonical r = r) → take 20 a1 = sha1 c →
  set_map ref_text needed ∖ list_to_set (ref_text <$> [mkRefID SHA1 a1; mkRefID SHA3 (legacyKeccak256 c)]) =
  (set_map ref_text (filter (λ r, ref_matches r c = false) needed) : gset bytes).
Proof.
  intros Hn Ht. apply set_eq. intros k. rewrite elem_of_difference, !elem_of_map.
  setoid_rewrite elem_of_filter. setoid_rewrite <- not_true_iff_false. split.
  - intros [(r & -> & Hr) Hk]. exists r. split_and!; [done| |done].
    rewrite (ref_matches_text r c a1 (legacyKeccak256 c)) by (try done; by apply Hn in Hr as [[] _]). set_solver.
  - intros (r & -> & Hm & Hr). split; [by exists r|].
    rewrite (ref_matches_text r c a1 (legacyKeccak256 c)) in Hm by (try done; by apply Hn in Hr as [[] _]). set_solver.
Qed.

Lemma spec_store_absent a c r :
  spec_have a r = false → ref_matches r c = false → spec_have (spec_store a c) r = false.
Proof. rewrite !spec_have_false. simpl. intros Ha Hc c'. set_unfold. naive_solver. Qed.

(** The simulation of a store, from what the database holds afterwards. *)
Lemma rep_store s s' a c :
  rep s a → (∀ c', c' ∈ sp_contents a → legacyKeccak256 c' = legacyKeccak256 c → c' = c) →
  rs_blobs s' = <[Hash_Hex (legacyKeccak256 c) := c]> (rs_blobs s) →
  (∀ k, k ≠ missing_refs_key → txn_get (rs_metadata s') k =
     if decide (k = legacyKeccak256 c ++ sha1_suffix) then Some (sha1 c)
     else if decide (k = sha1 c ++ sha3_suffix) then Some (legacyKeccak256 c) else txn_get (rs_metadata s) k) →
  read_missing (rs_metadata s') = Ret (Some (set_map ref_text (sp_needed (spec_store a c)))) →
  rep s' (spec_store a c).
Proof.
  intros Hrep Hcol Hb Hg Hm. pose proof (length_keccak c) as Hlk. pose proof (length_sha1 c) as Hls.
  constructor; rewrite ?Hb; cbn [sp_contents sp_needed spec_store].
  - intros name. rewrite lookup_insert_is_Some. intros [<-|[_ Hn]]; [by eexists|by apply (rep_name s a Hrep)].
  - intros h c'. rewrite elem_of_union, elem_of_singleton, lookup_insert_Some, (rep_blob s a Hrep). split.
    + intros [[<-%EncodeToString_inj ->]|(Hne & Hc & <-)]; auto.
    + intros [[->|Hc] <-]; [by left|]. destruct (decide (legacyKeccak256 c' = legacyKeccak256 c)) as [Heq|Hne].
      * left. apply Hcol in Hc as ->; done.
      * right. split_and!; try done. by intros Hx%EncodeToString_inj.
  - intros h Hh. destruct (sha3_key_ne h (legacyKeccak256 c)) as [Hk1 Hk2]; [done..|].
    rewrite Hg, decide_False by done. case_decide as Hd.
    + apply app_inv_tail in Hd as ->. exists c. set_solver.
    + pose proof (rep_sha1 s a Hrep h Hh) as Hs. destruct (txn_get _ _) as [v|].
      * destruct Hs as (c' & Hc & Hx & ->). exists c'. set_solver.
      * intros c'. rewrite elem_of_union, elem_of_singleton. intros [->|Hc]; [by intros <-|by apply Hs].
  - intros h v Hh. destruct (sha3_key_ne (sha1 c) h) as [Hk1 _]; [done..|].
    rewrite Hg by (by apply sha1_key_ne). case_decide as Hd.
    + apply app_inv_tail in Hd as ->. split.
      * intros [= <-]. exists c. set_solver.
      * intros (c' & Hc & Hk & ->). set_unfold in Hc. destruct Hc as [->|Hc]; [done|]. by rewrite (Hcol c').
    + rewrite decide_False by congruence. rewrite (rep_sha3 s a Hrep) by done.
      split; intros (c' & Hc & Hk & ->); exists c'; set_unfold; naive_solver.
  - done.
  - intros r [_ Hr]%elem_of_filter. by apply (rep_needed s a Hrep).
  - intros r [Hr1 Hr2]%elem_of_filter. apply (spec_store_absent a c); [|done]. by apply (rep_absent s a Hrep).
Qed.

(** What [StoreObject] does on a reader that ends well. *)
Lemma StoreObject_complete s a c :
  rep s a → (∀ c', c' ∈ sp_contents a → legacyKeccak256 c' = legacyKeccak256 c → c' = c) →
  ∃ s' a1, StoreObject s (mkReader c None) = Ret (s', (a1, legacyKeccak256 c, None)) ∧
    length a1 = hash_length ∧ take 20 a1 = sha1 c ∧ a1 = (append_slice (go_copy EmptyHash (sha1 c)) 20 sha3_suffix).2 ∧
    rs_temps s' = rs_temps s ∧ rs_savedTold s' = S (rs_savedTold s) ∧
    sha3ForSHA1 s' a1 = Ret (legacyKeccak256 c) ∧ rep s' (spec_store a c).
Proof.
  intros Hrep Hcol. unfold StoreObject. cbn [rd_err rd_bytes]. rewrite keccak_array.
  set (a0 := go_copy EmptyHash (sha1 c)). set (a1 := (append_slice a0 20 sha3_suffix).2).
  assert (length a0 = hash_length) as Hl0 by apply length_array_from.
  assert (take 20 a0 = sha1 c) as Ht0 by apply sha1_array.
  destruct (append_slice_snd a0 20 sha3_suffix) as [Hl1 Ht1]; [rewrite Hl0; unfold hash_length; lia|]. fold a1 in Hl1, Ht1.
  rewrite Ht0 in Ht1. rewrite Hl0 in Hl1.
  destruct (link_hashes_spec (rs_metadata s) a0 (legacyKeccak256 c)) as (t1 & Hu1 & Hg1). rewrite Ht0 in Hg1.
  cbn [rename_temp with_temp rs_metadata]. rewrite Hu1. cbn [obind fst snd with_metadata rs_metadata].
  assert (read_missing t1 = Ret (Some (set_map ref_text (sp_needed a)))) as Hr1.
  { rewrite <- (rep_missing s a Hrep). unfold read_missing. rewrite Hg1, !decide_False; [done| |]; apply not_eq_sym.
    - apply (sha3_key_ne _ (legacyKeccak256 c)); [apply length_sha1|apply length_keccak].
    - apply sha1_key_ne, length_keccak. }
  assert (Forall (λ r, length (ref_Hash r) = hash_length) [mkRefID SHA1 a1; mkRefID SHA3 (legacyKeccak256 c)]) as Hsized.
  { apply Forall_cons_2; [done|]. apply Forall_singleton, length_keccak. }
  unfold unmarkRefsAsNeeded. cbn [with_metadata rs_metadata]. fold a1.
  destruct (update_missing_spec unmark_ref _ t1 _ _ Hr1 (fold_unmark_ref _ _ Hsized)) as (t2 & -> & Hr2 & Hg2).
  { intros k. rewrite elem_of_difference, elem_of_map. intros [(r & -> & _) _]. apply ref_text_plain. }
  simpl. eexists _, a1. split_and!; [done..| |].
  { unfold sha3ForSHA1. cbn [rs_metadata notifyRefsSavedListeners with_metadata].
    destruct (sha3_key_ne (sha1 c) (legacyKeccak256 c)) as [Hk1 Hk2]; [apply length_sha1|apply length_keccak|].
    by rewrite append_slice_fst, Ht1, Hg2, Hg1, decide_False, decide_True, keccak_array by done. }
  rewrite set_map_unmark in Hr2 by (done || apply (rep_needed s a Hrep)).
  apply (rep_store s); [done..| |done]. intros k Hk. cbn. by rewrite Hg2, Hg1.
Qed.

Lemma filter_ext_Forall {A} (P Q : A → Prop) `{∀ x, Decision (P x)} `{∀ x, Decision (Q x)} (l : list A) :
  Forall (λ x, P x ↔ Q x) l → filter P l = filter Q l.
Proof. induction 1 as [|x l Hx _ IH]; [done|]. rewrite !filter_cons, IH. by repeat case_decide; try tauto. Qed.

Lemma rep_mark s a t l :
  rep s a → Forall (λ r, ref_known r ∧ spec_have a r = false) l →
  read_missing t = Ret (Some (list_to_set (ref_text <$> l) ∪ set_map ref_text (sp_needed a))) →
  (∀ k, k ≠ missing_refs_key → txn_get t k = txn_get (rs_metadata s) k) →
  rep (with_metadata s t) (mkSpec (sp_contents a) (list_to_set (ref_canonical <$> l) ∪ sp_needed a)).
Proof.
  intros Hrep Hl Hr Hg. rewrite Forall_forall in Hl.
  constructor; cbn [rs_blobs rs_metadata with_metadata sp_contents sp_needed].
  - apply (rep_name s a Hrep).
  - apply (rep_blob s a Hrep).
  - intros h Hh. rewrite Hg; [by apply (rep_sha1 s a Hrep)|]. by apply (sha3_key_ne h EmptyHash).
  - intros h v Hh. rewrite Hg by (by apply sha1_key_ne). by apply (rep_sha3 s a Hrep).
  - rewrite Hr. do 2 f_equal. apply set_eq. intros k.
    rewrite elem_of_union, elem_of_list_to_set, list_elem_of_fmap, !elem_of_map.
    setoid_rewrite elem_of_union. setoid_rewrite elem_of_list_to_set. setoid_rewrite list_elem_of_fmap. split.
    + intros [(r & -> & Hin)|(r & -> & Hin)]; [|by eauto].
      exists (ref_canonical r). split; [|by eauto]. symmetry. by apply ref_text_canonical, Hl.
    + intros (r & -> & [(r' & -> & Hin)|Hin]); [|by eauto]. left. exists r'. split; [|done]. by apply ref_text_canonical, Hl.
  - intros r. rewrite elem_of_union, elem_of_list_to_set, list_elem_of_fmap. intros [(r' & -> & Hin)|Hin].
    + apply Hl in Hin as [Hk _]. split; [by apply ref_canonical_known|by apply ref_canonical_idem].
    + by apply (rep_needed s a Hrep).
  - intros r. rewrite elem_of_union, elem_of_list_to_set, list_elem_of_fmap. intros [(r' & -> & Hin)|Hin].
    + apply Hl in Hin as [[_ Hk] Hh]. rewrite spec_have_canonical by done. exact Hh.
    + by apply (rep_absent s a Hrep).
Qed.

(** The references that are not there are recorded, and the listeners are told about all
    that are needed. *)
Lemma MarkRefsAsNeeded_rep s a refs :
  rep s a → Forall (λ r, length (ref_Hash r) = hash_length) refs →
  ∃ s' told, MarkRefsAsNeeded s refs = Ret s' ∧ rep s' (spec_mark a refs) ∧
    rs_neededTold s' = rs_neededTold s ++ [told] ∧ told ≡ₚ elements (sp_needed (spec_mark a refs)).
Proof.
  intros Hrep Hs. unfold MarkRefsAsNeeded, record_needed.
  set (l := filter (λ r, ref_HashAlg r ≠ HashAlgUnknown ∧ spec_have a r = false) refs).
  assert (actually_needed s refs = l) as ->.
  { apply filter_ext_Forall. eapply Forall_impl; [exact Hs|]. intros r Hr. unfold is_needed. simpl.
    destruct (decide (ref_HashAlg r = HashAlgUnknown)) as [Hu|Hu].
    - unfold HaveObject. rewrite Hu. naive_solver.
    - rewrite (HaveObject_rep s a) by done. rewrite negb_true_iff. naive_solver. }
  assert (Forall (λ r, ref_known r ∧ spec_have a r = false) l) as Hl.
  { apply Forall_forall. intros r [[Hr1 Hr2] Hr3]%list_elem_of_filter. rewrite Forall_forall in Hs. split; [|done]. split; [done|by apply Hs]. }
  assert (Forall (λ r, length (ref_Hash r) = hash_length) l) as Hll by (eapply Forall_impl; [exact Hl|]; by intros r [[] _]).
  destruct (update_missing_spec mark_ref l (rs_metadata s) _ _ (rep_missing s a Hrep) (fold_mark_ref _ _ Hll)) as (t & -> & Hr & Hg).
  { intros k. rewrite elem_of_union, elem_of_list_to_set, list_elem_of_fmap, elem_of_map.
    intros [(r & -> & _)|(r & -> & _)]; apply ref_text_plain. }
  pose proof (rep_mark s a t l Hrep Hl Hr Hg) as Hrep'. cbn [obind fst].
  destruct (RefsNeeded_rep _ _ Hrep') as (told & -> & Hp). eexists _, told. split_and!; [done| |done..].
  destruct Hrep'. by constructor.
Qed.

(** ** Sequences of operations *)

Definition rs_init (t : T) : refStore T := mkRefStore ∅ [] t [] 0.
Definition fresh_db (t : T) : Prop := ∀ k, txn_get t k = None.

Lemma rep_init t : fresh_db t → rep (rs_init t) (mkSpec ∅ ∅).
Proof.
  intros Hf. constructor; simpl; unfold fresh_db, read_missing in *; intros *; rewrite ?Hf, ?lookup_empty; set_solver.
Qed.

Lemma contents_stored ops a :
  sp_contents (foldl spec_op a ops) = list_to_set (stored ops) ∪ sp_contents a.
Proof.
  revert a. induction ops as [|op ops IH]; intros a; simpl; [set_solver|]. rewrite IH.
  destruct op as [[c [e|]]|refs]; simpl; set_solver.
Qed.

Lemma run_op_rep s a op :
  rep s a → Forall (λ r, length (ref_Hash r) = hash_length) (marked [op]) →
  (∀ c c', c ∈ stored [op] → c' ∈ sp_contents a → legacyKeccak256 c' = legacyKeccak256 c → c' = c) →
  ∃ s', run_op s op = Ret s' ∧ rep s' (spec_op a op).
Proof.
  intros Hrep Hs Hc. destruct op as [[c [e|]]|refs]; simpl in *.
  - eexists. split; [done|]. destruct Hrep. by constructor.
  - destruct (StoreObject_complete s a c) as (s' & a1 & -> & Hr); [done|set_solver|].
    exists s'. split; [done|]. by destruct_and! Hr.
  - rewrite app_nil_r in Hs. destruct (MarkRefsAsNeeded_rep s a refs Hrep Hs) as (s' & told & -> & Hr & _). by exists s'.
Qed.

Lemma run_rep ops s a :
  rep s a → refs_sized ops →
  (∀ c1 c2, c1 ∈ stored ops ∨ c1 ∈ sp_contents a → c2 ∈ stored ops ∨ c2 ∈ sp_contents a →
     legacyKeccak256 c1 = legacyKeccak256 c2 → c1 = c2) →
  ∃ s', fold_outcome run_op s ops = Ret s' ∧ rep s' (foldl spec_op a ops).
Proof.
  revert s a. induction ops as [|op ops IH]; intros s a Hrep Hs Hc; [by exists s|].
  change (op :: ops) with ([op] ++ ops) in Hs, Hc. unfold refs_sized, marked in Hs. rewrite bind_app, Forall_app in Hs.
  destruct Hs as [Hs1 Hs2]. unfold stored in Hc. setoid_rewrite omap_app in Hc.
  destruct (run_op_rep s a op Hrep Hs1) as (s1 & Hrun & Hrep1).
  { intros c c' Hin Hin'. apply Hc; [by right|]. left. by apply elem_of_app; left. }
  cbn [fold_outcome foldl]. rewrite Hrun. cbn [obind]. apply IH; [done..|].
  assert (sp_contents (spec_op a op) = list_to_set (stored [op]) ∪ sp_contents a) as -> by apply (contents_stored [op]).
  unfold stored. intros c1 c2 Hc1 Hc2. apply Hc; set_solver.
Qed.
End Simulation.

(** ** Theorems *)

Section Theorems.
Context {T : Type} `{HL : BadgerLaws T} `{HH : HashLaws} `{HJ : RefsJsonLaws} `{HO : MapOrderLaw}.

Lemma run_init_rep (t : T) ops :
  fresh_db t → no_collision ops → refs_sized ops →
  ∃ s, fold_outcome run_op (rs_init t) ops = Ret s ∧ rep s (spec_run ops).
Proof.
  intros Hf Hc Hs. apply run_rep; [by apply rep_init|done|]. intros c1 c2. simpl. set_unfold. naive_solver.
Qed.

Lemma spec_run_contents ops c : c ∈ sp_contents (spec_run ops) ↔ c ∈ stored ops.
Proof. unfold spec_run. rewrite contents_stored. simpl. set_solver. Qed.

Lemma no_collision_new ops c :
  no_collision (ops ++ [OpStore (mkReader c None)]) →
  no_collision ops ∧ ∀ c', c' ∈ sp_contents (spec_run ops) → legacyKeccak256 c' = legacyKeccak256 c → c' = c.
Proof.
  unfold no_collision, stored. setoid_rewrite omap_app. intros Hc. split.
  - intros c1 c2 Hin1 Hin2. apply Hc; set_solver.
  - intros c'. rewrite spec_run_contents. unfold stored. intros Hin. apply Hc; set_solver.
Qed.

Lemma Object_SHA3_rep (s : refStore T) a c :
  rep s a → c ∈ sp_contents a → Object s (mkRefID SHA3 (legacyKeccak256 c)) = Ret (c, length c).
Proof.
  intros Hrep Hc. unfold Object, objectBySHA3, filepathForSHA3Blob. simpl.
  assert (rs_blobs s !! Hash_Hex (legacyKeccak256 c) = Some c) as -> by (by apply (rep_blob s a Hrep)). done.
Qed.

(** The array of the SHA1 hash after the first key was built in it. *)
Lemma polluted_sha1 c :
  (append_slice (go_copy EmptyHash (sha1 c)) 20 sha3_suffix).2 = sha1 c ++ sha3_suffix ++ replicate 7 x00.
Proof.
  assert (go_copy EmptyHash (sha1 c) = sha1 c ++ replicate 12 x00) as ->.
  { unfold go_copy. rewrite take_ge by (rewrite length_sha1; vm_compute; lia). by rewrite length_sha1. }
  unfold append_slice. cbn [snd].
  assert (take 20 (sha1 c ++ replicate 12 x00) = sha1 c) as ->.
  { rewrite take_app_le, take_ge by (rewrite length_sha1; lia). done. }
  rewrite !length_app, !length_sha1. rewrite decide_True by (vm_compute; lia).
  rewrite drop_app_ge by (rewrite length_sha1; lia). rewrite length_sha1. by rewrite <- app_assoc.
Qed.
End Theorems.

(** C11: The blob store refines its specification: after every sequence of stores and marks
    (starting from an empty database, with contents that do not collide), it answers like a
    set of contents with a set of needed references.  It has an object exactly when a content
    matches the reference; [RefsNeeded] returns the needed references, none of which is
    there; [AllHashes] lists the two references of every content. *)
Theorem refstore_refines {T} `{BadgerLaws T} `{HashLaws} `{RefsJsonLaws} `{MapOrderLaw} (t : T) ops :
  fresh_db t → no_collision ops → refs_sized ops →
  ∃ s, fold_outcome run_op (rs_init t) ops = Ret s ∧
    (∀ r, ref_known r → HaveObject s r = Ret (spec_have (spec_run ops) r)) ∧
    (∃ l, RefsNeeded s = Ret l ∧ l ≡ₚ elements (sp_needed (spec_run ops)) ∧ Forall (λ r, HaveObject s r = Ret false) l) ∧
    (∀ r, r ∈ AllHashes s ↔ ∃ c, c ∈ sp_contents (spec_run ops) ∧
       (r = mkRefID SHA3 (legacyKeccak256 c) ∨ r = mkRefID SHA1 (array_from hash_length (sha1 c)))).
Proof.
  intros Hf Hc Hs. destruct (run_init_rep t ops Hf Hc Hs) as (s & Hrun & Hrep). exists s. split; [done|]. split_and!.
  - intros r Hr. by apply HaveObject_rep.
  - destruct (RefsNeeded_rep _ _ Hrep) as (l & Hl & Hp). exists l. split_and!; [done..|]. rewrite Hp.
    apply Forall_forall. intros r Hr%elem_of_elements. rewrite (HaveObject_rep s (spec_run ops)) by (done || by apply (rep_needed s _ Hrep)).
    f_equal. by apply (rep_absent s _ Hrep).
  - intros r. by apply AllHashes_rep.
Qed.

(** C12: What the blob store hands out is what was asked for: the content that [Object] returns
    was stored before, its hash is the one of the reference, and the size is its length; a
    reference that no stored content matches is an error. *)
Theorem refstore_integrity {T} `{BadgerLaws T} `{HashLaws} `{RefsJsonLaws} `{MapOrderLaw} (t : T) ops s r :
  fresh_db t → no_collision ops → refs_sized ops → fold_outcome run_op (rs_init t) ops = Ret s → ref_known r →
  (∃ c, Object s r = Ret (c, length c) ∧ c ∈ stored ops ∧ ref_matches r c = true) ∨
  (∃ e, Object s r = Err e) ∧ ∀ c, c ∈ stored ops → ref_matches r c = false.
Proof.
  intros Hf Hc Hs Hrun Hr. destruct (run_init_rep t ops Hf Hc Hs) as (s' & Hrun' & Hrep).
  rewrite Hrun in Hrun'. simplify_eq. pose proof (Object_rep _ _ r Hrep Hr) as Ho.
  destruct (spec_have _ r) eqn:Hh.
  - destruct Ho as (c & Ho & Hc' & Hm). left. exists c. by rewrite <- spec_run_contents.
  - right. split; [by eexists|]. intros c Hin. rewrite spec_have_false in Hh. apply Hh. by apply spec_run_contents.
Qed.

(** Storing: a reader that ends well is found under both of its hashes afterwards,
    neither of them is needed any more and the listeners are told once; a reader that fails
    changes neither the blobs nor the database, but its temporary file stays behind.  The
    SHA1 hash that is returned has the text [:sha3] in the bytes after the hash. *)
Theorem refstore_store {T} `{BadgerLaws T} `{HashLaws} `{RefsJsonLaws} `{MapOrderLaw} (t : T) ops s c e :
  fresh_db t → no_collision (ops ++ [OpStore (mkReader c None)]) → refs_sized ops →
  fold_outcome run_op (rs_init t) ops = Ret s →
  (∃ s' h1 l, StoreObject s (mkReader c None) = Ret (s', (h1, legacyKeccak256 c, None)) ∧
     h1 = sha1 c ++ str ":sha3" ++ replicate 7 x00 ∧
     Object s' (mkRefID SHA3 (legacyKeccak256 c)) = Ret (c, length c) ∧ Object s' (mkRefID SHA1 h1) = Ret (c, length c) ∧
     RefsNeeded s' = Ret l ∧ Forall (λ r, ref_matches r c = false) l ∧
     rs_temps s' = rs_temps s ∧ rs_savedTold s' = S (rs_savedTold s)) ∧
  (∃ s', StoreObject s (mkReader c (Some e)) = Ret (s', (EmptyHash, EmptyHash, Some e)) ∧
     rs_blobs s' = rs_blobs s ∧ rs_metadata s' = rs_metadata s ∧ rs_savedTold s' = rs_savedTold s ∧
     rs_temps s' = c :: rs_temps s).
Proof.
  intros Hf [Hc Hnew]%no_collision_new Hs Hrun. destruct (run_init_rep t ops Hf Hc Hs) as (s0 & Hrun' & Hrep).
  rewrite Hrun in Hrun'. simplify_eq. split; [|by eexists].
  destruct (StoreObject_complete s0 _ c Hrep Hnew) as (s' & h1 & Hst & Hl & Ht & Hh1 & Htmp & Htold & H31 & Hrep').
  destruct (RefsNeeded_rep _ _ Hrep') as (l & Hn & Hp). exists s', h1, l.
  assert (Object s' (mkRefID SHA3 (legacyKeccak256 c)) = Ret (c, length c)) as Ho
    by (apply (Object_SHA3_rep s' _ c Hrep'); simpl; set_solver).
  split_and!; try done.
  - by rewrite Hh1, polluted_sha1.
  - unfold Object, objectBySHA1. cbn [ref_HashAlg ref_Hash]. rewrite H31. exact Ho.
  - rewrite Hp. apply Forall_forall. intros r. rewrite elem_of_elements. simpl. by intros []%elem_of_filter.
Qed.

(** ** Instances *)

(** The text that [encoding/json] writes for a map whose keys need no escapes, and a reader
    for exactly such texts. *)
Definition json_member (k : bytes) : bytes := quote ++ k ++ quote ++ str ":null".
Fixpoint json_members (ks : list bytes) : bytes :=
  match ks with
  | [] => []
  | [k] => json_member k
  | k :: ks => json_member k ++ str "," ++ json_members ks
  end.

Fixpoint read_key (s : bytes) : option (bytes * bytes) :=
  match s with
  | [] => None
  | b :: s => if decide (b = x22) then Some ([], s) else '(k, r) ← read_key s; Some (b :: k, r)
  end.

Fixpoint read_members (fuel : nat) (s : bytes) (acc : gset bytes) : option (gset bytes) :=
  match fuel, s with
  | S fuel, b :: s =>
      if decide (b = x22) then
        '(k, r) ← read_key s;
        if decide (take 5 r = str ":null") then
          let acc := {[k]} ∪ acc in
          match drop 5 r with
          | c :: r =>
              if decide (c = ","%byte) then read_members fuel r acc
              else if decide (c :: r = str "}") then Some acc else None
          | [] => None
          end
        else None
      else None
  | _, _ => None
  end.

Definition refs_json_read (s : bytes) : outcome (option (gset bytes)) :=
  if decide (s = str "null") then Ret None
  else if decide (s = str "{}") then Ret (Some ∅)
  else if decide (take 1 s = str "{") then
    match read_members (length s) (drop 1 s) ∅ with Some m => Ret (Some m) | None => Err (ErrOther "json: syntax error") end
  else Err (ErrOther "json: syntax error").

#[export] Instance refs_json_text : RefsJson := {
  refs_Marshal m :=
    match m with
    | None => str "null"
    | Some m => str "{" ++ json_members (merge_sort bytes_le (elements m)) ++ str "}"
    end;
  refs_Unmarshal := refs_json_read
}.

Lemma read_key_app k r : Forall json_plain k → read_key (k ++ x22 :: r) = Some (k, r).
Proof.
  induction 1 as [|b k [_ Hb] _ IH]; simpl; [done|]. rewrite decide_False by set_solver. by rewrite IH.
Qed.

Lemma read_members_app ks fuel acc :
  ks ≠ [] → Forall (Forall json_plain) ks → length ks ≤ fuel →
  read_members fuel (json_members ks ++ str "}") acc = Some (list_to_set ks ∪ acc).
Proof.
  intros Hne Hks. revert fuel acc. induction Hks as [|k ks Hk Hks IH]; intros fuel acc Hf; [done|].
  destruct fuel as [|fuel]; [simpl in Hf; lia|].
  assert (json_members (k :: ks) ++ str "}" =
          x22 :: k ++ x22 :: str ":null" ++ match ks with [] => str "}" | _ => str "," ++ json_members ks ++ str "}" end) as ->.
  { destruct ks; simpl; unfold json_member, quote; by rewrite <- ?app_assoc; simpl; rewrite <- ?app_assoc. }
  cbn [read_members]. rewrite decide_True by done. rewrite read_key_app by done. simpl.
  destruct ks as [|k' ks]; simpl.
  - f_equal. set_solver.
  - rewrite IH; [|done|simpl in Hf |- *; lia]. f_equal. set_solver.
Qed.

Lemma length_json_members ks : length ks ≤ length (json_members ks).
Proof.
  induction ks as [|k [|k' ks] IH]; [done|simpl; lia|].
  change (json_members (k :: k' :: ks)) with (json_member k ++ str "," ++ json_members (k' :: ks)).
  change (length (k :: k' :: ks)) with (1 + length (k' :: ks)). rewrite !length_app.
  change (length (str ",")) with 1. lia.
Qed.

#[export] Instance refs_json_text_laws : RefsJsonLaws.
Proof.
  split. intros m Hm. unfold refs_Marshal, refs_Unmarshal, refs_json_text, refs_json_read.
  set (ks := merge_sort bytes_le (elements m)).
  assert (ks ≡ₚ elements m) as Hp by apply merge_sort_Permutation.
  assert (list_to_set ks = m) as Hset by (rewrite Hp; apply list_to_set_elements_L).
  destruct (decide (ks = [])) as [Hks|Hks].
  { rewrite Hks in *. simpl in *. by rewrite <- Hset. }
  rewrite decide_False by done.
  rewrite decide_False by (destruct ks as [|k [|]]; simpl; done).
  rewrite decide_True by done. cbn [length app drop].
  change (drop 1 (str "{" ++ json_members ks ++ str "}")) with (json_members ks ++ str "}").
  rewrite read_members_app; [by rewrite Hset, union_empty_r_L|done| |].
  - apply Forall_forall. intros k Hk. apply Hm. rewrite Hp in Hk. by apply elem_of_elements.
  - pose proof (length_json_members ks). etrans; [done|]. simpl. rewrite length_app. lia.
Qed.

(** Toy hash functions of the right lengths. *)
Definition toy_hashes : Hashes := {| sha1 := array_from 20; legacyKeccak256 := array_from 32 |}.
#[local] Existing Instance toy_hashes.
#[local] Instance toy_hash_laws : HashLaws.
Proof. split; intros c; apply length_array_from. Qed.

(** ** An example *)

Definition blob_a : bytes := str "some text".
Definition blob_b : bytes := str "another text".
Definition ref_a : RefID := mkRefID SHA3 (legacyKeccak256 blob_a).
Definition ref_b : RefID := mkRefID SHA1 (array_from hash_length (sha1 blob_b)).
Definition example_ops : list rs_op :=
  [OpMark [ref_a; ref_b; EmptyRef]; OpStore (mkReader blob_a None); OpStore (mkReader blob_b (Some (ErrOther "unexpected EOF")))].

Definition fresh_map : gmap bytes bytes := ∅.
Definition example_store : refStore (gmap bytes bytes) :=
  match fold_outcome run_op (rs_init fresh_map) example_ops with Ret s => s | _ => rs_init fresh_map end.

Lemma fresh_map_fresh : fresh_db fresh_map.
Proof. intros k. apply lookup_empty. Qed.

Lemma example_sized : refs_sized example_ops.
Proof. vm_decide. Qed.

Lemma example_no_collision : no_collision (example_ops ++ [OpStore (mkReader blob_b None)]).
Proof.
  intros c1 c2. change (stored _) with [blob_a; blob_b]. rewrite !elem_of_cons, !elem_of_nil.
  intros [->|[->|[]]] [->|[->|[]]]; try done; intros Heq; vm_compute in Heq; discriminate.
Qed.

Lemma example_run : fold_outcome run_op (rs_init fresh_map) example_ops = Ret example_store.
Proof.
  unfold example_store.
  assert (match fold_outcome run_op (rs_init fresh_map) example_ops with Ret _ => true | _ => false end = true) as Hr
    by (vm_compute; reflexivity).
  by destruct (fold_outcome _ _ _).
Qed.

Lemma refstore_refines_witness :
  ∃ s, fold_outcome run_op (rs_init fresh_map) example_ops = Ret s ∧
    HaveObject s ref_a = Ret true ∧ HaveObject s ref_b = Ret false.
Proof.
  destruct (refstore_refines fresh_map example_ops fresh_map_fresh) as (s & Hrun & Hh & _).
  - apply (no_collision_new _ _ example_no_collision).
  - apply example_sized.
  - exists s. split; [exact Hrun|]. split; rewrite Hh by (by split); vm_compute; reflexivity.
Defined.

Lemma refstore_integrity_witness : ∃ c, Object example_store ref_a = Ret (c, length c) ∧ c = blob_a.
Proof.
  destruct (refstore_integrity fresh_map example_ops example_store ref_a fresh_map_fresh) as [(c & Ho & Hc & _)|[_ Hm]].
  - apply (no_collision_new _ _ example_no_collision).
  - apply example_sized.
  - apply example_run.
  - by split.
  - exists c. split; [exact Ho|]. change (stored _) with [blob_a] in Hc. by apply list_elem_of_singleton in Hc.
  - assert (ref_matches ref_a blob_a = false) as Hf by (apply Hm; by apply list_elem_of_singleton). vm_compute in Hf. discriminate.
Defined.

Lemma refstore_store_witness :
  ∃ s' h1, StoreObject example_store (mkReader blob_b None) = Ret (s', (h1, legacyKeccak256 blob_b, None)) ∧
    Object s' (mkRefID SHA1 h1) = Ret (blob_b, 12).
Proof.
  destruct (refstore_store fresh_map example_ops example_store blob_b Err404 fresh_map_fresh example_no_collision
    example_sized example_run) as [(s' & h1 & l & Hs & _ & _ & Ho & _) _].
  exists s', h1. split; [exact Hs|exact Ho].
Defined.

(** The references are looked up and recorded in two steps: a store that comes in between
    leaves a reference needed although the blob is there. *)
Theorem refstore_mark_race :
  let s0 := rs_init fresh_map in
  ∃ s1 r s2, StoreObject s0 (mkReader blob_a None) = Ret (s1, r) ∧ record_needed s1 (actually_needed s0 [ref_a]) = Ret s2 ∧
    HaveObject s2 ref_a = Ret true ∧ RefsNeeded s2 = Ret [ref_a].
Proof.
  intros s0.
  assert (match StoreObject s0 (mkReader blob_a None) with
          | Ret (s1, _) => match record_needed s1 (actually_needed s0 [ref_a]) with
                           | Ret s2 => match HaveObject s2 ref_a, RefsNeeded s2 with
                                       | Ret true, Ret [mkRefID SHA3 h] => bool_decide (h = ref_Hash ref_a)
                                       | _, _ => false end
                           | _ => false end
          | _ => false end = true) as Hr by (vm_compute; reflexivity).
  destruct (StoreObject _ _) as [[s1 r]| | |] eqn:Hs1; [|done..]. destruct (record_needed _ _) as [s2| | |] eqn:Hs2; [|done..].
  exists s1, r, s2. repeat case_match; simplify_eq. apply bool_decide_eq_true in Hr as ->. done.
Qed.
