(* ===== verification/RefTransfer.v ===== *)
(** * Fetching blobs from peers ([host.go])

    A peer that is asked for a blob sends a header, the contents in packets of at most
    [REF_CHUNK_SIZE] bytes and an end packet; the asking host tries the providers of the blob
    one after the other, and stores what the first one that answers sends it.

    A peer is an interface; what it does is an argument: the result of each send on the
    serving side, the sequence of what is received on the asking side.  The goroutine that
    copies packets into the pipe is the function from what is received to the [reader] at
    the other end of the pipe. *)

From S2P Require Import Prelude Types Keypath TreeTypes GoValue BadgerTxn Tx TxStore RefStore.

Definition REF_CHUNK_SIZE : nat := 1024.

(** [FetchRefResponseBody] *)
Record packet := mkPacket { pkt_Data : bytes; pkt_End : bool }.

(** [io.ReadFull] into a buffer of the given length: the bytes that were read and whether the
    buffer is full ([inl]), or [io.EOF] ([inr]); and the rest of the file. *)
Definition ReadFull (n : nat) (file : bytes) : (bytes * bool + unit) * bytes :=
  let got := take n file in
  (if decide (length got = n) then inl (got, true)
   else if decide (got = []) then inr () else inl (got, false), drop n file).

(** The loop of the server: [buf] is as long as the last packet.  [send] is the result of
    each send of the peer, counted from the header on. *)
Fixpoint serve_loop (fuel : nat) (send : nat → option error) (i : nat) (buf : nat) (file : bytes) : outcome (list packet) :=
  match fuel with
  | O => Running
  | S fuel =>
      match ReadFull buf file with
      | (inr _, _) => Ret (match send i with None => [mkPacket [] true] | Some _ => [] end)
      | (inl (got, _), file) =>
          match send i with
          | Some _ => Ret []
          | None => let! rest := serve_loop fuel send (S i) (length got) file in Ret (mkPacket got false :: rest)
          end
      end
  end.

(** [WithStack] and [Close] aside, the packets that the peer accepts. *)
Definition HandleFetchRefReceived {T} `{BadgerTxn T} `{Hashes} (s : refStore T) (refID : RefID) (send : nat → option error) :
    outcome (list packet) :=
  match Object s refID with
  | Ret (file, _) =>
      match send 0 with
      | Some _ => Ret []
      | None => serve_loop (2 + length file) send 1 REF_CHUNK_SIZE file
      end
  | Running => Running
  | _ => Panic
  end.

(** ** The asking host *)

Inductive recv_event := Packet (p : packet) | RecvErr (e : error) | CtxDone.
Definition ErrCanceled : error := ErrOther "context canceled".

(** The copying goroutine.  The [err] of the loop body hides the one that the pipe is closed
    with, which only the cancelled context sets: a failed receive ends the pipe like the
    end packet.  Without an event the goroutine waits. *)
Fixpoint copy_packets (evs : list recv_event) : outcome reader :=
  match evs with
  | [] => Running
  | CtxDone :: _ => Ret (mkReader [] (Some ErrCanceled))
  | RecvErr _ :: _ => Ret (mkReader [] None)
  | Packet p :: evs =>
      if pkt_End p then Ret (mkReader [] None)
      else let! rd := copy_packets evs in Ret (mkReader (pkt_Data p ++ rd_bytes rd) (rd_err rd))
  end.

(** A provider of the blob: the results of connecting, asking and reading the header, and
    what is received after that. *)
Record provider := mkProvider {
  pr_EnsureConnected : option error;
  pr_FetchRef : option error;
  pr_ReceiveRefHeader : option error;
  pr_events : list recv_event
}.

(** The store afterwards, and the references that are announced. *)
Fixpoint FetchRef {T} `{BadgerTxn T} `{Hashes} `{RefsJson} (s : refStore T) (providers : list provider) :
    outcome (refStore T * list RefID) :=
  match providers with
  | [] => Ret (s, [])
  | p :: providers =>
      match pr_EnsureConnected p, pr_FetchRef p, pr_ReceiveRefHeader p with
      | None, None, None =>
          let! rd := copy_packets (pr_events p) in
          let! r := StoreObject s rd in
          let '(s, (sha1Hash, sha3Hash, err)) := r in
          match err with
          | Some _ => FetchRef s providers
          | None => Ret (s, [mkRefID SHA1 sha1Hash; mkRefID SHA3 sha3Hash])
          end
      | _, _, _ => FetchRef s providers
      end
  end.

(** ** The packets *)

Lemma serve_loop_complete fuel send i buf file :
  (∀ n, send n = None) → 0 < buf → 1 + length file ≤ fuel →
  ∃ pkts, serve_loop fuel send i buf file = Ret (pkts ++ [mkPacket [] true]) ∧
    Forall (λ p, pkt_End p = false ∧ 0 < length (pkt_Data p) ≤ buf) pkts ∧ mjoin (pkt_Data <$> pkts) = file.
Proof.
  intros Hsend. revert i buf file. induction fuel as [|fuel IH]; intros i buf file Hbuf Hf; [lia|].
  cbn [serve_loop]. unfold ReadFull. rewrite !Hsend.
  assert (length (take buf file) ≤ buf) as Hle by (rewrite length_take; lia).
  destruct (decide (take buf file = [])) as [Hnil|Hne].
  - assert (file = []) as -> by (destruct buf, file; simpl in Hnil; (lia || done)).
    rewrite take_nil. rewrite decide_False by (simpl; lia). by exists [].
  - assert (0 < length (take buf file)) as Hpos by (destruct (take buf file); simpl; [done|lia]).
    assert (length (drop buf file) + length (take buf file) = length file) as Hlen
      by (rewrite <- (take_drop buf file) at 3; rewrite length_app; lia).
    destruct (IH (S i) (length (take buf file)) (drop buf file)) as (pkts & Hp & Hall & Hj); [lia..|].
    exists (mkPacket (take buf file) false :: pkts).
    split; [|split].
    + repeat case_decide; by rewrite ?Hp.
    + constructor; [by simpl|]. eapply Forall_impl; [exact Hall|]. simpl. intros p []. split; [done|lia].
    + rewrite fmap_cons. simpl. rewrite Hj. apply take_drop.
Qed.

Lemma copy_packets_app pkts evs :
  Forall (λ p, pkt_End p = false) pkts →
  copy_packets ((Packet <$> pkts) ++ evs) =
  let! rd := copy_packets evs in Ret (mkReader (mjoin (pkt_Data <$> pkts) ++ rd_bytes rd) (rd_err rd)).
Proof.
  induction 1 as [|p pkts Hp _ IH]; [simpl; by destruct (copy_packets evs) as [[]| | |]|].
  rewrite !fmap_cons. cbn [app copy_packets]. rewrite Hp, IH.
  destruct (copy_packets evs) as [[]| | |]; simpl; [|done..]. by rewrite app_assoc.
Qed.

(** ** Theorems *)

Section Transfer.
Context {T : Type} `{HL : BadgerLaws T} `{HH : HashLaws} `{HJ : RefsJsonLaws} `{HO : MapOrderLaw}.

(** What a host that has the blob sends, and how the copying goroutine reads it. *)
Lemma serve_copy (s : refStore T) r c send :
  Object s r = Ret (c, length c) → (∀ n, send n = None) →
  ∃ pkts, HandleFetchRefReceived s r send = Ret pkts ∧ Forall (λ p, length (pkt_Data p) ≤ REF_CHUNK_SIZE) pkts ∧
    copy_packets (Packet <$> pkts) = Ret (mkReader c None).
Proof.
  intros Ho Hsend. unfold HandleFetchRefReceived. rewrite Ho, Hsend.
  destruct (serve_loop_complete (2 + length c) send 1 REF_CHUNK_SIZE c Hsend) as (pkts & -> & Hall & Hj); [unfold REF_CHUNK_SIZE; lia|lia|].
  eexists. split; [done|]. split.
  - apply Forall_app. split; [|by apply Forall_singleton; simpl; lia]. eapply Forall_impl; [exact Hall|]. simpl. intros p []. lia.
  - rewrite fmap_app, copy_packets_app; [|eapply Forall_impl; [exact Hall|]; by intros p []]. simpl. by rewrite app_nil_r, Hj.
Qed.
End Transfer.

(** C13: Blobs replicate: when the serving host has the blob that is asked for, and the
    connection works, the packets it sends (none of them over the chunk size) give the asking
    host the same content, whichever providers failed to connect before: it can read the
    content under both hashes, needs neither any more, and announces both.  A provider after
    the first that answers is not asked. *)
Theorem ref_replicates {T} `{BadgerLaws T} `{HashLaws} `{RefsJsonLaws} `{MapOrderLaw}
    (server : refStore T) r c send (t : T) ops client failing rest :
  Object server r = Ret (c, length c) → (∀ n, send n = None) →
  fresh_db t → no_collision (ops ++ [OpStore (mkReader c None)]) → refs_sized ops →
  fold_outcome run_op (rs_init t) ops = Ret client →
  Forall (λ p, is_Some (pr_EnsureConnected p) ∨ is_Some (pr_FetchRef p) ∨ is_Some (pr_ReceiveRefHeader p)) failing →
  ∃ pkts client' h1 l,
    HandleFetchRefReceived server r send = Ret pkts ∧ Forall (λ p, length (pkt_Data p) ≤ REF_CHUNK_SIZE) pkts ∧
    FetchRef client (failing ++ mkProvider None None None (Packet <$> pkts) :: rest) =
      Ret (client', [mkRefID SHA1 h1; mkRefID SHA3 (legacyKeccak256 c)]) ∧
    Object client' (mkRefID SHA3 (legacyKeccak256 c)) = Ret (c, length c) ∧ Object client' (mkRefID SHA1 h1) = Ret (c, length c) ∧
    RefsNeeded client' = Ret l ∧ Forall (λ r, ref_matches r c = false) l.
Proof.
  intros Ho Hsend Hf Hc Hs Hrun Hfail. destruct (serve_copy server r c send Ho Hsend) as (pkts & Hserve & Hall & Hcopy).
  destruct (no_collision_new _ _ Hc) as [Hc' Hnew].
  destruct (run_init_rep t ops Hf Hc' Hs) as (s0 & Hrun' & Hrep). rewrite Hrun in Hrun'. simplify_eq.
  destruct (StoreObject_complete s0 _ c Hrep Hnew) as (s' & h1 & Hst & _ & _ & _ & _ & _ & H31 & Hrep').
  destruct (RefsNeeded_rep _ _ Hrep') as (l & Hn & Hp).
  assert (Object s' (mkRefID SHA3 (legacyKeccak256 c)) = Ret (c, length c)) as Ho3
    by (apply (Object_SHA3_rep s' _ c Hrep'); simpl; set_solver).
  exists pkts, s', h1, l. split_and!; try done.
  - clear -Hfail Hcopy Hst. induction Hfail as [|p failing Hp _ IH]; simpl.
    + rewrite Hcopy. simpl. by rewrite Hst.
    + destruct (pr_EnsureConnected p), (pr_FetchRef p), (pr_ReceiveRefHeader p); try done.
      destruct Hp as [[? ?]|[[? ?]|[? ?]]]; done.
  - unfold Object, objectBySHA1. cbn [ref_HashAlg ref_Hash]. rewrite H31. exact Ho3.
  - rewrite Hp. apply Forall_forall. intros r'. rewrite elem_of_elements. simpl. by intros []%elem_of_filter.
Qed.

(** A receive that fails looks like the end of the blob: what came before it is stored and
    announced as a complete blob, and no other provider is asked. *)
Theorem fetch_truncated {T} `{BadgerLaws T} `{HashLaws} `{RefsJsonLaws} `{MapOrderLaw} (s : refStore T) a pkts e rest c :
  rep s a → Forall (λ p, pkt_End p = false) pkts → mjoin (pkt_Data <$> pkts) = c →
  (∀ c', c' ∈ sp_contents a → legacyKeccak256 c' = legacyKeccak256 c → c' = c) →
  ∃ s' h1, FetchRef s (mkProvider None None None ((Packet <$> pkts) ++ [RecvErr e]) :: rest) =
             Ret (s', [mkRefID SHA1 h1; mkRefID SHA3 (legacyKeccak256 c)]) ∧
           Object s' (mkRefID SHA3 (legacyKeccak256 c)) = Ret (c, length c).
Proof.
  intros Hrep Hp Hc Hnew. destruct (StoreObject_complete s a c Hrep Hnew) as (s' & h1 & Hst & _ & _ & _ & _ & _ & _ & Hrep').
  exists s', h1. split; [|apply (Object_SHA3_rep s' _ c Hrep'); simpl; set_solver].
  simpl. rewrite copy_packets_app by done. simpl. rewrite app_nil_r, Hc. simpl. by rewrite Hst.
Qed.

(** A request for a blob that is not there stops the serving host. *)
Theorem serve_missing_panics {T} `{BadgerTxn T} `{Hashes} (s : refStore T) r e send :
  Object s r = Err e → HandleFetchRefReceived s r send = Panic.
Proof. intros Ho. unfold HandleFetchRefReceived. by rewrite Ho. Qed.

#[local] Existing Instance toy_hashes.
#[local] Existing Instance toy_hash_laws.

Lemma ref_replicates_witness :
  ∃ pkts client' h1, HandleFetchRefReceived example_store ref_a (λ _, None) = Ret pkts ∧
    FetchRef (rs_init fresh_map) [mkProvider (Some ErrConnection) None None []; mkProvider None None None (Packet <$> pkts)] =
      Ret (client', [mkRefID SHA1 h1; ref_a]) ∧ Object client' ref_a = Ret (blob_a, 9).
Proof.
  destruct (ref_replicates example_store ref_a blob_a (λ _, None) fresh_map [] (rs_init fresh_map)
    [mkProvider (Some ErrConnection) None None []] []) as (pkts & s' & h1 & l & H1 & _ & H2 & H3 & _).
  - assert (match Object example_store ref_a with Ret (c, n) => bool_decide (c = blob_a ∧ n = 9) | _ => false end = true) as Ho
      by (vm_compute; reflexivity).
    destruct (Object example_store ref_a) as [[c n]| | |]; [|discriminate..]. apply bool_decide_eq_true in Ho as [-> ->]. reflexivity.
  - reflexivity.
  - apply fresh_map_fresh.
  - intros c1 c2. change (stored _) with [blob_a]. rewrite !list_elem_of_singleton. by intros -> ->.
  - apply Forall_nil. exact I.
  - reflexivity.
  - apply Forall_singleton. left. by eexists.
  - exists pkts, s', h1. split; [exact H1|]. split; [exact H2|exact H3].
Defined.
