(* ===== verification/PeerStore.v ===== *)
(** * The peer store ([peer-store.go])

    The store keeps the details of every known peer, by dial info (transport and address)
    and by the addresses it has proved to own; peers that have proved none are unverified.
    The maps share the details: [ps_heap] is the memory they point into, a pointer is an
    index.  Each change of the details is saved in the state tree under [peers/<hash>]
    ([ps_saved], by hash; writing the tree is the subject of [DBNode], and it does not fail
    here).  Keys of the asymmetric ciphers are their byte forms.  Times are nanoseconds since
    1970, the zero value of [time.Time] being the year 1; [now] is the clock. *)

From S2P Require Import Prelude Types.

Record PeerDialInfo := mkDialInfo { TransportName : bytes; DialAddr : bytes }.
#[export] Instance PeerDialInfo_eq_dec : EqDecision PeerDialInfo.
Proof. solve_decision. Defined.
#[export] Instance PeerDialInfo_countable : Countable PeerDialInfo.
Proof. refine (inj_countable' (λ d, (TransportName d, DialAddr d)) (λ p, mkDialInfo p.1 p.2) _). by intros []. Defined.

Definition nanos : Z := 1000000000.
Definition zero_time : Z := -62135596800 * nanos.

Record peerDetails := mkPeerDetails {
  pd_dialInfo : PeerDialInfo;
  pd_addresses : gset Address;
  pd_sigpubkeys : gmap Address bytes;
  pd_encpubkeys : gmap Address bytes;
  pd_stateURIs : gset bytes;
  pd_lastContact : Z;
  pd_lastFailure : Z;
  pd_failures : Z
}.

Definition newPeerDetails (dialInfo : PeerDialInfo) : peerDetails :=
  mkPeerDetails dialInfo ∅ ∅ ∅ ∅ zero_time zero_time 0.

Record peerDetailsCodec := mkCodec {
  pc_DialInfo : PeerDialInfo;
  pc_Addresses : gset Address;
  pc_Sigpubkeys : list (bytes * bytes);
  pc_Encpubkeys : list (bytes * bytes);
  pc_StateURIs : gset bytes;
  pc_LastContact : Z;
  pc_LastFailure : Z;
  pc_Failures : Z
}.

(** [uint64(t.UTC().Unix())] and back *)
Definition unix_u64 (t : Z) : Z := (t `div` nanos) `mod` 2 ^ 64.
Definition time_of_u64 (n : Z) : Z := (if decide (n < 2 ^ 63)%Z then n else n - 2 ^ 64)%Z * nanos.

Definition hex_keys (m : gmap Address bytes) : list (bytes * bytes) := (λ kv, (Address_Hex kv.1, kv.2)) <$> map_to_list m.

Definition to_codec (pd : peerDetails) : peerDetailsCodec :=
  mkCodec (pd_dialInfo pd) (pd_addresses pd) (hex_keys (pd_sigpubkeys pd)) (hex_keys (pd_encpubkeys pd)) (pd_stateURIs pd)
    (unix_u64 (pd_lastContact pd)) (unix_u64 (pd_lastFailure pd)) (pd_failures pd).

(** [crypto.SigningPublicKeyFromBytes] checks its argument; for the other kind of key the
    check always succeeds. *)
Definition read_keys (check : bytes → outcome bytes) (l : list (bytes * bytes)) : outcome (gmap Address bytes) :=
  fold_outcome (λ m kv, let! addr := AddressFromHex kv.1 in let! key := check kv.2 in Ret (<[addr := key]> m)) ∅ l.

Definition peerDetailsCodecToPeerDetails (check : bytes → outcome bytes) (pd : peerDetailsCodec) : outcome peerDetails :=
  let! sigpubkeys := read_keys check (pc_Sigpubkeys pd) in
  let! encpubkeys := read_keys Ret (pc_Encpubkeys pd) in
  Ret (mkPeerDetails (pc_DialInfo pd) (pc_Addresses pd) sigpubkeys encpubkeys (pc_StateURIs pd)
         (time_of_u64 (pc_LastContact pd)) (time_of_u64 (pc_LastFailure pd)) (pc_Failures pd)).

Record peerStore := mkPeerStore {
  ps_heap : list peerDetails;
  ps_peers : gmap PeerDialInfo nat;
  ps_withAddress : gmap Address (gmap PeerDialInfo nat);
  ps_unverified : gset PeerDialInfo;
  ps_saved : gmap bytes peerDetailsCodec;
  ps_announced : list PeerDialInfo     (* the calls of [onNewUnverifiedPeer] *)
}.

Definition empty_store (saved : gmap bytes peerDetailsCodec) : peerStore := mkPeerStore [] ∅ ∅ ∅ saved [].

Definition pd_at (s : peerStore) (p : nat) : option peerDetails := ps_heap s !! p.

(** Writing through a pointer, and allocating. *)
Definition set_details (s : peerStore) (p : nat) (pd : peerDetails) : peerStore :=
  mkPeerStore (<[p := pd]> (ps_heap s)) (ps_peers s) (ps_withAddress s) (ps_unverified s) (ps_saved s) (ps_announced s).
Definition alloc (s : peerStore) (pd : peerDetails) : peerStore * nat :=
  (mkPeerStore (ps_heap s ++ [pd]) (ps_peers s) (ps_withAddress s) (ps_unverified s) (ps_saved s) (ps_announced s),
   length (ps_heap s)).
Definition with_peer (s : peerStore) (dialInfo : PeerDialInfo) (p : nat) : peerStore :=
  mkPeerStore (ps_heap s) (<[dialInfo := p]> (ps_peers s)) (ps_withAddress s) (ps_unverified s) (ps_saved s) (ps_announced s).
Definition with_unverified (s : peerStore) (u : gset PeerDialInfo) : peerStore :=
  mkPeerStore (ps_heap s) (ps_peers s) (ps_withAddress s) u (ps_saved s) (ps_announced s).
Definition announce (s : peerStore) (dialInfo : PeerDialInfo) : peerStore :=
  mkPeerStore (ps_heap s) (ps_peers s) (ps_withAddress s) (ps_unverified s) (ps_saved s) (ps_announced s ++ [dialInfo]).

(** [s.peersWithAddress[address][dialInfo] = pd], the inner map made when it is not there. *)
Definition with_address (s : peerStore) (address : Address) (dialInfo : PeerDialInfo) (p : nat) : peerStore :=
  mkPeerStore (ps_heap s) (ps_peers s)
    (<[address := <[dialInfo := p]> (default ∅ (ps_withAddress s !! address))]> (ps_withAddress s))
    (ps_unverified s) (ps_saved s) (ps_announced s).

Section PeerStore.
Context (keccak256 : bytes → bytes).

Definition dialInfoHash (dialInfo : PeerDialInfo) : bytes :=
  Hash_Hex (HashBytes keccak256 (TransportName dialInfo ++ str ":" ++ DialAddr dialInfo)).

Definition savePeerDetails (s : peerStore) (p : nat) : peerStore :=
  match pd_at s p with
  | None => s
  | Some pd =>
      mkPeerStore (ps_heap s) (ps_peers s) (ps_withAddress s) (ps_unverified s)
        (<[dialInfoHash (pd_dialInfo pd) := to_codec pd]> (ps_saved s)) (ps_announced s)
  end.

Definition add_dial_info (s : peerStore) (dialInfo : PeerDialInfo) : peerStore :=
  if decide (DialAddr dialInfo = []) then s
  else
    match ps_peers s !! dialInfo with
    | Some _ => s
    | None =>
        let '(s, p) := alloc s (newPeerDetails dialInfo) in
        let s := savePeerDetails s p in
        let s := with_peer s dialInfo p in
        let s := with_unverified s ({[dialInfo]} ∪ ps_unverified s) in
        announce s dialInfo
    end.

Definition AddDialInfos (s : peerStore) (dialInfos : list PeerDialInfo) : peerStore := foldl add_dial_info s dialInfos.

(** The details that [AddVerifiedCredentials] works on: those of the peer under this address,
    else those under its dial info, else new ones. *)
Definition find_details (s : peerStore) (dialInfo : PeerDialInfo) (address : Address) : peerStore * nat :=
  match ps_withAddress s !! address ≫= lookup dialInfo with
  | Some p => (s, p)
  | None =>
      match ps_peers s !! dialInfo with
      | Some p => (s, p)
      | None => alloc s (newPeerDetails dialInfo)
      end
  end.

Definition set_key (m : gmap Address bytes) (address : Address) (key : option bytes) : gmap Address bytes :=
  match key with Some k => <[address := k]> m | None => m end.

Definition with_credentials (pd : peerDetails) (address : Address) (sigpubkey encpubkey : option bytes) : peerDetails :=
  mkPeerDetails (pd_dialInfo pd) ({[address]} ∪ pd_addresses pd) (set_key (pd_sigpubkeys pd) address sigpubkey)
    (set_key (pd_encpubkeys pd) address encpubkey) (pd_stateURIs pd) (pd_lastContact pd) (pd_lastFailure pd) (pd_failures pd).

Definition AddVerifiedCredentials (s : peerStore) (dialInfo : PeerDialInfo) (address : Address) (sigpubkey encpubkey : option bytes) :
    outcome peerStore :=
  if IsZero address then Panic
  else
    let '(s, p) := find_details s dialInfo address in
    match pd_at s p with
    | None => Panic
    | Some pd =>
        let s := set_details s p (with_credentials pd address sigpubkey encpubkey) in
        let s := with_address s address dialInfo p in
        let s := if decide (DialAddr dialInfo = []) then s else with_peer s dialInfo p in
        let s := with_unverified s (ps_unverified s ∖ {[pd_dialInfo pd]}) in
        Ret (savePeerDetails s p)
    end.

(** ** Queries: pointers to details; [None] is the [nil] pointer *)

Definition Peers (s : peerStore) : list nat := (map_to_list (ps_peers s)).*2.
Definition PeerWithDialInfo (s : peerStore) (dialInfo : PeerDialInfo) : option nat :=
  if decide (DialAddr dialInfo = []) then None else ps_peers s !! dialInfo.
Definition UnverifiedPeers (s : peerStore) : list (option nat) := (λ d, ps_peers s !! d) <$> elements (ps_unverified s).
Definition AllDialInfos (s : peerStore) : list PeerDialInfo := (map_to_list (ps_peers s)).*1.
Definition PeersWithAddress (s : peerStore) (address : Address) : list nat :=
  match ps_withAddress s !! address with Some m => (map_to_list m).*2 | None => [] end.
Definition PeersFromTransport (s : peerStore) (transportName : bytes) : list nat :=
  (filter (λ kv, TransportName kv.1 = transportName) (map_to_list (ps_peers s))).*2.
Definition PeersFromTransportWithAddress (s : peerStore) (transport : bytes) (address : Address) : list nat :=
  match ps_withAddress s !! address with
  | Some m => (filter (λ kv, TransportName kv.1 = transport) (map_to_list m)).*2
  | None => []
  end.
Definition PeersServingStateURI (s : peerStore) (stateURI : bytes) : list nat :=
  filter (λ p, match pd_at s p with Some pd => bool_decide (stateURI ∈ pd_stateURIs pd) | None => false end = true)
    (map_to_list (ps_peers s)).*2.
Definition IsKnownPeer (s : peerStore) (dialInfo : PeerDialInfo) : bool :=
  existsb (λ di, bool_decide (di = dialInfo)) (map_to_list (ps_peers s)).*1.

(** ** Methods of the details *)

Definition update_details (s : peerStore) (p : nat) (f : peerDetails → peerDetails) : peerStore :=
  match pd_at s p with Some pd => savePeerDetails (set_details s p (f pd)) p | None => s end.

Definition with_stateURIs (pd : peerDetails) (u : gset bytes) : peerDetails :=
  mkPeerDetails (pd_dialInfo pd) (pd_addresses pd) (pd_sigpubkeys pd) (pd_encpubkeys pd) u
    (pd_lastContact pd) (pd_lastFailure pd) (pd_failures pd).
Definition AddStateURI (s : peerStore) (p : nat) (stateURI : bytes) : peerStore :=
  update_details s p (λ pd, with_stateURIs pd ({[stateURI]} ∪ pd_stateURIs pd)).
Definition RemoveStateURI (s : peerStore) (p : nat) (stateURI : bytes) : peerStore :=
  update_details s p (λ pd, with_stateURIs pd (pd_stateURIs pd ∖ {[stateURI]})).

Definition conn_stats (pd : peerDetails) (now : Z) (success : bool) : peerDetails :=
  mkPeerDetails (pd_dialInfo pd) (pd_addresses pd) (pd_sigpubkeys pd) (pd_encpubkeys pd) (pd_stateURIs pd) now
    (if success then pd_lastFailure pd else now) (if success then 0 else (pd_failures pd + 1) `mod` 2 ^ 64)%Z.
Definition UpdateConnStats (s : peerStore) (p : nat) (now : Z) (success : bool) : peerStore :=
  update_details s p (λ pd, conn_stats pd now success).

(** [time.Time.Sub] saturates; [Duration / time.Second] truncates towards zero, and the
    conversion to [uint64] wraps around. *)
Definition time_Sub (a b : Z) : Z := (Z.max (- 2 ^ 63) (Z.min (2 ^ 63 - 1) (a - b)))%Z.
Definition Ready (pd : peerDetails) (now : Z) : bool :=
  bool_decide (pd_failures pd ≤ (Z.quot (time_Sub now (pd_lastFailure pd)) nanos) `mod` 2 ^ 64)%Z.

(** ** Start: the saved details are read back *)

Definition load_details (s : peerStore) (pd : peerDetails) : peerStore :=
  let '(s, p) := alloc s pd in
  let s := with_peer s (pd_dialInfo pd) p in
  if decide (pd_addresses pd = ∅) then with_unverified s ({[pd_dialInfo pd]} ∪ ps_unverified s)
  else foldl (λ s addr, with_address s addr (pd_dialInfo pd) p) s (elements (pd_addresses pd)).

(** When one record cannot be read, none is taken over. *)
Definition NewPeerStore (check : bytes → outcome bytes) (saved : gmap bytes peerDetailsCodec) : peerStore :=
  match map_outcome (peerDetailsCodecToPeerDetails check) (map_to_list saved).*2 with
  | Ret pds => foldl load_details (empty_store saved) pds
  | _ => empty_store saved
  end.
End PeerStore.

(** ** The invariant *)

Definition by_address (s : peerStore) (a : Address) (di : PeerDialInfo) : option nat := ps_withAddress s !! a ≫= lookup di.

Record ps_wf (s : peerStore) : Prop := {
  wf_peers di p : ps_peers s !! di = Some p → DialAddr di ≠ [] ∧ ∃ d, pd_at s p = Some d ∧ pd_dialInfo d = di;
  wf_address a di p : by_address s a di = Some p →
    (DialAddr di ≠ [] → ps_peers s !! di = Some p) ∧ ∃ d, pd_at s p = Some d ∧ pd_dialInfo d = di ∧ a ∈ pd_addresses d;
  wf_owner di p d a : ps_peers s !! di = Some p → pd_at s p = Some d → a ∈ pd_addresses d → by_address s a di = Some p;
  wf_unverified di : di ∈ ps_unverified s ↔ ∃ p d, ps_peers s !! di = Some p ∧ pd_at s p = Some d ∧ pd_addresses d = ∅
}.

Lemma wf_empty saved : ps_wf (empty_store saved).
Proof. split; unfold by_address; simpl; intros *; rewrite ?lookup_empty; try done. split; [set_solver|naive_solver]. Qed.

(** The invariant does not look at what is saved or announced. *)
Lemma wf_same s s' :
  ps_heap s' = ps_heap s → ps_peers s' = ps_peers s → ps_withAddress s' = ps_withAddress s → ps_unverified s' = ps_unverified s →
  ps_wf s → ps_wf s'.
Proof.
  intros H1 H2 H3 H4 [W1 W2 W3 W4]. by split; unfold by_address, pd_at in *; rewrite ?H1, ?H2, ?H3, ?H4.
Qed.

Lemma save_fields kc s p :
  ps_heap (savePeerDetails kc s p) = ps_heap s ∧ ps_peers (savePeerDetails kc s p) = ps_peers s ∧
  ps_withAddress (savePeerDetails kc s p) = ps_withAddress s ∧ ps_unverified (savePeerDetails kc s p) = ps_unverified s.
Proof. unfold savePeerDetails. by destruct (pd_at s p). Qed.

Lemma wf_save kc s p : ps_wf s → ps_wf (savePeerDetails kc s p).
Proof. destruct (save_fields kc s p) as (H1 & H2 & H3 & H4). by apply wf_same. Qed.

Lemma pd_at_set s p d q : is_Some (pd_at s p) → pd_at (set_details s p d) q = if decide (q = p) then Some d else pd_at s q.
Proof.
  unfold pd_at, set_details. simpl. intros Hp%lookup_lt_is_Some. case_decide as Hq.
  - subst. by apply list_lookup_insert_eq.
  - by rewrite list_lookup_insert_ne.
Qed.

Lemma pd_at_alloc s d q : pd_at (alloc s d).1 q = if decide (q = length (ps_heap s)) then Some d else pd_at s q.
Proof.
  unfold pd_at, alloc. simpl. case_decide as Hq.
  - subst. by rewrite lookup_app_r, Nat.sub_diag.
  - destruct (decide (q < length (ps_heap s))); [by rewrite lookup_app_l|].
    rewrite (lookup_ge_None_2 (ps_heap s)) by lia. apply lookup_ge_None_2. rewrite length_app. simpl. lia.
Qed.

Lemma pd_at_lt s p d : pd_at s p = Some d → p ≠ length (ps_heap s).
Proof. intros Hp%lookup_lt_Some. lia. Qed.

(** Changing the details of a peer without its dial info and addresses. *)
Lemma wf_update kc s p f :
  (∀ d, pd_dialInfo (f d) = pd_dialInfo d ∧ pd_addresses (f d) = pd_addresses d) → ps_wf s → ps_wf (update_details kc s p f).
Proof.
  intros Hf [W1 W2 W3 W4]. unfold update_details. destruct (pd_at s p) as [d|] eqn:Hd; [|by split]. apply wf_save.
  assert (is_Some (pd_at s p)) as Hp by (by exists d). destruct (Hf d) as [Hf1 Hf2].
  assert (∀ q d', pd_at (set_details s p (f d)) q = Some d' ↔
    ∃ d0, pd_at s q = Some d0 ∧ d' = if decide (q = p) then f d0 else d0) as Hat.
  { intros q d'. rewrite pd_at_set by done. case_decide; subst; naive_solver. }
  split; change (by_address (set_details s p (f d))) with (by_address s); cbn [set_details ps_peers ps_unverified].
  - intros di q (Hn & d0 & Hq & Hdi)%W1. split; [done|]. eexists. rewrite Hat. split; [by eauto|].
    case_decide; [|done]. by rewrite (proj1 (Hf _)).
  - intros a di q (Hn & d0 & Hq & Hdi & Ha)%W2. split; [done|]. eexists. rewrite Hat. split; [by eauto|].
    case_decide; [|done]. destruct (Hf d0) as [-> ->]. done.
  - intros di q d' a Hdi (d0 & Hq & ->)%Hat Ha. apply (W3 di q d0); [done..|].
    case_decide; [|done]. by rewrite (proj2 (Hf _)) in Ha.
  - intros di. rewrite W4. split.
    + intros (q & d0 & Hdi & Hq & Ha). eexists q, _. rewrite Hat. split_and!; [done|by eauto|].
      case_decide; [|done]. by rewrite (proj2 (Hf _)).
    + intros (q & d' & Hdi & (d0 & Hq & ->)%Hat & Ha). exists q, d0. split_and!; [done..|].
      case_decide; [|done]. by rewrite (proj2 (Hf _)) in Ha.
Qed.

(** A new peer: its details at a new place of the memory, without addresses. *)
Lemma wf_new_peer s s' di :
  ps_wf s → DialAddr di ≠ [] → ps_peers s !! di = None →
  ps_heap s' = ps_heap s ++ [newPeerDetails di] → ps_peers s' = <[di := length (ps_heap s)]> (ps_peers s) →
  ps_withAddress s' = ps_withAddress s → ps_unverified s' = {[di]} ∪ ps_unverified s → ps_wf s'.
Proof.
  intros [W1 W2 W3 W4] Hne Hdi H1 H2 H3 H4. set (q := length (ps_heap s)) in *. set (d := newPeerDetails di) in *.
  assert (∀ x, pd_at s' x = if decide (x = q) then Some d else pd_at s x) as Hat.
  { intros x. unfold q. rewrite <- pd_at_alloc. unfold pd_at. by rewrite H1. }
  assert (∀ x d0, pd_at s x = Some d0 → pd_at s' x = Some d0) as Hold.
  { intros x d0 Hx. rewrite Hat, decide_False; [done|]. by eapply pd_at_lt. }
  assert (by_address s' = by_address s) as Hba by (unfold by_address; by rewrite H3).
  split; rewrite ?Hba, ?H2, ?H4.
  - intros di' p. rewrite lookup_insert_Some. intros [[<- <-]|[Hd (Hn & d0 & Hp & Hx)%W1]].
    + split; [done|]. exists d. by rewrite Hat, decide_True.
    + split; [done|]. exists d0. split; [by apply Hold|done].
  - intros a di' p Ha. destruct (W2 _ _ _ Ha) as (Hp & d0 & Hx & Hy & Hz). split; [|exists d0; eauto].
    intros Hn. rewrite lookup_insert_ne; [by apply Hp|]. intros ->. rewrite Hp in Hdi by done. done.
  - intros di' p d' a. rewrite lookup_insert_Some. intros [[<- <-]|[Hd Hp]] Hx Ha.
    + rewrite Hat, decide_True in Hx by done. simplify_eq; set_solver.
    + destruct (W1 _ _ Hp) as (_ & d0 & Hx' & _). rewrite (Hold _ _ Hx') in Hx. simplify_eq. eauto.
  - intros di'. rewrite elem_of_union, elem_of_singleton. setoid_rewrite lookup_insert_Some. split.
    + intros [->|(p & d0 & Hp & Hx & Ha)%W4].
      * exists q, d. rewrite Hat, decide_True by done. split_and!; [by left|done..].
      * exists p, d0. split_and!; [right|by apply Hold|done]. split; [|done]. intros ->. by rewrite Hp in Hdi.
    + intros (p & d' & [[<- <-]|[Hd Hp]] & Hx & Ha); [by left|right].
      destruct (W1 _ _ Hp) as (_ & d0 & Hx' & _). rewrite (Hold _ _ Hx') in Hx. simplify_eq. apply W4. eauto.
Qed.

Lemma wf_add_dial_info kc s di : ps_wf s → ps_wf (add_dial_info kc s di).
Proof.
  intros Hwf. unfold add_dial_info. case_decide as Hne; [done|]. destruct (ps_peers s !! di) as [p|] eqn:Hdi; [done|].
  destruct (save_fields kc (alloc s (newPeerDetails di)).1 (length (ps_heap s))) as (H1 & H2 & H3 & H4).
  apply (wf_new_peer s _ di); unfold alloc in *; cbn -[savePeerDetails] in *; rewrite ?H1, ?H2, ?H3, ?H4; done.
Qed.

Lemma wf_AddDialInfos kc s l : ps_wf s → ps_wf (AddDialInfos kc s l).
Proof. unfold AddDialInfos. revert s. induction l as [|di l IH]; intros s Hs; simpl; [done|]. by apply IH, wf_add_dial_info. Qed.

(** ** Credentials *)

(** The details that are found are those of the peer, or new ones. *)
Lemma find_details_spec s di a s1 p :
  ps_wf s → find_details s di a = (s1, p) →
  ps_peers s1 = ps_peers s ∧ ps_withAddress s1 = ps_withAddress s ∧ ps_unverified s1 = ps_unverified s ∧
  (∀ q d, pd_at s q = Some d → pd_at s1 q = Some d) ∧
  (∀ q d, pd_at s1 q = Some d → q = p ∨ pd_at s q = Some d) ∧
  ∃ d, pd_at s1 p = Some d ∧ pd_dialInfo d = di ∧
    (∀ di' p', ps_peers s !! di' = Some p' → di' ≠ di → p' ≠ p) ∧
    (∀ a' di' p', by_address s a' di' = Some p' → di' ≠ di → p' ≠ p) ∧
    (∀ p', ps_peers s !! di = Some p' → p' = p) ∧
    (∀ b, b ∈ pd_addresses d → by_address s b di = Some p ∨ DialAddr di = []) ∧
    (∀ b p', by_address s b di = Some p' → DialAddr di ≠ [] → p' = p).
Proof.
  intros [W1 W2 W3 W4] Hf. unfold find_details in Hf. fold (by_address s a di) in Hf.
  assert (∀ p d, pd_at s p = Some d → pd_dialInfo d = di →
    (∀ di' p', ps_peers s !! di' = Some p' → di' ≠ di → p' ≠ p) ∧
    (∀ a' di' p', by_address s a' di' = Some p' → di' ≠ di → p' ≠ p)) as Hother.
  { intros p0 d Hp Hd. split.
    - intros di' p' (_ & d' & Hp' & Hd')%W1 Hne ->. congruence.
    - intros a' di' p' (_ & d' & Hp' & Hd' & _)%W2 Hne ->. congruence. }
  destruct (by_address s a di) as [q|] eqn:Hba; [|destruct (ps_peers s !! di) as [q|] eqn:Hdi].
  - injection Hf as <- <-. destruct (W2 _ _ _ Hba) as (Hq & d & Hd & Hdi & Ha).
    split_and!; [done..|eauto|eauto|]. exists d. destruct (Hother q d Hd Hdi) as [O1 O2]. split_and!; try done.
    + intros p' Hp'. destruct (W1 _ _ Hp') as [Hn _]. rewrite (Hq Hn) in Hp'. by simplify_eq.
    + intros b Hb. destruct (decide (DialAddr di = [])) as [|Hn]; [by right|left]. by apply (W3 di q d b (Hq Hn)).
    + intros b p' (Hp' & _)%W2 Hn. specialize (Hp' Hn). rewrite (Hq Hn) in Hp'. by simplify_eq.
  - injection Hf as <- <-. destruct (W1 _ _ Hdi) as (Hn & d & Hd & Hx).
    split_and!; [done..|eauto|eauto|]. exists d. destruct (Hother q d Hd Hx) as [O1 O2]. split_and!; try done.
    + intros p' Hp'. by simplify_eq.
    + intros b Hb. left. by apply (W3 di q d b).
    + intros b p' (Hp' & _)%W2 _. specialize (Hp' Hn). by simplify_eq.
  - assert (s1 = (alloc s (newPeerDetails di)).1 ∧ p = length (ps_heap s)) as [-> ->] by (unfold alloc in Hf |- *; by simplify_eq).
    split_and!; [done..| | |].
    + intros q d Hq. rewrite pd_at_alloc, decide_False; [done|]. by eapply pd_at_lt.
    + intros q d. rewrite pd_at_alloc. case_decide; [by left|by right].
    + exists (newPeerDetails di). rewrite pd_at_alloc, decide_True by done. split_and!; try done.
      * intros di' p' (_ & d' & Hp' & _)%W1 _. by eapply pd_at_lt.
      * intros a' di' p' (_ & d' & Hp' & _)%W2 _. by eapply pd_at_lt.
      * intros b p' (Hp' & _)%W2 Hn. specialize (Hp' Hn). by simplify_eq.
Qed.

Lemma by_address_with s a di p a' di' :
  by_address (with_address s a di p) a' di' = if decide (a' = a ∧ di' = di) then Some p else by_address s a' di'.
Proof.
  unfold by_address, with_address. simpl. destruct (decide (a' = a)) as [->|Ha].
  - rewrite lookup_insert_eq. simpl. destruct (decide (di' = di)) as [->|Hd].
    + by rewrite lookup_insert_eq, decide_True.
    + rewrite lookup_insert_ne, decide_False by naive_solver. by destruct (ps_withAddress s !! a).
  - by rewrite lookup_insert_ne, decide_False by naive_solver.
Qed.

(** What [AddVerifiedCredentials] leaves in memory: the details at [p], found as above, have
    the credentials; the two maps lead to them; the peer is not unverified. *)
Lemma AddVerifiedCredentials_fields kc s di a sk ek :
  ps_wf s → IsZero a = false →
  ∃ s' s1 p d, find_details s di a = (s1, p) ∧ pd_at s1 p = Some d ∧ AddVerifiedCredentials kc s di a sk ek = Ret s' ∧
    (∀ q, pd_at s' q = if decide (q = p) then Some (with_credentials d a sk ek) else pd_at s1 q) ∧
    ps_peers s' = (if decide (DialAddr di = []) then ps_peers s else <[di := p]> (ps_peers s)) ∧
    (∀ a' di', by_address s' a' di' = if decide (a' = a ∧ di' = di) then Some p else by_address s a' di') ∧
    ps_unverified s' = ps_unverified s ∖ {[di]}.
Proof.
  intros Hwf Ha. unfold AddVerifiedCredentials. rewrite Ha. destruct (find_details s di a) as [s1 p] eqn:Hfind.
  destruct (find_details_spec s di a s1 p Hwf Hfind) as (H2 & H3 & H4 & _ & _ & d & Hd & Hdi & _). rewrite Hd.
  eexists _, s1, p, d. do 3 (split; [done|]).
  match goal with |- context [savePeerDetails kc ?x p] => destruct (save_fields kc x p) as (F1 & F2 & F3 & F4); set (s2 := x) in * end.
  split_and!.
  - intros q. unfold pd_at. rewrite F1. fold (pd_at s2 q). rewrite <- (pd_at_set s1 p) by (by exists d).
    unfold s2. by case_decide.
  - rewrite F2. unfold s2. case_decide; simpl; by rewrite H2.
  - intros a' di'. transitivity (by_address (with_address s a di p) a' di'); [|apply by_address_with].
    unfold by_address. rewrite F3. unfold s2. case_decide; simpl; by rewrite H3.
  - rewrite F4. unfold s2. case_decide; simpl; by rewrite H4, Hdi.
Qed.

Lemma wf_AddVerifiedCredentials kc s di a sk ek s' :
  ps_wf s → AddVerifiedCredentials kc s di a sk ek = Ret s' → ps_wf s'.
Proof.
  intros Hwf Hadd. destruct (IsZero a) eqn:Hz; [unfold AddVerifiedCredentials in Hadd; by rewrite Hz in Hadd|].
  destruct (AddVerifiedCredentials_fields kc s di a sk ek Hwf Hz) as (s2 & s1 & p & d & Hfind & Hd & Hadd' & Hat & Hp & Hba & Hu).
  rewrite Hadd in Hadd'. simplify_eq.
  destruct (find_details_spec s di a s1 p Hwf Hfind) as (_ & _ & _ & Hold & _ & d' & Hd' & Hdi & O1 & O2 & O3 & O4 & O5).
  simplify_eq. destruct Hwf as [W1 W2 W3 W4].
  assert (∀ q x, pd_at s q = Some x → q ≠ p → pd_at s2 q = Some x) as Hkeep.
  { intros q x Hq Hne. rewrite Hat, decide_False by done. by apply Hold. }
  assert (∀ di0 p0, ps_peers s2 !! di0 = Some p0 →
    (di0 = pd_dialInfo d ∧ p0 = p ∧ DialAddr di0 ≠ []) ∨ (ps_peers s !! di0 = Some p0 ∧ di0 ≠ pd_dialInfo d)) as Hpeers.
  { intros di0 p0. rewrite Hp. case_decide as Hn.
    - intros Hx. right. split; [done|]. intros ->. by destruct (W1 _ _ Hx).
    - rewrite lookup_insert_Some. naive_solver. }
  assert (∀ di0 p0, ps_peers s !! di0 = Some p0 → di0 ≠ pd_dialInfo d → ps_peers s2 !! di0 = Some p0) as Hpeers'.
  { intros di0 p0 Hx Hne. rewrite Hp. case_decide; [done|]. by rewrite lookup_insert_ne. }
  split.
  - intros di0 p0 [(-> & -> & Hn)|[Hx Hne]]%Hpeers.
    + split; [done|]. eexists. by rewrite Hat, decide_True.
    + destruct (W1 _ _ Hx) as (Hn & x & Hq & Hy). split; [done|]. exists x. split; [|done]. apply Hkeep; [done|]. by eapply O1.
  - intros a0 di0 p0. rewrite Hba. destruct (decide (a0 = a ∧ di0 = pd_dialInfo d)) as [[-> ->]|Hc].
    + intros [= <-]. split.
      * intros Hn. rewrite Hp, decide_False by done. apply lookup_insert_eq.
      * eexists. rewrite Hat, decide_True by done. split_and!; [done..|]. set_solver.
    + intros Hx. destruct (W2 _ _ _ Hx) as (Hpe & x & Hq & Hy & Hin). destruct (decide (di0 = pd_dialInfo d)) as [->|Hne].
      * split.
        -- intros Hn. rewrite (O5 _ _ Hx Hn), Hp, decide_False by done. apply lookup_insert_eq.
        -- destruct (decide (p0 = p)) as [->|Hpp]; [|exists x; split_and!; [by apply Hkeep|done..]].
           eexists. rewrite Hat, decide_True by done. split_and!; [done..|]. apply Hold in Hq. simplify_eq. set_solver.
      * split; [intros Hn; apply Hpeers'; [by apply Hpe|done]|]. exists x. split_and!; [|done..]. apply Hkeep; [done|]. by eapply O2.
  - intros di0 p0 d0 a0 [(-> & -> & Hn)|[Hx Hne]]%Hpeers Hq Hin; rewrite Hba.
    + rewrite Hat, decide_True in Hq by done. simplify_eq. destruct (decide (a0 = a ∧ pd_dialInfo d = pd_dialInfo d)) as [|Hc]; [done|].
      set_unfold in Hin. destruct Hin as [->|Hin]; [naive_solver|]. destruct (O4 _ Hin); [done|naive_solver].
    + rewrite decide_False by naive_solver. destruct (W1 _ _ Hx) as (_ & x & Hq' & _).
      rewrite (Hkeep _ _ Hq') in Hq by (by eapply O1). simplify_eq. by eapply W3.
  - intros di0. rewrite Hu, elem_of_difference, elem_of_singleton, W4. split.
    + intros [(p0 & x & Hx & Hq & Hem) Hne]. exists p0, x. split_and!; [by apply Hpeers'| |done]. apply Hkeep; [done|]. by eapply O1.
    + intros (p0 & x & [(-> & -> & Hn)|[Hx Hne]]%Hpeers & Hq & Hem).
      * rewrite Hat, decide_True in Hq by done. simplify_eq. simpl in Hem. set_solver.
      * split; [|done]. destruct (W1 _ _ Hx) as (_ & y & Hq' & _).
        rewrite (Hkeep _ _ Hq') in Hq by (by eapply O1). simplify_eq. eauto.
Qed.

(** ** Reachable stores *)

Inductive ps_step (kc : bytes → bytes) : peerStore → peerStore → Prop :=
  | step_AddDialInfos s l : ps_step kc s (AddDialInfos kc s l)
  | step_AddVerifiedCredentials s di a sk ek s' : AddVerifiedCredentials kc s di a sk ek = Ret s' → ps_step kc s s'
  | step_AddStateURI s p uri : ps_step kc s (AddStateURI kc s p uri)
  | step_RemoveStateURI s p uri : ps_step kc s (RemoveStateURI kc s p uri)
  | step_UpdateConnStats s p now success : ps_step kc s (UpdateConnStats kc s p now success).

Lemma wf_step kc s s' : ps_wf s → ps_step kc s s' → ps_wf s'.
Proof.
  intros Hwf Hs. revert Hwf. destruct Hs; intros Hwf; [by apply wf_AddDialInfos|by eapply wf_AddVerifiedCredentials|by apply wf_update..].
Qed.

Lemma wf_reachable kc s : rtc (ps_step kc) (empty_store ∅) s → ps_wf s.
Proof.
  intros Hr. assert (ps_wf (empty_store ∅)) as Hwf by apply wf_empty. revert Hwf.
  induction Hr as [|s s1 s2 Hs _ IH]; [done|]. intros Hwf. by eapply IH, wf_step.
Qed.

Lemma elem_of_PeersWithAddress s a p : p ∈ PeersWithAddress s a ↔ ∃ di, by_address s a di = Some p.
Proof.
  unfold PeersWithAddress, by_address. destruct (ps_withAddress s !! a) as [m|]; simpl.
  - rewrite list_elem_of_fmap. split.
    + intros ([di q] & -> & Hq%elem_of_map_to_list). by exists di.
    + intros [di Hdi]. exists (di, p). split; [done|]. by apply elem_of_map_to_list.
  - split; [by intros ?%elem_of_nil|by intros [? ?]].
Qed.

Lemma elem_of_UnverifiedPeers s o : o ∈ UnverifiedPeers s ↔ ∃ di, di ∈ ps_unverified s ∧ o = ps_peers s !! di.
Proof. unfold UnverifiedPeers. rewrite list_elem_of_fmap. setoid_rewrite elem_of_elements. naive_solver. Qed.

(** ** Theorems *)

(** C23: The views of the peer store agree in every reachable state: [UnverifiedPeers] has no
    [nil] in it and is exactly the known peers without an address; a peer that is found by
    its dial info has that dial info and is found under each of its addresses; and a peer
    found under an address has proved that address. *)
Theorem peerstore_views_agree kc s :
  rtc (ps_step kc) (empty_store ∅) s →
  (∀ o, o ∈ UnverifiedPeers s ↔
     ∃ p d, o = Some p ∧ pd_at s p = Some d ∧ pd_addresses d = ∅ ∧ PeerWithDialInfo s (pd_dialInfo d) = Some p) ∧
  (∀ di p, PeerWithDialInfo s di = Some p →
     ∃ d, pd_at s p = Some d ∧ pd_dialInfo d = di ∧ ∀ a, a ∈ pd_addresses d → p ∈ PeersWithAddress s a) ∧
  (∀ a p, p ∈ PeersWithAddress s a → ∃ d, pd_at s p = Some d ∧ a ∈ pd_addresses d).
Proof.
  intros Hr. destruct (wf_reachable kc s Hr) as [W1 W2 W3 W4]. unfold PeerWithDialInfo. split_and!.
  - intros o. rewrite elem_of_UnverifiedPeers. split.
    + intros (di & (p & d & Hp & Hd & Ha)%W4 & ->). destruct (W1 _ _ Hp) as (Hn & d' & Hd' & Hdi). rewrite Hd in Hd'. injection Hd' as <-.
      exists p, d. split_and!; [done..|]. by rewrite Hdi, decide_False.
    + intros (p & d & -> & Hd & Ha & Hp). case_decide as Hn; [done|]. exists (pd_dialInfo d). split; [|done]. apply W4. eauto.
  - intros di p Hp. case_decide as Hn; [done|]. destruct (W1 _ _ Hp) as (_ & d & Hd & Hdi). exists d. split_and!; [done..|].
    intros a Ha. apply elem_of_PeersWithAddress. exists di. by eapply W3.
  - intros a p [di Hb]%elem_of_PeersWithAddress. destruct (W2 _ _ _ Hb) as (_ & d & Hd & _ & Ha). by exists d.
Qed.

(** What proving an address changes: the peer is found under its dial info and under the
    address, with its credentials, and is not unverified any more; no other peer changes.
    The zero address stops the program. *)
Theorem peerstore_verified kc s di a sk ek :
  rtc (ps_step kc) (empty_store ∅) s → DialAddr di ≠ [] →
  (IsZero a = true → AddVerifiedCredentials kc s di a sk ek = Panic) ∧
  (IsZero a = false → ∃ s' p d,
     AddVerifiedCredentials kc s di a sk ek = Ret s' ∧ PeerWithDialInfo s' di = Some p ∧ pd_at s' p = Some d ∧
     a ∈ pd_addresses d ∧ (is_Some sk → pd_sigpubkeys d !! a = sk) ∧ (is_Some ek → pd_encpubkeys d !! a = ek) ∧
     p ∈ PeersWithAddress s' a ∧ Some p ∉ UnverifiedPeers s' ∧
     ∀ di' q, di' ≠ di → PeerWithDialInfo s di' = Some q → PeerWithDialInfo s' di' = Some q ∧ pd_at s' q = pd_at s q).
Proof.
  intros Hr Hn. pose proof (wf_reachable kc s Hr) as Hwf. split; [intros Hz; unfold AddVerifiedCredentials; by rewrite Hz|].
  intros Hz. destruct (AddVerifiedCredentials_fields kc s di a sk ek Hwf Hz) as (s' & s1 & p & d & Hfind & Hd & Hadd & Hat & Hp & Hba & Hu).
  destruct (find_details_spec s di a s1 p Hwf Hfind) as (_ & _ & _ & Hold & _ & d' & Hd' & Hdi & O1 & _).
  rewrite decide_False in Hp by done. simplify_eq.
  pose proof (wf_AddVerifiedCredentials _ _ _ _ _ _ _ Hwf Hadd) as Hwf'.
  assert (pd_at s' p = Some (with_credentials d a sk ek)) as Hp' by (by rewrite Hat, decide_True).
  exists s', p, (with_credentials d a sk ek). unfold PeerWithDialInfo. rewrite !decide_False by done. split_and!; try done.
  - rewrite Hp. apply lookup_insert_eq.
  - simpl. set_solver.
  - intros [k ->]. apply lookup_insert_eq.
  - intros [k ->]. apply lookup_insert_eq.
  - apply elem_of_PeersWithAddress. exists (pd_dialInfo d). by rewrite Hba, decide_True.
  - intros (di' & (q & x & Hq & Hx & Hem)%(wf_unverified s' Hwf') & Heq)%elem_of_UnverifiedPeers.
    rewrite Hq in Heq. simplify_eq. simpl in Hem. set_solver.
  - intros di' q Hne Hq. case_decide as Hn'; [done|]. rewrite Hp, lookup_insert_ne by done. split; [done|].
    destruct (wf_peers s Hwf _ _ Hq) as (_ & x & Hx & _). rewrite Hat, decide_False by (by eapply O1). rewrite Hx. by apply Hold.
Qed.

(** The back-off of a peer: with a clock that runs forward from the last failure (and less
    than 292 years), a peer is ready exactly when as many seconds have passed as it had
    failures in a row; a peer that never failed is ready; and a clock that was set back by a
    second or more makes it ready at once. *)
Theorem peer_ready pd now :
  (0 ≤ pd_failures pd < 2 ^ 63)%Z →
  ((0 ≤ now - pd_lastFailure pd < 2 ^ 63)%Z → Ready pd now = true ↔ (pd_failures pd * nanos ≤ now - pd_lastFailure pd)%Z) ∧
  ((0 ≤ now)%Z → Ready (newPeerDetails (pd_dialInfo pd)) now = true) ∧
  ((nanos ≤ pd_lastFailure pd - now)%Z → Ready pd now = true).
Proof.
  intros Hf. unfold Ready, time_Sub. rewrite !bool_decide_eq_true. split_and!.
  - intros Hd. rewrite Z.min_r, Z.max_r by lia. rewrite Z.quot_div_nonneg by (unfold nanos; lia).
    rewrite Z.mod_small by (split; [apply Z.div_pos; unfold nanos; lia|apply Z.div_lt_upper_bound; unfold nanos; lia]).
    split; intros H.
    + etrans; [apply Z.mul_le_mono_nonneg_r; [unfold nanos; lia|exact H]|]. rewrite Z.mul_comm. apply Z.mul_div_le. unfold nanos. lia.
    + apply Z.div_le_lower_bound; unfold nanos in *; lia.
  - intros Hn. simpl. apply Z.mod_pos_bound. lia.
  - intros Hd. set (x := Z.max _ _). assert (- 2 ^ 63 ≤ x ≤ - nanos)%Z as Hx by (unfold x, nanos in *; lia).
    assert (Z.quot x nanos = - ((- x) `div` nanos))%Z as ->.
    { rewrite <- (Z.opp_involutive x) at 1. rewrite Z.quot_opp_l by done. by rewrite Z.quot_div_nonneg by (unfold nanos in *; lia). }
    assert (1 ≤ (- x) `div` nanos)%Z as H1 by (apply Z.div_le_lower_bound; unfold nanos in *; lia).
    assert ((- x) `div` nanos ≤ 2 ^ 62)%Z as H2 by (apply Z.div_le_upper_bound; unfold nanos in *; lia).
    rewrite <- (Z_mod_plus_full _ 1), Z.mod_small; lia.
Qed.

(** ** Saving and loading *)

Lemma fold_keys (check : bytes → outcome bytes) (l : list (Address * bytes)) m :
  Forall (λ kv, length kv.1 = address_length ∧ check kv.2 = Ret kv.2) l →
  fold_outcome (λ m kv, let! addr := AddressFromHex kv.1 in let! key := check kv.2 in Ret (<[addr := key]> m)) m
    ((λ kv, (Address_Hex kv.1, kv.2)) <$> l) = Ret (foldl (λ m kv, <[kv.1 := kv.2]> m) m l : gmap Address bytes).
Proof.
  intros Hl. revert m. induction Hl as [|[a k] l [Ha Hk] _ IH]; intros m; [done|]. rewrite fmap_cons. cbn [fold_outcome fst snd].
  unfold AddressFromHex at 1, Address_Hex at 1. simpl in Ha. rewrite array_from_hex by done. cbn [obind]. simpl in Hk. rewrite Hk. cbn [obind].
  by rewrite IH.
Qed.

Lemma foldl_insert (l : list (Address * bytes)) (m : gmap Address bytes) :
  NoDup l.*1 → foldl (λ m kv, <[kv.1 := kv.2]> m) m l = list_to_map l ∪ m.
Proof.
  revert m. induction l as [|[a k] l IH]; intros m; simpl; [by rewrite map_empty_union|].
  intros [Ha Hl]%NoDup_cons. rewrite IH by done. rewrite insert_union_singleton_l.
  rewrite (insert_union_singleton_l (list_to_map l)), <- map_union_assoc, (map_union_assoc (list_to_map l)).
  rewrite (map_union_comm (list_to_map l) {[a := k]}); [by rewrite <- map_union_assoc|].
  apply map_disjoint_singleton_r. by apply not_elem_of_list_to_map_1.
Qed.

Lemma read_hex_keys (check : bytes → outcome bytes) (m : gmap Address bytes) :
  map_Forall (λ a k, length a = address_length ∧ check k = Ret k) m → read_keys check (hex_keys m) = Ret m.
Proof.
  intros Hm. unfold read_keys, hex_keys. rewrite fold_keys.
  - rewrite foldl_insert by apply NoDup_fst_map_to_list. by rewrite map_union_empty, list_to_map_to_list.
  - apply Forall_forall. intros [a k] Hin%elem_of_map_to_list. by apply (Hm a k).
Qed.

Lemma time_seconds t : (- 2 ^ 63 ≤ t `div` nanos < 2 ^ 63)%Z → time_of_u64 (unix_u64 t) = (t `div` nanos * nanos)%Z.
Proof.
  intros Ht. unfold time_of_u64, unix_u64. set (n := (t `div` nanos)%Z) in *. destruct (decide (0 ≤ n)%Z) as [Hn|Hn].
  - rewrite Z.mod_small by lia. by rewrite decide_True by lia.
  - assert (n `mod` 2 ^ 64 = n + 2 ^ 64)%Z as -> by (rewrite <- (Z_mod_plus_full n 1), Z.mod_small; lia).
    rewrite decide_False by lia. f_equal. lia.
Qed.

(** The details of a peer survive a restart: what is saved is read back with the same dial
    info, addresses, keys, state URIs and failures; the two times are cut to whole seconds. *)
Theorem peer_codec_roundtrip (check : bytes → outcome bytes) pd :
  map_Forall (λ a k, length a = address_length ∧ check k = Ret k) (pd_sigpubkeys pd) →
  map_Forall (λ a _, length a = address_length) (pd_encpubkeys pd) →
  (- 2 ^ 63 ≤ pd_lastContact pd `div` nanos < 2 ^ 63)%Z → (- 2 ^ 63 ≤ pd_lastFailure pd `div` nanos < 2 ^ 63)%Z →
  peerDetailsCodecToPeerDetails check (to_codec pd) =
    Ret (mkPeerDetails (pd_dialInfo pd) (pd_addresses pd) (pd_sigpubkeys pd) (pd_encpubkeys pd) (pd_stateURIs pd)
           (pd_lastContact pd `div` nanos * nanos) (pd_lastFailure pd `div` nanos * nanos) (pd_failures pd)).
Proof.
  intros Hs He Hc Hf. unfold peerDetailsCodecToPeerDetails, to_codec. cbn [pc_Sigpubkeys pc_Encpubkeys].
  rewrite (read_hex_keys check) by done. cbn [obind]. rewrite (read_hex_keys Ret).
  - cbn. by rewrite !time_seconds.
  - eapply map_Forall_impl; [exact He|]. by intros a k Ha.
Qed.

(** ** Examples *)

Definition di_http : PeerDialInfo := mkDialInfo (str "http") (str "localhost:8080").
Definition di_p2p : PeerDialInfo := mkDialInfo (str "libp2p") (str "Qm").
Definition addr_one : Address := array_from address_length (str "one").
Definition known_store : peerStore := AddDialInfos id (empty_store ∅) [di_http; di_p2p; di_http].
Definition verified_store : peerStore :=
  match AddVerifiedCredentials id known_store di_http addr_one (Some (str "key")) None with Ret s => s | _ => known_store end.

Lemma verified_reachable : rtc (ps_step id) (empty_store ∅) verified_store.
Proof.
  apply (rtc_l _ _ known_store); [apply step_AddDialInfos|]. apply rtc_once.
  apply (step_AddVerifiedCredentials id known_store di_http addr_one (Some (str "key")) None). reflexivity.
Qed.

Lemma peerstore_views_agree_witness : ∃ p, Some p ∈ UnverifiedPeers verified_store ∧ p ∉ PeersWithAddress verified_store addr_one.
Proof.
  destruct (peerstore_views_agree id verified_store verified_reachable) as (Hu & _ & Ha). exists 1. split.
  - apply Hu. exists 1, (newPeerDetails di_p2p). split_and!; reflexivity.
  - intros (d & Hd & Hin)%Ha. assert (d = newPeerDetails di_p2p) as -> by (vm_compute in Hd |- *; congruence). exact (not_elem_of_empty _ Hin).
Defined.

Definition failing_peer : peerDetails := conn_stats (conn_stats (newPeerDetails di_http) nanos false) (5 * nanos) false.

Lemma peer_ready_witness : Ready failing_peer (7 * nanos) = true ∧ Ready failing_peer (6 * nanos) = false.
Proof.
  assert (0 ≤ pd_failures failing_peer < 2 ^ 63)%Z as Hf by (vm_compute; split; congruence).
  destruct (peer_ready failing_peer (7 * nanos) Hf) as [H7 _], (peer_ready failing_peer (6 * nanos) Hf) as [H6 _]. split.
  - apply H7; vm_compute; [split|]; congruence.
  - apply not_true_iff_false. rewrite H6; vm_compute; [|split; congruence]. intros H. by apply H.
Defined.

Lemma peer_codec_roundtrip_witness :
  ∃ pd, peerDetailsCodecToPeerDetails Ret (to_codec failing_peer) = Ret pd ∧ pd_failures pd = 2%Z ∧ pd_lastFailure pd = (5 * nanos)%Z.
Proof.
  eexists. split; [apply (peer_codec_roundtrip Ret failing_peer)|].
  - apply map_Forall_empty.
  - apply map_Forall_empty.
  - vm_compute. split; congruence.
  - vm_compute. split; congruence.
  - split; reflexivity.
Defined.
