(* ===== verification/KeyStore.v ===== *)
(** * Identities ([identity/keystore.badger.go], [crypto/box.go])

    A user has one mnemonic; identity [i] is the signing key derived from it with index [i]
    and an encrypting key of its own.  The key store holds the unlocked user in memory and
    saves it encrypted with the password.

    The derivation of keys, the elliptic curve, NaCl's box and the encryption of the saved
    user belong to other packages: [Derivation], [Box] and [UserCodec] are what the code uses
    of them.  Fresh keys, mnemonics and nonces are arguments.  Reading and writing the state
    tree is the subject of [DBNode]: here the tree holds the encrypted user ([ks_db]).  The
    load and save callbacks, and the extra data they manage, are left out. *)

From S2P Require Import Prelude Types Keypath TreeTypes GoValue Tx.

Record SigningKeypair := mkSigning { sk_private : bytes; sk_Address : Address }.
Record EncryptingKeypair := mkEncrypting { ek_private : bytes; ek_public : bytes }.

Record Identity := mkIdentity { id_Public : bool; id_Signing : SigningKeypair; id_Encrypting : EncryptingKeypair }.
#[export] Instance signing_eq_dec : EqDecision SigningKeypair.
Proof. solve_decision. Defined.
#[export] Instance encrypting_eq_dec : EqDecision EncryptingKeypair.
Proof. solve_decision. Defined.
#[export] Instance Identity_eq_dec : EqDecision Identity.
Proof. solve_decision. Defined.
Definition Identity_Address (i : Identity) : Address := sk_Address (id_Signing i).

Class Derivation := {
  SigningKeypairFromHDMnemonic : bytes → nat → outcome SigningKeypair;
  sign_hash : bytes → Hash → outcome bytes
}.

Record encryptedBadgerUser := mkEncryptedUser {
  eu_Mnemonic : bytes;
  eu_NumIdentities : nat;
  eu_PublicIdentities : gset nat;
  eu_EncryptingKeys : gmap nat EncryptingKeypair;
  eu_Local : EncryptingKeypair
}.

(** [json] and [keystore.EncryptDataV3] together, and the way back. *)
Class UserCodec := {
  EncryptUser : encryptedBadgerUser → bytes → outcome bytes;
  DecryptUser : bytes → bytes → outcome encryptedBadgerUser
}.
Class UserCodecLaws `{UserCodec} : Prop := {
  decrypt_encrypt u password : ∃ bs, EncryptUser u password = Ret bs ∧ DecryptUser bs password = Ret u
}.

Definition ErrNoUser : error := ErrOther "no user in DB".
Definition ErrLocked : error := ErrOther "keystore is locked".
Definition ErrAccountDoesNotExist : error := ErrOther "account does not exist".

Record badgerUser := mkUser {
  u_Password : bytes;
  u_Mnemonic : bytes;
  u_Identities : list Identity;
  u_PublicIdentities : gset nat;
  u_AddressesToIndices : gmap Address nat;
  u_Local : EncryptingKeypair
}.

Record BadgerKeyStore := mkKeyStore { ks_db : option bytes; ks_unlockedUser : option badgerUser }.

(** ** Box ([crypto/box.go]) *)

Definition ENCRYPTING_KEY_LENGTH : nat := 32.
Definition ENCRYPTING_NONCE_LENGTH : nat := 24.
Definition ErrCannotDecrypt : error := ErrOther "cannot decrypt".

(** [box.Precompute] and [SealAfterPrecomputation], [OpenAfterPrecomputation]: nonce,
    message, the other side's public key, the own private key. *)
Class Box := {
  box_seal : bytes → bytes → bytes → bytes → bytes;
  box_open : bytes → bytes → bytes → bytes → option bytes;
  box_public : bytes → bytes
}.
Class BoxLaws `{Box} : Prop := {
  box_roundtrip nonce m a b : box_open nonce (box_seal nonce m (box_public b) a) (box_public a) b = Some m
}.

Definition EncryptingPublicKeyFromBytes (bs : bytes) : bytes := array_from ENCRYPTING_KEY_LENGTH bs.
Definition EncryptingPrivateKeyFromBytes (bs : bytes) : bytes := array_from ENCRYPTING_KEY_LENGTH bs.

(** A [nil] key fails the type assertion. *)
Definition seal_message `{Box} (privkey : bytes) (recipientPubKey : option bytes) (nonce msg : bytes) : outcome bytes :=
  match recipientPubKey with
  | None => Panic
  | Some key => Ret (nonce ++ box_seal nonce msg key privkey)
  end.

Definition open_message `{Box} (privkey : bytes) (senderPublicKey : option bytes) (msgEncrypted : bytes) : outcome bytes :=
  match senderPublicKey with
  | None => Panic
  | Some key =>
      let! nonce := slice msgEncrypted 0 (Z.of_nat ENCRYPTING_NONCE_LENGTH) in
      match box_open nonce (drop ENCRYPTING_NONCE_LENGTH msgEncrypted) key privkey with
      | Some m => Ret m
      | None => Err ErrCannotDecrypt
      end
  end.

(** ** The key store *)

Section KeyStore.
Context `{Derivation} `{UserCodec} `{Box}.

Definition to_encrypted (user : badgerUser) : encryptedBadgerUser :=
  mkEncryptedUser (u_Mnemonic user) (length (u_Identities user))
    (list_to_set (fst <$> filter (λ p, id_Public p.2 = true) (imap pair (u_Identities user))))
    (list_to_map (imap (λ i x, (i, id_Encrypting x)) (u_Identities user))) (u_Local user).

Definition saveUser (ks : BadgerKeyStore) (user : badgerUser) (password : bytes) : outcome BadgerKeyStore :=
  let! cryptoJSON := EncryptUser (to_encrypted user) password in
  Ret (mkKeyStore (Some cryptoJSON) (ks_unlockedUser ks)).

Definition zero_keypair : EncryptingKeypair := mkEncrypting [] [].

(** Identity [i] of a saved user. *)
Definition load_identity (eu : encryptedBadgerUser) (i : nat) : outcome Identity :=
  let! sigkeys := SigningKeypairFromHDMnemonic (eu_Mnemonic eu) i in
  let enc := default zero_keypair (eu_EncryptingKeys eu !! i) in
  Ret (mkIdentity (bool_decide (i ∈ eu_PublicIdentities eu)) sigkeys
         (mkEncrypting (EncryptingPrivateKeyFromBytes (ek_private enc)) (EncryptingPublicKeyFromBytes (ek_public enc)))).

Definition index_addresses (ids : list Identity) : gmap Address nat :=
  foldl (λ m p, <[Identity_Address p.2 := p.1]> m) ∅ (imap pair ids).

Definition loadUser (ks : BadgerKeyStore) (password : bytes) : outcome badgerUser :=
  match ks_db ks with
  | None => Err ErrNoUser
  | Some cryptoJSON =>
      let! eu := DecryptUser cryptoJSON password in
      let! identities := map_outcome (load_identity eu) (seq 0 (eu_NumIdentities eu)) in
      Ret (mkUser password (eu_Mnemonic eu) identities
             (list_to_set (filter (λ i, i ∈ eu_PublicIdentities eu) (seq 0 (eu_NumIdentities eu))))
             (index_addresses identities)
             (mkEncrypting (EncryptingPrivateKeyFromBytes (ek_private (eu_Local eu)))
                (EncryptingPublicKeyFromBytes (ek_public (eu_Local eu)))))
  end.

(** The mnemonic and the two key pairs are those that are made when there is no user yet. *)
Definition Unlock (ks : BadgerKeyStore) (password mnemonic : bytes) (enckeys localEnckeys : EncryptingKeypair) : outcome BadgerKeyStore :=
  match loadUser ks password with
  | Ret user =>
      let ks := mkKeyStore (ks_db ks) (Some user) in
      saveUser ks user password
  | Err e =>
      if decide (e = ErrNoUser) then
        let! sigkeys := SigningKeypairFromHDMnemonic mnemonic 0 in
        let user := mkUser password mnemonic [mkIdentity true sigkeys enckeys] {[0]} {[sk_Address sigkeys := 0]} localEnckeys in
        let ks := mkKeyStore (ks_db ks) (Some user) in
        saveUser ks user password
      else Err e
  | Panic => Panic
  | Running => Running
  end.

Definition unlocked (ks : BadgerKeyStore) : outcome badgerUser := of_option ErrLocked (ks_unlockedUser ks).

Definition Identities (ks : BadgerKeyStore) : outcome (list Identity) :=
  let! user := unlocked ks in Ret (u_Identities user).

Definition at_index (ids : list Identity) (i : nat) : outcome Identity :=
  match ids !! i with Some x => Ret x | None => Panic end.

(** [range idxs] runs over the positions of the sorted slice, not over its elements. *)
Definition PublicIdentities (ks : BadgerKeyStore) : outcome (list Identity) :=
  let! user := unlocked ks in
  let idxs := merge_sort (≤) (elements (u_PublicIdentities user)) in
  map_outcome (at_index (u_Identities user)) (seq 0 (length idxs)).

Definition DefaultPublicIdentity (ks : BadgerKeyStore) : outcome Identity :=
  let! publicIdentities := PublicIdentities ks in
  match publicIdentities with [] => Err ErrAccountDoesNotExist | i :: _ => Ret i end.

(** [uint32(len - 1)] is the largest index, or the largest integer for an empty slice. *)
Definition IdentityWithAddress (ks : BadgerKeyStore) (address : Address) : outcome Identity :=
  let! user := unlocked ks in
  match u_AddressesToIndices user !! address with
  | None => Err ErrAccountDoesNotExist
  | Some idx =>
      if decide ((Z.of_nat (length (u_Identities user)) - 1) `mod` 2 ^ 32 < Z.of_nat idx)%Z then Err ErrAccountDoesNotExist
      else at_index (u_Identities user) idx
  end.

Definition IdentityExists (ks : BadgerKeyStore) (address : Address) : outcome bool :=
  match IdentityWithAddress ks address with
  | Ret _ => Ret true
  | Err e => if decide (e = ErrAccountDoesNotExist) then Ret false else Err e
  | Panic => Panic
  | Running => Running
  end.

Definition add_identity (user : badgerUser) (identity : Identity) : badgerUser :=
  let n := length (u_Identities user) in
  mkUser (u_Password user) (u_Mnemonic user) (u_Identities user ++ [identity])
    (if id_Public identity then {[n]} ∪ u_PublicIdentities user else u_PublicIdentities user)
    (<[Identity_Address identity := n]> (u_AddressesToIndices user)) (u_Local user).

(** The key store afterwards (in which the identity stays when saving fails), and the result. *)
Definition NewIdentity (ks : BadgerKeyStore) (public : bool) (enckeys : EncryptingKeypair) : outcome (BadgerKeyStore * (Identity + error)) :=
  match ks_unlockedUser ks with
  | None => Ret (ks, inr ErrLocked)
  | Some user =>
      match SigningKeypairFromHDMnemonic (u_Mnemonic user) (length (u_Identities user)) with
      | Ret sigkeys =>
          let identity := mkIdentity public sigkeys enckeys in
          let user := add_identity user identity in
          let ks := mkKeyStore (ks_db ks) (Some user) in
          match saveUser ks user (u_Password user) with
          | Ret ks => Ret (ks, inl identity)
          | Err e => Ret (ks, inr e)
          | Panic => Panic
          | Running => Running
          end
      | Err e => Ret (ks, inr e)
      | Panic => Panic
      | Running => Running
      end
  end.

Definition SignHash (ks : BadgerKeyStore) (usingIdentity : Address) (data : Hash) : outcome bytes :=
  let! identity := IdentityWithAddress ks usingIdentity in sign_hash (sk_private (id_Signing identity)) data.

Definition SealMessageFor (ks : BadgerKeyStore) (usingIdentity : Address) (recipientPubKey : option bytes) (nonce msg : bytes) : outcome bytes :=
  let! identity := IdentityWithAddress ks usingIdentity in
  seal_message (ek_private (id_Encrypting identity)) recipientPubKey nonce msg.

Definition OpenMessageFrom (ks : BadgerKeyStore) (usingIdentity : Address) (senderPublicKey : option bytes) (msgEncrypted : bytes) : outcome bytes :=
  let! identity := IdentityWithAddress ks usingIdentity in
  open_message (ek_private (id_Encrypting identity)) senderPublicKey msgEncrypted.
End KeyStore.

(** A wrong password is noticed. *)
Class UserCodecSafe `{UserCodec} : Prop := {
  decrypt_wrong u password password' bs : EncryptUser u password = Ret bs → password' ≠ password →
    ∃ e, DecryptUser bs password' = Err e ∧ e ≠ ErrNoUser
}.

(** ** The invariant *)

Section Invariant.
Context `{HD : Derivation} `{UC : UserCodecLaws} `{!UserCodecSafe}.

Definition key_sized (k : EncryptingKeypair) : Prop :=
  length (ek_private k) = ENCRYPTING_KEY_LENGTH ∧ length (ek_public k) = ENCRYPTING_KEY_LENGTH.

Record user_wf (u : badgerUser) : Prop := {
  uw_derived i x : u_Identities u !! i = Some x → SigningKeypairFromHDMnemonic (u_Mnemonic u) i = Ret (id_Signing x);
  uw_keys : Forall (λ x, key_sized (id_Encrypting x)) (u_Identities u);
  uw_local : key_sized (u_Local u);
  uw_public i : i ∈ u_PublicIdentities u ↔ ∃ x, u_Identities u !! i = Some x ∧ id_Public x = true;
  uw_index : u_AddressesToIndices u = index_addresses (u_Identities u)
}.

(** The user in memory is the one that is saved. *)
Record ks_wf (ks : BadgerKeyStore) : Prop := {
  kw_saved bs : ks_db ks = Some bs →
    ∃ u, user_wf u ∧ EncryptUser (to_encrypted u) (u_Password u) = Ret bs ∧ DecryptUser bs (u_Password u) = Ret (to_encrypted u) ∧
         ∀ u', ks_unlockedUser ks = Some u' → u' = u;
  kw_unlocked u : ks_unlockedUser ks = Some u → is_Some (ks_db ks)
}.

Inductive ks_step : BadgerKeyStore → BadgerKeyStore → Prop :=
  | step_Unlock ks password mnemonic enckeys localEnckeys ks' :
      key_sized enckeys → key_sized localEnckeys →
      Unlock ks password mnemonic enckeys localEnckeys = Ret ks' → ks_step ks ks'
  | step_NewIdentity ks public enckeys ks' r :
      key_sized enckeys → NewIdentity ks public enckeys = Ret (ks', r) → ks_step ks ks'
  | step_restart ks : ks_step ks (mkKeyStore (ks_db ks) None).

Lemma elem_of_to_encrypted u i : i ∈ eu_PublicIdentities (to_encrypted u) ↔ ∃ x, u_Identities u !! i = Some x ∧ id_Public x = true.
Proof.
  simpl. rewrite elem_of_list_to_set, list_elem_of_fmap. split.
  - intros ([j x] & -> & [Hp Hin]%list_elem_of_filter). simpl in *. apply list_elem_of_lookup in Hin as [k Hk].
    rewrite list_lookup_imap in Hk. destruct (u_Identities u !! k) eqn:Hx; simplify_eq/=. by exists x.
  - intros (x & Hx & Hp). exists (i, x). split; [done|]. apply list_elem_of_filter. split; [done|].
    apply list_elem_of_lookup. exists i. by rewrite list_lookup_imap, Hx.
Qed.

Lemma imap_pair_keys {A B} (f : A → B) (l : list A) : (imap (λ i x, (i, f x)) l).*1 = seq 0 (length l).
Proof.
  apply list_eq. intros i. rewrite list_lookup_fmap, list_lookup_imap.
  destruct (l !! i) eqn:Hi; simpl.
  - symmetry. apply lookup_seq_lt. by eapply lookup_lt_Some.
  - symmetry. apply lookup_seq_ge. by apply lookup_ge_None_1.
Qed.

Lemma lookup_encrypting_keys u i : eu_EncryptingKeys (to_encrypted u) !! i = id_Encrypting <$> (u_Identities u !! i).
Proof.
  simpl. destruct (u_Identities u !! i) as [x|] eqn:Hx; simpl.
  - apply elem_of_list_to_map; [rewrite imap_pair_keys; apply NoDup_seq|].
    apply list_elem_of_lookup. exists i. by rewrite list_lookup_imap, Hx.
  - apply not_elem_of_list_to_map. rewrite imap_pair_keys, elem_of_seq. apply lookup_ge_None_1 in Hx. lia.
Qed.

Lemma map_outcome_lookup {A B} (f : A → outcome B) (l : list A) (k : list B) :
  length l = length k → (∀ i a b, l !! i = Some a → k !! i = Some b → f a = Ret b) → map_outcome f l = Ret k.
Proof.
  revert k. induction l as [|a l IH]; intros [|b k] Hl Hf; [done..|]. simpl. rewrite (Hf 0 a b) by done. simpl.
  rewrite (IH k); [done|by injection Hl|]. intros i. apply (Hf (S i)).
Qed.

Lemma key_reload k : key_sized k →
  mkEncrypting (EncryptingPrivateKeyFromBytes (ek_private k)) (EncryptingPublicKeyFromBytes (ek_public k)) = k.
Proof.
  intros [Hp Hq]. unfold EncryptingPrivateKeyFromBytes, EncryptingPublicKeyFromBytes. rewrite !array_from_id by done. by destruct k.
Qed.

(** Loading gives back the user that was saved. *)
Lemma loadUser_saved ks u bs :
  user_wf u → ks_db ks = Some bs → DecryptUser bs (u_Password u) = Ret (to_encrypted u) → loadUser ks (u_Password u) = Ret u.
Proof.
  intros [W1 W2 W3 W4 W5] Hdb Hd. unfold loadUser. rewrite Hdb, Hd. cbn [obind].
  rewrite (map_outcome_lookup _ _ (u_Identities u)).
  - cbn [obind eu_NumIdentities to_encrypted eu_Mnemonic eu_Local]. rewrite key_reload, <- W5 by done.
    assert (list_to_set (filter (λ i, i ∈ eu_PublicIdentities (to_encrypted u)) (seq 0 (length (u_Identities u)))) = u_PublicIdentities u) as ->.
    { apply set_eq. intros i. rewrite elem_of_list_to_set, list_elem_of_filter, elem_of_seq, elem_of_to_encrypted, W4.
      split; [by intros [? _]|]. intros (x & Hx & Hp). split; [by exists x|]. apply lookup_lt_Some in Hx. lia. }
    by destruct u.
  - by rewrite length_seq.
  - intros i j x Hj Hx. apply lookup_seq in Hj as [-> _]. unfold load_identity. rewrite Nat.add_0_l.
    change (eu_Mnemonic (to_encrypted u)) with (u_Mnemonic u). rewrite (W1 i x Hx). cbn [obind].
    rewrite lookup_encrypting_keys, Hx. cbn [fmap option_fmap option_map default].
    rewrite key_reload by (by eapply (Forall_lookup_1 _ _ _ _ W2)).
    assert (bool_decide (i ∈ eu_PublicIdentities (to_encrypted u)) = id_Public x) as ->; [|by destruct x].
    apply eq_bool_prop_intro. rewrite !Is_true_true, bool_decide_eq_true, elem_of_to_encrypted. naive_solver.
Qed.

Lemma saveUser_spec ks u : ∃ bs, saveUser ks u (u_Password u) = Ret (mkKeyStore (Some bs) (ks_unlockedUser ks)) ∧
  EncryptUser (to_encrypted u) (u_Password u) = Ret bs ∧ DecryptUser bs (u_Password u) = Ret (to_encrypted u).
Proof.
  unfold saveUser. destruct (decrypt_encrypt (to_encrypted u) (u_Password u)) as (bs & He & Hd). rewrite He. by exists bs.
Qed.

Lemma wf_saved db u : user_wf u → ∃ bs, saveUser (mkKeyStore db (Some u)) u (u_Password u) = Ret (mkKeyStore (Some bs) (Some u)) ∧
  ks_wf (mkKeyStore (Some bs) (Some u)).
Proof.
  intros Hu. destruct (saveUser_spec (mkKeyStore db (Some u)) u) as (bs & Hs & He & Hd). exists bs. split; [done|].
  split; simpl; [|by eauto]. intros ? [= <-]. exists u. split_and!; try done. by intros ? [= ->].
Qed.

Lemma index_addresses_snoc ids x : index_addresses (ids ++ [x]) = <[Identity_Address x := length ids]> (index_addresses ids).
Proof. unfold index_addresses. rewrite imap_app, foldl_app. simpl. by rewrite Nat.add_0_r. Qed.

Lemma user_wf_add u x :
  user_wf u → SigningKeypairFromHDMnemonic (u_Mnemonic u) (length (u_Identities u)) = Ret (id_Signing x) → key_sized (id_Encrypting x) →
  user_wf (add_identity u x).
Proof.
  intros [W1 W2 W3 W4 W5] Hd Hk. split; simpl.
  - intros i y. rewrite lookup_app_Some. intros [Hy|[Hi Hy]]; [by apply W1|].
    apply list_lookup_singleton_Some in Hy as [Hy <-]. by replace i with (length (u_Identities u)) by lia.
  - apply Forall_app. split; [done|]. by apply Forall_singleton.
  - done.
  - intros i. setoid_rewrite lookup_app_Some.
    assert (i ∈ (if id_Public x then {[length (u_Identities u)]} ∪ u_PublicIdentities u else u_PublicIdentities u) ↔
      (id_Public x = true ∧ i = length (u_Identities u)) ∨ i ∈ u_PublicIdentities u) as -> by (destruct (id_Public x); set_solver).
    rewrite W4. split.
    + intros [[Hp ->]|(y & Hy & Hp)]; [|by eauto]. exists x. split; [|done]. right. by rewrite Nat.sub_diag.
    + intros (y & [Hy|[Hi Hy]] & Hp); [by eauto|]. apply list_lookup_singleton_Some in Hy as [Hy <-]. left. split; [done|lia].
  - by rewrite index_addresses_snoc, W5.
Qed.

Lemma ks_wf_step ks ks' : ks_wf ks → ks_step ks ks' → ks_wf ks'.
Proof.
  intros Hwf Hs. revert Hwf. destruct Hs as [ks password mnemonic enc loc ks' He Hl Hun|ks public enc ks' r He Hn|ks]; intros Hwf0; pose proof Hwf0 as [K1 K2].
  - unfold Unlock in Hun. destruct (ks_db ks) as [bs|] eqn:Hdb.
    + destruct (K1 bs eq_refl) as (u & Hu & Henc & Hdec & _). destruct (decide (password = u_Password u)) as [->|Hne].
      * rewrite (loadUser_saved ks u bs) in Hun by done. destruct (wf_saved (Some bs) u Hu) as (bs' & Hs & Hwf).
        rewrite Hs in Hun. by simplify_eq.
      * destruct (decrypt_wrong _ _ _ _ Henc Hne) as (e & Hd & Hee). unfold loadUser in Hun. rewrite Hdb, Hd in Hun. simpl in Hun.
        by rewrite decide_False in Hun.
    + unfold loadUser in Hun. rewrite Hdb in Hun. rewrite decide_True in Hun by done.
      destruct (SigningKeypairFromHDMnemonic mnemonic 0) as [sk| | |] eqn:Hsk; simpl in Hun; [|done..].
      set (u := mkUser password mnemonic [mkIdentity true sk enc] {[0]} {[sk_Address sk := 0]} loc) in *.
      assert (user_wf u) as Hu.
      { split; simpl; [| |done| |done].
        - intros [|i] x; simpl; [by intros [= <-]|done].
        - by apply Forall_singleton.
        - intros i. rewrite elem_of_singleton. split; [intros ->; by eexists|]. by intros (x & [-> _]%list_lookup_singleton_Some & _). }
      destruct (wf_saved None u Hu) as (bs' & Hs & Hwf). change password with (u_Password u) in Hun. rewrite Hs in Hun. by simplify_eq.
  - unfold NewIdentity in Hn. destruct (ks_unlockedUser ks) as [u|] eqn:Huu; [|by simplify_eq].
    destruct (K2 u eq_refl) as [bs Hdb]. destruct (K1 bs Hdb) as (u0 & Hu & _ & _ & Heq). specialize (Heq u eq_refl) as ->.
    destruct (SigningKeypairFromHDMnemonic _ _) as [sk| | |] eqn:Hsk; [|by simplify_eq|done..].
    set (u1 := add_identity u0 (mkIdentity public sk enc)) in *.
    assert (user_wf u1) as Hu1 by (by apply user_wf_add).
    destruct (wf_saved (ks_db ks) u1 Hu1) as (bs' & Hs & Hwf). rewrite Hs in Hn. by simplify_eq.
  - split; simpl; [|done]. intros bs (u & Hu & He & Hd & _)%K1. exists u. by split_and!.
Qed.

Lemma ks_wf_reachable ks : rtc ks_step (mkKeyStore None None) ks → ks_wf ks.
Proof.
  intros Hr. assert (ks_wf (mkKeyStore None None)) as Hwf by (by split). revert Hwf.
  induction Hr as [|k k1 k2 Hs _ IH]; [done|]. intros Hwf. by eapply IH, ks_wf_step.
Qed.

Lemma index_addresses_lookup ids a i : index_addresses ids !! a = Some i → ∃ x, ids !! i = Some x ∧ Identity_Address x = a.
Proof.
  revert i. induction ids as [|x ids IH] using rev_ind; intros i.
  { change (index_addresses []) with (∅ : gmap Address nat). by rewrite lookup_empty. }
  rewrite index_addresses_snoc, lookup_insert_Some. intros [[<- <-]|[_ (y & Hy & Ha)%IH]].
  - exists x. split; [|done]. by rewrite lookup_app_r, Nat.sub_diag.
  - exists y. split; [|done]. by apply lookup_app_l_Some.
Qed.

Lemma index_addresses_present ids i x : ids !! i = Some x → is_Some (index_addresses ids !! Identity_Address x).
Proof.
  revert i x. induction ids as [|y ids IH] using rev_ind; intros i x Hx; [done|].
  rewrite index_addresses_snoc, lookup_insert_is_Some'. apply lookup_app_Some in Hx as [Hx|[_ [_ <-]%list_lookup_singleton_Some]]; [|by left].
  right. by eapply IH.
Qed.

Lemma unlocked_wf ks u : rtc ks_step (mkKeyStore None None) ks → ks_unlockedUser ks = Some u →
  user_wf u ∧ ∃ bs, ks_db ks = Some bs ∧ EncryptUser (to_encrypted u) (u_Password u) = Ret bs ∧ DecryptUser bs (u_Password u) = Ret (to_encrypted u).
Proof.
  intros Hr Hu. destruct (ks_wf_reachable ks Hr) as [K1 K2]. destruct (K2 u Hu) as [bs Hdb].
  destruct (K1 bs Hdb) as (u0 & Hwf & He & Hd & Heq). rewrite (Heq u Hu). by eauto.
Qed.

Lemma public_size u : user_wf u → size (u_PublicIdentities u) ≤ length (u_Identities u).
Proof.
  intros [_ _ _ W4 _]. rewrite <- (length_seq (length (u_Identities u)) 0), <- (size_list_to_set (C := gset nat)) by apply NoDup_seq.
  apply subseteq_size. intros i Hi. apply W4 in Hi as (x & Hx & _). apply elem_of_list_to_set, elem_of_seq.
  apply lookup_lt_Some in Hx. lia.
Qed.

Lemma at_index_prefix (ids : list Identity) n : n ≤ length ids → map_outcome (at_index ids) (seq 0 n) = Ret (take n ids).
Proof.
  intros Hn. apply map_outcome_lookup; [rewrite length_seq, length_take; lia|].
  intros i j x Hj Hx. apply lookup_seq in Hj as [-> Hi]. rewrite lookup_take_lt in Hx by done. unfold at_index. rewrite Nat.add_0_l. by rewrite Hx.
Qed.

Lemma IdentityWithAddress_own ks u i x :
  rtc ks_step (mkKeyStore None None) ks → ks_unlockedUser ks = Some u → (Z.of_nat (length (u_Identities u)) < 2 ^ 32)%Z →
  (∀ i j x y, u_Identities u !! i = Some x → u_Identities u !! j = Some y → Identity_Address x = Identity_Address y → i = j) →
  u_Identities u !! i = Some x → IdentityWithAddress ks (Identity_Address x) = Ret x.
Proof.
  intros Hr Hu Hlen Hdist Hx. destruct (unlocked_wf ks u Hr Hu) as [[_ _ _ _ W5] _].
  unfold IdentityWithAddress, unlocked. rewrite Hu. cbn [of_option obind]. rewrite W5.
  destruct (index_addresses_present _ _ _ Hx) as [j Hj]. rewrite Hj.
  destruct (index_addresses_lookup _ _ _ Hj) as (y & Hy & Ha). pose proof (Hdist _ _ _ _ Hy Hx Ha). simplify_eq.
  pose proof (lookup_lt_Some _ _ _ Hx) as Hlt. rewrite Z.mod_small by lia. rewrite decide_False by lia. unfold at_index. by rewrite Hx.
Qed.

(** ** Theorems *)

(** C24: A user survives a restart: in every reachable state the user in memory is the one on
    disk, so unlocking with the same password gives the same user (identities, their public
    flags and keys, and the index by address), while a wrong password is refused and leaves
    everything as it was. *)
Theorem keystore_restart ks u password mnemonic enckeys localEnckeys :
  rtc ks_step (mkKeyStore None None) ks → ks_unlockedUser ks = Some u →
  if decide (password = u_Password u)
  then ∃ ks', Unlock (mkKeyStore (ks_db ks) None) password mnemonic enckeys localEnckeys = Ret ks' ∧ ks_unlockedUser ks' = Some u
  else ∃ e, Unlock (mkKeyStore (ks_db ks) None) password mnemonic enckeys localEnckeys = Err e.
Proof.
  intros Hr Hu. destruct (unlocked_wf ks u Hr Hu) as (Hwf & bs & Hdb & He & Hd). unfold Unlock. case_decide as Hp.
  - subst. rewrite (loadUser_saved _ u bs) by done. destruct (wf_saved (ks_db ks) u Hwf) as (bs' & Hs & _). simpl. rewrite Hs. by eexists.
  - unfold loadUser. simpl. rewrite Hdb. destruct (decrypt_wrong _ _ _ _ He Hp) as (e & -> & Hne). simpl. rewrite decide_False by done. by exists e.
Qed.

(** Identities are found by their addresses: with fewer than [2^32] identities whose
    addresses differ, [IdentityWithAddress] returns the identity that has the address, and
    refuses any other address. *)
Theorem identity_by_address ks u address :
  rtc ks_step (mkKeyStore None None) ks → ks_unlockedUser ks = Some u → (Z.of_nat (length (u_Identities u)) < 2 ^ 32)%Z →
  (∀ i j x y, u_Identities u !! i = Some x → u_Identities u !! j = Some y → Identity_Address x = Identity_Address y → i = j) →
  (∀ x, x ∈ u_Identities u → Identity_Address x = address → IdentityWithAddress ks address = Ret x) ∧
  ((∀ x, x ∈ u_Identities u → Identity_Address x ≠ address) → IdentityWithAddress ks address = Err ErrAccountDoesNotExist).
Proof.
  intros Hr Hu Hlen Hdist. split.
  - intros x [i Hx]%list_elem_of_lookup <-. by eapply IdentityWithAddress_own.
  - intros Hno. destruct (unlocked_wf ks u Hr Hu) as [[_ _ _ _ W5] _].
    unfold IdentityWithAddress, unlocked. rewrite Hu. cbn [of_option obind]. rewrite W5.
    destruct (index_addresses (u_Identities u) !! address) as [i|] eqn:Hi; [|done].
    destruct (index_addresses_lookup _ _ _ Hi) as (x & Hx & Ha). exfalso. apply (Hno x); [|done]. by eapply list_elem_of_lookup_2.
Qed.

(** [PublicIdentities] returns as many identities as are public, but the first ones. *)
Theorem public_identities_positions ks u :
  rtc ks_step (mkKeyStore None None) ks → ks_unlockedUser ks = Some u →
  PublicIdentities ks = Ret (take (size (u_PublicIdentities u)) (u_Identities u)).
Proof.
  intros Hr Hu. destruct (unlocked_wf ks u Hr Hu) as [Hwf _]. unfold PublicIdentities, unlocked. rewrite Hu. cbn [of_option obind].
  rewrite merge_sort_Permutation. by apply at_index_prefix, public_size.
Qed.
End Invariant.

(** A message that one identity seals for another's public key is opened by that one with
    the sender's public key; a sealed text shorter than a nonce makes the reader panic. *)
Theorem sealed_message_opens `{BoxLaws} a b nonce msg short :
  length nonce = ENCRYPTING_NONCE_LENGTH → length short < ENCRYPTING_NONCE_LENGTH →
  (∃ sealed, seal_message a (Some (box_public b)) nonce msg = Ret sealed ∧ open_message b (Some (box_public a)) sealed = Ret msg) ∧
  open_message b (Some (box_public a)) short = Panic.
Proof.
  intros Hn Hs. split.
  - eexists. split; [done|]. unfold open_message. rewrite slice_head by (by rewrite Hn). cbn [obind].
    rewrite drop_app_length' by done. by rewrite box_roundtrip.
  - unfold open_message, slice. rewrite decide_False; [done|]. unfold ENCRYPTING_NONCE_LENGTH in *. lia.
Qed.

(** ** Examples *)

(** Keys that are named after their index, a codec that writes numbers, and a box that does
    not hide its contents. *)
#[local] Instance toy_derivation : Derivation := {
  SigningKeypairFromHDMnemonic m i := Ret (mkSigning m (take 20 (id_of (S i))));
  sign_hash sk h := Ret (sk ++ h)
}.
#[local] Instance toy_box : Box := {
  box_seal nonce m pub priv := m;
  box_open nonce c pub priv := Some c;
  box_public k := k
}.
#[local] Instance toy_box_laws : BoxLaws.
Proof. by split. Qed.

#[local] Instance keypair_countable : Countable EncryptingKeypair.
Proof. refine (inj_countable' (λ k, (ek_private k, ek_public k)) (λ p, mkEncrypting p.1 p.2) _). by intros []. Defined.
#[local] Instance encrypted_user_eq_dec : EqDecision encryptedBadgerUser.
Proof. solve_decision. Defined.
#[local] Instance encrypted_user_countable : Countable encryptedBadgerUser.
Proof.
  refine (inj_countable'
    (λ u, (eu_Mnemonic u, eu_NumIdentities u, eu_PublicIdentities u, eu_EncryptingKeys u, eu_Local u))
    (λ '(a, b, c, d, e), mkEncryptedUser a b c d e) _). by intros [].
Defined.
#[local] Instance toy_codec : UserCodec := {
  EncryptUser u password := Ret (positive_bits (encode (u, password)));
  DecryptUser bs password :=
    match decode (bits_positive bs) with
    | Some (u, p) => if decide (p = password) then Ret u else Err ErrCannotDecrypt
    | None => Err ErrCannotDecrypt
    end
}.
Lemma bits_positive_bits p : bits_positive (positive_bits p) = p.
Proof. induction p; simpl; congruence. Qed.
#[local] Instance toy_codec_laws : UserCodecLaws.
Proof. split. intros u p. eexists. split; [done|]. simpl. by rewrite bits_positive_bits, decode_encode, decide_True. Qed.
#[local] Instance toy_codec_safe : UserCodecSafe.
Proof.
  split. intros u p p' bs [= <-] Hne. exists ErrCannotDecrypt. simpl.
  by rewrite bits_positive_bits, decode_encode, decide_False.
Qed.

Definition key_a : EncryptingKeypair := mkEncrypting (id_of 10) (id_of 11).
Definition store_0 : BadgerKeyStore :=
  match Unlock (mkKeyStore None None) (str "pw") (str "words") key_a key_a with Ret k => k | _ => mkKeyStore None None end.
Definition store_1 : BadgerKeyStore := match NewIdentity store_0 false key_a with Ret (k, _) => k | _ => store_0 end.
Definition store_2 : BadgerKeyStore := match NewIdentity store_1 true key_a with Ret (k, _) => k | _ => store_1 end.
Definition user_2 : badgerUser :=
  mkUser (str "pw") (str "words")
    [mkIdentity true (mkSigning (str "words") (take 20 (id_of 1))) key_a; mkIdentity false (mkSigning (str "words") (take 20 (id_of 2))) key_a;
     mkIdentity true (mkSigning (str "words") (take 20 (id_of 3))) key_a]
    {[2]} {[take 20 (id_of 1) := 0]} key_a.

Lemma store_2_reachable : rtc ks_step (mkKeyStore None None) store_2.
Proof.
  assert (key_sized key_a) as Hk by done.
  apply (rtc_l _ _ store_0); [by apply (step_Unlock _ (str "pw") (str "words") key_a key_a)|].
  apply (rtc_l _ _ store_1); [by eapply (step_NewIdentity store_0 false key_a)|].
  apply rtc_once. by eapply (step_NewIdentity store_1 true key_a).
Qed.

Definition user_of (ks : BadgerKeyStore) : badgerUser := default user_2 (ks_unlockedUser ks).
Lemma store_2_unlocked : ks_unlockedUser store_2 = Some (user_of store_2).
Proof. reflexivity. Qed.

Lemma keystore_restart_witness :
  ∃ ks', Unlock (mkKeyStore (ks_db store_2) None) (str "pw") [] key_a key_a = Ret ks' ∧ ks_unlockedUser ks' = Some (user_of store_2).
Proof.
  pose proof (keystore_restart store_2 (user_of store_2) (str "pw") [] key_a key_a store_2_reachable store_2_unlocked) as Hr.
  rewrite decide_True in Hr by reflexivity. exact Hr.
Defined.

Lemma store_2_addresses i j x y :
  u_Identities (user_of store_2) !! i = Some x → u_Identities (user_of store_2) !! j = Some y → Identity_Address x = Identity_Address y → i = j.
Proof.
  change (u_Identities (user_of store_2)) with (u_Identities user_2).
  destruct i as [|[|[|i]]], j as [|[|[|j]]]; simpl; intros [= <-] [= <-] Heq; (reflexivity || (vm_compute in Heq; discriminate)).
Qed.

Lemma identity_by_address_witness : ∃ x, IdentityWithAddress store_2 (take 20 (id_of 3)) = Ret x ∧ id_Public x = true.
Proof.
  destruct (identity_by_address store_2 (user_of store_2) (take 20 (id_of 3)) store_2_reachable store_2_unlocked) as [Hi _].
  - vm_compute. reflexivity.
  - apply store_2_addresses.
  - eexists. split; [apply Hi|].
    + change (u_Identities (user_of store_2)) with (u_Identities user_2). apply list_elem_of_lookup. exists 2. reflexivity.
    + reflexivity.
    + reflexivity.
Defined.

(** The second identity is private and is listed; the third is public and is not. *)
Example private_identity_listed :
  ∃ l, PublicIdentities store_2 = Ret l ∧ id_Public <$> l = [true; false] ∧ id_Public <$> u_Identities (user_of store_2) = [true; false; true].
Proof. eexists. split; [vm_compute; reflexivity|]. split; reflexivity. Qed.

Lemma sealed_message_opens_witness :
  let nonce := take 24 (id_of 1) in
  ∃ sealed, seal_message (str "a") (Some (str "b")) nonce (str "hello") = Ret sealed ∧ open_message (str "b") (Some (str "a")) sealed = Ret (str "hello").
Proof.
  destruct (sealed_message_opens (str "a") (str "b") (take 24 (id_of 1)) (str "hello") (str "short")) as [Hs _].
  - vm_compute. reflexivity.
  - vm_compute. lia.
  - exact Hs.
Defined.
