(* ===== verification/HttpTx.v ===== *)
(** * Transactions on the wire ([http_utils.go], [transport.http.go], [transport.libp2p.go])

    A public transaction is put to an HTTP peer as a request with its fields in headers and
    its patches in the body, one per line, and put together again by [servePostTx].  A
    private transaction is sealed for one recipient.  The three [Put] methods are what a
    peer, an HTTP subscriber and a libp2p peer are sent.

    [net/http] carries headers and body as they are.  The JSON form of a transaction is an
    interface.  A peer is what [Put] asks it for: its dial address, the addresses it has
    proved, and its keys.  Nonces are arguments. *)

From S2P Require Import Prelude Types Keypath TreeTypes GoValue MemoryNode BadgerTxn DBNode Tx PatchParser Controller ControllerProps.
From S2P Require Import KeyStore.

(** ** Lines ([bufio.Scanner]) *)

Definition newline : byte := x0a.
Definition carriage_return : byte := x0d.
Definition MaxScanTokenSize : nat := 65536.

Fixpoint split_on (c : byte) (s : bytes) : list bytes :=
  match s with
  | [] => [[]]
  | b :: s =>
      match split_on c s with
      | [] => [[b]]
      | l :: ls => if decide (b = c) then [] :: l :: ls else (b :: l) :: ls
      end
  end.

Fixpoint join_with (sepr : bytes) (l : list bytes) : bytes :=
  match l with
  | [] => []
  | [s] => s
  | s :: l => s ++ sepr ++ join_with sepr l
  end.

Definition dropCR (line : bytes) : bytes :=
  if decide (last line = Some carriage_return) then take (length line - 1) line else line.

(** The lines of the text, the empty one after the last newline left out; [None] when one of
    them does not fit into the scanner's buffer. *)
Definition scan_lines (s : bytes) : option (list bytes) :=
  let ls := split_on newline s in
  let ls := if decide (last ls = Some []) then take (length ls - 1) ls else ls in
  if decide (Forall (λ l, length l < MaxScanTokenSize) ls) then Some (dropCR <$> ls) else None.

(** ** Requests *)

Record EncryptedTx := mkEncryptedTx {
  etx_TxID : ID;
  etx_EncryptedPayload : bytes;
  etx_SenderPublicKey : bytes;
  etx_RecipientAddress : Address
}.

(** The headers are empty when they are not set.  A form is its attachment and its patches. *)
Inductive request_body := PlainBody (s : bytes) | FormBody (attachment : outcome bytes) (patches : option bytes).
Record put_request := mkPut {
  rq_Version : bytes;
  rq_StateURI : bytes;
  rq_Signature : bytes;
  rq_Parents : bytes;
  rq_Checkpoint : bytes;
  rq_body : request_body
}.
Inductive http_request := PublicPut (r : put_request) | PrivatePut (e : EncryptedTx).

(** [json.Marshal] and [json.Unmarshal] of a transaction, and the transactions that they carry:
    without a cached hash, with texts that are valid UTF-8 and with patches that print. *)
Class TxJson := {
  tx_MarshalJSON : Tx → outcome bytes;
  tx_UnmarshalJSON : bytes → outcome Tx;
  tx_json_ok : Tx → Prop
}.

Definition ErrNoEncKey : error := ErrOther "no encrypting pubkey provided".
Definition ErrNotForPeer : error := ErrOther "tx not intended for this peer".
Definition ErrNotRecipient : error := ErrOther "private tx Recipients field must contain own address".

Section Requests.
Context `{JsonCodec} `{TxJson} `{Box} (ks : BadgerKeyStore).

Definition patch_lines (ps : list Patch) : outcome bytes :=
  let! ss := map_outcome Patch_String ps in Ret (concat ((λ s, s ++ [newline]) <$> ss)).

Definition PutRequestFromTx (tx : Tx) (sender : EncryptingKeypair) (recipientAddress : Address) (recipientEncPubkey : option bytes)
    (nonce : bytes) : outcome http_request :=
  if IsPrivate tx then
    match recipientEncPubkey with
    | None => Err ErrNoEncKey
    | Some key =>
        let! marshalledTx := tx_MarshalJSON tx in
        let! encryptedTxBytes := seal_message (ek_private sender) (Some key) nonce marshalledTx in
        Ret (PrivatePut (mkEncryptedTx (tx_ID tx) encryptedTxBytes (ek_public sender) recipientAddress))
    end
  else
    let! body := patch_lines (tx_Patches tx) in
    Ret (PublicPut (mkPut (ID_Hex (tx_ID tx)) (tx_StateURI tx) (EncodeToString (tx_Sig tx))
                      (join_with (str ",") (ID_Hex <$> tx_Parents tx)) (if tx_Checkpoint tx then str "true" else [])
                      (PlainBody body))).

(** ** Peers *)

(** [peer_keys] is [PublicKeys]: the address of the signing key and the encrypting key, each
    of which may be [nil]. *)
Record wire_peer := mkWirePeer {
  wp_DialAddr : bytes;
  wp_Addresses : list Address;
  wp_PublicKeys : Address → option Address * option bytes
}.

(** [pubkey.Address()] on a [nil] interface *)
Definition key_Address (k : option Address) : outcome Address := match k with Some a => Ret a | None => Panic end.

(** [httpPeer.Put]: the request that is sent; a peer without a dial address is skipped. *)
Definition httpPeer_Put (p : wire_peer) (tx : Tx) (nonce : bytes) : outcome (option http_request) :=
  if decide (wp_DialAddr p = []) then Ret None
  else
    let! identity := IdentityWithAddress ks (tx_From tx) in
    let! keys :=
      if IsPrivate tx then
        match OverlappingAddresses (tx_Recipients tx) (wp_Addresses p) with
        | [] => Err ErrNotForPeer
        | a :: _ => Ret (wp_PublicKeys p a)
        end
      else Ret (None, None) in
    let! addr := key_Address keys.1 in
    let! req := PutRequestFromTx tx (id_Encrypting identity) addr keys.2 nonce in
    Ret (Some req).

(** The message of a subscription: a transaction, a state of type [St], or both. *)
Inductive sub_msg (St : Type) := ClearMsg (tx : option Tx) (state : option St) (leaves : list ID) | SealedMsg (e : EncryptedTx) (leaves : list ID).
Arguments ClearMsg {St} _ _ _.
Arguments SealedMsg {St} _ _.

(** [ownIdentity != (identity.Identity{})]: an identity without a signing key is the zero value. *)
Definition zero_identity : Identity := mkIdentity false (mkSigning [] []) (mkEncrypting [] []).

(** The first recipient that the key store knows; it stops at the first error, and an
    unknown address is one. *)
Fixpoint own_identity (addrs : list Address) : outcome Identity :=
  match addrs with
  | [] => Err ErrNotRecipient
  | addr :: addrs =>
      let! ownIdentity := IdentityWithAddress ks addr in
      if decide (ownIdentity = zero_identity) then own_identity addrs else Ret ownIdentity
  end.

(** [httpWritableSubscription.Put]: the message that is written to the stream. *)
Definition httpSub_Put {St} (p : wire_peer) (tx : option Tx) (state : option St) (leaves : list ID) (nonce : bytes) : outcome (sub_msg St) :=
  match tx with
  | Some t =>
      if IsPrivate t then
        let! marshalledTx := tx_MarshalJSON t in
        match OverlappingAddresses (tx_Recipients t) (wp_Addresses p) with
        | [] => Err ErrNotForPeer
        | a :: _ =>
            let '(peerSig, peerEnc) := wp_PublicKeys p a in
            let! own := own_identity (tx_Recipients t) in
            let! sealed := SealMessageFor ks (Identity_Address own) peerEnc nonce marshalledTx in
            let! addr := key_Address peerSig in
            Ret (SealedMsg (mkEncryptedTx (tx_ID t) sealed (ek_public (id_Encrypting own)) addr) leaves)
        end
      else Ret (ClearMsg tx state leaves)
  | None => Ret (ClearMsg None state leaves)
  end.

(** [libp2pPeer.Put], which leaves state and leaves out. *)
Definition libp2pPeer_Put (p : wire_peer) (tx : Tx) (nonce : bytes) : outcome (Tx + EncryptedTx) :=
  if IsPrivate tx then
    let! marshalledTx := tx_MarshalJSON tx in
    match OverlappingAddresses (tx_Recipients tx) (wp_Addresses p) with
    | [] => Err ErrNotForPeer
    | a :: _ =>
        let '(peerSig, peerEnc) := wp_PublicKeys p a in
        let! sealed := SealMessageFor ks (tx_From tx) peerEnc nonce marshalledTx in
        let! identity := DefaultPublicIdentity ks in
        let! addr := key_Address peerSig in
        Ret (inr (mkEncryptedTx (tx_ID tx) sealed (ek_public (id_Encrypting identity)) addr))
    end
  else Ret (inl tx).

(** ** The receiving side *)

Definition ErrTxIDMismatch : error := ErrOther "private tx id does not match".

(** [servePostPrivateTx], and the same steps of the libp2p transport: the transaction that is
    handed to the host. *)
Definition open_private_tx (e : EncryptedTx) : outcome Tx :=
  let! bs := OpenMessageFrom ks (etx_RecipientAddress e) (Some (EncryptingPublicKeyFromBytes (etx_SenderPublicKey e))) (etx_EncryptedPayload e) in
  let! tx := tx_UnmarshalJSON bs in
  if decide (etx_TxID e = tx_ID tx) then Ret tx else Err ErrTxIDMismatch.
End Requests.
Arguments ClearMsg {St} _ _ _.
Arguments SealedMsg {St} _ _.

Definition ErrBadRequest (msg : string) : error := ErrOther msg.

Section Serving.
Context `{JsonCodec} `{Secp256k1} (keccak256 : bytes → bytes) (defaultStateURI : bytes) (randomID : ID).

Definition parse_parents (s : bytes) : outcome (list ID) :=
  if decide (s = []) then Ret [] else map_outcome (λ p, IDFromHex (TrimSpace p)) (split_on "," s).

Definition parse_patches (s : bytes) : outcome (list Patch) :=
  match scan_lines s with
  | Some ls => map_outcome (λ l, ParsePatch (S (length l)) l) ls
  | None => Err (ErrBadRequest "internal server error")
  end.

(** The transaction that is handed to the host; an error is an answer with its status. *)
Definition servePostTx (r : put_request) : outcome Tx :=
  let! sig := if decide (rq_Signature r = []) then Err (ErrBadRequest "missing Signature header") else SignatureFromHex (rq_Signature r) in
  let! txID := if decide (rq_Version r = []) then Ret randomID else IDFromHex (rq_Version r) in
  let! parents := parse_parents (rq_Parents r) in
  let checkpoint := bool_decide (rq_Checkpoint r = str "true") in
  let stateURI := if decide (rq_StateURI r = []) then defaultStateURI else rq_StateURI r in
  let! body :=
    match rq_body r with
    | PlainBody s => Ret ([], Some s)
    | FormBody attachment patches => let! attachment := attachment in Ret (attachment, patches)
    end in
  let! patches := match body.2 with Some s => parse_patches s | None => Ret [] end in
  let tx := mkTx txID parents [] (array_from address_length []) sig stateURI patches [] checkpoint body.1 TxStatusUnknown EmptyHash in
  let! hash := Tx_Hash keccak256 tx in
  let! pubkey := RecoverSigningPubkey hash sig in
  Ret (mkTx txID parents [] (PublicKey_Address pubkey) sig stateURI patches [] checkpoint body.1 TxStatusUnknown EmptyHash).
End Serving.

(** ** Lines and lists *)

Lemma split_on_nonempty c s : split_on c s ≠ [].
Proof. destruct s; simpl; [done|]. destruct (split_on c s); [done|]. by case_decide. Qed.

Lemma split_on_app c a b : c ∉ a → split_on c (a ++ c :: b) = a :: split_on c b.
Proof.
  induction a as [|x a IH]; intros Ha; simpl.
  - destruct (split_on c b) eqn:Hb; [by destruct (split_on_nonempty c b)|]. by rewrite decide_True.
  - rewrite IH by set_solver. rewrite decide_False; [done|]. set_solver.
Qed.

Lemma split_on_none c a : c ∉ a → split_on c a = [a].
Proof.
  induction a as [|x a IH]; intros Ha; simpl; [done|]. rewrite IH by set_solver. rewrite decide_False; [done|]. set_solver.
Qed.

Lemma split_on_join c l : l ≠ [] → Forall (λ s, c ∉ s) l → split_on c (join_with [c] l) = l.
Proof.
  intros Hne Hl. induction Hl as [|s l Hs Hl IH]; [done|]. destruct l as [|s' l]; simpl.
  - by apply split_on_none.
  - simpl in IH. rewrite split_on_app by done. f_equal. by apply IH.
Qed.

Lemma split_lines ss : Forall (λ s, newline ∉ s) ss → split_on newline (concat ((λ s, s ++ [newline]) <$> ss)) = ss ++ [[]].
Proof.
  induction 1 as [|s ss Hs _ IH]; [done|]. rewrite fmap_cons. cbn [concat]. rewrite <- app_assoc. cbn [app].
  rewrite split_on_app by done. by rewrite IH.
Qed.

(** A text that fits on a line. *)
Definition line_ok (s : bytes) : Prop := newline ∉ s ∧ length s < MaxScanTokenSize ∧ last s ≠ Some carriage_return.

Lemma scan_printed ss : Forall line_ok ss → scan_lines (concat ((λ s, s ++ [newline]) <$> ss)) = Some ss.
Proof.
  intros Hss. unfold scan_lines. rewrite split_lines by (eapply Forall_impl; [exact Hss|]; by intros s []).
  rewrite (decide_True (P := last (ss ++ [[]]) = Some [])) by apply last_snoc. rewrite length_app. simpl. rewrite Nat.add_sub, take_app_length.
  rewrite decide_True by (eapply Forall_impl; [exact Hss|]; by intros s (_ & Hl & _)). f_equal.
  induction Hss as [|s ss (_ & _ & Hs) _ IH]; [done|]. rewrite fmap_cons, IH. f_equal. unfold dropCR. by rewrite decide_False.
Qed.

(** Hexadecimal text has no commas and nothing to trim. *)
Lemma hex_digits_clean b :
  (hex_digit (byte_to_Z b `div` 16) ≠ ","%byte ∧ hex_digit (byte_to_Z b `mod` 16) ≠ ","%byte) ∧
  Forall (λ f, head f ≠ Some (hex_digit (byte_to_Z b `div` 16))) space_forms ∧
  Forall (λ f, last f ≠ Some (hex_digit (byte_to_Z b `mod` 16))) space_forms.
Proof. destruct b; vm_decide. Qed.

Lemma hex_no_comma bs : ","%byte ∉ EncodeToString bs.
Proof.
  induction bs as [|b bs IH]; cbn [EncodeToString]; [apply not_elem_of_nil|].
  destruct (hex_digits_clean b) as [[H1 H2] _]. rewrite !not_elem_of_cons. split_and!; [congruence..|done].
Qed.

Lemma TrimSpace_hex bs : TrimSpace (EncodeToString bs) = EncodeToString bs.
Proof.
  destruct bs as [|b bs]; [done|]. unfold TrimSpace. cbn [EncodeToString]. rewrite TrimLeft_id by apply hex_digits_clean.
  change (TrimRight (EncodeToString (b :: bs)) = EncodeToString (b :: bs)).
  destruct (exists_last (l := b :: bs)) as (bs' & b' & ->); [done|].
  rewrite EncodeToString_app. cbn [EncodeToString].
  rewrite (cons_middle _ _ (hex_digit _ :: [])), (app_assoc _ [_] [_]). apply TrimRight_id, hex_digits_clean.
Qed.

Lemma parse_printed_parents (ps : list ID) :
  Forall (λ id, length id = id_length) ps → parse_parents (join_with (str ",") (ID_Hex <$> ps)) = Ret ps.
Proof.
  intros Hps. unfold parse_parents. destruct ps as [|p ps]; [done|]. rewrite decide_False.
  - change (str ",") with [","%byte]. rewrite split_on_join; [|done|].
    + rewrite Forall_forall in Hps. induction (p :: ps) as [|q qs IH]; [done|]. rewrite fmap_cons. cbn [map_outcome].
      assert (IDFromHex (TrimSpace (ID_Hex q)) = Ret q) as ->.
      { unfold ID_Hex, IDFromHex. rewrite TrimSpace_hex. apply array_from_hex, Hps. by left. }
      cbn [obind]. rewrite IH; [done|]. intros x Hx. apply Hps. by right.
    + apply Forall_fmap, Forall_forall. intros q _. apply hex_no_comma.
  - apply Forall_cons in Hps as [Hp _]. destruct p as [|b p]; [done|]. rewrite fmap_cons. cbn [join_with]. by destruct (ID_Hex <$> ps).
Qed.

Lemma parse_printed_patches `{JsonLaws} ps :
  Forall (λ p, patch_printable p ∧ ∀ s, Patch_String p = Ret s → line_ok s) ps →
  ∃ body, patch_lines ps = Ret body ∧ parse_patches body = Ret ps.
Proof.
  intros Hps.
  assert (∃ ss, map_outcome Patch_String ps = Ret ss ∧ Forall line_ok ss ∧
    map_outcome (λ l, ParsePatch (S (length l)) l) ss = Ret ps) as (ss & Hm & Hok & Hp).
  { induction Hps as [|p ps [Hpr Hln] _ (ss & Hm & Hok & Hp)]; [by exists []|].
    destruct (parse_printed p Hpr) as (s & Hs & Hparse). exists (s :: ss). simpl. rewrite Hs, Hm. simpl.
    split; [done|]. split; [constructor; [by apply Hln|done]|]. rewrite Hparse by lia. simpl. by rewrite Hp. }
  unfold patch_lines, parse_patches. rewrite Hm. eexists. split; [done|]. by rewrite scan_printed, Hp.
Qed.

(** ** Theorems *)

(** C22: A public transaction that is put to an HTTP peer arrives as it was sent: the receiver
    reads back its ID, parents, signature, state URI, patches and checkpoint flag, and takes
    as sender the address of the key that made the signature, for every transaction whose
    patches print to single lines.  Attachment, children and status are not sent. *)
Theorem http_put_roundtrip `{JsonLaws} `{TxJson} `{Box} `{Secp256k1} keccak256 defaultURI randomID tx sender addr key nonce hash pubkey :
  IsPrivate tx = false → length (tx_ID tx) = id_length → Forall (λ id, length id = id_length) (tx_Parents tx) →
  tx_Sig tx ≠ [] → tx_StateURI tx ≠ [] →
  Forall (λ p, patch_printable p ∧ ∀ s, Patch_String p = Ret s → line_ok s) (tx_Patches tx) →
  Tx_Hash keccak256 (uncached tx) = Ret hash → RecoverSigningPubkey hash (tx_Sig tx) = Ret pubkey →
  ∃ r, PutRequestFromTx tx sender addr key nonce = Ret (PublicPut r) ∧
    servePostTx keccak256 defaultURI randomID r =
      Ret (mkTx (tx_ID tx) (tx_Parents tx) [] (PublicKey_Address pubkey) (tx_Sig tx) (tx_StateURI tx) (tx_Patches tx) []
             (tx_Checkpoint tx) [] TxStatusUnknown EmptyHash).
Proof.
  intros Hpub Hid Hpar Hsig Huri Hps Hh Hrec. unfold PutRequestFromTx. rewrite Hpub.
  destruct (parse_printed_patches _ Hps) as (body & Hbody & Hparse). rewrite Hbody. cbn [obind]. eexists. split; [done|].
  unfold servePostTx. cbn [rq_Signature rq_Version rq_Parents rq_Checkpoint rq_StateURI rq_body].
  rewrite decide_False by (by destruct (tx_Sig tx)). unfold SignatureFromHex. rewrite decode_encode_hex. cbn [obind].
  rewrite decide_False by (destruct (tx_ID tx); [done|by intros ?]). unfold IDFromHex, ID_Hex. rewrite array_from_hex by done. cbn [obind].
  rewrite parse_printed_parents by done. cbn [obind snd fst]. rewrite Hparse. cbn [obind].
  rewrite (decide_False (P := tx_StateURI tx = [])) by done.
  assert (tx_Recipients tx = []) as Hre.
  { unfold IsPrivate in Hpub. apply bool_decide_eq_false in Hpub. destruct (tx_Recipients tx); [done|simpl in Hpub; lia]. }
  assert (∀ cp st from att, Tx_Hash keccak256 (mkTx (tx_ID tx) (tx_Parents tx) [] from (tx_Sig tx) (tx_StateURI tx) (tx_Patches tx) []
    cp att st EmptyHash) = Ret hash) as Hh'.
  { intros *. rewrite <- Hh. unfold Tx_Hash, tx_bytes, uncached. cbn. by rewrite Hre. }
  rewrite Hh'. cbn [obind]. rewrite Hrec. cbn [obind]. repeat f_equal. destruct (tx_Checkpoint tx); [done|]. by apply bool_decide_eq_false.
Qed.

(** [httpPeer.Put] of a public transaction asks a key that is [nil] for its address: the
    sending process stops. *)
Theorem http_public_put_panics `{JsonCodec} `{TxJson} `{Box} ks p tx nonce i :
  IsPrivate tx = false → wp_DialAddr p ≠ [] → IdentityWithAddress ks (tx_From tx) = Ret i → httpPeer_Put ks p tx nonce = Panic.
Proof. intros Hpub Hd Hi. unfold httpPeer_Put. by rewrite decide_False, Hi, Hpub. Qed.

Definition sealed_for `{TxJson} `{Box} (p : wire_peer) (tx : Tx) (nonce : bytes) (e : EncryptedTx) : Prop :=
  ∃ a key bs sender, a ∈ tx_Recipients tx ∧ a ∈ wp_Addresses p ∧ (wp_PublicKeys p a).2 = Some key ∧ tx_MarshalJSON tx = Ret bs ∧
    etx_TxID e = tx_ID tx ∧ etx_EncryptedPayload e = nonce ++ box_seal nonce bs key sender.

Lemma OverlappingAddresses_head one two a l : OverlappingAddresses one two = a :: l → a ∈ one ∧ a ∈ two.
Proof.
  intros Ho. assert (a ∈ OverlappingAddresses one two) as Ha by (rewrite Ho; by left). revert Ha. unfold OverlappingAddresses.
  rewrite list_elem_of_bind. intros (x & Hx & Hin). apply list_elem_of_bind in Hx as (y & Hy & Hin').
  case_decide; [|by apply elem_of_nil in Hy]. subst. apply list_elem_of_singleton in Hy as ->. done.
Qed.

Lemma seal_message_inv `{Box} priv key nonce msg c :
  seal_message priv key nonce msg = Ret c → ∃ k, key = Some k ∧ c = nonce ++ box_seal nonce msg k priv.
Proof. destruct key; simpl; [|done]. intros [= <-]. eauto. Qed.


(** A subscriber that asked for states only is sent the state in the clear, whoever it is. *)
Theorem state_sent_in_clear `{JsonCodec} `{TxJson} `{Box} {St} ks p (state : option St) leaves nonce :
  httpSub_Put ks p None state leaves nonce = Ret (ClearMsg None state leaves).
Proof. done. Qed.

Class TxJsonLaws `{TxJson} : Prop := {
  tx_json_roundtrip tx : tx_json_ok tx → ∃ bs, tx_MarshalJSON tx = Ret bs ∧ tx_UnmarshalJSON bs = Ret tx
}.

(** The peer's keys are known, and are those of identities of the receiving key store. *)
Definition keys_of_store `{Box} (p : wire_peer) (rks : BadgerKeyStore) : Prop :=
  ∀ a, a ∈ wp_Addresses p →
    ∃ sa i, wp_PublicKeys p a = (Some sa, Some (box_public (ek_private (id_Encrypting i)))) ∧ IdentityWithAddress rks sa = Ret i.
Definition own_key `{Box} (i : Identity) : Prop :=
  ek_public (id_Encrypting i) = box_public (ek_private (id_Encrypting i)) ∧ length (ek_public (id_Encrypting i)) = ENCRYPTING_KEY_LENGTH.

Lemma open_sealed `{BoxLaws} `{TxJsonLaws} rks ri i tx bs nonce sa :
  length nonce = ENCRYPTING_NONCE_LENGTH → own_key i → IdentityWithAddress rks sa = Ret ri → tx_UnmarshalJSON bs = Ret tx →
  open_private_tx rks (mkEncryptedTx (tx_ID tx)
    (nonce ++ box_seal nonce bs (box_public (ek_private (id_Encrypting ri))) (ek_private (id_Encrypting i)))
    (ek_public (id_Encrypting i)) sa) = Ret tx.
Proof.
  intros Hn [Hk Hl] Hri Hbs. unfold open_private_tx, OpenMessageFrom. cbn [etx_RecipientAddress etx_SenderPublicKey etx_EncryptedPayload etx_TxID].
  rewrite Hri. cbn [obind]. unfold open_message, EncryptingPublicKeyFromBytes. rewrite array_from_id by done.
  rewrite slice_head by (by rewrite Hn). cbn [obind]. rewrite drop_app_length', Hk, box_roundtrip by done. cbn [obind].
  rewrite Hbs. cbn [obind]. by rewrite decide_True.
Qed.

Lemma OverlappingAddresses_some one two a : a ∈ one → a ∈ two → ∃ b l, OverlappingAddresses one two = b :: l ∧ b ∈ two.
Proof.
  intros H1 H2. destruct (OverlappingAddresses one two) as [|b l] eqn:Ho.
  - exfalso. assert (a ∈ OverlappingAddresses one two) as Ha; [|rewrite Ho in Ha; by apply elem_of_nil in Ha].
    unfold OverlappingAddresses. apply list_elem_of_bind. exists a. split; [|done]. apply list_elem_of_bind. exists a. split; [|done].
    rewrite decide_True by done. by left.
  - exists b, l. split; [done|]. by apply OverlappingAddresses_head in Ho as [_ ?].
Qed.

Section Opens.
Context `{HJ : JsonCodec} `{HB : BoxLaws} `{HT : TxJsonLaws} (ks rks : BadgerKeyStore) (p : wire_peer) (tx : Tx) (nonce : bytes) (i : Identity) (a : Address).
Context (Ha1 : a ∈ tx_Recipients tx) (Ha2 : a ∈ wp_Addresses p) (Hok : tx_json_ok tx) (Hn : length nonce = ENCRYPTING_NONCE_LENGTH).
Context (Hkeys : keys_of_store p rks) (Hi : IdentityWithAddress ks (tx_From tx) = Ret i) (Hown : own_key i).

Lemma has_recipient_private : IsPrivate tx = true.
Proof using Ha1. unfold IsPrivate. apply bool_decide_eq_true. destruct (tx_Recipients tx); [by apply elem_of_nil in Ha1|apply Nat.lt_0_succ]. Qed.

Lemma opens_over_http : wp_DialAddr p ≠ [] → ∃ e, httpPeer_Put ks p tx nonce = Ret (Some (PrivatePut e)) ∧ open_private_tx rks e = Ret tx.
Proof using All.
  intros Hd. destruct (OverlappingAddresses_some _ _ _ Ha1 Ha2) as (b & l & Ho & Hb). destruct (Hkeys b Hb) as (sa & ri & Hk & Hri).
  destruct (tx_json_roundtrip tx Hok) as (bs & Hm & Hu).
  unfold httpPeer_Put, PutRequestFromTx. rewrite has_recipient_private, Hi, Ho, Hk, Hm. cbn [obind].
  rewrite decide_False by done. cbn. eexists. split; [done|]. by apply open_sealed.
Qed.

Lemma opens_over_libp2p : DefaultPublicIdentity ks = Ret i → ∃ e, libp2pPeer_Put ks p tx nonce = Ret (inr e) ∧ open_private_tx rks e = Ret tx.
Proof using All.
  intros Hdef. destruct (OverlappingAddresses_some _ _ _ Ha1 Ha2) as (b & l & Ho & Hb). destruct (Hkeys b Hb) as (sa & ri & Hk & Hri).
  destruct (tx_json_roundtrip tx Hok) as (bs & Hm & Hu).
  unfold libp2pPeer_Put, SealMessageFor. rewrite has_recipient_private, Hi, Ho, Hk, Hm. cbn [obind]. cbn.
  rewrite Hdef. cbn. eexists. split; [done|]. by apply open_sealed.
Qed.
End Opens.

(** A private transaction reaches the recipients it is for: when the peer has proved an
    address among them, what it is put over HTTP is sealed, and the key store that owns the
    peer's keys opens it to the transaction that was sent.  Over libp2p the same holds when
    the sender is the default public identity, whose public key is the one that is sent
    along. *)
Theorem private_tx_opens `{JsonCodec} `{BoxLaws} `{TxJsonLaws} ks rks p tx nonce i a :
  a ∈ tx_Recipients tx → a ∈ wp_Addresses p → wp_DialAddr p ≠ [] → tx_json_ok tx →
  length nonce = ENCRYPTING_NONCE_LENGTH → keys_of_store p rks → IdentityWithAddress ks (tx_From tx) = Ret i → own_key i →
  (∃ e, httpPeer_Put ks p tx nonce = Ret (Some (PrivatePut e)) ∧ open_private_tx rks e = Ret tx) ∧
  (DefaultPublicIdentity ks = Ret i → ∃ e, libp2pPeer_Put ks p tx nonce = Ret (inr e) ∧ open_private_tx rks e = Ret tx).
Proof. intros Ha1 Ha2 Hd Hok Hn Hkeys Hi Hown. split; [by eapply opens_over_http|by eapply opens_over_libp2p]. Qed.

(** ** Examples *)

#[local] Existing Instance toy_curve.
#[local] Existing Instance toy_derivation.
#[local] Existing Instance toy_codec.

(** A box that checks the keys. *)
#[local] Instance checking_box : Box := {
  box_seal nonce m pub priv := pub ++ priv ++ m;
  box_open nonce c pub priv :=
    if decide (take (length (priv ++ pub)) c = priv ++ pub) then Some (drop (length (priv ++ pub)) c) else None;
  box_public k := k
}.

#[local] Instance checking_box_laws : BoxLaws.
Proof.
  split. intros nonce m a b. simpl. rewrite app_assoc. rewrite decide_True by apply take_app_length. by rewrite drop_app_length.
Qed.

Definition a_tx (recipients : list Address) (from : Address) : Tx :=
  mkTx (id_of 7) [GenesisTxID] [] from (id_of 5) (str "foo.bar/baz") [mkPatch (str "a") None (GScalar (SBool true))] recipients true [] TxStatusUnknown EmptyHash.

Lemma a_line : ∀ s, Patch_String (mkPatch (str "a") None (GScalar (SBool true))) = Ret s → line_ok s.
Proof. intros s Hs. vm_compute in Hs. injection Hs as <-. split; [vm_decide|]. split; [apply Nat.ltb_lt; vm_compute; reflexivity|vm_decide]. Qed.

(** A text form of the transactions without patches. *)
#[local] Instance toy_json : TxJson := {
  tx_MarshalJSON tx :=
    match tx_Patches tx with
    | [] => Ret (positive_bits (encode (tx_ID tx, tx_Parents tx, tx_Children tx, tx_From tx, tx_Sig tx, tx_StateURI tx, tx_Recipients tx,
                                        tx_Checkpoint tx, tx_Attachment tx, tx_Status tx, tx_hash tx)))
    | _ => Err ErrUnimplemented
    end;
  tx_UnmarshalJSON bs :=
    match decode (bits_positive bs) with
    | Some (a, b, c, d, e, f, g, h, i, j, k) => Ret (mkTx a b c d e f [] g h i j k)
    | None => Err ErrUnimplemented
    end;
  tx_json_ok tx := tx_Patches tx = []
}.
#[local] Instance toy_json_laws : TxJsonLaws.
Proof.
  split. intros tx Hp. simpl in *. rewrite Hp. eexists. split; [done|].
  rewrite bits_positive_bits, decode_encode. rewrite <- Hp. by destruct tx.
Qed.

Lemma http_put_roundtrip_witness :
  ∃ r tx', PutRequestFromTx (a_tx [] []) key_a [] None [] = Ret (PublicPut r) ∧ servePostTx (λ b, b) [] [] r = Ret tx' ∧
    tx_Patches tx' = tx_Patches (a_tx [] []) ∧ tx_Checkpoint tx' = true.
Proof.
  destruct (http_put_roundtrip (λ b, b) [] [] (a_tx [] []) key_a [] None []
    (match Tx_Hash (λ b, b) (a_tx [] []) with Ret h => h | _ => [] end) (id_of 5 : @PublicKey toy_curve)) as (r & Hr & Hs).
  - reflexivity.
  - reflexivity.
  - apply Forall_singleton. reflexivity.
  - discriminate.
  - discriminate.
  - apply Forall_singleton. split; [split; [vm_decide|exact I|exact I]|apply a_line].
  - vm_compute. reflexivity.
  - reflexivity.
  - exists r. eexists. split; [exact Hr|]. split; [exact Hs|]. split; reflexivity.
Defined.

Definition key_b : EncryptingKeypair := mkEncrypting (id_of 12) (id_of 12).
Definition sender_store : BadgerKeyStore :=
  match Unlock (mkKeyStore None None) (str "pw") (str "words") key_b key_b with Ret k => k | _ => mkKeyStore None None end.
Definition own_addr : Address := take 20 (id_of 1).
Definition sealed_tx : Tx :=
  mkTx (id_of 7) [GenesisTxID] [] own_addr (id_of 5) (str "foo.bar/baz") [] [own_addr] true [] TxStatusUnknown EmptyHash.
Definition sealed_peer : wire_peer := mkWirePeer (str "http://peer") [own_addr] (λ a, if decide (a = own_addr) then (Some own_addr, Some (id_of 12)) else (None, None)).

Lemma private_tx_opens_witness :
  ∃ e, httpPeer_Put sender_store sealed_peer sealed_tx (take 24 (id_of 3)) = Ret (Some (PrivatePut e)) ∧
    open_private_tx sender_store e = Ret sealed_tx.
Proof.
  destruct (private_tx_opens sender_store sender_store sealed_peer sealed_tx (take 24 (id_of 3)) 
    (mkIdentity true (mkSigning (str "words") own_addr) key_b) own_addr) as [Ho _].
  - left.
  - left.
  - discriminate.
  - reflexivity.
  - reflexivity.
  - intros a Ha. cbn [sealed_peer wp_Addresses] in Ha. apply list_elem_of_singleton in Ha as ->.
    exists own_addr, (mkIdentity true (mkSigning (str "words") own_addr) key_b). split; vm_compute; reflexivity.
  - reflexivity.
  - split; reflexivity.
  - exact Ho.
Defined.


(** Over libp2p, a private transaction of another identity than the default one goes out with
    a public key that does not fit the seal: the recipient cannot open it. *)
Definition two_identities : BadgerKeyStore :=
  match NewIdentity sender_store true key_a with Ret (k, _) => k | _ => sender_store end.
Example libp2p_wrong_sender_key :
  let tx := with_recipients (mkTx (id_of 7) [] [] (take 20 (id_of 2)) [] (str "foo") [] [] false [] TxStatusUnknown EmptyHash) [own_addr] in
  ∃ e, libp2pPeer_Put two_identities sealed_peer tx (take 24 (id_of 3)) = Ret (inr e) ∧
    open_private_tx sender_store e = Err ErrCannotDecrypt.
Proof.
  intros tx.
  assert (match libp2pPeer_Put two_identities sealed_peer tx (take 24 (id_of 3)) with
          | Ret (inr e) => match open_private_tx sender_store e with Err x => bool_decide (x = ErrCannotDecrypt) | _ => false end
          | _ => false end = true) as Hr by (vm_compute; reflexivity).
  destruct (libp2pPeer_Put _ _ _ _) as [[t|e]| | |]; [discriminate| |discriminate..]. exists e. split; [reflexivity|].
  destruct (open_private_tx _ _); [discriminate| |discriminate..]. apply bool_decide_eq_true in Hr as ->. reflexivity.
Qed.
