(* ===== verification/RemoteStore.v ===== *)
(** * The remote transaction store ([remotestore/server.go], [remotestore/client.go],
    [remotestore/grpc.mw.go])

    A server keeps transactions under their hashes for clients whose address it allows.  A
    client signs the server's challenge, gets a token, and sends it along with every call.

    The token and metadata libraries are the interface [RemoteLibs]; a call is a function of
    the server, of the value of the request's [authorization] entry and of the message. *)

From S2P Require Import Prelude Types Keypath TreeTypes GoValue BadgerTxn Tx Controller ControllerProps KeyStore HttpTx.

(** ** Tokens *)

(** The claims that are read: [None] if [address] is no string. *)
Record jwt_token := mkToken { tk_address : option bytes; tk_Valid : bool }.

(** [grpc_auth.AuthFromMD] with the scheme [bearer]; [jwt.Parse] with a key function that
    accepts HMAC only, which returns nil for what is no token; [SignedString] with HS256. *)
Class RemoteLibs := {
  AuthFromMD : option bytes → outcome bytes;
  parse_token : bytes → bytes → option jwt_token;
  sign_token : bytes → bytes → outcome bytes
}.

Class RemoteLibLaws `{RemoteLibs} : Prop := {
  auth_missing : ∃ e, AuthFromMD None = Err e;
  auth_bearer tok : tok ≠ [] → " "%byte ∉ tok → AuthFromMD (Some (str "bearer " ++ tok)) = Ret tok;
  signed_token secret a : ∃ tok, sign_token secret a = Ret tok ∧ tok ≠ [] ∧ " "%byte ∉ tok ∧ parse_token secret tok = Some (mkToken (Some a) true);
  malformed_token secret tok : count_byte "."%byte tok ≠ 2 → parse_token secret tok = None
}.

Definition JWT_SECRET : bytes := str "jwt secret string".

Definition Unauthenticated (msg : string) : error := ErrOther ("Unauthenticated: " ++ msg).
Definition ErrProtocol : error := ErrOther "protocol error".

(** ** The server *)

Section Remote.
Context {T : Type} `{BadgerTxn T} `{RemoteLibs} `{Secp256k1} (keccak256 : bytes → bytes).

Record server := mkServer { sv_db : T; sv_allowed : gset Address }.

Definition NewServer (db : T) (allowedAddresses : list Address) : server := mkServer db (list_to_set allowedAddresses).

(** A token that is nil has no claims. *)
Definition requireAuth (s : server) (md : option bytes) : outcome unit :=
  let! tokenString := AuthFromMD md in
  match parse_token JWT_SECRET tokenString with
  | None => Panic
  | Some token =>
      if tk_Valid token then
        match tk_address token with
        | None => Err (Unauthenticated "invalid claims")
        | Some addrStr =>
            match AddressFromHex addrStr with
            | Ret addr => if decide (addr ∈ sv_allowed s) then Ret tt else Err (Unauthenticated "not allowed")
            | Err _ => Err (Unauthenticated "not allowed")
            | Panic => Panic
            | Running => Running
            end
        end
      else Err (Unauthenticated "invalid auth token")
  end.

(** [Authenticate]: the challenge, the client's answer to it, [None] if it is another message. *)
Definition server_Authenticate (s : server) (challenge : outcome bytes) (answer : bytes → outcome (option bytes)) : outcome bytes :=
  let! challenge := challenge in
  let! msg := answer challenge in
  match msg with
  | None => Err ErrProtocol
  | Some sig =>
      let! pubkey := RecoverSigningPubkey (HashBytes keccak256 challenge) sig in
      if decide (PublicKey_Address pubkey ∈ sv_allowed s) then sign_token JWT_SECRET (Address_Hex (PublicKey_Address pubkey))
      else Err (Unauthenticated "invalid signature")
  end.

Definition tx_key (hash : bytes) : bytes := str "tx:" ++ hash.

Definition server_AddTx (s : server) (md : option bytes) (txHash txBytes : bytes) : outcome server :=
  let! _ := requireAuth s md in
  let! db := txn_set (sv_db s) (tx_key txHash) txBytes in
  Ret (mkServer db (sv_allowed s)).

Definition server_RemoveTx (s : server) (md : option bytes) (txHash : bytes) : outcome server :=
  let! _ := requireAuth s md in
  let! db := txn_delete (sv_db s) (tx_key txHash) in
  Ret (mkServer db (sv_allowed s)).

Definition server_FetchTx (s : server) (md : option bytes) (txHash : bytes) : outcome bytes :=
  let! _ := requireAuth s md in
  match txn_get (sv_db s) (tx_key txHash) with Some v => Ret v | None => Err Err404 end.

(** [AllTxs]: the packets, and how the stream ends.  [fails] is how many packets are sent
    before sending fails or the client goes away. *)
Definition server_AllTxs (s : server) (md : option bytes) (fails : option (nat * error)) : list bytes * option error + outcome unit :=
  match requireAuth s md with
  | Ret _ =>
      let all := (filter (λ kv, has_prefix kv.1 (str "tx:") = true) (txn_items (sv_db s))).*2 in
      inl match fails with
          | Some (k, e) => if decide (0 < length all ∧ k ≤ length all) then (take k all, Some e) else (all, None)
          | None => (all, None)
          end
  | r => inr r
  end.

(** ** The client *)

Record client := mkClient { cl_jwt : bytes }.

(** What [UnaryClientJWT] and [StreamClientJWT] add to a request. *)
Definition client_md (c : client) : option bytes := if decide (cl_jwt c ≠ []) then Some (str "bearer " ++ cl_jwt c) else None.

(** [Authenticate]: the answer to the challenge, and what is kept of the response. *)
Definition client_answer (sign : Hash → outcome bytes) (challenge : bytes) : outcome (option bytes) :=
  let! sig := sign (HashBytes keccak256 challenge) in Ret (Some sig).

Definition client_Authenticate (sign : Hash → outcome bytes) (s : server) (challenge : outcome bytes) : outcome client :=
  let! jwt := server_Authenticate s challenge (client_answer sign) in Ret (mkClient jwt).

Context `{JsonCodec} `{TxJson}.

Definition client_AddTx (c : client) (s : server) (tx : Tx) : outcome server :=
  let! txBytes := tx_MarshalJSON tx in
  let! txHash := Tx_Hash keccak256 tx in
  server_AddTx s (client_md c) txHash txBytes.

(** An iterator over what arrives: [None] has nil channels, [ti_left] is what the goroutine
    has still to receive and [ti_end] how it ends. *)
Record stream := mkStream { ti_left : list bytes; ti_end : option error; ti_closed : bool }.
Record txIterator := mkTxIterator { ti_stream : option stream; ti_cancelled : bool; ti_err : option error }.

(** The state URI and the first transaction are not sent.  [opens] is the error with which the
    stream cannot be opened; what the server refuses is only seen when the stream is read. *)
Definition client_AllTxsForStateURI (c : client) (s : server) (opens : option error) (fails : option (nat * error)) (stateURI : bytes) (fromTxID : ID) :
    outcome txIterator :=
  match opens with
  | Some e => Ret (mkTxIterator None false (Some e))
  | None =>
      match server_AllTxs s (client_md c) fails with
      | inl (packets, e) => Ret (mkTxIterator (Some (mkStream packets e false)) false None)
      | inr (Err e) => Ret (mkTxIterator (Some (mkStream [] (Some e) false)) false None)
      | inr Panic => Panic
      | inr _ => Running
      end
  end.

(** [Next]; [pick] is the branch of the [select] if both are ready.  A closed channel gives
    nil. *)
Definition remote_Next (it : txIterator) (pick : bool) : outcome (txIterator * option Tx) :=
  match ti_stream it with
  | None => Running
  | Some st =>
      if ti_cancelled it && pick then Ret (it, None)
      else if ti_closed st then Ret (it, None)
      else
        match ti_left st with
        | [] => Ret (mkTxIterator (Some (mkStream [] (ti_end st) true)) (ti_cancelled it) (match ti_end st with Some e => Some e | None => ti_err it end), None)
        | b :: more =>
            match tx_UnmarshalJSON b with
            | Ret tx => Ret (mkTxIterator (Some (mkStream more (ti_end st) false)) (ti_cancelled it) (ti_err it), Some tx)
            | Err e => Ret (mkTxIterator (Some (mkStream more (ti_end st) true)) (ti_cancelled it) (Some e), None)
            | Panic => Panic
            | Running => Running
            end
        end
  end.

(** [Cancel]; closing a nil or a closed channel panics. *)
Definition remote_Cancel (it : txIterator) : outcome txIterator :=
  match ti_stream it with
  | None => Panic
  | Some _ => if ti_cancelled it then Panic else Ret (mkTxIterator (ti_stream it) true (ti_err it))
  end.

(** [for tx := iter.Next(); tx != nil; tx = iter.Next()], without cancelling. *)
Fixpoint remote_collect (fuel : nat) (it : txIterator) : outcome (list Tx * option error) :=
  match fuel with
  | O => Running
  | S fuel =>
      let! r := remote_Next it false in
      match r.2 with
      | None => Ret ([], ti_err r.1)
      | Some tx => let! rest := remote_collect fuel r.1 in Ret (tx :: rest.1, rest.2)
      end
  end.
End Remote.
Arguments server T : clear implicits.

(** ** Who may call *)

Section Access.
Context {T : Type} `{BadgerTxn T} `{RL : RemoteLibLaws} `{Secp256k1} (keccak256 : bytes → bytes).

(** A token for an allowed address, whoever made it with the secret. *)
Lemma token_accepted (s : server T) a tok :
  length a = address_length → a ∈ sv_allowed s → sign_token JWT_SECRET (Address_Hex a) = Ret tok →
  requireAuth s (Some (str "bearer " ++ tok)) = Ret tt.
Proof.
  intros Hlen Ha Htok. destruct (signed_token JWT_SECRET (Address_Hex a)) as (tok' & Htok' & Hne & Hsp & Hparse).
  rewrite Htok in Htok'. injection Htok' as <-. unfold requireAuth. rewrite auth_bearer by done. cbn [obind]. rewrite Hparse. cbn [tk_Valid tk_address].
  unfold Address_Hex, AddressFromHex. rewrite array_from_hex by done. by rewrite decide_True.
Qed.

(** No call is answered without a valid token that names an allowed address. *)
Lemma auth_needs_token (s : server T) md : requireAuth s md = Ret tt →
  ∃ tok addrStr a, AuthFromMD md = Ret tok ∧ parse_token JWT_SECRET tok = Some (mkToken (Some addrStr) true) ∧ AddressFromHex addrStr = Ret a ∧ a ∈ sv_allowed s.
Proof.
  unfold requireAuth. destruct (AuthFromMD md) as [tok| | |] eqn:Hm; cbn [obind]; [|done..].
  destruct (parse_token JWT_SECRET tok) as [[[addr|] []]|] eqn:Hp; cbn; try done. destruct (AddressFromHex addr) as [a| | |] eqn:Ha; try done.
  case_decide; [|done]. intros _. by exists tok, addr, a.
Qed.

(** A request whose token is no token at all ends the process. *)
Lemma malformed_token_panics (s : server T) tok h v : tok ≠ [] → " "%byte ∉ tok → count_byte "."%byte tok ≠ 2 →
  server_AddTx s (Some (str "bearer " ++ tok)) h v = Panic ∧ server_FetchTx s (Some (str "bearer " ++ tok)) h = Panic.
Proof.
  intros Hne Hsp Hdots. unfold server_AddTx, server_FetchTx, requireAuth. rewrite auth_bearer by done. cbn [obind]. by rewrite malformed_token.
Qed.
End Access.

(** ** Sessions *)

Section Session.
Context {T : Type} `{BL : BadgerLaws T} `{RL : RemoteLibLaws} `{Secp256k1} `{JsonCodec} `{TL : TxJsonLaws} (keccak256 : bytes → bytes).

(** The server has the transactions of [m] under their hashes. *)
Record stores (s : server T) (m : gmap bytes Tx) : Prop := {
  st_get h v : txn_get (sv_db s) (tx_key h) = Some v ↔ ∃ tx, m !! h = Some tx ∧ tx_MarshalJSON tx = Ret v;
  st_ok h tx : m !! h = Some tx → tx_json_ok tx
}.

Lemma collect_decoded bs txs e fuel :
  Forall2 (λ b tx, tx_UnmarshalJSON b = Ret tx) bs txs → length bs < fuel →
  remote_collect fuel (mkTxIterator (Some (mkStream bs e false)) false None) = Ret (txs, e).
Proof.
  intros Hf. revert fuel. induction Hf as [|b tx bs txs Hb _ IH]; intros fuel Hlt; (destruct fuel as [|fuel]; [lia|]); cbn.
  - by destruct e.
  - rewrite Hb. cbn. rewrite IH by (cbn in Hlt; lia). done.
Qed.

(** What [AllTxs] sends. *)
Lemma stored_packets s m : stores s m →
  let bs := (filter (λ kv, has_prefix kv.1 (str "tx:") = true) (txn_items (sv_db s))).*2 in
  ∃ txs, Forall2 (λ b tx, tx_UnmarshalJSON b = Ret tx) bs txs ∧ ∀ tx, tx ∈ txs ↔ ∃ h, m !! h = Some tx.
Proof.
  intros [Hget Hok]. cbn. set (items := filter _ _).
  assert (∀ k v, (k, v) ∈ items ↔ ∃ h, k = tx_key h ∧ txn_get (sv_db s) (tx_key h) = Some v) as Hitems.
  { intros k v. unfold items. rewrite list_elem_of_filter, law_items. cbn. rewrite has_prefix_spec. split.
    - intros [[h ->] Hv]. by exists h.
    - intros (h & -> & Hv). split; [by exists h|done]. }
  assert (∀ l, (∀ k v, (k, v) ∈ l → ∃ h tx, k = tx_key h ∧ m !! h = Some tx ∧ tx_UnmarshalJSON v = Ret tx) →
    ∃ txs, Forall2 (λ b tx, tx_UnmarshalJSON b = Ret tx) l.*2 txs ∧ ∀ tx, tx ∈ txs ↔ ∃ k v, (k, v) ∈ l ∧ tx_UnmarshalJSON v = Ret tx) as Hall.
  { induction l as [|[k v] l IH]; intros Hl; [exists []; split; [constructor|set_solver]|].
    destruct (Hl k v) as (h & tx & _ & _ & Hv); [set_solver|]. destruct IH as (txs & Hf & Hin); [intros k' v' Hk; apply Hl; set_solver|].
    exists (tx :: txs). split; [by constructor|]. intros tx'. rewrite elem_of_cons, Hin. split.
    - intros [->|(k' & v' & Hk & Hu)]; [exists k, v|exists k', v']; set_solver.
    - intros (k' & v' & [[= -> ->]|Hk]%elem_of_cons & Hu); [left; congruence|right; eauto]. }
  destruct (Hall items) as (txs & Hf & Hin).
  { intros k v (h & -> & Hv)%Hitems. apply Hget in Hv as (tx & Hm & Hj). destruct (tx_json_roundtrip tx (Hok h tx Hm)) as (bs & Hb & Hu).
    exists h, tx. rewrite Hj in Hb. by injection Hb as <-. }
  exists txs. split; [exact Hf|]. intros tx. rewrite Hin. split.
  - intros (k & v & (h & -> & Hv)%Hitems & Hu). apply Hget in Hv as (tx' & Hm & Hj). exists h.
    destruct (tx_json_roundtrip tx' (Hok h tx' Hm)) as (bs & Hb & Hu'). rewrite Hj in Hb. injection Hb as <-. congruence.
  - intros (h & Hm). destruct (tx_json_roundtrip tx (Hok h tx Hm)) as (bs & Hb & Hu). exists (tx_key h), bs. split; [|done]. apply Hitems. exists h. split; [done|].
    apply Hget. eauto.
Qed.

Lemma add_stores s m h tx v : stores s m → tx_json_ok tx → tx_MarshalJSON tx = Ret v →
  ∃ db, txn_set (sv_db s) (tx_key h) v = Ret db ∧ stores (mkServer db (sv_allowed s)) (<[h := tx]> m).
Proof.
  intros [Hget Hok] Htx Hv. destruct (law_set (sv_db s) (tx_key h) v) as (db & Hdb & Hlook); [done|]. exists db. split; [done|]. split; cbn [sv_db].
  - intros h' v'. rewrite Hlook. case_decide as Hk.
    + apply (inj (app (str "tx:"))) in Hk. subst. rewrite lookup_insert_eq. split; [intros [= <-]; eauto|]. intros (tx' & [= <-] & Hj). congruence.
    + assert (h' ≠ h) as Hne by (intros ->; done). by rewrite lookup_insert_ne, Hget by done.
  - intros h' tx'. destruct (decide (h = h')) as [->|Hne]; [rewrite lookup_insert_eq; by intros [= <-]|]. rewrite lookup_insert_ne by done. apply Hok.
Qed.

(** C39: a client whose key is allowed authenticates; what it then adds is stored under its
    hash beside everything that was there, and its iterator yields all stored transactions,
    each of them and nothing else, whatever state URI it asks for. *)
Theorem remote_session (s : server T) m sign challenge sig pk tx h uri from :
  stores s m →
  sign (HashBytes keccak256 challenge) = Ret sig → RecoverSigningPubkey (HashBytes keccak256 challenge) sig = Ret pk → PublicKey_Address pk ∈ sv_allowed s →
  tx_json_ok tx → Tx_Hash keccak256 tx = Ret h →
  ∃ c s', client_Authenticate keccak256 sign s (Ret challenge) = Ret c ∧ client_AddTx keccak256 c s tx = Ret s' ∧
    stores s' (<[h := tx]> m) ∧
    ∃ it txs, client_AllTxsForStateURI c s' None None uri from = Ret it ∧
      (∀ fuel, length (txn_items (sv_db s')) < fuel → remote_collect fuel it = Ret (txs, None)) ∧
      ∀ tx', tx' ∈ txs ↔ ∃ h', <[h := tx]> m !! h' = Some tx'.
Proof.
  intros Hst Hsign Hrec Hallow Hok Hhash.
  destruct (signed_token JWT_SECRET (Address_Hex (PublicKey_Address pk))) as (tok & Htok & Hne & _ & _).
  exists (mkClient tok). assert (∀ s0 : server T, sv_allowed s0 = sv_allowed s → requireAuth s0 (client_md (mkClient tok)) = Ret tt) as Hauth.
  { intros s0 Hs0. unfold client_md. cbn [cl_jwt]. rewrite decide_True by done. eapply token_accepted; [apply length_array_from|by rewrite Hs0|exact Htok]. }
  destruct (tx_json_roundtrip tx Hok) as (v & Hv & _). destruct (add_stores s m h tx v Hst Hok Hv) as (db & Hdb & Hst').
  exists (mkServer db (sv_allowed s)). split_and!; [|unfold client_AddTx, server_AddTx; rewrite Hv, Hhash; cbn [obind]; rewrite Hauth, Hdb by done; done|exact Hst'|].
  - unfold client_Authenticate, server_Authenticate, client_answer. cbn [obind]. rewrite Hsign. cbn [obind]. rewrite Hrec. cbn [obind]. rewrite decide_True by done. by rewrite Htok.
  - destruct (stored_packets _ _ Hst') as (txs & Hf & Hin). unfold client_AllTxsForStateURI, server_AllTxs. rewrite Hauth by done.
    eexists _, txs. split; [done|]. split; [|exact Hin]. intros fuel Hlt. apply collect_decoded; [exact Hf|]. rewrite length_fmap.
    eapply Nat.le_lt_trans; [apply length_filter|exact Hlt].
Qed.
End Session.

(** ** Example *)

Lemma hex_clean b bs : b = "."%byte ∨ b = " "%byte → b ∉ EncodeToString bs.
Proof.
  intros Hb. induction bs as [|x bs IH]; cbn [EncodeToString]; [apply not_elem_of_nil|]. rewrite !not_elem_of_cons. split_and!; [| |exact IH];
    destruct Hb as [-> | ->]; destruct x; vm_decide.
Qed.

Lemma count_clean b l : b ∉ l → count_byte b l = 0.
Proof. intros Hn. unfold count_byte. induction l as [|c l IH]; [done|]. apply not_elem_of_cons in Hn as [Hc Hn]. rewrite filter_cons_False by congruence. by apply IH. Qed.

(** Tokens that show the claim and the secret between dots. *)
Definition jwt_dot : byte := "."%byte.
Definition toy_token (secret a : bytes) : bytes := jwt_dot :: EncodeToString a ++ jwt_dot :: EncodeToString secret.

#[local] Instance toy_libs : RemoteLibs := {
  AuthFromMD md := match md with Some t => if has_prefix t (str "bearer ") then Ret (drop 7 t) else Err (Unauthenticated "bad scheme") | None => Err (Unauthenticated "no header") end;
  parse_token secret tok :=
    if decide (count_byte jwt_dot tok = 2) then
      let n := length tok - length (EncodeToString secret) - 1 in
      match DecodeString (take (n - 1) (tail tok)) with
      | Ret a => Some (mkToken (Some a) (bool_decide (drop n tok = jwt_dot :: EncodeToString secret)))
      | _ => Some (mkToken None false)
      end
    else None;
  sign_token secret a := Ret (toy_token secret a)
}.

#[local] Instance toy_libs_laws : RemoteLibLaws.
Proof.
  split.
  - by eexists.
  - intros tok _ _. cbn [AuthFromMD toy_libs]. by rewrite has_prefix_app.
  - intros secret a. exists (toy_token secret a). split; [done|]. split; [done|]. split.
    { unfold toy_token. rewrite not_elem_of_cons, not_elem_of_app, not_elem_of_cons. split_and!; try (apply hex_clean; by right); discriminate. }
    cbn [parse_token toy_libs]. rewrite decide_True.
    2:{ unfold toy_token. cbn [count_byte]. unfold count_byte. rewrite filter_cons_True, filter_app, filter_cons_True by done. cbn [length]. rewrite length_app. cbn [length].
        fold (count_byte jwt_dot (EncodeToString a)) (count_byte jwt_dot (EncodeToString secret)). rewrite !count_clean by (apply hex_clean; by left). done. }
    assert (length (toy_token secret a) - length (EncodeToString secret) - 1 = S (length (EncodeToString a))) as -> by (unfold toy_token; cbn; rewrite length_app; cbn; lia).
    unfold toy_token. cbn [tail Nat.sub drop]. rewrite Nat.sub_0_r, take_app_length, drop_app_length, decode_encode_hex. by rewrite bool_decide_eq_true_2.
  - intros secret tok Hn. cbn [parse_token toy_libs]. by rewrite decide_False.
Qed.

#[local] Existing Instance toy_curve.
#[local] Existing Instance toy_json.
#[local] Existing Instance toy_json_laws.

Definition remote_key : Address := take 20 (id_of 5).
Definition remote_tx : Tx := mkTx (id_of 7) [GenesisTxID] [] remote_key (id_of 5) (str "foo.bar/baz") [] [] true [] TxStatusUnknown EmptyHash.
Definition empty_remote : server (gmap bytes bytes) := NewServer ∅ [remote_key].

Lemma remote_key_address : PublicKey_Address (remote_key : @PublicKey toy_curve) = remote_key.
Proof. vm_compute. reflexivity. Qed.

Lemma remote_session_witness :
  ∃ c s' it txs, client_AddTx (λ b, b) c empty_remote remote_tx = Ret s' ∧ client_AllTxsForStateURI c s' None None (str "other.uri/x") (id_of 1) = Ret it ∧
    remote_collect (S (length (txn_items (sv_db s')))) it = Ret (txs, None) ∧ remote_tx ∈ txs.
Proof.
  destruct (remote_session (λ b, b) empty_remote ∅ (λ _, Ret remote_key) (str "challenge") remote_key (remote_key : @PublicKey toy_curve) remote_tx
    (match Tx_Hash (λ b, b) remote_tx with Ret h => h | _ => [] end) (str "other.uri/x") (id_of 1)) as (c & s' & Ha & Hadd & Hst & it & txs & Hit & Hcol & Hin).
  - split; [|by intros h tx ?]. intros h v. rewrite lookup_empty. split; [by intros ?|by intros (? & ? & _)].
  - reflexivity.
  - reflexivity.
  - rewrite remote_key_address. cbn. set_solver.
  - reflexivity.
  - vm_compute. reflexivity.
  - exists c, s', it, txs. split_and!; [exact Hadd|exact Hit|apply Hcol; lia|]. apply Hin. eexists. apply lookup_insert_eq.
Defined.
