(* ===== verification/Sets.v ===== *)
(** * Sets of strings and addresses ([utils/set.string.go], [utils/set.address.go],
      [utils/state-uri.go])

    A Go map is a reference: two variables can name the same map.  The sets live in a store
    of maps and arrays; a set is the location of its map ([None] for the nil map), and a
    [SortedStringSet] is a value, the location of a map with a slice of an array.  Methods
    with value receivers therefore change the shared map and array, but not the caller's
    slice header. *)

From S2P Require Import Prelude Types Keypath HttpTx.

(** ** Sets that are maps *)

Section MapSet.
Context {K : Type} `{Countable K}.

Abbreviation maps := (gmap nat (gset K)).
Abbreviation MapSet := (option nat).

Definition contents (σ : maps) (s : MapSet) : gset K := match s with Some l => default ∅ (σ !! l) | None => ∅ end.

(** [make(map[K]struct{})] with elements. *)
Definition make_map (σ : maps) (elems : gset K) : maps * MapSet := let l := fresh (dom σ) in (<[l := elems]> σ, Some l).

Definition NewSet (σ : maps) (vals : list K) : maps * MapSet := make_map σ (foldl (λ s v, {[v]} ∪ s) ∅ vals).

(** [s[val] = struct{}{}], which panics on the nil map. *)
Definition assign (σ : maps) (s : MapSet) (val : K) : outcome maps :=
  match s with Some l => Ret (<[l := {[val]} ∪ contents σ s]> σ) | None => Panic end.

(** [StringSet.Add] makes a map for the nil set; [AddressSet.Add] does not. *)
Definition StringSet_Add (σ : maps) (s : MapSet) (val : K) : outcome (maps * MapSet) :=
  let '(σ, s) := match s with None => make_map σ ∅ | Some _ => (σ, s) end in
  let! σ := assign σ s val in Ret (σ, s).
Definition AddressSet_Add (σ : maps) (s : MapSet) (val : K) : outcome (maps * MapSet) := let! σ := assign σ s val in Ret (σ, s).

Definition Set_Remove (σ : maps) (s : MapSet) (val : K) : maps * MapSet :=
  match s with Some l => (<[l := contents σ s ∖ {[val]}]> σ, s) | None => (σ, None) end.

Definition Set_Contains (σ : maps) (s : MapSet) (val : K) : bool := bool_decide (val ∈ contents σ s).

(** The order of [range] is an argument: any permutation of the elements. *)
Context (range : gset K → list K).

Definition Set_Slice (σ : maps) (s : MapSet) : list K := range (contents σ s).
Definition Set_Copy (σ : maps) (s : MapSet) : maps * MapSet := make_map σ (foldl (λ m v, {[v]} ∪ m) ∅ (range (contents σ s))).
Definition AddressSet_Any (zero : K) (σ : maps) (s : MapSet) : K := default zero (head (range (contents σ s))).

Definition Set_Equal (σ : maps) (s other : MapSet) : bool :=
  if decide (size (contents σ s) ≠ size (contents σ other)) then false
  else forallb (λ x, Set_Contains σ other x) (range (contents σ s)).

(** In a YAML file a set is the list of its elements, here after [node.Decode]. *)
Definition StringSet_MarshalYAML (σ : maps) (s : MapSet) : list K := Set_Slice σ s.
Definition StringSet_UnmarshalYAML (σ : maps) (slice : list K) : maps * MapSet := NewSet σ slice.
End MapSet.

(** [strings.Contains(x, "dns4")] first, then any element. *)
Definition StringSet_Any (range : gset bytes → list bytes) (σ : gmap nat (gset bytes)) (s : option nat) : bytes :=
  match filter (λ x, is_Some (index_sub x (str "dns4"))) (range (contents σ s)) with
  | x :: _ => x
  | [] => default [] (head (range (contents σ s)))
  end.

(** *** They are sets *)

Section MapSetLaws.
Context {K : Type} `{Countable K}.
Abbreviation maps := (gmap nat (gset K)).

(** A set whose map is in the store. *)
Definition valid (σ : maps) (s : option nat) : Prop := match s with Some l => l ∈ dom σ | None => True end.

Lemma foldl_union (vals : list K) (m : gset K) : foldl (λ s v, {[v]} ∪ s) m vals = list_to_set vals ∪ m.
Proof. revert m. induction vals as [|v vals IH]; intros m; simpl; [set_solver|]. rewrite IH. set_solver. Qed.

Lemma contents_insert_ne σ l m (s : option nat) : s ≠ Some l → contents (<[l := m]> σ) s = contents (K := K) σ s.
Proof. destruct s as [l'|]; [|done]. intros Hne. unfold contents. rewrite lookup_insert_ne; [done|congruence]. Qed.

Lemma make_map_spec (σ : maps) elems σ' s' :
  make_map σ elems = (σ', s') → contents σ' s' = elems ∧ valid σ' s' ∧ ∀ s, valid σ s → contents σ' s = contents σ s ∧ valid σ' s ∧ s ≠ s'.
Proof.
  unfold make_map. set (l := fresh (dom σ)). intros [= <- <-]. pose proof (is_fresh (dom σ)) as Hf. fold l in Hf. split_and!.
  - unfold contents. by rewrite lookup_insert_eq.
  - unfold valid. set_solver.
  - intros s Hs. assert (s ≠ Some l) as Hne by (by intros ->). split; [by apply contents_insert_ne|]. split; [|done].
    destruct s; [|done]. unfold valid in *. set_solver.
Qed.

Lemma StringSet_Add_spec (σ : maps) s v : valid σ s →
  ∃ σ' s', StringSet_Add σ s v = Ret (σ', s') ∧ contents σ' s' = {[v]} ∪ contents σ s ∧ valid σ' s' ∧ (s ≠ None → s' = s).
Proof.
  intros Hv. unfold StringSet_Add. destruct s as [l|].
  - cbn [assign obind]. do 2 eexists. split; [done|]. split; [unfold contents at 1; by rewrite lookup_insert_eq|].
    split; [unfold valid in *; set_solver|done].
  - destruct (make_map σ ∅) as [σ1 s1] eqn:Hm. assert (∃ l, s1 = Some l) as [l ->].
    { unfold make_map in Hm. injection Hm as _ <-. eauto. }
    apply make_map_spec in Hm as (Hc & Hv1 & _). cbn [assign obind]. do 2 eexists. split; [done|]. split; [unfold contents at 1; rewrite lookup_insert_eq, Hc; done|].
    split; [unfold valid in *; set_solver|done].
Qed.

Context (range : gset K → list K) (Hrange : ∀ m, range m ≡ₚ elements m).

Lemma Set_Equal_spec (σ : maps) s other : Set_Equal range σ s other = true ↔ contents σ s = contents σ other.
Proof using Hrange.
  unfold Set_Equal. case_decide as Hsz.
  { split; [done|]. intros Hc. by rewrite Hc in Hsz. }
  rewrite forallb_forall. split.
  - intros Hin. assert (contents σ s ⊆ contents σ other) as Hsub.
    { intros x Hx. specialize (Hin x). unfold Set_Contains in Hin. rewrite bool_decide_eq_true in Hin. apply Hin.
      apply list_elem_of_In. rewrite Hrange. by apply elem_of_elements. }
    apply set_eq. intros x. split; [apply Hsub|]. intros Hx. destruct (decide (x ∈ contents σ s)) as [|Hn]; [done|].
    assert (contents σ s ⊂ contents σ other) as Hss by set_solver. apply subset_size in Hss. lia.
  - intros -> x Hx%list_elem_of_In. rewrite Hrange in Hx. unfold Set_Contains. rewrite bool_decide_eq_true. by apply elem_of_elements.
Qed.

Lemma Set_Copy_spec (σ : maps) s σ' s' : Set_Copy range σ s = (σ', s') →
  contents σ' s' = contents σ s ∧ valid σ' s' ∧ ∀ t, valid σ t → contents σ' t = contents σ t ∧ valid σ' t ∧ t ≠ s'.
Proof using Hrange.
  unfold Set_Copy. rewrite foldl_union. intros Hm. apply make_map_spec in Hm as (-> & Hv & Hf). split_and!; [|done|done].
  apply set_eq. intros x. rewrite elem_of_union, elem_of_list_to_set, Hrange, elem_of_elements. set_solver.
Qed.

Lemma yaml_contents (σ : maps) s σ' s' :
  StringSet_UnmarshalYAML σ (StringSet_MarshalYAML range σ s) = (σ', s') → contents σ' s' = contents σ s ∧ s' ≠ None.
Proof using Hrange.
  unfold StringSet_UnmarshalYAML, NewSet. rewrite foldl_union. intros Hm. split; [|unfold make_map in Hm; naive_solver].
  apply make_map_spec in Hm as (-> & _ & _). apply set_eq. intros x. unfold StringSet_MarshalYAML, Set_Slice.
  rewrite elem_of_union, elem_of_list_to_set, Hrange, elem_of_elements. set_solver.
Qed.

(** A string set is a finite set: [Add] adds, [Remove] removes, [Contains] decides, [Slice]
    lists every element once, [Equal] compares the elements, [Copy] gives a set that later
    changes of the original do not touch, and a set that is written to YAML and read back
    has the same elements (and is not nil). *)
Theorem string_set_laws (σ : maps) s v : valid σ s →
  (∃ σ' s', StringSet_Add σ s v = Ret (σ', s') ∧ contents σ' s' = {[v]} ∪ contents σ s) ∧
  contents (Set_Remove σ s v).1 s = contents σ s ∖ {[v]} ∧
  (Set_Contains σ s v = true ↔ v ∈ contents σ s) ∧
  NoDup (Set_Slice range σ s) ∧ (∀ x, x ∈ Set_Slice range σ s ↔ x ∈ contents σ s) ∧
  (∀ t, Set_Equal range σ s t = true ↔ contents σ s = contents σ t) ∧
  (∀ σ' s', Set_Copy range σ s = (σ', s') → contents (Set_Remove σ' s v).1 s' = contents σ s) ∧
  (∀ σ' s', StringSet_UnmarshalYAML σ (StringSet_MarshalYAML range σ s) = (σ', s') → contents σ' s' = contents σ s ∧ s' ≠ None).
Proof using Hrange.
  intros Hv. split_and!.
  - destruct (StringSet_Add_spec σ s v Hv) as (σ' & s' & ? & ? & _). eauto.
  - destruct s as [l|]; [|cbn; set_solver]. cbn [Set_Remove fst]. unfold contents at 1. by rewrite lookup_insert_eq.
  - unfold Set_Contains. by rewrite bool_decide_eq_true.
  - unfold Set_Slice. rewrite Hrange. apply NoDup_elements.
  - intros x. unfold Set_Slice. by rewrite Hrange, elem_of_elements.
  - intros t. apply Set_Equal_spec.
  - intros σ' s' Hc. destruct (Set_Copy_spec _ _ _ _ Hc) as (Hcc & Hv' & Hf). destruct (Hf s Hv) as (_ & _ & Hne).
    destruct s as [l|]; cbn [Set_Remove fst]; [|done]. rewrite contents_insert_ne; done.
  - intros σ' s' Hy. by apply yaml_contents.
Qed.
End MapSetLaws.

Lemma string_set_laws_witness : ∃ σ' s', StringSet_Add (K := bytes) ∅ None (str "a") = Ret (σ', s') ∧ contents σ' s' = {[str "a"]} ∪ ∅.
Proof. destruct (string_set_laws elements (λ m, reflexivity (elements m)) ∅ None (str "a") I) as (H & _). exact H. Defined.

(** ** [SortedStringSet] *)

(** The store: maps, and the arrays under the slices. *)
Record store := mkStore { st_maps : gmap nat (gset bytes); st_arrays : gmap nat (list bytes) }.

(** A slice that starts at the beginning of its array, as all slices here do. *)
Record goslice := mkSlice { sl_array : nat; sl_len : nat }.
Record SortedStringSet := mkSorted { so_values : option nat; so_order : goslice }.

Definition array (σ : store) (s : goslice) : list bytes := default [] (st_arrays σ !! sl_array s).
Definition elems (σ : store) (s : goslice) : list bytes := take (sl_len s) (array σ s).
Definition set_array (σ : store) (s : goslice) (a : list bytes) : store := mkStore (st_maps σ) (<[sl_array s := a]> (st_arrays σ)).

Section Sorted.
(** The spare room that [append] leaves when it grows an array of the given length. *)
Context (spare_room : nat → nat).

(** [append(s, x)]: in place when there is room, otherwise in a new array. *)
Definition append (σ : store) (s : goslice) (x : bytes) : store * goslice :=
  if decide (sl_len s < length (array σ s)) then (set_array σ s (<[sl_len s := x]> (array σ s)), mkSlice (sl_array s) (S (sl_len s)))
  else let l := fresh (dom (st_arrays σ)) in
    (mkStore (st_maps σ) (<[l := elems σ s ++ [x] ++ replicate (spare_room (S (sl_len s))) []]> (st_arrays σ)), mkSlice l (S (sl_len s))).

Definition NewSortedStringSet (σ : store) (vals : list bytes) : store * SortedStringSet :=
  let '(maps, values) := NewSet (st_maps σ) vals in
  let l := fresh (dom (st_arrays σ)) in
  let '(σ, order) := foldl (λ '(σ, o) v, append σ o v) (mkStore maps (<[l := []]> (st_arrays σ)), mkSlice l 0) vals in
  (σ, mkSorted values order).

Definition Sorted_Len (s : SortedStringSet) : nat := sl_len (so_order s).
Definition Sorted_Contains (σ : store) (s : SortedStringSet) (v : bytes) : bool := Set_Contains (st_maps σ) (so_values s) v.

(** [ForEach]: the elements that [fn] is called with. *)
Fixpoint visited (fn : bytes → bool) (l : list bytes) : list bytes :=
  match l with [] => [] | v :: l => v :: if fn v then visited fn l else [] end.
Definition Sorted_ForEach (σ : store) (s : SortedStringSet) (fn : bytes → bool) : list bytes := visited fn (elems σ (so_order s)).

Definition Sorted_Add (σ : store) (s : SortedStringSet) (v : bytes) : outcome (store * SortedStringSet) :=
  let! maps := assign (st_maps σ) (so_values s) v in
  let '(σ, order) := append (mkStore maps (st_arrays σ)) (so_order s) v in
  Ret (σ, mkSorted (so_values s) order).

Fixpoint position (v : bytes) (l : list bytes) : option nat :=
  match l with [] => None | x :: l => if decide (x = v) then Some 0 else S <$> position v l end.

(** [append(s[:idx], s[idx+1:]...)] moves the rest of the array down, in place. *)
Definition cut (σ : store) (s : goslice) (idx : nat) : store * goslice :=
  let moved := drop (S idx) (elems σ s) in
  (set_array σ s (take idx (array σ s) ++ moved ++ drop (idx + length moved) (array σ s)), mkSlice (sl_array s) (sl_len s - 1)).

Definition Sorted_Remove (σ : store) (s : SortedStringSet) (v : bytes) : store * SortedStringSet :=
  let maps := (Set_Remove (st_maps σ) (so_values s) v).1 in
  let σ := mkStore maps (st_arrays σ) in
  match position v (elems σ (so_order s)) with
  | None => (σ, s)
  | Some idx =>
      if decide (idx < sl_len (so_order s) - 1) then
        let '(σ, order) := cut σ (so_order s) idx in (σ, mkSorted (so_values s) order)
      else (σ, mkSorted (so_values s) (mkSlice (sl_array (so_order s)) idx))
  end.

(** The receiver is a copy: the shorter slice is dropped. *)
Definition Sorted_Pop (σ : store) (s : SortedStringSet) : outcome (store * bytes) :=
  let! id := index (elems σ (so_order s)) (Z.of_nat (sl_len (so_order s)) - 1) in
  Ret (mkStore (Set_Remove (st_maps σ) (so_values s) id).1 (st_arrays σ), id).

Definition Sorted_Any (range : gset bytes → list bytes) (σ : store) (s : SortedStringSet) : store * bytes :=
  let id := default [] (head (range (contents (st_maps σ) (so_values s)))) in
  ((Sorted_Remove σ s id).1, id).

Definition Sorted_Slice (σ : store) (s : SortedStringSet) : list bytes := elems σ (so_order s).

Definition Sorted_Copy (range : gset bytes → list bytes) (σ : store) (s : SortedStringSet) : store * SortedStringSet :=
  let '(maps, values) := Set_Copy range (st_maps σ) (so_values s) in
  let l := fresh (dom (st_arrays σ)) in
  (mkStore maps (<[l := Sorted_Slice σ s]> (st_arrays σ)), mkSorted values (mkSlice l (sl_len (so_order s)))).

(** *** The elements in their order *)

Definition slice_ok (σ : store) (s : goslice) : Prop := sl_len s ≤ length (array σ s).

Lemma array_set σ s a : array (set_array σ s a) s = a.
Proof. unfold array, set_array. simpl. by rewrite lookup_insert_eq. Qed.

Lemma append_spec σ s x : slice_ok σ s →
  elems (append σ s x).1 (append σ s x).2 = elems σ s ++ [x] ∧ slice_ok (append σ s x).1 (append σ s x).2 ∧
  st_maps (append σ s x).1 = st_maps σ.
Proof.
  intros Hok. unfold append, slice_ok in *. case_decide as Hlt.
  - cbn [fst snd]. unfold elems. replace (array _ (mkSlice _ _)) with (<[sl_len s := x]> (array σ s)).
    2: { symmetry. apply (array_set σ s). }
    cbn [sl_len]. split_and!; [|rewrite length_insert; lia|done].
    rewrite (take_S_r _ _ x) by (by apply list_lookup_insert_eq). by rewrite take_insert_ge by lia.
  - cbn [fst snd]. assert (length (elems σ s) = sl_len s) as Hl by (unfold elems; rewrite length_take; lia).
    unfold elems at 1, array at 1 2. cbn [sl_array sl_len st_arrays]. rewrite lookup_insert_eq. cbn [default].
    unfold id. split_and!; [|rewrite !length_app; cbn; lia|done].
    rewrite (assoc_L (++)). apply take_app_length'. rewrite length_app, Hl. cbn. lia.
Qed.

Lemma append_all σ s vals : slice_ok σ s →
  let '(σ', s') := foldl (λ '(σ, o) v, append σ o v) (σ, s) vals in
  elems σ' s' = elems σ s ++ vals ∧ slice_ok σ' s' ∧ st_maps σ' = st_maps σ.
Proof.
  revert σ s. induction vals as [|v vals IH]; intros σ s Hok; simpl; [by rewrite app_nil_r|].
  destruct (append_spec σ s v Hok) as (He & Hok' & Hm). destruct (append σ s v) as [σ1 s1]. cbn [fst snd] in *.
  specialize (IH σ1 s1 Hok'). destruct (foldl _ _ vals) as [σ' s']. destruct IH as (-> & Ho & Hm'). split_and!; [|done|congruence].
  by rewrite He, <- (assoc_L (++)).
Qed.

(** The list without the first occurrence of a value. *)
Definition without_first (v : bytes) (l : list bytes) : list bytes :=
  match position v l with Some i => take i l ++ drop (S i) l | None => l end.

Lemma position_lt v l i : position v l = Some i → i < length l ∧ l !! i = Some v.
Proof.
  revert i. induction l as [|x l IH]; intros i; simpl; [done|]. case_decide as Hx.
  - intros [= <-]. split; [lia|]. by subst.
  - destruct (position v l) as [j|]; simpl; [|done]. intros [= <-]. destruct (IH j eq_refl). split; [lia|done].
Qed.

Lemma length_elems σ s : slice_ok σ s → length (elems σ s) = sl_len s.
Proof. intros Hok. unfold elems. rewrite length_take. unfold slice_ok in Hok. lia. Qed.

(** What the caller's own slice shows after [cut]: the rest moved down, the last one twice. *)
Lemma cut_spec σ s idx : slice_ok σ s → idx < sl_len s - 1 →
  elems (cut σ s idx).1 (cut σ s idx).2 = take idx (elems σ s) ++ drop (S idx) (elems σ s) ∧
  ∃ x, last (elems σ s) = Some x ∧ elems (cut σ s idx).1 s = take idx (elems σ s) ++ drop (S idx) (elems σ s) ++ [x].
Proof.
  intros Hok Hi. pose proof (length_elems σ s Hok) as Hl. unfold cut. cbn [fst snd].
  set (mv := drop (S idx) (elems σ s)). assert (length mv = sl_len s - S idx) as Hm by (unfold mv; rewrite length_drop; lia).
  assert (take idx (array σ s) = take idx (elems σ s)) as Ht. { unfold elems. rewrite take_take. f_equal. lia. }
  assert (length (take idx (elems σ s)) = idx) as Hti by (rewrite length_take; lia).
  unfold elems at 1. set (a := _ ++ mv ++ _).
  assert (array (set_array σ s a) s = a) as Ha by apply array_set.
  split.
  - change (array (set_array σ s a) (mkSlice (sl_array s) (sl_len s - 1))) with (array (set_array σ s a) s). rewrite Ha. cbn [sl_len].
    unfold a. rewrite Ht, (assoc_L (++)). apply take_app_length'. rewrite length_app, Hti, Hm. lia.
  - assert (∃ x, array σ s !! (sl_len s - 1) = Some x) as [x Hx] by (apply lookup_lt_is_Some; unfold slice_ok in Hok; lia).
    exists x. split.
    { rewrite last_lookup, Hl. unfold elems. rewrite lookup_take_lt by lia. by replace (Nat.pred (sl_len s)) with (sl_len s - 1) by lia. }
    unfold elems at 1. rewrite Ha. unfold a. rewrite Ht, Hm.
    replace (idx + (sl_len s - S idx)) with (sl_len s - 1) by lia. rewrite (drop_S _ _ _ Hx).
    change (x :: ?d) with ([x] ++ d). rewrite !(assoc_L (++)), app_nil_r. apply take_app_length'. rewrite !length_app, Hti, Hm. cbn. lia.
Qed.

Definition sorted_ok (σ : store) (s : SortedStringSet) : Prop :=
  slice_ok σ (so_order s) ∧ (∃ l, so_values s = Some l) ∧ valid (st_maps σ) (so_values s).

Lemma NewSorted_spec σ vals :
  let '(σ', s) := NewSortedStringSet σ vals in
  sorted_ok σ' s ∧ Sorted_Slice σ' s = vals ∧ contents (st_maps σ') (so_values s) = list_to_set vals.
Proof.
  unfold NewSortedStringSet. destruct (NewSet (st_maps σ) vals) as [maps values] eqn:Hn.
  set (l := fresh (dom (st_arrays σ))). set (σ0 := mkStore maps (<[l := []]> (st_arrays σ))).
  assert (array σ0 (mkSlice l 0) = []) as Ha by (unfold array; simpl; by rewrite lookup_insert_eq).
  pose proof (append_all σ0 (mkSlice l 0) vals ltac:(unfold slice_ok; simpl; lia)) as Hall.
  destruct (foldl _ _ vals) as [σ' order]. destruct Hall as (He & Hok & Hm). unfold NewSet in Hn. rewrite foldl_union in Hn.
  assert (∃ l, values = Some l) as Hv by (unfold make_map in Hn; injection Hn as _ <-; eauto).
  apply make_map_spec in Hn as (Hc & Hval & _). unfold sorted_ok, Sorted_Slice. cbn [so_order so_values]. rewrite Hm, He. cbn [st_maps σ0]. rewrite Hc.
  unfold elems. rewrite Ha. split_and!; try done. set_solver.
Qed.

Lemma Sorted_Add_spec σ s v : sorted_ok σ s →
  ∃ σ' s', Sorted_Add σ s v = Ret (σ', s') ∧ sorted_ok σ' s' ∧ Sorted_Slice σ' s' = Sorted_Slice σ s ++ [v] ∧
    contents (st_maps σ') (so_values s') = {[v]} ∪ contents (st_maps σ) (so_values s).
Proof.
  intros (Hs & [l Hl] & Hv). unfold Sorted_Add. rewrite Hl in *. cbn [assign obind].
  set (maps := <[l := _]> (st_maps σ)).
  destruct (append_spec (mkStore maps (st_arrays σ)) (so_order s) v Hs) as (He & Hok & Hm).
  destruct (append _ (so_order s) v) as [σ' order]. cbn [fst snd] in *. do 2 eexists. split; [done|].
  unfold sorted_ok, Sorted_Slice. cbn [so_order so_values]. rewrite Hm, He. cbn [st_maps].
  split_and!; try done; [by exists l|unfold maps, valid in *; set_solver|].
  unfold maps, contents at 1. by rewrite lookup_insert_eq.
Qed.

Lemma Sorted_Remove_spec σ s v : sorted_ok σ s →
  let '(σ', s') := Sorted_Remove σ s v in
  Sorted_Slice σ' s' = without_first v (Sorted_Slice σ s) ∧ Sorted_Contains σ' s' v = false.
Proof.
  intros (Hs & [l Hl] & Hv). unfold Sorted_Remove. set (σ1 := mkStore _ (st_arrays σ)).
  assert (Set_Contains (st_maps σ1) (so_values s) v = false) as Hc.
  { unfold Set_Contains. apply bool_decide_eq_false. rewrite Hl. unfold σ1. cbn [Set_Remove fst st_maps]. rewrite Hl. cbn [Set_Remove fst].
    unfold contents at 1. rewrite lookup_insert_eq. simpl. set_solver. }
  change (elems σ1 (so_order s)) with (elems σ (so_order s)). unfold without_first, Sorted_Slice.
  destruct (position v (elems σ (so_order s))) as [i|] eqn:Hp; [|done].
  pose proof (position_lt _ _ _ Hp) as [Hi Hx]. rewrite length_elems in Hi by done. case_decide as Hlt.
  - destruct (cut_spec σ1 (so_order s) i Hs Hlt) as [He _]. destruct (cut σ1 (so_order s) i) as [σ' o] eqn:Hcut. cbn [fst snd] in He.
    split; [exact He|]. unfold cut in Hcut. injection Hcut as <- <-. exact Hc.
  - split; [|exact Hc]. cbn [so_order]. rewrite (drop_ge (elems σ (so_order s))) by (rewrite length_elems by done; lia).
    rewrite app_nil_r. unfold elems. cbn [sl_len]. rewrite take_take. f_equal. lia.
Qed.
End Sorted.

(** What [SortedStringSet] is: a list in insertion order (it is not sorted) with a set beside
    it.  The values that [Add] and [Remove] return list the old elements with the new one
    last, and the old elements without the first occurrence.  But the receiver is a copy:
    [Remove] moves the elements of the caller's own slice down, so that it now ends with its
    last element twice, and [Pop] leaves the caller's slice as it is, so that a second [Pop]
    returns the same element again, which the set no longer contains. *)
Theorem sorted_set_behaviour spare_room σ s v :
  sorted_ok σ s →
  (∃ σ' s', Sorted_Add spare_room σ s v = Ret (σ', s') ∧ Sorted_Slice σ' s' = Sorted_Slice σ s ++ [v] ∧ Sorted_Contains σ' s' v = true) ∧
  (let '(σ', s') := Sorted_Remove σ s v in Sorted_Slice σ' s' = without_first v (Sorted_Slice σ s) ∧ Sorted_Contains σ' s' v = false) ∧
  (∀ i, position v (Sorted_Slice σ s) = Some i → i < Sorted_Len s - 1 →
     ∃ x, last (Sorted_Slice σ s) = Some x ∧
       Sorted_Slice (Sorted_Remove σ s v).1 s = without_first v (Sorted_Slice σ s) ++ [x]) ∧
  (∀ σ' id, Sorted_Pop σ s = Ret (σ', id) → Sorted_Contains σ' s id = false ∧ ∃ σ'', Sorted_Pop σ' s = Ret (σ'', id)).
Proof.
  intros Hok. split_and!.
  - destruct (Sorted_Add_spec spare_room σ s v Hok) as (σ' & s' & Ha & _ & Hsl & Hc). exists σ', s'. split_and!; try done.
    unfold Sorted_Contains, Set_Contains. rewrite Hc. apply bool_decide_eq_true. set_solver.
  - by apply Sorted_Remove_spec.
  - intros i Hp Hi. destruct Hok as (Hs & _ & _). unfold Sorted_Remove, Sorted_Slice, without_first, Sorted_Len in *. set (σ1 := mkStore _ (st_arrays σ)).
    change (elems σ1 (so_order s)) with (elems σ (so_order s)). rewrite Hp, decide_True by done.
    destruct (cut_spec σ1 (so_order s) i Hs Hi) as (_ & x & Hx & He). exists x. split; [exact Hx|].
    destruct (cut σ1 (so_order s) i) as [σ' o] eqn:Hcut. cbn [fst] in He |- *. rewrite He. by rewrite <- (assoc_L (++)).
  - intros σ' id. unfold Sorted_Pop. destruct (index _ _) as [x| | |] eqn:Hix; cbn [obind]; try done. intros [= <- <-]. split.
    + destruct Hok as (_ & [l Hl] & _). unfold Sorted_Contains, Set_Contains. apply bool_decide_eq_false. rewrite Hl. cbn [Set_Remove fst st_maps].
      unfold contents at 1. rewrite lookup_insert_eq. simpl. set_solver.
    + change (elems (mkStore ?m (st_arrays σ)) (so_order s)) with (elems σ (so_order s)). rewrite Hix. cbn [obind]. eauto.
Qed.

Lemma sorted_set_behaviour_witness :
  let '(σ, s) := NewSortedStringSet (λ n, n) (mkStore ∅ ∅) [str "a"; str "b"; str "c"] in
  ∃ x, Sorted_Slice (Sorted_Remove σ s (str "a")).1 s = [str "b"; str "c"] ++ [x].
Proof.
  pose proof (NewSorted_spec (λ n, n) (mkStore ∅ ∅) [str "a"; str "b"; str "c"]) as H.
  destruct (NewSortedStringSet _ _ _) as [σ s] eqn:Hn. destruct H as (Hok & Hs & _).
  destruct (sorted_set_behaviour (λ n, n) σ s (str "a") Hok) as (_ & _ & H3 & _).
  destruct (H3 0) as (x & _ & Hx).
  - rewrite Hs. reflexivity.
  - vm_compute in Hn. injection Hn as <- <-. vm_compute. lia.
  - exists x. rewrite Hx, Hs. reflexivity.
Defined.

(** ** Local state URIs *)

Definition last_of (l : list bytes) : bytes := default [] (last l).

(** [strings.Split] never returns an empty list. *)
Definition IsLocalStateURI (stateURI : bytes) : bool :=
  match split_on "/" stateURI with
  | [] => false
  | host :: _ => match split_on "." host with [] => false | ps => bool_decide (last_of ps = str "local") end
  end.

Lemma split_on_app_gen c a b : split_on c (a ++ c :: b) = split_on c a ++ split_on c b.
Proof.
  induction a as [|d a IH]; cbn [app split_on].
  - destruct (split_on c b) eqn:Hb; [by destruct (split_on_nonempty c b)|]. by rewrite decide_True.
  - rewrite IH. destruct (split_on c a) eqn:Ha; [by destruct (split_on_nonempty c a)|]. cbn. by case_decide.
Qed.

Lemma last_split_on c s t : last (split_on c s) = Some t ↔ c ∉ t ∧ (s = t ∨ ∃ h, s = h ++ c :: t).
Proof.
  split.
  - revert t. induction s as [|d s IH]; intros t; cbn [split_on]; [intros [= <-]; split; [set_solver|by left]|].
    destruct (split_on c s) as [|p ps] eqn:Hs; [by destruct (split_on_nonempty c s)|]. case_decide as Hd.
    + intros [Ht [->|[h ->]]]%IH; (split; [done|right]); [by exists []; subst|by exists (d :: h)].
    + destruct ps as [|p' ps].
      * intros [= <-]. destruct (IH p eq_refl) as [Hp [->|[h ->]]]; [split; [set_solver|by left]|].
        rewrite split_on_app_gen in Hs. apply (f_equal length) in Hs. rewrite length_app in Hs.
        pose proof (split_on_nonempty c h) as Hh. pose proof (split_on_nonempty c p) as Hp'.
        destruct (split_on c h), (split_on c p); cbn in Hs; try done; lia.
      * intros Hl. destruct (IH t Hl) as [Ht [->|[h ->]]]; [by rewrite split_on_none in Hs|].
        split; [done|right]. by exists (d :: h).
  - intros [Ht [->|[h ->]]]; [by rewrite split_on_none|]. rewrite split_on_app_gen, (split_on_none c t) by done. by rewrite last_snoc.
Qed.

(** A state URI is local exactly when its host is [local] or ends with [.local]. *)
Lemma IsLocal_host host rest : "/"%byte ∉ host →
  IsLocalStateURI (host ++ "/"%byte :: rest) = true ↔ host = str "local" ∨ ∃ h, host = h ++ str ".local".
Proof.
  intros Hh. unfold IsLocalStateURI. rewrite split_on_app by done.
  transitivity (last (split_on "." host) = Some (str "local")).
  - destruct (split_on "." host) eqn:Hs; [by destruct (split_on_nonempty "."%byte host)|]. unfold last_of.
    rewrite bool_decide_eq_true. destruct (last (l :: l0)) as [x|] eqn:Hl; [|by apply last_None in Hl]. simpl. naive_solver.
  - rewrite last_split_on. split; [by intros [_ H]|]. intros H. split; [vm_decide|exact H].
Qed.
