(* ===== verification/HttpSession.v ===== *)
(** * HTTP sessions and peer exchange ([transport.http.go])

    A browser or a peer that the host cannot reach proves its address over HTTP: the host
    gives every client a session ID in a signed cookie, hands out a challenge for the session,
    and when the client answers with a signature of the challenge, puts the address of the key
    into a second signed cookie, which later requests are trusted by.  On the way, both sides
    tell each other the peers they know in the [Alt-Svc] header.

    [ServeHTTP] is one request: the cookies and headers are read, the response has the cookies
    that are set, and a request that another part handles ends in its [route].  Session IDs
    and challenges, which the code draws at random, are arguments.  The regular expressions
    that read [Alt-Svc] are written out: each of their parts ends where the next begins, so
    matching them needs no backtracking. *)

From S2P Require Import Prelude Types Keypath TreeTypes GoValue MemoryNode BadgerTxn DBNode Tx PatchParser Controller ControllerProps.
From S2P Require Import KeyStore PeerStore HttpTx.

(** ** The [Alt-Svc] header *)

Definition is_space (b : byte) : bool := bool_decide (b ∈ [x09; x0a; x0c; x0d; x20]).
Definition is_word (b : byte) : bool :=
  let z := byte_to_Z b in
  bool_decide ((48 ≤ z ≤ 57) ∨ (65 ≤ z ≤ 90) ∨ z = 95 ∨ (97 ≤ z ≤ 122))%Z.

(** The longest prefix of bytes that pass the test, and the rest. *)
Fixpoint span (p : byte → bool) (s : bytes) : bytes * bytes :=
  match s with
  | [] => ([], [])
  | b :: s' => if p b then let '(a, r) := span p s' in (b :: a, r) else ([], s)
  end.
Definition quote : byte := x22.
Definition not_quote (b : byte) : bool := negb (bool_decide (b = quote)).
Definition not_comma (b : byte) : bool := negb (bool_decide (b = ","%byte)).

(** [altSvcRegexp1] at the start of the text: its three groups and the rest. *)
Definition match_entry (s : bytes) : option (bytes * bytes * bytes * bytes) :=
  let s := (span is_space s).2 in
  let '(transportName, s) := span is_word s in
  if decide (transportName = []) then None
  else
    match s with
    | c :: q :: s =>
        if decide (c = "="%byte ∧ q = quote) then
          let '(dialAddr, s) := span not_quote s in
          if decide (dialAddr = []) then None
          else
            match s with
            | [] => None
            | _ :: s =>
                let s := (span is_space s).2 in
                match s with
                | c :: s' =>
                    if decide (c = ";"%byte) then let '(m, r) := span not_comma s' in Some (transportName, dialAddr, c :: m, r)
                    else Some (transportName, dialAddr, [], s)
                | [] => Some (transportName, dialAddr, [], [])
                end
            end
        else None
    | _ => None
    end.

(** [altSvcRegexp2] at the start of the text: key, value and the rest. *)
Definition match_metadata (s : bytes) : option (bytes * bytes * bytes) :=
  match (span is_space s).2 with
  | c :: s =>
      if decide (c = ";"%byte) then
        let '(key, s) := span is_word (span is_space s).2 in
        if decide (key = []) then None
        else
          match s with
          | c :: s => if decide (c = "="%byte) then
                        let '(val, s) := span is_word s in if decide (val = []) then None else Some (key, val, s)
                      else None
          | [] => None
          end
      else None
  | [] => None
  end.

(** [FindAllStringSubmatch]: the leftmost match, and on behind it. *)
Fixpoint find_all {A} (m : bytes → option (A * bytes)) (fuel : nat) (s : bytes) : list A :=
  match fuel with
  | O => []
  | S fuel =>
      match m s with
      | Some (a, s) => a :: find_all m fuel s
      | None => match s with [] => [] | _ :: s => find_all m fuel s end
      end
  end.

Definition metadata (s : bytes) : gmap bytes bytes :=
  foldl (λ m kv, <[kv.1 := kv.2]> m) ∅ (find_all match_metadata (S (length s)) s).

(** The calls of [fn]. *)
Definition forEachAltSvcHeaderPeer (header : bytes) : list (bytes * bytes * gmap bytes bytes) :=
  (λ e, (e.1.1, e.1.2, metadata e.2)) <$> find_all match_entry (S (length header)) header.

Definition alt_svc_entry (d : PeerDialInfo) : bytes := TransportName d ++ "="%byte :: quote :: DialAddr d ++ [quote].
Definition makeAltSvcHeader (peerDialInfos : list PeerDialInfo) : bytes := join_with (str ", ") (alt_svc_entry <$> peerDialInfos).

Definition storeAltSvcHeaderPeers (keccak256 : bytes → bytes) (s : peerStore) (header : bytes) : peerStore :=
  if decide (header = []) then s
  else foldl (λ s e, AddDialInfos keccak256 s [mkDialInfo e.1.1 e.1.2]) s (forEachAltSvcHeaderPeer header).

(** *** What is written is read back *)

Definition dial_ok (d : PeerDialInfo) : Prop :=
  TransportName d ≠ [] ∧ Forall (λ b, is_word b = true) (TransportName d) ∧ DialAddr d ≠ [] ∧ quote ∉ DialAddr d.

Lemma span_app p a b : Forall (λ x, p x = true) a → (∀ c, head b = Some c → p c = false) → span p (a ++ b) = (a, b).
Proof.
  induction 1 as [|x a Hx _ IH]; intros Hb; simpl.
  - destruct b as [|c b]; [done|]. simpl. by rewrite (Hb c).
  - by rewrite Hx, IH.
Qed.

Lemma word_not_space b : is_word b = true → is_space b = false.
Proof. by destruct b. Qed.

Lemma Forall_not_quote s : quote ∉ s → Forall (λ x, not_quote x = true) s.
Proof.
  intros Hq. apply Forall_forall. intros x Hx. unfold not_quote. case_bool_decide as Heq; [|done]. exfalso. apply Hq. by rewrite <- Heq.
Qed.

Lemma match_printed lead d rest :
  dial_ok d → Forall (λ x, is_space x = true) lead → (rest = [] ∨ ∃ r, rest = ","%byte :: r) →
  match_entry (lead ++ alt_svc_entry d ++ rest) = Some (TransportName d, DialAddr d, [], rest).
Proof.
  intros (Hn & Hw & Ha & Hq) Hlead Hrest. unfold match_entry, alt_svc_entry. rewrite <- !app_assoc. cbn [app].
  rewrite span_app; [|done|]. 2: { intros c Hc. apply word_not_space. destruct (TransportName d) as [|x l]; [done|].
    inversion Hw. simpl in Hc. by injection Hc as <-. }
  cbn [snd]. rewrite span_app; [|done|by intros c [= <-]]. rewrite decide_False by done. rewrite decide_True by done.
  rewrite <- app_assoc. cbn [app]. rewrite span_app; [|by apply Forall_not_quote|by intros c [= <-]].
  rewrite decide_False by done. destruct Hrest as [->|[r ->]]; [done|]. simpl. done.
Qed.

Lemma find_all_printed dis fuel lead :
  Forall dial_ok dis → Forall (λ x, is_space x = true) lead → length (lead ++ makeAltSvcHeader dis) < fuel → dis ≠ [] →
  find_all match_entry fuel (lead ++ makeAltSvcHeader dis) = (λ d, (TransportName d, DialAddr d, [])) <$> dis.
Proof.
  intros Hd. revert fuel lead. induction Hd as [|d dis Hd _ IH]; intros fuel lead Hl Hf Hne; [done|].
  destruct fuel as [|fuel]; [lia|]. unfold makeAltSvcHeader in *. destruct dis as [|d' dis].
  - cbn [fmap list_fmap join_with] in *. cbn [find_all].
    rewrite <- (app_nil_r (alt_svc_entry d)), (match_printed lead d []) by (try done; by left). by destruct fuel.
  - change (join_with (str ", ") (alt_svc_entry <$> d :: d' :: dis))
      with (alt_svc_entry d ++ (","%byte :: [x20]) ++ join_with (str ", ") (alt_svc_entry <$> d' :: dis)) in *.
    cbn [find_all]. rewrite match_printed by (try done; right; by eexists). apply (f_equal (cons (TransportName d, DialAddr d, []))).
    assert (3 ≤ length (alt_svc_entry d)) by (unfold alt_svc_entry; rewrite length_app; simpl; rewrite length_app; simpl; lia).
    rewrite !length_app in Hf. destruct fuel as [|fuel]; [simpl in Hf; lia|]. cbn [find_all app].
    change (match_entry _) with (@None (bytes * bytes * bytes * bytes)). apply (IH fuel [x20]); [|rewrite length_app; simpl in Hf |- *; lia|done].
    by apply Forall_singleton.
Qed.

Lemma header_read_back dis : Forall dial_ok dis → dis ≠ [] →
  forEachAltSvcHeaderPeer (makeAltSvcHeader dis) = (λ d, (TransportName d, DialAddr d, ∅)) <$> dis.
Proof.
  intros Hd Hne. unfold forEachAltSvcHeaderPeer.
  rewrite (find_all_printed dis _ []) by (try done; simpl; lia). rewrite <- list_fmap_compose. by apply list_fmap_ext.
Qed.

Lemma IsKnownPeer_spec s di : IsKnownPeer s di = true ↔ is_Some (ps_peers s !! di).
Proof.
  unfold IsKnownPeer. rewrite existsb_exists. split.
  - intros (d & Hd%list_elem_of_In & ->%bool_decide_eq_true). apply list_elem_of_fmap in Hd as ([d' p] & -> & Hd).
    apply elem_of_map_to_list in Hd. by eexists.
  - intros [p Hp]. exists di. split; [|by apply bool_decide_eq_true]. apply list_elem_of_In, list_elem_of_fmap. exists (di, p).
    split; [done|]. by apply elem_of_map_to_list.
Qed.

Lemma AllDialInfos_spec s di : di ∈ AllDialInfos s ↔ is_Some (ps_peers s !! di).
Proof.
  unfold AllDialInfos. rewrite list_elem_of_fmap. split.
  - intros ([d p] & -> & Hd). apply elem_of_map_to_list in Hd. by eexists.
  - intros [p Hp]. exists (di, p). split; [done|]. by apply elem_of_map_to_list.
Qed.

Lemma add_dial_info_known kc s d di :
  is_Some (ps_peers (add_dial_info kc s d) !! di) ↔ is_Some (ps_peers s !! di) ∨ di = d ∧ DialAddr d ≠ [].
Proof.
  unfold add_dial_info. case_decide as Hn; [naive_solver|]. destruct (ps_peers s !! d) as [p|] eqn:Hp.
  - split; [by left|]. intros [?|[-> _]]; [done|by eexists].
  - unfold announce, with_unverified, with_peer. cbn [alloc fst snd ps_peers].
    match goal with |- context [savePeerDetails kc ?x ?p] => destruct (save_fields kc x p) as (_ & -> & _) end.
    cbn [ps_peers]. rewrite lookup_insert_is_Some'. naive_solver.
Qed.

Lemma AddDialInfos_known kc l s di :
  is_Some (ps_peers (AddDialInfos kc s l) !! di) ↔ is_Some (ps_peers s !! di) ∨ di ∈ l ∧ DialAddr di ≠ [].
Proof.
  revert s. induction l as [|d l IH]; intros s; simpl; [set_solver|].
  rewrite (IH (add_dial_info kc s d)), add_dial_info_known. set_solver.
Qed.

Lemma store_peers_known kc l s di :
  is_Some (ps_peers (foldl (λ s e, AddDialInfos kc s [mkDialInfo e.1.1 e.1.2]) s l) !! di) ↔
  is_Some (ps_peers s !! di) ∨ DialAddr di ≠ [] ∧ ∃ m, (TransportName di, DialAddr di, m : gmap bytes bytes) ∈ l.
Proof.
  revert s. induction l as [|e l IH]; intros s; cbn [foldl]; [set_solver|].
  rewrite IH, AddDialInfos_known, list_elem_of_singleton. destruct e as [[tn da] m], di as [tn' da']. cbn. setoid_rewrite elem_of_cons. naive_solver.
Qed.

(** Peers learn about each other's peers: when a host reads the header that another host
    writes from its peer store, it knows the peers it knew before and those that the other
    host knows, and no others; for transports and addresses that the header can carry. *)
Theorem peer_exchange kc s other :
  rtc (ps_step kc) (empty_store ∅) other → Forall dial_ok (AllDialInfos other) →
  ∀ di, IsKnownPeer (storeAltSvcHeaderPeers kc s (makeAltSvcHeader (AllDialInfos other))) di = IsKnownPeer s di || IsKnownPeer other di.
Proof.
  intros Hr Hok di. apply eq_bool_prop_intro. rewrite !Is_true_true, orb_true_iff, !IsKnownPeer_spec.
  unfold storeAltSvcHeaderPeers. destruct (AllDialInfos other) as [|d dis] eqn:Hd.
  { rewrite decide_True by done. rewrite <- (AllDialInfos_spec other), Hd, elem_of_nil. naive_solver. }
  rewrite decide_False. 2: { unfold makeAltSvcHeader. rewrite fmap_cons. unfold alt_svc_entry at 1.
    destruct (alt_svc_entry <$> dis); cbn [join_with]; by destruct (TransportName d). }
  rewrite header_read_back by done. rewrite store_peers_known. setoid_rewrite list_elem_of_fmap. rewrite <- Hd. split.
  - intros [?|(Hn & m & d' & Heq & Hd')]; [by left|]. right. apply AllDialInfos_spec. destruct di, d'. by simplify_eq/=.
  - intros [?|Hk]; [by left|]. right. destruct Hk as [p Hp]. split; [by apply (wf_reachable kc other Hr) in Hp as [? _]|].
    exists ∅, di. split; [done|]. apply AllDialInfos_spec. by eexists.
Qed.

(** ** Signed cookies *)

(** The public half of a private key. *)
Class SigningPublic `{Secp256k1} := { signing_public : bytes → PublicKey }.

Definition ErrNoCookie : error := ErrOther "http: named cookie not present".
Definition ErrBadCookie : error := ErrOther "bad cookie".
Definition ErrNoPendingAuthorization : error := ErrOther "no pending authorization".

Definition http_name : bytes := str "http".
Definition sessionid_name : bytes := str "sessionid".
Definition address_name : bytes := str "address".

Record httpTransport := mkTransport {
  t_keyStore : BadgerKeyStore;
  t_cookieSecret : bytes;
  t_pendingAuthorizations : gmap ID bytes;
  t_peerStore : peerStore
}.
Definition with_pending (t : httpTransport) (m : gmap ID bytes) : httpTransport :=
  mkTransport (t_keyStore t) (t_cookieSecret t) m (t_peerStore t).
Definition with_peerStore (t : httpTransport) (s : peerStore) : httpTransport :=
  mkTransport (t_keyStore t) (t_cookieSecret t) (t_pendingAuthorizations t) s.

(** The cookies of a request by name, and those that a response sets, in order. *)
Abbreviation cookies := (gmap bytes bytes).
Abbreviation set_cookies := (list (bytes * bytes)).

Section Sessions.
Context `{Secp256k1} `{!SigningPublic} `{Derivation} (keccak256 : bytes → bytes).

(** [BadgerKeyStore.VerifySignature] *)
Definition ks_VerifySignature (ks : BadgerKeyStore) (usingIdentity : Address) (hash : Hash) (signature : bytes) : outcome bool :=
  let! identity := IdentityWithAddress ks usingIdentity in
  VerifySignature (signing_public (sk_private (id_Signing identity))) hash signature.

Definition cookie_hash (t : httpTransport) (value : bytes) : Hash := HashBytes keccak256 (value ++ t_cookieSecret t).
Definition cookie_text (value sig : bytes) : bytes := EncodeToString value ++ ":"%byte :: EncodeToString sig.

(** The cookies that were set before are dropped. *)
Definition setSignedCookie (t : httpTransport) (w : set_cookies) (name value : bytes) : outcome set_cookies :=
  let! publicIdentity := DefaultPublicIdentity (t_keyStore t) in
  let! sig := SignHash (t_keyStore t) (Identity_Address publicIdentity) (cookie_hash t value) in
  Ret [(name, cookie_text value sig)].

Definition bad_cookie {A} (m : outcome A) : outcome A := match m with Err _ => Err ErrBadCookie | _ => m end.

Definition signedCookie (t : httpTransport) (r : cookies) (name : bytes) : outcome bytes :=
  match r !! name with
  | None => Err ErrNoCookie
  | Some text =>
      match split_on ":" text with
      | [part0; part1] =>
          let! value := bad_cookie (DecodeString part0) in
          let! sig := bad_cookie (DecodeString part1) in
          let! publicIdentity := DefaultPublicIdentity (t_keyStore t) in
          let! valid := ks_VerifySignature (t_keyStore t) (Identity_Address publicIdentity) (cookie_hash t value) sig in
          if valid : bool then Ret value else Err ErrBadCookie
      | _ => Err ErrBadCookie
      end
  end.

Definition setSessionIDCookie (t : httpTransport) (w : set_cookies) (random : ID) : outcome (ID * set_cookies) :=
  let! w := setSignedCookie t w sessionid_name random in Ret (random, w).

Definition ensureSessionIDCookie (t : httpTransport) (w : set_cookies) (r : cookies) (random : ID) : outcome (ID * set_cookies) :=
  match signedCookie t r sessionid_name with
  | Ret sessionIDBytes => Ret (IDFromBytes sessionIDBytes, w)
  | Err _ => setSessionIDCookie t w random
  | Panic => Panic
  | Running => Running
  end.

Definition addressFromCookie (t : httpTransport) (r : cookies) : outcome Address :=
  match signedCookie t r address_name with
  | Ret addressBytes => Ret (AddressFromBytes addressBytes)
  | Err _ => Ret (array_from address_length [])
  | Panic => Panic
  | Running => Running
  end.

(** ** Peers of requests *)

(** The details of the peer; [None] are ephemeral ones. *)
Definition makePeer (t : httpTransport) (dialAddr : bytes) (address : Address) : outcome (httpTransport * option nat) :=
  let di := mkDialInfo http_name dialAddr in
  if negb (IsZero address) then
    let! s := AddVerifiedCredentials keccak256 (t_peerStore t) di address None None in
    Ret (with_peerStore t s, head (PeersFromTransportWithAddress s http_name address))
  else if decide (dialAddr ≠ []) then
    let s := AddDialInfos keccak256 (t_peerStore t) [di] in
    Ret (with_peerStore t s, PeerWithDialInfo s di)
  else Ret (t, None).

(** ** Challenges *)

(** The transport and the body of the response. *)
Definition serveChallengeIdentity (t : httpTransport) (sessionID : ID) (challenge : bytes) : httpTransport * bytes :=
  (with_pending t (<[sessionID := challenge]> (t_pendingAuthorizations t)), EncodeToString challenge).

(** The transport, the cookies and the error that is answered: the cookies set before are gone
    once the new one is to be set. *)
Definition serveChallengeIdentityCheckResponse (t : httpTransport) (w : set_cookies) (sessionID : ID) (responseHex : bytes) :
    outcome (httpTransport * set_cookies * option error) :=
  match t_pendingAuthorizations t !! sessionID with
  | None => Ret (t, w, Some ErrNoPendingAuthorization)
  | Some challenge =>
      match (let! sig := DecodeString responseHex in RecoverSigningPubkey (HashBytes keccak256 challenge) sig) with
      | Ret sigpubkey =>
          let addr := PublicKey_Address sigpubkey in
          match setSignedCookie t w address_name addr with
          | Ret w =>
              let! s := AddVerifiedCredentials keccak256 (t_peerStore t) (mkDialInfo http_name []) addr (Some (FromECDSAPub sigpubkey)) None in
              Ret (with_pending (with_peerStore t s) (delete sessionID (t_pendingAuthorizations t)), w, None)
          | Err e => Ret (t, [], Some e)
          | Panic => Panic
          | Running => Running
          end
      | Err e => Ret (t, w, Some e)
      | Panic => Panic
      | Running => Running
      end
  end.
End Sessions.

(** ** One request *)

Record request := mkRequest { r_Method : bytes; r_Path : bytes; r_Header : bytes → bytes; r_Cookies : cookies }.

(** The handler that a request goes to. *)
Inductive route :=
  | RouteNothing
  | RouteChallengeResponse (challengeMsgHex : bytes)
  | RouteChallenge
  | RouteCheckResponse (responseHex : bytes)
  | RouteSubscription | RouteRedwoodJS | RouteGetTx | RouteGetState
  | RoutePostRef | RouteAck | RoutePutPrivate | RoutePut
  | RouteUnsupported.

Definition route_of (r : request) : route :=
  let m := r_Method r in
  if decide (m = str "HEAD" ∨ m = str "OPTIONS") then RouteNothing
  else if decide (m = str "AUTHORIZE") then
    if decide (r_Header r (str "Challenge") ≠ []) then RouteChallengeResponse (r_Header r (str "Challenge"))
    else if decide (r_Header r (str "Response") = []) then RouteChallenge else RouteCheckResponse (r_Header r (str "Response"))
  else if decide (m = str "GET") then
    if decide (r_Header r (str "Subscribe") ≠ [] ∨ r_Path r = str "/ws") then RouteSubscription
    else if decide (r_Path r = str "/redwood.js") then RouteRedwoodJS
    else if has_prefix (r_Path r) (str "/__tx/") then RouteGetTx
    else RouteGetState
  else if decide (m = str "POST") then if decide (r_Header r (str "Ref") = str "true") then RoutePostRef else RouteNothing
  else if decide (m = str "ACK") then RouteAck
  else if decide (m = str "PUT") then if decide (r_Header r (str "Private") = str "true") then RoutePutPrivate else RoutePut
  else RouteUnsupported.

(** What is answered: an error, the challenge, an accepted answer, the identities of this host
    to a challenge, or what the handler of another part answers to the client that has
    proved [address]. *)
Inductive answer :=
  | AError (e : error)
  | AChallenge (challengeHex : bytes)
  | AAuthorized
  | AIdentities (challengeMsg : bytes)
  | AHandled (rt : route) (address : Address).

Record response := mkResponse { rs_AltSvc : bytes; rs_cookies : set_cookies; rs_answer : answer }.

Section Serve.
Context `{Secp256k1} `{!SigningPublic} `{Derivation} (keccak256 : bytes → bytes).

Definition serve_route (t : httpTransport) (w : set_cookies) (sessionID : ID) (address : Address) (challenge : bytes) (rt : route) :
    outcome (httpTransport * set_cookies * answer) :=
  match rt with
  | RouteChallengeResponse challengeMsgHex =>
      match DecodeString challengeMsgHex with
      | Ret challengeMsg => let! r := makePeer keccak256 t [] address in Ret (r.1, w, AIdentities challengeMsg)
      | Err e => Ret (t, w, AError e)
      | Panic => Panic
      | Running => Running
      end
  | RouteChallenge => let '(t, body) := serveChallengeIdentity t sessionID challenge in Ret (t, w, AChallenge body)
  | RouteCheckResponse responseHex =>
      let! r := serveChallengeIdentityCheckResponse keccak256 t w sessionID responseHex in
      let '(t, w, err) := r in
      Ret (t, w, match err with Some e => AError e | None => AAuthorized end)
  | _ => Ret (t, w, AHandled rt address)
  end.

Definition ServeHTTP (t : httpTransport) (r : request) (random : ID) (challenge : bytes) : outcome (httpTransport * response) :=
  match ensureSessionIDCookie keccak256 t [] (r_Cookies r) random with
  | Ret (sessionID, w) =>
      let! address := addressFromCookie keccak256 t (r_Cookies r) in
      let altSvc := makeAltSvcHeader (AllDialInfos (t_peerStore t)) in
      let t := with_peerStore t (storeAltSvcHeaderPeers keccak256 (t_peerStore t) (r_Header r (str "Alt-Svc"))) in
      let! res := serve_route t w sessionID address challenge (route_of r) in
      let '(t, w, a) := res in
      Ret (t, mkResponse altSvc w a)
  | Err e => Ret (t, mkResponse [] [] (AError e))
  | Panic => Panic
  | Running => Running
  end.
End Serve.

(** ** Cookies and logins *)

(** A signature verifies with the public half of the key that made it. *)
Class SignVerifyLaws `{Secp256k1} `{!SigningPublic} `{Derivation} : Prop := {
  sign_verify m i kp hash : SigningKeypairFromHDMnemonic m i = Ret kp →
    ∃ sig, sign_hash (sk_private kp) hash = Ret sig ∧ VerifySignature (signing_public (sk_private kp)) hash sig = Ret true
}.

(** A key store that is unlocked and has a public identity. *)
Definition usable (ks : BadgerKeyStore) (i : Identity) : Prop :=
  DefaultPublicIdentity ks = Ret i ∧ IdentityWithAddress ks (Identity_Address i) = Ret i.

Lemma hex_no_colon bs : ":"%byte ∉ EncodeToString bs.
Proof.
  induction bs as [|b bs IH]; cbn [EncodeToString]; [apply not_elem_of_nil|].
  rewrite !not_elem_of_cons. split_and!; [by destruct b..|done].
Qed.

Lemma split_cookie v sig : split_on ":" (cookie_text v sig) = [EncodeToString v; EncodeToString sig].
Proof. unfold cookie_text. rewrite split_on_app by apply hex_no_colon. by rewrite split_on_none by apply hex_no_colon. Qed.

Section Cookies.
Context `{HS : Secp256k1} `{HSP : !SigningPublic} `{HD : Derivation} (keccak256 : bytes → bytes).
Implicit Types t : httpTransport.

(** What an accepted cookie shows. *)
Lemma signedCookie_inv t r name v :
  signedCookie keccak256 t r name = Ret v →
  ∃ text part0 part1 sig i, r !! name = Some text ∧ split_on ":" text = [part0; part1] ∧ DecodeString part0 = Ret v ∧
    DefaultPublicIdentity (t_keyStore t) = Ret i ∧
    ks_VerifySignature (t_keyStore t) (Identity_Address i) (cookie_hash keccak256 t v) sig = Ret true.
Proof.
  unfold signedCookie. destruct (r !! name) as [text|]; [|done].
  destruct (split_on ":" text) as [|p0 [|p1 [|]]] eqn:Hs; try done. unfold bad_cookie.
  destruct (DecodeString p0) as [v'| | |] eqn:H0; cbn [obind]; [|done..].
  destruct (DecodeString p1) as [sig| | |] eqn:H1; cbn [obind]; [|done..].
  destruct (DefaultPublicIdentity _) as [i| | |] eqn:Hi; cbn [obind]; [|done..].
  destruct (ks_VerifySignature _ _ _ _) as [[]| | |] eqn:Hv; cbn [obind]; [|done..]. intros [= ->].
  exists text, p0, p1, sig, i. by split_and!.
Qed.

Lemma setSignedCookie_inv t w name v w' :
  setSignedCookie keccak256 t w name v = Ret w' → ∃ sig, w' = [(name, cookie_text v sig)].
Proof.
  unfold setSignedCookie. destruct (DefaultPublicIdentity _) as [i| | |]; cbn [obind]; [|done..].
  destruct (SignHash _ _ _) as [sig| | |]; cbn [obind]; [|done..]. intros [= <-]. by eexists.
Qed.

Context `{HV : !SignVerifyLaws}.

Lemma cookie_accepted t i w name v m n :
  usable (t_keyStore t) i → SigningKeypairFromHDMnemonic m n = Ret (id_Signing i) →
  ∃ text, setSignedCookie keccak256 t w name v = Ret [(name, text)] ∧
    ∀ t' r name', t_keyStore t' = t_keyStore t → t_cookieSecret t' = t_cookieSecret t → r !! name' = Some text →
      signedCookie keccak256 t' r name' = Ret v.
Proof.
  intros [Hi Ha] Hk. destruct (sign_verify _ _ _ (cookie_hash keccak256 t v) Hk) as (sig & Hsig & Hv).
  exists (cookie_text v sig). split.
  - unfold setSignedCookie, SignHash. rewrite Hi. cbn [obind]. rewrite Ha. cbn [obind]. by rewrite Hsig.
  - intros t' r name' Hks Hsec Hr. unfold signedCookie. rewrite Hr, split_cookie, !decode_encode_hex. cbn [bad_cookie obind].
    rewrite Hks, Hi. cbn [obind]. unfold ks_VerifySignature. rewrite Ha. cbn [obind].
    unfold cookie_hash in *. rewrite Hsec, Hv. done.
Qed.
End Cookies.

Lemma wf_store_peers kc s header : ps_wf s → ps_wf (storeAltSvcHeaderPeers kc s header).
Proof.
  intros Hwf. unfold storeAltSvcHeaderPeers. case_decide; [done|]. generalize (forEachAltSvcHeaderPeer header) as l. intros l.
  revert s Hwf. induction l as [|e l IH]; intros s Hwf; [done|]. cbn [foldl]. apply IH. by apply wf_AddDialInfos.
Qed.

(** A client logs in with three requests: the first one gives it a session cookie and a
    challenge; the answer with a signature of the challenge, sent with the session cookie,
    gives it an address cookie; and every later request that has this cookie is taken for one
    of the address whose key signed the challenge.  The challenge can be answered once. *)
Theorem http_login `{Secp256k1} `{!SigningPublic} `{Derivation} `{!SignVerifyLaws} keccak256 t i m n r1 r2 random random' challenge challenge' sig pk :
  usable (t_keyStore t) i → SigningKeypairFromHDMnemonic m n = Ret (id_Signing i) → ps_wf (t_peerStore t) →
  length random = id_length → r_Cookies r1 = ∅ → route_of r1 = RouteChallenge → route_of r2 = RouteCheckResponse (EncodeToString sig) →
  RecoverSigningPubkey (HashBytes keccak256 challenge) sig = Ret pk → IsZero (PublicKey_Address pk) = false →
  ∃ t1 t2 a1 a2 c1 c2,
    ServeHTTP keccak256 t r1 random challenge = Ret (t1, mkResponse a1 [(sessionid_name, c1)] (AChallenge (EncodeToString challenge))) ∧
    (r_Cookies r2 = {[sessionid_name := c1]} →
       ServeHTTP keccak256 t1 r2 random' challenge' = Ret (t2, mkResponse a2 [(address_name, c2)] AAuthorized)) ∧
    t_pendingAuthorizations t2 !! random = None ∧
    ∀ r, r !! address_name = Some c2 → addressFromCookie keccak256 t2 r = Ret (PublicKey_Address pk).
Proof.
  intros Hi Hk Hwf Hlen Hc1 Hr1 Hr2 Hrec Hz.
  destruct (cookie_accepted keccak256 t i [] sessionid_name random m n Hi Hk) as (c1 & Hset1 & Hget1).
  destruct (cookie_accepted keccak256 t i [] address_name (PublicKey_Address pk) m n Hi Hk) as (c2 & Hset2 & Hget2).
  set (s1 := storeAltSvcHeaderPeers keccak256 (t_peerStore t) (r_Header r1 (str "Alt-Svc"))).
  set (s2 := storeAltSvcHeaderPeers keccak256 s1 (r_Header r2 (str "Alt-Svc"))).
  assert (ps_wf s2) as Hwf2 by (by do 2 apply wf_store_peers).
  destruct (AddVerifiedCredentials_fields keccak256 s2 (mkDialInfo http_name []) _ (Some (FromECDSAPub pk)) None Hwf2 Hz)
    as (s3 & _ & _ & _ & _ & _ & Hadd & _).
  set (t1 := with_pending (with_peerStore t s1) (<[random := challenge]> (t_pendingAuthorizations t))).
  exists t1, (with_pending (with_peerStore t s3) (delete random (<[random := challenge]> (t_pendingAuthorizations t)))).
  do 2 eexists. exists c1, c2. split_and!.
  - unfold ServeHTTP, ensureSessionIDCookie, addressFromCookie, signedCookie. rewrite Hc1, !lookup_empty.
    unfold setSessionIDCookie. rewrite Hset1. cbn [obind]. by rewrite Hr1.
  - intros Hc2. unfold ServeHTTP, ensureSessionIDCookie, addressFromCookie.
    rewrite (Hget1 t1 _ sessionid_name) by (try done; by rewrite Hc2, lookup_singleton_eq).
    unfold signedCookie. rewrite Hc2, lookup_singleton_ne by done. cbn [obind]. rewrite Hr2. cbn [serve_route].
    unfold serveChallengeIdentityCheckResponse. cbn [t1 with_pending with_peerStore t_pendingAuthorizations t_peerStore].
    unfold IDFromBytes. rewrite array_from_id, lookup_insert_eq by done. rewrite decode_encode_hex. cbn [obind]. rewrite Hrec.
    change (setSignedCookie keccak256 _ _ address_name (PublicKey_Address pk)) with (setSignedCookie keccak256 t [] address_name (PublicKey_Address pk)).
    rewrite Hset2. fold s2. rewrite Hadd. cbn [obind]. done.
  - cbn. apply lookup_delete_eq.
  - intros r Hr. unfold addressFromCookie. rewrite (Hget2 _ r address_name) by done. unfold AddressFromBytes.
    rewrite array_from_id; [done|]. apply length_array_from.
Qed.

(** The signature of a cookie does not cover its name: the session cookie is accepted as an
    address. *)
Theorem cookie_name_not_signed `{Secp256k1} `{!SigningPublic} `{Derivation} `{!SignVerifyLaws} keccak256 t i m n random :
  usable (t_keyStore t) i → SigningKeypairFromHDMnemonic m n = Ret (id_Signing i) →
  ∃ c, setSessionIDCookie keccak256 t [] random = Ret (random, [(sessionid_name, c)]) ∧
    addressFromCookie keccak256 t {[address_name := c]} = Ret (AddressFromBytes random).
Proof.
  intros Hi Hk. destruct (cookie_accepted keccak256 t i [] sessionid_name random m n Hi Hk) as (c & Hset & Hget).
  exists c. unfold setSessionIDCookie, addressFromCookie. rewrite Hset. split; [done|].
  by rewrite (Hget t _ address_name) by (try done; apply lookup_singleton_eq).
Qed.

(** A cookie whose signature is missing makes the request panic. *)
Theorem cookie_without_signature_panics `{Secp256k1} `{!SigningPublic} `{Derivation} keccak256 t i r name v :
  usable (t_keyStore t) i → r !! name = Some (EncodeToString v ++ [":"%byte]) → signedCookie keccak256 t r name = Panic.
Proof.
  intros [Hi Ha] Hr. unfold signedCookie. rewrite Hr. change (EncodeToString v ++ [":"%byte]) with (cookie_text v []).
  rewrite split_cookie, !decode_encode_hex. cbn [bad_cookie obind]. rewrite Hi. cbn [obind]. unfold ks_VerifySignature. rewrite Ha. done.
Qed.

(** ** Whom a request is taken for *)

Record exchange := mkExchange { ex_request : request; ex_random : ID; ex_response : response }.

Section Soundness.
Context `{HS : Secp256k1} `{HSP : !SigningPublic} `{HD : Derivation} (keccak256 : bytes → bytes).
Implicit Types (t : httpTransport) (log : list exchange).

(** The requests that a transport has served, with what it answered. *)
Inductive served (t0 : httpTransport) : list exchange → httpTransport → Prop :=
  | served_nil : served t0 [] t0
  | served_next log t r random challenge t' resp :
      served t0 log t → ServeHTTP keccak256 t r random challenge = Ret (t', resp) →
      served t0 (log ++ [mkExchange r random resp]) t'.

Definition handed_out log (challenge : bytes) : Prop :=
  ∃ e, e ∈ log ∧ rs_answer (ex_response e) = AChallenge (EncodeToString challenge).

(** Someone answered a challenge of this host with a signature of the key of [a]. *)
Definition answered log (a : Address) : Prop :=
  ∃ e challenge sig pk, e ∈ log ∧ handed_out log challenge ∧
    DecodeString (r_Header (ex_request e) (str "Response")) = Ret sig ∧
    RecoverSigningPubkey (HashBytes keccak256 challenge) sig = Ret pk ∧ PublicKey_Address pk = a.

(** A cookie with this value was set. *)
Definition issued log (v : bytes) : Prop :=
  ∃ e name sig, e ∈ log ∧ (name, cookie_text v sig) ∈ rs_cookies (ex_response e).

Record log_wf (t0 : httpTransport) log t : Prop := {
  lw_keys : t_keyStore t = t_keyStore t0;
  lw_secret : t_cookieSecret t = t_cookieSecret t0;
  lw_pending sid c : t_pendingAuthorizations t !! sid = Some c → handed_out log c;
  lw_issued v : issued log v → answered log v ∨ ∃ e, e ∈ log ∧ v = ex_random e
}.

Lemma handed_out_app log log' c : handed_out log c → handed_out (log ++ log') c.
Proof. intros (e & He & Ha). exists e. set_solver. Qed.
Lemma answered_log_app log log' a : answered log a → answered (log ++ log') a.
Proof.
  intros (e & c & sig & pk & He & Hh & Hd & Hr & Ha). exists e, c, sig, pk. split; [set_solver|]. split; [by apply handed_out_app|done].
Qed.

(** What one request can add: nothing pending but its own challenge, and no cookie but a fresh
    session or an address whose key answered. *)
Definition step_adds t r random challenge t' resp : Prop :=
  t_keyStore t' = t_keyStore t ∧ t_cookieSecret t' = t_cookieSecret t ∧
  (∀ sid c, t_pendingAuthorizations t' !! sid = Some c →
     t_pendingAuthorizations t !! sid = Some c ∨ c = challenge ∧ rs_answer resp = AChallenge (EncodeToString challenge)) ∧
  ∀ name text, (name, text) ∈ rs_cookies resp →
    ∃ v sig, text = cookie_text v sig ∧
      (v = random ∨ ∃ sid c sig' pk, t_pendingAuthorizations t !! sid = Some c ∧ DecodeString (r_Header r (str "Response")) = Ret sig' ∧
         RecoverSigningPubkey (HashBytes keccak256 c) sig' = Ret pk ∧ PublicKey_Address pk = v).

Lemma route_check r responseHex : route_of r = RouteCheckResponse responseHex → responseHex = r_Header r (str "Response").
Proof. unfold route_of. repeat case_decide; try done; try (by destruct (has_prefix _ _)). by intros [= <-]. Qed.

Lemma makePeer_keeps t d a t' p : makePeer keccak256 t d a = Ret (t', p) →
  t_keyStore t' = t_keyStore t ∧ t_cookieSecret t' = t_cookieSecret t ∧ t_pendingAuthorizations t' = t_pendingAuthorizations t.
Proof.
  unfold makePeer. case_match; [destruct (AddVerifiedCredentials _ _ _ _ _ _); cbn [obind]; try done|case_decide]; by intros [= <- _].
Qed.

Lemma check_response_adds t w sid hex t' w' err :
  serveChallengeIdentityCheckResponse keccak256 t w sid hex = Ret (t', w', err) →
  t_keyStore t' = t_keyStore t ∧ t_cookieSecret t' = t_cookieSecret t ∧
  t_pendingAuthorizations t' ⊆ t_pendingAuthorizations t ∧
  ∀ x, x ∈ w' → x ∈ w ∨ ∃ c sig sig' pk, t_pendingAuthorizations t !! sid = Some c ∧ DecodeString hex = Ret sig ∧
    RecoverSigningPubkey (HashBytes keccak256 c) sig = Ret pk ∧ x = (address_name, cookie_text (PublicKey_Address pk) sig').
Proof.
  unfold serveChallengeIdentityCheckResponse. destruct (t_pendingAuthorizations t !! sid) as [c|]; [|intros [= <- <- _]; auto].
  destruct (DecodeString hex) as [sig| | |]; cbn [obind]; [|intros [= <- <- _]; auto|done..].
  destruct (RecoverSigningPubkey _ sig) as [pk| | |] eqn:Hpk; [|intros [= <- <- _]; auto|done..].
  destruct (setSignedCookie _ _ _ _ _) as [w1| | |] eqn:Hw; [|intros [= <- <- _]; split_and!; try done; set_solver|done..].
  destruct (AddVerifiedCredentials _ _ _ _ _ _) as [s| | |]; cbn [obind]; [|done..]. intros [= <- <- _].
  apply setSignedCookie_inv in Hw as [sig' ->]. split_and!; [done..|apply delete_subseteq|].
  intros x ->%list_elem_of_singleton. right. by exists c, sig, sig', pk.
Qed.

Lemma serve_route_adds t w sid a challenge r t' w' ans :
  serve_route keccak256 t w sid a challenge (route_of r) = Ret (t', w', ans) →
  t_keyStore t' = t_keyStore t ∧ t_cookieSecret t' = t_cookieSecret t ∧
  (∀ sid' c, t_pendingAuthorizations t' !! sid' = Some c →
     t_pendingAuthorizations t !! sid' = Some c ∨ c = challenge ∧ ans = AChallenge (EncodeToString challenge)) ∧
  ∀ x, x ∈ w' → x ∈ w ∨ ∃ c sig sig' pk, t_pendingAuthorizations t !! sid = Some c ∧ DecodeString (r_Header r (str "Response")) = Ret sig ∧
    RecoverSigningPubkey (HashBytes keccak256 c) sig = Ret pk ∧ x = (address_name, cookie_text (PublicKey_Address pk) sig').
Proof.
  unfold serve_route. destruct (route_of r) eqn:Hr; try (intros [= <- <- _]; by auto).
  - destruct (DecodeString _) as [msg| | |]; [|intros [= <- <- _]; by auto|done..].
    destruct (makePeer _ _ _ _) as [[t1 p]| | |] eqn:Hm; cbn [obind]; [|done..]. intros [= <- <- _].
    apply makePeer_keeps in Hm as (H1 & H2 & H3). cbn [fst]. rewrite H3. auto.
  - intros [= <- <- <-]. cbn. split_and!; [done..| |by auto]. intros sid' c [[_ <-]|[_ ?]]%lookup_insert_Some; auto.
  - apply route_check in Hr as ->. destruct (serveChallengeIdentityCheckResponse _ _ _ _ _) as [[[t1 w1] err]| | |] eqn:Hc; cbn [obind]; [|done..].
    intros [= <- <- _]. apply check_response_adds in Hc as (H1 & H2 & H3 & H4). split_and!; [done..| |done].
    intros sid' c Hl. left. by eapply lookup_weaken.
Qed.

Lemma ServeHTTP_adds t r random challenge t' resp :
  ServeHTTP keccak256 t r random challenge = Ret (t', resp) → step_adds t r random challenge t' resp.
Proof.
  unfold ServeHTTP. destruct (ensureSessionIDCookie _ _ _ _ _) as [[sid w]| | |] eqn:Hs; [|intros [= <- <-]; split_and!; try done; set_solver|done..].
  destruct (addressFromCookie _ _ _) as [a| | |]; cbn [obind]; [|done..].
  destruct (serve_route _ _ _ _ _ _ _) as [[[t1 w1] ans]| | |] eqn:Hr; cbn [obind]; [|done..]. intros [= <- <-].
  apply serve_route_adds in Hr as (H1 & H2 & H3 & H4). split_and!; [done..|]. cbn [rs_cookies]. intros name text Hx.
  destruct (H4 _ Hx) as [Hw|(c & sig & sig' & pk & Hp & Hd & Hrec & [= -> ->])].
  - unfold ensureSessionIDCookie, setSessionIDCookie in Hs. destruct (signedCookie _ _ _ _); [injection Hs as _ <-; set_solver| |done..].
    destruct (setSignedCookie _ _ _ _ _) as [w'| | |] eqn:Hset; cbn [obind] in Hs; [|done..]. injection Hs as _ <-.
    apply setSignedCookie_inv in Hset as [sig ->]. apply list_elem_of_singleton in Hw as [= -> ->]. exists random, sig. by auto.
  - exists (PublicKey_Address pk), sig'. split; [done|]. right. by exists sid, c, sig, pk.
Qed.

Lemma cookie_text_inj v v' sig sig' : cookie_text v sig = cookie_text v' sig' → v = v'.
Proof.
  intros Heq. pose proof (split_cookie v sig) as Hs. rewrite Heq, split_cookie in Hs. injection Hs as Hv _.
  assert (Ret v' = Ret v) as [= ->]; [|done]. by rewrite <- !decode_encode_hex, Hv.
Qed.

Lemma served_wf t0 log t : t_pendingAuthorizations t0 = ∅ → served t0 log t → log_wf t0 log t.
Proof.
  intros H0. induction 1 as [|log t r random challenge t' resp _ [I1 I2 I3 I4] Hs].
  { split; [done..| |]. - intros sid c. by rewrite H0, lookup_empty. - intros v (e & _ & _ & He & _). by apply elem_of_nil in He. }
  apply ServeHTTP_adds in Hs as (S1 & S2 & S3 & S4). set (e := mkExchange r random resp). split; [congruence..| |].
  - intros sid c Hc. destruct (S3 _ _ Hc) as [Hold|[-> Ha]]; [by apply handed_out_app; eauto|]. exists e. split; [set_solver|done].
  - intros v (e' & name & sig & [He' | ->%list_elem_of_singleton]%elem_of_app & Hx).
    + destruct (I4 v) as [Ha|(e0 & He0 & ->)]; [by exists e', name, sig|left; by apply answered_log_app|]. right. exists e0. set_solver.
    + destruct (S4 _ _ Hx) as (v' & sig0 & Heq & Hv). apply cookie_text_inj in Heq as <-.
      destruct Hv as [->|(sid & c & sig' & pk & Hp & Hd & Hrec & Ha)]; [right; exists e; set_solver|]. left.
      exists e, c, sig', pk. split_and!; [set_solver|apply handed_out_app; eauto|done..].
Qed.
End Soundness.

(** C16: An address is believed only when its key has answered: whoever sends a request that is
    taken for one of an address, that address belongs to a key that signed a challenge this
    host handed out, and the signature was sent in an earlier request.  The one exception is
    the confusion of the two cookies: an address cut from a session ID that the host itself
    drew at random.  This is for signatures that cannot be forged: whatever verifies under
    the host's key was set by it in a cookie. *)
Theorem session_authenticates `{Secp256k1} `{!SigningPublic} `{Derivation} keccak256 t0 log t r a :
  t_pendingAuthorizations t0 = ∅ → served keccak256 t0 log t →
  (∀ i v sig, DefaultPublicIdentity (t_keyStore t) = Ret i →
     ks_VerifySignature (t_keyStore t) (Identity_Address i) (cookie_hash keccak256 t v) sig = Ret true → issued log v) →
  addressFromCookie keccak256 t r = Ret a → IsZero a = false →
  answered keccak256 log a ∨ ∃ e, e ∈ log ∧ a = AddressFromBytes (ex_random e).
Proof.
  intros Hpend Hs Hforge Ha Hz. apply served_wf in Hs as [_ _ _ Hi]; [|done]. unfold addressFromCookie in Ha.
  destruct (signedCookie keccak256 t r address_name) as [v| | |] eqn:Hc; [injection Ha as <-|injection Ha as <-; unfold IsZero in Hz|done..].
  2: { by rewrite bool_decide_eq_true_2 in Hz. }
  apply signedCookie_inv in Hc as (text & p0 & p1 & sig & i & _ & _ & _ & Hdef & Hv).
  destruct (Hi v (Hforge i v sig Hdef Hv)) as [(e & c & sig' & pk & He & Hh & Hd & Hrec & <-)|(e & He & ->)]; [left|right; by exists e].
  exists e, c, sig', pk. split_and!; try done. unfold AddressFromBytes. by rewrite array_from_id by apply length_array_from.
Qed.

(** ** Examples *)

Lemma peer_exchange_witness :
  IsKnownPeer (storeAltSvcHeaderPeers id (empty_store ∅) (makeAltSvcHeader (AllDialInfos known_store))) di_http = true.
Proof.
  rewrite (peer_exchange id (empty_store ∅) known_store).
  - reflexivity.
  - apply rtc_once. apply step_AddDialInfos.
  - vm_compute AllDialInfos. repeat constructor; try discriminate; vm_decide.
Defined.

(** Keys that are their own public keys. *)
#[local] Existing Instance toy_curve.
#[local] Existing Instance toy_codec.
#[local] Instance session_derivation : Derivation := {
  SigningKeypairFromHDMnemonic m i := Ret (mkSigning m (take 20 (id_of (S i))));
  sign_hash sk h := Ret (x01 :: sk)
}.
#[local] Instance session_public : SigningPublic := { signing_public k := k }.
#[local] Instance session_verify : SignVerifyLaws.
Proof.
  split. intros m i kp hash Hk. eexists. split; [done|]. unfold VerifySignature, slice. rewrite decide_True by (simpl; lia). done.
Qed.

Definition session_keys : BadgerKeyStore :=
  match Unlock (mkKeyStore None None) (str "pw") (str "words") key_b key_b with Ret k => k | _ => mkKeyStore None None end.
Definition session_identity : Identity := mkIdentity true (mkSigning (str "words") (take 20 (id_of 1))) key_b.
Definition transport_0 : httpTransport := mkTransport session_keys (str "secret") ∅ (empty_store ∅).
Definition client_key : bytes := take 20 (id_of 7).
Definition login_request (response : bytes) (c : cookies) : request :=
  mkRequest (str "AUTHORIZE") (str "/") (λ h, if decide (h = str "Response") then response else []) c.

Lemma session_keys_usable : usable session_keys session_identity.
Proof. split; vm_compute; reflexivity. Qed.

Lemma http_login_witness :
  ∃ t1 t2 a1 a2 c1 c2,
    ServeHTTP id transport_0 (login_request [] ∅) (id_of 3) (str "prove it") =
      Ret (t1, mkResponse a1 [(sessionid_name, c1)] (AChallenge (EncodeToString (str "prove it")))) ∧
    ServeHTTP id t1 (login_request (EncodeToString client_key) {[sessionid_name := c1]}) [] [] =
      Ret (t2, mkResponse a2 [(address_name, c2)] AAuthorized) ∧
    addressFromCookie id t2 {[address_name := c2]} = Ret client_key.
Proof.
  destruct (ServeHTTP id transport_0 (login_request [] ∅) (id_of 3) (str "prove it")) as [[t1 [a1 cs1 ans1]]| | |] eqn:H1;
    [|vm_compute in H1; discriminate H1..].
  set (c1 := match cs1 with (_, c) :: _ => c | [] => [] end).
  destruct (http_login id transport_0 session_identity (str "words") 0 (login_request [] ∅)
    (login_request (EncodeToString client_key) {[sessionid_name := c1]}) (id_of 3) [] (str "prove it") [] client_key (client_key : @PublicKey toy_curve))
    as (t1' & t2 & a1' & a2 & c1' & c2 & E1 & E2 & _ & E3).
  - exact session_keys_usable.
  - reflexivity.
  - apply wf_empty.
  - reflexivity.
  - reflexivity.
  - reflexivity.
  - reflexivity.
  - reflexivity.
  - reflexivity.
  - rewrite H1 in E1. injection E1 as -> -> -> ->. exists t1', t2, a1', a2, c1', c2. split; [reflexivity|].
    split; [apply E2; reflexivity|]. rewrite (E3 {[address_name := c2]}) by apply lookup_singleton_eq. reflexivity.
Defined.

(** A hash and a curve under which only the cookies of the login verify. *)
Definition login_hash (b : bytes) : bytes :=
  if decide (b = id_of 3 ++ str "secret") then [x01] else if decide (b = client_key ++ str "secret") then [x02] else [].
Definition strict_curve : Secp256k1 := {|
  PublicKey := bytes;
  SigToPub _ sig := Ret sig;
  geth_VerifySignature _ hash _ := bool_decide (hash = array_from hash_length [x01] ∨ hash = array_from hash_length [x02]);
  FromECDSAPub pk := pk;
  PubkeyToAddress pk := take 20 pk
|}.
#[local] Existing Instance strict_curve | 0.
#[local] Instance strict_public : @SigningPublic strict_curve := { signing_public (k : bytes) := (k : @PublicKey strict_curve) }.

Definition serve_login (t : httpTransport) (r : request) : httpTransport * response :=
  match ServeHTTP (H := strict_curve) login_hash t r (id_of 3) (str "prove it") with
  | Ret x => x
  | _ => (t, mkResponse [] [] AAuthorized)
  end.
Definition first_cookie (r : response) : bytes := match rs_cookies r with (_, c) :: _ => c | [] => [] end.
Definition login_1 : request := login_request [] ∅.
Definition served_1 : httpTransport * response := serve_login transport_0 login_1.
Definition login_2 : request := login_request (EncodeToString client_key) {[sessionid_name := first_cookie served_1.2]}.
Definition served_2 : httpTransport * response := serve_login served_1.1 login_2.
Definition login_log : list exchange := [mkExchange login_1 (id_of 3) served_1.2; mkExchange login_2 (id_of 3) served_2.2].

Lemma login_served : served (HS := strict_curve) login_hash transport_0 login_log served_2.1.
Proof.
  apply (served_next login_hash transport_0 [mkExchange login_1 (id_of 3) served_1.2] served_1.1 login_2 (id_of 3) (str "prove it")).
  - apply (served_next login_hash transport_0 [] transport_0 login_1 (id_of 3) (str "prove it")); [apply served_nil|].
    vm_compute. reflexivity.
  - vm_compute. reflexivity.
Qed.

Lemma login_issued v sig :
  ks_VerifySignature (H := strict_curve) (t_keyStore served_2.1) (take 20 (id_of 1)) (cookie_hash login_hash served_2.1 v) sig = Ret true →
  issued login_log v.
Proof.
  unfold ks_VerifySignature.
  change (IdentityWithAddress (t_keyStore served_2.1) (take 20 (id_of 1))) with (Ret session_identity). cbn [obind]. unfold VerifySignature.
  destruct (slice _ _ _); cbn [obind]; [|done..]. intros [= Hv%bool_decide_eq_true].
  unfold cookie_hash, HashBytes, login_hash in Hv. change (t_cookieSecret served_2.1) with (str "secret") in Hv.
  case_decide as H1; [apply app_inv_tail in H1 as ->|case_decide as H2; [apply app_inv_tail in H2 as ->|]].
  - exists (mkExchange login_1 (id_of 3) served_1.2), sessionid_name, (x01 :: str "words"). split; [by left|]. vm_compute. left.
  - exists (mkExchange login_2 (id_of 3) served_2.2), address_name, (x01 :: str "words"). split; [by right; left|]. vm_compute. left.
  - destruct Hv as [Hv|Hv]; vm_compute in Hv; discriminate Hv.
Qed.

Lemma session_authenticates_witness :
  answered (HS := strict_curve) login_hash login_log client_key ∨ ∃ e, e ∈ login_log ∧ client_key = AddressFromBytes (ex_random e).
Proof.
  apply (session_authenticates (H := strict_curve) login_hash transport_0 login_log served_2.1 {[address_name := first_cookie served_2.2]}).
  - reflexivity.
  - apply login_served.
  - intros i v sig Hi. assert (Ret i = Ret session_identity) as [= ->] by (rewrite <- Hi; vm_compute; reflexivity). apply login_issued.
  - vm_compute. reflexivity.
  - reflexivity.
Defined.
