(* ===== verification/Host.v ===== *)
(** * The host ([host.go], [host.subscriptions.go])

    The host connects the parts: it takes transactions from peers and from the application,
    answers requests for history, tells subscribers and peers about new states, and proves
    its identities to peers and checks theirs.

    A subscriber is an object that the host knows by its identity ([ws_id]); what is enqueued
    for it is returned in the order of the calls.  Where the code starts a goroutine per
    subscriber or peer, the goroutines run one after the other in an order that is an
    argument.  A peer is what the host asks it for. *)

From S2P Require Import Prelude Types Keypath TreeTypes GoValue MemoryNode BadgerTxn DBNode Tx TxStore Mempool Permissions Controller ControllerProps.
From S2P Require Import Hub PeerStore KeyStore HttpTx.

(** ** Subscription types: bits of a [uint8] *)

Definition SubscriptionType := Z.
Definition SubscriptionType_Txs : SubscriptionType := 1%Z.
Definition SubscriptionType_States : SubscriptionType := 2%Z.

Definition Includes (t x : SubscriptionType) : bool := bool_decide (Z.land t x = x).

Definition SubscriptionType_String (t : SubscriptionType) : bytes :=
  join_with (str ",") ((if Includes t SubscriptionType_Txs then [str "transactions"] else []) ++
                       (if Includes t SubscriptionType_States then [str "states"] else [])).

(** [strings.Trim] with a quote *)
Fixpoint trim_left_byte (c : byte) (s : bytes) : bytes :=
  match s with [] => [] | b :: s' => if decide (b = c) then trim_left_byte c s' else s end.
Definition trim_byte (c : byte) (s : bytes) : bytes := reverse (trim_left_byte c (reverse (trim_left_byte c s))).

Definition type_bit (part : bytes) : option Z :=
  if decide (TrimSpace part = str "transactions") then Some SubscriptionType_Txs
  else if decide (TrimSpace part = str "states") then Some SubscriptionType_States else None.

Definition ErrBadSubscriptionType : error := ErrOther "bad value for SubscriptionType".

Definition SubscriptionType_UnmarshalText (bs : bytes) : outcome SubscriptionType :=
  let! st := fold_outcome (λ st part, of_option ErrBadSubscriptionType (Z.lor st <$> type_bit part)) 0%Z (split_on "," (trim_byte x22 bs)) in
  if decide (st = 0%Z) then Err ErrBadSubscriptionType else Ret st.

(** ** Subscribers *)

(** What the host asks a peer for. *)
Record host_peer := mkHostPeer { hp_DialInfo : PeerDialInfo; hp_Addresses : list Address }.

Inductive sub_kind := RemoteSub (peer : wire_peer) | InProcessSub.
Record wsub := mkWsub {
  ws_id : nat;
  ws_stateURI : bytes;
  ws_keypath : Keypath;
  ws_type : SubscriptionType;
  ws_kind : sub_kind
}.

(** [writeSub.(Peer)]: the peer, if the subscription is one.  Neither of the
    two types of subscriptions has the methods of [Peer]; a [writableSubscription] only
    holds one. *)
Definition as_Peer (w : wsub) : option host_peer :=
  match ws_kind w with RemoteSub _ => None | InProcessSub => None end.

Record SubscriptionMsg (St : Type) := mkMsg { sm_Tx : option Tx; sm_State : option St; sm_Leaves : list ID }.
Arguments mkMsg {St} _ _ _.
Arguments sm_Tx {St} _.
Arguments sm_State {St} _.
Arguments sm_Leaves {St} _.

(** What [writeMessages] hands to [Put]: the parts of the message that were asked for. *)
Definition masked {St} (t : SubscriptionType) (m : SubscriptionMsg St) : SubscriptionMsg St :=
  mkMsg (if Includes t SubscriptionType_Txs then sm_Tx m else None)
        (if Includes t SubscriptionType_States then sm_State m else None) (sm_Leaves m).

(** [writeMessages]: the messages handed to [Put], the mailbox and whether a [Put] failed;
    [put] is the result of the n-th [Put]. *)
Fixpoint write_messages {St} (fuel : nat) (t : SubscriptionType) (put : nat → option error) (i : nat) (mb : Mailbox (SubscriptionMsg St)) :
    list (SubscriptionMsg St) * Mailbox (SubscriptionMsg St) * bool :=
  match fuel with
  | O => ([], mb, false)
  | S fuel =>
      match Retrieve mb with
      | (None, mb) => ([], mb, false)
      | (Some m, mb) =>
          match put i with
          | Some _ => ([masked t m], mb, true)
          | None => let '(l, mb, failed) := write_messages fuel t put (S i) mb in (masked t m :: l, mb, failed)
          end
      end
  end.
Definition writeMessages {St} (t : SubscriptionType) (put : nat → option error) (mb : Mailbox (SubscriptionMsg St)) :=
  write_messages (S (length (mb_queue mb))) t put 0 mb.

(** ** The host *)

Section Host.
Context {T : Type} `{BadgerTxn T} `{JsonCodec} `{ProtoCodec} `{MapOrder} `{Secp256k1} `{Configs T} `{Derivation}.
Context {St : Type} (NodeAt : St → Keypath → St).
Context (keccak256 : bytes → bytes) (open_db : bytes → outcome T).

Record host := mkHost {
  ho_hub : controllerHub (T := T);
  ho_writable : gmap bytes (list wsub);
  ho_seen : gmap PeerDialInfo (gmap bytes (gset ID));
  ho_subscribed : option (gset bytes);           (* [config.Node.SubscribedStateURIs], [None] for the nil map *)
  ho_peers : peerStore;
  ho_keys : BadgerKeyStore
}.
Definition with_hub (h : host) (x : controllerHub) : host :=
  mkHost x (ho_writable h) (ho_seen h) (ho_subscribed h) (ho_peers h) (ho_keys h).
Definition with_seen (h : host) (x : gmap PeerDialInfo (gmap bytes (gset ID))) : host :=
  mkHost (ho_hub h) (ho_writable h) x (ho_subscribed h) (ho_peers h) (ho_keys h).
Definition with_subscribed (h : host) (x : option (gset bytes)) : host :=
  mkHost (ho_hub h) (ho_writable h) (ho_seen h) x (ho_peers h) (ho_keys h).
Definition with_peers (h : host) (x : peerStore) : host :=
  mkHost (ho_hub h) (ho_writable h) (ho_seen h) (ho_subscribed h) x (ho_keys h).
Definition with_writable (h : host) (x : gmap bytes (list wsub)) : host :=
  mkHost (ho_hub h) x (ho_seen h) (ho_subscribed h) (ho_peers h) (ho_keys h).

(** *** Transactions that peers have seen *)

Definition markTxSeenByPeer (h : host) (peer : host_peer) (stateURI : bytes) (txID : ID) : host :=
  let byURI : gmap bytes (gset ID) := default ∅ (ho_seen h !! hp_DialInfo peer) in
  let ids : gset ID := default ∅ (byURI !! stateURI) in
  with_seen h (<[hp_DialInfo peer := <[stateURI := {[txID]} ∪ ids]> byURI]> (ho_seen h)).

Definition seen_ids (h : host) (dialInfo : PeerDialInfo) (stateURI : bytes) : gset ID :=
  default ∅ (ho_seen h !! dialInfo ≫= lookup stateURI).

Definition txSeenByPeer (h : host) (peer : host_peer) (stateURI : bytes) (txID : ID) : bool :=
  if decide (hp_Addresses peer = []) then false
  else bool_decide (txID ∈ seen_ids h (hp_DialInfo peer) stateURI).

(** *** Receiving and sending transactions *)

(** The host afterwards; the acknowledgement is sent in any case. *)
Definition HandleTxReceived (h : host) (tx : Tx) (peer : host_peer) : outcome host :=
  let h := markTxSeenByPeer h peer (tx_StateURI tx) (tx_ID tx) in
  if hub_HaveTx (ho_hub h) (tx_StateURI tx) (tx_ID tx) then Ret h
  else let! r := hub_AddTx keccak256 open_db (ho_hub h) tx false in Ret (with_hub h r.1.1).

Definition HandleAckReceived (h : host) (stateURI : bytes) (txID : ID) (peer : host_peer) : host := markTxSeenByPeer h peer stateURI txID.

Definition ErrNoPublicIdentities : error := ErrOther "keystore has no public identities".

Definition with_from (tx : Tx) (a : Address) : Tx :=
  mkTx (tx_ID tx) (tx_Parents tx) (tx_Children tx) a (tx_Sig tx) (tx_StateURI tx) (tx_Patches tx)
    (tx_Recipients tx) (tx_Checkpoint tx) (tx_Attachment tx) (tx_Status tx) (tx_hash tx).
Definition with_parents (tx : Tx) (ps : list ID) : Tx :=
  mkTx (tx_ID tx) ps (tx_Children tx) (tx_From tx) (tx_Sig tx) (tx_StateURI tx) (tx_Patches tx)
    (tx_Recipients tx) (tx_Checkpoint tx) (tx_Attachment tx) (tx_Status tx) (tx_hash tx).
Definition with_sig (tx : Tx) (sig : Signature) : Tx :=
  mkTx (tx_ID tx) (tx_Parents tx) (tx_Children tx) (tx_From tx) sig (tx_StateURI tx) (tx_Patches tx)
    (tx_Recipients tx) (tx_Checkpoint tx) (tx_Attachment tx) (tx_Status tx) (tx_hash tx).

(** The missing fields of a transaction are filled in: sender, parents, signature. *)
Definition complete_tx (h : host) (tx : Tx) : outcome Tx :=
  let! tx :=
    if IsZero (tx_From tx) then
      let! publicIdentities := PublicIdentities (ho_keys h) in
      match publicIdentities with [] => Err ErrNoPublicIdentities | i :: _ => Ret (with_from tx (Identity_Address i)) end
    else Ret tx in
  let tx := if decide (tx_Parents tx = [] ∧ tx_ID tx ≠ GenesisTxID) then with_parents tx (hub_Leaves (ho_hub h) (tx_StateURI tx)) else tx in
  if decide (tx_Sig tx = []) then
    let! hash := Tx_Hash keccak256 tx in
    let! sig := SignHash (ho_keys h) (tx_From tx) hash in
    Ret (with_sig tx sig)
  else Ret tx.

(** [SubscribedStateURIs.Add], whose result is dropped: the nil map stays nil. *)
Definition config_Add (h : host) (stateURI : bytes) : host := with_subscribed h (union {[stateURI]} <$> ho_subscribed h).

(** The host afterwards and the error. *)
Definition SendTx (h : host) (tx : Tx) : outcome (host * option error) :=
  match complete_tx h tx with
  | Ret tx =>
      let! r := hub_AddTx keccak256 open_db (ho_hub h) tx false in
      let '(hub, _, err) := r in
      let h := with_hub h hub in
      match err with
      | Some e => Ret (h, Some e)
      | None => Ret (config_Add h (tx_StateURI tx), None)
      end
  | Err e => Ret (h, Some e)
  | Panic => Panic
  | Running => Running
  end.

(** *** Subscriptions *)

Fixpoint any_member (h : host) (stateURI : bytes) (addrs : list Address) : outcome bool :=
  match addrs with
  | [] => Ret false
  | addr :: addrs =>
      let! isAllowed := hub_IsMember (ho_hub h) stateURI addr in
      if isAllowed then Ret true else any_member h stateURI addrs
  end.

(** Whether the subscriber may see a private state: subscriptions that are not peers are
    trusted. *)
Definition is_allowed (h : host) (stateURI : bytes) (w : wsub) : outcome bool :=
  match as_Peer w with Some peer => any_member h stateURI (hp_Addresses peer) | None => Ret true end.

(** Whether something about the state URI is written to the subscriber. *)
Definition may_write (h : host) (stateURI : bytes) (w : wsub) : outcome bool :=
  let! isPrivate := hub_IsPrivate (ho_hub h) stateURI in
  if isPrivate then is_allowed h stateURI w else Ret true.

(** The messages that are enqueued, and the error the request ends with. *)
Fixpoint history_loop (h : host) (stateURI : bytes) (w : wsub) (txs : list Tx) : outcome (list (SubscriptionMsg St) * option error) :=
  match txs with
  | [] => Ret ([], None)
  | tx :: txs =>
      let leaves := hub_Leaves (ho_hub h) stateURI in
      match may_write h (tx_StateURI tx) w with
      | Ret ok =>
          let! r := history_loop h stateURI w txs in
          Ret ((if ok then [mkMsg (Some tx) None leaves] else []) ++ r.1, r.2)
      | Err e => Ret ([], Some e)
      | Panic => Panic
      | Running => Running
      end
  end.

Definition HandleFetchHistoryRequest (h : host) (stateURI : bytes) (fromTxID : ID) (w : wsub) :
    outcome (list (SubscriptionMsg St) * option error) :=
  let! r := hub_FetchTxs (ho_hub h) stateURI fromTxID in
  let! l := history_loop h stateURI w r.1 in
  Ret (l.1, match l.2 with Some e => Some e | None => r.2 end).

(** The keypath of the whole state has two forms. *)
Definition sub_keypath (w : wsub) : Keypath := if Equals (ws_keypath w) KeypathSeparator then [] else ws_keypath w.

(** [copy] is [CopyToMemory] of the state.  A state URI without controller has no state yet. *)
Definition initial_state (h : host) (w : wsub) (copy : DBNode T → Keypath → outcome St) : outcome (list (SubscriptionMsg St)) :=
  match hub_StateAtVersion (ho_hub h) (ws_stateURI w) None with
  | Ret state =>
      match copy state (sub_keypath w) with
      | Ret node => Ret [mkMsg None (Some node) (hub_Leaves (ho_hub h) (ws_stateURI w))]
      | Err _ => Ret []
      | Panic => Panic
      | Running => Running
      end
  | _ => Ret []
  end.

(** The host with the subscription registered, and what is enqueued for it.  An error of the
    state other than a missing controller would end the call before the registration; the
    hub has no such error. *)
Definition HandleWritableSubscriptionOpened (h : host) (w : wsub) (fetchHistory : option ID) (copy : DBNode T → Keypath → outcome St) :
    outcome (host * list (SubscriptionMsg St)) :=
  let! history :=
    match fetchHistory with
    | Some from => if Includes (ws_type w) SubscriptionType_Txs
                   then let! r := HandleFetchHistoryRequest h (ws_stateURI w) from w in Ret r.1 else Ret []
    | None => Ret []
    end in
  let! state := if Includes (ws_type w) SubscriptionType_States then initial_state h w copy else Ret [] in
  let subs := default [] (ho_writable h !! ws_stateURI w) in
  let subs := if decide (ws_id w ∈ ws_id <$> subs) then subs else subs ++ [w] in
  Ret (with_writable h (<[ws_stateURI w := subs]> (ho_writable h)), history ++ state).

Definition HandleWritableSubscriptionClosed (h : host) (w : wsub) : host :=
  match ho_writable h !! ws_stateURI w with
  | Some subs => with_writable h (<[ws_stateURI w := filter (λ x, ws_id x ≠ ws_id w) subs]> (ho_writable h))
  | None => h
  end.

(** *** Gossip *)

(** [broadcastToWritableSubscribers], with the goroutines in the order of the list.  All of
    them assign to the one variable [state]. *)
Fixpoint broadcast_subs (h : host) (tx : Tx) (state : St) (leaves : list ID) (subs : list wsub) : outcome (list (wsub * SubscriptionMsg St)) :=
  match subs with
  | [] => Ret []
  | w :: subs =>
      match hub_IsPrivate (ho_hub h) (tx_StateURI tx) with
      | Ret isPrivate =>
          let state := NodeAt state (sub_keypath w) in
          let ok := if isPrivate then is_allowed h (tx_StateURI tx) w else Ret true in
          let! rest := broadcast_subs h tx state leaves subs in
          match ok with
          | Ret true => Ret ((w, mkMsg (Some tx) (Some state) leaves) :: rest)
          | Ret false | Err _ => Ret rest
          | Panic => Panic
          | Running => Running
          end
      | Err _ => broadcast_subs h tx state leaves subs
      | Panic => Panic
      | Running => Running
      end
  end.

(** A subscriber that is a peer and has seen the transaction is left out, unless it wants
    states. *)
Definition wants_tx (h : host) (tx : Tx) (w : wsub) : bool :=
  match as_Peer w with
  | Some peer => negb (txSeenByPeer h peer (tx_StateURI tx) (tx_ID tx)) || Includes (ws_type w) SubscriptionType_States
  | None => true
  end.
Definition broadcastToWritableSubscribers (h : host) (tx : Tx) (state : St) (leaves : list ID) (order : list wsub) :
    outcome (list (wsub * SubscriptionMsg St)) :=
  broadcast_subs h tx state leaves (filter (λ w, wants_tx h tx w = true) order).

(** [broadcastToStateURIProviders]: the peers that are put the transaction, and the dial infos
    that have been dealt with. *)
Definition provider_step (h : host) (tx : Tx) (acc : list host_peer * gset PeerDialInfo) (peer : host_peer) : list host_peer * gset PeerDialInfo :=
  let '(out, sent) := acc in
  if txSeenByPeer h peer (tx_StateURI tx) (tx_ID tx) then acc
  else if decide (tx_From tx ∈ hp_Addresses peer) then acc
  else if decide (hp_DialInfo peer ∈ sent) then acc
  else (out ++ [peer], {[hp_DialInfo peer]} ∪ sent).
Definition broadcastToStateURIProviders (h : host) (tx : Tx) (providers : list host_peer) (sent : gset PeerDialInfo) :=
  foldl (provider_step h tx) ([], sent) providers.

(** [broadcastToPrivateRecipients]: [conn] is the transport's connection to a dial info, if it
    has one.  The [continue] of the loop over the peer's addresses goes on with the next
    address, so the sender is not left out. *)
Definition recipient_step (h : host) (tx : Tx) (conn : PeerDialInfo → option host_peer) (acc : list host_peer * gset PeerDialInfo)
    (dialInfo : PeerDialInfo) : outcome (list host_peer * gset PeerDialInfo) :=
  let '(out, sent) := acc in
  match conn dialInfo with
  | None => Ret acc
  | Some peer =>
      if decide (hp_Addresses peer = []) then Panic
      else if txSeenByPeer h peer (tx_StateURI tx) (tx_ID tx) then Ret acc
      else if decide (hp_DialInfo peer ∈ sent) then Ret acc
      else Ret (out ++ [peer], {[hp_DialInfo peer]} ∪ sent)
  end.
Definition dial_infos_with_address (h : host) (a : Address) : list PeerDialInfo :=
  omap (λ p, pd_dialInfo <$> pd_at (ho_peers h) p) (PeersWithAddress (ho_peers h) a).
Definition broadcastToPrivateRecipients (h : host) (tx : Tx) (conn : PeerDialInfo → option host_peer) (sent : gset PeerDialInfo) :=
  fold_outcome (recipient_step h tx conn) ([], sent) (tx_Recipients tx ≫= dial_infos_with_address h).

(** *** Identities *)

Record ChallengeIdentityResponse := mkResponse { cr_Signature : bytes; cr_EncryptingPublicKey : bytes }.

Definition HandleChallengeIdentity (h : host) (challengeMsg : bytes) : outcome (list ChallengeIdentityResponse) :=
  let! publicIdentities := PublicIdentities (ho_keys h) in
  map_outcome (λ i, let! sig := SignHash (ho_keys h) (Identity_Address i) (HashBytes keccak256 challengeMsg) in
                    Ret (mkResponse sig (ek_public (id_Encrypting i)))) publicIdentities.

(** The peer store afterwards and the error: the proofs before a bad one count. *)
Fixpoint check_proofs (s : peerStore) (dialInfo : PeerDialInfo) (challengeMsg : bytes) (resp : list ChallengeIdentityResponse) :
    outcome (peerStore * option error) :=
  match resp with
  | [] => Ret (s, None)
  | proof :: resp =>
      match RecoverSigningPubkey (HashBytes keccak256 challengeMsg) (cr_Signature proof) with
      | Ret sigpubkey =>
          let! s := AddVerifiedCredentials keccak256 s dialInfo (PublicKey_Address sigpubkey) (Some (FromECDSAPub sigpubkey))
                      (Some (EncryptingPublicKeyFromBytes (cr_EncryptingPublicKey proof))) in
          check_proofs s dialInfo challengeMsg resp
      | Err e => Ret (s, Some e)
      | Panic => Panic
      | Running => Running
      end
  end.

(** [connect], [ask] and [answer] are what the peer does. *)
Definition ChallengePeerIdentity (h : host) (dialInfo : PeerDialInfo) (connect : option error) (challengeMsg : bytes) (ask : option error)
    (answer : outcome (list ChallengeIdentityResponse)) : outcome (host * option error) :=
  match connect, ask with
  | None, None =>
      match answer with
      | Ret resp => let! r := check_proofs (ho_peers h) dialInfo challengeMsg resp in Ret (with_peers h r.1, r.2)
      | Err e => Ret (h, Some e)
      | Panic => Panic
      | Running => Running
      end
  | Some e, _ | None, Some e => Ret (h, Some e)
  end.
End Host.

(** ** Subscription types *)

(** The text form of a subscription type: each of the three types is printed to a text
    that is read back, and what is read is one of them, whatever the text. *)
Theorem subscription_type_roundtrip t text st :
  (t ∈ [SubscriptionType_Txs; SubscriptionType_States; Z.lor SubscriptionType_Txs SubscriptionType_States] →
     SubscriptionType_UnmarshalText (SubscriptionType_String t) = Ret t) ∧
  (SubscriptionType_UnmarshalText text = Ret st →
     st ∈ [SubscriptionType_Txs; SubscriptionType_States; Z.lor SubscriptionType_Txs SubscriptionType_States]).
Proof.
  split.
  - rewrite !elem_of_cons, elem_of_nil. intros [->|[->|[->|[]]]]; vm_compute; reflexivity.
  - unfold SubscriptionType_UnmarshalText.
    assert (∀ l a b, a ∈ [0; 1; 2; 3]%Z →
      fold_outcome (λ st part, of_option ErrBadSubscriptionType (Z.lor st <$> type_bit part)) a l = Ret b → b ∈ [0; 1; 2; 3]%Z) as Hfold.
    { induction l as [|p l IH]; intros a b Ha; simpl; [by intros [= <-]|].
      unfold type_bit. repeat case_decide; simpl; [|intros; eapply IH; [|done]..|done].
      - intros Hb. eapply IH; [|exact Hb]. revert Ha. rewrite !elem_of_cons, elem_of_nil. intros [->|[->|[->|[->|[]]]]]; vm_compute; auto.
      - revert Ha. rewrite !elem_of_cons, elem_of_nil. intros [->|[->|[->|[->|[]]]]]; vm_compute; auto. }
    destruct (fold_outcome _ _ _) as [b| | |] eqn:Hf; simpl; [|done..]. apply Hfold in Hf; [|by left].
    case_decide; [done|]. intros [= <-]. set_solver.
Qed.

Lemma subscription_type_roundtrip_witness :
  SubscriptionType_UnmarshalText (SubscriptionType_String 3%Z) = Ret 3%Z ∧ SubscriptionType_String 3%Z = str "transactions,states".
Proof. split; [|reflexivity]. apply (subscription_type_roundtrip 3%Z [] 1%Z). vm_decide. Defined.

(** ** The writer *)

Lemma Retrieve_pending {X} (m : Mailbox X) :
  Retrieve m = match mb_pending m with
               | [] => (None, m)
               | x :: l => (Some x, mkMailbox (mb_notify m) (reverse l) (mb_capacity m))
               end.
Proof.
  unfold Retrieve, mb_pending. destruct (decide (mb_queue m = [])) as [Hq|Hq]; [by rewrite Hq|].
  destruct (exists_last Hq) as (q & x & Hx). rewrite Hx, last_snoc, take_pred_snoc, reverse_app. simpl. by rewrite reverse_involutive.
Qed.

Lemma write_messages_spec {St} t put fuel i (mb : Mailbox (SubscriptionMsg St)) :
  length (mb_queue mb) < fuel →
  match list_find (λ n, is_Some (put n)) (seq i (length (mb_queue mb))) with
  | None => write_messages fuel t put i mb = (masked t <$> mb_pending mb, mkMailbox (mb_notify mb) [] (mb_capacity mb), false)
  | Some (k, _) => ∃ mb', write_messages fuel t put i mb = (masked t <$> take (S k) (mb_pending mb), mb', true) ∧
                          mb_pending mb' = drop (S k) (mb_pending mb)
  end.
Proof.
  revert i mb. induction fuel as [|fuel IH]; intros i mb Hf; [lia|]. cbn [write_messages]. rewrite Retrieve_pending.
  assert (length (mb_queue mb) = length (mb_pending mb)) as Hlen by (unfold mb_pending; by rewrite length_reverse).
  rewrite Hlen in *. destruct (mb_pending mb) as [|m l] eqn:Hp.
  - simpl. destruct mb as [n q c]. unfold mb_pending in Hp. simpl in *. apply (f_equal reverse) in Hp. rewrite reverse_involutive in Hp. by subst.
  - cbn [length seq list_find]. destruct (put i) as [e|] eqn:Hi.
    + rewrite decide_True by eauto. eexists. split; [done|]. unfold mb_pending. simpl. by rewrite reverse_involutive, drop_0.
    + rewrite decide_False by (by intros []). specialize (IH (S i) (mkMailbox (mb_notify mb) (reverse l) (mb_capacity mb))).
      unfold mb_pending in IH. cbn [mb_queue mb_notify mb_capacity] in IH. rewrite length_reverse, reverse_involutive in IH.
      specialize (IH ltac:(simpl in Hf; lia)).
      destruct (list_find _ (seq (S i) (length l))) as [[k n]|]; simpl.
      * destruct IH as (mb' & -> & Hd). exists mb'. split; [done|]. exact Hd.
      * by rewrite IH.
Qed.

(** The writer of a subscription hands the pending messages to [Put] in the order in which
    they were enqueued, each reduced to what the subscriber asked for; it stops after the
    first [Put] that fails, with the later messages still in the mailbox, and otherwise
    empties it. *)
Theorem writer_in_order {St} t put (mb : Mailbox (SubscriptionMsg St)) :
  match list_find (λ n, is_Some (put n)) (seq 0 (length (mb_queue mb))) with
  | None => writeMessages t put mb = (masked t <$> mb_pending mb, mkMailbox (mb_notify mb) [] (mb_capacity mb), false)
  | Some (k, _) => ∃ mb', writeMessages t put mb = (masked t <$> take (S k) (mb_pending mb), mb', true) ∧
                          mb_pending mb' = drop (S k) (mb_pending mb)
  end.
Proof. apply write_messages_spec. lia. Qed.

(** ** What peers have seen, and gossip *)

Section Gossip.
Context {T : Type} `{BadgerTxn T} `{JsonCodec} `{ProtoCodec} `{MapOrder} `{Secp256k1} `{Configs T}.
Context {St : Type} (NodeAt : St → Keypath → St).

Lemma seen_ids_mark (h : host (T := T)) peer uri id di u :
  seen_ids (markTxSeenByPeer h peer uri id) di u =
  if decide (di = hp_DialInfo peer ∧ u = uri) then {[id]} ∪ seen_ids h di u else seen_ids h di u.
Proof.
  unfold seen_ids, markTxSeenByPeer. simpl. destruct (decide (di = hp_DialInfo peer)) as [->|Hd].
  - rewrite lookup_insert_eq. simpl. destruct (decide (u = uri)) as [->|Hu].
    + rewrite lookup_insert_eq, decide_True by done. simpl. by destruct (ho_seen h !! hp_DialInfo peer).
    + rewrite lookup_insert_ne, decide_False by naive_solver. by destruct (ho_seen h !! hp_DialInfo peer).
  - by rewrite lookup_insert_ne, decide_False by naive_solver.
Qed.

(** Dial infos that a broadcast deals with: each at most once, and none that was dealt with
    before. *)
Definition fresh_once (out : list host_peer) (sent0 sent : gset PeerDialInfo) : Prop :=
  NoDup (hp_DialInfo <$> out) ∧ sent = list_to_set (hp_DialInfo <$> out) ∪ sent0 ∧
  Forall (λ p, hp_DialInfo p ∉ sent0) out.

Lemma fresh_once_nil sent : fresh_once [] sent sent.
Proof. split; [constructor|]. split; [set_solver|constructor]. Qed.

Lemma fresh_once_snoc out sent0 sent p :
  fresh_once out sent0 sent → hp_DialInfo p ∉ sent → fresh_once (out ++ [p]) sent0 ({[hp_DialInfo p]} ∪ sent).
Proof.
  intros (Hn & -> & Hf) Hp. split_and!.
  - rewrite fmap_app. apply NoDup_app. split_and!; [done| |apply NoDup_singleton]. intros x Hx. simpl. rewrite list_elem_of_singleton. intros ->.
    apply Hp. set_solver.
  - rewrite fmap_app, list_to_set_app_L. simpl. set_solver.
  - apply Forall_app. split; [done|]. apply Forall_singleton. set_solver.
Qed.

Lemma providers_spec (h : host (T := T)) tx providers sent0 out sent :
  fresh_once out sent0 sent →
  Forall (λ p, tx_From tx ∉ hp_Addresses p ∧ txSeenByPeer h p (tx_StateURI tx) (tx_ID tx) = false) out →
  let r := foldl (provider_step h tx) (out, sent) providers in
  fresh_once r.1 sent0 r.2 ∧
  Forall (λ p, tx_From tx ∉ hp_Addresses p ∧ txSeenByPeer h p (tx_StateURI tx) (tx_ID tx) = false) r.1 ∧
  Forall (λ p, hp_DialInfo p ∈ r.2 ∨ tx_From tx ∈ hp_Addresses p ∨ txSeenByPeer h p (tx_StateURI tx) (tx_ID tx) = true) providers ∧
  sent ⊆ r.2.
Proof.
  revert out sent. induction providers as [|p ps IH]; intros out sent Hfo Hall; cbn [foldl].
  { split_and!; [done..|constructor|done]. }
  unfold provider_step at 2 4 6 8 10. destruct (txSeenByPeer h p _ _) eqn:Hs.
  { destruct (IH out sent Hfo Hall) as (H1' & H2' & H3' & H4'). split_and!; [done..| |done]. constructor; [|done]. auto. }
  case_decide as Hfrom.
  { destruct (IH out sent Hfo Hall) as (H1' & H2' & H3' & H4'). split_and!; [done..| |done]. constructor; [|done]. auto. }
  case_decide as Hsent.
  { destruct (IH out sent Hfo Hall) as (H1' & H2' & H3' & H4'). split_and!; [done..| |done]. constructor; [|done]. left. by apply H4'. }
  destruct (IH (out ++ [p]) ({[hp_DialInfo p]} ∪ sent)) as (H1' & H2' & H3' & H4').
  - by apply fresh_once_snoc.
  - apply Forall_app. split; [done|]. by apply Forall_singleton.
  - split_and!; [done..| |set_solver]. constructor; [|done]. left. set_solver.
Qed.

Lemma recipients_spec (h : host (T := T)) tx conn dis sent0 out sent r :
  fresh_once out sent0 sent →
  Forall (λ p, hp_Addresses p ≠ [] ∧ txSeenByPeer h p (tx_StateURI tx) (tx_ID tx) = false) out →
  fold_outcome (recipient_step h tx conn) (out, sent) dis = Ret r →
  fresh_once r.1 sent0 r.2 ∧ Forall (λ p, hp_Addresses p ≠ [] ∧ txSeenByPeer h p (tx_StateURI tx) (tx_ID tx) = false) r.1.
Proof.
  revert out sent. induction dis as [|di dis IH]; intros out sent Hfo Hall; cbn [fold_outcome]; [by intros [= <-]|].
  unfold recipient_step at 1. destruct (conn di) as [p|]; [|by apply IH].
  case_decide as Ha; [done|]. destruct (txSeenByPeer h p _ _) eqn:Hs; [by apply IH|].
  case_decide as Hsent; [by apply IH|]. cbn [obind]. apply IH; [by apply fresh_once_snoc|].
  apply Forall_app. split; [done|]. by apply Forall_singleton.
Qed.
End Gossip.

(** C14: Gossip reaches each peer once: of the providers of the state URI, exactly those are put
    the transaction that neither have seen it nor are its sender, each dial info at most once
    and none that another broadcast dealt with before; the recipients of a private
    transaction that are put it afterwards are other ones, and have not seen it. *)
Theorem gossip_once {T} `{BadgerTxn T} `{JsonCodec} `{ProtoCodec} `{MapOrder} `{Secp256k1} `{Configs T}
    (h : host (T := T)) tx providers conn sent0 out sent out' sent' :
  broadcastToStateURIProviders h tx providers sent0 = (out, sent) →
  broadcastToPrivateRecipients h tx conn sent = Ret (out', sent') →
  NoDup (hp_DialInfo <$> (out ++ out')) ∧
  Forall (λ p, hp_DialInfo p ∉ sent0) (out ++ out') ∧
  Forall (λ p, tx_From tx ∉ hp_Addresses p ∧ txSeenByPeer h p (tx_StateURI tx) (tx_ID tx) = false) out ∧
  Forall (λ p, txSeenByPeer h p (tx_StateURI tx) (tx_ID tx) = false) out' ∧
  Forall (λ p, hp_DialInfo p ∈ sent ∨ tx_From tx ∈ hp_Addresses p ∨ txSeenByPeer h p (tx_StateURI tx) (tx_ID tx) = true) providers.
Proof.
  intros Hb Hr. destruct (providers_spec h tx providers sent0 [] sent0 (fresh_once_nil _) ltac:(constructor)) as (Hf & Ha & Hp & _).
  unfold broadcastToStateURIProviders in Hb. rewrite Hb in *. cbn [fst snd] in *.
  destruct (recipients_spec h tx conn _ sent [] sent _ (fresh_once_nil _) ltac:(constructor) Hr) as (Hf' & Ha'). cbn [fst snd] in *.
  destruct Hf as (Hn & Hsent & Hfo), Hf' as (Hn' & _ & Hfo'). split_and!; try done.
  - rewrite fmap_app. apply NoDup_app. split_and!; [done| |done]. intros d Hd (p & -> & Hin)%list_elem_of_fmap.
    rewrite Forall_forall in Hfo'. apply (Hfo' p Hin). rewrite Hsent. set_solver.
  - apply Forall_app. split; [done|]. eapply Forall_impl; [exact Hfo'|]. simpl. set_solver.
  - eapply Forall_impl; [exact Ha'|]. by intros p [].
Qed.

(** ** Private states and subscribers *)

Section Subscribers.
Context {T : Type} `{BadgerTxn T} `{JsonCodec} `{ProtoCodec} `{MapOrder} `{Secp256k1} `{Configs T}.
Context {St : Type} (NodeAt : St → Keypath → St).

(** Every subscriber may see everything: the check for members is never made. *)
Lemma may_write_always (h : host (T := T)) uri w ok : may_write h uri w = Ret ok → ok = true.
Proof.
  unfold may_write, is_allowed, as_Peer. destruct (hub_IsPrivate _ uri) as [[]| | |]; simpl; [|by intros [= <-]|done..].
  destruct (ws_kind w); by intros [= <-].
Qed.

Lemma history_everything (h : host (T := T)) uri w txs :
  Forall (λ tx, is_Some (h_controllers (ho_hub h) !! tx_StateURI tx) ∧ ∃ b, hub_IsPrivate (ho_hub h) (tx_StateURI tx) = Ret b) txs →
  history_loop (St := St) h uri w txs = Ret ((λ tx, mkMsg (Some tx) None (hub_Leaves (ho_hub h) uri)) <$> txs, None).
Proof.
  induction 1 as [|tx txs [_ [b Hb]] _ IH]; [done|]. cbn [history_loop].
  assert (may_write h (tx_StateURI tx) w = Ret true) as ->.
  { unfold may_write, is_allowed, as_Peer. rewrite Hb. simpl. destruct b; [|done]. by destruct (ws_kind w). }
  by rewrite IH.
Qed.

(** The second subscriber gets the part of the state that it asked for, but of the part that
    the first one asked for. *)
Theorem broadcast_state_shared (h : host (T := T)) tx (state : St) leaves w1 w2 :
  hub_IsPrivate (ho_hub h) (tx_StateURI tx) = Ret false →
  broadcastToWritableSubscribers NodeAt h tx state leaves [w1; w2] =
    Ret [(w1, mkMsg (Some tx) (Some (NodeAt state (sub_keypath w1))) leaves);
         (w2, mkMsg (Some tx) (Some (NodeAt (NodeAt state (sub_keypath w1)) (sub_keypath w2))) leaves)].
Proof.
  intros Hp. unfold broadcastToWritableSubscribers.
  assert (∀ w, wants_tx h tx w = true) as Hw by (intros w; unfold wants_tx, as_Peer; by destruct (ws_kind w)).
  rewrite !filter_cons, !decide_True by apply Hw. simpl. by rewrite Hp.
Qed.

(** A subscriber to the states of a private state URI is sent its contents without a check
    of who it is. *)
Theorem private_state_to_anyone (h : host (T := T)) w copy node c :
  ws_type w = SubscriptionType_States → h_controllers (ho_hub h) !! ws_stateURI w = Some c →
  copy (controller_StateAtVersion c None) (sub_keypath w) = Ret node →
  ∃ h', HandleWritableSubscriptionOpened (St := St) h w None copy = Ret (h', [mkMsg None (Some node) (hub_Leaves (ho_hub h) (ws_stateURI w))]).
Proof.
  intros Ht Hc Hn. unfold HandleWritableSubscriptionOpened. rewrite Ht. cbn [obind].
  change (Includes SubscriptionType_States SubscriptionType_States) with true. cbn iota.
  unfold initial_state, hub_StateAtVersion, with_controller. rewrite Hc, Hn. simpl. by eexists.
Qed.
End Subscribers.

(** A subscriber that asks for the history of a state URI from a transaction on is sent
    every transaction that the store's traversal yields, in its order, each with the current
    leaves, and the request ends with the traversal's error if it has one.  This holds for
    every subscriber, also for private states: no subscription counts as a peer whose
    membership would be checked. *)
Theorem history_served {T} `{BadgerTxn T} `{JsonCodec} `{ProtoCodec} `{MapOrder} `{Secp256k1} `{Configs T} {St}
    (h : host (T := T)) uri from w txs err :
  hub_FetchTxs (ho_hub h) uri from = Ret (txs, err) →
  Forall (λ tx, is_Some (h_controllers (ho_hub h) !! tx_StateURI tx) ∧ ∃ b, hub_IsPrivate (ho_hub h) (tx_StateURI tx) = Ret b) txs →
  HandleFetchHistoryRequest (St := St) h uri from w = Ret ((λ tx, mkMsg (Some tx) None (hub_Leaves (ho_hub h) uri)) <$> txs, err).
Proof. intros Hf Hc. unfold HandleFetchHistoryRequest. rewrite Hf. cbn [obind fst]. rewrite history_everything by done. by destruct err. Qed.

(** ** Identities *)

(** A key that is derived signs, and its signatures give back its address. *)
Class SigningLaws `{Secp256k1} `{Derivation} : Prop := {
  sign_recover m i kp hash : SigningKeypairFromHDMnemonic m i = Ret kp →
    ∃ sig pk, sign_hash (sk_private kp) hash = Ret sig ∧ RecoverSigningPubkey hash sig = Ret pk ∧
      PublicKey_Address pk = sk_Address kp ∧ IsZero (sk_Address kp) = false
}.

(** The peer at the dial info has proved the address. *)
Definition has_proved (s : peerStore) (di : PeerDialInfo) (a : Address) : Prop :=
  ∃ p d, PeerWithDialInfo s di = Some p ∧ pd_at s p = Some d ∧ a ∈ pd_addresses d.

Lemma AddVerifiedCredentials_proved kc s di a sk ek s' :
  ps_wf s → DialAddr di ≠ [] → AddVerifiedCredentials kc s di a sk ek = Ret s' →
  has_proved s' di a ∧ ∀ b, has_proved s di b → has_proved s' di b.
Proof.
  intros Hwf Hn Hadd. destruct (IsZero a) eqn:Hz; [unfold AddVerifiedCredentials in Hadd; by rewrite Hz in Hadd|].
  destruct (AddVerifiedCredentials_fields kc s di a sk ek Hwf Hz) as (s2 & s1 & p & d & Hfind & Hd & Hadd' & Hat & Hp & _).
  rewrite Hadd in Hadd'. simplify_eq. rewrite decide_False in Hp by done.
  destruct (find_details_spec s di a s1 p Hwf Hfind) as (_ & _ & _ & Hold & _ & d' & Hd' & _ & _ & _ & O3 & _). simplify_eq.
  assert (PeerWithDialInfo s2 di = Some p) as Hp2 by (unfold PeerWithDialInfo; rewrite decide_False, Hp by done; apply lookup_insert_eq).
  assert (pd_at s2 p = Some (with_credentials d a sk ek)) as Hd2 by (by rewrite Hat, decide_True).
  split.
  - exists p, (with_credentials d a sk ek). split_and!; [done..|]. simpl. set_solver.
  - intros b (q & x & Hq & Hx & Hb). unfold PeerWithDialInfo in Hq. rewrite decide_False in Hq by done. rewrite (O3 _ Hq) in Hx.
    apply Hold in Hx. rewrite Hd in Hx. injection Hx as ->. exists p, (with_credentials x a sk ek). split_and!; [done..|]. simpl. set_solver.
Qed.

Section Handshake.
Context {T : Type} `{HB : BadgerTxn T} `{HJ : JsonCodec} `{HP : ProtoCodec} `{HM : MapOrder} `{HC : Configs T}.
Context `{HS : SigningLaws} `{UC : UserCodecLaws} `{!UserCodecSafe} (keccak256 : bytes → bytes).

(** The proofs of identities are accepted one after the other. *)
Lemma check_proofs_honest (rks : BadgerKeyStore) msg ids resp s di :
  (∀ i, i ∈ ids → ∃ sig pk, SignHash rks (Identity_Address i) (HashBytes keccak256 msg) = Ret sig ∧
     RecoverSigningPubkey (HashBytes keccak256 msg) sig = Ret pk ∧ PublicKey_Address pk = Identity_Address i ∧ IsZero (Identity_Address i) = false) →
  map_outcome (λ i, let! sig := SignHash rks (Identity_Address i) (HashBytes keccak256 msg) in
                    Ret (mkResponse sig (ek_public (id_Encrypting i)))) ids = Ret resp →
  ps_wf s → DialAddr di ≠ [] →
  ∃ s', check_proofs keccak256 s di msg resp = Ret (s', None) ∧ ps_wf s' ∧
    (∀ b, has_proved s di b → has_proved s' di b) ∧ ∀ i, i ∈ ids → has_proved s' di (Identity_Address i).
Proof.
  revert resp s. induction ids as [|i ids IH]; intros resp s Hids Hm Hwf Hn; simpl in Hm.
  { simplify_eq. exists s. split_and!; [done..|]. intros i Hi. by apply elem_of_nil in Hi. }
  destruct (Hids i ltac:(by left)) as (sig & pk & Hsig & Hrec & Ha & Hz). rewrite Hsig in Hm. simpl in Hm.
  destruct (map_outcome _ ids) as [resp'| | |] eqn:Hm'; simpl in Hm; [|done..]. injection Hm as <-.
  cbn [check_proofs cr_Signature cr_EncryptingPublicKey]. rewrite Hrec, Ha.
  destruct (AddVerifiedCredentials_fields keccak256 s di (Identity_Address i) (Some (FromECDSAPub pk))
    (Some (EncryptingPublicKeyFromBytes (ek_public (id_Encrypting i)))) Hwf Hz) as (s1 & _ & _ & _ & _ & _ & Hadd & _).
  rewrite Hadd. cbn [obind]. destruct (AddVerifiedCredentials_proved _ _ _ _ _ _ _ Hwf Hn Hadd) as [Hnew Hkeep].
  destruct (IH resp' s1) as (s' & Hc & Hwf' & Hk & Hall); [|done|by eapply wf_AddVerifiedCredentials|done|].
  { intros j Hj. apply Hids. by right. }
  exists s'. split_and!; [done..|by eauto|]. intros j [->|Hj]%elem_of_cons; [by apply Hk|by apply Hall].
Qed.

Lemma own_proofs rks u msg i :
  rtc ks_step (mkKeyStore None None) rks → ks_unlockedUser rks = Some u → (Z.of_nat (length (u_Identities u)) < 2 ^ 32)%Z →
  (∀ i j x y, u_Identities u !! i = Some x → u_Identities u !! j = Some y → Identity_Address x = Identity_Address y → i = j) →
  i ∈ u_Identities u →
  ∃ sig pk, SignHash rks (Identity_Address i) (HashBytes keccak256 msg) = Ret sig ∧
    RecoverSigningPubkey (HashBytes keccak256 msg) sig = Ret pk ∧ PublicKey_Address pk = Identity_Address i ∧ IsZero (Identity_Address i) = false.
Proof.
  intros Hr Hu Hlen Hdist [k Hk]%list_elem_of_lookup. destruct (unlocked_wf rks u Hr Hu) as [[W1 _ _ _ _] _].
  destruct (sign_recover _ _ _ (HashBytes keccak256 msg) (W1 k i Hk)) as (sig & pk & Hsig & Hrec & Ha & Hz).
  exists sig, pk. split_and!; [|done..]. unfold SignHash. by rewrite (IdentityWithAddress_own rks u k i).
Qed.
End Handshake.

(** The identity handshake: when a host challenges a peer, and the peer's host answers with
    its key store, every identity that the answer is for is recorded: the challenger's peer
    store holds the peer under its dial info with all their addresses, keeps the addresses
    that were proved before, and is well-formed. *)
Theorem identity_handshake {T} `{BadgerTxn T} `{JsonCodec} `{ProtoCodec} `{MapOrder} `{Configs T} `{SigningLaws} `{UserCodecLaws} `{!UserCodecSafe}
    (keccak256 : bytes → bytes) (h responder : host (T := T)) u di msg :
  rtc ks_step (mkKeyStore None None) (ho_keys responder) → ks_unlockedUser (ho_keys responder) = Some u →
  (Z.of_nat (length (u_Identities u)) < 2 ^ 32)%Z →
  (∀ i j x y, u_Identities u !! i = Some x → u_Identities u !! j = Some y → Identity_Address x = Identity_Address y → i = j) →
  rtc (ps_step keccak256) (empty_store ∅) (ho_peers h) → DialAddr di ≠ [] →
  ∃ ids resp h', PublicIdentities (ho_keys responder) = Ret ids ∧ HandleChallengeIdentity keccak256 responder msg = Ret resp ∧
    ChallengePeerIdentity keccak256 h di None msg None (Ret resp) = Ret (h', None) ∧ ps_wf (ho_peers h') ∧
    (∀ i, i ∈ ids → has_proved (ho_peers h') di (Identity_Address i)) ∧
    ∀ b, has_proved (ho_peers h) di b → has_proved (ho_peers h') di b.
Proof.
  intros Hr Hu Hlen Hdist Hps Hn. pose proof (wf_reachable keccak256 _ Hps) as Hwf.
  destruct (unlocked_wf _ u Hr Hu) as [Huwf _].
  set (ids := take (size (u_PublicIdentities u)) (u_Identities u)).
  assert (PublicIdentities (ho_keys responder) = Ret ids) as Hids by (by apply public_identities_positions).
  assert (∀ i, i ∈ ids → i ∈ u_Identities u) as Hsub by (intros i [k Hk]%list_elem_of_lookup;
    apply list_elem_of_lookup; exists k; by apply lookup_take_Some in Hk as []).
  assert (∃ resp, HandleChallengeIdentity keccak256 responder msg = Ret resp ∧
    map_outcome (λ i, let! sig := SignHash (ho_keys responder) (Identity_Address i) (HashBytes keccak256 msg) in
                      Ret (mkResponse sig (ek_public (id_Encrypting i)))) ids = Ret resp) as (resp & Hresp & Hmap).
  { unfold HandleChallengeIdentity. rewrite Hids. cbn [obind]. clear Hids. revert Hsub. induction ids as [|i l IH]; intros Hsub; [by exists []|].
    destruct (own_proofs keccak256 _ u msg i Hr Hu Hlen Hdist) as (sig & pk & Hsig & _); [apply Hsub; by left|].
    destruct IH as (resp & IH & _); [intros j Hj; apply Hsub; by right|]. simpl. rewrite Hsig. simpl. rewrite IH. by eexists. }
  destruct (check_proofs_honest keccak256 (ho_keys responder) msg ids resp (ho_peers h) di) as (s' & Hc & Hwf' & Hk & Hall); [|done..|].
  { intros i Hi. eapply own_proofs; eauto. }
  exists ids, resp, (with_peers h s'). split_and!; try done. unfold ChallengePeerIdentity. by rewrite Hc.
Qed.

(** ** Sending *)

Section Sending.
Context {T : Type} `{HB : BadgerTxn T} `{HJ : JsonCodec} `{HP : ProtoCodec} `{HM : MapOrder} `{HC : Configs T}.
Context `{HS : SigningLaws} `{UC : UserCodecLaws} `{!UserCodecSafe} (keccak256 : bytes → bytes).

Lemma Tx_Hash_with_sig tx sig : Tx_Hash keccak256 (with_sig tx sig) = Tx_Hash keccak256 tx.
Proof. done. Qed.

Lemma Tx_Hash_total tx ss : tx_hash tx = EmptyHash → map_outcome Patch_String (tx_Patches tx) = Ret ss → ∃ h, Tx_Hash keccak256 tx = Ret h.
Proof. intros Hh Hs. unfold Tx_Hash, tx_bytes. rewrite Hh, decide_True, Hs by done. by eexists. Qed.

Lemma sign_own rks u tx i :
  rtc ks_step (mkKeyStore None None) rks → ks_unlockedUser rks = Some u → (Z.of_nat (length (u_Identities u)) < 2 ^ 32)%Z →
  (∀ i j x y, u_Identities u !! i = Some x → u_Identities u !! j = Some y → Identity_Address x = Identity_Address y → i = j) →
  i ∈ u_Identities u → tx_From tx = Identity_Address i → (∃ h, Tx_Hash keccak256 tx = Ret h) →
  ∃ sig hash pk, (let! hash := Tx_Hash keccak256 tx in let! sig := SignHash rks (tx_From tx) hash in Ret (with_sig tx sig)) = Ret (with_sig tx sig) ∧
    Tx_Hash keccak256 (with_sig tx sig) = Ret hash ∧ RecoverSigningPubkey hash sig = Ret pk ∧ PublicKey_Address pk = tx_From tx.
Proof.
  intros Hr Hu Hlen Hdist [k Hk]%list_elem_of_lookup Hfrom [hash Hh]. destruct (unlocked_wf rks u Hr Hu) as [[W1 _ _ _ _] _].
  destruct (sign_recover _ _ _ hash (W1 k i Hk)) as (sig & pk & Hsig & Hrec & Ha & _).
  exists sig, hash, pk. rewrite Hh. cbn [obind]. unfold SignHash. rewrite Hfrom, (IdentityWithAddress_own rks u k i) by done. cbn [obind].
  rewrite Hsig. cbn [obind]. split_and!; [done|by rewrite Tx_Hash_with_sig|done..].
Qed.
End Sending.

(** C15: What [SendTx] passes on is complete: an unsigned transaction whose sender is missing or
    is an identity of the unlocked key store gets a sender, the current leaves as parents
    when it has none (and is not the genesis transaction), and a signature over its hash that
    gives back the sender's address; the rest of it stays as it was. *)
Theorem send_tx_signed {T} `{BadgerTxn T} `{JsonCodec} `{ProtoCodec} `{MapOrder} `{Configs T} `{SigningLaws} `{UserCodecLaws} `{!UserCodecSafe}
    (keccak256 : bytes → bytes) (h : host (T := T)) u tx ss :
  rtc ks_step (mkKeyStore None None) (ho_keys h) → ks_unlockedUser (ho_keys h) = Some u →
  (Z.of_nat (length (u_Identities u)) < 2 ^ 32)%Z →
  (∀ i j x y, u_Identities u !! i = Some x → u_Identities u !! j = Some y → Identity_Address x = Identity_Address y → i = j) →
  tx_Sig tx = [] → tx_hash tx = EmptyHash → map_outcome Patch_String (tx_Patches tx) = Ret ss →
  (if IsZero (tx_From tx) then 0 < size (u_PublicIdentities u) else ∃ i, i ∈ u_Identities u ∧ Identity_Address i = tx_From tx) →
  ∃ tx' hash pk, complete_tx keccak256 h tx = Ret tx' ∧ Tx_Hash keccak256 tx' = Ret hash ∧
    RecoverSigningPubkey hash (tx_Sig tx') = Ret pk ∧ PublicKey_Address pk = tx_From tx' ∧
    (IsZero (tx_From tx) = false → tx_From tx' = tx_From tx) ∧
    tx_Parents tx' = (if decide (tx_Parents tx = [] ∧ tx_ID tx ≠ GenesisTxID) then hub_Leaves (ho_hub h) (tx_StateURI tx) else tx_Parents tx) ∧
    tx_ID tx' = tx_ID tx ∧ tx_StateURI tx' = tx_StateURI tx ∧ tx_Patches tx' = tx_Patches tx ∧ tx_Recipients tx' = tx_Recipients tx.
Proof.
  intros Hr Hu Hlen Hdist Hsig Hh Hss Hfrom. destruct (unlocked_wf _ u Hr Hu) as [Huwf _]. unfold complete_tx.
  assert (∃ tx1 i, (if IsZero (tx_From tx) then
      let! publicIdentities := PublicIdentities (ho_keys h) in
      match publicIdentities with [] => Err ErrNoPublicIdentities | i :: _ => Ret (with_from tx (Identity_Address i)) end
    else Ret tx) = Ret tx1 ∧ i ∈ u_Identities u ∧ tx_From tx1 = Identity_Address i ∧ tx1 = with_from tx (tx_From tx1) ∧
      (IsZero (tx_From tx) = false → tx_From tx1 = tx_From tx)) as (tx1 & i & -> & Hi & Hf1 & Htx1 & Hkeep).
  { destruct (IsZero (tx_From tx)) eqn:Hz.
    - rewrite (public_identities_positions _ u Hr Hu). cbn [obind].
      pose proof (public_size u Huwf) as Hle. destruct (size (u_PublicIdentities u)) as [|n]; [lia|].
      destruct (u_Identities u) as [|i ids] eqn:Hids; [simpl in Hle; lia|]. simpl. exists (with_from tx (Identity_Address i)), i.
      split_and!; try done. by left.
    - destruct Hfrom as (i & Hi & Ha). exists tx, i. split_and!; try done. by destruct tx. }
  cbn [obind]. set (tx2 := if decide _ then _ else tx1).
  assert (tx_Sig tx2 = [] ∧ tx_From tx2 = tx_From tx1 ∧ tx_hash tx2 = EmptyHash ∧ tx_Patches tx2 = tx_Patches tx ∧ tx_ID tx2 = tx_ID tx ∧
    tx_StateURI tx2 = tx_StateURI tx ∧ tx_Recipients tx2 = tx_Recipients tx ∧
    tx_Parents tx2 = (if decide (tx_Parents tx = [] ∧ tx_ID tx ≠ GenesisTxID) then hub_Leaves (ho_hub h) (tx_StateURI tx) else tx_Parents tx))
    as (E1 & E2 & E3 & E4 & E5 & E6 & E7 & E8).
  { unfold tx2. rewrite Htx1. case_decide as Hd; cbn in Hd; cbn; split_and!; try done; symmetry; [by apply decide_True|by apply decide_False]. }
  rewrite E1, decide_True by done.
  destruct (sign_own keccak256 (ho_keys h) u tx2 i Hr Hu Hlen Hdist Hi) as (sig & hash & pk & Hs & Hh2 & Hrec & Ha).
  { by rewrite E2. }
  { eapply Tx_Hash_total; [done|]. by rewrite E4. }
  exists (with_sig tx2 sig), hash, pk. split_and!; try done. intros Hz. simpl. rewrite E2. by apply Hkeep.
Qed.

(** ** Examples *)

#[local] Existing Instance toy_curve.
#[local] Existing Instance plain_configs.
#[local] Existing Instance toy_codec.
#[local] Existing Instance toy_codec_laws.
#[local] Existing Instance toy_codec_safe.

(** Keys that sign with their address. *)
Definition toy_address (i : nat) : Address := x01 :: take 19 (id_of i).
#[local] Instance signing_derivation : Derivation := {
  SigningKeypairFromHDMnemonic m i := Ret (mkSigning (toy_address i) (toy_address i));
  sign_hash sk h := Ret sk
}.
#[local] Instance signing_derivation_laws : SigningLaws.
Proof.
  split. intros m i kp hash [= <-]. exists (toy_address i), (toy_address i : @PublicKey toy_curve). split_and!; [done..| |].
  - cbn [sk_Address]. unfold PublicKey_Address. cbn [PubkeyToAddress toy_curve]. rewrite take_ge by done. by apply array_from_id.
  - unfold IsZero. by apply bool_decide_eq_false.
Qed.

Definition host_keys : BadgerKeyStore :=
  match Unlock (mkKeyStore None None) (str "pw") (str "words") key_a key_a with Ret k => k | _ => mkKeyStore None None end.
Definition host_user : badgerUser :=
  mkUser (str "pw") (str "words") [mkIdentity true (mkSigning (toy_address 0) (toy_address 0)) key_a] {[0]} {[toy_address 0 := 0]} key_a.
Definition host_hub : controllerHub (T := gmap bytes bytes) :=
  match hub_AddTx (λ b, b) (λ _, Ret ∅) empty_hub (genesis_tx false) false with Ret (h, _, _) => h | _ => empty_hub end.
Definition example_host : host (T := gmap bytes bytes) := mkHost host_hub ∅ ∅ (Some ∅) known_store host_keys.

Lemma host_keys_reachable : rtc ks_step (mkKeyStore None None) host_keys.
Proof. apply rtc_once. by apply (step_Unlock _ (str "pw") (str "words") key_a key_a). Qed.
Lemma host_keys_unlocked : ks_unlockedUser host_keys = Some host_user.
Proof. reflexivity. Qed.
Lemma host_user_distinct i j x y :
  u_Identities host_user !! i = Some x → u_Identities host_user !! j = Some y → Identity_Address x = Identity_Address y → i = j.
Proof. by destruct i, j. Qed.
Lemma known_reachable : rtc (ps_step (λ b, b)) (empty_store ∅) known_store.
Proof. apply rtc_once, step_AddDialInfos. Qed.

Lemma identity_handshake_witness :
  ∃ h', ChallengePeerIdentity (λ b, b) example_host di_http None (str "prove it") None
          (HandleChallengeIdentity (λ b, b) example_host (str "prove it")) = Ret (h', None) ∧
    has_proved (ho_peers h') di_http (toy_address 0).
Proof.
  destruct (identity_handshake (λ b, b) example_host example_host host_user di_http (str "prove it"))
    as (ids & resp & h' & Hids & Hresp & Hc & _ & Hall & _).
  - apply host_keys_reachable.
  - apply host_keys_unlocked.
  - vm_compute. reflexivity.
  - apply host_user_distinct.
  - apply known_reachable.
  - discriminate.
  - exists h'. rewrite Hresp. split; [exact Hc|].
    assert (match PublicIdentities (ho_keys example_host) with Ret [i] => bool_decide (Identity_Address i = toy_address 0) | _ => false end = true) as Hp
      by (vm_compute; reflexivity).
    rewrite Hids in Hp. destruct ids as [|i [|]]; [discriminate| |discriminate]. apply bool_decide_eq_true in Hp as <-.
    apply Hall. by left.
Defined.

Definition unsigned_tx : Tx :=
  mkTx (id_of 9) [] [] (array_from address_length []) [] (str "foo.bar/baz") [mkPatch (str "a") None (GScalar (SBool true))] [] false []
    TxStatusUnknown EmptyHash.

Lemma send_tx_signed_witness :
  ∃ tx', complete_tx (λ b, b) example_host unsigned_tx = Ret tx' ∧ tx_From tx' ≠ tx_From unsigned_tx ∧ tx_Patches tx' = tx_Patches unsigned_tx.
Proof.
  destruct (send_tx_signed (λ b, b) example_host host_user unsigned_tx [str ".a = true"]) as (tx' & hash & pk & Hc & _ & Hrec & Ha & _ & _ & _ & _ & Hp & _).
  - apply host_keys_reachable.
  - apply host_keys_unlocked.
  - vm_compute. reflexivity.
  - apply host_user_distinct.
  - reflexivity.
  - reflexivity.
  - vm_compute. reflexivity.
  - vm_compute. lia.
  - exists tx'. split; [exact Hc|]. split; [|exact Hp].
    assert (match complete_tx (λ b, b) example_host unsigned_tx with Ret t => negb (IsZero (tx_From t)) | _ => false end = true) as Hz
      by (vm_compute; reflexivity).
    rewrite Hc in Hz. intros Heq. rewrite Heq in Hz. discriminate Hz.
Defined.

Lemma gossip_once_witness :
  let p1 := mkHostPeer di_http [toy_address 1] in let p2 := mkHostPeer di_p2p [] in
  (broadcastToStateURIProviders example_host (genesis_tx false) [p1; p2; p1] ∅).1 = [p1; p2] ∧
  NoDup (hp_DialInfo <$> [p1; p2]).
Proof.
  intros p1 p2. split; [reflexivity|].
  destruct (gossip_once example_host (genesis_tx false) [p1; p2; p1] (λ _, None) ∅ [p1; p2]
    (broadcastToStateURIProviders example_host (genesis_tx false) [p1; p2; p1] ∅).2 []
    (broadcastToStateURIProviders example_host (genesis_tx false) [p1; p2; p1] ∅).2) as [Hn _].
  - reflexivity.
  - reflexivity.
  - exact Hn.
Defined.

Definition any_subscriber : wsub := mkWsub 0 (str "foo.bar/baz") [] SubscriptionType_Txs (RemoteSub (mkWirePeer [] [] (λ _, (None, None)))).

Lemma history_served_witness :
  ∃ tx l, HandleFetchHistoryRequest (St := unit) example_host (str "foo.bar/baz") GenesisTxID any_subscriber = Ret ([mkMsg (Some tx) None l], None).
Proof.
  assert (match hub_FetchTxs host_hub (str "foo.bar/baz") GenesisTxID with
          | Ret ([tx], None) => bool_decide (is_Some (h_controllers host_hub !! tx_StateURI tx)) &&
                                match hub_IsPrivate host_hub (tx_StateURI tx) with Ret _ => true | _ => false end
          | _ => false end = true) as Hr by (vm_compute; reflexivity).
  destruct (hub_FetchTxs host_hub (str "foo.bar/baz") GenesisTxID) as [[[|tx [|]] [|]]| | |] eqn:Hf; try discriminate Hr.
  apply andb_true_iff in Hr as [Hc Hp]. exists tx, (hub_Leaves host_hub (str "foo.bar/baz")).
  apply (history_served (St := unit) example_host (str "foo.bar/baz") GenesisTxID any_subscriber [tx] None Hf).
  apply Forall_singleton. split; [exact (bool_decide_eq_true_1 _ Hc)|].
  change (ho_hub example_host) with host_hub. destruct (hub_IsPrivate host_hub (tx_StateURI tx)) as [b| | |]; [|discriminate..]. by exists b.
Defined.
