(* ===== verification/Libp2pMsg.v ===== *)
(** * Messages between libp2p peers ([transport.libp2p.go])

    Peers exchange messages over streams of bytes: the length as eight little-endian bytes,
    and the JSON form of the message.  [handleIncomingStream] reads one message and hands it to
    the host.  A stream is the list of bytes that are still to be read.

    The JSON library is an interface: [msg_Marshal] writes a message, [msg_outer] reads its
    type and the text of its payload, and there is one reader per type of payload, which
    [UnmarshalJSON] chooses by the type.  The multiaddresses of the other end of a connection
    come from the libp2p library and are part of the connection. *)

From S2P Require Import Prelude Types Keypath TreeTypes GoValue MemoryNode BadgerTxn DBNode Tx PatchParser TxStore Mempool Behaviors Nelson Permissions Controller ControllerProps Hub.
From S2P Require Import RefStore RefTransfer PeerStore KeyStore HttpTx HttpSession Host.

(** ** Messages *)

Inductive payload :=
  | PSubscribe (stateURI : bytes)
  | PPut (tx : Tx)
  | PPrivate (etx : EncryptedTx)
  | PAck (stateURI : bytes) (txID : ID)
  | PChallenge (challengeMsg : bytes)
  | PChallengeResponse (resp : list ChallengeIdentityResponse)
  | PFetchRef (refID : RefID)
  | PFetchRefResponse (header : bool) (body : option packet)
  | PAnnouncePeers (l : list PeerDialInfo).

Definition MsgType : Type := bytes.
Definition MsgType_Subscribe : MsgType := str "subscribe".
Definition MsgType_Put : MsgType := str "put".
Definition MsgType_Private : MsgType := str "private".
Definition MsgType_Ack : MsgType := str "ack".
Definition MsgType_ChallengeIdentityRequest : MsgType := str "challenge identity".
Definition MsgType_ChallengeIdentityResponse : MsgType := str "challenge identity response".
Definition MsgType_FetchRef : MsgType := str "fetch ref".
Definition MsgType_FetchRefResponse : MsgType := str "fetch ref response".
Definition MsgType_AnnouncePeers : MsgType := str "announce peers".

(** The type that every writer of a payload gives it. *)
Definition type_of (p : payload) : MsgType :=
  match p with
  | PSubscribe _ => MsgType_Subscribe
  | PPut _ => MsgType_Put
  | PPrivate _ => MsgType_Private
  | PAck _ _ => MsgType_Ack
  | PChallenge _ => MsgType_ChallengeIdentityRequest
  | PChallengeResponse _ => MsgType_ChallengeIdentityResponse
  | PFetchRef _ => MsgType_FetchRef
  | PFetchRefResponse _ _ => MsgType_FetchRefResponse
  | PAnnouncePeers _ => MsgType_AnnouncePeers
  end.

Class MsgJson := {
  msg_Marshal : MsgType → payload → outcome bytes;
  msg_outer : bytes → outcome (MsgType * bytes);
  json_Ack : bytes → outcome (bytes * ID);
  json_EncryptedTx : bytes → outcome EncryptedTx;
  json_Challenge : bytes → outcome bytes;
  json_Responses : bytes → outcome (list ChallengeIdentityResponse);
  json_RefID : bytes → outcome RefID;
  json_FetchRefResponse : bytes → outcome (bool * option packet);
  json_PeerDialInfos : bytes → outcome (list PeerDialInfo);
  msg_ok : payload → Prop
}.

Definition ErrEOF : error := ErrOther "EOF".
Definition ErrUnexpectedEOF : error := ErrOther "unexpected EOF".
Definition ErrBadMsg : error := ErrOther "bad msg".
Definition ErrProtocol : error := ErrOther "protocol error".

Section Messages.
Context `{TxJson} `{MsgJson}.

(** The quotes of a subscription are cut off without reading the text between them. *)
Definition Msg_UnmarshalJSON (bs : bytes) : outcome payload :=
  let! m := msg_outer bs in
  let '(ty, raw) := m in
  if decide (ty = MsgType_Subscribe) then let! url := slice raw 1 (Z.of_nat (length raw) - 1) in Ret (PSubscribe url)
  else if decide (ty = MsgType_Put) then let! tx := tx_UnmarshalJSON raw in Ret (PPut tx)
  else if decide (ty = MsgType_Ack) then let! a := json_Ack raw in Ret (PAck a.1 a.2)
  else if decide (ty = MsgType_Private) then let! e := json_EncryptedTx raw in Ret (PPrivate e)
  else if decide (ty = MsgType_ChallengeIdentityRequest) then let! c := json_Challenge raw in Ret (PChallenge c)
  else if decide (ty = MsgType_ChallengeIdentityResponse) then let! r := json_Responses raw in Ret (PChallengeResponse r)
  else if decide (ty = MsgType_FetchRef) then let! r := json_RefID raw in Ret (PFetchRef r)
  else if decide (ty = MsgType_FetchRefResponse) then let! r := json_FetchRefResponse raw in Ret (PFetchRefResponse r.1 r.2)
  else if decide (ty = MsgType_AnnouncePeers) then let! l := json_PeerDialInfos raw in Ret (PAnnouncePeers l)
  else Err ErrBadMsg.

(** ** Frames *)

Definition WriteUint64 (stream : bytes) (n : Z) : bytes := stream ++ le_bytes 8 n.

Definition ReadUint64 (stream : bytes) : outcome (Z * bytes) :=
  if decide (stream = []) then Err ErrEOF
  else if decide (length stream < 8) then Err ErrUnexpectedEOF
  else Ret (le_value (take 8 stream), drop 8 stream).

(** [io.CopyN]: a count that is not positive copies nothing. *)
Definition CopyN (stream : bytes) (n : Z) : outcome (bytes * bytes) :=
  if decide (n ≤ 0)%Z then Ret ([], stream)
  else if decide (Z.of_nat (length stream) < n)%Z then Err ErrEOF
  else Ret (take (Z.to_nat n) stream, drop (Z.to_nat n) stream).

Definition writeMsg (stream : bytes) (p : payload) : outcome bytes :=
  let! bs := msg_Marshal (type_of p) p in
  Ret (WriteUint64 stream (Z.of_nat (length bs)) ++ bs).

Definition libp2pReadMsg (stream : bytes) : outcome (payload * bytes) :=
  let! r := ReadUint64 stream in
  let '(size, stream) := r in
  let! r := CopyN stream (i64 size) in
  let '(buf, stream) := r in
  let! msg := Msg_UnmarshalJSON buf in
  Ret (msg, stream).

(** *** What the methods of a peer read *)

Definition ReceiveChallengeIdentityResponse (stream : bytes) : outcome (list ChallengeIdentityResponse * bytes) :=
  let! r := libp2pReadMsg stream in
  match r.1 with PChallengeResponse resp => Ret (resp, r.2) | _ => Err ErrProtocol end.

Definition ReceiveRefHeader (stream : bytes) : outcome bytes :=
  let! r := libp2pReadMsg stream in
  match r.1 with PFetchRefResponse true _ => Ret r.2 | _ => Err ErrProtocol end.

Definition ReceiveRefPacket (stream : bytes) : outcome (packet * bytes) :=
  let! r := libp2pReadMsg stream in
  match r.1 with PFetchRefResponse _ (Some body) => Ret (body, r.2) | _ => Err ErrProtocol end.

(** [libp2pReadableSubscription.Read]: the transaction. *)
Definition sub_Read `{Box} (ks : BadgerKeyStore) (stream : bytes) : outcome (Tx * bytes) :=
  let! r := libp2pReadMsg stream in
  match r.1 with
  | PPut tx => Ret (tx, r.2)
  | PPrivate e => let! tx := open_private_tx ks e in Ret (tx, r.2)
  | _ => Err ErrProtocol
  end.
End Messages.

(** ** Connections *)

Definition libp2p_name : bytes := str "libp2p".

(** The other end: its ID, the number of the stream, its multiaddresses, and what
    subscriptions ask it for. *)
Record connection := mkConnection { cn_peerID : bytes; cn_stream : nat; cn_dialAddrs : list bytes; cn_wire : wire_peer }.

Section Handler.
Context {T : Type} `{BadgerTxn T} `{JsonCodec} `{ProtoCodec} `{MapOrder} `{Secp256k1} `{Configs T} `{Derivation} `{Hashes}.
Context `{TxJson} `{MsgJson} `{Box}.
Context {St : Type} (copy : DBNode T → Keypath → outcome St) (keccak256 : bytes → bytes) (open_db : bytes → outcome T).

Record libp2pTransport := mkLibp2p {
  lp_host : host (T := T);
  lp_refs : refStore T;
  lp_writeSubsByPeerID : gmap bytes (gmap nat wsub)
}.
Definition with_host (lp : libp2pTransport) (h : host) : libp2pTransport := mkLibp2p h (lp_refs lp) (lp_writeSubsByPeerID lp).

(** The details of the first dial info (a [nil] in an interface is not [nil], so the loop of
    the code ends there); the peer is [nil] when there is no multiaddress. *)
Definition makeConnectedPeer (s : peerStore) (dialAddrs : list bytes) : peerStore * option nat :=
  let dialInfos := mkDialInfo libp2p_name <$> dialAddrs in
  let s := AddDialInfos keccak256 s dialInfos in
  (s, match dialInfos with [] => None | d :: _ => PeerWithDialInfo s d end).

Definition makeDisconnectedPeer (s : peerStore) (dialAddrs : list bytes) : peerStore * option nat :=
  let dialInfos := mkDialInfo libp2p_name <$> dialAddrs in
  match omap (PeerWithDialInfo s) dialInfos with
  | p :: _ => (s, Some p)
  | [] => makeConnectedPeer s dialAddrs
  end.

(** What the host sees of a peer. *)
Definition peer_of (s : peerStore) (p : nat) : option host_peer :=
  (λ d, mkHostPeer (pd_dialInfo d) (elements (pd_addresses d))) <$> pd_at s p.

(** The transport afterwards, the messages that are written to the stream, and what is
    enqueued for a new subscription. *)
Definition handle_msg (lp : libp2pTransport) (cn : connection) (peer : host_peer) (send : nat → option error) (msg : payload) :
    outcome (libp2pTransport * list payload * list (SubscriptionMsg St)) :=
  let h := lp_host lp in
  match msg with
  | PSubscribe stateURI =>
      let w := mkWsub (cn_stream cn) stateURI [] SubscriptionType_Txs (RemoteSub (cn_wire cn)) in
      let subs := default ∅ (lp_writeSubsByPeerID lp !! cn_peerID cn) in
      let lp := mkLibp2p h (lp_refs lp) (<[cn_peerID cn := <[cn_stream cn := w]> subs]> (lp_writeSubsByPeerID lp)) in
      let! r := HandleWritableSubscriptionOpened h w (Some EmptyID) copy in
      Ret (with_host lp r.1, [], r.2)
  | PPut tx => let! h := HandleTxReceived keccak256 open_db h tx peer in Ret (with_host lp h, [], [])
  | PAck stateURI txID => Ret (with_host lp (HandleAckReceived h stateURI txID peer), [], [])
  | PChallenge challengeMsg =>
      match HandleChallengeIdentity keccak256 h challengeMsg with
      | Ret resp => Ret (lp, [PChallengeResponse resp], [])
      | Err _ => Ret (lp, [], [])
      | Panic => Panic
      | Running => Running
      end
  | PFetchRef refID =>
      let! pkts := HandleFetchRefReceived (lp_refs lp) refID send in
      Ret (lp, match send 0 with
               | None => PFetchRefResponse true None :: ((λ p, PFetchRefResponse false (Some p)) <$> pkts)
               | Some _ => []
               end, [])
  | PPrivate encryptedTx =>
      match open_private_tx (ho_keys h) encryptedTx with
      | Ret tx => let! h := HandleTxReceived keccak256 open_db h tx peer in Ret (with_host lp h, [], [])
      | Err _ => Ret (lp, [], [])
      | Panic => Panic
      | Running => Running
      end
  | PAnnouncePeers tuples => Ret (with_host lp (with_peers h (AddDialInfos keccak256 (ho_peers h) tuples)), [], [])
  | PChallengeResponse _ | PFetchRefResponse _ _ => Panic
  end.

(** Every message makes use of the peer, which must not be [nil]. *)
Definition handleIncomingStream (lp : libp2pTransport) (cn : connection) (send : nat → option error) (stream : bytes) :
    outcome (libp2pTransport * list payload * list (SubscriptionMsg St)) :=
  match libp2pReadMsg stream with
  | Ret (msg, _) =>
      let '(s, p) := makeConnectedPeer (ho_peers (lp_host lp)) (cn_dialAddrs cn) in
      let lp := with_host lp (with_peers (lp_host lp) s) in
      match p ≫= peer_of s with
      | Some peer => handle_msg lp cn peer send msg
      | None => Panic
      end
  | Err _ => Ret (lp, [], [])
  | Panic => Panic
  | Running => Running
  end.
End Handler.

(** ** Frames are read back *)

(** The text of the payload is read by the reader of its type; a subscription is a string
    that needs no escapes. *)
Definition reads_back `{TxJson} `{MsgJson} (p : payload) (raw : bytes) : Prop :=
  match p with
  | PSubscribe uri => raw = x22 :: uri ++ [x22]
  | PPut tx => tx_UnmarshalJSON raw = Ret tx
  | PPrivate e => json_EncryptedTx raw = Ret e
  | PAck uri id => json_Ack raw = Ret (uri, id)
  | PChallenge c => json_Challenge raw = Ret c
  | PChallengeResponse r => json_Responses raw = Ret r
  | PFetchRef r => json_RefID raw = Ret r
  | PFetchRefResponse h b => json_FetchRefResponse raw = Ret (h, b)
  | PAnnouncePeers l => json_PeerDialInfos raw = Ret l
  end.
Class MsgJsonLaws `{TxJson} `{MsgJson} : Prop := {
  msg_json_roundtrip p : msg_ok p → ∃ bs raw,
    msg_Marshal (type_of p) p = Ret bs ∧ msg_outer bs = Ret (type_of p, raw) ∧ reads_back p raw ∧ (0 < Z.of_nat (length bs) < two63)%Z
}.

Section Frames.
Context `{HT : TxJson} `{HM : MsgJson} `{HL : !MsgJsonLaws}.

Lemma Msg_read_back p bs raw : msg_outer bs = Ret (type_of p, raw) → reads_back p raw → Msg_UnmarshalJSON bs = Ret p.
Proof.
  intros Ho Hr. unfold Msg_UnmarshalJSON. rewrite Ho. cbn [obind]. destruct p; cbn [type_of reads_back] in *;
    repeat (rewrite decide_False by done); rewrite decide_True by done; try (by rewrite Hr).
  subst raw. change (x22 :: stateURI ++ [x22]) with ([x22] ++ stateURI ++ [x22]). by rewrite slice_app by (rewrite ?length_app; simpl; lia).
Qed.

Lemma read_frame p stream : msg_ok p →
  ∃ frame, writeMsg stream p = Ret (stream ++ frame) ∧ ∀ rest, libp2pReadMsg (frame ++ rest) = Ret (p, rest).
Proof.
  intros Hok. destruct (msg_json_roundtrip p Hok) as (bs & raw & Hm & Ho & Hr & Hlen).
  exists (le_bytes 8 (Z.of_nat (length bs)) ++ bs). split.
  { unfold writeMsg, WriteUint64. rewrite Hm. cbn [obind]. by rewrite <- app_assoc. }
  intros rest. unfold libp2pReadMsg, ReadUint64. pose proof (length_le_bytes 8 (Z.of_nat (length bs))) as H8. rewrite <- app_assoc.
  rewrite decide_False by (intros Heq; apply (f_equal length) in Heq; rewrite length_app, H8 in Heq; simpl in Heq; lia).
  rewrite decide_False by (rewrite length_app, H8; lia). rewrite take_app_length', drop_app_length', le_value_bytes by done. cbn [obind].
  rewrite Z.mod_small by (change (256 ^ Z.of_nat 8)%Z with two64; unfold two63, two64 in *; lia).
  rewrite i64_id by (unfold is_i64, two63 in *; lia). unfold CopyN. rewrite decide_False by lia.
  rewrite decide_False by (rewrite length_app; lia). rewrite Nat2Z.id, take_app_length, drop_app_length. cbn [obind].
  by rewrite (Msg_read_back p bs raw).
Qed.

(** Messages read one after the other. *)
Fixpoint read_msgs (n : nat) (stream : bytes) : outcome (list payload * bytes) :=
  match n with
  | O => Ret ([], stream)
  | S n => let! r := libp2pReadMsg stream in let! l := read_msgs n r.2 in Ret (r.1 :: l.1, l.2)
  end.

Lemma read_frames ps stream : Forall msg_ok ps →
  ∃ frames, fold_outcome writeMsg stream ps = Ret (stream ++ frames) ∧ ∀ rest, read_msgs (length ps) (frames ++ rest) = Ret (ps, rest).
Proof.
  intros Hps. revert stream. induction Hps as [|p ps Hp _ IH]; intros stream.
  - exists []. rewrite app_nil_r. by split.
  - destruct (read_frame p stream Hp) as (f & Hf & Hread). cbn [fold_outcome]. rewrite Hf. cbn [obind].
    destruct (IH (stream ++ f)) as (fs & Hfs & Hreads). exists (f ++ fs). rewrite Hfs, <- app_assoc. split; [done|].
    intros rest. cbn [length read_msgs]. rewrite <- app_assoc, Hread. cbn [obind snd fst]. by rewrite Hreads.
Qed.
End Frames.

(** Messages cross a stream whole and in order: whatever messages are written after each
    other to a stream, reading as many gives them back in order, and leaves what was written
    behind them. *)
Theorem libp2p_frames `{MsgJsonLaws} ps stream :
  Forall msg_ok ps →
  ∃ frames, fold_outcome writeMsg stream ps = Ret (stream ++ frames) ∧ ∀ rest, read_msgs (length ps) (frames ++ rest) = Ret (ps, rest).
Proof. apply read_frames. Qed.

Lemma makeConnectedPeer_first kc s d dialAddrs : ps_wf s → d ≠ [] →
  ∃ s' p peer, makeConnectedPeer kc s (d :: dialAddrs) = (s', Some p) ∧ peer_of s' p = Some peer ∧
    hp_DialInfo peer = mkDialInfo libp2p_name d.
Proof.
  intros Hwf Hd. unfold makeConnectedPeer. set (s' := AddDialInfos kc s _).
  assert (ps_wf s') as Hwf' by (by apply wf_AddDialInfos).
  assert (is_Some (ps_peers s' !! mkDialInfo libp2p_name d)) as [p Hp].
  { apply AddDialInfos_known. right. split; [left|done]. }
  destruct (wf_peers s' Hwf' _ _ Hp) as (_ & pd & Hpd & Hdi). cbn [fmap list_fmap]. unfold PeerWithDialInfo. rewrite decide_False by done.
  rewrite Hp. exists s', p. unfold peer_of. rewrite Hpd. eexists. split; [done|]. split; [done|]. done.
Qed.

(** C18: A transaction that is put to a libp2p peer arrives: what [Put] writes to the stream
    makes the receiving host handle exactly this transaction, from the peer at the other end;
    also a private one, when the sender is the default identity and the receiver owns the
    keys it was sealed for. *)
Theorem libp2p_put_delivers {T} `{BadgerTxn T} `{JsonCodec} `{ProtoCodec} `{MapOrder} `{Secp256k1} `{Configs T} `{Derivation} `{Hashes}
    `{TxJsonLaws} `{!MsgJson} `{!MsgJsonLaws} `{BoxLaws} {St} (copy : DBNode T → Keypath → outcome St) keccak256 open_db
    ks p tx nonce i (lp : libp2pTransport (T := T)) cn send d dialAddrs :
  ps_wf (ho_peers (lp_host lp)) → cn_dialAddrs cn = d :: dialAddrs → d ≠ [] →
  msg_ok (PPut tx) → (∀ e, libp2pPeer_Put ks p tx nonce = Ret (inr e) → msg_ok (PPrivate e)) → tx_json_ok tx →
  (IsPrivate tx = true →
     (∃ a, a ∈ tx_Recipients tx ∧ a ∈ wp_Addresses p) ∧ length nonce = ENCRYPTING_NONCE_LENGTH ∧
     keys_of_store p (ho_keys (lp_host lp)) ∧ IdentityWithAddress ks (tx_From tx) = Ret i ∧ DefaultPublicIdentity ks = Ret i ∧ own_key i) →
  ∃ m frame h peer, libp2pPeer_Put ks p tx nonce = Ret m ∧
    writeMsg [] (match m with inl tx => PPut tx | inr e => PPrivate e end) = Ret frame ∧
    hp_DialInfo peer = mkDialInfo libp2p_name d ∧ ho_hub h = ho_hub (lp_host lp) ∧ ho_seen h = ho_seen (lp_host lp) ∧
    handleIncomingStream copy keccak256 open_db lp cn send frame =
      (let! h := HandleTxReceived keccak256 open_db h tx peer in Ret (with_host lp h, [], [])).
Proof.
  intros Hwf Hcn Hd Hok Hokp Htx Hpriv.
  destruct (makeConnectedPeer_first keccak256 _ d dialAddrs Hwf Hd) as (s' & q & peer & Hm & Hpeer & Hdi).
  set (h := with_peers (lp_host lp) s').
  assert (∀ x : payload, msg_ok x → ∃ frame, writeMsg [] x = Ret frame ∧
    handleIncomingStream copy keccak256 open_db lp cn send frame = handle_msg copy keccak256 open_db (with_host lp h) cn peer send x) as Hread.
  { intros x Hx. destruct (read_frame x [] Hx) as (frame & Hw & Hr). exists frame. split; [done|].
    unfold handleIncomingStream. specialize (Hr []). rewrite app_nil_r in Hr. rewrite Hr, Hcn, Hm. cbn [mbind option_bind]. by rewrite Hpeer. }
  destruct (IsPrivate tx) eqn:Hp.
  - destruct (Hpriv eq_refl) as ((a & Ha1 & Ha2) & Hn & Hkeys & Hi & Hdef & Hown).
    destruct (opens_over_libp2p ks (ho_keys (lp_host lp)) p tx nonce i a) as (e & Hput & Hopen); try done.
    destruct (Hread (PPrivate e) (Hokp e Hput)) as (frame & Hw & Hh). exists (inr e), frame, h, peer. split_and!; try done.
    rewrite Hh. cbn [handle_msg]. change (ho_keys (lp_host (with_host lp h))) with (ho_keys (lp_host lp)). by rewrite Hopen.
  - destruct (Hread (PPut tx) Hok) as (frame & Hw & Hh). exists (inl tx), frame, h, peer.
    split_and!; try done. unfold libp2pPeer_Put. by rewrite Hp.
Qed.

(** A peer that opens with an answer to a question that was not asked makes the host panic. *)
Theorem unexpected_message_panics {T} `{BadgerTxn T} `{JsonCodec} `{ProtoCodec} `{MapOrder} `{Secp256k1} `{Configs T} `{Derivation} `{Hashes}
    `{TxJson} `{!MsgJson} `{Box} {St} (copy : DBNode T → Keypath → outcome St) keccak256 open_db (lp : libp2pTransport (T := T)) cn send stream rest resp :
  libp2pReadMsg stream = Ret (PChallengeResponse resp, rest) →
  handleIncomingStream copy keccak256 open_db lp cn send stream = Panic.
Proof. intros Hr. unfold handleIncomingStream. rewrite Hr. destruct (makeConnectedPeer _ _ _) as [s q]. by destruct (q ≫= peer_of s). Qed.

(** So does a subscription whose payload is a single character, such as a digit. *)
Theorem subscribe_payload_panics `{TxJson} `{MsgJson} bs c :
  msg_outer bs = Ret (MsgType_Subscribe, [c]) → Msg_UnmarshalJSON bs = Panic.
Proof. intros Ho. unfold Msg_UnmarshalJSON. by rewrite Ho. Qed.

(** ** Examples *)

#[local] Existing Instance toy_curve.
#[local] Existing Instance toy_derivation.
#[local] Existing Instance toy_codec.
#[local] Existing Instance checking_box.
#[local] Existing Instance checking_box_laws.
#[local] Existing Instance toy_json.
#[local] Existing Instance toy_json_laws.
#[local] Existing Instance plain_configs.
#[local] Existing Instance toy_hashes.

(** Fields with their lengths in front. *)
Definition put_field (b : bytes) : bytes := le_bytes 8 (Z.of_nat (length b)) ++ b.
Definition get_field (s : bytes) : bytes * bytes :=
  let n := Z.to_nat (le_value (take 8 s)) in (take n (drop 8 s), drop n (drop 8 s)).

Lemma get_put_field b r : (Z.of_nat (length b) < two64)%Z → get_field (put_field b ++ r) = (b, r).
Proof.
  intros Hb. unfold get_field, put_field. rewrite <- app_assoc.
  rewrite take_app_length', drop_app_length', le_value_bytes by (by rewrite length_le_bytes).
  change (256 ^ Z.of_nat 8)%Z with two64. rewrite Z.mod_small by lia. by rewrite Nat2Z.id, take_app_length, drop_app_length.
Qed.

(** A text form of the messages that carry transactions and subscriptions: the length of the
    type, the type and the payload. *)
Definition toy_raw (p : payload) : outcome bytes :=
  match p with
  | PSubscribe uri => Ret (x22 :: uri ++ [x22])
  | PPut tx => tx_MarshalJSON tx
  | PPrivate e => Ret (put_field (etx_TxID e) ++ put_field (etx_EncryptedPayload e) ++ put_field (etx_SenderPublicKey e) ++ etx_RecipientAddress e)
  | _ => Err ErrUnimplemented
  end.
Definition toy_limit : Z := 2 ^ 40.
#[local] Instance toy_msgs : MsgJson := {
  msg_Marshal ty p := let! raw := toy_raw p in Ret (byte_of_Z (Z.of_nat (length ty)) :: ty ++ raw);
  msg_outer bs :=
    match bs with
    | [] => Err ErrEOF
    | n :: bs => Ret (take (Z.to_nat (byte_to_Z n)) bs, drop (Z.to_nat (byte_to_Z n)) bs)
    end;
  json_Ack _ := Err ErrUnimplemented;
  json_EncryptedTx bs :=
    let '(id, bs) := get_field bs in
    let '(sealed, bs) := get_field bs in
    let '(key, bs) := get_field bs in
    Ret (mkEncryptedTx id sealed key bs);
  json_Challenge _ := Err ErrUnimplemented;
  json_Responses _ := Err ErrUnimplemented;
  json_RefID _ := Err ErrUnimplemented;
  json_FetchRefResponse _ := Err ErrUnimplemented;
  json_PeerDialInfos _ := Err ErrUnimplemented;
  msg_ok p :=
    match p with
    | PPut tx => tx_json_ok tx
    | PSubscribe _ | PPrivate _ => True
    | _ => False
    end ∧ match toy_raw p with Ret raw => (Z.of_nat (length raw) < toy_limit)%Z | _ => False end
}.
#[local] Instance toy_msgs_laws : MsgJsonLaws.
Proof.
  split. intros p [Hok Hlen]. destruct (toy_raw p) as [raw| | |] eqn:Hraw; [|done..].
  exists (byte_of_Z (Z.of_nat (length (type_of p))) :: type_of p ++ raw), raw. cbn [msg_Marshal msg_outer toy_msgs]. rewrite Hraw. cbn [obind].
  assert (Z.to_nat (byte_to_Z (byte_of_Z (Z.of_nat (length (type_of p))))) = length (type_of p)) as -> by (by destruct p).
  rewrite take_app_length, drop_app_length. split_and!; try done.
  - destruct p; try done; cbn [toy_raw reads_back json_EncryptedTx toy_msgs] in Hraw |- *.
    + by injection Hraw as <-.
    + destruct (tx_json_roundtrip tx Hok) as (bs & Hm & Hu). rewrite Hraw in Hm. by injection Hm as <-.
    + match type of Hraw with Ret ?x = _ => assert (raw = x) as -> by congruence end. clear Hraw.
      unfold toy_limit, put_field in Hlen. rewrite !length_app in Hlen.
      rewrite !get_put_field by (unfold two64; lia). by destruct etx.
  - cbn [length]. rewrite length_app. unfold toy_limit in Hlen. assert (length (type_of p) < 100) by (destruct p; vm_compute; lia).
    unfold two63. lia.
Qed.

Definition two_messages : list payload := [PSubscribe (str "foo.bar/baz"); PPut sealed_tx].

Lemma libp2p_frames_witness :
  ∃ frames, fold_outcome writeMsg [] two_messages = Ret frames ∧ read_msgs 2 frames = Ret (two_messages, []).
Proof.
  destruct (libp2p_frames two_messages []) as (frames & Hw & Hr).
  - apply Forall_cons. split; [split; [exact I|apply Z.ltb_lt; vm_compute; reflexivity]|].
    apply Forall_singleton. split; [reflexivity|apply Z.ltb_lt; vm_compute; reflexivity].
  - exists frames. split; [exact Hw|]. specialize (Hr []). rewrite app_nil_r in Hr. exact Hr.
Defined.

Definition wire_host : host (T := gmap bytes bytes) := mkHost empty_hub ∅ ∅ (Some ∅) (empty_store ∅) sender_store.
Definition wire_transport : libp2pTransport (T := gmap bytes bytes) := mkLibp2p wire_host example_store ∅.
Definition wire_connection : connection := mkConnection (str "Qm") 0 [str "/ip4/10.0.0.1"] sealed_peer.

Lemma libp2p_put_delivers_witness :
  ∃ m frame h peer, libp2pPeer_Put sender_store sealed_peer sealed_tx (take 24 (id_of 3)) = Ret m ∧
    writeMsg [] (match m with inl tx => PPut tx | inr e => PPrivate e end) = Ret frame ∧
    handleIncomingStream (λ _ _, Ret tt) (λ b, b) (λ _, Ret ∅) wire_transport wire_connection (λ _, None) frame =
      (let! h := HandleTxReceived (λ b, b) (λ _, Ret ∅) h sealed_tx peer in Ret (with_host wire_transport h, [], [])).
Proof.
  destruct (libp2p_put_delivers (λ _ _, Ret tt) (λ b, b) (λ _, Ret ∅) sender_store sealed_peer sealed_tx (take 24 (id_of 3))
    (mkIdentity true (mkSigning (str "words") own_addr) key_b) wire_transport wire_connection (λ _, None) (str "/ip4/10.0.0.1") [])
    as (m & frame & h & peer & Hput & Hw & _ & _ & _ & Hh).
  - apply wf_empty.
  - reflexivity.
  - discriminate.
  - split; [reflexivity|apply Z.ltb_lt; vm_compute; reflexivity].
  - intros e He. split; [exact I|]. apply Z.ltb_lt.
    assert (match libp2pPeer_Put sender_store sealed_peer sealed_tx (take 24 (id_of 3)) with
            | Ret (inr e) => match toy_raw (PPrivate e) with Ret raw => (Z.of_nat (length raw) <? toy_limit)%Z | _ => false end
            | _ => false end = true) as Hl by (vm_compute; reflexivity).
    rewrite He in Hl. exact Hl.
  - reflexivity.
  - intros _. split; [exists own_addr; split; left|]. split; [reflexivity|]. split.
    { intros a Ha. cbn [sealed_peer wp_Addresses] in Ha. apply list_elem_of_singleton in Ha as ->.
      exists own_addr, (mkIdentity true (mkSigning (str "words") own_addr) key_b). split; vm_compute; reflexivity. }
    split; [reflexivity|]. split; [reflexivity|]. split; reflexivity.
  - exists m, frame, h, peer. split; [exact Hput|]. split; [exact Hw|exact Hh].
Defined.
