(* ===== verification/Libp2pNet.v ===== *)
(** * The libp2p transport's network side ([transport.libp2p.go])

    Addresses of peers, what the transport puts into the peer store, connections, searches in
    the hash table (DHT) and what is announced there, the key that is kept with the user.

    The libp2p host, the DHT, multiaddresses and keys are libraries: what they return is an
    argument.  A multiaddress is its text and its values for the two protocols that the code
    looks at; [arrange] is the order in which Go's map iteration and [sort.Slice], with a
    comparison that is no order, leave the addresses. *)

From S2P Require Import Prelude Types Keypath TreeTypes GoValue MemoryNode BadgerTxn DBNode Tx PatchParser TxStore Mempool Behaviors Nelson Permissions Controller ControllerProps Hub.
From S2P Require Import RefStore RefTransfer PeerStore KeyStore HttpTx HttpSession Host Libp2pMsg.

(** ** Addresses *)

Definition circuit : bytes := str "/p2p-circuit".

(** [strings.Replace(s, old, new, 1)] *)
Definition ReplaceFirst (s old new : bytes) : bytes :=
  match index_sub s old with Some i => take i s ++ new ++ drop (i + length old) s | None => s end.

Definition contains (s sub : bytes) : bool := bool_decide (is_Some (index_sub s sub)).

(** The part that both functions share; [pretty] is the text of the peer's ID. *)
Definition with_peer_id (addrStr pretty : bytes) : bytes :=
  let addrStr := ReplaceFirst addrStr (str "/ipfs/") (str "/p2p/") in
  if negb (contains addrStr (str "/p2p/")) then addrStr ++ str "/p2p/" ++ pretty else addrStr.

(** A slice of an address that is shorter than the prefix panics. *)
Definition cleanLibp2pAddr (addrStr pretty : bytes) : outcome bytes :=
  let! p := slice addrStr 0 (Z.of_nat (length circuit)) in
  if decide (p = circuit) then Ret [] else Ret (with_peer_id addrStr pretty).

Definition cleanLibp2pAddrs (addrStrs : gset bytes) (pretty : bytes) : outcome (gset bytes) :=
  fold_outcome (λ keep addrStr,
      let! skip :=
        if has_prefix addrStr (str "/ip4/172.") then Ret false
        else let! p := slice addrStr 0 (Z.of_nat (length circuit)) in Ret (bool_decide (p = circuit)) in
      Ret (if skip then keep else {[with_peer_id addrStr pretty]} ∪ keep))
    ∅ (elements addrStrs).

Record multiaddr := mkMultiaddr { ma_string : bytes; ma_ip4 : bytes; ma_dns4 : bytes }.
#[export] Instance multiaddr_eq_dec : EqDecision multiaddr.
Proof. solve_decision. Defined.

(** The comparison given to [sort.Slice] looks at the first argument only. *)
Definition sorts_first (a : multiaddr) : bool :=
  if decide (ma_ip4 a ≠ []) then bool_decide (ma_ip4 a = str "127") || bool_decide (ma_ip4 a = str "192")
  else bool_decide (ma_dns4 a ≠ []).

(** The last address of each text stays. *)
Definition dedup (addrs : list multiaddr) : gmap bytes multiaddr := foldl (λ m a, <[ma_string a := a]> m) ∅ addrs.

(** [pinfo]: the ID, its text and the addresses with the ID, as [InfoToP2pAddrs] gives them. *)
Record PeerInfo := mkPeerInfo { pi_ID : bytes; pi_pretty : bytes; pi_addrs : list multiaddr }.

Section Network.
Context (keccak256 : bytes → bytes) (arrange : gmap bytes multiaddr → list multiaddr).

Definition multiaddrsFromPeerInfo (pinfo : PeerInfo) : outcome (list bytes) :=
  let! cleaned := map_outcome (λ a, cleanLibp2pAddr (ma_string a) (pi_pretty pinfo)) (arrange (dedup (pi_addrs pinfo))) in
  Ret (filter (λ a, a ≠ []) cleaned).

Definition peerDialInfosFromPeerInfo (pinfo : PeerInfo) : outcome (list PeerDialInfo) :=
  let! addrs := multiaddrsFromPeerInfo pinfo in Ret (mkDialInfo libp2p_name <$> addrs).

(** ** The peer store *)

Definition addPeerInfosToPeerStore (s : peerStore) (pinfos : list PeerInfo) : outcome peerStore :=
  fold_outcome (λ s pinfo,
      if decide (pi_ID pinfo = []) then Ret s
      else let! dialInfos := peerDialInfosFromPeerInfo pinfo in Ret (AddDialInfos keccak256 s dialInfos)) s pinfos.

(** [Connected]; [addr] is the other end's address and [pretty] its ID. *)
Definition Connected (s : peerStore) (peers : list PeerInfo) (addr pretty : bytes) : outcome peerStore :=
  let! s := addPeerInfosToPeerStore s peers in
  Ret (AddDialInfos keccak256 s [mkDialInfo libp2p_name (addr ++ str "/p2p/" ++ pretty)]).

Definition Disconnected (s : peerStore) (peers : list PeerInfo) : outcome peerStore := addPeerInfosToPeerStore s peers.

(** ** Peers *)

(** A peer: its details in the store and its stream; the ID is that of [pinfo]. *)
Record libp2pPeer := mkLibp2pPeer { lpp_details : nat; lpp_ID : bytes; lpp_stream : option nat }.

Definition disconnected_peer (s : peerStore) (pinfo : PeerInfo) : outcome (peerStore * option libp2pPeer) :=
  let! addrs := multiaddrsFromPeerInfo pinfo in
  if decide (length addrs = 0) then Ret (s, None)
  else let '(s, p) := makeDisconnectedPeer keccak256 s addrs in Ret (s, (λ p, mkLibp2pPeer p (pi_ID pinfo) None) <$> p).

(** What the host does for [EnsureConnected]: how many connections there are, whether
    [Connect] fails, the stream or the error of [NewStream]. *)
Record dialling := mkDialling { dl_conns : nat; dl_connect : option error; dl_stream : nat + error; dl_now : Z }.

Definition ErrConnection : error := ErrOther "connection error".

Definition EnsureConnected (s : peerStore) (peer : libp2pPeer) (d : dialling) : peerStore * libp2pPeer * option error :=
  match lpp_stream peer with
  | Some _ => (s, peer, None)
  | None =>
      match (if decide (dl_conns d = 0) then dl_connect d else None) with
      | Some _ => (s, peer, Some ErrConnection)
      | None =>
          match dl_stream d with
          | inr e => (UpdateConnStats keccak256 s (lpp_details peer) (dl_now d) false, peer, Some e)
          | inl st => (UpdateConnStats keccak256 s (lpp_details peer) (dl_now d) true, mkLibp2pPeer (lpp_details peer) (lpp_ID peer) (Some st), None)
          end
      end
  end.

(** [writeMsg] of the peer: what is on the stream afterwards; [fails] is the error of the
    stream. *)
Definition peer_writeMsg `{TxJson} `{MsgJson} (s : peerStore) (peer : libp2pPeer) (now : Z) (fails : option error) (stream : bytes) (p : payload) :
    outcome (peerStore * (bytes + error)) :=
  match lpp_stream peer with
  | None => Panic
  | Some _ =>
      match writeMsg stream p with
      | Ret out =>
          match fails with
          | None => Ret (UpdateConnStats keccak256 s (lpp_details peer) now true, inl out)
          | Some e => Ret (UpdateConnStats keccak256 s (lpp_details peer) now false, inr e)
          end
      | Err e => Ret (UpdateConnStats keccak256 s (lpp_details peer) now false, inr e)
      | Panic => Panic
      | Running => Running
      end
  end.

(** [Subscribe]: the deferred update of the statistics comes last. *)
Definition peer_Subscribe `{TxJson} `{MsgJson} (s : peerStore) (peer : libp2pPeer) (d : dialling) (fails : option error) (stream stateURI : bytes) :
    outcome (peerStore * libp2pPeer * (bytes + error)) :=
  match EnsureConnected s peer d with
  | (s, peer, Some e) => Ret (UpdateConnStats keccak256 s (lpp_details peer) (dl_now d) false, peer, inr e)
  | (s, peer, None) =>
      let! r := peer_writeMsg s peer (dl_now d) fails stream (PSubscribe stateURI) in
      Ret (UpdateConnStats keccak256 r.1 (lpp_details peer) (dl_now d) (match r.2 with inl _ => true | inr _ => false end), peer, r.2)
  end.

(** What the other methods write. *)
Definition Ack_msg (stateURI : bytes) (txID : ID) : payload := PAck stateURI txID.
Definition ChallengeIdentity_msg (challengeMsg : bytes) : payload := PChallenge challengeMsg.
Definition RespondChallengeIdentity_msg (r : list ChallengeIdentityResponse) : payload := PChallengeResponse r.
Definition FetchRef_msg (refID : RefID) : payload := PFetchRef refID.
Definition SendRefHeader_msg : payload := PFetchRefResponse true None.
Definition SendRefPacket_msg (p : packet) : payload := PFetchRefResponse false (Some p).
Definition AnnouncePeers_msg (l : list PeerDialInfo) : payload := PAnnouncePeers l.

(** [HandlePeerFound] *)
Definition HandlePeerFound (s : peerStore) (pinfo : PeerInfo) (d : dialling) : outcome peerStore :=
  if decide (pi_ID pinfo = []) then Ret s
  else
    let! _ := peerDialInfosFromPeerInfo pinfo in
    let! s := addPeerInfosToPeerStore s [pinfo] in
    let! r := disconnected_peer s pinfo in
    match r with (s, None) => Ret s | (s, Some peer) => Ret (EnsureConnected s peer d).1.1 end.

(** [NewPeerConn] of an address that the libraries parsed; a nil peer is returned inside an
    interface, as [inr tt]. *)
Definition ErrPeerIsSelf : error := ErrOther "peer is self".
Definition NewPeerConn (s : peerStore) (self : bytes) (parsed : outcome PeerInfo) : outcome (peerStore * (libp2pPeer + unit)) :=
  let! pinfo := parsed in
  if decide (pi_ID pinfo = self) then Err ErrPeerIsSelf
  else let! r := disconnected_peer s pinfo in Ret (r.1, match r.2 with Some p => inl p | None => inr tt end).

(** ** Searching *)

(** Which branch a [select] takes when a peer could be sent: the receiver takes it, or the
    context is over. *)
Inductive pick := Sends | CtxDone.

(** One range over [FindProvidersAsync]: the peers that are sent, and whether the goroutine
    returns.  [self_returns] and [returns] are what the code does when the context is over, at
    the node itself and at another peer. *)
Fixpoint search_round (self_returns returns : bool) (s : peerStore) (self : bytes) (found : list (PeerInfo * pick)) : outcome (peerStore * list libp2pPeer * bool) :=
  match found with
  | [] => Ret (s, [], false)
  | (pinfo, c) :: found =>
      if decide (pi_ID pinfo = self) then
        match c with
        | CtxDone => if self_returns then Ret (s, [], true) else search_round self_returns returns s self found
        | Sends => search_round self_returns returns s self found
        end
      else
        let! r := disconnected_peer s pinfo in
        match r.2 ≫= λ p, (p,.) <$> pd_at r.1 (lpp_details p) with
        | Some (p, d) =>
            if decide (DialAddr (pd_dialInfo d) = []) then search_round self_returns returns r.1 self found
            else
              match c with
              | Sends => let! rest := search_round self_returns returns r.1 self found in Ret (rest.1.1, p :: rest.1.2, rest.2)
              | CtxDone => if returns then Ret (r.1, [], true) else search_round self_returns returns r.1 self found
              end
        | None => search_round self_returns returns r.1 self found
        end
  end.

(** The goroutine of [ProvidersOfStateURI] and of [ProvidersOfRef]: before each round the
    context is tested. *)
Fixpoint search (self_returns returns : bool) (s : peerStore) (self : bytes) (rounds : list (bool * list (PeerInfo * pick))) : outcome (peerStore * list libp2pPeer) :=
  match rounds with
  | [] => Running
  | (true, _) :: _ => Ret (s, [])
  | (false, found) :: rounds =>
      let! r := search_round self_returns returns s self found in
      if r.2 then Ret r.1 else let! rest := search self_returns returns r.1.1 self rounds in Ret (rest.1, r.1.2 ++ rest.2)
  end.

Definition ProvidersOfStateURI := search true true.
Definition ProvidersOfRef := search false false.

(** [PeersClaimingAddress] makes one round.  Its context is cancelled as soon as the function
    returns, so at every peer the [select] may take either branch. *)
Definition PeersClaimingAddress (s : peerStore) (self : bytes) (found : list (PeerInfo * pick)) : outcome (peerStore * list libp2pPeer) :=
  let! r := search_round false true s self found in Ret r.1.

(** ** Announcing *)

(** The content of one turn, in the order in which the goroutines are started; a failure to
    list one kind leaves it out, a failure to list identities ends the turn there. *)
Definition announcements (stateURIs : outcome (list bytes)) (refs : outcome (list RefID)) (identities : outcome (list Address)) : outcome (list bytes) :=
  let or_none {A} (m : outcome (list A)) : outcome (list A) := match m with Err _ => Ret [] | r => r end in
  let! uris := or_none stateURIs in
  let! refIDs := or_none refs in
  let! refStrs := map_outcome RefID_String refIDs in
  let! addrs := or_none identities in
  Ret (((λ u, str "serve:" ++ u) <$> uris) ++ ((λ r, str "ref:" ++ r) <$> refStrs) ++ ((λ a, str "addr:" ++ Address_Hex a) <$> addrs)).

(** [AnnounceRef]; [provide] is the answer of the hash table for a content ID, where a lookup
    failure does not count. *)
Definition ErrLookupFailure : error := ErrOther "failed to find any peer in table".
Definition AnnounceRef (cid : bytes → outcome bytes) (provide : bytes → option error) (refID : RefID) : outcome (option error) :=
  let! refStr := RefID_String refID in
  let! c := cid (str "ref:" ++ refStr) in
  Ret match provide c with Some e => if decide (e = ErrLookupFailure) then None else Some e | None => None end.

(** [periodicallyAnnounceContent]: the function literal returns when the transport is stopped,
    the loop around it does not. *)
Fixpoint periodicallyAnnounceContent (fuel : nat) (stopped : nat → bool) (turn : nat → outcome (list bytes)) (i : nat) : outcome (list bytes) :=
  match fuel with
  | O => Running
  | S fuel =>
      if stopped i then periodicallyAnnounceContent fuel stopped turn (S i)
      else let! l := turn i in let! rest := periodicallyAnnounceContent fuel stopped turn (S i) in Ret (l ++ rest)
  end.

(** ** The transport's own life *)

(** The key that is kept with the user: [marshal] and [unmarshal] are the library's. *)
Definition lp_onLoadUser {K} (unmarshal : bytes → outcome K) (generate : outcome K) (saved : option (bytes + unit)) : outcome K :=
  match saved with
  | Some (inl hexKey) => let! bs := DecodeString hexKey in unmarshal bs
  | _ => generate
  end.
Definition lp_onSaveUser {K} (marshal : K → outcome bytes) (k : K) : outcome bytes := let! bs := marshal k in Ret (EncodeToString bs).

(** [Start], what it puts into the peer store: the node's own addresses with its identities. *)
Definition own_dial_addrs (addrs : list bytes) (reachableAt pretty : bytes) : outcome (gset bytes) :=
  let own := list_to_set addrs ∪ (if decide (reachableAt ≠ []) then {[reachableAt ++ str "/p2p/" ++ pretty]} else ∅) in
  cleanLibp2pAddrs own pretty.

Definition lp_Start `{Secp256k1} `{!SigningPublic} `{Derivation} (s : peerStore) (ks : BadgerKeyStore) (addrs : list bytes) (reachableAt pretty : bytes) : outcome peerStore :=
  let! own := own_dial_addrs addrs reachableAt pretty in
  fold_outcome (λ s dialAddr,
      let! identities := Identities ks in
      fold_outcome (λ s i, match AddVerifiedCredentials keccak256 s (mkDialInfo libp2p_name dialAddr) (Identity_Address i)
                             (Some (FromECDSAPub (signing_public (sk_private (id_Signing i))))) (Some (ek_public (id_Encrypting i))) with
                           | Err _ => Ret s
                           | r => r
                           end) s identities)
    s (elements own).
End Network.

(** [ClosedStream] *)
Definition ClosedStream {T} `{BadgerTxn T} `{JsonCodec} `{ProtoCodec} `{MapOrder} `{Secp256k1} `{Configs T} (lp : libp2pTransport (T := T)) (peerID : bytes) (stream : nat) : libp2pTransport (T := T) :=
  match lp_writeSubsByPeerID lp !! peerID with
  | None => lp
  | Some writeSubs =>
      match writeSubs !! stream with
      | None => lp
      | Some sub =>
          mkLibp2p (HandleWritableSubscriptionClosed (lp_host lp) sub) (lp_refs lp) (<[peerID := delete stream writeSubs]> (lp_writeSubsByPeerID lp))
      end
  end.

(** ** What holds *)

(** An address is refused only if it is a relay's; one that is shorter than the name of the
    relay protocol ends the process. *)
Lemma clean_addr_cases addrStr pretty :
  cleanLibp2pAddr addrStr pretty =
    if decide (length addrStr < length circuit) then Panic else if has_prefix addrStr circuit then Ret [] else Ret (with_peer_id addrStr pretty).
Proof.
  unfold cleanLibp2pAddr. case_decide as Hl.
  - unfold slice. rewrite decide_False by lia. done.
  - rewrite <- (take_drop (length circuit) addrStr). assert (length (take (length circuit) addrStr) = length circuit) as Ht by (rewrite length_take; lia).
    set (t := take (length circuit) addrStr) in *. rewrite slice_head by (rewrite Ht; lia). cbn [obind]. destruct (has_prefix (t ++ _) circuit) eqn:Hp.
    + apply has_prefix_spec in Hp as (q & Hq). apply app_inj_1 in Hq as [-> _]; [|done]. by rewrite decide_True.
    + rewrite decide_False; [done|]. intros Heq. rewrite Heq in Hp. by rewrite has_prefix_app in Hp.
Qed.

(** The values of the protocols are whole addresses: an IPv4 address has dots, and so never
    sorts first. *)
Lemma ip4_never_first a : "."%byte ∈ ma_ip4 a → sorts_first a = false.
Proof.
  intros Hd. unfold sorts_first. destruct (decide (ma_ip4 a ≠ [])) as [_|Hn]; [|by destruct Hn; intros He; rewrite He in Hd; apply not_elem_of_nil in Hd].
  rewrite !bool_decide_eq_false_2; [done|..]; intros He; rewrite He in Hd; revert Hd; vm_decide.
Qed.

Section Searching.
Context (keccak256 : bytes → bytes) (arrange : gmap bytes multiaddr → list multiaddr).

Lemma disconnected_id s pinfo s' p : disconnected_peer keccak256 arrange s pinfo = Ret (s', Some p) → lpp_ID p = pi_ID pinfo.
Proof.
  unfold disconnected_peer. destruct (multiaddrsFromPeerInfo _ _) as [addrs| | |]; cbn [obind]; [|done..]. case_decide; [done|].
  destruct (makeDisconnectedPeer _ _ _) as [s1 [q|]]; [|done]. by intros [= _ <-].
Qed.

Lemma search_round_self selfret returns self found : ∀ s s' ps b,
  search_round keccak256 arrange selfret returns s self found = Ret (s', ps, b) → Forall (λ p, lpp_ID p ≠ self) ps.
Proof.
  induction found as [|[pinfo c] found IH]; intros s s' ps b; cbn [search_round]; [intros [= _ <- _]; constructor|].
  destruct (decide (pi_ID pinfo = self)) as [_|Hne].
  - destruct c; [apply IH|]. destruct selfret; [intros [= _ <- _]; constructor|apply IH].
  - destruct (disconnected_peer keccak256 arrange s pinfo) as [[s1 p]| | |] eqn:Hp; cbn [obind fst snd]; [|done..].
    destruct p as [p|]; cbn [mbind option_bind]; [|apply IH]. destruct (pd_at s1 (lpp_details p)) as [d|]; cbn; [|apply IH].
    case_decide; [apply IH|]. destruct c.
    + destruct (search_round _ _ _ _ _ _ found) as [[[s2 ps2] b2]| | |] eqn:Hr; cbn [obind]; [|done..]. intros [= _ <- _]. constructor; [|by eapply IH].
      by rewrite (disconnected_id _ _ _ _ Hp).
    + destruct returns; [intros [= _ <- _]; constructor|apply IH].
Qed.

(** a search for providers never hands out the node itself, whenever it is stopped. *)
Theorem search_skips_self selfret returns s self rounds s' ps :
  search keccak256 arrange selfret returns s self rounds = Ret (s', ps) → Forall (λ p, lpp_ID p ≠ self) ps.
Proof.
  revert s ps. induction rounds as [|[over found] rounds IH]; intros s ps; cbn [search]; [done|]. destruct over; [intros [= _ <-]; constructor|].
  destruct (search_round _ _ _ _ _ _ found) as [[[s1 ps1] b]| | |] eqn:Hr; cbn [obind fst snd]; [|done..]. apply search_round_self in Hr. destruct b; [by intros [= _ <-]|].
  destruct (search _ _ _ _ s1 self rounds) as [[s2 ps2]| | |] eqn:Hs; cbn [obind fst snd]; [|done..]. intros [= <- <-]. apply Forall_app. split; [done|]. by eapply IH.
Qed.
End Searching.

(** The announcing goroutine never ends, stopped or not. *)
Lemma announcing_never_ends fuel stopped turn i : (∀ i, ∃ l, turn i = Ret l) → periodicallyAnnounceContent fuel stopped turn i = Running.
Proof.
  intros Ht. revert i. induction fuel as [|fuel IH]; intros i; cbn; [done|]. destruct (stopped i); [apply IH|]. destruct (Ht i) as [l ->]. cbn. by rewrite IH.
Qed.

(** The key is read back as it was saved. *)
Lemma libp2p_key_restored {K} (marshal : K → outcome bytes) unmarshal generate k bs :
  marshal k = Ret bs → unmarshal bs = Ret k → ∃ text, lp_onSaveUser marshal k = Ret text ∧ lp_onLoadUser unmarshal generate (Some (inl text)) = Ret k.
Proof. intros Hm Hu. unfold lp_onSaveUser, lp_onLoadUser. rewrite Hm. cbn [obind]. eexists. split; [done|]. by rewrite decode_encode_hex. Qed.

(** when the stream of a subscription is closed, neither the transport's table nor the
    host's list has the subscription any more. *)
Theorem closed_stream_unsubscribes {T} `{BadgerTxn T} `{JsonCodec} `{ProtoCodec} `{MapOrder} `{Secp256k1} `{Configs T} `{Derivation} `{Hashes} `{TxJson} `{MsgJson} `{Box}
    {St} (copy : DBNode T → Keypath → outcome St) keccak256 open_db (lp lp' : libp2pTransport (T := T)) cn peer send uri msgs out :
  handle_msg copy keccak256 open_db lp cn peer send (PSubscribe uri) = Ret (lp', msgs, out) →
  (∃ w subs, lp_writeSubsByPeerID lp' !! cn_peerID cn = Some subs ∧ subs !! cn_stream cn = Some w ∧ ws_stateURI w = uri ∧ ws_id w = cn_stream cn) ∧
  let lp'' := ClosedStream lp' (cn_peerID cn) (cn_stream cn) in
  (∀ subs, lp_writeSubsByPeerID lp'' !! cn_peerID cn = Some subs → subs !! cn_stream cn = None) ∧
  ∀ subs w, ho_writable (lp_host lp'') !! uri = Some subs → w ∈ subs → ws_id w ≠ cn_stream cn.
Proof.
  cbn [handle_msg]. set (w := mkWsub (cn_stream cn) uri [] SubscriptionType_Txs (RemoteSub (cn_wire cn))).
  destruct (HandleWritableSubscriptionOpened _ _ _ _) as [[h1 o]| | |] eqn:Ho; cbn [obind fst snd]; [|done..]. intros [= <- _ _].
  cbn [with_host lp_writeSubsByPeerID lp_refs lp_host]. split.
  - exists w. eexists. split; [apply lookup_insert_eq|]. split; [apply lookup_insert_eq|done].
  - unfold ClosedStream, with_host. cbn [lp_writeSubsByPeerID lp_host lp_refs]. rewrite lookup_insert_eq. cbn beta iota. rewrite lookup_insert_eq. cbn beta iota. cbn [lp_writeSubsByPeerID lp_host]. split.
    + intros subs. rewrite lookup_insert_eq. intros [= <-]. apply lookup_delete_eq.
    + intros subs x. unfold HandleWritableSubscriptionClosed. cbn [ws_stateURI ws_id w]. destruct (ho_writable h1 !! uri) as [l|] eqn:Hl; [|by rewrite Hl].
      cbn [ho_writable with_writable]. rewrite lookup_insert_eq. intros [= <-] [Hx _]%list_elem_of_filter. exact Hx.
Qed.
