(* ===== verification/PeerPool.v ===== *)
(** * The peer pool ([peer-pool.go])

    A subscription takes its peers from a pool of at most [concurrentConns] connections.
    Three goroutines serve it: the searcher adds the peers that are found, the provider
    answers each request on [chNeedNewPeer] with an available peer, and a third one makes the
    first [concurrentConns] requests.

    The pool is a step relation on the channels, the semaphore and the table of peers; the
    steps are the sends and receives.  [usable] says which peers are ready and verified at
    the moment of a step, it may change between steps.  [pp_held] counts the acquired
    weight of the semaphore; a release of more than that panics.  The searcher's own short
    hold of the semaphore and the shutdown are left out. *)

From S2P Require Import Prelude Types PeerStore.

Inductive peerState := peerState_Unknown | peerState_Strike | peerState_InUse.
#[export] Instance peerState_eq_dec : EqDecision peerState.
Proof. solve_decision. Defined.

(** The provider: waiting for a request, looking for a peer, or sending one. *)
Inductive provider_phase := Waiting | Looking | Sending (peer : PeerDialInfo).

Record peerPool := mkPool {
  pp_concurrentConns : nat;
  pp_unfilled : nat;                             (* requests that the third goroutine has still to make *)
  pp_chNeedNewPeer : nat;
  pp_chPeerAvailable : nat;
  pp_chPeers : list PeerDialInfo;
  pp_phase : provider_phase;
  pp_peers : gmap PeerDialInfo peerState;
  pp_held : nat;
  pp_getting : nat;                              (* calls of [GetPeer] that hold the semaphore *)
  pp_handed : list PeerDialInfo;                 (* what [GetPeer] has returned so far *)
  pp_discarded : nat;                            (* peers that [GetPeer] gave back at once *)
  pp_strikes : nat
}.

Definition newPeerPool (concurrentConns : nat) : peerPool :=
  mkPool concurrentConns concurrentConns 0 0 [] Waiting ∅ 0 0 [] 0 0.

Definition setPeerState (p : peerPool) (peer : PeerDialInfo) (st : peerState) : peerPool :=
  mkPool (pp_concurrentConns p) (pp_unfilled p) (pp_chNeedNewPeer p) (pp_chPeerAvailable p) (pp_chPeers p) (pp_phase p)
    (<[peer := st]> (pp_peers p)) (pp_held p) (pp_getting p) (pp_handed p) (pp_discarded p) (pp_strikes p).
Definition with_need (p : peerPool) (unfilled need : nat) (ph : provider_phase) : peerPool :=
  mkPool (pp_concurrentConns p) unfilled need (pp_chPeerAvailable p) (pp_chPeers p) ph
    (pp_peers p) (pp_held p) (pp_getting p) (pp_handed p) (pp_discarded p) (pp_strikes p).
Definition with_available (p : peerPool) (n : nat) : peerPool :=
  mkPool (pp_concurrentConns p) (pp_unfilled p) (pp_chNeedNewPeer p) n (pp_chPeers p) (pp_phase p)
    (pp_peers p) (pp_held p) (pp_getting p) (pp_handed p) (pp_discarded p) (pp_strikes p).
Definition with_chan (p : peerPool) (l : list PeerDialInfo) (ph : provider_phase) : peerPool :=
  mkPool (pp_concurrentConns p) (pp_unfilled p) (pp_chNeedNewPeer p) (pp_chPeerAvailable p) l ph
    (pp_peers p) (pp_held p) (pp_getting p) (pp_handed p) (pp_discarded p) (pp_strikes p).
Definition with_sem (p : peerPool) (held getting : nat) : peerPool :=
  mkPool (pp_concurrentConns p) (pp_unfilled p) (pp_chNeedNewPeer p) (pp_chPeerAvailable p) (pp_chPeers p) (pp_phase p)
    (pp_peers p) held getting (pp_handed p) (pp_discarded p) (pp_strikes p).
Definition with_counts (p : peerPool) (handed : list PeerDialInfo) (discarded strikes : nat) : peerPool :=
  mkPool (pp_concurrentConns p) (pp_unfilled p) (pp_chNeedNewPeer p) (pp_chPeerAvailable p) (pp_chPeers p) (pp_phase p)
    (pp_peers p) (pp_held p) (pp_getting p) handed discarded strikes.

(** A send on a channel with [concurrentConns] places; [None] while it blocks. *)
Definition send_available (p : peerPool) : option peerPool :=
  if decide (pp_chPeerAvailable p < pp_concurrentConns p) then Some (with_available p (S (pp_chPeerAvailable p))) else None.
Definition send_need (p : peerPool) : option peerPool :=
  if decide (pp_chNeedNewPeer p < pp_concurrentConns p)
  then Some (with_need p (pp_unfilled p) (S (pp_chNeedNewPeer p)) (pp_phase p)) else None.

Definition addPeerToPool (p : peerPool) (peer : PeerDialInfo) : option peerPool :=
  match pp_peers p !! peer with
  | Some _ => Some p
  | None => send_available (setPeerState p peer peerState_Unknown)
  end.

(** A map is ranged over in any order: the peers that can be returned. *)
Definition available_peers (p : peerPool) (usable : PeerDialInfo → bool) : list PeerDialInfo :=
  fst <$> filter (λ kv, kv.2 = peerState_Unknown ∧ usable kv.1 = true) (map_to_list (pp_peers p)).

(** [ReturnPeer]: [None] when the semaphore panics or the channel blocks. *)
Definition ReturnPeer (p : peerPool) (peer : PeerDialInfo) (strike : bool) : option peerPool :=
  match pp_held p with
  | O => None
  | S held =>
      let p := with_sem p held (pp_getting p) in
      if strike then send_need (with_counts (setPeerState p peer peerState_Strike) (pp_handed p) (pp_discarded p) (S (pp_strikes p)))
      else send_available (setPeerState p peer peerState_Unknown)
  end.

Inductive pool_step : peerPool → peerPool → Prop :=
  | step_fill p p' n : pp_unfilled p = S n → send_need p = Some p' → pool_step p (with_need p' n (pp_chNeedNewPeer p') (pp_phase p'))
  | step_found p peer p' : addPeerToPool p peer = Some p' → pool_step p p'
  | step_request p n : pp_phase p = Waiting → pp_chNeedNewPeer p = S n → pool_step p (with_need p (pp_unfilled p) n Looking)
  | step_wake p n : pp_phase p = Looking → pp_chPeerAvailable p = S n → pool_step p (with_available p n)
  | step_next p usable peer : pp_phase p = Looking → peer ∈ available_peers p usable → pool_step p (with_chan p (pp_chPeers p) (Sending peer))
  | step_send p peer : pp_phase p = Sending peer → length (pp_chPeers p) < pp_concurrentConns p →
      pool_step p (with_chan p (pp_chPeers p ++ [peer]) Waiting)
  | step_acquire p : pp_held p < pp_concurrentConns p → pool_step p (with_sem p (S (pp_held p)) (S (pp_getting p)))
  | step_get p n peer rest : pp_getting p = S n → pp_chPeers p = peer :: rest →
      pool_step p (with_counts (with_sem (with_chan (setPeerState p peer peerState_InUse) rest (pp_phase p)) (pp_held p) n)
                     (pp_handed p ++ [peer]) (pp_discarded p) (pp_strikes p))
  | step_not_ready p n peer rest p' : pp_getting p = S n → pp_chPeers p = peer :: rest →
      ReturnPeer (with_chan p rest (pp_phase p)) peer false = Some p' →
      pool_step p (with_counts p' (pp_handed p') (S (pp_discarded p')) (pp_strikes p'))
  | step_return p peer strike p' : peer ∈ pp_handed p → ReturnPeer p peer strike = Some p' → pool_step p p'.

(** ** Requests are conserved *)

Definition phase_count (ph : provider_phase) : nat := match ph with Waiting => 0 | _ => 1 end.

(** Every request is waiting to be made, in the channel, with the provider, answered in the
    channel of peers, or was answered by a peer. *)
Definition requests (p : peerPool) : nat :=
  pp_unfilled p + pp_chNeedNewPeer p + phase_count (pp_phase p) + length (pp_chPeers p) + length (pp_handed p) + pp_discarded p.

Lemma send_available_requests p p' :
  send_available p = Some p' → requests p' = requests p ∧ pp_strikes p' = pp_strikes p ∧ pp_concurrentConns p' = pp_concurrentConns p ∧
    pp_handed p' = pp_handed p ∧ pp_discarded p' = pp_discarded p.
Proof. unfold send_available. case_decide; [|done]. by intros [= <-]. Qed.

Lemma send_need_requests p p' :
  send_need p = Some p' → requests p' = S (requests p) ∧ pp_strikes p' = pp_strikes p ∧ pp_concurrentConns p' = pp_concurrentConns p ∧
    pp_unfilled p' = pp_unfilled p.
Proof. unfold send_need. case_decide; [|done]. intros [= <-]. split_and!; [|done..]. unfold requests. simpl. lia. Qed.

Lemma ReturnPeer_requests p peer strike p' :
  ReturnPeer p peer strike = Some p' →
  requests p' + pp_strikes p = requests p + pp_strikes p' ∧ pp_concurrentConns p' = pp_concurrentConns p.
Proof.
  unfold ReturnPeer. destruct (pp_held p) as [|held]; [done|]. destruct strike.
  - intros (Hr & Hs & Hc & _)%send_need_requests. rewrite Hr, Hs, Hc. unfold requests. simpl. split; [lia|done].
  - intros (Hr & Hs & Hc & _)%send_available_requests. rewrite Hr, Hs, Hc. unfold requests. simpl. split; [lia|done].
Qed.

Lemma requests_step p p' :
  pool_step p p' → requests p' + pp_strikes p = requests p + pp_strikes p' ∧ pp_concurrentConns p' = pp_concurrentConns p.
Proof.
  destruct 1 as [p p' n Hu Hs|p peer p' Ha|p n Hp Hn|p n Hp Hn|p usable peer Hp Hin|p peer Hp Hl|p Hh|p n peer rest Hg Hc|p n peer rest p' Hg Hc Hr|p peer strike p' Hin Hr].
  - destruct (send_need_requests _ _ Hs) as (Hr & Hst & Hc & Hun). unfold requests in *. simpl. rewrite Hun, Hu in Hr. split; [lia|exact Hc].
  - unfold addPeerToPool in Ha. destruct (pp_peers p !! peer); [by simplify_eq|].
    apply send_available_requests in Ha as (Hr & Hs & Hc & _). rewrite Hr, Hs, Hc. done.
  - unfold requests. simpl. rewrite Hp, Hn. simpl. split; [lia|done].
  - done.
  - unfold requests. simpl. rewrite Hp. done.
  - unfold requests. simpl. rewrite Hp, length_app. simpl. split; [lia|done].
  - done.
  - unfold requests. simpl. rewrite Hc, length_app. simpl. split; [lia|done].
  - apply ReturnPeer_requests in Hr as [Hr Hcc]. unfold requests in *. simpl in *. rewrite Hc. simpl. split; [lia|done].
  - by eapply ReturnPeer_requests.
Qed.

Lemma requests_reachable n p : rtc pool_step (newPeerPool n) p → requests p = n + pp_strikes p.
Proof.
  intros Hr. assert (requests (newPeerPool n) = n + pp_strikes (newPeerPool n)) as H0 by (unfold requests; simpl; lia).
  revert H0. induction Hr as [|x y z Hs _ IH]; [done|]. intros H0. apply IH. destruct (requests_step _ _ Hs). lia.
Qed.

(** The pool hands out a bounded number of peers: over its whole life, [GetPeer] returns at
    most [concurrentConns] peers and one more per strike, because only the start and a strike
    make requests.  A peer that is returned without a strike, as subscriptions return theirs,
    makes room that is never used: once [concurrentConns] peers have been handed out without
    a strike, no step hands out another. *)
Theorem pool_supply_bounded n p :
  rtc pool_step (newPeerPool n) p →
  length (pp_handed p) ≤ n + pp_strikes p ∧
  (length (pp_handed p) = n + pp_strikes p → pp_chPeers p = [] ∧ pp_phase p = Waiting ∧ pp_chNeedNewPeer p = 0 ∧ pp_unfilled p = 0 ∧
     ∀ p', pool_step p p' → pp_strikes p' = pp_strikes p → pp_handed p' = pp_handed p).
Proof.
  intros Hr. pose proof (requests_reachable n p Hr) as Hreq. split; [unfold requests in Hreq; lia|]. intros Hfull.
  assert (pp_unfilled p = 0 ∧ pp_chNeedNewPeer p = 0 ∧ phase_count (pp_phase p) = 0 ∧ length (pp_chPeers p) = 0) as (H1 & H2 & H3 & H4)
    by (unfold requests in Hreq; lia).
  assert (pp_chPeers p = []) as Hnil by (by apply length_zero_iff_nil).
  split_and!; [done|by destruct (pp_phase p)|done..|].
  intros p' Hs Hst. destruct (requests_step _ _ Hs) as [Hq _]. rewrite Hst in Hq.
  destruct Hs as [p p' m Hu Hs|p peer p' Ha|p m Hp Hn|p m Hp Hn|p usable peer Hp Hin|p peer Hp Hl|p Hh|p m peer rest Hg Hc|p m peer rest p' Hg Hc Hr'|p peer strike p' Hin Hr'];
    try done; try congruence.
  - unfold addPeerToPool, send_available in Ha. repeat (case_match || case_decide); by simplify_eq.
  - unfold ReturnPeer, send_need, send_available in Hr'. repeat (case_match || case_decide); by simplify_eq.
Qed.

(** ** Examples *)

Definition di_one : PeerDialInfo := mkDialInfo (str "http") (str "one").
Definition di_two : PeerDialInfo := mkDialInfo (str "http") (str "two").

(** A pool for one connection, its peer found, asked for and handed out. *)
Definition pool_1 : peerPool := with_need (with_need (newPeerPool 1) 1 1 Waiting) 0 1 Waiting.
Definition pool_2 : peerPool := with_available (setPeerState pool_1 di_one peerState_Unknown) 1.
Definition pool_3 : peerPool := with_need pool_2 0 0 Looking.
Definition pool_4 : peerPool := with_chan pool_3 [] (Sending di_one).
Definition pool_5 : peerPool := with_chan pool_4 [di_one] Waiting.
Definition pool_6 : peerPool := with_sem pool_5 1 1.
Definition pool_7 : peerPool :=
  with_counts (with_sem (with_chan (setPeerState pool_6 di_one peerState_InUse) [] Waiting) 1 0) [di_one] 0 0.

Lemma pool_7_reachable : rtc pool_step (newPeerPool 1) pool_7.
Proof.
  apply (rtc_l _ _ pool_1); [by apply (step_fill (newPeerPool 1) (with_need (newPeerPool 1) 1 1 Waiting) 0)|].
  apply (rtc_l _ _ pool_2); [by apply (step_found pool_1 di_one)|].
  apply (rtc_l _ _ pool_3); [by apply (step_request pool_2 0)|].
  assert (available_peers pool_3 (λ _, true) = [di_one]) as Ha by (vm_compute; reflexivity).
  apply (rtc_l _ _ pool_4); [apply (step_next pool_3 (λ _, true) di_one); [done|rewrite Ha; by apply list_elem_of_singleton]|].
  apply (rtc_l _ _ pool_5); [apply (step_send pool_4 di_one); [done|simpl; lia]|].
  apply (rtc_l _ _ pool_6); [apply (step_acquire pool_5); simpl; lia|].
  apply rtc_once. by apply (step_get pool_6 0 di_one []).
Qed.

Lemma pool_supply_bounded_witness : length (pp_handed pool_7) ≤ 1 ∧ ∀ p', pool_step pool_7 p' → pp_strikes p' = 0 → pp_handed p' = [di_one].
Proof.
  destruct (pool_supply_bounded 1 pool_7 pool_7_reachable) as [Hle Hfull]. split; [exact Hle|].
  apply Hfull. reflexivity.
Defined.

(** The provider does not mark the peer it has chosen: the same peer can wait twice in the
    channel, and be handed out twice. *)
Example same_peer_twice : ∃ p, rtc pool_step (newPeerPool 2) p ∧ pp_chPeers p = [di_one; di_one].
Proof.
  set (p0 := with_available (setPeerState (with_need (newPeerPool 2) 0 2 Waiting) di_one peerState_Unknown) 1).
  assert (rtc pool_step (newPeerPool 2) p0) as H0.
  { apply (rtc_l _ _ (with_need (newPeerPool 2) 1 1 Waiting)); [by apply (step_fill (newPeerPool 2) (with_need (newPeerPool 2) 2 1 Waiting) 1)|].
    apply (rtc_l _ _ (with_need (newPeerPool 2) 0 2 Waiting)).
    - by apply (step_fill (with_need (newPeerPool 2) 1 1 Waiting) (with_need (newPeerPool 2) 1 2 Waiting) 0).
    - apply rtc_once. by apply (step_found (with_need (newPeerPool 2) 0 2 Waiting) di_one). }
  assert (∀ p, pp_phase p = Looking → pp_peers p = {[di_one := peerState_Unknown]} → pool_step p (with_chan p (pp_chPeers p) (Sending di_one))) as Hnext.
  { intros p Hp Hpeers. apply (step_next p (λ _, true)); [done|]. unfold available_peers. rewrite Hpeers.
    assert (fst <$> filter (λ kv, kv.2 = peerState_Unknown ∧ true = true) (map_to_list ({[di_one := peerState_Unknown]} : gmap PeerDialInfo peerState)) = [di_one])
      as -> by (vm_compute; reflexivity). by apply list_elem_of_singleton. }
  set (p1 := with_need p0 0 1 Looking). set (p2 := with_chan p1 [] (Sending di_one)). set (p3 := with_chan p2 [di_one] Waiting).
  set (p4 := with_need p3 0 0 Looking). set (p5 := with_chan p4 [di_one] (Sending di_one)).
  exists (with_chan p5 [di_one; di_one] Waiting). split; [|done].
  etrans; [exact H0|]. apply (rtc_l _ _ p1); [by apply (step_request p0 1)|]. apply (rtc_l _ _ p2); [by apply (Hnext p1)|].
  apply (rtc_l _ _ p3); [apply (step_send p2 di_one); [done|simpl; lia]|]. apply (rtc_l _ _ p4); [by apply (step_request p3 0)|].
  apply (rtc_l _ _ p5); [by apply (Hnext p4)|]. apply rtc_once. apply (step_send p5 di_one); [done|simpl; lia].
Qed.
