(* ===== verification/Subscriptions.v ===== *)
(** * Subscriptions ([host.subscriptions.go])

    A subscription has a mailbox and a goroutine.  The goroutine of a [writableSubscription]
    hands the messages to the transport ([Put]), the one of an [inProcessSubscription] offers
    them to a reader in the same process.  Both are step relations: the steps of the goroutine
    interleave with the calls of [EnqueueWrite], [Read] and [Close].

    A [multiReaderSubscription] keeps up to [maxConns] connections: it takes peers from the
    peer pool (file PeerPool) and starts a goroutine for each, which passes the transactions
    it reads to the host (file Host). *)

From S2P Require Import Prelude Types Keypath TreeTypes GoValue BadgerTxn DBNode Tx TxStore Mempool Permissions Controller.
From S2P Require Import Hub PeerStore KeyStore HttpTx Host PeerPool Channels.

(** ** Mailboxes with a log *)

Lemma mb_pending_deliver {X} (m : Mailbox X) x :
  length (mb_queue m) < mb_capacity m → mb_pending (Deliver m x) = mb_pending m ++ [x].
Proof. intros Hl. unfold mb_pending, Deliver. cbn [length mb_queue]. rewrite decide_False by lia. by rewrite reverse_cons. Qed.

Lemma mb_pending_deliver_sub {X} (m : Mailbox X) x : mb_pending (Deliver m x) `sublist_of` mb_pending m ++ [x].
Proof.
  unfold mb_pending, Deliver. cbn [mb_queue]. rewrite <- reverse_cons. case_decide; [|done]. rewrite reverse_take_pred.
  destruct (reverse (x :: mb_queue m)); [done|]. by apply sublist_cons.
Qed.

Lemma mb_retrieve_pending {X} (m m' : Mailbox X) x :
  Retrieve m = (Some x, m') → mb_pending m = x :: mb_pending m' ∧ mb_capacity m' = mb_capacity m ∧ mb_notify m' = mb_notify m ∧ length (mb_queue m') ≤ length (mb_queue m).
Proof.
  unfold Retrieve, mb_pending. destruct (last (mb_queue m)) as [y|] eqn:Hl; [|done]. intros [= -> <-]. cbn [mb_queue mb_capacity mb_notify].
  rewrite reverse_take_pred. rewrite <- head_reverse in Hl. rewrite length_take. split_and!; [|done|done|lia].
  destruct (reverse (mb_queue m)); by simplify_eq/=.
Qed.

Lemma mb_retrieve_none {X} (m m' : Mailbox X) : Retrieve m = (None, m') → m' = m ∧ mb_queue m = [].
Proof. unfold Retrieve. destruct (last (mb_queue m)) eqn:Hl; [done|]. intros [= <-]. split; [done|]. by apply last_None. Qed.

Section Subscriptions.
Context {St : Type}.
Abbreviation Msg := (SubscriptionMsg St).

(** The capacity of both mailboxes. *)
Definition sub_capacity : nat := Z.to_nat 10000.
#[global] Arguments sub_capacity : simpl never.

(** ** [writableSubscription] *)

(** Before the [select]; in it, with or without the notification channel ([Close] sets the
    field to nil); in [writeMessages]; in [destroy]; gone. *)
Inductive ws_pc := WsTop | WsSelect (notif : bool) | WsWrite | WsDestroy | WsGone.

(** [w_puts]: what was handed to [Put]; [w_stats]: the calls of [UpdateConnStats]; [w_told]
    and [w_closed] count the calls of [HandleWritableSubscriptionClosed] and of the
    implementation's [Close]; [w_log]: what was enqueued. *)
Record writableSubscription := mkWs {
  w_type : SubscriptionType;
  w_messages : Mailbox Msg;
  w_chMsgNotif : bool;
  w_chErrored : bool;
  w_chStop : bool;
  w_chDone : bool;
  w_pc : ws_pc;
  w_puts : list Msg;
  w_stats : list bool;
  w_told : nat;
  w_closed : nat;
  w_log : list Msg
}.

Definition newWritableSubscription (t : SubscriptionType) : writableSubscription :=
  mkWs t (NewMailbox sub_capacity) true false false false WsTop [] [] 0 0 [].

Definition ws_goto (w : writableSubscription) (pc : ws_pc) : writableSubscription :=
  mkWs (w_type w) (w_messages w) (w_chMsgNotif w) (w_chErrored w) (w_chStop w) (w_chDone w) pc (w_puts w) (w_stats w) (w_told w) (w_closed w) (w_log w).

Definition EnqueueWrite (w : writableSubscription) (m : Msg) : writableSubscription :=
  mkWs (w_type w) (Deliver (w_messages w) m) (w_chMsgNotif w) (w_chErrored w) (w_chStop w) (w_chDone w) (w_pc w) (w_puts w) (w_stats w)
    (w_told w) (w_closed w) (w_log w ++ [m]).

(** The first half of [Close], which then waits for [chDone]. *)
Definition ws_Close (w : writableSubscription) : outcome writableSubscription :=
  let! c := close_chan (w_chStop w) in
  Ret (mkWs (w_type w) (w_messages w) false (w_chErrored w) c (w_chDone w) (w_pc w) (w_puts w) (w_stats w) (w_told w) (w_closed w) (w_log w)).

(** One round of the loop in [writeMessages]; [failed] is the result of [Put].  The deferred
    function updates the statistics and closes [chErrored]; when that is closed already it
    panics, the panic is caught, and the subscription is destroyed. *)
Definition write_message (w : writableSubscription) (failed : bool) : writableSubscription :=
  match Retrieve (w_messages w) with
  | (None, mb) =>
      mkWs (w_type w) mb (w_chMsgNotif w) (w_chErrored w) (w_chStop w) (w_chDone w) WsTop (w_puts w) (w_stats w ++ [true]) (w_told w) (w_closed w) (w_log w)
  | (Some m, mb) =>
      let puts := w_puts w ++ [masked (w_type w) m] in
      if failed then
        match close_chan (w_chErrored w) with
        | Ret c => mkWs (w_type w) mb (w_chMsgNotif w) c (w_chStop w) (w_chDone w) WsTop puts (w_stats w ++ [false]) (w_told w) (w_closed w) (w_log w)
        | _ => mkWs (w_type w) mb (w_chMsgNotif w) (w_chErrored w) (w_chStop w) (w_chDone w) WsDestroy puts (w_stats w ++ [false]) (w_told w) (w_closed w) (w_log w)
        end
      else mkWs (w_type w) mb (w_chMsgNotif w) (w_chErrored w) (w_chStop w) (w_chDone w) WsWrite puts (w_stats w) (w_told w) (w_closed w) (w_log w)
  end.

Definition destroy (w : writableSubscription) : outcome writableSubscription :=
  let! d := close_chan (w_chDone w) in
  Ret (mkWs (w_type w) (Clear (w_messages w)) (w_chMsgNotif w) (w_chErrored w) (w_chStop w) d WsGone (w_puts w) (w_stats w) (S (w_told w)) (S (w_closed w)) (w_log w)).

Inductive ws_step : writableSubscription → writableSubscription → Prop :=
  | wss_enter w : w_pc w = WsTop → ws_step w (ws_goto w (WsSelect (w_chMsgNotif w)))
  | wss_notif w : w_pc w = WsSelect true → mb_notify (w_messages w) = true →
      ws_step w (mkWs (w_type w) (take_token (w_messages w)) (w_chMsgNotif w) (w_chErrored w) (w_chStop w) (w_chDone w) WsWrite
                   (w_puts w) (w_stats w) (w_told w) (w_closed w) (w_log w))
  | wss_stop w b : w_pc w = WsSelect b → w_chStop w = true → ws_step w (ws_goto w WsDestroy)
  | wss_errored w b : w_pc w = WsSelect b → w_chErrored w = true → ws_step w (ws_goto w WsDestroy)
  | wss_write w failed : w_pc w = WsWrite → ws_step w (write_message w failed)
  | wss_destroy w w' : w_pc w = WsDestroy → destroy w = Ret w' → ws_step w w'
  | wss_enqueue w m : ws_step w (EnqueueWrite w m)
  | wss_close w w' : ws_Close w = Ret w' → ws_step w w'.

(** The messages that were enqueued, as they are put. *)
Definition expected (w : writableSubscription) : list Msg := masked (w_type w) <$> w_log w.
Definition to_put (w : writableSubscription) : list Msg := w_puts w ++ (masked (w_type w) <$> mb_pending (w_messages w)).

Record ws_ok (w : writableSubscription) : Prop := {
  wso_cap : mb_capacity (w_messages w) = sub_capacity;
  wso_order : to_put w `sublist_of` expected w;
  wso_all : length (w_log w) ≤ sub_capacity → w_pc w ≠ WsGone → to_put w = expected w;
  wso_queue : length (mb_queue (w_messages w)) ≤ length (w_log w);
  wso_wake : w_chErrored w = false → (w_pc w = WsTop ∨ ∃ b, w_pc w = WsSelect b) → mb_queue (w_messages w) ≠ [] → mb_notify (w_messages w) = true;
  wso_done : match w_pc w with
             | WsGone => w_chDone w = true ∧ w_told w = 1 ∧ w_closed w = 1
             | _ => w_chDone w = false ∧ w_told w = 0 ∧ w_closed w = 0
             end
}.

Lemma newWritableSubscription_ok t : ws_ok (newWritableSubscription t).
Proof. split; cbn; try done. Qed.

Lemma EnqueueWrite_ok w m : ws_ok w → ws_ok (EnqueueWrite w m).
Proof.
  intros [Hc Ho Ha Hq Hw Hd].
  assert (expected (EnqueueWrite w m) = expected w ++ [masked (w_type w) m]) as He by (unfold expected; cbn; by rewrite fmap_app).
  split.
  - done.
  - rewrite He. unfold to_put. cbn [EnqueueWrite w_puts w_type w_messages].
    etrans; [|by apply sublist_app]. unfold to_put. rewrite <- (assoc_L (++)). apply sublist_app; [done|].
    change [masked (w_type w) m] with (masked (w_type w) <$> [m]). rewrite <- fmap_app. apply fmap_sublist, mb_pending_deliver_sub.
  - cbn [EnqueueWrite w_log w_pc]. rewrite length_app. cbn [length]. intros Hl Hpc. rewrite He.
    rewrite <- Ha by (done || lia). unfold to_put. cbn [EnqueueWrite w_puts w_type w_messages].
    rewrite mb_pending_deliver by lia. rewrite fmap_app. by rewrite (assoc_L (++)).
  - cbn. rewrite length_app. case_decide; cbn; rewrite ?length_take; cbn; lia.
  - done.
  - done.
Qed.

Lemma write_message_ok w failed : ws_ok w → w_pc w = WsWrite → ws_ok (write_message w failed).
Proof.
  intros [Hc Ho Ha Hq Hw Hd] Hpc. rewrite Hpc in *. unfold write_message. destruct (Retrieve (w_messages w)) as [[m|] mb] eqn:Hr.
  - destruct (mb_retrieve_pending _ _ _ Hr) as (Hp & Hc' & Hn & Hl).
    assert (∀ puts, puts = w_puts w ++ [masked (w_type w) m] → puts ++ (masked (w_type w) <$> mb_pending mb) = to_put w) as He.
    { intros ? ->. unfold to_put. rewrite Hp. by rewrite <- (assoc_L (++)). }
    assert (w_pc w ≠ WsGone) as Hng by congruence.
    destruct failed; [destruct (w_chErrored w)|]; cbn [close_chan];
      (split; [exact (eq_trans Hc' Hc)| | |cbn; lia| |cbn; done]);
      unfold to_put, expected; cbn [w_puts w_type w_messages w_log w_pc];
      try (by rewrite (He _ eq_refl)); try (intros ? _; rewrite (He _ eq_refl); by apply Ha); cbn; [done..|].
    by intros _ [|[]].
  - apply mb_retrieve_none in Hr as [-> Hempty]. split; cbn; try done.
    + intros Hl _. by apply Ha.
Qed.

Lemma ws_goto_ok w pc : ws_ok w → w_pc w ≠ WsGone → pc ≠ WsGone →
  ((pc = WsTop ∨ ∃ b, pc = WsSelect b) → w_pc w = WsTop ∨ ∃ b, w_pc w = WsSelect b) → ws_ok (ws_goto w pc).
Proof.
  intros [Hc Ho Ha Hq Hw Hd] Hn Hn' Hp. split; cbn; auto.
  destruct pc; try done; by destruct (w_pc w).
Qed.

Lemma ws_step_ok w w' : ws_ok w → ws_step w w' → ws_ok w'.
Proof.
  intros Hok Hs. destruct Hs as [w Hpc|w Hpc Hn|w b Hpc Hst|w b Hpc He|w failed Hpc|w w' Hpc Hde|w m|w w' Hcl].
  - apply ws_goto_ok; try done; [congruence|]. by left.
  - destruct Hok as [Hc Ho Ha Hq Hw Hd]. rewrite Hpc in *. split; cbn; try done; [intros Hl _; by apply Ha|by intros _ [|[]]].
  - apply ws_goto_ok; try done; [congruence|]. by intros [|[]].
  - apply ws_goto_ok; try done; [congruence|]. by intros [|[]].
  - by apply write_message_ok.
  - destruct Hok as [Hc Ho Ha Hq Hw Hd]. rewrite Hpc in *. destruct Hd as (Hdn & Ht & Hcl).
    unfold destroy in Hde. rewrite Hdn in Hde. injection Hde as <-.
    split; cbn; try done; try lia.
    unfold to_put in *. cbn. rewrite app_nil_r. etrans; [|exact Ho]. by apply sublist_inserts_r.
  - by apply EnqueueWrite_ok.
  - unfold ws_Close in Hcl. destruct (w_chStop w); cbn in Hcl; [done|]. injection Hcl as <-. by destruct Hok.
Qed.

Lemma ws_reachable_ok t w : rtc ws_step (newWritableSubscription t) w → ws_ok w.
Proof.
  intros Hr. enough (∀ s s', rtc ws_step s s' → ws_ok s → ws_ok s') as H by exact (H _ _ Hr (newWritableSubscription_ok t)).
  clear. induction 1 as [|s1 s2 s3 Hs _ IH]; [done|]. intros H1. by apply IH, (ws_step_ok s1).
Qed.

(** C26: In every interleaving of [EnqueueWrite] and [Close] with the goroutine: the messages are
    put in the order in which they were enqueued, each at most once and reduced to the parts
    that were subscribed to; up to the capacity of the mailbox none is lost while the
    subscription lives; a message that is enqueued wakes the goroutine; one that is closed, or
    had a failed [Put], is destroyed; and it is destroyed once: the host is told once, and
    the connection closed once, whatever fails. *)
Theorem writable_subscription t w :
  rtc ws_step (newWritableSubscription t) w →
  to_put w `sublist_of` expected w ∧
  (length (w_log w) ≤ sub_capacity → w_pc w ≠ WsGone → to_put w = expected w) ∧
  (w_chErrored w = false → w_pc w = WsSelect true → mb_pending (w_messages w) ≠ [] → ∃ w', ws_step w w' ∧ w_pc w' = WsWrite) ∧
  (∀ b, w_pc w = WsSelect b → w_chStop w = true ∨ w_chErrored w = true → ∃ w', ws_step w w' ∧ w_pc w' = WsDestroy) ∧
  (w_pc w = WsDestroy → ∃ w', ws_step w w' ∧ w_pc w' = WsGone) ∧
  w_told w = (if w_chDone w then 1 else 0) ∧ w_closed w = (if w_chDone w then 1 else 0).
Proof.
  intros Hr. pose proof (ws_reachable_ok t w Hr) as [Hc Ho Ha Hq Hw Hd]. split_and!.
  - done.
  - auto.
  - intros He Hpc Hp. eexists. split; [apply wss_notif; [done|]|done]. apply Hw; [done|by right; eexists|].
    intros Hq'. apply Hp. unfold mb_pending. by rewrite Hq'.
  - intros b Hpc [Hs|Hs]; eexists; (split; [|]); [by eapply wss_stop|done|by eapply wss_errored|done].
  - intros Hpc. rewrite Hpc in Hd. destruct Hd as (Hdn & _). eexists. split; [apply wss_destroy; [done|]|]; [unfold destroy; rewrite Hdn; done|done].
  - destruct (w_pc w), Hd as (-> & -> & _); done.
  - destruct (w_pc w), Hd as (-> & _ & ->); done.
Qed.

(** ** [inProcessSubscription] *)

(** In the [select]; in the loop over the mailbox; offering a message; gone. *)
Inductive ip_pc := IpSelect | IpDrain | IpOffer (m : Msg) | IpGone.

(** [i_told] counts the calls of [HandleWritableSubscriptionClosed], [i_read] lists what the
    reader got, [i_log] what was enqueued. *)
Record inProcessSubscription := mkIp {
  i_messages : Mailbox Msg;
  i_chStop : bool;
  i_chDone : bool;
  i_pc : ip_pc;
  i_told : nat;
  i_read : list Msg;
  i_log : list Msg
}.

Definition newInProcessSubscription : inProcessSubscription := mkIp (NewMailbox sub_capacity) false false IpSelect 0 [] [].

Definition ip_goto (i : inProcessSubscription) (mb : Mailbox Msg) (pc : ip_pc) : inProcessSubscription :=
  mkIp mb (i_chStop i) (i_chDone i) pc (i_told i) (i_read i) (i_log i).
Definition ip_return (i : inProcessSubscription) : inProcessSubscription :=
  mkIp (i_messages i) (i_chStop i) true IpGone (i_told i) (i_read i) (i_log i).

Definition ip_EnqueueWrite (i : inProcessSubscription) (m : Msg) : inProcessSubscription :=
  mkIp (Deliver (i_messages i) m) (i_chStop i) (i_chDone i) (i_pc i) (i_told i) (i_read i) (i_log i ++ [m]).

(** [Read] meets the goroutine that offers a message; it returns an error when the
    subscription is closed; otherwise it waits. *)
Definition ip_Read (i : inProcessSubscription) : option (inProcessSubscription * Msg) :=
  match i_pc i with
  | IpOffer m => Some (mkIp (i_messages i) (i_chStop i) (i_chDone i) IpDrain (i_told i) (i_read i ++ [m]) (i_log i), m)
  | _ => None
  end.

(** [Close] up to the wait for [chDone]. *)
Definition ip_Close (i : inProcessSubscription) : outcome inProcessSubscription :=
  let! c := close_chan (i_chStop i) in
  Ret (mkIp (Clear (i_messages i)) c (i_chDone i) (i_pc i) (S (i_told i)) (i_read i) (i_log i)).

Inductive ip_step : inProcessSubscription → inProcessSubscription → Prop :=
  | ips_stop i : i_pc i = IpSelect → i_chStop i = true → ip_step i (ip_return i)
  | ips_notif i : i_pc i = IpSelect → mb_notify (i_messages i) = true → ip_step i (ip_goto i (take_token (i_messages i)) IpDrain)
  | ips_retrieve i m mb : i_pc i = IpDrain → Retrieve (i_messages i) = (Some m, mb) → ip_step i (ip_goto i mb (IpOffer m))
  | ips_empty i mb : i_pc i = IpDrain → Retrieve (i_messages i) = (None, mb) → ip_step i (ip_goto i mb IpSelect)
  | ips_drop i m : i_pc i = IpOffer m → i_chStop i = true → ip_step i (ip_return i)
  | ips_read i i' m : ip_Read i = Some (i', m) → ip_step i i'
  | ips_enqueue i m : ip_step i (ip_EnqueueWrite i m)
  | ips_close i i' : ip_Close i = Ret i' → ip_step i i'.

Definition offered (i : inProcessSubscription) : list Msg := match i_pc i with IpOffer m => [m] | _ => [] end.
Definition to_read (i : inProcessSubscription) : list Msg := i_read i ++ offered i ++ mb_pending (i_messages i).

Record ip_ok (i : inProcessSubscription) : Prop := {
  ipo_cap : mb_capacity (i_messages i) = sub_capacity;
  ipo_order : to_read i `sublist_of` i_log i;
  ipo_all : length (i_log i) ≤ sub_capacity → i_chStop i = false → to_read i = i_log i;
  ipo_queue : length (mb_queue (i_messages i)) ≤ length (i_log i);
  ipo_wake : i_pc i = IpSelect → mb_queue (i_messages i) ≠ [] → mb_notify (i_messages i) = true;
  ipo_gone : i_pc i = IpGone ↔ i_chDone i = true;
  ipo_stop : i_chDone i = true → i_chStop i = true;
  ipo_told : i_told i = if i_chStop i then 1 else 0
}.

Lemma ip_EnqueueWrite_ok i m : ip_ok i → ip_ok (ip_EnqueueWrite i m).
Proof.
  intros [Hc Ho Ha Hq Hw Hg Hs Ht].
  split; try done.
  - unfold to_read. cbn [ip_EnqueueWrite i_read i_messages i_log]. change (offered (ip_EnqueueWrite i m)) with (offered i).
    etrans; [|by apply sublist_app]. unfold to_read. rewrite <- !(assoc_L (++)). do 2 (apply sublist_app; [done|]). apply mb_pending_deliver_sub.
  - cbn [ip_EnqueueWrite i_log i_chStop]. rewrite length_app. cbn [length]. intros Hl Hst.
    rewrite <- Ha by (done || lia). unfold to_read. cbn [ip_EnqueueWrite i_read i_messages]. change (offered (ip_EnqueueWrite i m)) with (offered i).
    rewrite mb_pending_deliver by lia. by rewrite !(assoc_L (++)).
  - cbn. rewrite length_app. case_decide; cbn; rewrite ?length_take; cbn; lia.
Qed.

Lemma ip_return_ok i : ip_ok i → i_chStop i = true → ip_ok (ip_return i).
Proof.
  intros [Hc Ho Ha Hq Hw Hg Hs Ht] Hst. split; cbn; try done.
  - etrans; [|exact Ho]. unfold to_read, offered. cbn. apply sublist_app; [done|]. by apply sublist_inserts_l.
  - by rewrite Hst.
Qed.

Lemma ip_step_ok i i' : ip_ok i → ip_step i i' → ip_ok i'.
Proof.
  intros Hok Hs. pose proof Hok as [Hc Ho Ha Hq Hw Hg Hst Ht].
  destruct Hs as [i Hpc Hs|i Hpc Hn|i m mb Hpc Hr|i mb Hpc Hr|i m Hpc Hs|i i' m Hr|i m|i i' Hcl].
  - by apply ip_return_ok.
  - assert (i_chDone i ≠ true) as Hnd by (intros Hd%Hg; congruence).
    assert (to_read (ip_goto i (take_token (i_messages i)) IpDrain) = to_read i) as He by (unfold to_read, offered; cbn; by rewrite Hpc).
    split; rewrite ?He; cbn; try done; by split; [|intros ?%Hg; congruence].
  - destruct (mb_retrieve_pending _ _ _ Hr) as (Hp & Hc' & Hn & Hl).
    assert (to_read (ip_goto i mb (IpOffer m)) = to_read i) as He by (unfold to_read, offered; cbn; by rewrite Hpc, Hp).
    split; rewrite ?He; cbn; try done; [congruence|lia|]. by split; [|intros ?%Hg; congruence].
  - apply mb_retrieve_none in Hr as [-> Hq'].
    assert (to_read (ip_goto i (i_messages i) IpSelect) = to_read i) as He by (unfold to_read, offered; cbn; by rewrite Hpc).
    split; rewrite ?He; cbn; try done; by split; [|intros ?%Hg; congruence].
  - by apply ip_return_ok.
  - unfold ip_Read in Hr. destruct (i_pc i) as [| |m'|] eqn:Hpc; try done. injection Hr as <- <-.
    match goal with |- ip_ok ?j => assert (to_read j = to_read i) as He end.
    { unfold to_read, offered. cbn. rewrite Hpc. by rewrite <- (assoc_L (++)). }
    split; rewrite ?He; cbn; try done; by split; [|intros ?%Hg; congruence].
  - by apply ip_EnqueueWrite_ok.
  - unfold ip_Close in Hcl. destruct (i_chStop i) eqn:Hs; cbn in Hcl; [done|]. injection Hcl as <-. split; cbn; try done; try lia.
    etrans; [|exact Ho]. unfold to_read, offered. cbn. do 2 (apply sublist_app; [done|]). apply sublist_nil_l.
Qed.

Lemma ip_reachable_ok i : rtc ip_step newInProcessSubscription i → ip_ok i.
Proof.
  intros Hr. enough (∀ s s', rtc ip_step s s' → ip_ok s → ip_ok s') as H.
  { apply (H _ _ Hr). split; cbn; done. }
  clear. induction 1 as [|s1 s2 s3 Hs _ IH]; [done|]. intros H1. by apply IH, (ip_step_ok s1).
Qed.

(** A reader in the same process gets the messages in the order in which they were enqueued,
    each once; while the subscription is open and the mailbox has not overflowed, what was
    read, what is being offered and what is pending are together all messages; a pending
    message is offered to the reader within two steps of the goroutine; once closed, the goroutine
    always has a step left to its end, so [Close] returns, and the host is told once. *)
Theorem in_process_subscription i :
  rtc ip_step newInProcessSubscription i →
  to_read i `sublist_of` i_log i ∧
  (length (i_log i) ≤ sub_capacity → i_chStop i = false → to_read i = i_log i) ∧
  (i_pc i = IpSelect → mb_pending (i_messages i) ≠ [] → ∃ i1 i2 m, ip_step i i1 ∧ ip_step i1 i2 ∧ i_pc i2 = IpOffer m ∧ head (mb_pending (i_messages i)) = Some m) ∧
  (i_chStop i = true → mb_queue (i_messages i) = [] → ∃ i', rtc ip_step i i' ∧ i_chDone i' = true) ∧
  i_told i = (if i_chStop i then 1 else 0).
Proof.
  intros Hr. pose proof (ip_reachable_ok i Hr) as [Hc Ho Ha Hq Hw Hg Hs Ht]. split_and!; try done.
  - intros Hpc Hp. assert (mb_queue (i_messages i) ≠ []) as Hne by (intros Hq'; apply Hp; unfold mb_pending; by rewrite Hq').
    destruct (Retrieve (take_token (i_messages i))) as [[m|] mb] eqn:Hre.
    + exists (ip_goto i (take_token (i_messages i)) IpDrain), (ip_goto (ip_goto i (take_token (i_messages i)) IpDrain) mb (IpOffer m)), m.
      split_and!; [apply ips_notif; auto|by apply ips_retrieve|done|]. apply mb_retrieve_pending in Hre as (Hp' & _).
      change (mb_pending (i_messages i)) with (mb_pending (take_token (i_messages i))). by rewrite Hp'.
    + by apply mb_retrieve_none in Hre as [_ Hq'].
  - intros Hst Hempty. assert (∀ j, i_pc j = IpSelect → i_chStop j = true → ∃ i', rtc ip_step j i' ∧ i_chDone i' = true) as Hsel.
    { intros j Hj Hsj. exists (ip_return j). split; [|done]. apply rtc_once. by apply ips_stop. }
    destruct (i_pc i) as [| |m|] eqn:Hpc.
    + by apply Hsel.
    + destruct (Hsel (ip_goto i (i_messages i) IpSelect)) as (i' & Hi' & Hd); [done|done|]. exists i'. split; [|done].
      eapply rtc_l; [|exact Hi']. apply ips_empty; [done|]. unfold Retrieve. by rewrite Hempty.
    + exists (ip_return i). split; [|done]. apply rtc_once. by eapply ips_drop.
    + exists i. split; [done|]. by apply Hg.
Qed.
End Subscriptions.

Definition msg_one : SubscriptionMsg unit := mkMsg None (Some tt) [].

Lemma writable_subscription_witness :
  let w := EnqueueWrite (newWritableSubscription (St := unit) SubscriptionType_States) msg_one in
  to_put w = expected w ∧ expected w = [msg_one].
Proof.
  assert (rtc ws_step (newWritableSubscription SubscriptionType_States) (EnqueueWrite (newWritableSubscription (St := unit) SubscriptionType_States) msg_one)) as Hr.
  { apply rtc_once, wss_enqueue. }
  destruct (writable_subscription _ _ Hr) as (_ & H & _). split; [|reflexivity]. apply H; [cbn; vm_compute; lia|discriminate].
Defined.

Lemma in_process_subscription_witness :
  let i := ip_EnqueueWrite (newInProcessSubscription (St := unit)) msg_one in ∃ i1 i2, ip_step i i1 ∧ ip_step i1 i2 ∧ i_pc i2 = IpOffer msg_one.
Proof.
  assert (rtc ip_step newInProcessSubscription (ip_EnqueueWrite (newInProcessSubscription (St := unit)) msg_one)) as Hr by apply rtc_once, ips_enqueue.
  destruct (in_process_subscription _ Hr) as (_ & _ & H & _). destruct (H eq_refl) as (i1 & i2 & m & H1 & H2 & H3 & H4); [discriminate|].
  exists i1, i2. split; [exact H1|]. split; [exact H2|]. rewrite H3. injection H4 as <-. reflexivity.
Defined.

(** ** [multiReaderSubscription] *)

Section MultiReader.
Context {T : Type} `{BadgerTxn T} `{JsonCodec} `{ProtoCodec} `{MapOrder} `{Secp256k1} `{Configs T} `{Derivation}.
Context (keccak256 : bytes → bytes) (open_db : bytes → outcome T).

(** The loop over [peerSub.Read()]: a result is an error or a message, with its transaction if
    it has one; [stopped] says whether [chStop] is closed before each read.  The goroutine
    waits in [Read] when the results are used up. *)
Fixpoint reader_loop (h : host) (peer : host_peer) (stopped : nat → bool) (i : nat) (reads : list (error + option Tx)) : outcome host :=
  if stopped i then Ret h
  else
    match reads with
    | [] => Running
    | inl _ :: _ | inr None :: _ => Ret h
    | inr (Some tx) :: reads => let! h := HandleTxReceived keccak256 open_db h tx peer in reader_loop h peer stopped (S i) reads
    end.

(** The goroutine of one peer: the host afterwards, and whether the peer's subscription was
    opened, in which case it is closed.  The peer is returned without a strike in any case. *)
Definition reader_goroutine (h : host) (peer : host_peer) (connect subscribe : option error) (stopped : nat → bool)
    (reads : list (error + option Tx)) : outcome (host * bool) :=
  match connect, subscribe with
  | Some _, _ | None, Some _ => Ret (h, false)
  | None, None => let! h := reader_loop h peer stopped 0 reads in Ret (h, true)
  end.

Lemma markTxSeen_ids (h : host (T := T)) peer uri id :
  seen_ids (markTxSeenByPeer h peer uri id) (hp_DialInfo peer) uri = {[id]} ∪ seen_ids h (hp_DialInfo peer) uri.
Proof.
  unfold seen_ids, markTxSeenByPeer. cbn [ho_seen with_seen]. rewrite lookup_insert_eq. cbn. rewrite lookup_insert_eq. cbn.
  by destruct (ho_seen h !! hp_DialInfo peer).
Qed.

Lemma markTxSeen_mono (h : host (T := T)) peer uri id uri' :
  seen_ids h (hp_DialInfo peer) uri' ⊆ seen_ids (markTxSeenByPeer h peer uri id) (hp_DialInfo peer) uri'.
Proof.
  destruct (decide (uri' = uri)) as [->|Hne]; [rewrite markTxSeen_ids; set_solver|].
  unfold seen_ids, markTxSeenByPeer. cbn [ho_seen with_seen]. rewrite lookup_insert_eq. cbn. rewrite lookup_insert_ne by congruence.
  destruct (ho_seen h !! hp_DialInfo peer); cbn; [done|]. by rewrite lookup_empty.
Qed.

Lemma HandleTxReceived_seen h tx peer h' :
  HandleTxReceived keccak256 open_db h tx peer = Ret h' →
  ho_seen h' = ho_seen (markTxSeenByPeer h peer (tx_StateURI tx) (tx_ID tx)).
Proof.
  unfold HandleTxReceived. destruct (hub_HaveTx _ _ _); [by intros [= <-]|].
  destruct (hub_AddTx _ _ _ _ _); cbn [obind]; try done. by intros [= <-].
Qed.

(** Every transaction that was read before the loop ended is marked as seen by the peer, so
    that it is not sent back. *)
Lemma reader_loop_seen h peer stopped i reads h' txs rest :
  reader_loop h peer stopped i reads = Ret h' → reads = (inr ∘ Some <$> txs) ++ rest → (∀ k, k < length txs → stopped (i + k) = false) →
  Forall (λ tx, tx_ID tx ∈ seen_ids h' (hp_DialInfo peer) (tx_StateURI tx)) txs ∧
  ∀ uri, seen_ids h (hp_DialInfo peer) uri ⊆ seen_ids h' (hp_DialInfo peer) uri.
Proof.
  intros Hl -> Hst. assert (∀ reads h i h', reader_loop h peer stopped i reads = Ret h' →
    ∀ uri, seen_ids h (hp_DialInfo peer) uri ⊆ seen_ids h' (hp_DialInfo peer) uri) as Hmono.
  { clear. induction reads as [|r reads IH]; intros h i h'; cbn [reader_loop]; destruct (stopped i); try (by intros [= <-]).
    destruct r as [e|[tx|]]; try (by intros [= <-]). destruct (HandleTxReceived _ _ h tx peer) as [h1| | |] eqn:Hh; cbn [obind]; try done.
    intros Hl uri. etrans; [|by apply (IH h1 (S i) h')]. apply HandleTxReceived_seen in Hh.
    etrans; [apply (markTxSeen_mono h peer (tx_StateURI tx) (tx_ID tx))|]. unfold seen_ids. by rewrite Hh. }
  split; [|by eapply Hmono]. revert h i Hl Hst. induction txs as [|tx txs IH]; intros h i Hl Hst; [constructor|].
  cbn [fmap list_fmap app compose reader_loop] in Hl. assert (stopped i = false) as Hi.
  { specialize (Hst 0). rewrite Nat.add_0_r in Hst. apply Hst. cbn. lia. }
  rewrite Hi in Hl. destruct (HandleTxReceived _ _ h tx peer) as [h1| | |] eqn:Hh; cbn [obind] in Hl; try done. constructor.
  - apply (Hmono _ _ _ _ Hl). apply HandleTxReceived_seen in Hh. unfold seen_ids in *. rewrite Hh.
    change (tx_ID tx ∈ seen_ids (markTxSeenByPeer h peer (tx_StateURI tx) (tx_ID tx)) (hp_DialInfo peer) (tx_StateURI tx)).
    rewrite markTxSeen_ids. set_solver.
  - apply (IH h1 (S i) Hl). intros k Hk. specialize (Hst (S k)). replace (S i + k) with (i + S k) by lia. apply Hst. cbn. lia.
Qed.
End MultiReader.

(** The subscription's main loop and its goroutines: the pool, and the peers whose goroutine
    runs.  The pool takes its own steps (those of its goroutines and of [GetPeer], which
    leave the sum of the semaphore's weight and the discarded peers as it is, up to the calls of [GetPeer]
    that begin); a peer that [GetPeer] returns gets a goroutine; a goroutine that ends
    returns its peer, without a strike. *)
Inductive mr_step : peerPool * list PeerDialInfo → peerPool * list PeerDialInfo → Prop :=
  | mrs_pool p p' run : pool_step p p' → pp_handed p' = pp_handed p → pp_strikes p' = pp_strikes p →
      pp_held p' + pp_discarded p' + pp_getting p = pp_held p + pp_discarded p + pp_getting p' → mr_step (p, run) (p', run)
  | mrs_get p n peer rest run : pp_getting p = S n → pp_chPeers p = peer :: rest →
      mr_step (p, run)
        (with_counts (with_sem (with_chan (setPeerState p peer peerState_InUse) rest (pp_phase p)) (pp_held p) n)
           (pp_handed p ++ [peer]) (pp_discarded p) (pp_strikes p), run ++ [peer])
  | mrs_return p p' peer r1 r2 : ReturnPeer p peer false = Some p' → mr_step (p, r1 ++ peer :: r2) (p', r1 ++ r2).

Lemma ReturnPeer_false p peer p' : ReturnPeer p peer false = Some p' →
  pp_handed p' = pp_handed p ∧ pp_strikes p' = pp_strikes p ∧ pp_discarded p' = pp_discarded p ∧ pp_getting p' = pp_getting p ∧ pp_held p = S (pp_held p').
Proof. unfold ReturnPeer, send_available. destruct (pp_held p); [done|]. cbn. case_decide; [|done]. by intros [= <-]. Qed.

(** What relates the goroutines to the pool. *)
Record mr_ok (n : nat) (s : peerPool * list PeerDialInfo) : Prop := {
  mro_pool : rtc pool_step (newPeerPool n) s.1;
  mro_run : s.2 ⊆ pp_handed s.1;
  mro_count : length s.2 ≤ length (pp_handed s.1);
  mro_strikes : pp_strikes s.1 = 0;
  mro_sem : pp_held s.1 + pp_discarded s.1 = length s.2 + pp_getting s.1
}.

Lemma mr_step_ok n s s' : mr_ok n s → mr_step s s' → mr_ok n s'.
Proof.
  intros [Hp Hr Hc Hs Hm] Hst. destruct Hst as [p p' run Hps Hh Hsk Hsem|p k peer rest run Hg Hch|p p' peer r1 r2 Hre]; cbn [fst snd] in *.
  - split; cbn; [by eapply rtc_r|by rewrite Hh|by rewrite Hh|congruence|lia].
  - split; cbn.
    + eapply rtc_r; [exact Hp|]. by eapply step_get.
    + set_solver.
    + rewrite !length_app. cbn. lia.
    + done.
    + rewrite length_app. cbn. lia.
  - destruct (ReturnPeer_false _ _ _ Hre) as (Hh & Hsk & Hd & Hg & Hhe). split; cbn.
    + eapply rtc_r; [exact Hp|]. eapply step_return; [|exact Hre]. set_solver.
    + rewrite Hh. set_solver.
    + rewrite Hh. rewrite length_app in *. cbn in Hc. lia.
    + congruence.
    + rewrite length_app in *. cbn in Hm. lia.
Qed.

(** C29: A subscription opens at most [maxConns] connections, not only at a time but over its
    whole life: each connection's end returns the peer without a strike, and that asks for no
    other peer.  When they have ended, the subscription reads from nobody.  The weight of the semaphore is
    the connections and the calls of [GetPeer] in progress, less the peers that [GetPeer] found not ready,
    so when there were none of these, a goroutine that returns its peer never releases too
    much. *)
Theorem multi_reader_bounded n p run :
  rtc mr_step (newPeerPool n, []) (p, run) →
  length (pp_handed p) ≤ n ∧ length run ≤ n ∧
  (length (pp_handed p) = n → run = [] → ∀ p' run', mr_step (p, run) (p', run') → run' = []) ∧
  pp_held p + pp_discarded p = length run + pp_getting p ∧
  (pp_discarded p = 0 → run ≠ [] → 0 < pp_held p).
Proof.
  intros Hr. assert (mr_ok n (p, run)) as Hok.
  { enough (∀ s s', rtc mr_step s s' → mr_ok n s → mr_ok n s') as H.
    { apply (H _ _ Hr). by split. }
    clear. induction 1 as [|s1 s2 s3 Hs _ IH]; [done|]. intros H1. by apply IH, (mr_step_ok n s1). }
  pose proof Hok as [Hp Hsub Hc Hs Hm]. cbn in *. pose proof (requests_reachable n p Hp) as Hq. rewrite Hs in Hq.
  assert (length (pp_handed p) ≤ n) as Hle by (unfold requests in Hq; lia). split_and!; [lia|lia| |done|].
  - intros Hfull -> p' run' Hst. inversion Hst as [? ? ? ? ? ? ?|? k peer rest ? Hg Hch|? ? ? r1 r2 ? Heq]; subst; [done| |].
    + unfold requests in Hq. rewrite Hch in Hq. cbn in Hq. lia.
    + by destruct r1.
  - intros Hd Hne. destruct run; [done|]. cbn in Hm. lia.
Qed.

(** One connection: its peer is found, handed out, and returned. *)
Definition one_3 : peerPool := with_available pool_3 0.
Definition one_4 : peerPool := with_chan one_3 [] (Sending di_one).
Definition one_5 : peerPool := with_chan one_4 [di_one] Waiting.
Definition one_6 : peerPool := with_sem one_5 1 1.
Definition one_7 : peerPool := with_counts (with_sem (with_chan (setPeerState one_6 di_one peerState_InUse) [] Waiting) 1 0) [di_one] 0 0.
Definition one_8 : peerPool := with_available (setPeerState (with_sem one_7 0 0) di_one peerState_Unknown) 1.

Lemma one_8_reachable : rtc mr_step (newPeerPool 1, []) (one_8, []).
Proof.
  apply (rtc_l _ _ (pool_1, [])); [apply mrs_pool; [by apply (step_fill (newPeerPool 1) (with_need (newPeerPool 1) 1 1 Waiting) 0)|done..]|].
  apply (rtc_l _ _ (pool_2, [])); [apply mrs_pool; [by apply (step_found pool_1 di_one)|done..]|].
  apply (rtc_l _ _ (pool_3, [])); [apply mrs_pool; [by apply (step_request pool_2 0)|done..]|].
  apply (rtc_l _ _ (one_3, [])); [apply mrs_pool; [by apply (step_wake pool_3 0)|done..]|].
  assert (available_peers one_3 (λ _, true) = [di_one]) as Ha by (vm_compute; reflexivity).
  apply (rtc_l _ _ (one_4, [])); [apply mrs_pool; [apply (step_next one_3 (λ _, true) di_one); [done|rewrite Ha; by apply list_elem_of_singleton]|done..]|].
  apply (rtc_l _ _ (one_5, [])); [apply mrs_pool; [apply (step_send one_4 di_one); [done|simpl; lia]|done..]|].
  apply (rtc_l _ _ (one_6, [])); [apply mrs_pool; [apply (step_acquire one_5); simpl; lia|done..]|].
  apply (rtc_l _ _ (one_7, [di_one])); [by apply (mrs_get one_6 0 di_one [] [])|].
  apply rtc_once. by apply (mrs_return one_7 one_8 di_one [] []).
Qed.

Lemma multi_reader_bounded_witness : length (pp_handed one_8) = 1 ∧ ∀ p' run', mr_step (one_8, []) (p', run') → run' = [].
Proof.
  split; [reflexivity|]. destruct (multi_reader_bounded 1 one_8 [] one_8_reachable) as (_ & _ & H & _). apply H; reflexivity.
Defined.
