(* ===== verification/HostPeers.v ===== *)
(** * The host: peers, subscriptions and blobs ([host.go])

    The rest of the host, on top of file Host: how it finds the providers of a state or a
    blob, how it processes the peers it knows, how it subscribes and unsubscribes, what it
    does about a new state, and how it fetches and announces blobs.

    A transport is a record of what its methods answer.  Goroutines that send to one channel
    are a step relation, in which every interleaving is possible.  The mutex of the readable
    subscriptions is a flag: locking a locked mutex waits for ever, since only the waiting
    goroutine itself could unlock it. *)

From S2P Require Import Prelude Types Keypath TreeTypes GoValue BadgerTxn DBNode Tx TxStore Mempool Permissions Controller ControllerProps.
From S2P Require Import Hub RefStore RefTransfer PeerStore KeyStore HttpTx Sets Host Channels.

(** ** Transports and their peers *)

Definition ErrPeerIsSelf : error := ErrOther "peer is self".

(** A peer with what it answers. *)
Record live_peer := mkLive {
  lp_peer : host_peer;
  lp_Ready : bool;
  lp_EnsureConnected : option error;
  lp_ChallengeIdentity : option error;
  lp_ReceiveResponse : bytes → outcome (list ChallengeIdentityResponse)
}.

Record transport := mkTransport {
  tp_NewPeerConn : bytes → live_peer + error;
  tp_ProvidersOfStateURI : bytes → list host_peer + error;
  tp_ProvidersOfRef : RefID → list host_peer + error;
  tp_PeersClaimingAddress : Address → list host_peer + error;
  tp_AnnounceRef : RefID → option error
}.

(** [h.transports], in the order in which the map is ranged over. *)
Abbreviation transports := (list (bytes * transport)).

Definition Transport (tpts : transports) (name : bytes) : option transport := snd <$> head (filter (λ nt, nt.1 = name) tpts).

(** The channels of the transports that can answer. *)
Definition answers {A} (f : transport → list A + error) (tpts : transports) : list (list A) :=
  omap (λ nt, match f nt.2 with inl l => Some l | inr _ => None end) tpts.

(** ** Channels that are merged into one *)

Section Merge.
Context {A : Type}.

(** One goroutine per channel receives a peer and sends it on. *)
Inductive merge_step : list (list A) * list A → list (list A) * list A → Prop :=
  | merge_one chans out i x rest : chans !! i = Some (x :: rest) → merge_step (chans, out) (<[i := rest]> chans, out ++ [x]).

Lemma concat_insert (chans : list (list A)) i x rest :
  chans !! i = Some (x :: rest) → concat chans ≡ₚ x :: concat (<[i := rest]> chans).
Proof.
  revert i. induction chans as [|c chans IH]; intros [|i] Hi; cbn in Hi; simplify_eq.
  - done.
  - change (<[S i := rest]> (c :: chans)) with (c :: <[i := rest]> chans). cbn [concat]. rewrite (IH i Hi).
    by rewrite Permutation_middle.
Qed.

Lemma merge_perm s s' : rtc merge_step s s' → s.2 ++ concat s.1 ≡ₚ s'.2 ++ concat s'.1.
Proof.
  induction 1 as [|s1 s2 s3 Hst _ IH]; [done|]. rewrite <- IH. destruct Hst as [chans out i x rest Hi]. cbn.
  rewrite (concat_insert _ _ _ _ Hi). by rewrite <- (assoc_L (++)).
Qed.

Lemma merge_ends chans out : ∃ out', rtc merge_step (chans, out) ((λ _, []) <$> chans, out').
Proof.
  remember (length (concat chans)) as n eqn:Hn. revert chans out Hn. induction n as [|n IH]; intros chans out Hn.
  - exists out. assert ((λ _, []) <$> chans = chans) as ->; [|done].
    induction chans as [|c chans IHc]; [done|]. cbn in Hn. rewrite length_app in Hn. destruct c; cbn in Hn; [|lia]. cbn. f_equal. apply IHc. lia.
  - assert (∃ i x rest, chans !! i = Some (x :: rest)) as (i & x & rest & Hi).
    { clear IH. induction chans as [|c chans IHc]; [done|]. cbn in Hn. rewrite length_app in Hn. destruct c as [|x rest]; [|by exists 0, x, rest].
      destruct IHc as (i & x & rest & Hi); [cbn in Hn; lia|]. by exists (S i), x, rest. }
    destruct (IH (<[i := rest]> chans) (out ++ [x])) as (out' & Hr).
    { apply concat_insert, Permutation_length in Hi. cbn in Hi. lia. }
    exists out'. eapply rtc_l; [by apply (merge_one _ _ i x rest)|].
    replace ((λ _, []) <$> <[i := rest]> chans) with ((λ _ : list A, @nil A) <$> chans) in Hr; [done|].
    rewrite list_fmap_insert. symmetry. apply list_insert_id. rewrite list_lookup_fmap, Hi. done.
Qed.
End Merge.

(** [ProvidersOfRef] and [PeersClaimingAddress]: the channel that is returned ends with what
    all transports found. *)
Definition ProvidersOfRef (tpts : transports) (refID : RefID) (out : list host_peer) : Prop :=
  let chans := answers (λ t, tp_ProvidersOfRef t refID) tpts in rtc merge_step (chans, []) ((λ _, []) <$> chans, out).
Definition PeersClaimingAddress (tpts : transports) (address : Address) (out : list host_peer) : Prop :=
  let chans := answers (λ t, tp_PeersClaimingAddress t address) tpts in rtc merge_step (chans, []) ((λ _, []) <$> chans, out).

(** ** The providers of a state URI *)

Section Providers.
Context (stateURI : bytes) (tpts : transports).

(** The peers that are stored and those that the transports find go to one channel;
    [pv_sent] is [alreadySent], [pv_added] lists the peers whose state URIs are extended. *)
Record providers := mkProviders {
  pv_stored : list PeerDialInfo;
  pv_chans : list (list host_peer);
  pv_sent : gset PeerDialInfo;
  pv_out : list host_peer;
  pv_added : list host_peer
}.

(** The goroutine of the stored peers takes one: its dial info is marked before the
    connection is made. *)
Definition stored_one (v : providers) (dialInfo : PeerDialInfo) (rest : list PeerDialInfo) : providers :=
  let v := mkProviders rest (pv_chans v) (pv_sent v) (pv_out v) (pv_added v) in
  match Transport tpts (TransportName dialInfo) with
  | None => v
  | Some tpt =>
      if decide (dialInfo ∈ pv_sent v) then v
      else
        let v := mkProviders rest (pv_chans v) ({[dialInfo]} ∪ pv_sent v) (pv_out v) (pv_added v) in
        match tp_NewPeerConn tpt (DialAddr dialInfo) with
        | inl peer => mkProviders rest (pv_chans v) (pv_sent v) (pv_out v ++ [lp_peer peer]) (pv_added v)
        | inr _ => v
        end
  end.

(** The goroutine of a transport takes one. *)
Definition found_one (v : providers) (i : nat) (peer : host_peer) (rest : list host_peer) : providers :=
  let chans := <[i := rest]> (pv_chans v) in
  if decide (hp_DialInfo peer ∈ pv_sent v) then mkProviders (pv_stored v) chans (pv_sent v) (pv_out v) (pv_added v)
  else mkProviders (pv_stored v) chans ({[hp_DialInfo peer]} ∪ pv_sent v) (pv_out v ++ [peer]) (pv_added v ++ [peer]).

Inductive providers_step : providers → providers → Prop :=
  | pvs_stored v d rest : pv_stored v = d :: rest → providers_step v (stored_one v d rest)
  | pvs_found v i peer rest : pv_chans v !! i = Some (peer :: rest) → providers_step v (found_one v i peer rest).

(** The peers that the store lists for the state URI. *)
Definition stored_providers (s : peerStore) : list PeerDialInfo :=
  omap (λ p, pd_dialInfo <$> pd_at s p) (PeersServingStateURI s stateURI).

(** What [ProvidersOfStateURI] starts with; a local state URI has no providers. *)
Definition providers_start (s : peerStore) : providers :=
  if IsLocalStateURI stateURI then mkProviders [] [] ∅ [] []
  else mkProviders (stored_providers s) (answers (λ t, tp_ProvidersOfStateURI t stateURI) tpts) ∅ [] [].

(** Everything was taken; the channel is closed. *)
Definition providers_done (v : providers) : Prop := pv_stored v = [] ∧ concat (pv_chans v) = [].
Definition ProvidersOfStateURI (s : peerStore) (v : providers) : Prop := rtc providers_step (providers_start s) v ∧ providers_done v.

(** The connection that a transport makes to an address is one to that address. *)
Context (Hconn : ∀ name tpt addr peer, Transport tpts name = Some tpt → tp_NewPeerConn tpt addr = inl peer →
  hp_DialInfo (lp_peer peer) = mkDialInfo name addr).

Definition connects (d : PeerDialInfo) : bool :=
  match Transport tpts (TransportName d) with
  | Some tpt => match tp_NewPeerConn tpt (DialAddr d) with inl _ => true | inr _ => false end
  | None => false
  end.

(** The sources: every dial info that is still to be taken or was taken. *)
Record pv_ok (s0 : list PeerDialInfo) (c0 : list host_peer) (v : providers) : Prop := {
  pvo_nodup : NoDup (hp_DialInfo <$> pv_out v);
  pvo_out : ∀ d, d ∈ hp_DialInfo <$> pv_out v → d ∈ pv_sent v;
  pvo_sent : ∀ d, d ∈ pv_sent v → d ∈ hp_DialInfo <$> pv_out v ∨ (d ∈ s0 ∧ connects d = false);
  pvo_src : ∀ d, d ∈ pv_sent v → (d ∈ s0) ∨ d ∈ hp_DialInfo <$> c0;
  pvo_stored : ∀ d, d ∈ s0 → connects d = true → d ∈ pv_sent v ∨ d ∈ pv_stored v;
  pvo_chans : ∀ p, p ∈ c0 → hp_DialInfo p ∈ pv_sent v ∨ p ∈ concat (pv_chans v);
  pvo_s0 : ∀ d, d ∈ pv_stored v → d ∈ s0;
  pvo_c0 : ∀ p, p ∈ concat (pv_chans v) → p ∈ c0
}.

Lemma NoDup_snoc_dial (out : list host_peer) p : NoDup (hp_DialInfo <$> out) → hp_DialInfo p ∉ hp_DialInfo <$> out → NoDup (hp_DialInfo <$> out ++ [p]).
Proof. intros Hn Hp. rewrite fmap_app. apply NoDup_app. split; [done|]. split; [set_solver|apply NoDup_singleton]. Qed.

Lemma elem_of_out_snoc (out : list host_peer) p d : d ∈ hp_DialInfo <$> out ++ [p] ↔ d ∈ hp_DialInfo <$> out ∨ d = hp_DialInfo p.
Proof. rewrite fmap_app, elem_of_app. cbn. by rewrite list_elem_of_singleton. Qed.

Lemma stored_one_ok s0 c0 v d rest : pv_ok s0 c0 v → pv_stored v = d :: rest → pv_ok s0 c0 (stored_one v d rest).
Proof using Hconn.
  intros [H1 H2 H3 H4 H5 H6 H7 H8] Hs. rewrite Hs in *. assert (d ∈ s0) as Hd by (apply H7, elem_of_cons; by left).
  assert (∀ x, x ∈ rest → x ∈ s0) as Hrest by (intros x Hx; apply H7, elem_of_cons; by right).
  assert (∀ x, x ∈ s0 → connects x = true → x ∈ pv_sent v ∨ x = d ∨ x ∈ rest) as H5'.
  { intros x Hx Hc. destruct (H5 x Hx Hc) as [|[|]%elem_of_cons]; auto. }
  unfold stored_one. cbn [pv_sent pv_chans pv_out pv_added]. destruct (Transport tpts (TransportName d)) as [tpt|] eqn:Ht.
  2: { split; cbn; auto. intros x Hx Hc. destruct (H5' x Hx Hc) as [|[->|]]; auto. unfold connects in Hc. by rewrite Ht in Hc. }
  case_decide as Hin.
  { split; cbn; auto. intros x Hx Hc. destruct (H5' x Hx Hc) as [|[->|]]; auto. }
  assert (∀ x, x ∈ s0 → connects x = true → x ∈ {[d]} ∪ pv_sent v ∨ x ∈ rest) as H5''.
  { intros x Hx Hc. rewrite elem_of_union, elem_of_singleton. destruct (H5' x Hx Hc) as [|[|]]; auto. }
  assert (∀ p, p ∈ c0 → hp_DialInfo p ∈ {[d]} ∪ pv_sent v ∨ p ∈ concat (pv_chans v)) as H6'.
  { intros p Hp. rewrite elem_of_union. destruct (H6 p Hp); auto. }
  assert (∀ x, x ∈ {[d]} ∪ pv_sent v → x ∈ s0 ∨ x ∈ hp_DialInfo <$> c0) as H4'.
  { intros x. rewrite elem_of_union, elem_of_singleton. intros [->|]; auto. }
  destruct (tp_NewPeerConn tpt (DialAddr d)) as [peer|e] eqn:Hp.
  - pose proof (Hconn _ _ _ _ Ht Hp) as Hdi. assert (hp_DialInfo (lp_peer peer) = d) as Hd' by (rewrite Hdi; by destruct d).
    split; cbn; auto.
    + apply NoDup_snoc_dial; [done|]. rewrite Hd'. auto.
    + intros x. rewrite elem_of_out_snoc, Hd', elem_of_union, elem_of_singleton. intros [|]; auto.
    + intros x. rewrite elem_of_out_snoc, Hd', elem_of_union, elem_of_singleton. intros [|Hx]; auto. destruct (H3 x Hx); auto.
  - assert (connects d = false) as Hc by (unfold connects; by rewrite Ht, Hp). split; cbn; auto.
    + intros x Hx. apply elem_of_union_r. auto.
    + intros x. rewrite elem_of_union, elem_of_singleton. intros [->|]; auto.
Qed.

Lemma found_one_ok s0 c0 v i peer rest : pv_ok s0 c0 v → pv_chans v !! i = Some (peer :: rest) → pv_ok s0 c0 (found_one v i peer rest).
Proof.
  intros [H1 H2 H3 H4 H5 H6 H7 H8] Hi. pose proof (concat_insert _ _ _ _ Hi) as Hp.
  assert (∀ p, p ∈ concat (pv_chans v) ↔ p = peer ∨ p ∈ concat (<[i := rest]> (pv_chans v))) as Hel by (intros p; by rewrite Hp, elem_of_cons).
  assert (peer ∈ c0) as Hc by (apply H8, Hel; by left).
  assert (∀ p, p ∈ concat (<[i := rest]> (pv_chans v)) → p ∈ c0) as H8' by (intros p Hin; apply H8, Hel; by right).
  assert (∀ p, p ∈ c0 → hp_DialInfo p ∈ pv_sent v ∨ p = peer ∨ p ∈ concat (<[i := rest]> (pv_chans v))) as H6'.
  { intros p Hin. destruct (H6 p Hin) as [|[|]%Hel]; auto. }
  unfold found_one. case_decide as Hin; split; cbn; auto.
  - intros p Hin'. destruct (H6' p Hin') as [|[->|]]; auto.
  - apply NoDup_snoc_dial; auto.
  - intros x. rewrite elem_of_out_snoc, elem_of_union, elem_of_singleton. intros [|]; auto.
  - intros x. rewrite elem_of_out_snoc, elem_of_union, elem_of_singleton. intros [|Hx]; auto. destruct (H3 x Hx); auto.
  - intros x. rewrite elem_of_union, elem_of_singleton. intros [->|Hx]; [|auto]. right. apply list_elem_of_fmap. eauto.
  - intros x Hx Hcx. rewrite elem_of_union. destruct (H5 x Hx Hcx); auto.
  - intros p Hin'. rewrite elem_of_union, elem_of_singleton. destruct (H6' p Hin') as [|[->|]]; auto.
Qed.

Definition pv_left (v : providers) : nat := length (pv_stored v) + length (concat (pv_chans v)).

Lemma providers_step_left v v' : providers_step v v' → pv_left v = S (pv_left v').
Proof.
  destruct 1 as [v d rest Hs|v i peer rest Hi]; unfold pv_left.
  - rewrite Hs. unfold stored_one. cbn. repeat (case_match || case_decide); cbn; lia.
  - pose proof (Permutation_length (concat_insert _ _ _ _ Hi)) as Hl. cbn in Hl. unfold found_one. case_decide; cbn; lia.
Qed.

Lemma providers_step_ok s0 c0 v v' : pv_ok s0 c0 v → providers_step v v' → pv_ok s0 c0 v'.
Proof using Hconn. intros Hok Hs. destruct Hs; [by apply stored_one_ok|by apply found_one_ok]. Qed.

Lemma providers_can_end v : ∃ v', rtc providers_step v v' ∧ providers_done v'.
Proof.
  remember (pv_left v) as n eqn:Hn. revert v Hn. induction n as [n IH] using lt_wf_ind. intros v Hn.
  assert (providers_done v ∨ ∃ v', providers_step v v') as [Hd|[v' Hs]].
  - unfold providers_done. destruct (pv_stored v) as [|d rest] eqn:Hs; [|right; eexists; by apply pvs_stored].
    destruct (concat (pv_chans v)) eqn:Hc; [by left|]. right.
    assert (∃ i p r, pv_chans v !! i = Some (p :: r)) as (i & p & r & Hi); [|eexists; by eapply pvs_found].
    clear -Hc. revert h l Hc. induction (pv_chans v) as [|c cs IHc]; intros h l Hc; [done|]. destruct c as [|p r]; [|by exists 0, p, r].
    destruct (IHc h l Hc) as (i & p & r & Hi). by exists (S i), p, r.
  - by exists v.
  - pose proof (providers_step_left _ _ Hs) as Hl. destruct (IH (pv_left v') ltac:(lia) v' eq_refl) as (v'' & Hr & Hd). exists v''. split; [|done].
    by eapply rtc_l.
Qed.
End Providers.


Definition one_transport : transports :=
  [(str "http", mkTransport (λ addr, inl (mkLive (mkHostPeer (mkDialInfo (str "http") addr) []) true None None (λ _, Ret [])))
     (λ _, inl [mkHostPeer di_http []; mkHostPeer di_http []]) (λ _, inl []) (λ _, inl []) (λ _, None))].


(** ** Processing the known peers *)

Section ProcessPeers.
Context {T : Type} `{BadgerTxn T} `{JsonCodec} `{ProtoCodec} `{MapOrder} `{Secp256k1} `{Configs T} `{Derivation}.
Context (keccak256 : bytes → bytes) (tpts : transports).

(** [PeersFromTransport], as dial infos; the nil pointer panics. *)
Definition dial_info_of (s : peerStore) (p : option nat) : outcome PeerDialInfo :=
  match p ≫= pd_at s with Some pd => Ret (pd_dialInfo pd) | None => Panic end.

(** The peers that are told all dial infos: one goroutine per known peer of each transport. *)
Definition announce_to (nt : bytes * transport) (dialInfo : PeerDialInfo) : list PeerDialInfo :=
  if decide (TransportName dialInfo ≠ nt.1) then []
  else
    match tp_NewPeerConn nt.2 (DialAddr dialInfo) with
    | inr _ => []
    | inl peer => match lp_EnsureConnected peer with Some _ => [] | None => [dialInfo] end
    end.
Definition announce_on (s : peerStore) (nt : bytes * transport) : outcome (list PeerDialInfo) :=
  let! dis := map_outcome (λ p, dial_info_of s (Some p)) (PeersFromTransport s nt.1) in Ret (dis ≫= announce_to nt).
Definition AnnouncePeers (s : peerStore) : outcome (list (PeerDialInfo * list PeerDialInfo)) :=
  let! told := map_outcome (announce_on s) tpts in
  Ret ((λ d, (d, AllDialInfos s)) <$> concat told).

(** The unverified peers that are challenged. *)
Definition challenge_one (dialInfo : PeerDialInfo) : list live_peer :=
  match Transport tpts (TransportName dialInfo) with
  | None => []
  | Some tpt =>
      match tp_NewPeerConn tpt (DialAddr dialInfo) with
      | inr _ => []
      | inl peer => if lp_Ready peer then [peer] else []
      end
  end.
Definition to_challenge (s : peerStore) : outcome (list live_peer) :=
  let! dis := map_outcome (dial_info_of s) (UnverifiedPeers s) in Ret (dis ≫= challenge_one).

(** The challenges, in the order of the list; [msg] draws the challenge messages.  An error
    is logged. *)
Fixpoint challenge_all (h : host (T := T)) (msg : nat → bytes) (i : nat) (peers : list live_peer) : outcome host :=
  match peers with
  | [] => Ret h
  | peer :: peers =>
      let! r := ChallengePeerIdentity keccak256 h (hp_DialInfo (lp_peer peer)) (lp_EnsureConnected peer) (msg i)
                  (lp_ChallengeIdentity peer) (lp_ReceiveResponse peer (msg i)) in
      challenge_all r.1 msg (S i) peers
  end.

Definition processPeers (h : host (T := T)) (msg : nat → bytes) : outcome (host * list (PeerDialInfo * list PeerDialInfo)) :=
  let! told := AnnouncePeers (ho_peers h) in
  let! peers := to_challenge (ho_peers h) in
  let! h := challenge_all h msg 0 peers in
  Ret (h, told).

(** [AddPeer] with the task that processes the peers. *)
Definition AddPeer (h : host (T := T)) (task : PeriodicTask) (dialInfo : PeerDialInfo) : host * PeriodicTask :=
  (with_peers h (AddDialInfos keccak256 (ho_peers h) [dialInfo]), pt_Enqueue task).
Definition handleNewUnverifiedPeer (task : PeriodicTask) (dialInfo : PeerDialInfo) : PeriodicTask := pt_Enqueue task.

(** *** Whom it talks to *)

Lemma map_outcome_ok {A B} (f : A → outcome B) (g : A → B) l : (∀ a, a ∈ l → f a = Ret (g a)) → map_outcome f l = Ret (g <$> l).
Proof.
  induction l as [|a l IH]; intros Hf; [done|]. cbn. rewrite Hf by (by left). cbn. rewrite IH; [done|].
  intros x Hx. apply Hf. by right.
Qed.

Definition dial_at (s : peerStore) (p : nat) : PeerDialInfo := match pd_at s p with Some pd => pd_dialInfo pd | None => mkDialInfo [] [] end.

Lemma dial_at_peer s di p : ps_wf s → ps_peers s !! di = Some p → dial_info_of s (Some p) = Ret di ∧ dial_at s p = di.
Proof.
  intros Hwf Hp. destruct (wf_peers s Hwf di p Hp) as (_ & d & Hd & Hdi).
  unfold dial_info_of, dial_at. cbn. by rewrite Hd, Hdi.
Qed.

Lemma announce_on_spec s nt : ps_wf s →
  announce_on s nt = Ret ((filter (λ d, TransportName d = nt.1) (AllDialInfos s)) ≫= announce_to nt).
Proof.
  intros Hwf. unfold announce_on, PeersFromTransport, AllDialInfos.
  assert (∀ l : list (PeerDialInfo * nat), (∀ kv, kv ∈ l → ps_peers s !! kv.1 = Some kv.2) →
    map_outcome (λ p, dial_info_of s (Some p)) (filter (λ kv, TransportName kv.1 = nt.1) l).*2 = Ret (filter (λ d, TransportName d = nt.1) l.*1)) as Hl.
  { induction l as [|[di p] l IH]; intros Hl; [done|]. rewrite filter_cons. cbn [fmap list_fmap fst]. rewrite filter_cons. cbn [fst].
    assert (∀ kv, kv ∈ l → ps_peers s !! kv.1 = Some kv.2) as Hl' by (intros kv Hkv; apply Hl; by right). case_decide; [|by apply IH].
    cbn [fmap list_fmap snd map_outcome]. destruct (dial_at_peer s di p Hwf (Hl (di, p) ltac:(by left))) as [-> _]. cbn [obind].
    change (list_fmap _ _ snd ?x) with (x.*2). rewrite (IH Hl'). done. }
  rewrite Hl; [done|]. intros [di p] Hin. by apply elem_of_map_to_list in Hin.
Qed.

Lemma to_challenge_spec s : ps_wf s → to_challenge s = Ret (elements (ps_unverified s) ≫= challenge_one).
Proof.
  intros Hwf. unfold to_challenge, UnverifiedPeers.
  assert (∀ l, (∀ d, d ∈ l → d ∈ ps_unverified s) → map_outcome (dial_info_of s) ((λ d, ps_peers s !! d) <$> l) = Ret l) as Hl.
  { induction l as [|d l IH]; intros Hl; [done|]. destruct (proj1 (wf_unverified s Hwf d) (Hl d ltac:(by left))) as (p & pd & Hp & _).
    cbn. rewrite Hp. destruct (dial_at_peer s d p Hwf Hp) as [-> _]. cbn. change (list_fmap _ _ ?f ?x) with (f <$> x).
    rewrite IH; [done|]. intros x Hx. apply Hl. by right. }
  rewrite Hl; [done|]. intros d. by rewrite elem_of_elements.
Qed.

Lemma check_proofs_wf s di msg resp s' e : ps_wf s → check_proofs keccak256 s di msg resp = Ret (s', e) → ps_wf s'.
Proof.
  revert s. induction resp as [|r resp IH]; intros s Hwf; cbn [check_proofs]; [by intros [= <- _]|].
  destruct (RecoverSigningPubkey _ _) as [k| | |]; cbn [obind]; try done; [|by intros [= <- _]].
  destruct (AddVerifiedCredentials _ _ _ _ _ _) as [s1| | |] eqn:Ha; cbn [obind]; try done. apply IH. by eapply wf_AddVerifiedCredentials.
Qed.

Lemma challenge_all_wf h msg i peers h' : ps_wf (ho_peers h) → challenge_all h msg i peers = Ret h' → ps_wf (ho_peers h').
Proof.
  revert h i. induction peers as [|p peers IH]; intros h i Hwf; cbn [challenge_all]; [by intros [= <-]|].
  unfold ChallengePeerIdentity. destruct (lp_EnsureConnected p), (lp_ChallengeIdentity p); cbn [obind fst]; try (by apply IH).
  destruct (lp_ReceiveResponse p (msg i)) as [resp| | |]; cbn [obind]; try done; [|by apply IH].
  destruct (check_proofs _ _ _ _ _) as [[s' e]| | |] eqn:Hc; cbn [obind fst]; try done. apply IH. by eapply check_proofs_wf.
Qed.
End ProcessPeers.

(** A round over the known peers, from a consistent peer store: no nil pointer is met; each
    transport's known peers that can be connected to, and no others, are told exactly the
    known dial infos; exactly the unverified peers that can be reached and are ready are challenged; and whatever they
    answer, the peer store stays consistent. *)
Theorem process_peers {T} `{BadgerTxn T} `{JsonCodec} `{ProtoCodec} `{MapOrder} `{Secp256k1} `{Configs T} `{Derivation}
    keccak256 tpts (h : host (T := T)) :
  ps_wf (ho_peers h) →
  (∃ told, AnnouncePeers tpts (ho_peers h) = Ret told ∧
     ∀ d l, (d, l) ∈ told ↔ l = AllDialInfos (ho_peers h) ∧ d ∈ AllDialInfos (ho_peers h) ∧
       ∃ nt, nt ∈ tpts ∧ nt.1 = TransportName d ∧ ∃ peer, tp_NewPeerConn nt.2 (DialAddr d) = inl peer ∧ lp_EnsureConnected peer = None) ∧
  (∃ peers, to_challenge tpts (ho_peers h) = Ret peers ∧
     ∀ peer, peer ∈ peers ↔ ∃ d tpt, d ∈ ps_unverified (ho_peers h) ∧ Transport tpts (TransportName d) = Some tpt ∧
       tp_NewPeerConn tpt (DialAddr d) = inl peer ∧ lp_Ready peer = true) ∧
  ∀ msg h' told, processPeers keccak256 tpts h msg = Ret (h', told) → ps_wf (ho_peers h').
Proof.
  intros Hwf. split_and!.
  - unfold AnnouncePeers. rewrite (map_outcome_ok _ (λ nt, filter (λ d, TransportName d = nt.1) (AllDialInfos (ho_peers h)) ≫= announce_to nt))
      by (intros nt _; by apply announce_on_spec).
    cbn [obind]. eexists. split; [done|]. intros d l. rewrite list_elem_of_fmap. setoid_rewrite list_elem_of_In. setoid_rewrite in_concat.
    setoid_rewrite <- list_elem_of_In. split.
    + intros (d' & [= -> ->] & ds & Hds & Hd'). apply list_elem_of_fmap in Hds as (nt & -> & Hnt). apply list_elem_of_bind in Hd' as (x & Hx & Hin).
      apply list_elem_of_filter in Hin as [Hn Hall]. unfold announce_to in Hx. rewrite decide_False in Hx by (by intros ?).
      destruct (tp_NewPeerConn nt.2 (DialAddr x)) as [peer|] eqn:Hp; [|by apply elem_of_nil in Hx].
      destruct (lp_EnsureConnected peer) eqn:He; [by apply elem_of_nil in Hx|]. apply list_elem_of_singleton in Hx as ->. eauto 10.
    + intros (-> & Hd & nt & Hnt & Hn & peer & Hp & He). exists d. split; [done|]. eexists. split; [apply list_elem_of_fmap; eauto|].
      apply list_elem_of_bind. exists d. rewrite list_elem_of_filter. split; [|done]. unfold announce_to. rewrite decide_False by (by intros ?).
      rewrite Hp, He. by left.
  - rewrite to_challenge_spec by done. eexists. split; [done|]. intros peer. rewrite list_elem_of_bind. unfold challenge_one. split.
    + intros (d & Hin & Hd). rewrite elem_of_elements in Hd. destruct (Transport tpts (TransportName d)) as [tpt|] eqn:Ht; [|by apply elem_of_nil in Hin].
      destruct (tp_NewPeerConn tpt (DialAddr d)) as [p|] eqn:Hp; [|by apply elem_of_nil in Hin].
      destruct (lp_Ready p) eqn:Hr; [|by apply elem_of_nil in Hin]. apply list_elem_of_singleton in Hin as ->. eauto 10.
    + intros (d & tpt & Hd & Ht & Hp & Hr). exists d. rewrite elem_of_elements. split; [|done]. rewrite Ht, Hp, Hr. by left.
  - intros msg h' told. unfold processPeers. destruct (AnnouncePeers _ _) as [l| | |]; cbn [obind]; try done.
    destruct (to_challenge _ _) as [peers| | |]; cbn [obind]; try done.
    destruct (challenge_all _ _ _ _ _) as [h1| | |] eqn:Hc; cbn [obind]; try done. intros [= <- _]. by eapply challenge_all_wf.
Qed.

#[local] Existing Instance toy_curve.
#[local] Existing Instance signing_derivation.

Lemma process_peers_witness :
  ∃ peers, to_challenge one_transport known_store = Ret peers ∧ mkLive (mkHostPeer di_http []) true None None (λ _, Ret []) ∈ peers.
Proof.
  assert (ps_wf (ho_peers example_host)) as Hwf by (apply (wf_reachable (λ b, b)), known_reachable).
  destruct (process_peers (λ b, b) one_transport example_host Hwf) as (_ & (peers & Hp & Hin) & _). exists peers. split; [exact Hp|].
  apply Hin. exists di_http. eexists. split; [vm_decide|]. split; [reflexivity|]. split; reflexivity.
Defined.

(** ** Subscribing *)

Section Node.
Context {T : Type} `{BadgerTxn T} `{JsonCodec} `{ProtoCodec} `{MapOrder} `{Secp256k1} `{Configs T} `{Derivation}.
Context {St : Type} (NodeAt : St → Keypath → St) (copy : DBNode T → Keypath → outcome St).
Context (keccak256 : bytes → bytes) (open_db : bytes → outcome T).

(** The host with its readable subscriptions and their mutex. *)
Record node := mkNode { nd_host : host (T := T); nd_readable : gset bytes; nd_readableMu : bool }.

Definition with_host (n : node) (h : host) : node := mkNode h (nd_readable n) (nd_readableMu n).
Definition with_readable (n : node) (r : gset bytes) : node := mkNode (nd_host n) r (nd_readableMu n).
Definition with_mu (n : node) (b : bool) : node := mkNode (nd_host n) (nd_readable n) b.

(** [Lock], the body, and the deferred [Unlock]. *)
Definition locked {A} (f : node → outcome (node * A)) (n : node) : outcome (node * A) :=
  if nd_readableMu n then Running
  else let! r := f (with_mu n true) in Ret (with_mu r.1 false, r.2).

(** [save] is the result of writing the configuration file. *)
Definition subscribe (n : node) (stateURI : bytes) (save : option error) : outcome (node * option error) :=
  locked (λ n,
    let n := with_host n (config_Add (nd_host n) stateURI) in
    match save with
    | Some e => Ret (n, Some e)
    | None =>
        match EnsureController open_db (ho_hub (nd_host n)) stateURI with
        | Ret (hub, _) =>
            let n := with_host n (with_hub (nd_host n) hub) in
            if IsLocalStateURI stateURI then Ret (n, None) else Ret (with_readable n ({[stateURI]} ∪ nd_readable n), None)
        | Err e => Ret (n, Some e)
        | Panic => Panic
        | Running => Running
        end
    end) n.

(** The in-process subscription, with the identity [id], and what is enqueued for it at once. *)
Definition Subscribe (n : node) (id : nat) (stateURI : bytes) (type : SubscriptionType) (keypath : Keypath) (fetchHistory : option ID)
    (save : option error) : outcome (node * (wsub * list (SubscriptionMsg St) + error)) :=
  let! r := subscribe n stateURI save in
  match r with
  | (n, Some e) => Ret (n, inr e)
  | (n, None) =>
      let w := mkWsub id stateURI keypath type InProcessSub in
      let! o := HandleWritableSubscriptionOpened (nd_host n) w fetchHistory copy in
      Ret (with_host n o.1, inl (w, o.2))
  end.

Definition HandleReadableSubscriptionClosed (n : node) (stateURI : bytes) : outcome (node * unit) :=
  locked (λ n, Ret (with_readable n (nd_readable n ∖ {[stateURI]}), tt)) n.

(** [multiReaderSubscription.Close]: the pool is closed, the host is told, and the goroutines
    end. *)
Definition multiReader_Close (n : node) (stateURI : bytes) : outcome (node * unit) := HandleReadableSubscriptionClosed n stateURI.

Definition config_Remove (h : host (T := T)) (stateURI : bytes) : host := with_subscribed h ((λ u, u ∖ {[stateURI]}) <$> ho_subscribed h).

(** A state URI without readable subscription has the nil subscription, whose [Close] panics. *)
Definition Unsubscribe (n : node) (stateURI : bytes) (save : option error) : outcome (node * option error) :=
  locked (λ n,
    let n := with_host n (config_Remove (nd_host n) stateURI) in
    match save with
    | Some e => Ret (n, Some e)
    | None =>
        if decide (stateURI ∈ nd_readable n) then
          let! r := multiReader_Close n stateURI in
          Ret (with_readable r.1 (nd_readable r.1 ∖ {[stateURI]}), None)
        else Panic
    end) n.

(** [Close]: the writable subscriptions are collected and closed, then the readable ones. *)
Definition close_readable (n : node) (stateURI : bytes) : outcome node := let! r := multiReader_Close n stateURI in Ret r.1.
Definition host_Close (n : node) : outcome node :=
  let subs := concat (map_to_list (ho_writable (nd_host n))).*2 in
  let n := with_host n (foldl HandleWritableSubscriptionClosed (nd_host n) subs) in
  if nd_readableMu n then Running else fold_outcome close_readable n (elements (nd_readable n)).

(** *** What subscribing does *)

Lemma subscribe_ok n uri c :
  nd_readableMu n = false → EnsureController open_db (ho_hub (nd_host n)) uri = Ret c →
  subscribe n uri None = Ret (mkNode (with_hub (config_Add (nd_host n) uri) c.1)
    (if IsLocalStateURI uri then nd_readable n else {[uri]} ∪ nd_readable n) false, None).
Proof using Type.
  intros Hmu Hc. unfold subscribe, locked. rewrite Hmu. cbn [nd_host with_host with_mu config_Add ho_hub with_subscribed].
  change (ho_hub (config_Add (nd_host n) uri)) with (ho_hub (nd_host n)). rewrite Hc. destruct c as [hub ctrl].
  by destruct (IsLocalStateURI uri).
Qed.

(** C28: Subscribing to a state URI leaves the host with a controller for it and, unless the URI is
    local, with a readable subscription, once however often it is done; the mutex is free
    again.  The state URI is recorded in the configuration exactly when the configuration's
    set is not nil, as it is in a fresh configuration.  But [Unsubscribe] never succeeds: when
    there is no readable subscription it dereferences nil, and when there is one it waits
    for the mutex that it holds itself. *)
Theorem subscribe_unsubscribe n uri c :
  nd_readableMu n = false → EnsureController open_db (ho_hub (nd_host n)) uri = Ret c →
  (∃ n', subscribe n uri None = Ret (n', None) ∧ nd_readableMu n' = false ∧
     is_Some (h_controllers (ho_hub (nd_host n')) !! uri) ∧
     nd_readable n' = (if IsLocalStateURI uri then nd_readable n else {[uri]} ∪ nd_readable n) ∧
     ho_subscribed (nd_host n') = union {[uri]} <$> ho_subscribed (nd_host n) ∧
     (∃ n'', subscribe n' uri None = Ret (n'', None) ∧ nd_readable n'' = nd_readable n')) ∧
  Unsubscribe n uri None = (if decide (uri ∈ nd_readable n) then Running else Panic).
Proof using Type.
  intros Hmu Hc. split.
  - eexists. split; [by apply subscribe_ok|]. cbn [nd_readable nd_readableMu nd_host ho_hub with_hub]. assert (h_controllers c.1 !! uri = Some c.2) as Hin.
    { unfold EnsureController in Hc. destruct (h_controllers (ho_hub (nd_host n)) !! uri) as [ctrl|] eqn:Hl; [by injection Hc as <-|].
      destruct (start_controller open_db uri); cbn [obind] in Hc; try done. injection Hc as <-. cbn. by rewrite lookup_insert_eq. }
    split_and!; [done|by eexists|done|done|]. eexists. split; [apply (subscribe_ok _ _ (c.1, c.2)); [done|]|].
    + cbn. unfold EnsureController. by rewrite Hin.
    + cbn. destruct (IsLocalStateURI uri); [done|]. clear. set_solver.
  - unfold Unsubscribe, locked. rewrite Hmu. cbn [nd_host with_host with_mu nd_readable]. case_decide; [|done].
    unfold multiReader_Close, HandleReadableSubscriptionClosed, locked. cbn [nd_readableMu with_host with_mu]. done.
Qed.

(** *** Closing *)

Lemma close_readable_all n l : nd_readableMu n = false →
  fold_outcome close_readable n l = Ret (mkNode (nd_host n) (nd_readable n ∖ list_to_set l) false).
Proof using Type.
  revert n. induction l as [|u l IH]; intros n Hmu; cbn [fold_outcome].
  - destruct n as [h r mu]. cbn in *. subst mu. do 2 f_equal. clear. set_solver.
  - unfold close_readable at 1, multiReader_Close, HandleReadableSubscriptionClosed, locked. rewrite Hmu. cbn [obind fst with_mu with_readable nd_readable nd_host].
    rewrite IH by done. cbn. do 2 f_equal. clear. set_solver.
Qed.

Lemma closed_subs (h : host (T := T)) subs :
  let h' := foldl HandleWritableSubscriptionClosed h subs in
  (∀ uri l w, ho_writable h' !! uri = Some l → w ∈ l → (∃ l0, ho_writable h !! uri = Some l0 ∧ w ∈ l0) ∧
     ∀ x, x ∈ subs → ws_stateURI x = uri → ws_id x ≠ ws_id w).
Proof using Type.
  revert h. induction subs as [|x subs IH]; intros h h' uri l w Hl Hw; [split; [eauto|]; intros x Hx; by apply elem_of_nil in Hx|].
  destruct (IH _ uri l w Hl Hw) as [(l1 & Hl1 & Hw1) Hx]. unfold HandleWritableSubscriptionClosed in Hl1.
  destruct (ho_writable h !! ws_stateURI x) as [s|] eqn:Hs.
  - cbn [ho_writable with_writable] in Hl1. apply lookup_insert_Some in Hl1 as [[<- <-]|[Hne Hl1]].
    + apply list_elem_of_filter in Hw1 as [Hid Hin]. split; [eauto|]. intros y [->|Hy]%elem_of_cons Hu; [congruence|by apply Hx].
    + split; [eauto|]. intros y [->|Hy]%elem_of_cons Hu; [congruence|by apply Hx].
  - split; [eauto|]. intros y [->|Hy]%elem_of_cons Hu; [congruence|by apply Hx].
Qed.

(** [Close] ends when the mutex is free, and leaves neither a readable subscription nor a
    writable one: it closes what it collected, after it has released the mutexes.  (The
    subscriptions are registered under their own state URIs.) *)
Theorem host_close n :
  nd_readableMu n = false → (∀ uri l w, ho_writable (nd_host n) !! uri = Some l → w ∈ l → ws_stateURI w = uri) →
  ∃ n', host_Close n = Ret n' ∧ nd_readable n' = ∅ ∧ ∀ uri l, ho_writable (nd_host n') !! uri = Some l → l = [].
Proof using Type.
  intros Hmu Huri. unfold host_Close. cbn [nd_readableMu with_host]. rewrite Hmu. rewrite close_readable_all by done.
  eexists. split; [done|]. cbn [nd_readable nd_host with_host]. split; [clear; set_solver|]. intros uri l Hl.
  destruct l as [|w l]; [done|]. exfalso.
  destruct (closed_subs _ _ _ _ w Hl ltac:(by left)) as [(l0 & Hl0 & Hw) Hx]. refine (Hx w _ (Huri _ _ _ Hl0 Hw) eq_refl).
  apply list_elem_of_In, in_concat. exists l0. rewrite <- !list_elem_of_In. split; [|done].
  apply list_elem_of_fmap. exists (uri, l0). split; [done|]. by apply elem_of_map_to_list.
Qed.

(** ** A new state *)

(** The state for the subscribers: the copy, or an empty node when it cannot be copied. *)
Definition state_for_subscribers (copied : outcome St) (empty : St) : outcome St :=
  match copied with Ret st => Ret st | Err _ => Ret empty | Panic => Panic | Running => Running end.

Definition is_subscribed (h : host (T := T)) (stateURI : bytes) : bool :=
  match ho_subscribed h with Some u => bool_decide (stateURI ∈ u) | None => false end.

(** The genesis of a private state subscribes the host to it; the in-process subscription is
    closed at once.  When subscribing fails, there is none to close: the nil subscription's
    [Close] panics. *)
Definition subscribe_to_genesis (n : node) (id : nat) (tx : Tx) (save : option error) : outcome node :=
  if IsPrivate tx && bool_decide (tx_ID tx = GenesisTxID) && negb (is_subscribed (nd_host n) (tx_StateURI tx)) then
    let! r := Subscribe n id (tx_StateURI tx) 0%Z [] None save in
    match r with
    | (n, inl (w, _)) => Ret (with_host n (HandleWritableSubscriptionClosed (nd_host n) w))
    | (_, inr _) => Panic
    end
  else Ret n.

(** What is enqueued for the subscribers, and the peers that are put the transaction; the
    broadcasts to the providers and to the recipients share the set of peers. *)
Definition handleNewState (n : node) (id : nat) (tx : Tx) (copied : outcome St) (empty : St) (leaves : list ID) (order : list wsub)
    (providers : list host_peer) (conn : PeerDialInfo → option host_peer) (save : option error) :
    outcome (node * list (wsub * SubscriptionMsg St) * list host_peer) :=
  let! state := state_for_subscribers copied empty in
  let! n := subscribe_to_genesis n id tx save in
  let! subs := broadcastToWritableSubscribers NodeAt (nd_host n) tx state leaves order in
  let '(out, sent) := broadcastToStateURIProviders (nd_host n) tx providers ∅ in
  let! r := broadcastToPrivateRecipients (nd_host n) tx conn sent in
  Ret (n, subs, out ++ r.1).

Lemma Opened_without_parts (h : host (T := T)) w : ws_type w = 0%Z →
  HandleWritableSubscriptionOpened h w None copy =
  Ret (with_writable h (<[ws_stateURI w := let subs := default [] (ho_writable h !! ws_stateURI w) in
                          if decide (ws_id w ∈ ws_id <$> subs) then subs else subs ++ [w]]> (ho_writable h)), []).
Proof. intros Ht. unfold HandleWritableSubscriptionOpened. rewrite Ht. done. Qed.

(** The genesis transaction of a private state that the host does not know yet subscribes it
    to the state: afterwards it has a controller and, unless the URI is local, a readable
    subscription, and the in-process subscription is gone again.  When the configuration
    cannot be written, the goroutine panics instead. *)
Theorem new_private_state n id tx c :
  nd_readableMu n = false → IsPrivate tx = true → tx_ID tx = GenesisTxID → is_subscribed (nd_host n) (tx_StateURI tx) = false →
  EnsureController open_db (ho_hub (nd_host n)) (tx_StateURI tx) = Ret c →
  (∃ n', subscribe_to_genesis n id tx None = Ret n' ∧ is_Some (h_controllers (ho_hub (nd_host n')) !! tx_StateURI tx) ∧
     (IsLocalStateURI (tx_StateURI tx) = false → tx_StateURI tx ∈ nd_readable n') ∧
     ∀ w, w ∈ default [] (ho_writable (nd_host n') !! tx_StateURI tx) → ws_id w ≠ id) ∧
  (∀ e, subscribe_to_genesis n id tx (Some e) = Panic).
Proof using Type.
  intros Hmu Hp Hid Hs Hc. unfold subscribe_to_genesis. rewrite Hp, Hs, bool_decide_true by done. cbn [andb negb]. split.
  - unfold Subscribe. rewrite (subscribe_ok n (tx_StateURI tx) c Hmu Hc). cbn [obind]. rewrite Opened_without_parts by done. cbn [obind].
    eexists. split; [done|]. assert (h_controllers c.1 !! tx_StateURI tx = Some c.2) as Hin.
    { unfold EnsureController in Hc. destruct (h_controllers (ho_hub (nd_host n)) !! tx_StateURI tx) as [ctrl|] eqn:Hl; [by injection Hc as <-|].
      destruct (start_controller open_db (tx_StateURI tx)); cbn [obind] in Hc; try done. injection Hc as <-. cbn. by rewrite lookup_insert_eq. }
    unfold HandleWritableSubscriptionClosed. cbn [ws_stateURI ws_id nd_host nd_readable with_host fst ho_writable with_writable ho_hub with_hub].
    rewrite lookup_insert_eq. cbn [nd_host with_host ho_hub with_writable with_hub ho_writable nd_readable]. split_and!.
    + rewrite Hin. by eexists.
    + intros ->. clear. set_solver.
    + rewrite lookup_insert_eq. cbn [default from_option]. intros w [Hw _]%list_elem_of_filter. exact Hw.
  - intros e. unfold Subscribe, subscribe, locked. rewrite Hmu. done.
Qed.
End Node.

(** ** Blobs *)

Section Refs.
Context {T : Type} `{BadgerTxn T} `{Hashes} `{RefsJson} `{MapOrder}.

Definition AddRef (s : refStore T) (rd : reader) := StoreObject s rd.

(** A channel with a hundred places; [None] while the send waits. *)
Definition handleRefsNeeded (chRefsNeeded : list (list RefID)) (refs : list RefID) : option (list (list RefID)) :=
  if decide (length chRefsNeeded < 100) then Some (chRefsNeeded ++ [refs]) else None.

(** Every transport is asked to announce every reference; the results are only logged. *)
Definition announceRefs (tpts : transports) (refIDs : list RefID) : list (bytes * RefID * option error) :=
  tpts ≫= (λ nt, (λ r, (nt.1, r, tp_AnnounceRef nt.2 r)) <$> refIDs).

(** The goroutines of [fetchMissingRefs], one after the other; [providers] are those of each
    reference.  The store afterwards and what is announced. *)
Fixpoint fetchMissingRefs (s : refStore T) (providers : RefID → list provider) (refs : list RefID) : outcome (refStore T * list RefID) :=
  match refs with
  | [] => Ret (s, [])
  | refID :: refs =>
      let! r := FetchRef s (providers refID) in
      let! r' := fetchMissingRefs r.1 providers refs in
      Ret (r'.1, r.2 ++ r'.2)
  end.

(** One round of [periodicallyFetchMissingRefs]: a request is taken from the channel, or the
    ticker fires. *)
Inductive refs_event := RefsArrive | RefsTick.
Definition refs_round (s : refStore T) (chRefsNeeded : list (list RefID)) (providers : RefID → list provider) (ev : refs_event) :
    option (outcome (refStore T * list (list RefID) * list RefID)) :=
  let done ch r := let! r := r in Ret (r.1, ch, r.2) in
  match ev with
  | RefsArrive =>
      match chRefsNeeded with
      | [] => None
      | refs :: ch => Some (done ch (fetchMissingRefs s providers refs))
      end
  | RefsTick =>
      Some (match RefsNeeded s with
            | Ret [] | Err _ => Ret (s, chRefsNeeded, [])
            | Ret refs => done chRefsNeeded (fetchMissingRefs s providers refs)
            | Panic => Panic
            | Running => Running
            end)
  end.

(** What is fetched is announced on every transport, under both of its hashes. *)
Lemma announceRefs_all tpts refIDs name tpt r : (name, tpt) ∈ tpts → r ∈ refIDs → (name, r, tp_AnnounceRef tpt r) ∈ announceRefs tpts refIDs.
Proof. intros Ht Hr. apply list_elem_of_bind. exists (name, tpt). split; [|done]. apply list_elem_of_fmap. eauto. Qed.
End Refs.

(** ** Examples *)

#[local] Existing Instance plain_configs.

Definition example_node : node (T := gmap bytes bytes) := mkNode example_host ∅ false.

Lemma subscribe_unsubscribe_witness :
  ∃ n', subscribe (λ _, Ret ∅) example_node (str "new.com/room") None = Ret (n', None) ∧ nd_readable n' = {[str "new.com/room"]} ∪ ∅.
Proof.
  assert (∃ c, EnsureController (λ _, Ret ∅) (ho_hub (nd_host example_node)) (str "new.com/room") = Ret c) as [c Hc].
  { unfold EnsureController. destruct (h_controllers _ !! _); cbn; eauto. }
  destruct (subscribe_unsubscribe (λ _, Ret ∅) example_node (str "new.com/room") c eq_refl Hc) as [(n' & Hs & _ & _ & Hr & _) _].
  exists n'. split; [exact Hs|]. rewrite Hr. reflexivity.
Defined.

Lemma host_close_witness : ∃ n', host_Close (mkNode example_host {[str "new.com/room"]} false) = Ret n' ∧ nd_readable n' = ∅.
Proof.
  destruct (host_close (mkNode example_host {[str "new.com/room"]} false)) as (n' & H1 & H2 & _).
  - reflexivity.
  - intros uri l w Hl. cbn in Hl. by rewrite lookup_empty in Hl.
  - exists n'. split; [exact H1|exact H2].
Defined.

(** The genesis of a private state. *)
Definition private_genesis : Tx :=
  mkTx GenesisTxID [] [] (toy_address 0) [] (str "new.com/room") [] [toy_address 1] false [] TxStatusUnknown EmptyHash.

Lemma new_private_state_witness :
  ∃ n', subscribe_to_genesis (St := unit) (λ _ _, Ret tt) (λ _, Ret ∅) example_node 7 private_genesis None = Ret n' ∧ str "new.com/room" ∈ nd_readable n'.
Proof.
  assert (∃ c, EnsureController (λ _, Ret ∅) (ho_hub (nd_host example_node)) (tx_StateURI private_genesis) = Ret c) as [c Hc].
  { unfold EnsureController. destruct (h_controllers _ !! _); cbn; eauto. }
  destruct (new_private_state (St := unit) (λ _ _, Ret tt) (λ _, Ret ∅) example_node 7 private_genesis c) as [(n' & H1 & _ & H2 & _) _].
  - reflexivity.
  - reflexivity.
  - reflexivity.
  - reflexivity.
  - exact Hc.
  - exists n'. split; [exact H1|]. apply H2. reflexivity.
Defined.
