(* ===== verification/HttpRpc.v ===== *)
(** * The RPC server and its whitelist ([rpc.http.server.go], [rpc.http.client.go])

    The methods of the RPC service pass on to the host.  The service can stand behind a
    whitelist: a client signs a challenge, gets a token (JWT) for the address whose key signed
    it, and a request with a token of a permitted address is passed on.

    The JWT library is an interface, [JwtLib]; the challenge and the secret are what the random
    number generator returned.  The JSON bodies of the answers have a single string each, which
    is what the constructors of [rpc_answer] hold. *)

From S2P Require Import Prelude Types Keypath TreeTypes GoValue BadgerTxn DBNode Tx PatchParser TxStore Mempool Permissions Controller ControllerProps.
From S2P Require Import Hub RefStore RefTransfer PeerStore KeyStore HttpTx Sets Host Channels HostPeers.

(** ** Tokens *)

(** The claims that the server sets and reads; [None] when the claim is not a string. *)
Record claims := mkClaims { cl_address : option bytes; cl_nbf : Z }.

(** [SignedString] with HS256, and [Parse] with a key function that accepts HMAC only: it checks
    the signature and the time before which the token is not valid. *)
Class JwtLib := {
  jwt_SignedString : bytes → claims → outcome bytes;
  jwt_Parse : bytes → Z → bytes → outcome claims
}.

(** What the library documents: a signed token is a non-empty string without spaces and is parsed back
    from its time on. *)
Class JwtLaws `{JwtLib} : Prop := {
  jwt_total secret c : ∃ tok, jwt_SignedString secret c = Ret tok;
  jwt_parse_signed secret c tok now : jwt_SignedString secret c = Ret tok → (cl_nbf c ≤ now)%Z → jwt_Parse secret now tok = Ret c;
  jwt_clean secret c tok : jwt_SignedString secret c = Ret tok → TrimSpace tok = tok ∧ tok ≠ []
}.

(** ** The whitelist *)

Record whitelistMiddleware := mkMiddleware {
  mw_permittedAddrs : gset Address;
  mw_jwtSecret : bytes;
  mw_pendingAuthorizations : gset bytes
}.

Definition NewWhitelistMiddleware (permittedAddrs : list Address) (jwtSecret : bytes) : whitelistMiddleware :=
  mkMiddleware (list_to_set permittedAddrs) jwtSecret ∅.

(** An absent header is the empty string. *)
Record rpc_request := mkRpcRequest { rq_Method : bytes; rq_Response : bytes; rq_Challenge : bytes; rq_Authorization : bytes }.

Inductive rpc_answer :=
  | RError (status : Z)
  | RChallenge (challengeHex : bytes)
  | RJWT (token : bytes)
  | RNext.

Definition with_pendingAuths (mw : whitelistMiddleware) (p : gset bytes) : whitelistMiddleware :=
  mkMiddleware (mw_permittedAddrs mw) (mw_jwtSecret mw) p.

(** [time.Date(2015, 10, 10, 12, 0, 0, 0, time.UTC).Unix()] *)
Definition jwt_nbf : Z := 1444478400.

Definition bearer : bytes := str "Bearer ".

(** The code answers with [http.Error] on every error. *)
Definition or_status {A} (status : Z) (m : outcome A) (mw : whitelistMiddleware) (k : A → outcome (whitelistMiddleware * rpc_answer)) :
    outcome (whitelistMiddleware * rpc_answer) :=
  match m with Ret a => k a | Err _ => Ret (mw, RError status) | Panic => Panic | Running => Running end.

Section Middleware.
Context `{JwtLib} `{Secp256k1} (keccak256 : bytes → bytes).

Definition check_challenge (mw : whitelistMiddleware) (r : rpc_request) : outcome (whitelistMiddleware * rpc_answer) :=
  if decide (rq_Challenge r = []) then Ret (mw, RError 400)
  else
    or_status 400 (DecodeString (rq_Challenge r)) mw (λ challenge,
      if decide (challenge ∉ mw_pendingAuthorizations mw) then Ret (mw, RError 400)
      else
        or_status 400 (DecodeString (rq_Response r)) mw (λ sig,
          or_status 400 (RecoverSigningPubkey (HashBytes keccak256 challenge) sig) mw (λ sigpubkey,
            let mw := with_pendingAuths mw (mw_pendingAuthorizations mw ∖ {[challenge]}) in
            or_status 500 (jwt_SignedString (mw_jwtSecret mw) (mkClaims (Some (Address_Hex (PublicKey_Address sigpubkey))) jwt_nbf)) mw
              (λ tok, Ret (mw, RJWT tok))))).

(** The token of a request. *)
Definition request_token (r : rpc_request) : bytes := TrimSpace (drop (length bearer) (rq_Authorization r)).

(** [addrHex] is the empty string when the claim is missing: the code tests [err], which is
    nil there, instead of [ok]. *)
Definition check_token (mw : whitelistMiddleware) (r : rpc_request) (now : Z) : outcome (whitelistMiddleware * rpc_answer) :=
  if negb (has_prefix (rq_Authorization r) bearer) then Ret (mw, RError 400)
  else
    or_status 400 (jwt_Parse (mw_jwtSecret mw) now (request_token r)) mw (λ c,
      let addrHex := default [] (cl_address c) in
      or_status 400 (AddressFromHex addrHex) mw (λ addr,
        if decide (addr ∈ mw_permittedAddrs mw) then Ret (mw, RNext) else Ret (mw, RError 403))).

(** [ServeHTTP] with the result of [GenerateChallengeMsg] and the time. *)
Definition whitelist_ServeHTTP (mw : whitelistMiddleware) (r : rpc_request) (challenge : outcome bytes) (now : Z) : outcome (whitelistMiddleware * rpc_answer) :=
  if decide (rq_Method r = str "AUTHORIZE") then
    if decide (rq_Response r = []) then
      or_status 500 challenge mw (λ challenge,
        Ret (with_pendingAuths mw ({[challenge]} ∪ mw_pendingAuthorizations mw), RChallenge (EncodeToString challenge)))
    else check_challenge mw r
  else check_token mw r now.

(** ** The client *)

Definition authorize_request : rpc_request := mkRpcRequest (str "AUTHORIZE") [] [] [].

(** [Authorize]: the second request, from the answer to the first; [sign] is the client's
    key. *)
Definition answer_challenge (sign : Hash → outcome bytes) (challengeHex : bytes) : outcome rpc_request :=
  let! challenge := DecodeString challengeHex in
  let! sig := sign (HashBytes keccak256 challenge) in
  Ret (mkRpcRequest (str "AUTHORIZE") (EncodeToString sig) challengeHex []).

(** What the client's requests carry once it has a token. *)
Definition rpc_call (jwt : bytes) : rpc_request :=
  mkRpcRequest (str "POST") [] [] (if decide (0 < length jwt) then bearer ++ jwt else []).

(** ** What the whitelist lets through *)

(** The exchanges of a server, from the first. *)
Record rpc_exchange := mkRpcExchange { rx_request : rpc_request; rx_answer : rpc_answer }.

Inductive rpc_served (mw0 : whitelistMiddleware) : list rpc_exchange → whitelistMiddleware → Prop :=
  | rps_nil : rpc_served mw0 [] mw0
  | rps_one log mw r challenge now mw' a : rpc_served mw0 log mw → whitelist_ServeHTTP mw r challenge now = Ret (mw', a) →
      rpc_served mw0 (log ++ [mkRpcExchange r a]) mw'.

(** The server has handed out the challenge, and later accepted a signature of it by the key
    of the address, for which it issued the token. *)
Definition rpc_authorized (log : list rpc_exchange) (a : Address) (tok : bytes) : Prop :=
  ∃ l1 l2 l3 r r' challenge sig pk,
    log = l1 ++ mkRpcExchange r (RChallenge (EncodeToString challenge)) :: l2 ++ mkRpcExchange r' (RJWT tok) :: l3 ∧
    DecodeString (rq_Challenge r') = Ret challenge ∧ DecodeString (rq_Response r') = Ret sig ∧
    RecoverSigningPubkey (HashBytes keccak256 challenge) sig = Ret pk ∧ PublicKey_Address pk = a.

Lemma rpc_authorized_app log a tok x : rpc_authorized log a tok → rpc_authorized (log ++ [x]) a tok.
Proof.
  intros (l1 & l2 & l3 & r & r' & ch & sig & pk & -> & Hrest). exists l1, l2, (l3 ++ [x]), r, r', ch, sig, pk. split; [|done].
  rewrite <- (assoc_L (++)). cbn [app]. rewrite <- (assoc_L (++)). done.
Qed.

(** What a step of the middleware does. *)
Inductive mw_effect (mw : whitelistMiddleware) (r : rpc_request) (challenge : outcome bytes) (now : Z) : whitelistMiddleware → rpc_answer → Prop :=
  | mwe_same a : (∀ ch, a ≠ RChallenge ch) → (∀ t, a ≠ RJWT t) →
      (a = RNext → ∃ c addr, jwt_Parse (mw_jwtSecret mw) now (request_token r) = Ret c ∧
         AddressFromHex (default [] (cl_address c)) = Ret addr ∧ addr ∈ mw_permittedAddrs mw) → mw_effect mw r challenge now mw a
  | mwe_challenge ch : challenge = Ret ch →
      mw_effect mw r challenge now (with_pendingAuths mw ({[ch]} ∪ mw_pendingAuthorizations mw)) (RChallenge (EncodeToString ch))
  | mwe_token ch sig pk a : ch ∈ mw_pendingAuthorizations mw → DecodeString (rq_Challenge r) = Ret ch → DecodeString (rq_Response r) = Ret sig →
      RecoverSigningPubkey (HashBytes keccak256 ch) sig = Ret pk → (∀ c, a ≠ RChallenge c) → a ≠ RNext →
      (∀ tok, a = RJWT tok → jwt_SignedString (mw_jwtSecret mw) (mkClaims (Some (Address_Hex (PublicKey_Address pk))) jwt_nbf) = Ret tok) →
      mw_effect mw r challenge now (with_pendingAuths mw (mw_pendingAuthorizations mw ∖ {[ch]})) a.

Lemma serve_effect mw r challenge now mw' a : whitelist_ServeHTTP mw r challenge now = Ret (mw', a) → mw_effect mw r challenge now mw' a.
Proof.
  unfold whitelist_ServeHTTP. case_decide; [case_decide|].
  - unfold or_status. destruct challenge as [ch| | |]; try done; intros [= <- <-]; by constructor.
  - unfold check_challenge, or_status. case_decide; [intros [= <- <-]; by constructor|].
    destruct (DecodeString (rq_Challenge r)) as [ch| | |] eqn:Hch; try done; [|intros [= <- <-]; by constructor].
    case_decide as Hp; [intros [= <- <-]; by constructor|].
    destruct (DecodeString (rq_Response r)) as [sig| | |] eqn:Hs; try done; [|intros [= <- <-]; by constructor].
    destruct (RecoverSigningPubkey _ sig) as [pk| | |] eqn:Hpk; try done; [|intros [= <- <-]; by constructor].
    cbn [mw_jwtSecret with_pendingAuths]. destruct (jwt_SignedString _ _) as [tok| | |] eqn:Hj; try done;
      intros [= <- <-]; eapply mwe_token; try done; by intros ? [= <-].
  - unfold check_token, or_status. destruct (negb _); [intros [= <- <-]; by constructor|].
    destruct (jwt_Parse _ _ _) as [c| | |] eqn:Hj; try done; [|intros [= <- <-]; by constructor].
    destruct (AddressFromHex _) as [addr| | |] eqn:Ha; try done; [|intros [= <- <-]; by constructor].
    case_decide as Hin; intros [= <- <-]; constructor; try done. intros _. eauto.
Qed.

(** The server's part of the log: pending challenges were handed out, tokens were authorized. *)
Record rpc_log_ok (mw0 : whitelistMiddleware) (log : list rpc_exchange) (mw : whitelistMiddleware) : Prop := {
  rlo_secret : mw_jwtSecret mw = mw_jwtSecret mw0;
  rlo_permitted : mw_permittedAddrs mw = mw_permittedAddrs mw0;
  rlo_pending : ∀ ch, ch ∈ mw_pendingAuthorizations mw → ∃ l1 l2 r, log = l1 ++ mkRpcExchange r (RChallenge (EncodeToString ch)) :: l2;
  rlo_tokens : ∀ r tok, mkRpcExchange r (RJWT tok) ∈ log → ∃ a, rpc_authorized log a tok ∧
    jwt_SignedString (mw_jwtSecret mw0) (mkClaims (Some (Address_Hex a)) jwt_nbf) = Ret tok
}.

Lemma rpc_served_ok mw0 log mw : mw_pendingAuthorizations mw0 = ∅ → rpc_served mw0 log mw → rpc_log_ok mw0 log mw.
Proof.
  intros Hempty. induction 1 as [|log mw r challenge now mw' a _ IH Hs]; [split; try done; [rewrite Hempty; set_solver|intros r tok Hin; by apply elem_of_nil in Hin]|].
  destruct IH as [Hsec Hperm Hpend Htok].
  assert (∀ ch, (∃ l1 l2 r, log = l1 ++ mkRpcExchange r (RChallenge (EncodeToString ch)) :: l2) →
    ∃ l1 l2 r', log ++ [mkRpcExchange r a] = l1 ++ mkRpcExchange r' (RChallenge (EncodeToString ch)) :: l2) as Hold.
  { intros ch (l1 & l2 & r' & ->). exists l1, (l2 ++ [mkRpcExchange r a]), r'. by rewrite <- (assoc_L (++)). }
  assert (∀ r0 tok, mkRpcExchange r0 (RJWT tok) ∈ log → ∃ a', rpc_authorized (log ++ [mkRpcExchange r a]) a' tok ∧
    jwt_SignedString (mw_jwtSecret mw0) (mkClaims (Some (Address_Hex a')) jwt_nbf) = Ret tok) as Hold'.
  { intros r0 tok Hin. destruct (Htok r0 tok Hin) as (a' & Ha' & Hj). exists a'. split; [by apply rpc_authorized_app|done]. }
  destruct (serve_effect _ _ _ _ _ _ Hs) as [a Hnc Hnt _|chal _|ch sig pk a Hin Hch Hsig Hpk Hnc Hnn Hjwt]; split; cbn; auto.
  - intros r0 tok [?|Heq%list_elem_of_singleton]%elem_of_app; [by eapply Hold'|]. injection Heq as _ Heq. by destruct (Hnt tok).
  - intros ch [<-%elem_of_singleton|Hin]%elem_of_union; [|auto]. by exists log, [], r.
  - intros r0 tok [?|Heq%list_elem_of_singleton]%elem_of_app; [by eapply Hold'|]. by injection Heq.
  - intros ch' [Hin' _]%elem_of_difference. auto.
  - intros r0 tok [?|Heq%list_elem_of_singleton]%elem_of_app; [by eapply Hold'|]. injection Heq as -> <-.
    exists (PublicKey_Address pk). rewrite <- Hsec. split; [|by apply Hjwt].
    destruct (Hpend ch Hin) as (l1 & l2 & r' & ->). exists l1, l2, [], r', r, ch, sig, pk. split_and!; try done. by rewrite <- (assoc_L (++)).
Qed.
End Middleware.

(** C17: The whitelist is sound: when the server passes a request on, whatever it was asked before,
    it has handed out a challenge and then accepted a signature of that challenge by the key
    of a permitted address, and the request carries the token that it issued for it.  The
    assumption is that the request does not carry a forged token: if the secret verifies it,
    the server has issued it. *)
Theorem whitelist_sound `{JwtLib} `{!JwtLaws} `{Secp256k1} keccak256 permitted secret log mw r challenge now mw' :
  rpc_served keccak256 (NewWhitelistMiddleware permitted secret) log mw →
  (∀ c, jwt_Parse secret now (request_token r) = Ret c → ∃ r', mkRpcExchange r' (RJWT (request_token r)) ∈ log) →
  whitelist_ServeHTTP keccak256 mw r challenge now = Ret (mw', RNext) → (jwt_nbf ≤ now)%Z →
  ∃ a, a ∈ permitted ∧ rpc_authorized keccak256 log a (request_token r).
Proof.
  intros Hs Hunf Hnext Hnow. apply rpc_served_ok in Hs as [Hsec Hperm _ Htok]; [|done]. cbn in Hsec, Hperm, Htok.
  apply serve_effect in Hnext. inversion Hnext as [a' _ _ Hn Hmw Ha'| |]; [|done].
  destruct (Hn eq_refl) as (c & addr & Hp & Ha & Hin). rewrite <- Hmw in Hp, Hin. rewrite Hsec in Hp. destruct (Hunf _ Hp) as (r' & Hr').
  destruct (Htok _ _ Hr') as (a & Hauth & Hj). exists a. split; [|done].
  rewrite (jwt_parse_signed _ _ _ now Hj Hnow) in Hp. injection Hp as <-. cbn [cl_address default from_option] in Ha.
  destruct Hauth as (_ & _ & _ & _ & _ & _ & _ & pk & _ & _ & _ & _ & <-). rewrite Hperm, elem_of_list_to_set in Hin.
  unfold Address_Hex, AddressFromHex, id in Ha. rewrite decode_encode_hex in Ha. cbn [obind] in Ha.
  rewrite array_from_id in Ha by apply length_array_from. by injection Ha as ->.
Qed.

(** A client whose address is permitted gets in: it asks for a challenge, answers it with its
    signature, and its requests are passed on, whatever else the server is asked meanwhile
    about other challenges; the answer to the challenge is accepted once. *)
Theorem whitelist_complete `{JwtLib} `{!JwtLaws} `{Secp256k1} keccak256 mw sign challenge sig pk now :
  sign (HashBytes keccak256 challenge) = Ret sig → RecoverSigningPubkey (HashBytes keccak256 challenge) sig = Ret pk →
  PublicKey_Address pk ∈ mw_permittedAddrs mw → challenge ≠ [] → sig ≠ [] → (jwt_nbf ≤ now)%Z →
  ∃ mw1 r mw2 tok,
    whitelist_ServeHTTP keccak256 mw authorize_request (Ret challenge) now = Ret (mw1, RChallenge (EncodeToString challenge)) ∧
    answer_challenge keccak256 sign (EncodeToString challenge) = Ret r ∧
    (∀ mw1', challenge ∈ mw_pendingAuthorizations mw1' → mw_jwtSecret mw1' = mw_jwtSecret mw →
       ∃ mw2', whitelist_ServeHTTP keccak256 mw1' r (Ret []) now = Ret (mw2', RJWT tok)) ∧
    whitelist_ServeHTTP keccak256 mw1 r (Ret []) now = Ret (mw2, RJWT tok) ∧
    whitelist_ServeHTTP keccak256 mw2 r (Ret []) now = Ret (mw2, RError 400) ∧
    whitelist_ServeHTTP keccak256 mw2 (rpc_call tok) (Ret []) now = Ret (mw2, RNext).
Proof.
  intros Hsign Hpk Hperm Hc0 Hs0 Hnow. destruct (jwt_total (mw_jwtSecret mw) (mkClaims (Some (Address_Hex (PublicKey_Address pk))) jwt_nbf)) as [tok Htok].
  assert (∀ bs, bs ≠ [] → EncodeToString bs ≠ []) as Hne by (by intros []).
  set (r := mkRpcRequest (str "AUTHORIZE") (EncodeToString sig) (EncodeToString challenge) []).
  assert (∀ mw1', challenge ∈ mw_pendingAuthorizations mw1' → mw_jwtSecret mw1' = mw_jwtSecret mw →
    whitelist_ServeHTTP keccak256 mw1' r (Ret []) now = Ret (with_pendingAuths mw1' (mw_pendingAuthorizations mw1' ∖ {[challenge]}), RJWT tok)) as Haccept.
  { intros mw1' Hin Hsec. unfold whitelist_ServeHTTP. rewrite decide_True by done. rewrite decide_False by (by apply Hne).
    unfold check_challenge, or_status. cbn [rq_Challenge rq_Response r]. rewrite decide_False by (by apply Hne).
    rewrite !decode_encode_hex. rewrite decide_False by (intros Hn; by apply Hn). rewrite Hpk. cbn [mw_jwtSecret with_pendingAuths]. by rewrite Hsec, Htok. }
  set (mw1 := with_pendingAuths mw ({[challenge]} ∪ mw_pendingAuthorizations mw)).
  exists mw1, r, (with_pendingAuths mw1 (mw_pendingAuthorizations mw1 ∖ {[challenge]})), tok. split_and!.
  - done.
  - unfold answer_challenge. rewrite decode_encode_hex. cbn [obind]. by rewrite Hsign.
  - intros mw1' Hin Hsec. eexists. by apply Haccept.
  - apply Haccept; [|done]. cbn. set_solver.
  - unfold whitelist_ServeHTTP. rewrite decide_True by done. rewrite decide_False by (by apply Hne).
    unfold check_challenge, or_status. cbn [rq_Challenge rq_Response r]. rewrite decide_False by (by apply Hne).
    rewrite decode_encode_hex. rewrite decide_True; [done|]. cbn. set_solver.
  - destruct (jwt_clean _ _ _ Htok) as [Htrim Ht]. unfold whitelist_ServeHTTP. rewrite decide_False by done. unfold check_token, rpc_call. cbn [rq_Authorization].
    rewrite decide_True by (destruct tok; [done|cbn; lia]). assert (has_prefix (bearer ++ tok) bearer = true) as -> by (apply has_prefix_spec; by exists tok).
    cbn [negb]. unfold request_token. cbn [rq_Authorization]. rewrite drop_app_length, Htrim. unfold or_status. cbn [mw_jwtSecret with_pendingAuths mw1].
    rewrite (jwt_parse_signed _ _ _ now Htok Hnow). cbn [cl_address default from_option]. unfold id, AddressFromHex, Address_Hex.
    rewrite decode_encode_hex. cbn [obind]. rewrite array_from_id by apply length_array_from. by rewrite decide_True.
Qed.

(** ** The methods of the service *)

Section Service.
Context {T : Type} `{BadgerTxn T} `{JsonCodec} `{ProtoCodec} `{MapOrder} `{Secp256k1} `{Configs T} `{Derivation} `{UserCodec}.
Context {St : Type} (copy : DBNode T → Keypath → outcome St) (keccak256 : bytes → bytes) (open_db : bytes → outcome T).

Definition ErrMissingStateURI : error := ErrOther "missing StateURI".

Record RPCSubscribeArgs := mkSubscribeArgs { sa_StateURI : bytes; sa_Txs : bool; sa_States : bool; sa_Keypath : bytes }.

Definition rpc_subscription_type (args : RPCSubscribeArgs) : SubscriptionType :=
  Z.lor (if sa_Txs args then SubscriptionType_Txs else 0) (if sa_States args then SubscriptionType_States else 0).

(** The host subscribes; the in-process subscription is closed at once. *)
Definition rpc_Subscribe (n : node (T := T)) (id : nat) (args : RPCSubscribeArgs) (save : option error) : outcome (node * option error) :=
  if decide (sa_StateURI args = []) then Ret (n, Some ErrMissingStateURI)
  else
    let! r := Subscribe copy open_db n id (sa_StateURI args) (rpc_subscription_type args) (sa_Keypath args) None save in
    match r with
    | (n, inr e) => Ret (n, Some e)
    | (n, inl (w, _)) => Ret (with_host n (HandleWritableSubscriptionClosed (nd_host n) w), None)
    end.

Definition rpc_Identities (h : host (T := T)) : outcome (list (Address * bool)) :=
  let! ids := Identities (ho_keys h) in Ret ((λ i, (Identity_Address i, id_Public i)) <$> ids).

Definition rpc_NewIdentity (h : host (T := T)) (public : bool) (enckeys : EncryptingKeypair) : outcome (BadgerKeyStore * (Address + error)) :=
  let! r := NewIdentity (ho_keys h) public enckeys in
  Ret (r.1, match r.2 with inl i => inl (Identity_Address i) | inr e => inr e end).

Definition rpc_AddPeer (h : host (T := T)) (task : PeriodicTask) (transportName dialAddr : bytes) : host * PeriodicTask :=
  AddPeer keccak256 h task (mkDialInfo transportName dialAddr).

Definition rpc_KnownStateURIs (h : host (T := T)) : list bytes := hub_KnownStateURIs (ho_hub h).

Definition rpc_SendTx (h : host (T := T)) (tx : Tx) : outcome (host * option error) := SendTx keccak256 open_db h tx.
End Service.

(** ** Examples *)

#[local] Existing Instance toy_curve.

(** A library whose tokens are numbers in binary. *)
Definition claims_code (c : claims) : positive := encode (cl_address c, cl_nbf c).
Definition claims_of (p : positive) : option claims := (λ x : option bytes * Z, mkClaims x.1 x.2) <$> decode p.
Fixpoint bits_of (p : positive) : bytes := match p with xH => [] | xO p => x00 :: bits_of p | xI p => x01 :: bits_of p end.
Fixpoint of_bits (bs : bytes) : positive := match bs with [] => xH | b :: bs => if decide (b = x00) then xO (of_bits bs) else xI (of_bits bs) end.
Lemma of_bits_of p : of_bits (bits_of p) = p.
Proof. induction p as [p IH|p IH|]; cbn; rewrite ?IH; done. Qed.
Definition token_bytes (c : claims) : bytes := x02 :: bits_of (claims_code c).

#[local] Instance binary_jwt : JwtLib := {
  jwt_SignedString _ c := Ret (EncodeToString (token_bytes c));
  jwt_Parse _ now tok :=
    let! n := DecodeString tok in
    match claims_of (of_bits (tail n)) with
    | Some c => if decide (cl_nbf c ≤ now)%Z then Ret c else Err (ErrOther "not valid yet")
    | None => Err (ErrOther "bad token")
    end
}.

#[local] Instance binary_jwt_laws : JwtLaws.
Proof.
  split.
  - intros secret c. by eexists.
  - intros secret c tok now Htok Hnow. change (Ret (EncodeToString (token_bytes c)) = Ret tok) in Htok. assert (tok = EncodeToString (token_bytes c)) as -> by congruence. cbn [jwt_Parse binary_jwt]. rewrite decode_encode_hex. cbn [obind].
    unfold token_bytes. cbn [tail]. rewrite of_bits_of. unfold claims_of, claims_code.
    rewrite decode_encode. cbn. rewrite decide_True by done. by destruct c.
  - intros secret c tok Htok. change (Ret (EncodeToString (token_bytes c)) = Ret tok) in Htok. assert (tok = EncodeToString (token_bytes c)) as -> by congruence. split; [apply TrimSpace_hex|done].
Qed.

Definition rpc_key : Address := take 20 (id_of 5).
Definition rpc_mw : whitelistMiddleware := NewWhitelistMiddleware [rpc_key] (str "secret").

Lemma rpc_key_address : PublicKey_Address (rpc_key : @PublicKey toy_curve) = rpc_key.
Proof. vm_compute. reflexivity. Qed.

Lemma whitelist_complete_witness :
  ∃ mw2 tok, whitelist_ServeHTTP (λ b, b) mw2 (rpc_call tok) (Ret []) jwt_nbf = Ret (mw2, RNext).
Proof.
  destruct (whitelist_complete (λ b, b) rpc_mw (λ _, Ret rpc_key) (str "challenge") rpc_key (rpc_key : @PublicKey toy_curve) jwt_nbf) as (_ & _ & mw2 & tok & _ & _ & _ & _ & _ & H).
  - reflexivity.
  - reflexivity.
  - rewrite rpc_key_address. cbn. set_solver.
  - discriminate.
  - discriminate.
  - lia.
  - exists mw2, tok. exact H.
Defined.

(** A client that authorizes and calls. *)
Definition rpc_tok : bytes := EncodeToString (token_bytes (mkClaims (Some (Address_Hex rpc_key)) jwt_nbf)).
Definition rpc_answered : rpc_request := mkRpcRequest (str "AUTHORIZE") (EncodeToString rpc_key) (EncodeToString (str "challenge")) [].
Definition rpc_log : list rpc_exchange :=
  [mkRpcExchange authorize_request (RChallenge (EncodeToString (str "challenge"))); mkRpcExchange rpc_answered (RJWT rpc_tok)].

Lemma rpc_log_served : rpc_served (λ b, b) rpc_mw rpc_log (with_pendingAuths rpc_mw (({[str "challenge"]} ∪ ∅) ∖ {[str "challenge"]})).
Proof.
  change rpc_log with (([] ++ [mkRpcExchange authorize_request (RChallenge (EncodeToString (str "challenge")))]) ++ [mkRpcExchange rpc_answered (RJWT rpc_tok)]).
  eapply (rps_one _ _ _ (with_pendingAuths rpc_mw ({[str "challenge"]} ∪ ∅)) rpc_answered (Ret []) 0).
  - eapply (rps_one _ _ _ rpc_mw authorize_request (Ret (str "challenge")) 0); [apply rps_nil|reflexivity].
  - unfold whitelist_ServeHTTP. rewrite decide_True by done. rewrite decide_False by done.
    unfold check_challenge, or_status. cbn [rq_Challenge rq_Response rpc_answered]. rewrite decide_False by done.
    rewrite !decode_encode_hex. rewrite decide_False by (intros Hn; apply Hn; cbn; set_solver).
    cbn [RecoverSigningPubkey SigToPub toy_curve jwt_SignedString binary_jwt]. unfold RecoverSigningPubkey. cbn [SigToPub toy_curve].
    cbn [jwt_SignedString binary_jwt]. unfold rpc_tok. by rewrite rpc_key_address.
Qed.

Lemma whitelist_sound_witness : ∃ a, a ∈ [rpc_key] ∧ rpc_authorized (λ b, b) rpc_log a (request_token (rpc_call rpc_tok)).
Proof.
  assert (0 < length rpc_tok) as Hl by (unfold rpc_tok; rewrite length_EncodeToString; unfold token_bytes; cbn [length]; lia).
  assert (request_token (rpc_call rpc_tok) = rpc_tok) as Htok.
  { unfold request_token, rpc_call. rewrite decide_True by exact Hl. cbn [rq_Authorization]. rewrite drop_app_length. apply TrimSpace_hex. }
  assert (jwt_Parse (str "secret") jwt_nbf rpc_tok = Ret (mkClaims (Some (Address_Hex rpc_key)) jwt_nbf)) as Hparse.
  { apply (jwt_parse_signed (str "secret") (mkClaims (Some (Address_Hex rpc_key)) jwt_nbf)); [reflexivity|cbn; lia]. }
  apply (whitelist_sound (λ b, b) [rpc_key] (str "secret") rpc_log _ (rpc_call rpc_tok) (Ret []) jwt_nbf
    (with_pendingAuths rpc_mw (({[str "challenge"]} ∪ ∅) ∖ {[str "challenge"]})) rpc_log_served).
  - intros c _. rewrite Htok. exists rpc_answered. unfold rpc_log. by right; left.
  - unfold whitelist_ServeHTTP. rewrite decide_False by done. unfold check_token.
    assert (has_prefix (rq_Authorization (rpc_call rpc_tok)) bearer = true) as ->.
    { unfold rpc_call. rewrite decide_True by exact Hl. apply has_prefix_spec. by exists rpc_tok. }
    cbn [negb]. rewrite Htok. change (mw_jwtSecret (with_pendingAuths rpc_mw _)) with (str "secret"). rewrite Hparse.
    unfold or_status. cbn [cl_address default from_option]. unfold id, AddressFromHex, Address_Hex. rewrite decode_encode_hex. cbn [obind].
    rewrite array_from_id by reflexivity. rewrite decide_True; [done|]. cbn. set_solver.
  - lia.
Defined.
