(* ===== verification/HttpStream.v ===== *)
(** * Subscriptions over HTTP ([transport.http.go])

    A peer subscribes with a GET request; the server keeps the response open and writes every
    message as an event, a line [data: ...] and an empty line.  The reader of the response
    ([httpReadableSubscription.Read]) makes a new buffered reader for each message.  A browser
    can subscribe over a web socket instead.

    The connection is the list of what its reads return, one after the other: where the network
    cuts the bytes is up to the environment.  JSON of messages is the interface [StreamJson]. *)

From S2P Require Import Prelude Types Keypath TreeTypes GoValue BadgerTxn DBNode Tx TxStore Mempool Permissions Controller ControllerProps.
From S2P Require Import Hub PeerStore KeyStore HttpTx HttpSession Host Subscriptions.

(** ** Reading lines *)

Abbreviation stream := (list bytes).

(** [bufio.NewReader(s).ReadBytes(c)]: the line with its delimiter, what the reader has
    buffered behind it, and what is left of the connection; [None] at the end of the stream. *)
Fixpoint ReadBytes (c : byte) (s : stream) : option (bytes * bytes * stream) :=
  match s with
  | [] => None
  | piece :: s =>
      match index_byte c piece with
      | Some i => Some (take (S i) piece, drop (S i) piece, s)
      | None => match ReadBytes c s with Some (line, buffered, s) => Some (piece ++ line, buffered, s) | None => None end
      end
  end.

Definition TrimPrefix (s p : bytes) : bytes := if has_prefix s p then drop (length p) s else s.

(** [bytes.Trim] with a set of bytes. *)
Fixpoint trim_left_set (cut : list byte) (s : bytes) : bytes :=
  match s with [] => [] | b :: s' => if decide (b ∈ cut) then trim_left_set cut s' else s end.
Definition Trim (cut : list byte) (s : bytes) : bytes := reverse (trim_left_set cut (reverse (trim_left_set cut s))).

(** ** Messages *)

(** [SubscriptionMsg] as it is decoded; a message that carries a state is not decoded at all,
    because [tree.Node] is an interface. *)
Record wire_msg := mkWire { wm_Tx : option Tx; wm_Encrypted : option EncryptedTx; wm_Leaves : list ID }.

Class StreamJson (St : Type) := {
  stream_Marshal : sub_msg St → outcome bytes;
  stream_Unmarshal : bytes → outcome wire_msg
}.

Definition ids_ok (l : list ID) : Prop := Forall (λ i, length i = id_length) l.
Definition etx_ok (e : EncryptedTx) : Prop := length (etx_TxID e) = id_length ∧ length (etx_RecipientAddress e) = address_length.

(** [encoding/json]: an object on one line, which is read back; the empty text is an error. *)
Class StreamJsonLaws {St} `{TxJson} `{StreamJson St} : Prop := {
  mj_text m bs : stream_Marshal m = Ret bs → newline ∉ bs ∧ ∃ b, bs = "{"%byte :: b ++ ["}"%byte];
  mj_clear tx leaves : tx_json_ok tx → ids_ok leaves →
    ∃ bs, stream_Marshal (ClearMsg (Some tx) None leaves) = Ret bs ∧ stream_Unmarshal bs = Ret (mkWire (Some tx) None leaves);
  mj_sealed e leaves : etx_ok e → ids_ok leaves →
    ∃ bs, stream_Marshal (SealedMsg e leaves) = Ret bs ∧ stream_Unmarshal bs = Ret (mkWire None (Some e) leaves);
  mj_empty : ∃ e, stream_Unmarshal [] = Err e
}.

Definition data_prefix : bytes := str "data: ".
Definition sse_event (bs : bytes) : bytes := data_prefix ++ bs ++ [newline; newline].

Definition ErrStreamEOF : error := ErrOther "EOF".
Definition ErrNoEncryptedTx : error := ErrOther "no encrypted tx sent by http peer".
Definition ErrNoTx : error := ErrOther "no tx sent by http peer".
Definition ErrShortWrite : error := ErrOther "error writing message to http peer: didn't write enough".

Section Stream.
Context {St : Type} `{StreamJson St} `{TxJson} `{Box} (ks : BadgerKeyStore).

(** [httpWritableSubscription.Put]: the event that is written. *)
Definition httpSub_event (p : wire_peer) (m : SubscriptionMsg St) (nonce : bytes) : outcome bytes :=
  let! msg := httpSub_Put ks p (sm_Tx m) (sm_State m) (sm_Leaves m) nonce in
  let! bs := stream_Marshal msg in
  Ret (sse_event bs).

(** [wsWritableSubscription.Put]: the text message that is written. *)
Definition wsSub_Put (m : SubscriptionMsg St) : outcome bytes :=
  let! bs := stream_Marshal (ClearMsg (sm_Tx m) (sm_State m) (sm_Leaves m)) in Ret (bs ++ [newline]).

Definition parse_event (private : bool) (line : bytes) : outcome wire_msg :=
  let bs := Trim [newline; " "%byte] (TrimPrefix line data_prefix) in
  let! msg := stream_Unmarshal (St := St) bs in
  if private then
    match wm_Encrypted msg with
    | None => Err ErrNoEncryptedTx
    | Some e =>
        let! bs := OpenMessageFrom ks (etx_RecipientAddress e) (Some (EncryptingPublicKeyFromBytes (etx_SenderPublicKey e))) (etx_EncryptedPayload e) in
        let! tx := tx_UnmarshalJSON bs in
        Ret (mkWire (Some tx) (Some e) (wm_Leaves msg))
    end
  else match wm_Tx msg with None => Err ErrNoTx | Some _ => Ret msg end.

(** [httpReadableSubscription.Read]: the message or the error, and what is left of the
    connection: the buffer of the reader is gone. *)
Definition sse_Read (private : bool) (s : stream) : outcome wire_msg * stream :=
  match ReadBytes newline s with
  | None => (Err ErrStreamEOF, [])
  | Some (line, _, s) => (parse_event private line, s)
  end.

(** The results of [n] reads. *)
Fixpoint sse_reads (private : bool) (n : nat) (s : stream) : list (outcome wire_msg) * stream :=
  match n with
  | O => ([], s)
  | S n => let '(r, s) := sse_Read private s in let '(rs, s) := sse_reads private n s in (r :: rs, s)
  end.
End Stream.

(** ** Lemmas on lines *)

Lemma ReadBytes_pieces c (ps : stream) last rest a b :
  Forall (λ p, c ∉ p) ps → last = a ++ c :: b → c ∉ a →
  ReadBytes c (ps ++ last :: rest) = Some (concat ps ++ a ++ [c], b, rest).
Proof.
  intros Hps -> Ha. induction Hps as [|p ps Hp _ IH]; cbn [app ReadBytes concat].
  - rewrite index_byte_app by done. do 2 f_equal. f_equal.
    + rewrite (cons_middle c a b), app_assoc. rewrite take_app_length'; [done|]. rewrite length_app. cbn. lia.
    + rewrite (cons_middle c a b), app_assoc. rewrite drop_app_length'; [done|]. rewrite length_app. cbn. lia.
  - apply index_byte_None in Hp. rewrite Hp, IH. by rewrite <- !app_assoc.
Qed.

Lemma ReadBytes_first c a b rest : c ∉ a → ReadBytes c ((a ++ c :: b) :: rest) = Some (a ++ [c], b, rest).
Proof. by apply (ReadBytes_pieces c [] (a ++ c :: b) rest a b). Qed.

Lemma trim_left_set_stop cut b s : b ∉ cut → trim_left_set cut (b :: s) = b :: s.
Proof. intros Hb. cbn. by rewrite decide_False. Qed.

(** Trimming stops at the braces of an object. *)
Lemma Trim_object cut b tail :
  "{"%byte ∉ cut → "}"%byte ∉ cut → Forall (λ c, c ∈ cut) tail →
  Trim cut (("{"%byte :: b ++ ["}"%byte]) ++ tail) = "{"%byte :: b ++ ["}"%byte].
Proof.
  intros Hl Hr Ht. unfold Trim. cbn [app]. rewrite trim_left_set_stop by done.
  assert (∀ t s, Forall (λ c, c ∈ cut) t → trim_left_set cut (t ++ s) = trim_left_set cut s) as Hskip.
  { intros t s Hall. induction Hall as [|x t Hx _ IH]; [done|]. cbn. by rewrite decide_True. }
  rewrite app_comm_cons, reverse_app, Hskip by (by apply Forall_reverse).
  rewrite app_comm_cons, reverse_app. cbn [app]. rewrite reverse_singleton. cbn [app]. rewrite trim_left_set_stop by done.
  rewrite reverse_cons, reverse_involutive. done.
Qed.

Lemma Trim_line b tail :
  Forall (λ c, c ∈ [newline; " "%byte]) tail → Trim [newline; " "%byte] (("{"%byte :: b ++ ["}"%byte]) ++ tail) = "{"%byte :: b ++ ["}"%byte].
Proof. apply Trim_object; vm_decide. Qed.
Lemma Trim_line_nil b : Trim [newline; " "%byte] ("{"%byte :: b ++ ["}"%byte]) = "{"%byte :: b ++ ["}"%byte].
Proof. rewrite <- (Trim_line b []) at 2 by constructor. by rewrite app_nil_r. Qed.

(** An event arrives in pieces; the last one has both newlines. *)
Definition pieces_of (event : bytes) (ps : stream) : Prop :=
  ∃ qs last, ps = qs ++ [last] ∧ concat ps = event ∧ [newline; newline] `suffix_of` last.

Lemma concat_snoc {A} (ls : list (list A)) l : concat (ls ++ [l]) = concat ls ++ l.
Proof. by rewrite concat_app, concat_cons, concat_nil, app_nil_r. Qed.

Lemma suffix_app_inv {A} (x y z w : list A) : x ++ z = y ++ w ++ z → x = y ++ w.
Proof. rewrite app_assoc. apply app_inj_2. done. Qed.

Section Lines.
Context {St : Type} `{HM : StreamJson St} `{HT : TxJson} `{HL : !StreamJsonLaws (St := St)} `{Box} (ks : BadgerKeyStore).

Lemma parse_event_line private m bs tail :
  stream_Marshal m = Ret bs → Forall (λ c, c ∈ [newline; " "%byte]) tail →
  parse_event (St := St) ks private (data_prefix ++ bs ++ tail) = parse_event (St := St) ks private (data_prefix ++ bs).
Proof.
  intros Hm Ht. destruct (mj_text m bs Hm) as (_ & b & ->). unfold parse_event, TrimPrefix. rewrite !has_prefix_app, !drop_app_length.
  by rewrite Trim_line, Trim_line_nil by done.
Qed.

Lemma parse_event_msg private m bs :
  stream_Marshal m = Ret bs →
  parse_event (St := St) ks private (data_prefix ++ bs) =
    let! msg := stream_Unmarshal (St := St) bs in
    if private : bool then
      match wm_Encrypted msg with
      | None => Err ErrNoEncryptedTx
      | Some e =>
          let! bs := OpenMessageFrom ks (etx_RecipientAddress e) (Some (EncryptingPublicKeyFromBytes (etx_SenderPublicKey e))) (etx_EncryptedPayload e) in
          let! tx := tx_UnmarshalJSON bs in
          Ret (mkWire (Some tx) (Some e) (wm_Leaves msg))
      end
    else match wm_Tx msg with None => Err ErrNoTx | Some _ => Ret msg end.
Proof.
  intros Hm. destruct (mj_text m bs Hm) as (_ & b & ->). unfold parse_event, TrimPrefix. rewrite has_prefix_app, drop_app_length.
  by rewrite Trim_line_nil.
Qed.

Lemma newline_not_data bs : newline ∉ bs → newline ∉ data_prefix ++ bs.
Proof. intros Hb [Hin|Hin]%elem_of_app; [|done]. revert Hin. vm_decide. Qed.

(** A read of an event in pieces takes exactly the event off the connection. *)
Lemma sse_Read_pieces private m bs ps rest :
  stream_Marshal m = Ret bs → pieces_of (sse_event bs) ps →
  sse_Read (St := St) ks private (ps ++ rest) = (parse_event (St := St) ks private (data_prefix ++ bs), rest).
Proof.
  intros Hm (qs & last & -> & Hc & (a & ->)). destruct (mj_text m bs Hm) as (Hn & _). rewrite concat_snoc in Hc. unfold sse_event in Hc.
  rewrite !app_assoc in Hc. apply app_inj_2 in Hc as [Hc _]; [|done].
  apply newline_not_data in Hn. rewrite <- Hc in Hn. unfold sse_Read. rewrite <- app_assoc. cbn [app].
  rewrite (ReadBytes_pieces newline qs _ rest a [newline]).
  - rewrite app_assoc, Hc. f_equal. rewrite <- app_assoc. by apply (parse_event_line private m); [|vm_decide].
  - apply Forall_forall. intros p Hp Hin. apply Hn. apply elem_of_app. left. apply list_elem_of_In, in_concat.
    exists p. split; by apply list_elem_of_In.
  - done.
  - set_solver.
Qed.
End Lines.

(** ** Subscribing *)

(** The peer of a connection: details in the peer store, or ephemeral ones that have a dial
    info only. *)
Definition httpPeer : Type := nat + PeerDialInfo.

Definition peer_details (t : httpTransport) (p : httpPeer) : option peerDetails :=
  match p with inl n => pd_at (t_peerStore t) n | inr _ => None end.
Definition peer_DialInfo (t : httpTransport) (p : httpPeer) : PeerDialInfo :=
  match p with inl n => default (mkDialInfo [] []) (pd_dialInfo <$> pd_at (t_peerStore t) n) | inr d => d end.
Definition peer_Addresses (t : httpTransport) (p : httpPeer) : list Address :=
  match peer_details t p with Some pd => elements (pd_addresses pd) | None => [] end.
Definition as_host_peer (t : httpTransport) (p : httpPeer) : host_peer := mkHostPeer (peer_DialInfo t p) (peer_Addresses t p).

(** A response: status, headers and body. *)
Record reply := mkReply { rp_StatusCode : Z; rp_Header : bytes → bytes; rp_Body : stream }.

(** The first header of a name, or the empty string. *)
Fixpoint header (l : list (bytes * bytes)) (name : bytes) : bytes :=
  match l with [] => [] | (k, v) :: l => if decide (k = name) then v else header l name end.

Record httpReadableSubscription := mkReadable { rs_peer : httpPeer; rs_stream : stream; rs_private : bool }.

Definition ErrNoDialAddr : error := ErrOther "peer has no DialAddr".
Definition ErrStatus : error := ErrOther "http request errored".

Section Clients.
Context (keccak256 : bytes → bytes).

(** [url_path] is the path of a URL, or the error of [http.NewRequest]; [net] is what the
    network answers to a request with a body; [now] is the time. *)
Context (url_path : bytes → outcome bytes) (net : request → bytes → outcome reply) (now : Z).

Definition conn_result (t : httpTransport) (p : httpPeer) (success : bool) : httpTransport :=
  match p with inl n => with_peerStore t (UpdateConnStats keccak256 (t_peerStore t) n now success) | inr _ => t end.

(** The deferred [UpdateConnStats(err == nil)]. *)
Definition with_stats {A} (p : httpPeer) (r : outcome (httpTransport * (A + error))) : outcome (httpTransport * (A + error)) :=
  let! r := r in
  Ret (conn_result r.1 p (match r.2 with inl _ => true | inr _ => false end), r.2).

Definition or_error {A B} (t : httpTransport) (m : outcome A) (k : A → outcome (httpTransport * (B + error))) : outcome (httpTransport * (B + error)) :=
  match m with Ret a => k a | Err e => Ret (t, inr e) | Panic => Panic | Running => Running end.

Definition makeHttpPeer (t : httpTransport) (dialAddr : bytes) (address : Address) : outcome (httpTransport * httpPeer) :=
  let! r := makePeer keccak256 t dialAddr address in
  Ret (r.1, match r.2 with Some n => inl n | None => inr (mkDialInfo http_name dialAddr) end).

Definition storeHeaderPeers (t : httpTransport) (resp : reply) : httpTransport :=
  with_peerStore t (storeAltSvcHeaderPeers keccak256 (t_peerStore t) (rp_Header resp (str "Alt-Svc"))).

(** The response of a status other than 200 is returned beside the error; no caller uses it. *)
Definition doRequest (t : httpTransport) (r : request) (body : bytes) : outcome (httpTransport * (reply + error)) :=
  let altSvcHeader := makeAltSvcHeader (AllDialInfos (t_peerStore t)) in
  let r := mkRequest (r_Method r) (r_Path r) (λ name, if decide (name = str "Alt-Svc") then altSvcHeader else r_Header r name) (r_Cookies r) in
  or_error t (net r body) (λ resp,
    let t := storeHeaderPeers t resp in
    if decide (rp_StatusCode resp ≠ 200)%Z then Ret (t, inr ErrStatus) else Ret (t, inl resp)).

(** [httpPeer.Ack], [AnnouncePeers] and [ChallengeIdentity]; the client has no cookies. *)
Definition simple_request (method path : bytes) (headers : list (bytes * bytes)) : request := mkRequest method path (header headers) ∅.

Definition Ack (t : httpTransport) (p : httpPeer) (stateURI : bytes) (txID : ID) : outcome (httpTransport * (unit + error)) :=
  with_stats p (
    if decide (DialAddr (peer_DialInfo t p) = []) then Ret (t, inl tt)
    else
      or_error t (url_path (DialAddr (peer_DialInfo t p))) (λ path,
        let! r := doRequest t (simple_request (str "ACK") path [(str "State-URI", stateURI)]) (EncodeToString txID) in
        Ret (r.1, match r.2 with inl _ => inl tt | inr e => inr e end))).

Definition AnnouncePeers (t : httpTransport) (p : httpPeer) : outcome (httpTransport * (unit + error)) :=
  with_stats p (
    if decide (DialAddr (peer_DialInfo t p) = []) then Ret (t, inl tt)
    else
      or_error t (url_path (DialAddr (peer_DialInfo t p))) (λ path,
        let! r := doRequest t (simple_request (str "HEAD") path []) [] in
        Ret (r.1, match r.2 with inl _ => inl tt | inr e => inr e end))).

(** The body of the response is the stream that the answer is read from. *)
Definition http_ChallengeIdentity (t : httpTransport) (p : httpPeer) (challengeMsg : bytes) : outcome (httpTransport * (option stream + error)) :=
  with_stats p (
    if decide (DialAddr (peer_DialInfo t p) = []) then Ret (t, inl None)
    else
      or_error t (url_path (DialAddr (peer_DialInfo t p))) (λ path,
        let! r := doRequest t (simple_request (str "AUTHORIZE") path [(str "Challenge", EncodeToString challengeMsg)]) [] in
        Ret (r.1, match r.2 with inl resp => inl (Some (rp_Body resp)) | inr e => inr e end))).

Definition subscribe_request (path stateURI : bytes) : request :=
  simple_request (str "GET") path
    [(str "State-URI", stateURI); (str "Cache-Control", str "no-cache"); (str "Accept", str "text/event-stream");
     (str "Connection", str "keep-alive"); (str "Subscribe", SubscriptionType_String SubscriptionType_Txs)].

(** [httpPeer.Subscribe]: with a status other than 200, [errors.Wrapf(nil)] is nil: neither a
    subscription nor an error. *)
Definition http_Subscribe (t : httpTransport) (p : httpPeer) (stateURI : bytes) : outcome (httpTransport * (option httpReadableSubscription + error)) :=
  with_stats p (
    let dialAddr := DialAddr (peer_DialInfo t p) in
    if decide (dialAddr = []) then Ret (t, inr ErrNoDialAddr)
    else
      or_error t (url_path dialAddr) (λ path,
        or_error t (net (subscribe_request path stateURI) []) (λ resp,
          if decide (rp_StatusCode resp ≠ 200)%Z then Ret (t, inl None)
          else Ret (storeHeaderPeers t resp,
                    inl (Some (mkReadable p (rp_Body resp) (bool_decide (rp_Header resp (str "Private") = str "true")))))))).

(** [Read] on the subscription. *)
Definition http_Read {St} `{StreamJson St} `{TxJson} `{Box} (t : httpTransport) (s : httpReadableSubscription) :
    httpTransport * httpReadableSubscription * outcome wire_msg :=
  let '(r, rest) := sse_Read (St := St) (t_keyStore t) (rs_private s) (rs_stream s) in
  (conn_result t (rs_peer s) (match r with Ret _ => true | _ => false end), mkReadable (rs_peer s) rest (rs_private s), r).
End Clients.

(** ** Serving subscriptions *)

Record sub_params := mkSubParams { sp_stateURI : bytes; sp_keypath : bytes; sp_type : SubscriptionType; sp_fetchHistory : option ID }.

(** The fields come from the query of the URL for a web socket, from headers otherwise. *)
Definition parse_subscription (defaultStateURI stateURI keypath subscriptionTypeStr fromTx : bytes) : outcome sub_params :=
  let stateURI := if decide (stateURI = []) then defaultStateURI else stateURI in
  let! subscriptionType := SubscriptionType_UnmarshalText subscriptionTypeStr in
  let! history := if decide (fromTx = []) then Ret None else let! id := IDFromHex fromTx in Ret (Some id) in
  Ret (mkSubParams stateURI keypath subscriptionType history).

Definition subscription_params (defaultStateURI : bytes) (r : request) (query : bytes → bytes) : outcome sub_params :=
  if decide (r_Path r = str "/ws") then
    parse_subscription defaultStateURI (query (str "state_uri")) (query (str "keypath")) (query (str "subscription_type")) (query (str "from_tx"))
  else
    parse_subscription defaultStateURI (r_Header r (str "State-URI")) (r_Header r (str "Keypath")) (r_Header r (str "Subscribe")) (r_Header r (str "From-Tx")).

(** The headers of the stream. *)
Definition stream_headers : list (bytes * bytes) :=
  [(str "Content-Type", str "text/event-stream"); (str "Cache-Control", str "no-cache"); (str "Connection", str "keep-alive");
   (str "Transfer-Encoding", str "chunked")].

Section SubServer.
Context {T : Type} `{BadgerTxn T} `{JsonCodec} `{ProtoCodec} `{MapOrder} `{Secp256k1} `{Configs T} `{Derivation}.
Context {St : Type} (copy : DBNode T → Keypath → outcome St) (keccak256 : bytes → bytes) (defaultStateURI : bytes).

(** [sig_address] is the address of a stored signing key. *)
Context (sig_address : bytes → Address).

Definition as_wire_peer (t : httpTransport) (p : httpPeer) : wire_peer :=
  mkWirePeer (DialAddr (peer_DialInfo t p)) (peer_Addresses t p)
    (λ a, match peer_details t p with
          | Some pd => (sig_address <$> pd_sigpubkeys pd !! a, pd_encpubkeys pd !! a)
          | None => (None, None)
          end).

(** The transport, the host, the subscription with what is enqueued for it, or the status of
    the error.  [upgrade] is the result of the web socket handshake, [flusher] whether the
    response can be flushed. *)
Definition serveSubscription (t : httpTransport) (h : host (T := T)) (r : request) (query : bytes → bytes) (address : Address)
    (flusher : bool) (upgrade : option error) (id : nat) :
    outcome (httpTransport * host (T := T) * ((wsub * list (SubscriptionMsg St)) + Z)) :=
  if negb (bool_decide (r_Path r = str "/ws")) && negb flusher then Ret (t, h, inr 500%Z)
  else
    match subscription_params defaultStateURI r query with
    | Ret params =>
        match (if decide (r_Path r = str "/ws") then upgrade else None) with
        | Some _ => Ret (t, h, inr 500%Z)
        | None =>
            let! tp := makeHttpPeer keccak256 t [] address in
            let '(t, p) := tp in
            let w := mkWsub id (sp_stateURI params) (sp_keypath params) (sp_type params) (RemoteSub (as_wire_peer t p)) in
            let! opened := HandleWritableSubscriptionOpened h w (sp_fetchHistory params) copy in
            Ret (t, opened.1, inl (w, opened.2))
        end
    | Err _ => Ret (t, h, inr 400%Z)
    | Panic => Panic
    | Running => Running
    end.
End SubServer.

(** ** What arrives *)

(** A message about a public transaction that the encodings carry. *)
Definition public_msg `{TxJson} {St} (m : SubscriptionMsg St) : Prop :=
  ∃ tx, sm_Tx m = Some tx ∧ IsPrivate tx = false ∧ tx_json_ok tx ∧ ids_ok (sm_Leaves m).


(** What a read loses: when two events arrive together, the second is never seen; when the
    second newline of an event comes after the first, the next read fails; a private
    transaction, although it was sealed for the subscriber, is refused, because a response
    never says that it is private. *)
Theorem sse_losses {St} `{StreamJson St} `{TxJson} `{!StreamJsonLaws (St := St)} `{Box} ks (m1 m2 : sub_msg St) bs1 bs2 e leaves rest :
  stream_Marshal m1 = Ret bs1 → stream_Marshal m2 = Ret bs2 → etx_ok e → ids_ok leaves →
  sse_Read (St := St) ks false ((sse_event bs1 ++ sse_event bs2) :: rest) = (parse_event (St := St) ks false (data_prefix ++ bs1), rest) ∧
  (∃ err, (sse_reads (St := St) ks false 2 ((data_prefix ++ bs1 ++ [newline]) :: [newline] :: rest)) =
     ([parse_event (St := St) ks false (data_prefix ++ bs1); Err err], rest)) ∧
  bool_decide (header stream_headers (str "Private") = str "true") = false ∧
  ∃ bs, stream_Marshal (St := St) (SealedMsg e leaves) = Ret bs ∧
    sse_Read (St := St) ks false (sse_event bs :: rest) = (Err ErrNoTx, rest).
Proof.
  intros Hm1 Hm2 He Hl. destruct (mj_text m1 bs1 Hm1) as (Hn1 & _). apply newline_not_data in Hn1. split_and!.
  - assert (sse_event bs1 ++ sse_event bs2 = (data_prefix ++ bs1) ++ newline :: newline :: sse_event bs2) as -> by (unfold sse_event; by rewrite <- !app_assoc).
    unfold sse_Read. rewrite ReadBytes_first by done. f_equal. rewrite <- app_assoc. by apply (parse_event_line ks false m1); [|vm_decide].
  - destruct (mj_empty (St := St)) as (err & Herr). exists err. rewrite app_assoc. cbn [sse_reads]. unfold sse_Read. rewrite ReadBytes_first by done.
    rewrite <- app_assoc, (parse_event_line ks false m1) by (done || vm_decide).
    change ([newline] :: rest) with (([] ++ [newline]) :: rest). rewrite ReadBytes_first by set_solver.
    do 4 f_equal. unfold parse_event. change (Trim _ _) with ([] : bytes). by rewrite Herr.
  - vm_decide.
  - destruct (mj_sealed (St := St) e leaves He Hl) as (bs & Hm & Hu). exists bs. split; [done|].
    change (sse_event bs :: rest) with ([sse_event bs] ++ rest). rewrite (sse_Read_pieces ks false _ bs [sse_event bs] rest Hm).
    + by rewrite (parse_event_msg ks false _ bs Hm), Hu.
    + exists [], (sse_event bs). split_and!; [done|cbn; by rewrite app_nil_r|]. exists (data_prefix ++ bs). by rewrite <- app_assoc.
Qed.

(** From the request of a peer to the messages for it: the request is routed to the
    subscriptions, a server that keeps the response open has registered a subscription to the
    transactions of the state URI for the anonymous peer, whose request has no cookies, and
    every transaction that is broadcast is enqueued for it; the client has a subscription that
    reads the body of the response.  An answer with another status gives the client neither a
    subscription nor an error, and counts as a successful contact. *)
Theorem http_subscribes {T} `{BadgerTxn T} `{JsonCodec} `{ProtoCodec} `{MapOrder} `{Secp256k1} `{Configs T} `{!SigningPublic} `{Derivation} {St}
    (copy : DBNode T → Keypath → outcome St) (NodeAt : St → Keypath → St) keccak256 defaultURI sig_address url_path net now tc p path stateURI t (h : host (T := T)) query id resp :
  url_path (DialAddr (peer_DialInfo tc p)) = Ret path → DialAddr (peer_DialInfo tc p) ≠ [] → path ≠ str "/ws" → stateURI ≠ [] →
  net (subscribe_request path stateURI) [] = Ret resp → id ∉ ws_id <$> default [] (ho_writable h !! stateURI) →
  let r := subscribe_request path stateURI in
  route_of r = RouteSubscription ∧
  (∃ w h', addressFromCookie keccak256 t (r_Cookies r) = Ret (array_from address_length []) ∧
    serveSubscription copy keccak256 defaultURI sig_address t h r query (array_from address_length []) true None id = Ret (t, h', inl (w, [])) ∧
    ws_stateURI w = stateURI ∧ ws_type w = SubscriptionType_Txs ∧ ho_hub h' = ho_hub h ∧
    default [] (ho_writable h' !! stateURI) = default [] (ho_writable h !! stateURI) ++ [w] ∧
    (∀ tx state leaves b, hub_IsPrivate (ho_hub h) (tx_StateURI tx) = Ret b →
       broadcastToWritableSubscribers NodeAt h' tx state leaves [w] = Ret [(w, mkMsg (Some tx) (Some (NodeAt state [])) leaves)])) ∧
  (rp_StatusCode resp = 200%Z →
     ∃ tc', http_Subscribe keccak256 url_path net now tc p stateURI =
       Ret (tc', inl (Some (mkReadable p (rp_Body resp) (bool_decide (rp_Header resp (str "Private") = str "true")))))) ∧
  (rp_StatusCode resp ≠ 200%Z → http_Subscribe keccak256 url_path net now tc p stateURI = Ret (conn_result keccak256 now tc p true, inl None)).
Proof.
  intros Hu Hd Hws Huri Hnet Hid r.
  assert (r_Header r (str "State-URI") = stateURI) as Hh1 by reflexivity.
  assert (r_Header r (str "Keypath") = []) as Hh2 by reflexivity.
  assert (r_Header r (str "Subscribe") = str "transactions") as Hh3 by reflexivity.
  assert (r_Header r (str "From-Tx") = []) as Hh4 by reflexivity.
  assert (subscription_params defaultURI r query = Ret (mkSubParams stateURI [] SubscriptionType_Txs None)) as Hparams.
  { unfold subscription_params. rewrite decide_False by done. rewrite Hh1, Hh2, Hh3, Hh4. unfold parse_subscription. 
    rewrite (decide_False (P := stateURI = [])) by done. reflexivity. }
  split_and!.
  - unfold route_of. cbn [r_Method r subscribe_request simple_request]. rewrite decide_False by (intros [[=]|[=]]). rewrite decide_False by discriminate.
    rewrite decide_True by done. change (mkRequest _ _ _ _) with r. rewrite Hh3. by rewrite decide_True by (left; discriminate).
  - set (w := mkWsub id stateURI [] SubscriptionType_Txs (RemoteSub (as_wire_peer sig_address t (inr (mkDialInfo http_name []))))).
    exists w, (with_writable h (<[stateURI := default [] (ho_writable h !! stateURI) ++ [w]]> (ho_writable h))). split_and!; try done.
    + unfold serveSubscription. rewrite bool_decide_false by done. cbn [negb andb]. rewrite Hparams. rewrite decide_False by done.
      unfold makeHttpPeer, makePeer. change (negb (IsZero (array_from address_length []))) with false. cbn [obind fst snd sp_stateURI sp_keypath sp_type sp_fetchHistory].
      rewrite decide_False by (intros Hn; by apply Hn). cbn [obind fst snd]. unfold HandleWritableSubscriptionOpened.
      change (Includes SubscriptionType_Txs SubscriptionType_States) with false. cbn [obind ws_type ws_stateURI ws_id].
      change (Includes SubscriptionType_Txs SubscriptionType_States) with false. cbn [obind]. by rewrite decide_False.
    + cbn. by rewrite lookup_insert_eq.
    + intros tx state leaves b Hb. unfold broadcastToWritableSubscribers. rewrite filter_true by (by apply Forall_singleton).
      cbn [broadcast_subs]. cbn [ho_hub with_writable]. rewrite Hb. cbn [obind]. by destruct b.
  - intros Hst. unfold http_Subscribe, or_error, with_stats. rewrite decide_False by done. rewrite Hu, Hnet. rewrite decide_False by lia. cbn [obind fst snd]. by eexists.
  - intros Hst. unfold http_Subscribe, or_error, with_stats. rewrite decide_False by done. rewrite Hu, Hnet. by rewrite decide_True by lia.
Qed.

(** ** Web sockets *)

(** A private transaction goes over a web socket as it is, whoever listens. *)
Theorem ws_private_in_clear {St} `{StreamJson St} `{TxJson} `{!StreamJsonLaws (St := St)} (tx : Tx) leaves :
  tx_json_ok tx → ids_ok leaves →
  ∃ bs, wsSub_Put (mkMsg (Some tx) (None : option St) leaves) = Ret (bs ++ [newline]) ∧ stream_Unmarshal (St := St) bs = Ret (mkWire (Some tx) None leaves).
Proof. intros Hok Hl. destruct (mj_clear (St := St) tx leaves Hok Hl) as (bs & Hm & Hu). exists bs. split; [|done]. unfold wsSub_Put. cbn. by rewrite Hm. Qed.

(** [wsWritableSubscription.start] and [close].  The goroutine that pings: in its loop, about
    to call [close] after a failed ping, in [close] waiting for [chDone], or gone.  The
    handler, which calls [close] when the subscription is over, likewise. *)
Inductive ws_goroutine := GoLoop | GoEnter | GoWait | GoGone.
Inductive ws_handler := HServe | HEnter | HWait | HGone.

(** [closeOnce]: nobody has entered, somebody is in it, or it is over. *)
Inductive once := OnceFresh | OnceRunning | OnceDone.

Record ws_conn := mkWsConn {
  wc_go : ws_goroutine;
  wc_handler : ws_handler;
  wc_once : once;
  wc_chStop : bool;
  wc_chDone : bool;
  wc_closed : bool
}.

Definition ws_start : ws_conn := mkWsConn GoLoop HServe OnceFresh false false false.

Inductive ws_conn_step : ws_conn → ws_conn → Prop :=
  | wc_ping s : wc_go s = GoLoop → ws_conn_step s s
  | wc_ping_failed s : wc_go s = GoLoop →
      ws_conn_step s (mkWsConn GoEnter (wc_handler s) (wc_once s) (wc_chStop s) (wc_chDone s) (wc_closed s))
  | wc_stop s : wc_go s = GoLoop → wc_chStop s = true →
      ws_conn_step s (mkWsConn GoGone (wc_handler s) (wc_once s) (wc_chStop s) true (wc_closed s))
  | wc_go_enter s : wc_go s = GoEnter → wc_once s = OnceFresh →
      ws_conn_step s (mkWsConn GoWait (wc_handler s) OnceRunning true (wc_chDone s) (wc_closed s))
  | wc_go_skip s : wc_go s = GoEnter → wc_once s = OnceDone →
      ws_conn_step s (mkWsConn GoGone (wc_handler s) (wc_once s) (wc_chStop s) true (wc_closed s))
  | wc_go_close s : wc_go s = GoWait → wc_chDone s = true →
      ws_conn_step s (mkWsConn GoGone (wc_handler s) OnceDone (wc_chStop s) true true)
  | wc_over s : wc_handler s = HServe →
      ws_conn_step s (mkWsConn (wc_go s) HEnter (wc_once s) (wc_chStop s) (wc_chDone s) (wc_closed s))
  | wc_handler_enter s : wc_handler s = HEnter → wc_once s = OnceFresh →
      ws_conn_step s (mkWsConn (wc_go s) HWait OnceRunning true (wc_chDone s) (wc_closed s))
  | wc_handler_skip s : wc_handler s = HEnter → wc_once s = OnceDone →
      ws_conn_step s (mkWsConn (wc_go s) HGone (wc_once s) (wc_chStop s) (wc_chDone s) (wc_closed s))
  | wc_handler_close s : wc_handler s = HWait → wc_chDone s = true →
      ws_conn_step s (mkWsConn (wc_go s) HGone OnceDone (wc_chStop s) (wc_chDone s) true).

Definition ping_failed (s : ws_conn) : Prop := wc_go s = GoEnter ∨ wc_go s = GoWait.

Definition ws_conn_ok (s : ws_conn) : Prop :=
  match wc_go s with
  | GoLoop => wc_chDone s = false ∧ wc_closed s = false ∧
      match wc_handler s with HServe | HEnter => wc_once s = OnceFresh ∧ wc_chStop s = false | HWait => wc_once s = OnceRunning ∧ wc_chStop s = true | HGone => False end
  | GoEnter => wc_chDone s = false ∧ wc_closed s = false ∧
      match wc_handler s with HServe | HEnter => wc_once s = OnceFresh | HWait => wc_once s = OnceRunning | HGone => False end
  | GoWait => wc_chDone s = false ∧ wc_closed s = false ∧ wc_once s = OnceRunning ∧ (wc_handler s = HServe ∨ wc_handler s = HEnter)
  | GoGone => wc_chDone s = true ∧
      match wc_handler s with HServe | HEnter => False | HWait => wc_once s = OnceRunning ∧ wc_closed s = false | HGone => wc_once s = OnceDone ∧ wc_closed s = true end
  end.

Lemma ws_conn_step_ok s s' : ws_conn_ok s → ws_conn_step s s' → ws_conn_ok s' ∧ (ping_failed s → ping_failed s').
Proof.
  intros Hok Hs. unfold ws_conn_ok, ping_failed in *. destruct Hs; destruct s as [[] [] [] [] [] []]; cbn in *; intuition congruence.
Qed.

Lemma ws_conn_reachable s : rtc ws_conn_step ws_start s → ws_conn_ok s.
Proof.
  intros Hr. assert (ws_conn_ok ws_start) as Hok by done. revert Hok.
  induction Hr as [|s s1 s2 Hs _ IH]; [done|]. intros Hok. apply IH. by apply (ws_conn_step_ok s).
Qed.

(** As long as no ping fails, a handler that is done can close the connection and return.
    After a failed ping the goroutine waits in [close] for itself: whatever happens, the
    connection is never closed and the handler of the request never returns. *)
Theorem ws_close_outcome s :
  rtc ws_conn_step ws_start s →
  (¬ ping_failed s → wc_handler s ≠ HServe → ∃ s', rtc ws_conn_step s s' ∧ wc_handler s' = HGone ∧ wc_closed s' = true) ∧
  (ping_failed s → ∀ s', rtc ws_conn_step s s' → wc_closed s' = false ∧ wc_handler s' ≠ HGone ∧ wc_chDone s' = false).
Proof.
  intros Hr. pose proof (ws_conn_reachable s Hr) as Hok. split.
  - intros Hp Hh. unfold ping_failed in Hp. unfold ws_conn_ok in Hok. destruct s as [[] [] [] [] [] []]; cbn in *; try (by intuition congruence).
    all: try (eexists; split; [apply rtc_refl|done]).
    all: try (eexists; split; [eapply rtc_l; [by apply wc_handler_close|]; apply rtc_refl|done]).
    all: try (eexists; split; [eapply rtc_l; [by apply wc_stop|]; eapply rtc_l; [by apply wc_handler_close|]; apply rtc_refl|done]).
    all: try (eexists; split; [eapply rtc_l; [by apply wc_handler_enter|]; eapply rtc_l; [by apply wc_stop|]; eapply rtc_l; [by apply wc_handler_close|]; apply rtc_refl|done]).
  - intros Hp s' Hr'. assert (ws_conn_ok s' ∧ ping_failed s') as [Hok' Hp'].
    { clear Hr. revert Hok Hp. induction Hr' as [|s s1 s2 Hs _ IH]; [done|]. intros Hok Hp.
      destruct (ws_conn_step_ok s s1 Hok Hs) as [Hok1 Hp1]. apply IH; auto. }
    unfold ws_conn_ok in Hok'. destruct Hp' as [Hg|Hg]; rewrite Hg in Hok'; destruct Hok' as (Hd & Hc & Hrest); split_and!; try done.
    + intros Hg'. by rewrite Hg' in Hrest.
    + destruct Hrest as (_ & [-> | ->]); done.
Qed.

(** ** Examples *)

#[local] Existing Instance toy_curve.
#[local] Existing Instance signing_derivation.
#[local] Existing Instance plain_configs.
#[local] Existing Instance session_public.
#[local] Existing Instance checking_box.
#[local] Existing Instance toy_json.
#[local] Existing Instance toy_json_laws.

Lemma elem_of_hex bs c : c ∈ EncodeToString bs → c ∈ str "0123456789abcdef".
Proof.
  assert (∀ b, hex_digit (byte_to_Z b `div` 16) ∈ str "0123456789abcdef" ∧ hex_digit (byte_to_Z b `mod` 16) ∈ str "0123456789abcdef") as Hd
    by (intros b; destruct b; split; vm_decide).
  induction bs as [|b bs IH]; cbn [EncodeToString]; [by intros Hin%elem_of_nil|].
  intros [->|[->|Hin]%elem_of_cons]%elem_of_cons; [apply Hd..|by apply IH].
Qed.

(** Messages in a text form of braces around hexadecimal digits. *)
Definition braces (x : (bytes + (ID * bytes * bytes * Address)) * list ID) : bytes :=
  "{"%byte :: EncodeToString (positive_bits (encode x)) ++ ["}"%byte].
Definition unbrace (bs : bytes) : option ((bytes + (ID * bytes * bytes * Address)) * list ID) :=
  match bs with
  | [] => None
  | _ :: b => match DecodeString (take (length b - 1) b) with Ret x => decode (bits_positive x) | _ => None end
  end.
Lemma unbrace_braces x : unbrace (braces x) = Some x.
Proof.
  unfold unbrace, braces. rewrite length_app. cbn [length]. rewrite Nat.add_sub, take_app_length, decode_encode_hex.
  by rewrite bits_positive_bits, decode_encode.
Qed.

#[local] Instance toy_events : StreamJson unit := {
  stream_Marshal m :=
    match m with
    | ClearMsg (Some tx) None leaves => let! b := tx_MarshalJSON tx in Ret (braces (inl b, leaves))
    | SealedMsg e leaves => Ret (braces (inr (etx_TxID e, etx_EncryptedPayload e, etx_SenderPublicKey e, etx_RecipientAddress e), leaves))
    | _ => Err ErrUnimplemented
    end;
  stream_Unmarshal bs :=
    match unbrace bs with
    | Some (inl b, leaves) => let! tx := tx_UnmarshalJSON b in Ret (mkWire (Some tx) None leaves)
    | Some (inr (i, p, k, a), leaves) => Ret (mkWire None (Some (mkEncryptedTx i p k a)) leaves)
    | None => Err ErrUnimplemented
    end
}.

#[local] Instance toy_events_laws : StreamJsonLaws (St := unit).
Proof.
  split.
  - intros m bs Hm. assert (∃ x, bs = braces x) as (x & ->).
    { destruct m as [[tx|] [s|] l|e l]; try done; cbn [stream_Marshal toy_events] in Hm; [|injection Hm as <-; by eexists].
      destruct (tx_MarshalJSON tx); try done. injection Hm as <-. by eexists. }
    split; [|by eexists]. unfold braces. intros [Hx|[Hx|Hx]%elem_of_app]%elem_of_cons; [done| |by apply list_elem_of_singleton in Hx].
    apply elem_of_hex in Hx. revert Hx. vm_decide.
  - intros tx leaves Hok _. destruct (tx_json_roundtrip tx Hok) as (b & Hb & Hu). exists (braces (inl b, leaves)).
    cbn [stream_Marshal stream_Unmarshal toy_events]. rewrite Hb, unbrace_braces. by rewrite Hu.
  - intros e leaves _ _. exists (braces (inr (etx_TxID e, etx_EncryptedPayload e, etx_SenderPublicKey e, etx_RecipientAddress e), leaves)).
    split; [done|]. cbn [stream_Unmarshal toy_events]. rewrite unbrace_braces. by destruct e.
  - by eexists.
Qed.

Definition public_tx : Tx := mkTx (id_of 7) [GenesisTxID] [] own_addr (id_of 5) (str "foo.bar/baz") [] [] true [] TxStatusUnknown EmptyHash.
Definition public_tx2 : Tx := mkTx (id_of 8) [id_of 7] [] own_addr (id_of 5) (str "foo.bar/baz") [] [] false [] TxStatusUnknown EmptyHash.
Definition two_msgs : list (SubscriptionMsg unit) := [mkMsg (Some public_tx) (Some tt) [id_of 7]; mkMsg (Some public_tx2) (Some tt) [id_of 8]].


Lemma sse_losses_witness :
  ∃ bs1 bs2, sse_Read (St := unit) sender_store false [sse_event bs1 ++ sse_event bs2] = (parse_event (St := unit) sender_store false (data_prefix ++ bs1), []).
Proof.
  destruct (mj_clear (St := unit) public_tx [id_of 7]) as (bs1 & H1 & _); [reflexivity|apply Forall_singleton; reflexivity|].
  destruct (mj_clear (St := unit) public_tx2 [id_of 8]) as (bs2 & H2 & _); [reflexivity|apply Forall_singleton; reflexivity|].
  exists bs1, bs2. apply (sse_losses sender_store _ _ bs1 bs2 (mkEncryptedTx (id_of 7) [] [] own_addr) [id_of 7] [] H1 H2).
  - split; reflexivity.
  - apply Forall_singleton. reflexivity.
Defined.

Definition far_peer : httpPeer := inr (mkDialInfo http_name (str "http://far")).
Definition stream_reply : reply := mkReply 200 (header stream_headers) [].

Lemma http_subscribes_witness :
  ∃ w h', serveSubscription (λ _ _, Ret tt) (λ b, b) [] (λ b, b) transport_0 example_host (subscribe_request (str "/") (str "foo.bar/baz")) (λ _, [])
            (array_from address_length []) true None 0 = Ret (transport_0, h', inl (w, [])) ∧ default [] (ho_writable h' !! str "foo.bar/baz") = [w].
Proof.
  destruct (http_subscribes (λ _ _, Ret tt) (λ s _, s) (λ b, b) [] (λ b, b) (λ _, Ret (str "/")) (λ _ _, Ret stream_reply) 0 transport_0 far_peer (str "/")
    (str "foo.bar/baz") transport_0 example_host (λ _, []) 0 stream_reply) as (_ & (w & h' & _ & Hs & _ & _ & _ & Hw & _) & _).
  - reflexivity.
  - discriminate.
  - discriminate.
  - discriminate.
  - reflexivity.
  - apply not_elem_of_nil.
  - exists w, h'. split; [exact Hs|exact Hw].
Defined.

(** A ping fails before the subscription is over. *)
Lemma ws_close_outcome_witness :
  ∃ s, rtc ws_conn_step ws_start s ∧ ∀ s', rtc ws_conn_step s s' → wc_closed s' = false ∧ wc_handler s' ≠ HGone ∧ wc_chDone s' = false.
Proof.
  assert (rtc ws_conn_step ws_start (mkWsConn GoEnter HServe OnceFresh false false false)) as Hr.
  { eapply rtc_l; [apply wc_ping_failed; reflexivity|]. apply rtc_refl. }
  exists (mkWsConn GoEnter HServe OnceFresh false false false). split; [exact Hr|].
  apply (ws_close_outcome _ Hr). left. reflexivity.
Defined.
