(* ===== verification/HttpServe.v ===== *)
(** * Requests of the HTTP transport and its client ([transport.http.go], [client.http.go])

    The handlers of acknowledgements, transactions, blobs and raw states, and the client that
    sends these requests.  The parser of URLs, the multipart parser and the JSON decoder of a
    list of strings are arguments. *)

From S2P Require Import Prelude Types Keypath TreeTypes GoValue GoPaths NodeCodec BadgerTxn DBNode Tx PatchParser TxStore Mempool Nelson Permissions Controller ControllerProps.
From S2P Require Import Hub RefStore PeerStore KeyStore HttpTx HttpSession Host HostPeers Subscriptions HttpStream.

(** ** Reading a state: the request *)

(** The query of a state, as the client asks for it. *)
Record state_query := mkStateQuery { q_stateURI : bytes; q_version : option ID; q_keypath : Keypath; q_rng : option Range; q_raw : bool }.

Definition range_text (r : Range) : bytes := str "json=" ++ FormatInt (Start r) ++ ":"%byte :: FormatInt (End_ r).

(** [HTTPClient.Get]: the request; its URL has the query [raw=true] or none. *)
Definition get_request (q : state_query) : request :=
  mkRequest (str "GET") ("/"%byte :: q_keypath q)
    (header ((if decide (q_stateURI q = []) then [] else [(str "State-URI", q_stateURI q)]) ++
             match q_version q with Some v => [(str "Version", ID_Hex v)] | None => [] end ++
             match q_rng q with Some r => [(str "Range", range_text r)] | None => [] end)) ∅.
Definition get_url_query (q : state_query) (name : bytes) : bytes := if q_raw q then header [(str "raw", str "true")] name else [].

(** [strings.SplitN(s, c, 2)], when there are two parts. *)
Definition split2 (c : byte) (s : bytes) : option (bytes * bytes) :=
  match index_byte c s with Some i => Some (take i s, drop (S i) s) | None => None end.

Definition parse_range_header (rstr : bytes) : option (option Range) :=
  if decide (rstr = []) then Some None
  else
    unit_rest ← split2 "="%byte rstr;
    if decide (unit_rest.1 ≠ str "json") then None
    else
      ends ← split2 ":"%byte unit_rest.2;
      start ← ParseInt ends.1;
      end_ ← ParseInt ends.2;
      Some (Some (mkRange start end_)).

(** A part with a bracket is a key and an index. *)
Definition path_part_keys (part : Keypath) : outcome (list Keypath) :=
  match index_byte "["%byte part with
  | Some idx =>
      let! digits := slice part (Z.of_nat idx + 1) (Z.of_nat (length part) - 1) in
      let! x := of_option (ErrBadRequest "bad slice index") (ParseInt digits) in
      let! key := EncodeSliceIndex (u64 x) in
      Ret [take idx part; key]
  | None => Ret [part]
  end.

Definition filterEmptyStrings (s : list bytes) : list bytes := filter (λ x, x ≠ []) s.

Definition state_keypath (path : bytes) : outcome Keypath :=
  let! path := slice path 1 (Z.of_nat (length path)) in
  let keypathStr := join_sep (filterEmptyStrings (split_sep path)) in
  let! newParts := map_outcome path_part_keys (Parts keypathStr) in
  Ret (JoinKeypaths (concat newParts) KeypathSeparator).

(** [strconv.ParseBool] *)
Definition ParseBool (s : bytes) : option bool :=
  if decide (s ∈ str <$> ["1"; "t"; "T"; "TRUE"; "true"; "True"]%string) then Some true
  else if decide (s ∈ str <$> ["0"; "f"; "F"; "FALSE"; "false"; "False"]%string) then Some false else None.
Definition parseRawParam (query : bytes → bytes) : option bool :=
  if decide (query (str "raw") = []) then Some false else ParseBool (query (str "raw")).
Definition parseIndexParams (query : bytes → bytes) : bytes * bytes := (query (str "index"), query (str "index_arg")).

Definition parse_version (vstr : bytes) : outcome (option ID) := if decide (vstr = []) then Ret None else let! v := IDFromHex vstr in Ret (Some v).

(** The state URI comes from the header, the query or the configuration. *)
Definition request_stateURI (defaultStateURI : bytes) (r : request) (query : bytes → bytes) : bytes :=
  let stateURI := r_Header r (str "State-URI") in
  if decide (stateURI = []) then if decide (query (str "state_uri") = []) then defaultStateURI else query (str "state_uri") else stateURI.

(** ** Reading a state: the answer *)

(** The headers that are set and the body. *)
Record state_reply := mkStateReply {
  sr_Parents : bytes;
  sr_ContentType : bytes;
  sr_ContentLength : bytes;
  sr_ResourceLength : bytes;
  sr_Subscribe : bytes;
  sr_body : bytes;
  sr_status : Z
}.

Definition or_http {A B} (status : Z) (m : outcome A) (k : A → outcome (B + Z)) : outcome (B + Z) :=
  match m with Ret a => k a | Err _ => Ret (inr status) | Panic => Panic | Running => Running end.

(** [GuessContentTypeFromFilename] *)
Definition to_lower (b : byte) : byte :=
  let z := byte_to_Z b in if decide (65 ≤ z ≤ 90)%Z then byte_of_Z (z + 32) else b.
Definition GuessContentTypeFromFilename (filename : bytes) : bytes :=
  match split_on "." filename with
  | [] | [_] => str "application/octet-stream"
  | parts =>
      let ext := to_lower <$> default [] (last parts) in
      if decide (ext = str "txt") then str "text/plain"
      else if decide (ext = str "html") then str "text/html"
      else if decide (ext = str "js") then str "application/js"
      else if decide (ext = str "json") then str "application/json"
      else if decide (ext = str "png") then str "image/png"
      else if decide (ext = str "jpg" ∨ ext = str "jpeg") then str "image/jpeg"
      else str "application/octet-stream"
  end.

(** [GetReadCloser], for the values of a tree. *)
Definition GetReadCloser (v : plain) : option bytes :=
  match v with GScalar (SString s) => Some s | GScalar (SBytes b) => Some b | _ => None end.

Definition allowSubscribe (contentType : bytes) : bytes :=
  if decide (contentType ∈ str <$> ["application/json"; "application/js"; "text/plain"]%string) then str "Allow" else [].

Section ServeState.
Context {T : Type} `{BadgerTxn T} `{JsonCodec} `{ProtoCodec} `{MapOrder} `{Secp256k1} `{Configs T}.
Context (defaultStateURI : bytes).

(** The [Parents] header: the parents of the first leaf. *)
Definition parents_header (h : controllerHub (T := T)) (stateURI : bytes) : outcome bytes :=
  match hub_Leaves h stateURI with
  | [] => Ret []
  | leaf :: _ => let! tx := hub_FetchTx h stateURI leaf in Ret (join_with (str ",") (ID_Hex <$> tx_Parents tx))
  end.

(** The content type and the body. *)
Definition state_body (contentType : bytes) (val : plain) : outcome (bytes * bytes) :=
  match GetReadCloser val with
  | Some bs => Ret (contentType, bs)
  | None => match json_Marshal val with Ret j => Ret (str "application/json", j) | Err _ => Panic | Panic => Panic | Running => Running end
  end.

(** The end of [serveGetState], for the node that was found; [raw] nodes are plain. *)
Definition respond_state (parents : bytes) (keypath : Keypath) (state : DBNode T) : outcome (state_reply + Z) :=
  or_http 500 (GetContentType state) (λ contentType,
    let! part := if decide (contentType = str "application/octet-stream") then Part keypath (-1) else Ret None in
    let contentType := if decide (contentType = str "application/octet-stream") then GuessContentTypeFromFilename (nilable part) else contentType in
    or_http 500 (GetContentLength state) (λ contentLength,
      or_http 500 (db_Length state) (λ resourceLength,
        or_http 400 (db_Value state [] None) (λ val,
          match val with
          | None => Ret (inr 404%Z)
          | Some val =>
              let! body := state_body contentType val in
              Ret (inl (mkStateReply parents contentType (if decide (contentLength > 0)%Z then FormatInt contentLength else [])
                          (FormatUint resourceLength) (allowSubscribe body.1) body.2 200))
          end)))).

(** The state query without frames. *)
Definition raw_state_query (h : controllerHub (T := T)) (stateURI : bytes) (version : option ID) (keypath : Keypath) (rng : option Range)
    (respond : DBNode T → outcome (state_reply + Z)) : outcome (state_reply + Z) :=
  or_http 404 (hub_StateAtVersion h stateURI version) (λ state, respond (db_NodeAt state keypath rng)).

(** [serveGetState].  The queries of an index and of a state with its frames resolved are
    arguments. *)
Definition serveGetState (index_query : bytes → bytes → bytes → option ID → Keypath → option Range → bytes → outcome (state_reply + Z))
    (frame_query : bytes → option ID → Keypath → option Range → bytes → outcome (state_reply + Z))
    (h : controllerHub (T := T)) (r : request) (query : bytes → bytes) : outcome (state_reply + Z) :=
  let stateURI := request_stateURI defaultStateURI r query in
  or_http 400 (state_keypath (r_Path r)) (λ keypath,
    or_http 400 (parse_version (r_Header r (str "Version"))) (λ version,
      match parse_range_header (r_Header r (str "Range")) with
      | None => Ret (inr 400%Z)
      | Some rng =>
          or_http 404 (parents_header h stateURI) (λ parents,
            let '(indexName, indexArg) := parseIndexParams query in
            match parseRawParam query with
            | None => Ret (inr 400%Z)
            | Some raw =>
                if decide (indexName ≠ []) then index_query indexName indexArg stateURI version keypath rng parents
                else if raw then raw_state_query h stateURI version keypath rng (respond_state parents keypath)
                else frame_query stateURI version keypath rng parents
            end)
      end)).

(** [serveGetTx]: the JSON of the transaction. *)
Definition serveGetTx `{TxJson} (h : controllerHub (T := T)) (r : request) : outcome (bytes + Z) :=
  if decide (r_Header r (str "State-URI") = []) then Ret (inr 400%Z)
  else
    let! path := slice (r_Path r) 1 (Z.of_nat (length (r_Path r))) in
    let! txIDStr := index (split_sep path) 1 in
    or_http 400 (IDFromHex txIDStr) (λ txID,
      or_http 404 (hub_FetchTx h (r_Header r (str "State-URI")) txID) (λ tx,
        match tx_MarshalJSON tx with Ret bs => Ret (inl bs) | Err _ => Panic | Panic => Panic | Running => Running end)).
End ServeState.

(** ** The client *)

Definition ErrGetState : error := ErrOther "error getting state".
Definition ErrBadParents : error := ErrOther "bad parents header".
Definition ErrBadLength : error := ErrOther "bad content length".
Definition ErrFetchingTx : error := ErrOther "error fetching tx".

(** [HTTPClient.Get], from the answer on: the body, the content length and the parents. *)
Definition client_Get (answer : outcome (state_reply + Z)) : outcome (bytes * Z * list ID) :=
  let! resp := answer in
  match resp with
  | inr _ => Err ErrGetState
  | inl resp =>
      let! contentLength := if decide (sr_ContentLength resp = []) then Ret 0%Z else of_option ErrBadLength (ParseInt (sr_ContentLength resp)) in
      match parse_parents (sr_Parents resp) with
      | Ret parents => Ret (sr_body resp, contentLength, parents)
      | Err _ => Err ErrBadParents
      | Panic => Panic
      | Running => Running
      end
  end.

(** [HTTPClient.FetchTx] *)
Definition fetch_tx_request (stateURI : bytes) (txID : ID) : request :=
  mkRequest (str "GET") (str "/__tx/" ++ ID_Hex txID) (header [(str "State-URI", stateURI)]) ∅.
Definition client_FetchTx `{TxJson} (answer : outcome (bytes + Z)) : outcome Tx :=
  let! resp := answer in
  match resp with
  | inr status => if decide (status = 404)%Z then Err Err404 else Err ErrFetchingTx
  | inl body => tx_UnmarshalJSON body
  end.

(** ** Texts that are read back *)

Lemma ParseInt_FormatInt z : is_i64 z → ParseInt (FormatInt z) = Some z.
Proof.
  intros Hz. destruct (decide (0 ≤ z)%Z) as [Hp|Hp]; [apply ParseInt_Format; unfold is_i64 in Hz; lia|].
  unfold FormatInt. rewrite decide_True by lia. cbn [ParseInt]. rewrite decide_True by done.
  assert (parse_digits 0 (FormatUint (- z)) = Some (- z)%Z) as Hd by (apply parse_format; unfold is_i64, two63, two64 in *; lia).
  assert (FormatUint (- z) ≠ []) as Hne by (by apply format_nonempty).
  unfold ParseUint. destruct (FormatUint (- z)); [done|]. rewrite Hd. cbn. rewrite decide_True by (unfold is_i64 in Hz; lia). f_equal. lia.
Qed.

Lemma FormatInt_digits z : is_i64 z → Forall (λ b, is_digit b = true ∨ b = "-"%byte) (FormatInt z).
Proof.
  intros Hz. unfold FormatInt.
  assert (∀ u, (0 ≤ u ≤ two63)%Z → Forall (λ b, is_digit b = true ∨ b = "-"%byte) (FormatUint u)) as Hu.
  { intros u Hu. apply (Forall_impl (λ b, is_digit b = true)); [|by left]. apply (parse_digits_digits 0 _ u).
    apply parse_format; unfold two63, two64 in *; lia. }
  case_decide; [constructor; [by right|]|]; apply Hu; unfold is_i64 in Hz; lia.
Qed.

Lemma FormatInt_not z c : is_i64 z → is_digit c = false → c ≠ "-"%byte → c ∉ FormatInt z.
Proof.
  intros Hz Hc Hm Hin. pose proof (FormatInt_digits z Hz) as Hf. rewrite Forall_forall in Hf.
  destruct (Hf c Hin) as [Hd|Hd]; [congruence|done].
Qed.

Lemma FormatInt_nonempty z : FormatInt z ≠ [].
Proof. unfold FormatInt. case_decide; [done|by apply format_nonempty]. Qed.

Lemma split2_app c a b : c ∉ a → split2 c (a ++ c :: b) = Some (a, b).
Proof.
  intros Ha. unfold split2. rewrite index_byte_app by done. rewrite take_app_length. do 2 f_equal.
  rewrite (cons_middle c a b), app_assoc. rewrite drop_app_length'; [done|]. rewrite length_app. cbn. lia.
Qed.

Lemma parse_range_text r : range_wf r → parse_range_header (range_text r) = Some (Some r).
Proof.
  intros [Hs He]. unfold parse_range_header. rewrite decide_False by done.
  change (range_text r) with (str "json" ++ "="%byte :: FormatInt (Start r) ++ ":"%byte :: FormatInt (End_ r)).
  rewrite split2_app by vm_decide. cbn [mbind option_bind fst snd]. rewrite decide_False by (intros Hn; by apply Hn).
  rewrite split2_app by (apply FormatInt_not; [done|vm_decide|done]). cbn [mbind option_bind fst snd].
  rewrite !ParseInt_FormatInt by done. by destruct r.
Qed.

(** A part of a keypath that has no bracket. *)
Definition plain_part (p : Keypath) : Prop := no_sep p ∧ p ≠ [] ∧ "["%byte ∉ p.

Lemma state_keypath_plain ps : Forall plain_part ps → state_keypath ("/"%byte :: join_sep ps) = Ret (join_sep ps).
Proof.
  intros Hps. unfold state_keypath. cbn [length].
  assert (slice ("/"%byte :: join_sep ps) 1 (Z.of_nat (S (length (join_sep ps)))) = Ret (join_sep ps)) as ->.
  { apply (slice_tail ["/"%byte]); [done|]. cbn. lia. }
  cbn [obind]. destruct ps as [|p ps']; [done|]. set (ps := p :: ps') in *.
  assert (Forall no_sep ps) as Hns by (eapply Forall_impl; [exact Hps|]; by intros ? (? & _)).
  rewrite split_join by done. unfold filterEmptyStrings. rewrite filter_true by (eapply Forall_impl; [exact Hps|]; by intros ? (_ & ? & _)).
  assert (join_sep ps ≠ []) as Hne.
  { apply Forall_cons in Hps as [(_ & Hp & _) _]. unfold ps. destruct ps'; [done|]. cbn. by destruct p. }
  rewrite Parts_split, split_join by done.
  assert (map_outcome path_part_keys ps = Ret ((λ p, [p]) <$> ps)) as ->.
  { clear Hns Hne. induction Hps as [|q qs (_ & _ & Hq) _ IH]; [done|]. rewrite fmap_cons. cbn [map_outcome]. unfold path_part_keys at 1.
    apply index_byte_None in Hq. rewrite Hq. cbn [obind]. by rewrite IH. }
  cbn [obind]. assert (concat ((λ p, [p]) <$> ps) = ps) as ->; [|by rewrite JoinKeypaths_join].
  clear. induction ps as [|q qs IH]; [done|]. rewrite fmap_cons. cbn [concat app]. by rewrite IH.
Qed.

Lemma header_app k v l name : k ≠ name → header ((k, v) :: l) name = header l name.
Proof. intros Hk. cbn. by rewrite decide_False. Qed.
Lemma header_found k v l : header ((k, v) :: l) k = v.
Proof. cbn. by rewrite decide_True. Qed.

(** The headers of the client's request. *)
Lemma get_request_headers q :
  r_Header (get_request q) (str "State-URI") = q_stateURI q ∧
  r_Header (get_request q) (str "Version") = match q_version q with Some v => ID_Hex v | None => [] end ∧
  r_Header (get_request q) (str "Range") = match q_rng q with Some r => range_text r | None => [] end.
Proof.
  destruct q as [uri v kp rng raw]. unfold get_request. cbn [r_Header q_stateURI q_version q_rng]. 
  case_decide as Hu; destruct v, rng; rewrite ?Hu; cbn [app]; split_and!;
    rewrite ?header_found, ?header_app, ?header_found, ?header_app, ?header_found by discriminate; done.
Qed.

Lemma request_stateURI_get defaultURI q query :
  q_stateURI q ≠ [] → request_stateURI defaultURI (get_request q) query = q_stateURI q.
Proof. intros Hu. unfold request_stateURI. destruct (get_request_headers q) as (-> & _). by rewrite decide_False. Qed.

(** What the server answers to a raw query, in terms of the tree. *)
Record readable_node {T} `{BadgerTxn T} `{JsonCodec} (n : DBNode T) (v : plain) (body : bytes) (len : Z) : Prop := {
  rn_type : ∃ ct, GetContentType n = Ret ct ∧ ct ≠ str "application/octet-stream";
  rn_length : GetContentLength n = Ret len ∧ is_i64 len ∧ (0 ≤ len)%Z;
  rn_size : ∃ s, db_Length n = Ret s;
  rn_value : db_Value n [] None = Ret (Some v);
  rn_body : match GetReadCloser v with Some bs => body = bs | None => json_Marshal v = Ret body end
}.


(** A bracket at the end of a part, or a negative index, makes the handler panic. *)
Theorem bracket_panics :
  state_keypath (str "/list[3]") = Ret (str "list/00000003") ∧
  state_keypath (str "/list[") = Panic ∧ state_keypath (str "/list[-1]") = Panic.
Proof. split_and!; vm_compute; reflexivity. Qed.

(** A transaction that the server has stored is fetched as it is stored; for one that it does not
    have the client returns [Err404]. *)
Theorem fetch_tx_roundtrip {T} `{BadgerTxn T} `{JsonCodec} `{ProtoCodec} `{MapOrder} `{Configs T} `{TxJsonLaws} (h : controllerHub (T := T)) uri id :
  uri ≠ [] → length id = id_length →
  let r := fetch_tx_request uri id in
  route_of r = RouteGetTx ∧
  (∀ tx, hub_FetchTx h uri id = Ret tx → tx_json_ok tx → client_FetchTx (serveGetTx h r) = Ret tx) ∧
  (∀ e, hub_FetchTx h uri id = Err e → client_FetchTx (serveGetTx h r) = Err Err404).
Proof.
  intros Hu Hid r.
  assert (r_Header r (str "State-URI") = uri) as Hh by reflexivity.
  assert (slice (r_Path r) 1 (Z.of_nat (length (r_Path r))) = Ret (str "__tx/" ++ ID_Hex id)) as Hp.
  { change (r_Path r) with (["/"%byte] ++ str "__tx/" ++ ID_Hex id). apply slice_tail; [done|]. cbn. lia. }
  assert (index (split_sep (str "__tx/" ++ ID_Hex id)) 1 = Ret (ID_Hex id)) as Hi.
  { change (str "__tx/" ++ ID_Hex id) with (str "__tx" ++ sep :: ID_Hex id). rewrite split_sep_app.
    rewrite (split_sep_no_sep (ID_Hex id)); [done|]. intros Hin. apply elem_of_hex in Hin. revert Hin. vm_decide. }
  assert (IDFromHex (ID_Hex id) = Ret id) as Hx.
  { unfold IDFromHex, ID_Hex. rewrite decode_encode_hex. cbn [obind]. by rewrite array_from_id. }
  assert (∀ a, hub_FetchTx h uri id = a → serveGetTx h r = or_http 404 a (λ tx,
    match tx_MarshalJSON tx with Ret bs => Ret (inl bs) | Err _ => Panic | Panic => Panic | Running => Running end)) as Hs.
  { intros a <-. unfold serveGetTx. rewrite Hh, decide_False by done. rewrite Hp. cbn [obind]. rewrite Hi. cbn [obind]. unfold or_http at 1. by rewrite Hx. }
  split_and!.
  - unfold route_of. cbn [r_Method r_Path r fetch_tx_request]. rewrite decide_False by (intros [[=]|[=]]). rewrite decide_False by discriminate.
    rewrite decide_True by done. rewrite decide_False by (intros [Hx'|Hx']; [by apply Hx'|discriminate Hx']). rewrite decide_False by discriminate.
    by rewrite has_prefix_app.
  - intros tx Htx Hok. rewrite (Hs _ Htx). destruct (tx_json_roundtrip tx Hok) as (bs & Hm & Hun). cbn [or_http]. rewrite Hm. exact Hun.
  - intros e He. by rewrite (Hs _ He).
Qed.

(** ** Requests that change the host *)

Section ServeHost.
Context {T : Type} `{BadgerTxn T} `{JsonCodec} `{ProtoCodec} `{MapOrder} `{Secp256k1} `{Configs T} `{Derivation}.
Context (keccak256 : bytes → bytes) (open_db : bytes → outcome T).

(** [serveAck]: the status of an error, if there is one. *)
Definition serveAck (t : httpTransport) (h : host (T := T)) (r : request) (body : outcome bytes) (address : Address) :
    outcome (httpTransport * host (T := T) * option Z) :=
  match (let! bs := body in array_UnmarshalText (array_from id_length []) bs) with
  | Ret txID =>
      let! tp := makeHttpPeer keccak256 t [] address in
      Ret (tp.1, HandleAckReceived h (r_Header r (str "State-URI")) txID (as_host_peer tp.1 tp.2), None)
  | Err _ => Ret (t, h, Some 400%Z)
  | Panic => Panic
  | Running => Running
  end.

(** [servePostPrivateTx]: a body that is no JSON panics; every other failure is logged only. *)
Definition servePostPrivateTx `{TxJson} `{Box} (t : httpTransport) (h : host (T := T)) (body : outcome EncryptedTx) (address : Address) :
    outcome (httpTransport * host (T := T)) :=
  match body with
  | Ret encryptedTx =>
      match open_private_tx (t_keyStore t) encryptedTx with
      | Ret tx =>
          let! tp := makeHttpPeer keccak256 t [] address in
          let! h := HandleTxReceived keccak256 open_db h tx (as_host_peer tp.1 tp.2) in
          Ret (tp.1, h)
      | Err _ => Ret (t, h)
      | Panic => Panic
      | Running => Running
      end
  | Err _ => Panic
  | Panic => Panic
  | Running => Running
  end.

(** The end of [servePostTx]; the host handles the transaction in a goroutine. *)
Definition handlePostTx (defaultStateURI : bytes) (randomID : ID) (t : httpTransport) (h : host (T := T)) (r : put_request) (address : Address) :
    outcome (httpTransport * host (T := T) * option Z) :=
  match servePostTx keccak256 defaultStateURI randomID r with
  | Ret tx =>
      let! tp := makeHttpPeer keccak256 t [] address in
      let! h := HandleTxReceived keccak256 open_db h tx (as_host_peer tp.1 tp.2) in
      Ret (tp.1, h, None)
  | Err e => Ret (t, h, Some (if decide (e = ErrBadRequest "internal server error") then 500 else 400)%Z)
  | Panic => Panic
  | Running => Running
  end.

(** [servePostRef]: [file] is the uploaded file, or the error of the form. *)
Definition servePostRef `{Hashes} `{RefsJson} (s : refStore T) (file : outcome reader) : outcome (refStore T * ((Hash * Hash) + Z)) :=
  match file with
  | Ret rd =>
      let! r := StoreObject s rd in
      let '(s, (sha1Hash, sha3Hash, err)) := r in
      Ret (s, match err with Some _ => inr 500%Z | None => inl (sha1Hash, sha3Hash) end)
  | Err _ => Ret (s, inr 400%Z)
  | Panic => Panic
  | Running => Running
  end.
End ServeHost.

(** ** The transport's own life *)

(** What a user's extra data can hold: [[]byte], an array, or something else. *)
Inductive extra_value := EBytes (b : bytes) | EArray (b : bytes) | EOther.

(** [onLoadUser]: the secret that is drawn when there is none goes to a variable of its own. *)
Definition onLoadUser (cookieSecret : bytes) (saved : option extra_value) : bytes :=
  match saved with Some (EBytes b) => go_copy cookieSecret b | _ => cookieSecret end.
Definition onSaveUser (cookieSecret : bytes) : extra_value := EArray cookieSecret.

Definition no_secret : bytes := replicate 32 x00.

Section Life.
Context (keccak256 : bytes → bytes).

(** [Start] up to the server: the secret and the node's own entry in the peer store. *)
Definition http_Start `{Secp256k1} `{!SigningPublic} `{Derivation} (t : httpTransport) (ownURL : bytes) (random : bytes) : outcome httpTransport :=
  let t := if decide (t_cookieSecret t = no_secret) then HttpSession.mkTransport (t_keyStore t) random (t_pendingAuthorizations t) (t_peerStore t) else t in
  let! identities := Identities (t_keyStore t) in
  let! s := fold_outcome (λ s i, AddVerifiedCredentials keccak256 s (mkDialInfo http_name ownURL) (Identity_Address i) 
                           (Some (FromECDSAPub (signing_public (sk_private (id_Signing i))))) (Some (ek_public (id_Encrypting i))))
              (t_peerStore t) identities in
  Ret (with_peerStore t s).

Definition own_url (listenAddr reachableAt : bytes) : bytes :=
  if decide (reachableAt ≠ []) then reachableAt
  else if decide (head listenAddr = Some ":"%byte) then str "http://localhost" ++ listenAddr else str "http://" ++ listenAddr.

Definition NewPeerConn (t : httpTransport) (ownURL dialAddr : bytes) : outcome (httpTransport * httpPeer) :=
  if decide (dialAddr = ownURL ∨ has_prefix dialAddr (str "localhost") = true) then Err ErrPeerIsSelf
  else makeHttpPeer keccak256 t dialAddr (array_from address_length []).

(** [ProvidersOfStateURI]: [fetched] is what the authoritative host of the state URI answers,
    [hostname] the name in [http://stateURI] if that is a URL; nobody cancels the search. *)
Definition http_ProvidersOfStateURI (t : httpTransport) (ownURL : bytes) (fetched : outcome (list bytes)) (hostname : option bytes) :
    outcome (httpTransport * list httpPeer) :=
  let! providers := fetched in
  let providers := match hostname with Some n => providers ++ [str "http://" ++ n] | None => providers end in
  fold_outcome (λ acc providerURL,
      if decide (providerURL = ownURL) then Ret acc
      else let! tp := makeHttpPeer keccak256 acc.1 providerURL (array_from address_length []) in Ret (tp.1, acc.2 ++ [tp.2]))
    (t, []) providers.
End Life.

(** ** The other requests of the client *)

(** [HTTPClient.Authorize]: both requests; the answer to the challenge is set on the first one
    after it was sent. *)
Definition client_authorize_requests (sig : bytes) (jar : cookies) : request * request :=
  (mkRequest (str "AUTHORIZE") (str "/") (header []) ∅, mkRequest (str "AUTHORIZE") (str "/") (header []) jar).

(** [HTTPClient.Subscribe] *)
Definition client_subscribe_request (stateURI : bytes) (jar : cookies) : request :=
  mkRequest (str "GET") (str "/") (header [(str "Subscribe", str "true"); (str "State-URI", stateURI)]) jar.

(** [HTTPClient.Put]: the transaction is signed if it is not. *)
Definition client_Put_tx (keccak256 : bytes → bytes) (sign : Hash → outcome bytes) (tx : Tx) `{JsonCodec} : outcome Tx :=
  if decide (tx_Sig tx = []) then let! hash := Tx_Hash keccak256 tx in let! sig := sign hash in Ret (with_sig tx sig) else Ret tx.

(** ** Acknowledgements *)

Definition ack_request (path stateURI : bytes) (jar : cookies) : request :=
  mkRequest (str "ACK") path (header [(str "State-URI", stateURI)]) jar.

(** A request that has proved an address belongs to a stored peer that has the address. *)
Lemma makeHttpPeer_address kc t a :
  ps_wf (t_peerStore t) → IsZero a = false →
  ∃ t' n pd, makeHttpPeer kc t [] a = Ret (t', inl n) ∧ pd_at (t_peerStore t') n = Some pd ∧ a ∈ pd_addresses pd ∧ TransportName (pd_dialInfo pd) = http_name.
Proof.
  intros Hwf Hz. unfold makeHttpPeer, makePeer. rewrite Hz. cbn [negb].
  destruct (AddVerifiedCredentials_fields kc (t_peerStore t) (mkDialInfo http_name []) a None None Hwf Hz) as (s' & s1 & p & d & _ & _ & Hadd & _ & _ & Hba & _).
  rewrite Hadd. cbn [obind fst snd]. pose proof (wf_AddVerifiedCredentials _ _ _ _ _ _ _ Hwf Hadd) as Hwf'.
  assert (p ∈ PeersFromTransportWithAddress s' http_name a) as Hin.
  { specialize (Hba a (mkDialInfo http_name [])). rewrite decide_True in Hba by done. unfold by_address in Hba.
    unfold PeersFromTransportWithAddress. destruct (ps_withAddress s' !! a) as [m|]; [|done]. apply list_elem_of_fmap.
    exists (mkDialInfo http_name [], p). split; [done|]. apply list_elem_of_filter. split; [done|]. by apply elem_of_map_to_list. }
  destruct (PeersFromTransportWithAddress s' http_name a) as [|n l] eqn:Hl; [by apply elem_of_nil in Hin|]. cbn [head].
  assert (∃ di, by_address s' a di = Some n ∧ TransportName di = http_name) as (di & Hdi & Hname).
  { unfold by_address. unfold PeersFromTransportWithAddress in Hl. destruct (ps_withAddress s' !! a) as [m|]; [|done].
    assert (n ∈ (filter (λ kv, TransportName kv.1 = http_name) (map_to_list m)).*2) as Hn by (rewrite Hl; left).
    apply list_elem_of_fmap in Hn as ([di n'] & -> & [Hf Hm]%list_elem_of_filter). exists di. split; [|done]. cbn. by apply elem_of_map_to_list in Hm. }
  destruct (wf_address s' Hwf' a di n Hdi) as (_ & pd & Hpd & <- & Ha). by exists (with_peerStore t s'), n, pd.
Qed.

Lemma ack_text id : length id = id_length → array_UnmarshalText (array_from id_length []) (EncodeToString id) = Ret id.
Proof.
  intros Hid. unfold array_UnmarshalText. rewrite decode_encode_hex. cbn [obind]. f_equal.
  change (array_from id_length []) with (replicate id_length x00). rewrite <- Hid. apply go_copy_full.
Qed.

(** An acknowledgement is recorded: a client that has proved its address is put the transaction
    no more by this host.  A host sends its acknowledgements without cookies, so its address is
    not known: what it acknowledges is recorded for the dial info without an address, and every
    peer that can be reached is still put the transaction. *)
Theorem ack_recorded {T} `{BadgerTxn T} `{JsonCodec} `{ProtoCodec} `{MapOrder} `{Secp256k1} `{Configs T} keccak256 t (h : host (T := T)) path uri jar id address :
  ps_wf (t_peerStore t) → length id = id_length →
  let r := ack_request path uri jar in
  route_of r = RouteAck ∧
  ∃ t' h' p, serveAck keccak256 t h r (Ret (EncodeToString id)) address = Ret (t', h', None) ∧ ho_hub h' = ho_hub h ∧
    (IsZero address = false →
       address ∈ peer_Addresses t' p ∧ txSeenByPeer h' (as_host_peer t' p) uri id = true ∧
       ∀ tx providers sent, tx_ID tx = id → tx_StateURI tx = uri → as_host_peer t' p ∉ (broadcastToStateURIProviders h' tx providers sent).1) ∧
    (IsZero address = true → ∀ peer uri' id', DialAddr (hp_DialInfo peer) ≠ [] → txSeenByPeer h' peer uri' id' = txSeenByPeer h peer uri' id').
Proof.
  intros Hwf Hid r. split.
  { unfold route_of. cbn [r_Method r ack_request]. rewrite !decide_False by (discriminate || intros [[=]|[=]]). by rewrite decide_True. }
  unfold serveAck. cbn [obind]. rewrite ack_text by done. change (r_Header r (str "State-URI")) with uri.
  destruct (IsZero address) eqn:Hz.
  - unfold makeHttpPeer, makePeer. rewrite Hz. cbn [negb]. rewrite decide_False by (intros Hn; by apply Hn). cbn [obind fst snd].
    eexists _, _, (inr (mkDialInfo http_name [])). split; [done|]. split; [done|]. split; [done|].
    intros _ peer uri' id' Hd. unfold txSeenByPeer. case_decide; [done|]. apply bool_decide_ext.
    unfold HandleAckReceived, markTxSeenByPeer, seen_ids. cbn [ho_seen with_seen as_host_peer hp_DialInfo peer_DialInfo].
    rewrite lookup_insert_ne; [done|]. intros Heq. apply Hd. by rewrite <- Heq.
  - destruct (makeHttpPeer_address keccak256 t address Hwf Hz) as (t' & n & pd & -> & Hpd & Ha & _). cbn [obind fst snd].
    assert (address ∈ peer_Addresses t' (inl n)) as Haddr by (unfold peer_Addresses, peer_details; rewrite Hpd; by apply elem_of_elements).
    set (h' := HandleAckReceived h uri id (as_host_peer t' (inl n))).
    assert (txSeenByPeer h' (as_host_peer t' (inl n)) uri id = true) as Hseen.
    { unfold txSeenByPeer. rewrite decide_False; [|cbn [hp_Addresses as_host_peer]; intros Hnil; rewrite Hnil in Haddr; by apply elem_of_nil in Haddr].
      apply bool_decide_eq_true. unfold h', HandleAckReceived. rewrite markTxSeen_ids. set_solver. }
    exists t', h', (inl n). split_and!; try done. intros _. split_and!; try done. intros tx providers sent Hi Hu.
    unfold broadcastToStateURIProviders. assert (as_host_peer t' (inl n) ∉ ([], sent).1) as Hout by apply not_elem_of_nil.
    revert Hout. generalize (([], sent) : list host_peer * gset PeerDialInfo) as acc. induction providers as [|p l IH]; intros [out sn] Ho; [done|].
    cbn [foldl]. apply IH. unfold provider_step. destruct (txSeenByPeer h' p _ _) eqn:Hs; [done|]. repeat case_decide; try done. cbn.
    rewrite elem_of_app, list_elem_of_singleton. intros [?|<-]; [done|]. rewrite Hi, Hu in Hs. congruence.
Qed.

(** ** The client and the server *)

(** The client's [Authorize] never proves its address: whatever it signs, both of its requests
    ask for a challenge, and the server answers them with one. *)
Theorem client_never_authorized `{Secp256k1} `{!SigningPublic} `{Derivation} keccak256 t w sid address challenge sig jar :
  let '(r1, r2) := client_authorize_requests sig jar in
  ∀ r, r = r1 ∨ r = r2 →
    ∃ t', serve_route keccak256 t w sid address challenge (route_of r) = Ret (t', w, AChallenge (EncodeToString challenge)) ∧ t_peerStore t' = t_peerStore t.
Proof. cbn. intros r [-> | ->]; eexists; split; done. Qed.

(** The client's [Subscribe] asks for the type [true], which the server refuses. *)
Theorem client_subscribe_refused {T} `{BadgerTxn T} `{JsonCodec} `{ProtoCodec} `{MapOrder} `{Secp256k1} `{Configs T} {St}
    (copy : DBNode T → Keypath → outcome St) keccak256 defaultURI sig_address t (h : host (T := T)) uri jar query address flusher upgrade id :
  ∃ status, serveSubscription copy keccak256 defaultURI sig_address t h (client_subscribe_request uri jar) query address flusher upgrade id = Ret (t, h, inr status).
Proof.
  unfold serveSubscription. destruct (negb _ && negb flusher); [by eexists|].
  assert (∃ e, subscription_params defaultURI (client_subscribe_request uri jar) query = Err e) as (e & ->); [|by eexists].
  unfold subscription_params, parse_subscription. rewrite decide_False by discriminate. by eexists.
Qed.

(** The secret of the cookies is saved in a form that is not read back, so a restarted
    transport draws a new one, and nobody's session survives. *)
Theorem cookie_secret_not_restored `{Secp256k1} `{!SigningPublic} `{Derivation} keccak256 (t t' : httpTransport) secret ownURL random :
  t_cookieSecret t = onLoadUser no_secret (Some (onSaveUser secret)) → http_Start keccak256 t ownURL random = Ret t' → t_cookieSecret t' = random.
Proof.
  cbn [onLoadUser onSaveUser]. intros Hs. unfold http_Start. rewrite decide_True by done. cbn [t_keyStore t_peerStore].
  destruct (Identities (t_keyStore t)); [|done..]. cbn [obind]. destruct (fold_outcome _ _ _); [|done..]. by intros [= <-].
Qed.

(** ** Examples *)

#[local] Existing Instance toy_curve.
#[local] Existing Instance signing_derivation.
#[local] Existing Instance session_public.
#[local] Existing Instance plain_configs.
#[local] Existing Instance toy_json.
#[local] Existing Instance toy_json_laws.

Lemma client_subscribe_refused_witness :
  ∃ status, serveSubscription (St := unit) (λ _ _, Ret tt) (λ b, b) [] (λ b, b) transport_0 example_host (client_subscribe_request (str "foo.bar/baz") ∅)
    (λ _, []) [] true None 0 = Ret (transport_0, example_host, inr status).
Proof. apply client_subscribe_refused. Defined.

Lemma ack_recorded_witness :
  ∃ t' h' p, serveAck (λ b, b) transport_0 example_host (ack_request (str "/") (str "foo.bar/baz") ∅) (Ret (EncodeToString (id_of 9))) own_addr = Ret (t', h', None) ∧
    txSeenByPeer h' (as_host_peer t' p) (str "foo.bar/baz") (id_of 9) = true.
Proof.
  destruct (ack_recorded (λ b, b) transport_0 example_host (str "/") (str "foo.bar/baz") ∅ (id_of 9) own_addr) as (_ & t' & h' & p & Hs & _ & Hp & _).
  - apply wf_empty.
  - reflexivity.
  - exists t', h', p. split; [exact Hs|]. apply Hp. vm_compute. reflexivity.
Defined.

(** A state whose key [a] is a text. *)
Definition read_uri : bytes := str "foo.bar/baz".
Definition read_states : gmap bytes bytes :=
  match db_Set (StateAtVersion (λ _, ∅ : gmap bytes bytes) CurrentVersion true) (str "a") None (GScalar (SString (str "hello")) : plain) with
  | Ret n => db_tx n
  | _ => ∅
  end.
Definition read_hub : controllerHub (T := gmap bytes bytes) := mkHub {[read_uri := NewController read_uri read_states]} ∅.


Lemma fetch_tx_roundtrip_witness :
  route_of (fetch_tx_request read_uri (id_of 7)) = RouteGetTx ∧ client_FetchTx (serveGetTx read_hub (fetch_tx_request read_uri (id_of 7))) = Err Err404.
Proof.
  destruct (fetch_tx_roundtrip read_hub read_uri (id_of 7)) as (Hr & _ & Hmiss).
  - discriminate.
  - reflexivity.
  - split; [exact Hr|]. apply (Hmiss Err404). vm_compute. reflexivity.
Defined.

Lemma cookie_secret_not_restored_witness :
  ∃ t', http_Start (λ b, b) (HttpSession.mkTransport session_keys no_secret ∅ (empty_store ∅)) (str "http://me") (str "new secret") = Ret t' ∧ t_cookieSecret t' = str "new secret".
Proof.
  set (t := HttpSession.mkTransport session_keys no_secret ∅ (empty_store ∅)).
  assert (match http_Start (λ b, b) t (str "http://me") (str "new secret") with Ret _ => true | _ => false end = true) as Hr by (vm_compute; reflexivity).
  destruct (http_Start (λ b, b) t (str "http://me") (str "new secret")) as [t'| | |] eqn:Ht; [|discriminate Hr..].
  exists t'. split; [reflexivity|]. exact (cookie_secret_not_restored (λ b, b) t t' (str "old secret") (str "http://me") (str "new secret") eq_refl Ht).
Defined.
