(* ===== verification/GitHelper.v ===== *)
(** * The git remote helper ([git-remote-helper/main.go])

    Git starts the helper for a remote [redwood://host@provider/name/path] and speaks a line
    protocol with it.  A push uploads the files of every commit that the host does not have
    as blobs and sends one transaction per commit, whose ID is the hash of the commit; a
    fetch reads commits out of the state tree and writes them into the repository.

    The HTTP client is the interface [HelperClient] to what file HttpServe models, and
    libgit2 the interface [Git]; times and floating-point numbers are those of the standard
    library.  [fetchCommit] starts one goroutine per file: these are a step relation over the
    table of blobs and the index that they share. *)

From S2P Require Import Prelude Types Keypath TreeTypes GoValue GoPaths NodeCodec MemoryNode MemoryProps MemoryIter BadgerTxn DBNode Tx.
From S2P Require Import TxStore Nelson HttpTx HttpServe.

(** ** Interfaces *)

(** [HTTPClient], with the state of the host it talks to: [Get] returns the body and the
    length, the boolean asks for the raw value; [StoreRef] returns the SHA1 hash. *)
Class HelperClient (S : Type) := {
  cl_Get : S → bytes → Keypath → bool → outcome (bytes * Z);
  cl_FetchTx : S → bytes → ID → outcome Tx;
  cl_Put : S → Tx → outcome S;
  cl_StoreRef : S → bytes → outcome (S * Hash)
}.

(** [MarshalText] and [UnmarshalJSON] of [time.Time]. *)
Class TimeText (time : Type) := {
  time_zero : time;
  time_MarshalText : time → outcome bytes;
  time_UnmarshalText : bytes → outcome time
}.

(** The conversions between integers and the bits of a [float64]. *)
Class Floats := { float_of_int : Z → Z; int_of_float : Z → Z }.

Abbreviation Oid := bytes (only parsing).

Record GitSignature (time : Type) := mkGitSignature { sg_Name : bytes; sg_Email : bytes; sg_When : time }.
Arguments mkGitSignature {time}.
Arguments sg_Name {time}.
Arguments sg_Email {time}.
Arguments sg_When {time}.

Record GitCommit (time : Type) := mkGitCommit {
  g_Tree : Oid;
  g_Parents : list Oid;
  g_Message : bytes;
  g_Author : GitSignature time;
  g_Committer : GitSignature time
}.
Arguments mkGitCommit {time}.
Arguments g_Tree {time}.
Arguments g_Parents {time}.
Arguments g_Message {time}.
Arguments g_Author {time}.
Arguments g_Committer {time}.

Inductive ObjectType := ObjectBlob | ObjectTree | ObjectCommit.
#[export] Instance ObjectType_eq_dec : EqDecision ObjectType.
Proof. solve_decision. Defined.

Record treeEntry := mkTreeEntry { te_oid : Oid; te_objectType : ObjectType; te_fullPath : bytes; te_mode : Z }.

Record IndexEntry := mkIndexEntry { ie_Mode : Z; ie_Size : Z; ie_Id : Oid }.
#[export] Instance IndexEntry_eq_dec : EqDecision IndexEntry.
Proof. solve_decision. Defined.

(** libgit2: [git_Time] is [Commit.Time], [git_WriteBlob] a write stream of the given size,
    [git_WriteTree] is [WriteTreeTo] with [LookupTree], [git_Dwim] the target of a
    reference. *)
Class Git (R time : Type) := {
  git_LookupCommit : R → Oid → outcome (GitCommit time);
  git_CreateCommit : R → GitCommit time → outcome R;
  git_Time : GitCommit time → time;
  git_WriteBlob : R → Z → bytes → outcome (R * Oid);
  git_IndexAdd : gmap bytes IndexEntry → bytes → IndexEntry → outcome (gmap bytes IndexEntry);
  git_WriteTree : R → gmap bytes IndexEntry → outcome (R * Oid);
  git_Walk : R → Oid → outcome (list treeEntry * option error);
  git_LookupBlob : R → Oid → outcome bytes;
  git_Dwim : R → bytes → outcome Oid
}.

(** [git.NewOid]: forty hexadecimal digits. *)
Definition NewOid (s : bytes) : outcome Oid :=
  if decide (length s = 40) then DecodeString s else Err (ErrOther "unable to parse OID").

Definition Oid_String (o : Oid) : bytes := EncodeToString o.

(** ** The remote's address *)

(** The match of the regular expression: after [redwood://] what is before the first [@], if
    there is one, and the rest of the line. *)
Definition helper_match (arg : bytes) : option (bytes * bytes) :=
  match index_sub arg (str "redwood://") with
  | None => None
  | Some i =>
      let rest := drop (i + length (str "redwood://")) arg in
      let '(host, path) := match index_byte "@"%byte rest with Some j => (take j rest, drop (S j) rest) | None => ([], rest) end in
      Some (host, match index_byte newline path with Some k => take k path | None => path end)
  end.

(** [main]: the host, the state URI and the root keypath. *)
Definition helper_target (arg : bytes) : outcome (bytes * bytes * Keypath) :=
  match helper_match arg with
  | None => Panic
  | Some (host, path) =>
      let parts := split_sep path in
      if decide (length parts < 2) then Panic
      else Ret (host, join_sep (take 2 parts), join_sep (drop 2 parts))
  end.

(** ** Reading commits *)

(** [encoding/json] into a field: a missing value and null leave it as it is. *)
Definition decode_field {A} (zero : A) (f : plain → outcome A) (m : list (bytes * plain)) (name : string) : outcome A :=
  match assoc_get (str name) m with None | Some (GScalar SNil) => Ret zero | Some v => f v end.

Definition ErrJsonType : error := ErrOther "json: cannot unmarshal".

Definition decode_text (v : plain) : outcome bytes := match v with GScalar (SString s) => Ret s | _ => Err ErrJsonType end.
Definition decode_object (v : plain) : outcome (list (bytes * plain)) := match v with GMap m => Ret m | GScalar SNil => Ret [] | _ => Err ErrJsonType end.
Definition decode_texts (v : plain) : outcome (list bytes) :=
  match v with GSlice l => map_outcome (λ x, match x with GScalar SNil => Ret [] | _ => decode_text x end) l | _ => Err ErrJsonType end.

Record Commit (time : Type) := mkCommit {
  cm_Hash : bytes;
  cm_Parents : list bytes;
  cm_Message : bytes;
  cm_Timestamp : time;
  cm_Author : GitSignature time;
  cm_Committer : GitSignature time;
  cm_Files : MemoryNode Empty_set
}.
Arguments mkCommit {time}.
Arguments cm_Hash {time}.
Arguments cm_Parents {time}.
Arguments cm_Message {time}.
Arguments cm_Timestamp {time}.
Arguments cm_Author {time}.
Arguments cm_Committer {time}.
Arguments cm_Files {time}.

(** [walkLinks]: the links of a tree, the last keypaths first. *)
Definition link_at (n : MemoryNode Empty_set) (k : Keypath) : outcome (option (LinkType * bytes * Keypath)) :=
  let '(parentKeypath, key) := Pop k in
  if Equals key ContentTypeKey then
    let parentKeypath := nilable parentKeypath in
    let! parentNode := NodeAt tt n parentKeypath None in
    match parentNode with
    | inr x => match x with end
    | inl parentNode =>
        let! contentType :=
          match Value tt parentNode ContentTypeKey None with
          | Ret (Some (GScalar (SString s))) => Ret s
          | Ret _ => Ret (str "application/json")
          | Err e => if decide (e = Err404) then Ret (str "application/json") else Err e
          | Panic => Panic
          | Running => Running
          end in
        if decide (contentType ≠ str "link") then Ret None
        else
          let! linkStr := StringValue tt parentNode ValueKey in
          Ret (Some (DetermineLinkType (default [] linkStr), parentKeypath))
    end
  else Ret None.

Definition walkLinks (n : MemoryNode Empty_set) : outcome (list (LinkType * bytes * Keypath)) :=
  let! ks := collect (S (S (length (keypaths n)))) (new_depth_first n []) in
  let! links := map_outcome (link_at n) ks in
  Ret (omap id links).

(** [setValueAtKeypath] with [clobber]: the maps on the way are made, anything else there
    panics. *)
Fixpoint set_file (m : plain) (path : list bytes) (val : plain) : outcome plain :=
  match path, m with
  | [], _ => Panic
  | [key], GMap kvs => Ret (GMap (assoc_set key val kvs))
  | key :: path, GMap kvs =>
      let! sub := set_file (default (GMap []) (assoc_get key kvs)) path val in
      Ret (GMap (assoc_set key sub kvs))
  | _, _ => Panic
  end.

Section Helper.
Context {S R time : Type} `{HelperClient S} `{TimeText time} `{Git R time} `{Floats} `{JsonCodec}.
Context (StateURI : bytes) (RootKeypath : Keypath) (From : Address).

Definition decode_signature (v : plain) : outcome (GitSignature time) :=
  let! m := decode_object v in
  let! name := decode_field [] decode_text m "name" in
  let! email := decode_field [] decode_text m "email" in
  let! when := decode_field time_zero (λ v, let! s := decode_text v in time_UnmarshalText s) m "timestamp" in
  Ret (mkGitSignature name email when).

Definition no_signature : GitSignature time := mkGitSignature [] [] time_zero.

(** [json.Decode] into a [Commit] whose [Files] is an empty memory tree. *)
Definition decode_commit (hash : bytes) (v : plain) : outcome (Commit time) :=
  let! m := decode_object v in
  let! parents := decode_field [] decode_texts m "parents" in
  let! message := decode_field [] decode_text m "message" in
  let! timestamp := decode_field time_zero (λ v, let! s := decode_text v in time_UnmarshalText s) m "timestamp" in
  let! author := decode_field no_signature decode_signature m "author" in
  let! committer := decode_field no_signature decode_signature m "committer" in
  let! files :=
    match assoc_get (str "files") m with
    | None => Ret NewMemoryNode
    | Some (GScalar SNil) => Ret NewMemoryNode
    | Some v => let! r := Set_ tt NewMemoryNode [] None v in Ret r.2
    end in
  Ret (mkCommit hash parents message timestamp author committer files).

Definition get_commit (s : S) (hash : bytes) : outcome (Commit time) :=
  let! r := cl_Get s StateURI (Push RootKeypath (str "commits/" ++ hash)) true in
  let! v := json_Unmarshal r.1 in
  decode_commit hash v.

(** [getRefs]: the entries of [heads] in the order in which the map is ranged over. *)
Definition ref_line (head : bytes * list (bytes * plain)) : list bytes :=
  match assoc_get (str "HEAD") head.2 with
  | Some (GScalar (SString commitHash)) => [commitHash ++ str " refs/heads/" ++ head.1]
  | _ => []
  end.

Definition getRefs (s : S) : outcome (list bytes) :=
  let! r := cl_Get s StateURI (Push RootKeypath (str "refs/heads")) true in
  let! v := json_Unmarshal r.1 in
  let! heads := decode_object v in
  let! heads := map_outcome (λ '(name, v), let! m := decode_object v in Ret (name, m)) heads in
  Ret (concat (ref_line <$> heads) ++ [str "@refs/heads/master HEAD"]).

(** ** Fetching *)

(** The loop of [fetch] over the ancestors: a queue, without a record of what was seen.
    [fuel] bounds its turns. *)
Fixpoint fetch_ancestors (fuel : nat) (get : bytes → outcome (Commit time)) (stack : list bytes) (commits : list (Commit time)) : outcome (list (Commit time)) :=
  match fuel with
  | O => Running
  | Datatypes.S fuel =>
      match stack with
      | [] => Ret commits
      | commitHash :: stack =>
          let! commit := get commitHash in
          fetch_ancestors fuel get (stack ++ cm_Parents commit) (commits ++ [commit])
      end
  end.

(** Where the goroutine of a file stands. *)
Inductive file_pc := FGet | FLoad (ref : bytes) | FBlob (ref : bytes) | FAdd (oid : Oid) (size : Z) | FOver.

(** What the goroutines share: the repository, the table [refs], the index, and what they
    sent to [chErr]. *)
Record fetching := mkFetching {
  ft_repo : R;
  ft_refs : gmap bytes (Oid * Z);
  ft_index : gmap bytes IndexEntry;
  ft_errs : list error;
  ft_gos : list (Keypath * file_pc)
}.

Definition files_kp (commitHash : bytes) (filePath : Keypath) : Keypath := Push (str "commits/" ++ commitHash ++ str "/files") filePath.

Definition goto_file (g : nat) (filePath : Keypath) (p : file_pc) (x : fetching) : fetching :=
  mkFetching (ft_repo x) (ft_refs x) (ft_index x) (ft_errs x) (<[g := (filePath, p)]> (ft_gos x)).
Definition send_err (e : error) (x : fetching) : fetching := mkFetching (ft_repo x) (ft_refs x) (ft_index x) (ft_errs x ++ [e]) (ft_gos x).

(** One step of a goroutine.  The errors of the block that downloads a blob are assigned to a
    variable of that block, and so nobody gets them. *)
Definition run_file (s : S) (commit : Commit time) (x : fetching) (g : nat) : outcome fetching :=
  match ft_gos x !! g with
  | None | Some (_, FOver) => Ret x
  | Some (filePath, FGet) =>
      match cl_Get s StateURI (Push (files_kp (cm_Hash commit) filePath) (str "value")) true with
      | Ret (bs, _) => if decide (length bs < length (str "ref:")) then Panic else Ret (goto_file g filePath (FLoad (drop (length (str "ref:")) bs)) x)
      | Err e => Ret (goto_file g filePath FOver (send_err e x))
      | Panic => Panic
      | Running => Running
      end
  | Some (filePath, FLoad ref) =>
      match ft_refs x !! ref with
      | Some (oid, size) => Ret (goto_file g filePath (FAdd oid size) x)
      | None => Ret (goto_file g filePath (FBlob ref) (mkFetching (ft_repo x) (<[ref := (replicate 20 x00, 0%Z)]> (ft_refs x)) (ft_index x) (ft_errs x) (ft_gos x)))
      end
  | Some (filePath, FBlob ref) =>
      match cl_Get s StateURI (files_kp (cm_Hash commit) filePath) false with
      | Ret (data, size) =>
          match git_WriteBlob (ft_repo x) size data with
          | Ret (repo, oid) => Ret (goto_file g filePath (FAdd oid size) (mkFetching repo (<[ref := (oid, size)]> (ft_refs x)) (ft_index x) (ft_errs x) (ft_gos x)))
          | Err _ => Ret (goto_file g filePath FOver x)
          | Panic => Panic
          | Running => Running
          end
      | Err _ => Ret (goto_file g filePath FOver x)
      | Panic => Panic
      | Running => Running
      end
  | Some (filePath, FAdd oid size) =>
      match FloatValue tt (cm_Files commit) (Push filePath (str "mode")) with
      | Ret (Some mode) =>
          match git_IndexAdd (ft_index x) filePath (mkIndexEntry (int_of_float mode) size oid) with
          | Ret index => Ret (goto_file g filePath FOver (mkFetching (ft_repo x) (ft_refs x) index (ft_errs x) (ft_gos x)))
          | Err e => Ret (goto_file g filePath FOver (send_err e x))
          | Panic => Panic
          | Running => Running
          end
      | Ret None => Ret (goto_file g filePath FOver (send_err (ErrOther "missing mode") x))
      | Err e => Ret (goto_file g filePath FOver (send_err e x))
      | Panic => Panic
      | Running => Running
      end
  end.

Definition file_over (f : Keypath * file_pc) : bool := match f.2 with FOver => true | _ => false end.

(** [fetchCommit]; [sched] is the order in which the goroutines make their steps. *)
Definition fetchCommit (s : S) (repo : R) (refs : gmap bytes (Oid * Z)) (commit : Commit time) (sched : list nat) : outcome (R * gmap bytes (Oid * Z)) :=
  let! links := walkLinks (cm_Files commit) in
  let! x := fold_outcome (run_file s commit) (mkFetching repo refs ∅ [] ((λ '(_, _, filePath), (filePath, FGet)) <$> links)) sched in
  match ft_errs x with
  | e :: _ => Err e
  | [] =>
      if forallb file_over (ft_gos x) then
        let! t := git_WriteTree (ft_repo x) (ft_index x) in
        let '(repo, treeOid) := t in
        let! parents := map_outcome (λ pid, let! oid := NewOid pid in let! _ := git_LookupCommit repo oid in Ret oid) (cm_Parents commit) in
        let! repo := git_CreateCommit repo (mkGitCommit treeOid parents (cm_Message commit) (cm_Author commit) (cm_Committer commit)) in
        Ret (repo, ft_refs x)
      else Running
  end.

(** [fetch]: the commits are written from the last one collected to the first. *)
Definition fetch (fuel : nat) (s : S) (repo : R) (headCommitHash : bytes) (sched : Commit time → list nat) : outcome R :=
  let! commits := fetch_ancestors fuel (get_commit s) [headCommitHash] [] in
  let! r := fold_outcome (λ '(repo, refs) commit, fetchCommit s repo refs commit (sched commit)) (repo, ∅) (reverse commits) in
  Ret r.1.

(** ** Pushing *)

Record uploaded := mkUploaded { up_name : bytes; up_hash : Hash; up_mode : Z }.

(** [SniffContentType] of [util.go]: reading from an empty buffer is an error; [detect] is
    [http.DetectContentType]. *)
Definition SniffContentType (detect : bytes → bytes) (filename data : bytes) : outcome bytes :=
  if decide (data = []) then Err (ErrOther "EOF")
  else
    let contentType := detect (go_copy (replicate 512 x00) data) in
    Ret (if decide (contentType = str "application/octet-stream") then GuessContentTypeFromFilename filename else contentType).

Context (detect : bytes → bytes).

(** The goroutine that uploads a file; the boolean says that one has failed. *)
Definition upload (acc : S * list uploaded * bool) (file : treeEntry * bytes) : outcome (S * list uploaded * bool) :=
  let '(s, ups, failed) := acc in
  match SniffContentType detect (te_fullPath file.1) file.2 with
  | Ret _ =>
      match cl_StoreRef s file.2 with
      | Ret (s, sha1) => Ret (s, ups ++ [mkUploaded (te_fullPath file.1) sha1 (te_mode file.1)], failed)
      | Err _ => Ret (s, ups, true)
      | Panic => Panic
      | Running => Running
      end
  | Err _ => Ret (s, ups, true)
  | Panic => Panic
  | Running => Running
  end.

Definition text (s : bytes) : plain := GScalar (SString s).
Definition commit_kp (commitHash : bytes) (name : string) : Keypath := str "commits/" ++ commitHash ++ str name.

Definition file_link (u : uploaded) : plain :=
  GMap [(str "Content-Type", text (str "link")); (str "value", text (str "ref:sha1:" ++ take 40 (Hash_Hex (up_hash u)))); (str "mode", GScalar (SInt KInt (up_mode u)))].

Definition file_tree (ups : list uploaded) : outcome plain := fold_outcome (λ m u, set_file m (split_sep (up_name u)) (file_link u)) (GMap []) ups.

Definition signature_value (g : GitSignature time) : outcome plain :=
  let! when := time_MarshalText (sg_When g) in
  Ret (GMap [(str "name", text (sg_Name g)); (str "email", text (sg_Email g)); (str "timestamp", text when)]).

(** The transaction of a commit. *)
Definition pushed_tx (commitId : Oid) (commit : GitCommit time) (ups : list uploaded) : outcome Tx :=
  let parentStrs := Oid_String <$> g_Parents commit in
  let! parents := if decide (parentStrs = []) then Ret [GenesisTxID] else map_outcome IDFromHex parentStrs in
  let commitHash := Oid_String commitId in
  let! commitID := IDFromHex commitHash in
  let! timeStr := time_MarshalText (git_Time commit) in
  let! author := signature_value (g_Author commit) in
  let! committer := signature_value (g_Committer commit) in
  let! fileTree := file_tree ups in
  let worktree := GMap [(str "Content-Type", text (str "link")); (str "value", text (str "state:somegitprovider.org/gitdemo/commits/" ++ commitHash ++ str "/files"))] in
  Ret (mkTx commitID parents [] From [] StateURI
    [mkPatch (commit_kp commitHash "/parents") None (if decide (parentStrs = []) then GScalar SNil else GSlice (text <$> parentStrs));
     mkPatch (commit_kp commitHash "/message") None (text (g_Message commit));
     mkPatch (commit_kp commitHash "/timestamp") None (text timeStr);
     mkPatch (commit_kp commitHash "/author") None author;
     mkPatch (commit_kp commitHash "/committer") None committer;
     mkPatch (commit_kp commitHash "/files") None fileTree;
     mkPatch (str "refs/heads/master") None (GMap [(str "HEAD", text commitHash); (str "worktree", worktree)])]
    [] true [] TxStatusUnknown []).

(** [pushCommit].  [arrive] is the order in which the uploads are received.  When one has
    failed, the function returns at once: the goroutine that sends the transaction then sees
    that, or sends what [kept] has left of the uploads.  What goes wrong in goroutines, in
    walking the tree or in sending is not returned. *)
Definition pushCommit (s : S) (repo : R) (commitId : Oid) (arrive : list uploaded → list uploaded) (kept : option (list uploaded → list uploaded)) : outcome S :=
  let! commit := git_LookupCommit repo commitId in
  let! walked := git_Walk repo (g_Tree commit) in
  let! files := map_outcome (λ e, let! data := git_LookupBlob repo (te_oid e) in Ret (e, data)) (filter (λ e, te_objectType e = ObjectBlob) walked.1) in
  let! u := fold_outcome upload (s, [], false) files in
  let '(s, ups, failed) := u in
  let put ups := match (let! tx := pushed_tx commitId commit ups in cl_Put s tx) with Err _ => Ret s | r => r end in
  if failed : bool then match kept with None => Ret s | Some f => put (f ups) end else put (arrive ups).

(** [pushRef]; the ID is random. *)
Definition ref_tx (txID : ID) (destRefName : bytes) (commitId : Oid) : outcome Tx :=
  let branchKeypath := Push RootKeypath destRefName in
  let commitHash := Oid_String commitId in
  let! parentID := IDFromHex commitHash in
  Ret (mkTx txID [parentID] [] From [] StateURI
    [mkPatch (Push branchKeypath (str "HEAD")) None (text commitHash);
     mkPatch (Push branchKeypath (str "reflog")) (Some (mkRange 0 0)) (text commitHash);
     mkPatch (Push branchKeypath (str "worktree")) None
       (GMap [(str "Content-Type", text (str "link")); (str "value", text (str "state:" ++ StateURI ++ str "/commits/" ++ commitHash ++ str "/files"))])]
    [] false [] TxStatusUnknown []).

Definition pushRef (s : S) (txID : ID) (destRefName : bytes) (commitId : Oid) : outcome S :=
  let! tx := ref_tx txID destRefName commitId in cl_Put s tx.

(** The loop of [push] over the ancestors. *)
Fixpoint push_ancestors (fuel : nat) (s : S) (repo : R) (stack : list Oid) (arrive : list uploaded → list uploaded) (kept : option (list uploaded → list uploaded)) : outcome S :=
  match fuel with
  | O => Running
  | Datatypes.S fuel =>
      match stack with
      | [] => Ret s
      | commitId :: stack =>
          let! s :=
            match cl_FetchTx s StateURI (IDFromBytes commitId) with
            | Err e => if decide (e = Err404) then pushCommit s repo commitId arrive kept else Err e
            | Ret _ => Ret s
            | Panic => Panic
            | Running => Running
            end in
          let! commit := git_LookupCommit repo commitId in
          push_ancestors fuel s repo (stack ++ g_Parents commit) arrive kept
      end
  end.

Definition push (fuel : nat) (s : S) (repo : R) (txID : ID) (srcRefName destRefName : bytes) (arrive : list uploaded → list uploaded)
    (kept : option (list uploaded → list uploaded)) : outcome S :=
  let srcRefName := match srcRefName with c :: rest => if decide (c = "+"%byte) then rest else srcRefName | [] => [] end in
  let! headCommitId := git_Dwim repo srcRefName in
  let! s := push_ancestors fuel s repo [headCommitId] arrive kept in
  pushRef s txID destRefName headCommitId.
End Helper.

(** ** The protocol *)

Section Speak.
(** The helper's state, and what it does for a command. *)
Context {X : Type} (list_refs : X → outcome (list bytes)) (do_fetch : X → bytes → outcome X) (do_push : X → bytes → bytes → outcome X).

Definition ErrMalformedPush : error := ErrOther "malformed 'push' command".

(** The lines of a batch of pushes: a line is dealt with when the one after it has been
    read. *)
Fixpoint push_lines (x : X) (text : bytes) (lines : list bytes) : outcome (X * list bytes) :=
  match lines with
  | [] => Ret (x, [])
  | next :: lines =>
      match split_on " " text with
      | _ :: srcDst :: _ =>
          match split_on ":" srcDst with
          | src :: dst :: _ =>
              let! x := do_push x src dst in
              if decide (next = []) then Ret (x, lines) else push_lines x next lines
          | _ => Err ErrMalformedPush
          end
      | _ => Err ErrMalformedPush
      end
  end.

(** [speakGit], not on Windows: the state, what has been written and how it ends.  [fuel]
    bounds the lines. *)
Fixpoint speakGit (fuel : nat) (x : X) (out : list bytes) (lines : list bytes) : outcome (X * list bytes) :=
  match fuel with
  | O => Running
  | Datatypes.S fuel =>
      match lines with
      | [] => Ret (x, out)
      | line :: lines =>
          let text := TrimSpace line in
          if has_prefix text (str "capabilities") then speakGit fuel x (out ++ [str "list"; str "fetch"; str "push"; []]) lines
          else if has_prefix text (str "list") then
            let! refs := list_refs x in
            speakGit fuel x (out ++ refs ++ [[]]) lines
          else if has_prefix text (str "fetch") then
            let! commitHash := index (split_on " " text) 1 in
            let! x := do_fetch x commitHash in
            speakGit fuel x (out ++ [[]]) lines
          else if has_prefix text (str "push") then
            let! r := push_lines x text lines in
            speakGit fuel r.1 (out ++ [[]]) r.2
          else if decide (text = []) then speakGit fuel x out lines
          else Err (ErrOther "unknown git speak")
      end
  end.
End Speak.
