(* ===== verification/StateQuery.v ===== *)
(** * State queries with frames and indices ([serveGetState] of [transport.http.go])

    [serveGetState] of file HttpServe takes the queries of an index and of a state with its
    frames resolved as arguments.  They are defined here, over [QueryIndex] and over [Seek]
    and [Resolve], with the blob store behind the links. *)

From S2P Require Import Prelude Types Keypath TreeTypes GoValue GoPaths NodeCodec MemoryNode MemoryProps MemoryIter BadgerTxn DBNode Tx PatchParser.
From S2P Require Import TxStore Nelson Frames Permissions Controller Hub Indices RefStore HttpTx HttpSession HttpServe.

Section Query.
Context {T : Type} `{BadgerTxn T} `{JsonCodec} `{ProtoCodec} `{MapOrder} `{Secp256k1} `{Configs T} `{Hashes} `{RefsJson}.

(** [RefObjectReader] of the hub: [None] is [os.ErrNotExist]. *)
Definition hub_RefObjectReader (s : refStore T) (refID : RefID) : outcome (option (blob_reader * Z)) :=
  match Object s refID with
  | Ret (data, len) => Ret (Some (mkBlobReader data, Z.of_nat len))
  | Err e => if decide (e = ErrNotExist) then Ret None else Err e
  | Panic => Panic
  | Running => Running
  end.

(** The content type and the body of a value with readers. *)
Definition frame_body (contentType : bytes) (val : fval) : outcome (bytes * bytes) :=
  match fval_reader val with
  | Some bs => Ret (contentType, bs)
  | None => match json_Marshal (json_view val) with Ret j => Ret (str "application/json", j) | Err _ => Panic | Panic => Panic | Running => Running end
  end.

(** The end of [serveGetState] for a resolved node. *)
Definition respond_node (parents : bytes) (kp : Keypath) (h : heap) (n : tnode) (anyMissing : bool) : outcome (state_reply + Z) :=
  or_http 500 (tnode_GetContentType h n) (λ contentType,
    let! part := if decide (contentType = str "application/octet-stream") then Part kp (-1) else Ret None in
    let contentType := if decide (contentType = str "application/octet-stream") then GuessContentTypeFromFilename (nilable part) else contentType in
    or_http 500 (tnode_GetContentLength h n) (λ contentLength,
      or_http 500 (tnode_Length h n) (λ resourceLength,
        or_http 400 (tnode_GetValueRecursive h n [] None) (λ val,
          match val with
          | None => Ret (inr 404%Z)
          | Some val =>
              let! body := frame_body contentType val in
              Ret (inl (mkStateReply parents contentType (if decide (contentLength > 0)%Z then FormatInt contentLength else [])
                          (FormatUint resourceLength) (allowSubscribe body.1) body.2 (if anyMissing then 206 else 200)))
          end)))).

(** The status of an error that may be [Err404]. *)
Definition or_404_500 {A B} (m : outcome A) (k : A → outcome (B + Z)) : outcome (B + Z) :=
  match m with
  | Ret a => k a
  | Err e => Ret (inr (if decide (e = Err404) then 404 else 500)%Z)
  | Panic => Panic
  | Running => Running
  end.

(** The state query: [fuel] bounds the links that are followed. *)
Definition frame_query (fuel : nat) (hub : controllerHub (T := T)) (refs : refStore T) (stateURI : bytes) (version : option ID)
    (kp : Keypath) (rng : option Range) (parents : bytes) : outcome (state_reply + Z) :=
  or_http 404 (hub_StateAtVersion hub stateURI version) (λ state,
    or_http 500 (Seek (hub_StateAtVersion hub) (λ id, let! r := hub_RefObjectReader refs id in Ret (snd <$> r)) fuel state kp) (λ found,
      match found with
      | None => Ret (inr 404%Z)
      | Some (FNode n) | Some (FRef n _) =>
          (* a frame embeds [CopyToMemory] of its node *)
          or_404_500 (db_CopyToMemory n [] rng) (λ copy,
            or_http 500 (Resolve (hub_StateAtVersion hub) (hub_RefObjectReader refs) fuel [] (lift_tree copy)) (λ '(h, state, anyMissing),
              or_http 500 (tnode_Exists h state (str "index.html")) (λ indexHTMLExists,
                if indexHTMLExists then
                  let! state := tnode_NodeAt h state (str "index.html") None in
                  respond_node parents (str "index.html") h state anyMissing
                else respond_node parents [] h state anyMissing)))
      end)).

(** The query of an index; its node is read like a state, and [*] asks for the whole index.
    [indices] are the databases of indices. *)
Definition index_query (js_index : ixscript → Keypath → mem → outcome (option (Keypath * mem))) (hub : controllerHub (T := T)) (indices : bytes → T)
    (indexName indexArg stateURI : bytes) (version : option ID) (kp : Keypath) (rng : option Range) (parents : bytes) : outcome (state_reply + Z) :=
  let arg := if decide (indexArg = str "*") then [] else indexArg in
  or_404_500 (let! r := hub_QueryIndex js_index hub indices stateURI version kp indexName arg rng in
              match r.2 with inl n => Ret n | inr e => Err e end)
    (λ n, respond_state parents kp n).

(** [serveGetState]. *)
Definition serveGetState_full (defaultStateURI : bytes) (fuel : nat) (js_index : ixscript → Keypath → mem → outcome (option (Keypath * mem)))
    (indices : bytes → T) (refs : refStore T) (hub : controllerHub (T := T)) (r : request) (query : bytes → bytes) : outcome (state_reply + Z) :=
  serveGetState defaultStateURI (index_query js_index hub indices) (frame_query fuel hub refs) hub r query.
End Query.
