(* ===== verification/StateServed.v ===== *)
(** * What a state query returns

    The composition of the database tree, [Seek], [CopyToMemory], [Resolve], the blob store
    and the HTTP handler: a state that links to a blob is served as the blob.  The examples
    at the end show what becomes of content types on the way. *)

From S2P Require Import Prelude Types Keypath TreeTypes GoValue GoPaths NodeCodec MemoryNode MemoryProps MemoryIter BadgerTxn DBNode DBProps DBClaims DBCopy.
From S2P Require Import Tx PatchParser TxStore Nelson Frames FrameProps Permissions Controller ControllerProps EndToEnd Hub Indices RefStore.
From S2P Require Import KeyStore HttpTx HttpSession Host HttpServe StateQuery.

(** ** Serving a blob *)

(** A frame that links to a blob. *)
Definition blob_link (link : bytes) : plain :=
  GMap [(ContentTypeKey, GScalar (SString (str "link"))); (ValueKey, GScalar (SString (str "ref:" ++ link)))].

Lemma blob_link_ok link : addressable (blob_link link) ∧ keys_min (blob_link link).
Proof.
  split; [split|].
  - apply keys_ok_map. split; [vm_decide|]. repeat constructor; try discriminate; vm_decide.
  - apply indexable_map. repeat constructor.
  - apply keys_min_map. repeat (apply Forall_cons_2; [split; [vm_decide|apply keys_min_scalar]|]). constructor.
Qed.

Lemma blob_link_positions link ps x : lookup_parts (blob_link link) ps = Some x → ps = [] ∨ ps = [ContentTypeKey] ∨ ps = [ValueKey].
Proof.
  destruct ps as [|p ps]; [by left|]. cbn [lookup_parts]. unfold blob_link. cbn [child assoc_get]. intros Hx. right.
  case_decide; [subst p|case_decide; [subst p|done]]; cbn in Hx; destruct ps; auto; done.
Qed.

(** Its copy in memory is a frame at the root. *)
Lemma blob_link_copy t link : copy_of t (blob_link link) → holder t (blob_link link) ∧ root_frame t ∧ length (keypaths t) ≤ 3.
Proof.
  intros [Hwf Hph Hk Hrep]. destruct (blob_link_ok link) as [Ha _].
  assert (∀ k, k ∈ keypaths t → k ∈ [[]; ContentTypeKey; ValueKey]) as Hks.
  { intros k Hin. apply node_shape_Some in Hin; [|done]. rewrite <- (Push_nil_l k), Hrep in Hin. unfold shape_at in Hin. apply fmap_is_Some in Hin as [x Hx].
    apply blob_link_positions in Hx. rewrite <- (join_path_parts k). destruct Hx as [-> |[-> | ->]]; set_solver. }
  split; [by split|]. split.
  - intros k Hin Hlt. apply Hks in Hin. apply elem_of_cons in Hin as [-> |Hin]; [reflexivity|]. apply elem_of_cons in Hin as [-> | ->%list_elem_of_singleton]; [reflexivity|].
    by apply bytes_lt_irrefl in Hlt.
  - change 3 with (length [[]; ContentTypeKey; ValueKey]). apply submseteq_length, NoDup_submseteq; [by apply sorted_lt_NoDup, wf_sorted|done].
Qed.

Lemma db_wf_NodeAt {T} `{BadgerTxn T} (n : DBNode T) kp : db_wf n → db_wf (db_NodeAt n kp None).
Proof. intros [Hp Hg Hs Hpar]. by split. Qed.

Lemma db_represents_NodeAt {T} `{BadgerTxn T} (n : DBNode T) kp v : rootKeypath n = [] → db_represents n kp v → db_represents (db_NodeAt n kp None) (Push (rootKeypath (db_NodeAt n kp None)) []) v.
Proof. intros Hr Hrep r. cbn [db_NodeAt rootKeypath]. rewrite Hr, Push_nil_l, Push_nil_r. exact (Hrep r). Qed.

Lemma db_string_held {T} `{HL : BadgerLaws T} (n : DBNode T) rel s :
  db_wf n → db_rng n = None → good_path (Push (rootKeypath n) rel) → db_represents n (Push (rootKeypath n) rel) (GScalar (SString s)) →
  db_StringValue n rel = Ret (Some s).
Proof.
  intros Hwf Hr Hp Hrep. destruct (db_Value_spec n rel (GScalar (SString s))) as (w & Hw & Heq); [done..|by split|].
  unfold db_StringValue, typed_value. rewrite Hw. cbn [obind]. specialize (Heq []). cbn in Heq. destruct w as [x|m|l|[]]; simplify_eq/=. done.
Qed.

Lemma held_exists {T} `{BadgerTxn T} (n : DBNode T) rel v : db_represents n (Push (rootKeypath n) rel) v → exists_at n rel = true.
Proof.
  intros Hrep. pose proof (Hrep []) as Hs. rewrite Push_nil_r in Hs. unfold exists_at, db_Exists. unfold db_shape, db_get in Hs.
  destruct (txn_get _ _); [done|]. by destruct v.
Qed.

(** What is stored lies below what is stored. *)
Lemma held_prefix {T} `{HL : BadgerLaws T} (n : DBNode T) ps v i :
  db_wf n → rootKeypath n = [] → Forall path_part ps → db_represents n (join_sep ps) v → exists_at n (join_sep (take i ps)) = true.
Proof.
  intros Hwf Hr Hps Hrep.
  assert (Forall good_key ps) as Hg by (eapply Forall_impl; [exact Hps|]; intros q []; by split).
  destruct (decide (join_sep (take i ps) = join_sep ps)) as [->|Hne]; [apply (held_exists n _ v); by rewrite Hr, Push_nil_l|].
  assert (is_Some (db_get n (join_sep ps))) as Hs.
  { pose proof (Hrep []) as Hs. rewrite Push_nil_r in Hs. unfold db_shape in Hs. destruct (db_get n _); [by eexists|by destruct v]. }
  destruct (dw_parents n Hwf (join_sep ps) (join_sep (take i ps))) as (sh & Hsh & _); [done|by apply good_path_join, Forall_take| |done|].
  - unfold below. rewrite <- (take_drop i ps) at 1. rewrite <- (join_path_parts (join_sep (take i ps ++ drop i ps))).
    assert (join_sep (take i ps ++ drop i ps) = Push (join_sep (take i ps)) (join_sep (drop i ps))) as ->; [|rewrite join_path_parts; apply StartsWith_Push].
    apply path_parts_inj. rewrite path_parts_Push, !path_parts_join; [done|by apply Forall_drop|by apply Forall_take|by rewrite take_drop].
  - unfold exists_at, db_Exists. rewrite Hr, Push_nil_l. unfold db_shape, db_get in Hsh. by destruct (txn_get _ _).
Qed.

Section Serving.
Context {T : Type} `{HL : BadgerLaws T} `{JsonCodec} `{ProtoCodec} `{MapOrder} `{Secp256k1} `{Configs T} `{Hashes} `{RefsJson}.
Context (SAV : bytes → option ID → outcome (DBNode T)) (refs : refStore T).

(** [Seek] at the frame asks for the blob. *)
Lemma seek_blob_link fuel (m : DBNode T) link ref :
  db_wf m → db_rng m = None → good_path (rootKeypath m) → db_represents m (Push (rootKeypath m) []) (blob_link link) →
  RefID_UnmarshalText (mkRefID HashAlgUnknown EmptyHash) link = Ret ref →
  Seek SAV (λ id, let! r := hub_RefObjectReader refs id in Ret (snd <$> r)) (S fuel) m [] =
    let! r := hub_RefObjectReader refs ref in Ret ((λ r, FRef m r.2) <$> r).
Proof using HL.
  intros Hwf Hr Hg Hrep Href.
  assert (∀ key x, good_key key → child (blob_link link) key = Some x → db_represents m (Push (rootKeypath m) key) x) as Hchild.
  { intros key x Hkey Hx. rewrite <- (Push_nil_r (rootKeypath m)) at 1. apply (db_represents_part _ _ (blob_link link)); [done|].
    rewrite path_parts_good by done. cbn [lookup_parts]. by rewrite Hx. }
  assert (good_key ValueKey ∧ good_key ContentTypeKey) as [Hvk Hck] by (split; split; first [discriminate|vm_decide]).
  assert (∀ key s, good_key key → child (blob_link link) key = Some (GScalar (SString s)) → db_StringValue m key = Ret (Some s)) as Hstr.
  { intros key s Hkey Hx. apply db_string_held; [done|done| |by apply Hchild]. apply good_path_Push. split; [done|]. unfold good_path. rewrite path_parts_good; [|done]. by constructor. }
  cbn [Seek p_Exists PlainNode_db]. rewrite db_Exists_at, (held_exists m ValueKey (GScalar (SString (str "ref:" ++ link)))) by (by apply Hchild). cbn [obind negb].
  unfold string_or_404. cbn [p_StringValue PlainNode_db]. rewrite (Hstr ContentTypeKey (str "link")) by done. cbn [obind]. rewrite decide_False by (intros Hn; by apply Hn).
  rewrite (Hstr ValueKey (str "ref:" ++ link)) by done. cbn [obind]. rewrite ref_link_type. rewrite decide_False by (cbn; lia). rewrite Href. cbn [obind].
  by destruct (hub_RefObjectReader refs ref) as [[[rd len]|]| | |].
Qed.

(** [Resolve] of its copy is a frame that reads the blob. *)
Lemma resolve_blob_copy ROR fuel t link ref rd len :
  copy_of t (blob_link link) → 3 < fuel → RefID_UnmarshalText (mkRefID HashAlgUnknown EmptyHash) link = Ret ref → ROR ref = Ret (Some (rd, len)) →
  Resolve SAV ROR fuel [] (lift_tree t) = Ret ([mkFrame (InMem (value_copy t)) [] len (Some rd) true None], NRef (Fr 0), false).
Proof using Type.
  intros Hco Hfuel Href Hror. destruct (blob_link_copy t link Hco) as (Hh & Hf & Hlen).
  rewrite (resolve_root SAV ROR t (blob_link link) (GScalar (SString (str "ref:" ++ link))) (Some (str "link")) None Hh Hf eq_refl eq_refl eq_refl [] fuel
    [] (with_resolved (with_length (with_override (mkFrame (InMem (value_copy t)) [] 0 None false None) rd) len) true) false); [|lia|].
  - rewrite described_link by done. cbn. by case_decide.
  - intros rec it. rewrite (blob_frame SAV ROR t (blob_link link) _ (Some (str "link")) Hh eq_refl eq_refl [] rec it link ref eq_refl eq_refl Href). by rewrite Hror.
Qed.

(** The tree of the frame: a text and nothing below it. *)
Lemma value_copy_text (I : NodeIface fref heap) h t link :
  copy_of t (blob_link link) →
  @Exists _ _ I h (value_copy t) (str "index.html") = Ret false ∧ Length (value_copy t) = Z.of_nat (length (str "ref:" ++ link)).
Proof using Type.
  intros Hco. destruct (blob_link_copy t link Hco) as (Hh & _ & _). pose proof (value_copy_holds t _ (GScalar (SString (str "ref:" ++ link))) Hh eq_refl) as Hholds.
  destruct (value_copy_frame t) as [Hk _]. pose proof (copy_readable _ (copy_wf t _ Hh)) as Hread. fold (value_copy t) in Hread. split.
  - unfold Exists. rewrite delegate_local.
    + f_equal. apply bool_decide_eq_false. rewrite Hk. destruct (makeCopy_tables (mkMemoryNode ValueKey None (keypaths t) (values (lift_tree t)) (nodeTypes t) (contentLengths t) false None)
        (Push ValueKey (str "index.html"))) as (_ & Hty & _). fold (value_copy t) in Hty. rewrite Hty. rewrite decide_False; [by intros []|].
      intros Hin. apply (rd_shape _ Hread) in Hin. rewrite Hholds in Hin. by destruct Hin.
    + apply no_nodes_local. intros k. destruct (makeCopy_tables (mkMemoryNode ValueKey None (keypaths t) (values (lift_tree t)) (nodeTypes t) (contentLengths t) false None) k) as (_ & Hty & _).
      fold (value_copy t) in Hty. rewrite Hty. case_decide; [|done]. unfold node_type. cbn [nodeTypes]. intros [= Hn]. destruct (nodeTypes t !! k) as [ty|] eqn:Ht; [|done]. cbn in Hn. subst ty.
      by destruct (wf_node t (hd_wf _ _ Hh) k Ht) as [[] _].
  - pose proof (held_at (value_copy t) ValueKey _ Hholds [] _ eq_refl) as [Hty Hval]. rewrite Push_nil_r in Hty, Hval. unfold Length, node_type, value_at. by rewrite Hk, Hty, Hval.
Qed.

End Serving.

Section Served.
Context {T : Type} `{HL : BadgerLaws T} `{JsonCodec} `{ProtoCodec} `{MapOrder} `{Secp256k1} `{Configs T} `{Hashes} `{RefsJson}.
Context (refs : refStore T).

(** C3: a link to a blob that lies below nodes that are no frames is served as the blob, with its
    length, by every query of its keypath; if the blob store does not have it, the answer is
    404, and no part of the state is read in its place. *)
Theorem linked_blob_served fuel (hub : controllerHub (T := T)) uri version (n : DBNode T) ps link ref parents :
  hub_StateAtVersion hub uri version = Ret n → db_wf n → rootKeypath n = [] → db_rng n = None →
  Forall path_part ps → (∀ i, i < length ps → exists_at n (Push (join_sep (take i ps)) ValueKey) = false) →
  db_represents n (join_sep ps) (blob_link link) → RefID_UnmarshalText (mkRefID HashAlgUnknown EmptyHash) link = Ret ref →
  length ps + 3 < fuel →
  match Object refs ref with
  | Ret (blob, len) => frame_query fuel hub refs uri version (join_sep ps) None parents =
      Ret (inl (mkStateReply parents (str "application/octet-stream") (if decide (0 < len) then FormatInt (Z.of_nat len) else [])
                  (FormatUint (Z.of_nat (length (str "ref:" ++ link)))) [] blob 200))
  | Err e => frame_query fuel hub refs uri version (join_sep ps) None parents = Ret (inr (if decide (e = ErrNotExist) then 404%Z else 500%Z))
  | _ => True
  end.
Proof.
  intros Hn Hwf Hroot Hrng Hps Habove Hrep Href Hfuel. set (m := db_NodeAt n (join_sep ps) None).
  assert (Forall good_key ps) as Hg by (eapply Forall_impl; [exact Hps|]; intros q []; by split).
  assert (Hm := db_represents_NodeAt n (join_sep ps) _ Hroot Hrep). fold m in Hm.
  assert (Hseek : ∀ r, hub_RefObjectReader refs ref = r →
    Seek (hub_StateAtVersion hub) (λ id, let! r := hub_RefObjectReader refs id in Ret (snd <$> r)) fuel n (join_sep ps) = let! r := r in Ret ((λ r, FRef m r.2) <$> r)).
  { intros r <-. replace fuel with (length ps + S (fuel - length ps - 1)) by lia. rewrite seek_down.
    - apply (seek_blob_link _ _ _ _ link); [by apply db_wf_NodeAt|done| |done|done]. cbn. rewrite Hroot, Push_nil_l. by apply good_path_join.
    - done.
    - intros i Hi. split; [by apply Habove|]. by apply (held_prefix n ps (blob_link link)). }
  unfold frame_query, or_http. rewrite Hn. destruct (Object refs ref) as [[blob len]|e| |] eqn:Hobj; try done.
  - assert (hub_RefObjectReader refs ref = Ret (Some (mkBlobReader blob, Z.of_nat len))) as Hror by (unfold hub_RefObjectReader; by rewrite Hobj).
    rewrite (Hseek _ Hror). cbn [obind fmap option_fmap option_map snd].
    destruct (db_CopyToMemory_spec m [] (blob_link link)) as (t & -> & Hco); [by apply db_wf_NodeAt|done|cbn; rewrite Hroot, Push_nil_l, Push_nil_r; by apply good_path_join|exact Hm|apply blob_link_ok|].
    change (widen_val (blob_link link)) with (blob_link link) in Hco. cbn [or_404_500].
    rewrite (resolve_blob_copy _ _ fuel t link ref _ _ Hco ltac:(lia) Href Hror). set (f := mkFrame _ _ _ _ _ _).
    destruct (value_copy_text (frame_level 1).1 [f] t link Hco) as [Hex Hlen].
    change (tnode_Exists [f] (NRef (Fr 0)) (str "index.html")) with (@Exists _ _ (frame_level 1).1 [f] (value_copy t) (str "index.html")).
    rewrite Hex. unfold respond_node, or_http. change (tnode_GetContentType [f] (NRef (Fr 0))) with (Ret (str "application/octet-stream")).
    cbv beta iota. rewrite !(decide_True (P := str "application/octet-stream" = str "application/octet-stream")) by done. change (Part [] (-1)) with (Ret (Some (@nil byte))). cbn [obind].
    change (tnode_GetContentLength [f] (NRef (Fr 0))) with (Ret (Z.of_nat len)). change (tnode_Length [f] (NRef (Fr 0))) with (Ret (Length (value_copy t))). rewrite Hlen.
    change (tnode_GetValueRecursive [f] (NRef (Fr 0)) [] None) with (Ret (Some (GNode (mkBlobReader blob) : fval))). cbn [obind].
    change (GuessContentTypeFromFilename (nilable (Some []))) with (str "application/octet-stream").
    destruct (decide (str "application/octet-stream" = str "application/octet-stream")) as [_|Hne]; [|done].
    unfold frame_body. cbn [fval_reader obind fst snd blob_content]. change (allowSubscribe (str "application/octet-stream")) with (@nil byte).
    destruct (decide (0 < len)); [rewrite decide_True by lia|rewrite decide_False by lia]; done.
  - destruct (decide (e = ErrNotExist)) as [He|He].
    + by rewrite (Hseek (Ret None)) by (unfold hub_RefObjectReader; by rewrite Hobj, decide_True).
    + by rewrite (Hseek (Err e)) by (unfold hub_RefObjectReader; by rewrite Hobj, decide_False).
Qed.
End Served.

(** ** Examples *)

#[local] Existing Instance toy_curve.
#[local] Existing Instance plain_configs.
#[local] Existing Instance toy_json.
#[local] Existing Instance toy_hashes.

Definition current (v : plain) : outcome (DBNode (gmap bytes bytes)) := db_Set (StateAtVersion (λ _, ∅) CurrentVersion true) [] None v.
Definition serving (v : plain) : controllerHub (T := gmap bytes bytes) :=
  mkHub {[read_uri := NewController read_uri (match current v with Ret n => db_tx n | _ => ∅ end)]} ∅.

Definition ref_a_text : bytes := match RefID_String ref_a with Ret b => b | _ => [] end.

Definition html (text : string) : plain := GMap [(ContentTypeKey, GScalar (SString (str "text/html"))); (ValueKey, GScalar (SString (str text)))].

Definition served (v : plain) (kp : string) : outcome (option (bytes * bytes)) :=
  let! r := frame_query 50 (serving v) example_store read_uri None (str kp) None [] in
  Ret match r with inl r => Some (sr_ContentType r, sr_body r) | inr _ => None end.

(** The same frame is served with its content type as the [index.html] of its parent, and as
    JSON when it is asked for itself: [Seek] enters it and leaves the content type behind. *)
Example content_type_of_index : served (GMap [(str "index.html", html "<p>")]) "" = Ret (Some (str "text/html", str "<p>")).
Proof. vm_compute. reflexivity. Qed.

Example content_type_lost : served (GMap [(str "index.html", html "<p>")]) "index.html" = Ret (Some (str "application/json", str "<p>")).
Proof. vm_compute. reflexivity. Qed.

(** The type of a blob is guessed from a keypath that has been emptied before: only a blob
    behind [index.html] has one. *)
Example blob_type_guessed :
  served (GMap [(str "a.png", blob_link ref_a_text)]) "a.png" = Ret (Some (str "application/octet-stream", blob_a)) ∧
  served (GMap [(str "index.html", blob_link ref_a_text)]) "" = Ret (Some (str "text/html", blob_a)).
Proof. split; vm_compute; reflexivity. Qed.

(** A state whose key [photo] links to a blob. *)
Definition empty_state : DBNode (gmap bytes bytes) := StateAtVersion (λ _, ∅) CurrentVersion true.
Definition photo_states : gmap bytes bytes := match db_Set empty_state (str "photo") None (blob_link ref_a_text) with Ret n => db_tx n | _ => ∅ end.
Definition photo_node : DBNode (gmap bytes bytes) := controller_StateAtVersion (NewController read_uri photo_states) None.

Lemma photo_held : db_wf photo_node ∧ db_represents photo_node (str "photo") (blob_link ref_a_text).
Proof.
  destruct (db_Set_spec empty_state (str "photo") (blob_link ref_a_text)) as (n & Hs & Hres & Hwf & Hrep).
  - split; [done|..]; intros k; [by intros []|done|by intros ? []].
  - split; [done| |apply blob_link_ok| |].
    + repeat constructor; [discriminate|]. unfold no_sep. vm_compute. set_solver.
    + apply machine_ok_map; [done|]. repeat constructor; by apply machine_ok_scalar.
    + intros q sh _ Hq. discriminate Hq.
  - assert (∀ k, db_get photo_node k = db_get n k) as Hget.
    { intros k. unfold db_get, photo_node, photo_states. rewrite Hs. unfold addKeyPrefix. by destruct (dr_same _ _ _ _ Hres) as (-> & _). }
    split.
    + destruct Hwf as [_ Hg Hst Hpar]. split; [done|..].
      * intros k. rewrite Hget. apply Hg.
      * intros k. rewrite Hget. apply Hst.
      * intros k p. rewrite Hget. unfold db_shape. rewrite Hget. apply Hpar.
    + intros r. unfold db_shape. rewrite Hget. apply Hrep.
Qed.

Lemma linked_blob_served_witness :
  frame_query 9 (mkHub {[read_uri := NewController read_uri photo_states]} ∅) example_store read_uri None (str "photo") None [] =
    Ret (inl (mkStateReply [] (str "application/octet-stream") (FormatInt 9) (FormatUint 73) [] blob_a 200)).
Proof.
  apply (linked_blob_served example_store 9 (mkHub {[read_uri := NewController read_uri photo_states]} ∅) read_uri None photo_node [str "photo"] ref_a_text ref_a []).
  - reflexivity.
  - apply photo_held.
  - reflexivity.
  - reflexivity.
  - repeat constructor; vm_decide.
  - intros [|i] Hi; [vm_compute; reflexivity|cbn in Hi; lia].
  - apply photo_held.
  - vm_compute. reflexivity.
  - cbn. lia.
Defined.
